(* ===== verification/_CoqProject ===== *)
-Q . S2P
Prelude.v
Text.v
Codec.v
Milli.v
Coin.v
Crypto.v
Merkle.v
Params.v
Account.v
TxTypes.v
Validation.v
BitVec.v
Events.v
Filter.v
Punishment.v
Genesis.v
Storage.v
EnclaveProtocol.v
EnclaveCodec.v
Enclave.v
EnclaveServer.v
ServerContract.v
AppState.v
Slashing.v
Rewards.v
BeginBlock.v
DeliverTx.v
EndBlock.v
TreeCodec.v
NodeCodec.v
Commit.v
InitChain.v
Client.v
WalletBuilder.v
WalletFee.v
WalletSync.v
ClientStorage.v
MultiSig.v
CoSign.v
HdWallet.v
Services.v
WalletStore.v
WalletClient.v
Rpc.v
Address.v
Syncer.v
Query.v
NetworkOps.v
TxQuery.v
WebsocketRpc.v
RpcClient.v
Mock.v
