(* ===== verification/Prelude.v ===== *)
(** * Crypto.com Chain: a verification library

    The program is a permissioned proof-of-stake chain: an ABCI application that
    Tendermint drives block by block, enclaves that hold the plain transactions, and
    wallets.  Transfers, deposits and withdrawals are encrypted; the application sees
    their identifiers and inputs and asks the validation enclave whether they are
    valid.  Staking transactions are public and validated by the application.  Wallets
    keep keys and unspent outputs in an encrypted storage, follow the chain through
    Tendermint's RPC, and have transactions encrypted and decrypted by the query enclave.

    ** Conventions

    Rust functions are Rocq functions.  A value of [Result<A, E>] is a [result E A];
    a panic ([unwrap], [expect], an index out of range, an assertion) is the [None] of
    an [option]; a function that may do both returns a [run E A].  Mutable state is
    passed and returned; the services of a wallet run in a small state monad over the
    storage ([io]).  Integers are [Z] with their width in predicates ([is_u64]) and their
    wrapping written out ([as_u64]).  A [BTreeMap] is a [gmap] iterated in the order of
    its keys ([btree_iter]).  Bytes and strings are lists of bytes.

    Most loops are structural; [split_join] of [Merkle] is well-founded.  Where a loop
    has fuel, the fuel is proved to suffice: 66 rounds for the square root of [Milli],
    whose error is halved in each round; the number of trees for the rounds of a Merkle
    tree; the length of the list for [bytes_of_bits], the binary search of [MultiSig] and
    the chunks of [Syncer]; the length of the input for the decoder of trees in
    [TreeCodec]; the supply plus one for the fee rounds of the wallet's selection in
    [WalletBuilder], since the fee rises in each round that does not end; 20 digits for a
    number of 64 bits.  The retries of a wallet (3) and of the websocket client (50) are
    those of the source.

    Crates outside the repository are classes of operations, with their documented
    behaviour as a class of laws and a concrete instance that shows the laws can hold:
    [Scale], [ScaleSizes] and [ScaleVec] (parity-scale-codec), [Hashes], [Secp256k1],
    [ClientKeys], [Ecdsa] and [MuSig] (keys and signatures), [HdCrypto] (the arithmetic of
    hierarchical keys and mnemonics), [Hex], [Base64], [Bech32], [BitVecLib] (bit-vec),
    [KeyValueDB] (kvdb), [StarlingTree] (the account trie), [Sled], [FixedLib] (fixed),
    [SerdeJson], [QueryJson], [Json], [JsonRpc] and [RpcJson] (JSON), [VarInt],
    [GenesisLib] (configuration and protobuf), [Sgx], [Aead] and [EnclaveBuild] (sealing
    and the ciphers), [OsRng], [TimeLib] and [EpochTime], [TendermintLib] and
    [LiteVerifier] (the light client).  Nothing is assumed of the hash functions but the
    length of a digest: where a property needs more, it returns the collision.  The traits
    of the source are classes or records as well: [EnclaveProxy], [Store], [FeeAlgorithm],
    [Client].

    ** Files and what they show

    Foundations.  [Prelude]: results, integers, sums, ordered maps, tactics and hint
    databases.  [Text]: strings.  [Codec]: encodings with their laws, namely that
    decoding reads back what was encoded ([codec_ok]), returns well-typed values
    ([codec_typed]) and never returns something else ([codec_sound]).  [Crypto],
    [BitVec], [Events].

    Data of the chain (src/chain-core).  [Milli] and [Coin]: fees, coins and voting
    powers; the arithmetic is exact within the supply and fails as documented.
    [Merkle]: the tree built in rounds is the recursively split tree, proofs are
    complete, and sound up to a collision.  [TreeCodec]: the encoding of trees.
    [Params], [Account] (staked states, whose operations conserve coins), [TxTypes]
    (transactions, their encodings and round trips), [Genesis] (in an accepted
    configuration the accounts and the coins still to be minted make up the supply),
    [Address] (the network of a process and the texts of addresses).

    Validation (src/chain-tx-validation, src/chain-tx-filter).  [Validation]: each
    kind of transaction is accepted exactly when its specification holds, which names
    the account it leaves.  [Filter]: no false negatives.

    Enclaves (src/enclave-protocol, src/chain-tx-enclave).  [EnclaveProtocol]: the
    messages, the class [EnclaveProxy] of connections, and the class
    [EnclaveContract], what the application relies on when a connection accepts a
    transaction.  [EnclaveCodec]: the encodings of the messages.  [Enclave]: the
    validation enclave.  [EnclaveServer]: the server around it and the client of the
    node.  [ServerContract]: that client satisfies [EnclaveContract], so the theorems
    of the application hold with the server behind it; the filter of a block is
    complete.  [TxQuery]: the query enclave with the wallet's cipher
    (src/client-core/src/cipher); a transaction leaves the enclave only for an allowed
    view key whose owner signed the challenge, and what a wallet gets for identifiers and
    for transactions to encrypt is exactly what the server keeps and the validation
    library accepts.  [Mock]: the build without enclaves.

    Application (src/chain-abci).  [Punishment]: liveness and slashing schedules.
    [Storage]: the records of outputs, no double spending; the account trie.
    [AppState]: the state.  [Slashing], [Rewards], [BeginBlock]: the start of a block
    keeps the invariant of the state and conserves coins; the one panic left is that of the
    fixed-point library.  [DeliverTx]: an accepted transaction pays the fee of its kind,
    conserves the coins that validation counted, spends its public inputs and cannot be
    replayed; it is proved against [EnclaveContract].  [EndBlock]: the updates sent to Tendermint
    refine the selection of the most powerful nodes.  [NodeCodec], [Commit]: a block
    is made durable, with its hash and the records of its outputs.  [InitChain]: genesis
    establishes the invariant, a restart restores what was committed, and differs from
    the node that kept running in the voting powers of zero.  [Query]: what a node tells
    its clients; a committed transaction with a public body and witness is proved against
    the application hash.

    Keys and storage of the client (src/client-common, src/client-core).  [Client]: keys,
    errors, multi-signature addresses.  [ClientStorage]: the storage and its encrypted
    layer.  [Services] and [WalletStore]: keys, addresses, wallets and their states in
    it, with a logic of total correctness for the services.  [HdWallet]: hierarchical
    keys.  [MultiSig] and [CoSign]: sessions of co-signers, who never reuse a nonce and,
    when they follow the protocol, produce a signature that the chain accepts.

    Wallets.  [WalletBuilder] and [WalletFee]: the selection of inputs, building and
    signing of transfers, and whether their fee is enough for the chain.  [WalletSync]:
    the effect of blocks on the state of a wallet, when no block spends what the same
    batch creates.  [WalletClient]: the wallet over its
    services; every address it gives out stays usable, and a transfer it makes is accepted
    by the chain.  [NetworkOps] (src/client-network): staking with the keys of a wallet;
    what it makes from the account that the node answers is decided on its merits.

    Following the chain.  [Rpc]: what a client reads from blocks and their results.
    [WebsocketRpc]: the threads of the websocket client as a transition system; the
    values of a call answer its own requests, and a failed batch ends the reading thread.
    [RpcClient]: the calls of the trait
    [Client] over it; no block is returned unverified, and the committed states are read
    back with their application hash, which discharges what [NetworkOps] assumes of a
    node.  [Syncer]: the synchronisation of a wallet, without fast forward, ends in the
    state that the transactions kept by its filter give.

    ** Not modelled

    Remote attestation, certificates and the set-up of TLS (src/client-core/src/cipher/sgx.rs
    and cert.rs, the files attest.rs and cert.rs of the query enclave): calls of the SGX and
    TLS libraries, whose answers are opaque to the program.  The database adaptor of the
    account trie (src/chain-abci/src/storage/account/tree.rs): it exposes the kvdb store to
    the starling library, and the trie is a class with its laws.  The sled storage and the
    storage that refuses every call.  The HTTP client, whose feature does not build.  The
    node binary, the command line and the RPC server (src/client-cli, src/client-rpc): they
    parse arguments, prompt and pass calls on to [WalletClient] and [NetworkOps].  The
    development tools, integration tests and test fixtures.  Logging, progress reports,
    the messages of errors, and the serde forms of configuration files and RPC arguments. *)

From stdpp Require Import base tactics option list gmap strings sorting.
From Stdlib Require Import ZArith Lia.
From Stdlib Require Strings.Byte.

#[global] Open Scope Z_scope.

(** ** Results

    [result E A] is Rust's [Result<A, E>].  A Rust panic ([unwrap], [expect],
    [panic!], an index out of range, a division by zero) is the [None] of an
    [option]. *)

Inductive result (E A : Type) : Type :=
  | Ok (a : A)
  | Err (e : E).
Arguments Ok {E A} a.
Arguments Err {E A} e.

#[global] Instance result_bind {E} : MBind (result E) :=
  λ A B f r, match r with Ok a => f a | Err e => Err e end.
#[global] Instance result_fmap {E} : FMap (result E) :=
  λ A B f r, match r with Ok a => Ok (f a) | Err e => Err e end.
#[global] Instance result_ret {E} : MRet (result E) := λ A a, Ok a.
#[global] Instance result_eq_dec {E A} `{EqDecision E} `{EqDecision A} :
  EqDecision (result E A).
Proof. solve_decision. Defined.

Definition is_ok {E A} (r : result E A) : bool :=
  match r with Ok _ => true | Err _ => false end.

(** [Option::ok_or], [Result::ok], [Result::map_err] and [Result::unwrap]. *)
Definition ok_or {E A} (o : option A) (e : E) : result E A :=
  match o with Some a => Ok a | None => Err e end.
Definition ok {E A} (r : result E A) : option A :=
  match r with Ok a => Some a | Err _ => None end.
Definition map_err {E F A} (f : E → F) (r : result E A) : result F A :=
  match r with Ok a => Ok a | Err e => Err (f e) end.
Abbreviation unwrap := ok.

(** A computation that may panic and that otherwise returns a [Result]. *)
Declare Scope run_scope.
Delimit Scope run_scope with run.
Abbreviation run E A := (option (result E A)).
Definition run_bind {E A B} (m : run E A) (f : A → run E B) : run E B :=
  match m with
  | None => None
  | Some (Err e) => Some (Err e)
  | Some (Ok a) => f a
  end.
Notation "x ?← m ; k" := (run_bind m (fun x => k))
  (at level 20, m at level 100, k at level 200, only parsing) : run_scope.
#[global] Open Scope run_scope.

(** ** Machine integers

    Integers are kept in [Z] at their width.  Arithmetic that Rust checks goes
    through [checked_*]; plain [+], [-] and [*] wrap, as in a release build. *)

Definition U8_MAX : Z := 255.
Definition U16_MAX : Z := 65535.
Definition U32_MAX : Z := 4294967295.
Definition U64_MAX : Z := 18446744073709551615.
Definition U128_MAX : Z := 340282366920938463463374607431768211455.
Definition I64_MAX : Z := 9223372036854775807.

Definition is_u8 (z : Z) : Prop := 0 ≤ z ≤ U8_MAX.
Definition is_u16 (z : Z) : Prop := 0 ≤ z ≤ U16_MAX.
Definition is_u32 (z : Z) : Prop := 0 ≤ z ≤ U32_MAX.
Definition is_u64 (z : Z) : Prop := 0 ≤ z ≤ U64_MAX.
Definition is_i64 (z : Z) : Prop := - I64_MAX - 1 ≤ z ≤ I64_MAX.

Definition as_u8 (z : Z) : Z := z mod (U8_MAX + 1).
Definition as_u16 (z : Z) : Z := z mod (U16_MAX + 1).
Definition as_u64 (z : Z) : Z := z mod (U64_MAX + 1).
Definition as_i64 (z : Z) : Z :=
  let u := as_u64 z in if u <=? I64_MAX then u else u - (U64_MAX + 1).

Definition checked_add (a b : Z) : option Z :=
  if a + b <=? U64_MAX then Some (a + b) else None.
Definition checked_sub (a b : Z) : option Z :=
  if b <=? a then Some (a - b) else None.
Definition checked_mul (a b : Z) : option Z :=
  if a * b <=? U64_MAX then Some (a * b) else None.
Definition checked_div (a b : Z) : option Z :=
  if b =? 0 then None else Some (a / b).
Definition checked_rem (a b : Z) : option Z :=
  if b =? 0 then None else Some (a mod b).

(** [i64::try_from] on an unsigned value. *)
Definition i64_try_from (z : Z) : option Z :=
  if z <=? I64_MAX then Some z else None.

Create HintDb ints discriminated.
#[export] Hint Unfold is_u8 is_u16 is_u32 is_u64 is_i64 : ints.
#[export] Hint Unfold U8_MAX U16_MAX U32_MAX U64_MAX U128_MAX I64_MAX : ints.

Ltac ints := autounfold with ints in *; lia.

Lemma as_u64_small z : is_u64 z → as_u64 z = z.
Proof. intros. apply Z.mod_small. ints. Qed.

Lemma as_u64_range z : is_u64 (as_u64 z).
Proof. pose proof (Z.mod_pos_bound z (U64_MAX + 1)). unfold as_u64. ints. Qed.

Lemma as_u16_small z : is_u16 z → as_u16 z = z.
Proof. intros. apply Z.mod_small. ints. Qed.

Lemma as_i64_small z : 0 ≤ z ≤ I64_MAX → as_i64 z = z.
Proof.
  intros. unfold as_i64. rewrite as_u64_small by ints.
  destruct (Z.leb_spec z I64_MAX); [done | ints].
Qed.
#[export] Hint Resolve as_u64_range : ints.

(** ** Bytes *)

Abbreviation byte := Byte.byte.
#[global] Instance byte_eq_dec : EqDecision byte := Byte.byte_eq_dec.
#[global] Instance byte_countable : Countable byte :=
  inj_countable Byte.to_N Byte.of_N Byte.of_to_N.

Definition byte_to_Z (b : byte) : Z := Z.of_N (Byte.to_N b).
Definition byte_of_Z (z : Z) : byte :=
  match Byte.of_N (Z.to_N (as_u8 z)) with Some b => b | None => Byte.x00 end.

Lemma byte_to_Z_range b : is_u8 (byte_to_Z b).
Proof. unfold byte_to_Z. pose proof (Byte.to_N_bounded b). ints. Qed.

Lemma byte_of_to_Z b : byte_of_Z (byte_to_Z b) = b.
Proof.
  pose proof (byte_to_Z_range b) as Hr. unfold byte_of_Z, as_u8.
  rewrite Z.mod_small by ints. unfold byte_to_Z.
  by rewrite N2Z.id, Byte.of_to_N.
Qed.

Lemma byte_to_of_Z z : is_u8 z → byte_to_Z (byte_of_Z z) = z.
Proof.
  intros Hz. unfold byte_of_Z, as_u8. rewrite Z.mod_small by ints.
  destruct (Byte.of_N (Z.to_N z)) as [b|] eqn:E.
  - apply Byte.to_of_N_iff in E. unfold byte_to_Z. rewrite E. ints.
  - apply Byte.of_N_None_iff in E. ints.
Qed.

#[export] Hint Resolve byte_to_Z_range : ints.

(** The eight bits of a byte, the most significant first. *)
Definition byte_bits (b : byte) : list bool :=
  Z.testbit (byte_to_Z b) <$> [7; 6; 5; 4; 3; 2; 1; 0].

(** Lexicographic order on byte strings: the [Ord] of [\[u8; n\]]. *)
Fixpoint bytes_leb (a b : list byte) : bool :=
  match a, b with
  | [], _ => true
  | _ :: _, [] => false
  | x :: a', y :: b' =>
      (byte_to_Z x <? byte_to_Z y)
      || ((byte_to_Z x =? byte_to_Z y) && bytes_leb a' b')
  end.

Lemma bytes_leb_cons x a y b :
  bytes_leb (x :: a) (y :: b) = true ↔
  byte_to_Z x < byte_to_Z y ∨ (byte_to_Z x = byte_to_Z y ∧ bytes_leb a b = true).
Proof. simpl. rewrite orb_true_iff, andb_true_iff, Z.ltb_lt, Z.eqb_eq. done. Qed.

Lemma byte_to_Z_inj a b : byte_to_Z a = byte_to_Z b → a = b.
Proof. intros H. rewrite <- (byte_of_to_Z a), <- (byte_of_to_Z b). by f_equal. Qed.

(** ** Loops

    At most so many rounds of a loop, each of which gives the next state or the
    result; the number is binary, so that a large bound costs nothing. *)

Fixpoint rounds {S R} (step : S → S + R) (p : positive) (s : S) : S + R :=
  match p with
  | xH => step s
  | xO p => match rounds step p s with inl s => rounds step p s | inr r => inr r end
  | xI p =>
      match step s with
      | inl s => match rounds step p s with inl s => rounds step p s | inr r => inr r end
      | inr r => inr r
      end
  end.

Section rounds.
Context {S R : Type} (step : S → S + R) (P : S → Prop) (μ : S → Z).
Hypothesis step_down : ∀ s s', P s → step s = inl s' → P s' ∧ μ s' < μ s.

Lemma rounds_inl p s s' : P s → rounds step p s = inl s' → P s' ∧ μ s' ≤ μ s - Zpos p.
Proof.
  revert s s'. induction p as [p IH|p IH|]; intros s s' Hs Hr; simpl in Hr.
  - destruct (step s) as [s1|] eqn:E1; [|done]. destruct (rounds step p s1) as [s2|] eqn:E2; [|done].
    destruct (step_down _ _ Hs E1) as [H1 ?]. destruct (IH _ _ H1 E2) as [H2 ?].
    destruct (IH _ _ H2 Hr) as [? ?]. split; [done | lia].
  - destruct (rounds step p s) as [s1|] eqn:E1; [|done].
    destruct (IH _ _ Hs E1) as [H1 ?]. destruct (IH _ _ H1 Hr) as [? ?]. split; [done | lia].
  - destruct (step_down _ _ Hs Hr). split; [done | lia].
Qed.

Lemma rounds_inr p s r : P s → rounds step p s = inr r → ∃ s', P s' ∧ step s' = inr r.
Proof.
  revert s. induction p as [p IH|p IH|]; intros s Hs Hr; simpl in Hr.
  - destruct (step s) as [s1|] eqn:E1; [|injection Hr as <-; by exists s].
    destruct (step_down _ _ Hs E1) as [H1 _]. destruct (rounds step p s1) as [s2|] eqn:E2.
    + destruct (rounds_inl _ _ _ H1 E2). by eapply IH.
    + injection Hr as <-. by eapply IH.
  - destruct (rounds step p s) as [s1|] eqn:E1.
    + destruct (rounds_inl _ _ _ Hs E1). by eapply IH.
    + injection Hr as <-. by eapply IH.
  - by exists s.
Qed.

(** A measure below the bound makes the loop end, with the result of a round. *)
Lemma rounds_end p s :
  P s → (∀ s, P s → 0 ≤ μ s) → μ s < Zpos p →
  ∃ s' r, P s' ∧ step s' = inr r ∧ rounds step p s = inr r.
Proof.
  intros Hs Hpos Hlt. destruct (rounds step p s) as [s'|r] eqn:E.
  - destruct (rounds_inl _ _ _ Hs E) as [Hs' ?]. pose proof (Hpos _ Hs'). lia.
  - destruct (rounds_inr _ _ _ Hs E) as (s' & ? & ?). by exists s', r.
Qed.
End rounds.

(** ** Stable sorting

    [sort_by] and [sort_by_key] keep equal elements in their order. *)

Section stable_sort.
Context {A : Type} (R : A → A → Prop) `{!∀ x y, Decision (R x y)}.

Fixpoint sort_insert (x : A) (l : list A) : list A :=
  match l with
  | [] => [x]
  | y :: l' => if decide (R x y) then x :: l else y :: sort_insert x l'
  end.

Definition stable_sort (l : list A) : list A := foldr sort_insert [] l.

Lemma sort_insert_perm x l : sort_insert x l ≡ₚ x :: l.
Proof.
  induction l as [|y l IH]; simpl; [done|]. case_decide; [done|].
  rewrite IH. apply Permutation_swap.
Qed.

Lemma stable_sort_perm l : stable_sort l ≡ₚ l.
Proof. induction l as [|x l IH]; simpl; [done|]. by rewrite sort_insert_perm, IH. Qed.

Lemma stable_sort_sorted `{!Total R, !Transitive R} l : StronglySorted R (stable_sort l).
Proof.
  induction l as [|x l IH]; simpl; [constructor|]. revert IH. generalize (stable_sort l).
  induction l0 as [|y l' IH']; simpl; intros Hs; [repeat constructor|].
  apply StronglySorted_inv in Hs as [Hs Hy]. case_decide as Hxy.
  - constructor; [by constructor|]. constructor; [done|].
    eapply Forall_impl; [exact Hy|]. intros z ?. by etrans.
  - constructor; [by apply IH'|]. rewrite sort_insert_perm. constructor; [|done].
    by destruct (total R x y).
Qed.
End stable_sort.

(** ** Ordered keys and [BTreeMap]

    A [BTreeMap] is a [gmap]; [btree_iter] is its iteration order. *)

Class OrdKey (K : Type) := {
  key_leb : K → K → bool;
  key_leb_total a b : key_leb a b = true ∨ key_leb b a = true;
  key_leb_trans a b c : key_leb a b = true → key_leb b c = true → key_leb a c = true;
  key_leb_antisym a b : key_leb a b = true → key_leb b a = true → a = b;
}.

#[global] Instance bytes_ord : OrdKey (list byte).
Proof.
  refine {| key_leb := bytes_leb |}.
  - induction a as [|x a IH]; intros [|y b]; auto.
    rewrite !bytes_leb_cons.
    destruct (IH b), (Z.lt_trichotomy (byte_to_Z x) (byte_to_Z y)) as [?|[?|?]]; auto.
  - induction a as [|x a IH]; intros [|y b] [|z c]; try done.
    rewrite !bytes_leb_cons. intros [?|[? ?]] [?|[? ?]]; try lia.
    right. split; [lia | eauto].
  - induction a as [|x a IH]; intros [|y b]; try done.
    rewrite !bytes_leb_cons. intros [?|[? ?]] [?|[? ?]]; try lia.
    f_equal; [by apply byte_to_Z_inj | auto].
Defined.

#[global] Instance Z_ord : OrdKey Z.
Proof. refine {| key_leb := Z.leb |}; lia. Defined.

#[global] Instance pair_ord {A B} `{EqDecision A} `{OrdKey A} `{OrdKey B} : OrdKey (A * B).
Proof.
  refine {| key_leb p q :=
    if decide (p.1 = q.1) then key_leb p.2 q.2 else key_leb p.1 q.1 |}.
  - intros [a b] [c d]; simpl. destruct (decide (a = c)) as [->|];
      [rewrite decide_True by done | rewrite decide_False by done]; apply key_leb_total.
  - intros [a b] [c d] [e f]; simpl. repeat case_decide; subst; simpl; try done;
      eauto using key_leb_trans.
    intros. by exfalso; eauto using key_leb_antisym.
  - intros [a b] [c d]; simpl. case_decide; subst.
    + rewrite decide_True by done. intros. f_equal. by apply key_leb_antisym.
    + rewrite decide_False by done. intros. exfalso. eauto using key_leb_antisym.
Defined.

Definition entry_le {K V} `{OrdKey K} (p q : K * V) : Prop := key_leb p.1 q.1 = true.
#[global] Instance entry_le_dec {K V} `{OrdKey K} (p q : K * V) :
  Decision (entry_le p q).
Proof. unfold entry_le. apply _. Defined.
#[global] Instance entry_le_trans {K V} `{OrdKey K} : Transitive (@entry_le K V _).
Proof. intros p q r. unfold entry_le. eauto using key_leb_trans. Qed.
#[global] Instance entry_le_total {K V} `{OrdKey K} : Total (@entry_le K V _).
Proof. intros p q. apply key_leb_total. Qed.

Definition btree_iter {K V} `{Countable K} `{OrdKey K} (m : gmap K V) : list (K * V) :=
  merge_sort entry_le (map_to_list m).

Section btree.
Context {K V : Type} `{Countable K} `{OrdKey K}.
Implicit Types m : gmap K V.

Lemma btree_iter_perm m : btree_iter m ≡ₚ map_to_list m.
Proof. apply merge_sort_Permutation. Qed.

Lemma elem_of_btree_iter m k v : (k, v) ∈ btree_iter m ↔ m !! k = Some v.
Proof. rewrite btree_iter_perm. apply elem_of_map_to_list. Qed.

Lemma NoDup_btree_iter m : NoDup (btree_iter m).*1.
Proof. rewrite btree_iter_perm. apply NoDup_fst_map_to_list. Qed.

Lemma btree_iter_sorted m : StronglySorted entry_le (btree_iter m).
Proof. apply StronglySorted_merge_sort; apply _. Qed.

Lemma length_btree_iter m : length (btree_iter m) = size m.
Proof. rewrite btree_iter_perm. apply length_map_to_list. Qed.
End btree.

(** ** Automation shared by the components *)

(** Split the [match] and [if] of a hypothesis until the value it returns is
    exposed. *)
Ltac run_inv_step H :=
  match type of H with
  | context [match ?x with _ => _ end] =>
      lazymatch x with
      | context [match _ with _ => _ end] => fail
      | _ => let E := fresh "E" in destruct x eqn:E; simplify_eq/=
      end
  end.
Ltac run_inv H :=
  unfold run_bind, mbind, fmap, mret, result_bind, result_fmap, result_ret,
    option_bind, option_fmap, option_map, ok_or, ok, map_err in H; simpl in H;
  repeat (run_inv_step H); simplify_eq/=.

(** Turn the boolean tests of the code into arithmetic facts. *)
Ltac bools :=
  repeat match goal with
  | H : negb _ = true |- _ => apply negb_true_iff in H
  | H : negb _ = false |- _ => apply negb_false_iff in H
  | H : _ && _ = true |- _ => apply andb_true_iff in H as [? ?]
  | H : _ || _ = false |- _ => apply orb_false_iff in H as [? ?]
  | H : bool_decide _ = true |- _ => apply bool_decide_eq_true in H
  | H : bool_decide _ = false |- _ => apply bool_decide_eq_false in H
  end.

(** ** Lists *)

(** Sum of the integers a function reads off the elements of a list. *)
Definition sum_by {A} (f : A → Z) (l : list A) : Z := foldr (λ x s, f x + s) 0 l.

Section sum_by.
Context {A : Type} (f : A → Z).
Implicit Types l : list A.

Lemma sum_by_nil : sum_by f [] = 0.
Proof. done. Qed.
Lemma sum_by_cons x l : sum_by f (x :: l) = f x + sum_by f l.
Proof. done. Qed.
Lemma sum_by_app l k : sum_by f (l ++ k) = sum_by f l + sum_by f k.
Proof. induction l as [|x l IH]; [done|]. rewrite <- app_comm_cons, !sum_by_cons. lia. Qed.
Lemma sum_by_nonneg l : Forall (λ x, 0 ≤ f x) l → 0 ≤ sum_by f l.
Proof. induction 1; rewrite ?sum_by_nil, ?sum_by_cons; lia. Qed.
Lemma sum_by_perm l k : l ≡ₚ k → sum_by f l = sum_by f k.
Proof. induction 1; rewrite ?sum_by_cons; lia. Qed.
End sum_by.

(** The sum of [f] over the values of a finite map. *)
Definition map_sum {K} `{Countable K} {A} (f : A → Z) (m : gmap K A) : Z := map_fold (λ _ a s, f a + s) 0 m.

Section map_sum.
Context {K} `{Countable K} {A : Type} (f : A → Z).
Implicit Types (m : gmap K A) (k : K) (a : A).

Lemma map_sum_empty : map_sum f (∅ : gmap K A) = 0.
Proof. apply map_fold_empty. Qed.

Lemma map_sum_insert_fresh m k a : m !! k = None → map_sum f (<[k := a]> m) = f a + map_sum f m.
Proof.
  intros Hk. unfold map_sum. rewrite (map_fold_insert_L (λ (_ : K) a s, f a + s)); [done | lia | done].
Qed.

Lemma map_sum_delete m k a : m !! k = Some a → map_sum f m = f a + map_sum f (delete k m).
Proof.
  intros Hk. rewrite <- (insert_delete_id m k a Hk) at 1. apply map_sum_insert_fresh, lookup_delete_eq.
Qed.

Lemma map_sum_insert m k a :
  map_sum f (<[k := a]> m) = map_sum f m + f a - (match m !! k with Some b => f b | None => 0 end).
Proof.
  destruct (m !! k) as [b|] eqn:E.
  - rewrite (map_sum_delete m k b E), <- insert_delete_eq.
    rewrite map_sum_insert_fresh by apply lookup_delete_eq. lia.
  - rewrite map_sum_insert_fresh by done. lia.
Qed.

Lemma map_sum_nonneg m : map_Forall (λ _ a, 0 ≤ f a) m → 0 ≤ map_sum f m.
Proof.
  induction m as [|k a m Hk IH] using map_ind; intros Hm; [by rewrite map_sum_empty|].
  apply map_Forall_insert in Hm as [? Hm]; [|done]. rewrite map_sum_insert_fresh by done.
  specialize (IH Hm). lia.
Qed.
End map_sum.
