(* ===== verification/Text.v ===== *)
(** * Text: the parts of Rust's [str] and number formatting the chain uses

    A Rust string is its list of UTF-8 bytes.  This file has the decimal
    printing and parsing of [u64], [str::split] on one character, the padding of
    [format!], and the check of [String::from_utf8], with the round trips the
    components rely on. *)

From stdpp Require Import base tactics option list strings.
From Stdlib Require Import ZArith Lia.
From S2P Require Import Prelude.

Abbreviation str := (list byte) (only parsing).
Definition bstr (s : string) : str := String.list_byte_of_string s.

(** ** Decimal numbers *)

Definition digit (d : Z) : byte := byte_of_Z (48 + d).

Definition digit_value (b : byte) : option Z :=
  let d := byte_to_Z b - 48 in
  if (0 <=? d) && (d <=? 9) then Some d else None.

(** [u64::from_str]: an optional plus sign, then one or more digits, with the
    accumulator checked for overflow at every digit.  [None] is any
    [ParseIntError]. *)
Fixpoint parse_digits (acc : Z) (s : str) : option Z :=
  match s with
  | [] => Some acc
  | b :: s' =>
      d ← digit_value b;
      acc10 ← checked_mul acc 10;
      acc' ← checked_add acc10 d;
      parse_digits acc' s'
  end.

Definition plus_sign : byte := Byte.x2b.

Definition parse_u64 (s : str) : option Z :=
  let digits := match s with
                | b :: s' => if decide (b = plus_sign) then s' else s
                | [] => []
                end in
  match digits with [] => None | _ :: _ => parse_digits 0 digits end.

(** [u64::to_string]: twenty digits are enough for a [u64]. *)
Fixpoint print_digits (fuel : nat) (n : Z) : str :=
  match fuel with
  | O => []
  | S f => if n <? 10 then [digit n] else print_digits f (n / 10) ++ [digit (n mod 10)]
  end.
Definition u64_to_string (n : Z) : str := print_digits 20 n.

(** ** Padding and splitting *)

Definition zero_digit : byte := digit 0.

(** [format!("{:0>w}", n)] and [format!("{:0w}", n)] on an unsigned number. *)
Definition pad_left (w : nat) (s : str) : str := replicate (w - length s) zero_digit ++ s.
(** [format!("{:0<w}", s)]. *)
Definition pad_right (w : nat) (s : str) : str := s ++ replicate (w - length s) zero_digit.

(** [str::split(c)]: always at least one part. *)
Fixpoint split_on (c : byte) (s : str) : list str :=
  match s with
  | [] => [[]]
  | b :: s' =>
      if decide (b = c) then [] :: split_on c s'
      else match split_on c s' with
           | p :: ps => (b :: p) :: ps
           | [] => [[b]]
           end
  end.

(** ** [String::from_utf8]

    The well-formed UTF-8 byte sequences of the Unicode standard, table 3-7. *)

Definition in_range (lo hi : Z) (b : byte) : bool :=
  (lo <=? byte_to_Z b) && (byte_to_Z b <=? hi).

Fixpoint utf8_valid (s : str) : bool :=
  match s with
  | [] => true
  | b0 :: s0 =>
      if in_range 0x00 0x7f b0 then utf8_valid s0
      else match s0 with
      | b1 :: s1 =>
          if in_range 0xc2 0xdf b0 && in_range 0x80 0xbf b1 then utf8_valid s1
          else match s1 with
          | b2 :: s2 =>
              if ((in_range 0xe0 0xe0 b0 && in_range 0xa0 0xbf b1)
                  || (in_range 0xe1 0xec b0 && in_range 0x80 0xbf b1)
                  || (in_range 0xed 0xed b0 && in_range 0x80 0x9f b1)
                  || (in_range 0xee 0xef b0 && in_range 0x80 0xbf b1))
                 && in_range 0x80 0xbf b2
              then utf8_valid s2
              else match s2 with
              | b3 :: s3 =>
                  ((in_range 0xf0 0xf0 b0 && in_range 0x90 0xbf b1)
                   || (in_range 0xf1 0xf3 b0 && in_range 0x80 0xbf b1)
                   || (in_range 0xf4 0xf4 b0 && in_range 0x80 0x8f b1))
                  && in_range 0x80 0xbf b2 && in_range 0x80 0xbf b3
                  && utf8_valid s3
              | [] => false
              end
          | [] => false
          end
      | [] => false
      end
  end.

Lemma utf8_ascii s : Forall (λ b, in_range 0x00 0x7f b = true) s → utf8_valid s = true.
Proof. induction 1 as [|b s Hb _ IH]; [done|]. cbn [utf8_valid]. by rewrite Hb. Qed.

(** ** Round trips *)

Lemma digit_value_digit d : 0 ≤ d ≤ 9 → digit_value (digit d) = Some d.
Proof.
  intros Hd. unfold digit_value, digit. rewrite byte_to_of_Z by ints.
  replace (48 + d - 48) with d by lia.
  destruct (Z.leb_spec 0 d), (Z.leb_spec d 9); simpl; (done || lia).
Qed.

Lemma digit_not d b : 0 ≤ d ≤ 9 → digit_value b = None → digit d ≠ b.
Proof. intros Hd Hb <-. by rewrite digit_value_digit in Hb. Qed.

Lemma parse_digits_app acc s t :
  parse_digits acc (s ++ t) = (acc' ← parse_digits acc s; parse_digits acc' t).
Proof.
  revert acc. induction s as [|b s IH]; intros acc; simpl; [done|].
  destruct (digit_value b); simpl; [|done].
  destruct (checked_mul acc 10); simpl; [|done].
  by destruct (checked_add _ _); simpl.
Qed.

Lemma parse_digits_step acc d :
  0 ≤ acc → 0 ≤ d ≤ 9 → acc * 10 + d ≤ U64_MAX →
  parse_digits acc [digit d] = Some (acc * 10 + d).
Proof.
  intros. simpl. rewrite digit_value_digit by done. simpl.
  unfold checked_mul. destruct (Z.leb_spec (acc * 10) U64_MAX); [|lia]. simpl.
  unfold checked_add. by destruct (Z.leb_spec (acc * 10 + d) U64_MAX); [|lia].
Qed.

Lemma parse_print_digits fuel n :
  0 ≤ n ≤ U64_MAX → n < 10 ^ Z.of_nat fuel →
  parse_digits 0 (print_digits fuel n) = Some n.
Proof.
  revert n. induction fuel as [|fuel IH]; intros n Hn Hf.
  { change (10 ^ Z.of_nat 0) with 1 in Hf. simpl. f_equal. lia. }
  simpl. destruct (Z.ltb_spec n 10).
  { rewrite parse_digits_step by ints. f_equal. }
  rewrite Nat2Z.inj_succ, Z.pow_succ_r in Hf by lia.
  pose proof (Z.div_mod n 10 ltac:(lia)). pose proof (Z.mod_pos_bound n 10 ltac:(lia)).
  rewrite parse_digits_app, IH by (split || idtac; lia). simpl.
  change ([digit (n mod 10)]) with ([digit (n mod 10)]).
  pose proof (parse_digits_step (n / 10) (n mod 10)) as Hs. simpl in Hs.
  rewrite Hs by lia. f_equal. lia.
Qed.

Lemma print_digits_chars fuel n :
  0 ≤ n → Forall (λ b, ∃ d, 0 ≤ d ≤ 9 ∧ b = digit d) (print_digits fuel n).
Proof.
  revert n. induction fuel as [|fuel IH]; intros n Hn; simpl; [done|].
  pose proof (Z.mod_pos_bound n 10 ltac:(lia)).
  destruct (Z.ltb_spec n 10).
  - constructor; [|done]. exists n. split; [lia | done].
  - apply Forall_app. split.
    + apply IH. apply Z.div_pos; lia.
    + constructor; [|done]. exists (n mod 10). split; [lia | done].
Qed.

Lemma print_digits_nonempty fuel n : fuel ≠ O → print_digits fuel n ≠ [].
Proof.
  destruct fuel; [done|]. intros _. simpl. destruct (n <? 10); [done|].
  by intros [_ ?]%app_eq_nil.
Qed.

Lemma digit_not_plus d : 0 ≤ d ≤ 9 → digit d ≠ plus_sign.
Proof. intros. by apply digit_not. Qed.

(** Parsing digits that do not start with a plus sign. *)
Lemma parse_u64_digits s :
  s ≠ [] → Forall (λ b, ∃ d, 0 ≤ d ≤ 9 ∧ b = digit d) s → parse_u64 s = parse_digits 0 s.
Proof.
  intros Hne Hs. destruct s as [|b s]; [done|]. unfold parse_u64.
  apply Forall_cons in Hs as [(d & Hd & ->) _].
  by rewrite decide_False by by apply digit_not_plus.
Qed.

Lemma parse_u64_to_string n : is_u64 n → parse_u64 (u64_to_string n) = Some n.
Proof.
  intros Hn. unfold u64_to_string. rewrite parse_u64_digits.
  - apply parse_print_digits; [ints|]. change (Z.of_nat 20) with 20. ints.
  - by apply print_digits_nonempty.
  - apply print_digits_chars. ints.
Qed.

Lemma parse_digits_zeros k s : parse_digits 0 (replicate k zero_digit ++ s) = parse_digits 0 s.
Proof.
  induction k as [|k IH]; [done|]. cbn [replicate app].
  change (zero_digit :: replicate k zero_digit ++ s)
    with ([zero_digit] ++ (replicate k zero_digit ++ s)).
  rewrite parse_digits_app. change (parse_digits 0 [zero_digit]) with (Some 0). simpl. done.
Qed.

Lemma split_on_none c s : c ∉ s → split_on c s = [s].
Proof.
  induction s as [|b s IH]; intros Hc; simpl; [done|].
  apply not_elem_of_cons in Hc as [Hb Hs].
  rewrite decide_False by done. by rewrite IH.
Qed.

Lemma split_on_two c s t : c ∉ s → c ∉ t → split_on c (s ++ c :: t) = [s; t].
Proof.
  induction s as [|b s IH]; intros Hs Ht; simpl.
  - rewrite decide_True by done. by rewrite split_on_none.
  - apply not_elem_of_cons in Hs as [Hb Hs].
    rewrite decide_False by done. by rewrite IH.
Qed.

Lemma split_on_nonempty c s : split_on c s ≠ [].
Proof.
  destruct s as [|b s]; simpl; [done|].
  destruct (decide (b = c)); [done|]. by destruct (split_on c s).
Qed.

#[export] Hint Resolve split_on_nonempty print_digits_nonempty digit_not_plus : core.
