(* ===== verification/Codec.v ===== *)
(** * Codec: the SCALE encoding library as an interface

    The chain encodes everything it hashes, stores or sends with the
    [parity-scale-codec] crate.  The crate is an interface here: [Scale] has its
    codecs for the primitive types and for the containers, [ScaleLaws] what its
    documentation promises, that decoding reads back what encoding wrote and
    leaves the rest of the input, and that what is decoded has its type.  The derived codecs of the chain's types are
    written out from these in the components ([derive(Encode, Decode)] writes
    the fields in order, an enum its variant's index first), and so are the
    codecs the source writes by hand.  A decoding error is [None]; its message is
    not modelled.  [scale_ref] is a concrete instance, used by the witnesses. *)

From stdpp Require Import base tactics option list gmap.
From Stdlib Require Import ZArith Lia.
From S2P Require Import Prelude Text.

(** ** Codecs *)

(** A decoder takes the input that remains and returns what it leaves. *)
Abbreviation decoder A := (list byte → option (A * list byte)).

Record codec (A : Type) := Codec {
  enc : A → list byte;
  dec : decoder A;
}.
Arguments Codec {A} _ _.
Arguments enc {A} _ _.
Arguments dec {A} _ _.

Definition codec_ok {A} (wf : A → Prop) (c : codec A) : Prop :=
  ∀ a rest, wf a → dec c (enc c a ++ rest) = Some (a, rest).

(** What the decoder returns is in the range of its type. *)
Definition codec_typed {A} (wf : A → Prop) (c : codec A) : Prop :=
  ∀ i a rest, dec c i = Some (a, rest) → wf a.

Definition dret {A} (a : A) : decoder A := λ i, Some (a, i).
Definition dfail {A} : decoder A := λ _, None.
Definition dbind {A B} (d : decoder A) (k : A → decoder B) : decoder B :=
  λ i, match d i with Some (a, i') => k a i' | None => None end.
(** [Input::remaining_len] of a slice. *)
Definition remaining_len : decoder Z := λ i, Some (Z.of_nat (length i), i).
Notation "x ⇐ d ; k" := (dbind d (fun x => k))
  (at level 20, d at level 100, k at level 200, only parsing) : run_scope.

(** [Decode::decode(&mut bytes)]: what follows the value is ignored. *)
Definition decode {A} (c : codec A) (bytes : list byte) : option A :=
  fst <$> dec c bytes.

Lemma dbind_ok {A B} (wf : A → Prop) (c : codec A) (k : A → decoder B) a rest :
  codec_ok wf c → wf a → dbind (dec c) k (enc c a ++ rest) = k a rest.
Proof. intros Hc Ha. unfold dbind. by rewrite Hc. Qed.

Lemma decode_ok {A} (wf : A → Prop) (c : codec A) a :
  codec_ok wf c → wf a → decode c (enc c a) = Some a.
Proof.
  intros Hc Ha. unfold decode. rewrite <- (app_nil_r (enc c a)). by rewrite Hc.
Qed.

Lemma codec_ok_inj {A} (wf : A → Prop) (c : codec A) a b s t :
  codec_ok wf c → wf a → wf b → enc c a ++ s = enc c b ++ t → a = b ∧ s = t.
Proof.
  intros Hc Ha Hb E. pose proof (Hc a s Ha) as Ea. rewrite E, (Hc b t Hb) in Ea.
  by simplify_eq.
Qed.

(** A decoder with a limit on its input may refuse what was encoded, but it never
    returns anything else. *)
Definition codec_sound {A} (wf : A → Prop) (c : codec A) : Prop :=
  ∀ a rest b rest', wf a → dec c (enc c a ++ rest) = Some (b, rest') → b = a ∧ rest' = rest.

Lemma codec_ok_sound {A} (wf : A → Prop) (c : codec A) : codec_ok wf c → codec_sound wf c.
Proof. intros Hc a rest b rest' Ha Hd. rewrite Hc in Hd by done. by simplify_eq. Qed.

Lemma dbind_sound {A B} (wf : A → Prop) (c : codec A) (k : A → decoder B) a rest res :
  codec_sound wf c → wf a → dbind (dec c) k (enc c a ++ rest) = Some res → k a rest = Some res.
Proof.
  intros Hc Ha. unfold dbind. destruct (dec c (enc c a ++ rest)) as [[b rest']|] eqn:E; [|done].
  by destruct (Hc _ _ _ _ Ha E) as [-> ->].
Qed.

Lemma decode_sound {A} (wf : A → Prop) (c : codec A) a b rest :
  codec_sound wf c → wf a → decode c (enc c a ++ rest) = Some b → b = a.
Proof.
  intros Hc Ha. unfold decode. destruct (dec c (enc c a ++ rest)) as [[b' rest']|] eqn:E; [|done].
  intros [= <-]. by destruct (Hc _ _ _ _ Ha E).
Qed.

(** A type with the encoding of another one. *)
Definition codec_iso {A B} (f : A → B) (g : B → A) (c : codec A) : codec B :=
  Codec (λ b, enc c (g b)) (a ⇐ dec c; dret (f a)).

Lemma codec_iso_ok {A B} (wf : A → Prop) (f : A → B) (g : B → A) c :
  codec_ok wf c → (∀ b, f (g b) = b) → codec_ok (λ b, wf (g b)) (codec_iso f g c).
Proof.
  intros Hc Hfg b rest Hb. simpl. rewrite (dbind_ok wf) by done. by rewrite Hfg.
Qed.

(** Two values one after the other: a struct or a tuple of two fields. *)
Definition codec_pair {A B} (ca : codec A) (cb : codec B) : codec (A * B) :=
  Codec (λ p, enc ca p.1 ++ enc cb p.2) (a ⇐ dec ca; b ⇐ dec cb; dret (a, b)).

Lemma codec_pair_ok {A B} (wa : A → Prop) (wb : B → Prop) ca cb :
  codec_ok wa ca → codec_ok wb cb →
  codec_ok (λ p, wa p.1 ∧ wb p.2) (codec_pair ca cb).
Proof.
  intros Ha Hb [a b] rest [? ?]. simpl. rewrite <- app_assoc.
  rewrite (dbind_ok wa) by done. by rewrite (dbind_ok wb).
Qed.

(** The byte read by [Input::read_byte]. *)
Definition read_byte : decoder byte :=
  λ i, match i with b :: i' => Some (b, i') | [] => None end.

Lemma dbind_read_byte {B} (k : byte → decoder B) b rest : dbind read_byte k (b :: rest) = k b rest.
Proof. done. Qed.

(** ** The interface *)

Class Scale := {
  u8_codec : codec Z;
  u16_codec : codec Z;
  u32_codec : codec Z;
  u64_codec : codec Z;
  i64_codec : codec Z;
  (** [\[u8; n\]] *)
  array_codec : nat → codec (list byte);
  vec_codec {A} : codec A → codec (list A);
  option_codec {A} : codec A → codec (option A);
}.

(** The length of a [Vec] is written as a compact [u32]. *)
Definition vec_ok {A} (wf : A → Prop) (l : list A) : Prop :=
  Z.of_nat (length l) ≤ U32_MAX ∧ Forall wf l.
Definition option_ok {A} (wf : A → Prop) (o : option A) : Prop :=
  match o with Some a => wf a | None => True end.
Definition array_ok (n : nat) (bs : list byte) : Prop := length bs = n.
Definition any_byte (b : byte) : Prop := True.

Class ScaleLaws `{Scale} : Prop := {
  u8_codec_ok : codec_ok is_u8 u8_codec;
  u16_codec_ok : codec_ok is_u16 u16_codec;
  u32_codec_ok : codec_ok is_u32 u32_codec;
  u64_codec_ok : codec_ok is_u64 u64_codec;
  i64_codec_ok : codec_ok is_i64 i64_codec;
  array_codec_ok n : codec_ok (array_ok n) (array_codec n);
  vec_codec_ok {A} (wf : A → Prop) c : codec_ok wf c → codec_ok (vec_ok wf) (vec_codec c);
  option_codec_ok {A} (wf : A → Prop) c :
    codec_ok wf c → codec_ok (option_ok wf) (option_codec c);
  (** An option is one byte, zero or one, before the value. *)
  option_codec_enc {A} (c : codec A) o :
    enc (option_codec c) o = match o with None => [Byte.x00] | Some a => Byte.x01 :: enc c a end;
  (** An array is written as it is. *)
  array_codec_enc n bs : array_ok n bs → enc (array_codec n) bs = bs;
  u8_codec_typed : codec_typed is_u8 u8_codec;
  u16_codec_typed : codec_typed is_u16 u16_codec;
  u32_codec_typed : codec_typed is_u32 u32_codec;
  u64_codec_typed : codec_typed is_u64 u64_codec;
  i64_codec_typed : codec_typed is_i64 i64_codec;
  array_codec_typed n : codec_typed (array_ok n) (array_codec n);
  vec_codec_typed {A} (wf : A → Prop) c : codec_typed wf c → codec_typed (vec_ok wf) (vec_codec c);
  option_codec_typed {A} (wf : A → Prop) c :
    codec_typed wf c → codec_typed (option_ok wf) (option_codec c);
}.

Create HintDb codec discriminated.
#[export] Hint Resolve u8_codec_ok u16_codec_ok u32_codec_ok u64_codec_ok i64_codec_ok
  array_codec_ok vec_codec_ok option_codec_ok codec_pair_ok : codec.

Section derived.
Context `{Scale}.

(** A byte, [Vec<u8>] and [String], whose decoder rejects what is not UTF-8. *)
Definition byte_codec : codec byte := codec_iso byte_of_Z byte_to_Z u8_codec.
Definition bytes_codec : codec (list byte) := vec_codec byte_codec.
Definition string_codec : codec str :=
  Codec (enc bytes_codec)
    (bs ⇐ dec bytes_codec; if utf8_valid bs then dret bs else dfail).
Definition bool_codec : codec bool :=
  Codec (λ b, [if b : bool then Byte.x01 else Byte.x00])
    (b ⇐ read_byte;
     if decide (b = Byte.x00) then dret false
     else if decide (b = Byte.x01) then dret true else dfail).

Definition string_ok (s : str) : Prop :=
  vec_ok any_byte s ∧ utf8_valid s = true.

Lemma byte_codec_ok `{!ScaleLaws} : codec_ok any_byte byte_codec.
Proof.
  intros b rest _.
  apply (codec_iso_ok is_u8); eauto using u8_codec_ok, byte_of_to_Z with ints.
Qed.

Lemma bytes_codec_ok `{!ScaleLaws} : codec_ok (vec_ok any_byte) bytes_codec.
Proof. apply vec_codec_ok, byte_codec_ok. Qed.

Lemma string_codec_ok `{!ScaleLaws} : codec_ok string_ok string_codec.
Proof.
  intros s rest [Hs Hv]. simpl. rewrite (dbind_ok (vec_ok any_byte)) by eauto using bytes_codec_ok.
  by rewrite Hv.
Qed.

Lemma bool_codec_ok : codec_ok (λ _, True) bool_codec.
Proof. by intros [] rest _. Qed.
End derived.
#[export] Hint Resolve byte_codec_ok bytes_codec_ok string_codec_ok bool_codec_ok : codec.

(** A [BTreeMap] is encoded as the vector of its entries in order; decoding collects
    them, so that a later entry of a key replaces an earlier one. *)
Definition btree_codec {K V} `{Scale} `{Countable K} `{OrdKey K} (ck : codec K) (cv : codec V) :
  codec (gmap K V) :=
  Codec (λ m, enc (vec_codec (codec_pair ck cv)) (btree_iter m))
    (l ⇐ dec (vec_codec (codec_pair ck cv)); dret (list_to_map (reverse l))).

Definition btree_ok {K V} `{Countable K} (wk : K → Prop) (wv : V → Prop) (m : gmap K V) : Prop :=
  Z.of_nat (size m) ≤ U32_MAX ∧ map_Forall (λ k v, wk k ∧ wv v) m.

Lemma btree_codec_ok {K V} `{ScaleLaws} `{Countable K} `{OrdKey K} (wk : K → Prop) (wv : V → Prop)
    (ck : codec K) (cv : codec V) :
  codec_ok wk ck → codec_ok wv cv → codec_ok (btree_ok wk wv) (btree_codec ck cv).
Proof.
  intros Hk Hv m rest [Hs Hm]. unfold btree_codec. cbn [enc dec].
  rewrite (dbind_ok (vec_ok (λ p, wk p.1 ∧ wv p.2))).
  - unfold dret. do 2 f_equal. apply map_eq. intros k.
    destruct (m !! k) as [v|] eqn:E.
    + apply elem_of_list_to_map_1; [|rewrite reverse_Permutation; by apply elem_of_btree_iter].
      rewrite fmap_reverse, reverse_Permutation. apply NoDup_btree_iter.
    + apply not_elem_of_list_to_map_1. rewrite fmap_reverse, reverse_Permutation.
      intros ([k' v] & -> & Hin%elem_of_btree_iter)%list_elem_of_fmap. simpl in E. congruence.
  - by apply vec_codec_ok, codec_pair_ok.
  - split; [by rewrite length_btree_iter|]. apply Forall_forall.
    intros [k v] Hin%elem_of_btree_iter. by apply (Hm k v).
Qed.
#[export] Hint Resolve btree_codec_ok : codec.

Lemma vec_ok_any (l : list byte) : Z.of_nat (length l) ≤ U32_MAX → vec_ok any_byte l.
Proof. intros. split; [done|]. by apply Forall_true. Qed.

(** Step through a decoder applied to what the matching encoder wrote. *)
Ltac dec_step :=
  match goal with
  | |- context [dbind (dec ?c) ?k (enc ?c ?a ++ ?rest)] =>
      erewrite (dbind_ok _ c k a rest) by (first [solve [eauto with codec] | solve [done]])
  end.

(** The same where the decoder is only known to be sound. *)
Ltac dec_sound_step H :=
  match type of H with
  | dbind (dec ?c) ?k (enc ?c ?a ++ ?rest) = Some ?res =>
      eapply (dbind_sound _ c k a rest res) in H;
        [|solve [eauto using codec_ok_sound with codec]|done]
  end.

(** A decoder that returned a value returned one at each step. *)
Lemma dbind_Some {A B} (d : decoder A) (k : A → decoder B) i b r :
  dbind d k i = Some (b, r) → ∃ a i', d i = Some (a, i') ∧ k a i' = Some (b, r).
Proof. unfold dbind. destruct (d i) as [[a i']|]; [|done]. eauto. Qed.

Ltac dec_inv H :=
  repeat match type of H with
  | dbind _ _ _ = Some _ =>
      let a := fresh "a" in let i := fresh "i" in let E := fresh "E" in
      apply dbind_Some in H as (a & i & E & H)
  | (if ?b then _ else _) _ = Some _ => destruct b eqn:?
  | (match ?d with _ => _ end) _ = Some _ => destruct d eqn:?
  | dfail _ = Some _ => discriminate H
  | dret _ _ = Some _ => injection H; clear H; intros; subst
  end.

(** What a decoder read is in the range of its type: the facts of a context. *)
Create HintDb typed discriminated.
#[export] Hint Resolve u8_codec_typed u16_codec_typed u32_codec_typed u64_codec_typed i64_codec_typed
  array_codec_typed vec_codec_typed option_codec_typed : typed.

Lemma codec_typed_elim {A} (wf : A → Prop) (c : codec A) i a r :
  codec_typed wf c → dec c i = Some (a, r) → wf a.
Proof. intros Hc. apply Hc. Qed.

Ltac typed_facts :=
  repeat match goal with
  | E : dec ?c ?i = Some (?a, ?r) |- _ =>
      eapply codec_typed_elim in E; [|solve [eauto with typed]]
  end.

Lemma byte_codec_typed `{ScaleLaws} : codec_typed any_byte byte_codec.
Proof. done. Qed.
#[export] Hint Resolve byte_codec_typed : typed.

Lemma bytes_codec_typed `{ScaleLaws} : codec_typed (vec_ok any_byte) bytes_codec.
Proof. unfold bytes_codec. eauto with typed. Qed.

Lemma decode_typed {A} (wf : A → Prop) (c : codec A) bs a :
  codec_typed wf c → decode c bs = Some a → wf a.
Proof.
  intros Hc. unfold decode. destruct (dec c bs) as [[b r]|] eqn:E; [|done].
  intros [= <-]. by eapply Hc.
Qed.
#[export] Hint Resolve bytes_codec_typed : typed.

(** ** A concrete instance

    Little-endian integers and the compact length prefix of a [Vec], in its one,
    two, four and five byte modes. *)

Fixpoint le_bytes (n : nat) (z : Z) : list byte :=
  match n with
  | O => []
  | S n => byte_of_Z z :: le_bytes n (z / 256)
  end.

Fixpoint le_decode (n : nat) : decoder Z :=
  match n with
  | O => dret 0
  | S n => b ⇐ read_byte; z ⇐ le_decode n; dret (byte_to_Z b + 256 * z)
  end.

Definition le_codec (n : nat) : codec Z := Codec (le_bytes n) (le_decode n).

Definition i64_ref : codec Z :=
  Codec (λ z, le_bytes 8 (as_u64 z)) (u ⇐ le_decode 8; dret (as_i64 u)).

Definition compact_len : codec Z :=
  Codec
    (λ n, if n <? 2 ^ 6 then le_bytes 1 (4 * n)
          else if n <? 2 ^ 14 then le_bytes 2 (4 * n + 1)
          else if n <? 2 ^ 30 then le_bytes 4 (4 * n + 2)
          else Byte.x03 :: le_bytes 4 n)
    (λ i, match i with
          | [] => None
          | b :: i' =>
              let mode := byte_to_Z b mod 4 in
              if mode =? 3 then (if byte_to_Z b / 4 =? 0 then le_decode 4 i' else None) else
              let k := if mode =? 0 then 1%nat else if mode =? 1 then 2%nat else 4%nat in
              (u ⇐ le_decode k; dret (u / 4)) i
          end).

Fixpoint dec_many {A} (d : decoder A) (n : nat) : decoder (list A) :=
  match n with
  | O => dret []
  | S n => a ⇐ d; l ⇐ dec_many d n; dret (a :: l)
  end.

Definition vec_ref {A} (c : codec A) : codec (list A) :=
  Codec (λ l, enc compact_len (Z.of_nat (length l)) ++ concat (enc c <$> l))
    (n ⇐ dec compact_len; dec_many (dec c) (Z.to_nat n)).

Definition option_ref {A} (c : codec A) : codec (option A) :=
  Codec
    (λ o, match o with None => [Byte.x00] | Some a => Byte.x01 :: enc c a end)
    (t ⇐ read_byte;
     if decide (t = Byte.x00) then dret None
     else if decide (t = Byte.x01) then (a ⇐ dec c; dret (Some a)) else dfail).

Definition array_ref (n : nat) : codec (list byte) :=
  Codec id (λ i, if decide (n ≤ length i)%nat then Some (take n i, drop n i) else None).

Definition scale_ref : Scale := {|
  u8_codec := le_codec 1;
  u16_codec := le_codec 2;
  u32_codec := le_codec 4;
  u64_codec := le_codec 8;
  i64_codec := i64_ref;
  array_codec := array_ref;
  vec_codec := @vec_ref;
  option_codec := @option_ref;
|}.

Lemma le_codec_ok n : codec_ok (λ z, 0 ≤ z < 256 ^ Z.of_nat n) (le_codec n).
Proof.
  induction n as [|n IH]; intros z rest Hz; cbv beta in Hz.
  { change (256 ^ Z.of_nat 0) with 1 in Hz. replace z with 0 by lia. done. }
  rewrite Nat2Z.inj_succ, Z.pow_succ_r in Hz by lia.
  pose proof (Z.div_mod z 256 ltac:(lia)). pose proof (Z.mod_pos_bound z 256 ltac:(lia)).
  change (dec (le_codec (S n)) (enc (le_codec (S n)) z ++ rest))
    with (dbind (dec (le_codec n)) (λ q, dret (byte_to_Z (byte_of_Z z) + 256 * q))
            (enc (le_codec n) (z / 256) ++ rest)).
  rewrite (dbind_ok _ _ _ _ _ IH) by lia.
  replace (byte_of_Z z) with (byte_of_Z (z mod 256))
    by (unfold byte_of_Z, as_u8; change (U8_MAX + 1) with 256; by rewrite Z.mod_mod).
  rewrite byte_to_of_Z by ints. unfold dret. do 2 f_equal. lia.
Qed.

Lemma i64_ref_ok : codec_ok is_i64 i64_ref.
Proof.
  intros z rest Hz.
  change (dec i64_ref (enc i64_ref z ++ rest))
    with (dbind (dec (le_codec 8)) (λ u, dret (as_i64 u))
            (enc (le_codec 8) (as_u64 z) ++ rest)).
  rewrite (dbind_ok _ _ _ _ _ (le_codec_ok 8)).
  - unfold dret. do 2 f_equal. unfold as_i64, as_u64.
    rewrite Z.mod_mod by (unfold U64_MAX; lia).
    destruct (Z.le_gt_cases 0 z).
    + rewrite Z.mod_small by ints. destruct (Z.leb_spec z I64_MAX); ints.
    + rewrite <- (Z.mod_add z 1) by (unfold U64_MAX; lia).
      rewrite Z.mod_small by ints.
      destruct (Z.leb_spec (z + 1 * (U64_MAX + 1)) I64_MAX); ints.
  - pose proof (as_u64_range z). change (256 ^ Z.of_nat 8) with (U64_MAX + 1). ints.
Qed.

(** The two low bits of the first byte are the mode the encoder chose. *)
Lemma le_head_mode n z : byte_to_Z (byte_of_Z (4 * z + n)) mod 4 = n mod 4.
Proof.
  replace (byte_of_Z (4 * z + n)) with (byte_of_Z ((4 * z + n) mod 256))
    by (unfold byte_of_Z, as_u8; change (U8_MAX + 1) with 256; by rewrite Z.mod_mod).
  pose proof (Z.mod_pos_bound (4 * z + n) 256). rewrite byte_to_of_Z by ints.
  rewrite Z.mod_mod_divide by by exists 64.
  rewrite Z.add_comm, Z.mul_comm. apply Z.mod_add. lia.
Qed.

Lemma compact_mode_ok k z n rest :
  (k = 1%nat ∧ n = 0 ∨ k = 2%nat ∧ n = 1 ∨ k = 4%nat ∧ n = 2) →
  0 ≤ z → 4 * z + n < 256 ^ Z.of_nat k →
  dec compact_len (le_bytes k (4 * z + n) ++ rest) = Some (z, rest).
Proof.
  intros Hk Hz Hb. pose proof (le_head_mode n z) as Hm.
  assert (Hd : (u ⇐ le_decode k; dret (u / 4)) (le_bytes k (4 * z + n) ++ rest) = Some (z, rest)).
  { change (le_decode k) with (dec (le_codec k)).
    change (le_bytes k (4 * z + n)) with (enc (le_codec k) (4 * z + n)).
    rewrite (dbind_ok _ _ _ _ _ (le_codec_ok k)) by (split; [lia | done]).
    unfold dret. do 2 f_equal. rewrite Z.add_comm, Z.mul_comm, Z.div_add by lia.
    rewrite Z.div_small; lia. }
  destruct Hk as [[-> ->]|[[-> ->]|[-> ->]]]; cbn [dec compact_len le_bytes app] in *;
    cbv zeta; rewrite Hm; exact Hd.
Qed.

Lemma compact_len_ok : codec_ok (λ n, 0 ≤ n ≤ U32_MAX) compact_len.
Proof.
  intros n rest Hn. cbv beta in Hn. unfold compact_len at 2. cbn [enc].
  destruct (Z.ltb_spec n (2 ^ 6));
    [|destruct (Z.ltb_spec n (2 ^ 14)); [|destruct (Z.ltb_spec n (2 ^ 30))]].
  - rewrite <- (Z.add_0_r (4 * n)). apply compact_mode_ok; auto; lia.
  - apply compact_mode_ok; auto; lia.
  - apply compact_mode_ok; auto; lia.
  - change (dec (le_codec 4) (enc (le_codec 4) n ++ rest) = Some (n, rest)).
    apply le_codec_ok. change (256 ^ Z.of_nat 4) with (U32_MAX + 1). ints.
Qed.

Lemma dec_many_ok {A} (wf : A → Prop) c (l : list A) rest :
  codec_ok wf c → Forall wf l →
  dec_many (dec c) (length l) (concat (enc c <$> l) ++ rest) = Some (l, rest).
Proof.
  intros Hc. induction 1 as [|a l Ha Hl IH]; [done|].
  rewrite fmap_cons. cbn [concat length dec_many].
  rewrite <- app_assoc, (dbind_ok wf) by done. unfold dbind. by rewrite IH.
Qed.

Lemma le_codec_typed n : codec_typed (λ z, 0 ≤ z < 256 ^ Z.of_nat n) (le_codec n).
Proof.
  induction n as [|n IH]; intros i z r Hz; [by injection Hz as <- <-|].
  rewrite Nat2Z.inj_succ, Z.pow_succ_r by lia. cbn [dec le_codec le_decode] in Hz. unfold dbind in Hz.
  destruct i as [|b i]; [done|]. cbn [read_byte] in Hz.
  destruct (le_decode n i) as [[q r']|] eqn:E; [|done]. injection Hz as <- _.
  pose proof (IH _ _ _ E) as Hq. simpl in Hq. pose proof (byte_to_Z_range b). ints.
Qed.

Lemma compact_len_typed : codec_typed (λ n, 0 ≤ n ≤ U32_MAX) compact_len.
Proof.
  intros i n r Hn. cbn [dec compact_len] in Hn. destruct i as [|b i']; [done|]. cbv zeta in Hn.
  destruct (byte_to_Z b mod 4 =? 3).
  { destruct (byte_to_Z b / 4 =? 0); [|done]. apply (le_codec_typed 4) in Hn.
    change (256 ^ Z.of_nat 4) with (U32_MAX + 1) in Hn. ints. }
  set (k := if byte_to_Z b mod 4 =? 0 then 1%nat else _) in Hn.
  apply dbind_Some in Hn as (u & j & Hu & Hn). injection Hn as <- _.
  apply (le_codec_typed k) in Hu.
  assert (256 ^ Z.of_nat k ≤ U32_MAX + 1).
  { subst k. destruct (_ =? _); [done|]. by destruct (_ =? _). }
  split; [apply Z.div_pos; lia|]. apply Z.div_le_upper_bound; lia.
Qed.

Lemma dec_many_typed {A} (wf : A → Prop) c n :
  codec_typed wf c →
  ∀ i l r, dec_many (dec c) n i = Some (l, r) → length l = n ∧ Forall wf l.
Proof.
  intros Hc. induction n as [|n IH]; intros i l r Hl; [by injection Hl as <- <-|].
  cbn [dec_many] in Hl. unfold dbind in Hl. destruct (dec c i) as [[a i']|] eqn:Ea; [|done].
  destruct (dec_many (dec c) n i') as [[l' r']|] eqn:El; [|done]. injection Hl as <- _.
  destruct (IH _ _ _ El) as [<- ?]. split; [done|]. constructor; [by eapply Hc | done].
Qed.

Lemma scale_ref_laws : @ScaleLaws scale_ref.
Proof.
  split.
  - intros z r Hz. apply le_codec_ok. change (256 ^ Z.of_nat 1) with 256. ints.
  - intros z r Hz. apply le_codec_ok. change (256 ^ Z.of_nat 2) with 65536. ints.
  - intros z r Hz. apply le_codec_ok. change (256 ^ Z.of_nat 4) with (U32_MAX + 1). ints.
  - intros z r Hz. apply le_codec_ok. change (256 ^ Z.of_nat 8) with (U64_MAX + 1). ints.
  - apply i64_ref_ok.
  - intros n bs r Hn. simpl. rewrite decide_True by (rewrite length_app; unfold array_ok in Hn; lia).
    by rewrite take_app_length', drop_app_length'.
  - intros A wf c Hc l r [Hlen Hl]. cbn [vec_codec scale_ref vec_ref enc dec].
    rewrite <- app_assoc.
    rewrite (dbind_ok _ _ _ _ _ compact_len_ok) by lia.
    rewrite Nat2Z.id. by apply (dec_many_ok wf).
  - intros A wf c Hc [a|] r Ha; [|done]. simpl. unfold dbind at 1. simpl.
    by rewrite (dbind_ok wf).
  - done.
  - done.
  - intros i z r Hz. apply le_codec_typed in Hz. change (256 ^ Z.of_nat 1) with (U8_MAX + 1) in Hz. ints.
  - intros i z r Hz. apply le_codec_typed in Hz. change (256 ^ Z.of_nat 2) with (U16_MAX + 1) in Hz. ints.
  - intros i z r Hz. apply le_codec_typed in Hz. change (256 ^ Z.of_nat 4) with (U32_MAX + 1) in Hz. ints.
  - intros i z r Hz. apply le_codec_typed in Hz. change (256 ^ Z.of_nat 8) with (U64_MAX + 1) in Hz. ints.
  - intros i z r Hz. cbn [i64_codec scale_ref i64_ref dec] in Hz.
    apply dbind_Some in Hz as (u & j & _ & Hz). injection Hz as <- _. unfold as_i64.
    pose proof (as_u64_range u). destruct (Z.leb_spec (as_u64 u) I64_MAX); ints.
  - intros n i a r. simpl. case_decide; [|done]. intros [= <- <-]. unfold array_ok.
    rewrite length_take. lia.
  - intros A wf c Hc i l r. cbn [vec_codec scale_ref vec_ref dec]. unfold dbind.
    destruct (dec compact_len i) as [[n i']|] eqn:En; [|done]. apply compact_len_typed in En.
    intros [Hl ?]%(dec_many_typed wf); [|done]. split; [|done]. rewrite Hl. lia.
  - intros A wf c Hc i o r Ho. cbn [option_codec scale_ref option_ref dec] in Ho. dec_inv Ho; [done|].
    by eapply Hc.
Qed.

(** ** Sizes

    The format also fixes the size of what is written. *)

Definition compact_size (n : Z) : nat :=
  if n <? 2 ^ 6 then 1 else if n <? 2 ^ 14 then 2 else if n <? 2 ^ 30 then 4 else 5.

Definition sum_sizes {A} (size : A → nat) (l : list A) : nat := sum_list (size <$> l).

Class ScaleSizes `{Scale} : Prop := {
  u8_size z : is_u8 z → length (enc u8_codec z) = 1%nat;
  u16_size z : is_u16 z → length (enc u16_codec z) = 2%nat;
  u32_size z : is_u32 z → length (enc u32_codec z) = 4%nat;
  u64_size z : is_u64 z → length (enc u64_codec z) = 8%nat;
  i64_size z : is_i64 z → length (enc i64_codec z) = 8%nat;
  vec_size {A} (c : codec A) l :
    length (enc (vec_codec c) l)
    = (compact_size (Z.of_nat (length l)) + sum_sizes (λ a, length (enc c a)) l)%nat;
}.

Lemma compact_size_mono n m : n ≤ m → (compact_size n ≤ compact_size m)%nat.
Proof. intros. unfold compact_size. repeat case_match; lia. Qed.

Lemma le_bytes_length n z : length (le_bytes n z) = n.
Proof. revert z. induction n as [|n IH]; intros z; simpl; [done | by rewrite IH]. Qed.

Lemma scale_ref_sizes : @ScaleSizes scale_ref.
Proof.
  split; intros; try apply le_bytes_length.
  cbn [vec_codec scale_ref vec_ref enc]. rewrite length_app. f_equal.
  - unfold compact_size. cbn [enc compact_len]. repeat case_match; simpl; by rewrite ?le_bytes_length.
  - unfold sum_sizes. rewrite length_concat, <- list_fmap_compose. done.
Qed.

Lemma sum_sizes_const {A} (f : A → nat) k l : Forall (λ a, f a = k) l → sum_sizes f l = (k * length l)%nat.
Proof.
  induction 1 as [|a l Ha Hl IH]; [simpl; unfold sum_sizes; simpl; lia|].
  change (sum_sizes f (a :: l)) with (f a + sum_sizes f l)%nat. rewrite Ha, IH. simpl. lia.
Qed.

Lemma sum_sizes_ge {A} (f : A → nat) k l : Forall (λ a, k ≤ f a)%nat l → (k * length l ≤ sum_sizes f l)%nat.
Proof.
  induction 1 as [|a l Ha Hl IH]; [simpl; unfold sum_sizes; simpl; lia|].
  change (sum_sizes f (a :: l)) with (f a + sum_sizes f l)%nat. simpl. lia.
Qed.

Lemma sum_sizes_le {A} (f : A → nat) k l : Forall (λ a, f a ≤ k)%nat l → (sum_sizes f l ≤ k * length l)%nat.
Proof.
  induction 1 as [|a l Ha Hl IH]; [simpl; unfold sum_sizes; simpl; lia|].
  change (sum_sizes f (a :: l)) with (f a + sum_sizes f l)%nat. simpl. lia.
Qed.

Section sizes.
Context `{ScaleLaws, !ScaleSizes}.

Lemma array_size n bs : array_ok n bs → length (enc (array_codec n) bs) = n.
Proof. intros Hb. by rewrite array_codec_enc. Qed.

Lemma bytes_size l :
  length (enc bytes_codec l) = (compact_size (Z.of_nat (length l)) + length l)%nat.
Proof.
  unfold bytes_codec. rewrite vec_size, (sum_sizes_const _ 1); [lia|].
  apply Forall_forall. intros b _. apply u8_size. pose proof (byte_to_Z_range b). ints.
Qed.
End sizes.
