(* ===== verification/Milli.v ===== *)
(** * Milli: the three-digit fixed-point numbers of fees and slashing

    Models [Milli] of [src/chain-core/src/tx/fee/mod.rs] and [SlashRatio] of
    [src/chain-core/src/init/params.rs].  A [Milli] is its [u64]; sums and
    products wrap at 64 bits as they do in a release build, quotients go through
    [u128]. *)

From stdpp Require Import base tactics option list strings.
From Stdlib Require Import ZArith Lia.
From S2P Require Import Prelude Text.

Abbreviation Milli := Z (only parsing).

Definition milli_new (i f : Z) : Milli := as_u64 (as_u64 (i * 1000) + f mod 1000).
Definition milli_integral (i : Z) : Milli := as_u64 (i * 1000).
(** The ceiling, [to_integral_trunc] the floor. *)
Definition to_integral (m : Milli) : Z :=
  if m mod 1000 =? 0 then m / 1000 else m / 1000 + 1.
Definition to_integral_trunc (m : Milli) : Z := m / 1000.
Definition milli_as_millis (m : Milli) : Z := m.
Definition milli_from_millis (millis : Z) : Milli := millis.

Definition milli_add (a b : Milli) : Milli := as_u64 (a + b).
Definition milli_mul (a b : Milli) : Milli := as_u64 (a * b / 1000).
(** Division by zero panics. *)
Definition milli_div (a b : Milli) : option Milli :=
  if b =? 0 then None else Some (as_u64 (a * 1000 / b)).

Definition improve_sqrt (m estimate : Milli) : option Milli :=
  q ← milli_div m estimate;
  Some (Z.shiftr (milli_add estimate q) 1).

Definition milli_diff (a b : Milli) : Milli := if b <? a then a - b else b - a.

(** The [while] loop of [sqrt], with the values of [sqrt] and [improved_sqrt] at
    the head of the loop. *)
Fixpoint sqrt_loop (fuel : nat) (m sqrt improved_sqrt : Milli) : option Milli :=
  match fuel with
  | O => None
  | S fuel =>
      if 1 <? milli_diff sqrt improved_sqrt then
        let sqrt := improved_sqrt in
        improved_sqrt ← improve_sqrt m sqrt;
        sqrt_loop fuel m sqrt improved_sqrt
      else Some improved_sqrt
  end.

(** The distance to the root at least halves in each round, so 66 rounds are
    enough for every [u64] ([sqrt_loop_total]). *)
Definition sqrt_fuel : nat := 66.

Definition milli_sqrt (m : Milli) : option Milli :=
  let sqrt := 1000 in
  improved_sqrt ← improve_sqrt m sqrt;
  sqrt_loop sqrt_fuel m sqrt improved_sqrt.

Inductive MilliError :=
  | InvalidPartsLength (len : Z)
  | InvalidInteger.

Definition dot : byte := Byte.x2e.

Definition milli_from_str (s : str) : result MilliError Milli :=
  let parts := split_on dot s in
  match parts with
  | [p] =>
      integral ← ok_or (parse_u64 p) InvalidInteger;
      Ok (milli_new integral 0)
  | [p; q] =>
      integral ← ok_or (parse_u64 p) InvalidInteger;
      fractional ← ok_or (parse_u64 (pad_right 3 q)) InvalidInteger;
      Ok (milli_new integral fractional)
  | _ => Err (InvalidPartsLength (Z.of_nat (length parts)))
  end.

Definition milli_to_string (m : Milli) : str :=
  u64_to_string (m / 1000) ++ [dot] ++ pad_left 3 (u64_to_string (m mod 1000)).

(** ** Slash ratios *)

Abbreviation SlashRatio := Z (only parsing).

Inductive SlashRatioError :=
  | GreaterThanMax
  | SlashRatioMilliError (e : MilliError).

Definition MAX_SLASH_RATIO : Milli := milli_new 1 0.

Definition slash_ratio_try_from (m : Milli) : result SlashRatioError SlashRatio :=
  if MAX_SLASH_RATIO <? m then Err GreaterThanMax else Ok m.

Definition slash_ratio_mul (a b : SlashRatio) : option SlashRatio :=
  unwrap (slash_ratio_try_from (milli_mul a b)).

Definition slash_ratio_from_str (s : str) : result SlashRatioError SlashRatio :=
  milli ← map_err SlashRatioMilliError (milli_from_str s);
  slash_ratio_try_from milli.

Definition is_slash_ratio (r : SlashRatio) : Prop := 0 ≤ r ≤ MAX_SLASH_RATIO.

(** ** The square root *)

Section newton.
Variable N : Z.
Hypothesis N_nonneg : 0 ≤ N.

Definition newton (s : Z) : Z := (s + N / s) / 2.

Lemma newton_lower s : 0 < s → Z.sqrt N ≤ newton s.
Proof.
  intros Hs. unfold newton. pose proof (Z.sqrt_spec N N_nonneg) as [Hr _].
  pose proof (Z.sqrt_nonneg N). set (r := Z.sqrt N) in *.
  apply Z.div_le_lower_bound; [lia|].
  enough (2 * r - s ≤ N / s) by lia.
  apply Z.div_le_lower_bound; [done|].
  pose proof (Z.square_nonneg (r - s)). nia.
Qed.

Lemma newton_upper s : Z.sqrt N < s → newton s - Z.sqrt N ≤ (s - Z.sqrt N) / 2.
Proof.
  intros Hs. unfold newton. pose proof (Z.sqrt_spec N N_nonneg) as [_ Hr].
  pose proof (Z.sqrt_nonneg N). set (r := Z.sqrt N) in *.
  assert (N / s ≤ r).
  { enough (N / s < Z.succ r) by lia. apply Z.div_lt_upper_bound; nia. }
  pose proof (Z.div_le_mono (s + N / s) (s + r) 2).
  replace (s + r) with ((s - r) + r * 2) in * by lia.
  rewrite Z.div_add in * by lia. lia.
Qed.

Lemma newton_fixed s : 0 < s → s = Z.sqrt N → newton s ≤ s + 1.
Proof.
  intros Hs Hr. unfold newton. pose proof (Z.sqrt_spec N N_nonneg) as [_ Hu].
  rewrite <- Hr in Hu. apply Z.lt_succ_r. unfold Z.succ.
  apply Z.div_lt_upper_bound; [lia|].
  enough (N / s < s + 3) by lia. apply Z.div_lt_upper_bound; nia.
Qed.

(** Where the loop stops, the estimate is the root or one above it. *)
Lemma newton_stop s :
  0 < s → Z.sqrt N ≤ s → Z.abs (s - newton s) ≤ 1 → newton s ≤ Z.sqrt N + 1.
Proof.
  intros Hs Hr Hd. destruct (decide (s = Z.sqrt N)) as [E|Hne].
  { pose proof (newton_fixed s Hs E). lia. }
  pose proof (newton_upper s ltac:(lia)).
  assert ((s - Z.sqrt N) / 2 * 2 ≤ s - Z.sqrt N) by (pose proof (Z.mul_div_le (s - Z.sqrt N) 2); lia).
  lia.
Qed.
End newton.

Lemma newton_no_wrap m s :
  is_u64 m → 0 < s ≤ U64_MAX → s + m * 1000 / s ≤ U64_MAX →
  improve_sqrt m s = Some (newton (m * 1000) s).
Proof.
  intros Hm Hs Hu. unfold improve_sqrt, milli_div, milli_add, newton.
  assert (0 ≤ m * 1000 / s) by (apply Z.div_pos; ints).
  destruct (Z.eqb_spec s 0); [lia|]. simpl.
  rewrite (as_u64_small (m * 1000 / s)) by ints. rewrite as_u64_small by ints.
  by rewrite Z.shiftr_div_pow2 by lia.
Qed.

Lemma newton_range N s :
  0 ≤ N → 0 < s → Z.sqrt N ≤ s → N / s ≤ Z.sqrt N + 2.
Proof.
  intros HN Hs Hr. pose proof (Z.sqrt_spec N HN) as [_ Hu]. pose proof (Z.sqrt_nonneg N).
  enough (N / s < Z.sqrt N + 3) by lia. apply Z.div_lt_upper_bound; nia.
Qed.

(** Every [u64] has a root below [2 ^ 37] in thousandths. *)
Lemma sqrt_bound m : is_u64 m → Z.sqrt (m * 1000) < 2 ^ 37.
Proof.
  intros Hm. apply Z.sqrt_lt_square; [ints | lia | ]. ints.
Qed.

Lemma milli_diff_abs a b : milli_diff a b = Z.abs (a - b).
Proof. unfold milli_diff. destruct (Z.ltb_spec b a); lia. Qed.

Lemma sqrt_loop_total fuel m s :
  is_u64 m → 0 < s → Z.sqrt (m * 1000) ≤ s → s < 2 ^ 63 →
  s - Z.sqrt (m * 1000) < 2 ^ Z.of_nat fuel →
  ∃ r, sqrt_loop (S fuel) m s (newton (m * 1000) s) = Some r
       ∧ Z.sqrt (m * 1000) ≤ r ≤ Z.sqrt (m * 1000) + 1.
Proof.
  intros Hm. assert (HN : 0 ≤ m * 1000) by ints. revert s.
  induction fuel as [|fuel IH]; intros s Hs Hr Hb Hd.
  all: cbn [sqrt_loop]; rewrite milli_diff_abs.
  all: pose proof (newton_lower (m * 1000) HN s Hs).
  all: destruct (Z.ltb_spec 1 (Z.abs (s - newton (m * 1000) s)));
    [|exists (newton (m * 1000) s); split; [done|]; split; [done|];
      by apply newton_stop].
  all: assert (Z.sqrt (m * 1000) < s) by
    (destruct (decide (s = Z.sqrt (m * 1000))); [pose proof (newton_fixed _ HN s Hs e)|]; lia).
  { change (2 ^ Z.of_nat 0) with 1 in Hd. lia. }
  pose proof (newton_upper _ HN s ltac:(done)) as Hu.
  pose proof (Z.mul_div_le (s - Z.sqrt (m * 1000)) 2 ltac:(lia)).
  rewrite Nat2Z.inj_succ, Z.pow_succ_r in Hd by lia.
  set (s' := newton (m * 1000) s) in *.
  assert (0 ≤ Z.sqrt (m * 1000)) by apply Z.sqrt_nonneg.
  destruct (decide (s' = 0)) as [E0|Hs'].
  { exfalso. unfold s', newton in E0.
    assert (s + m * 1000 / s < 2) by (apply Z.div_small_iff in E0; [lia | lia]).
    assert (0 ≤ m * 1000 / s) by (apply Z.div_pos; lia). lia. }
  rewrite newton_no_wrap; [| done | ints | ].
  - simpl. apply IH; lia.
  - pose proof (newton_range (m * 1000) s' HN ltac:(lia) ltac:(lia)).
    pose proof (sqrt_bound m Hm). ints.
Qed.

Lemma milli_sqrt_spec m :
  0 ≤ m ≤ U64_MAX - 1000 →
  ∃ r, milli_sqrt m = Some r ∧ Z.sqrt (m * 1000) ≤ r ≤ Z.sqrt (m * 1000) + 1.
Proof.
  intros Hm. assert (Hu : is_u64 m) by ints. unfold milli_sqrt.
  assert (E : m * 1000 / 1000 = m) by (apply Z.div_mul; lia).
  rewrite newton_no_wrap; [| done | ints | rewrite E; ints]. simpl.
  pose proof (newton_lower (m * 1000) ltac:(ints) 1000 ltac:(lia)) as Hl.
  unfold sqrt_fuel. destruct (Z.le_gt_cases (Z.sqrt (m * 1000)) 1000) as [Hle|Hgt].
  { apply (sqrt_loop_total 65); [done | lia | done | lia |].
    pose proof (Z.sqrt_nonneg (m * 1000)). change (Z.of_nat 65) with 65. lia. }
  (* A root above the first estimate: one round brings the estimate above it. *)
  assert (Hn : newton (m * 1000) 1000 = (1000 + m) / 2) by (unfold newton; by rewrite E).
  assert (Hm' : 1002 < m).
  { pose proof (Z.sqrt_spec (m * 1000) ltac:(ints)) as [Hq _].
    pose proof (Z.mul_le_mono_nonneg 1001 (Z.sqrt (m * 1000)) 1001 (Z.sqrt (m * 1000))). lia. }
  assert ((1000 + m) / 2 ≤ (1000 + m) / 2 * 2 ≤ 1000 + m).
  { pose proof (Z.mul_div_le (1000 + m) 2). pose proof (Z.div_pos (1000 + m) 2). lia. }
  change 66%nat with (S 65). cbn [sqrt_loop]. rewrite milli_diff_abs, Hn.
  destruct (Z.ltb_spec 1 (Z.abs (1000 - (1000 + m) / 2))) as [Hlt|Hge].
  - rewrite Hn in Hl. rewrite newton_no_wrap; [| done | ints |].
    + simpl. apply (sqrt_loop_total 64); [done | lia | done | ints |].
      pose proof (Z.sqrt_nonneg (m * 1000)). change (Z.of_nat 64) with 64. ints.
    + pose proof (newton_range (m * 1000) ((1000 + m) / 2) ltac:(ints) ltac:(lia) Hl).
      pose proof (sqrt_bound m Hu). ints.
  - exists ((1000 + m) / 2). rewrite Hn in Hl. split; [done|]. lia.
Qed.

(** ** Printing and parsing *)

Definition all_digits (s : str) : Prop := Forall (λ b, ∃ d, 0 ≤ d ≤ 9 ∧ b = digit d) s.

Lemma dot_not_digits s : all_digits s → dot ∉ s.
Proof.
  intros Hs Hin. unfold all_digits in Hs. rewrite Forall_forall in Hs.
  destruct (Hs _ Hin) as (d & Hd & E).
  by apply (digit_not d dot Hd eq_refl).
Qed.

Lemma u64_to_string_digits n : 0 ≤ n → all_digits (u64_to_string n).
Proof. apply print_digits_chars. Qed.

Lemma pad_left_digits w s : all_digits s → all_digits (pad_left w s).
Proof.
  intros Hs. apply Forall_app. split; [|done]. apply Forall_replicate. by exists 0.
Qed.

Lemma pad_right_long w s : (w ≤ length s)%nat → pad_right w s = s.
Proof. intros. unfold pad_right. replace (w - length s)%nat with O by lia. apply app_nil_r. Qed.

Lemma length_pad_left w s : (w ≤ length (pad_left w s))%nat.
Proof. unfold pad_left. rewrite length_app, length_replicate. lia. Qed.

Lemma milli_new_small i f : 0 ≤ i → 0 ≤ f → i * 1000 + f mod 1000 ≤ U64_MAX →
  milli_new i f = i * 1000 + f mod 1000.
Proof.
  intros. unfold milli_new. pose proof (Z.mod_pos_bound f 1000).
  rewrite (as_u64_small (i * 1000)) by ints. apply as_u64_small. ints.
Qed.

(** A number with at least three digits after the point. *)
Lemma milli_from_str_digits i q v :
  is_u64 i → all_digits q → (3 ≤ length q)%nat → parse_digits 0 q = Some v →
  milli_from_str (u64_to_string i ++ [dot] ++ q) = Ok (milli_new i v).
Proof.
  intros Hi Hq Hlen Hv. unfold milli_from_str. change ([dot] ++ q) with (dot :: q).
  rewrite split_on_two by (apply dot_not_digits; first [done | apply u64_to_string_digits; ints]).
  rewrite parse_u64_to_string by done. simpl. rewrite pad_right_long by done.
  rewrite parse_u64_digits, Hv; [done | | done]. destruct q; simpl in Hlen; [lia | done].
Qed.

Lemma milli_from_str_to_string m :
  is_u64 m → milli_from_str (milli_to_string m) = Ok m.
Proof.
  intros Hm. unfold milli_to_string.
  pose proof (Z.div_mod m 1000 ltac:(lia)). pose proof (Z.mod_pos_bound m 1000 ltac:(lia)).
  assert (0 ≤ m / 1000) by (apply Z.div_pos; ints).
  rewrite (milli_from_str_digits _ _ (m mod 1000)).
  - rewrite milli_new_small; rewrite ?Z.mod_mod; f_equal; ints.
  - ints.
  - apply pad_left_digits, u64_to_string_digits. lia.
  - apply length_pad_left.
  - unfold pad_left. rewrite parse_digits_zeros. apply parse_print_digits; [ints|].
    change (Z.of_nat 20) with 20. lia.
Qed.

(** ** Properties *)

(** C18. The square root of a fixed-point number below the wrap-around of its first
    step is computed without a division by zero and within the fuel, and is the
    root of its thousandths rounded down, or one thousandth above it. *)
Theorem milli_sqrt_accurate m :
  0 ≤ m ≤ U64_MAX - 1000 →
  ∃ r, milli_sqrt m = Some r ∧ Z.sqrt (m * 1000) ≤ r ≤ Z.sqrt (m * 1000) + 1.
Proof. apply milli_sqrt_spec. Qed.

Lemma milli_sqrt_accurate_witness :
  milli_sqrt 200 = Some 447
  ∧ ∃ r, milli_sqrt 200 = Some r ∧ Z.sqrt (200 * 1000) ≤ r ≤ Z.sqrt (200 * 1000) + 1.
Proof.
  split; [vm_compute; reflexivity|]. apply (milli_sqrt_accurate 200). ints.
Defined.

(** Parsing the text a fixed-point number prints as returns the number. *)
Theorem milli_roundtrip m :
  is_u64 m → milli_from_str (milli_to_string m) = Ok m.
Proof. apply milli_from_str_to_string. Qed.

Lemma milli_roundtrip_witness :
  milli_to_string 1025 = bstr "1.025"
  ∧ milli_from_str (milli_to_string 1025) = Ok 1025.
Proof. split; [vm_compute; reflexivity|]. apply (milli_roundtrip 1025). ints. Defined.

Lemma parse_digits_cons acc d q :
  0 ≤ acc → 0 ≤ d ≤ 9 → acc * 10 + d ≤ U64_MAX →
  parse_digits acc (digit d :: q) = parse_digits (acc * 10 + d) q.
Proof.
  intros. change (digit d :: q) with ([digit d] ++ q).
  by rewrite parse_digits_app, parse_digits_step.
Qed.

(** A number written with four digits after the point is read as if the first
    of them were absent: its thousandths are the last three digits, where the
    documentation of [Milli::new] has a three-digit fraction. *)
Theorem milli_from_str_drops_digit i d a b c :
  is_u64 i → i * 1000 + 999 ≤ U64_MAX →
  0 ≤ d ≤ 9 → 0 ≤ a ≤ 9 → 0 ≤ b ≤ 9 → 0 ≤ c ≤ 9 →
  milli_from_str (u64_to_string i ++ [dot] ++ [digit d; digit a; digit b; digit c])
    = Ok (i * 1000 + (a * 100 + b * 10 + c)).
Proof.
  intros Hi Hb Hd Ha Hb' Hc.
  rewrite (milli_from_str_digits i _ (a * 100 + b * 10 + c + d * 1000)).
  - rewrite milli_new_small; rewrite ?Z.mod_add, ?Z.mod_small; done || ints.
  - done.
  - unfold all_digits. rewrite !Forall_cons. naive_solver.
  - simpl; lia.
  - rewrite !parse_digits_cons by ints. simpl. f_equal. lia.
Qed.

Lemma milli_from_str_drops_digit_witness : milli_from_str (bstr "0.9001") = Ok 1.
Proof. apply (milli_from_str_drops_digit 0 9 0 0 1); ints. Defined.
