(* ===== verification/Coin.v ===== *)
(** * Coin: amounts bounded by the total supply

    Models [src/chain-core/src/init/coin.rs], the voting power of
    [src/chain-core/src/state/tendermint.rs] a coin converts to, and the linear
    fee of [src/chain-core/src/tx/fee/mod.rs].  A [Coin] is its [u64]; the
    invariant [coin_ok] of the private field is what every operation keeps. *)

From stdpp Require Import base tactics option list.
From Stdlib Require Import ZArith Lia.
From S2P Require Import Prelude Text Codec Milli.

Definition MAX_COIN : Z := 10000000000000000000.
Definition MAX_COIN_DECIMALS : Z := 100000000.
Definition MAX_COIN_UNITS : Z := 100000000000.

Abbreviation Coin := Z (only parsing).

Definition coin_ok (c : Coin) : Prop := 0 ≤ c ≤ MAX_COIN.

Inductive CoinError :=
  | OutOfBound (v : Z)
  | ParseIntError
  | Negative
  | DividByZero
  | Overflow.

#[global] Instance CoinError_eq_dec : EqDecision CoinError.
Proof. solve_decision. Defined.

Abbreviation CoinResult := (result CoinError Coin).

Definition coin_zero : Coin := 0.
Definition coin_unit : Coin := 1.
Definition coin_one : Coin := MAX_COIN_DECIMALS.
Definition coin_max : Coin := MAX_COIN.

Definition coin_new (v : Z) : CoinResult :=
  if v <=? MAX_COIN then Ok v else Err (OutOfBound v).

Definition coin_add (self other : Coin) : CoinResult :=
  match checked_add self other with
  | None => Err (OutOfBound 0)
  | Some v => coin_new v
  end.

Definition coin_sub (self other : Coin) : CoinResult :=
  match checked_sub self other with
  | None => Err Negative
  | Some v => coin_new v
  end.

(** [Sub<Coin> for CoinResult]. *)
Definition result_sub (self : CoinResult) (other : Coin) : CoinResult :=
  v ← self;
  if v <? other then Err Negative else Ok (v - other).

Definition coin_mul (self : Coin) (mul : Z) : CoinResult :=
  v ← ok_or (checked_mul self mul) Overflow;
  coin_new v.

Definition coin_div (self : Coin) (modulus : Z) : CoinResult :=
  ok_or (checked_div self modulus) DividByZero.

Definition coin_rem (self : Coin) (modulus : Z) : CoinResult :=
  ok_or (checked_rem self modulus) DividByZero.

(** [Mul<SlashRatio> for Coin]: the assertion panics. *)
Definition coin_mul_ratio (self : Coin) (rhs : SlashRatio) : option Coin :=
  let value := self in
  let ratio := milli_as_millis rhs in
  if ratio <=? 1000 then Some (as_u64 (value * ratio / 1000)) else None.

Definition coin_from_u32 (c : Z) : Coin := c.

Definition sum_coins (coins : list Coin) : CoinResult :=
  foldl (λ acc c, v ← acc; coin_add v c) (coin_new 0) coins.

(** ** Text *)

Definition coin_to_string (c : Coin) : str :=
  u64_to_string (c / MAX_COIN_DECIMALS) ++ [dot]
  ++ pad_left 8 (u64_to_string (c mod MAX_COIN_DECIMALS)).

Definition coin_from_str (s : str) : CoinResult :=
  v ← ok_or (parse_u64 s) ParseIntError;
  coin_new v.

(** The string [serde] writes, and [visit_str]; any error is [None]. *)
Definition coin_serialize (c : Coin) : str := u64_to_string c.
Definition coin_visit_str (value : str) : option Coin :=
  amount ← parse_u64 value;
  ok (coin_new amount).

(** ** Binary *)

Definition coin_codec `{Scale} : codec Coin :=
  Codec (enc u64_codec)
    (num ⇐ dec u64_codec;
     if MAX_COIN <? num then dfail else dret num).

(** ** Voting power *)

Abbreviation TendermintVotePower := Z (only parsing).

Definition TENDERMINT_MAX_VOTE_POWER : Z := I64_MAX / 1000.

Inductive TendermintVotePowerError :=
  | VotePowerOutOfBound (v : Z)
  | VotePowerNegative.

Definition vote_power_new (v : Z) : result TendermintVotePowerError TendermintVotePower :=
  if v <? 0 then Err VotePowerNegative
  else if TENDERMINT_MAX_VOTE_POWER <? v then Err (VotePowerOutOfBound v)
  else Ok v.

Definition vote_power_zero : TendermintVotePower := 0.

(** [From<Coin> for TendermintVotePower]; both [expect]s can panic. *)
Definition vote_power_from_coin (c : Coin) : option TendermintVotePower :=
  vote_power ← i64_try_from (c / MAX_COIN_DECIMALS);
  unwrap (vote_power_new vote_power).

(** ** Fees *)

Abbreviation Fee := Coin (only parsing).
Definition fee_new (c : Coin) : Fee := c.
Definition fee_to_coin (f : Fee) : Coin := f.

Record LinearFee := { constant : Milli; coefficient : Milli }.

Definition estimate (self : LinearFee) (sz : Z) : result CoinError Fee :=
  let msz := milli_integral sz in
  let fee := milli_add (constant self) (milli_mul (coefficient self) msz) in
  coin ← coin_new (to_integral fee);
  Ok (fee_new coin).

Definition calculate_fee (self : LinearFee) (num_bytes : Z) : result CoinError Fee :=
  estimate self num_bytes.

(** ** Arithmetic *)

#[export] Hint Unfold coin_zero coin_ok MAX_COIN MAX_COIN_DECIMALS MAX_COIN_UNITS : ints.

Lemma coin_new_ok v c : coin_new v = Ok c ↔ c = v ∧ v ≤ MAX_COIN.
Proof. unfold coin_new. destruct (Z.leb_spec v MAX_COIN); split; intros; simplify_eq; (done || lia || f_equal; lia). Qed.

Lemma coin_add_ok a b c :
  coin_add a b = Ok c ↔ c = a + b ∧ a + b ≤ MAX_COIN.
Proof.
  unfold coin_add, checked_add. destruct (Z.leb_spec (a + b) U64_MAX).
  - apply coin_new_ok.
  - split; [done|]. ints.
Qed.

Lemma coin_sub_ok a b c :
  coin_ok a → 0 ≤ b → coin_sub a b = Ok c ↔ c = a - b ∧ b ≤ a.
Proof.
  intros. unfold coin_sub, checked_sub. destruct (Z.leb_spec b a).
  - rewrite coin_new_ok. split; ints.
  - split; [done | lia].
Qed.

Lemma coin_mul_ok a m c : coin_mul a m = Ok c ↔ c = a * m ∧ a * m ≤ MAX_COIN.
Proof.
  unfold coin_mul, checked_mul. destruct (Z.leb_spec (a * m) U64_MAX); simpl.
  - apply coin_new_ok.
  - split; [done|]. ints.
Qed.

Lemma coin_mul_ratio_ok c r :
  coin_ok c → is_slash_ratio r →
  coin_mul_ratio c r = Some (c * r / 1000) ∧ 0 ≤ c * r / 1000 ≤ c.
Proof.
  intros Hc Hr. unfold is_slash_ratio in Hr. change MAX_SLASH_RATIO with 1000 in Hr.
  unfold coin_mul_ratio, milli_as_millis. destruct (Z.leb_spec r 1000); [|lia].
  assert (0 ≤ c * r / 1000 ≤ c).
  { split; [apply Z.div_pos; ints|]. unfold coin_ok in Hc.
    apply Z.div_le_upper_bound; nia. }
  rewrite as_u64_small by ints. done.
Qed.

Lemma sum_id_cons (c : Coin) l : sum_by id (c :: l) = c + sum_by id l.
Proof. done. Qed.

(** Folding from a sum already reached. *)
Lemma sum_coins_from a l s :
  0 ≤ a → Forall coin_ok l →
  foldl (λ acc c, v ← acc; coin_add v c) (coin_new a) l = Ok s
    ↔ s = a + sum_by id l ∧ s ≤ MAX_COIN.
Proof.
  revert a. induction l as [|c l IH]; intros a Ha Hl.
  { simpl. rewrite coin_new_ok. unfold sum_by; simpl. lia. }
  apply Forall_cons in Hl as [Hc Hl]. rewrite sum_id_cons. simpl.
  assert (0 ≤ sum_by id l).
  { apply sum_by_nonneg. eapply Forall_impl; [exact Hl|]. unfold id. intros; ints. }
  destruct (Z.le_gt_cases (a + c) MAX_COIN) as [Hle|Hgt].
  - replace (v ← coin_new a; coin_add v c) with (coin_new (a + c)).
    + rewrite IH by (ints || done). lia.
    + rewrite (proj2 (coin_new_ok a a)) by ints. simpl.
      rewrite (proj2 (coin_add_ok a c (a + c))) by ints. by apply coin_new_ok.
  - assert (HE : ∃ e, (v ← coin_new a; coin_add v c) = Err e).
    { destruct (v ← coin_new a; coin_add v c) as [x|e] eqn:E; [|by exists e].
      run_inv E. apply coin_new_ok in E0 as [-> ?]. apply coin_add_ok in E. lia. }
    destruct HE as [e ->]. split; [|lia]. intros Hf. exfalso. revert Hf. clear.
    induction l; simpl; [done | auto].
Qed.

Lemma sum_coins_ok l s :
  Forall coin_ok l → sum_coins l = Ok s ↔ s = sum_by id l ∧ s ≤ MAX_COIN.
Proof. intros. unfold sum_coins. rewrite sum_coins_from by done. by rewrite Z.add_0_l. Qed.

Lemma sum_coins_range l s :
  Forall coin_ok l → sum_coins l = Ok s → coin_ok s.
Proof.
  intros Hl Hs. apply sum_coins_ok in Hs as [-> ?]; [|done]. split; [|done].
  apply sum_by_nonneg. eapply Forall_impl; [exact Hl|]. unfold id. intros; ints.
Qed.

Lemma vote_power_from_coin_ok c :
  coin_ok c → vote_power_from_coin c = Some (c / MAX_COIN_DECIMALS)
              ∧ 0 ≤ c / MAX_COIN_DECIMALS ≤ MAX_COIN_UNITS.
Proof.
  intros Hc. assert (0 ≤ c / MAX_COIN_DECIMALS ≤ MAX_COIN_UNITS).
  { split; [apply Z.div_pos; ints|]. apply Z.div_le_upper_bound; ints. }
  split; [|done]. unfold vote_power_from_coin, i64_try_from, vote_power_new.
  destruct (Z.leb_spec (c / MAX_COIN_DECIMALS) I64_MAX); [|ints]. simpl.
  destruct (Z.ltb_spec (c / MAX_COIN_DECIMALS) 0); [lia|].
  change TENDERMINT_MAX_VOTE_POWER with 9223372036854775.
  destruct (Z.ltb_spec 9223372036854775 (c / MAX_COIN_DECIMALS)); [ints | done].
Qed.

Lemma coin_codec_ok `{ScaleLaws} : codec_ok coin_ok coin_codec.
Proof.
  intros c rest Hc. simpl. rewrite (dbind_ok is_u64); [| apply u64_codec_ok | ints].
  destruct (Z.ltb_spec MAX_COIN c); [ints | done].
Qed.
#[export] Hint Resolve coin_codec_ok : codec.

Lemma coin_codec_typed `{ScaleLaws} : codec_typed coin_ok coin_codec.
Proof.
  intros i c r Hc. cbn [dec coin_codec] in Hc. dec_inv Hc. apply u64_codec_typed in E. bools. ints.
Qed.
#[export] Hint Resolve coin_codec_typed : typed.

Lemma to_integral_ceil m : 0 ≤ m → 1000 * (to_integral m - 1) < m ≤ 1000 * to_integral m.
Proof.
  intros. unfold to_integral. pose proof (Z.div_mod m 1000 ltac:(lia)).
  pose proof (Z.mod_pos_bound m 1000 ltac:(lia)).
  destruct (Z.eqb_spec (m mod 1000) 0); lia.
Qed.

(** The fee before its rounding, where nothing wraps. *)
Lemma fee_millis_exact fee sz :
  is_u64 (constant fee) → is_u64 (coefficient fee) → 0 ≤ sz →
  sz * 1000 ≤ U64_MAX → constant fee + coefficient fee * sz ≤ U64_MAX →
  estimate fee sz = coin_new (to_integral (constant fee + coefficient fee * sz)).
Proof.
  intros H1 H2 Hs Hm Hb. unfold estimate, milli_integral, milli_add, milli_mul, fee_new.
  rewrite (as_u64_small (sz * 1000)) by ints.
  rewrite Z.mul_assoc, Z.div_mul by lia.
  rewrite (as_u64_small (coefficient fee * sz)) by (unfold is_u64 in *; nia).
  rewrite as_u64_small by (unfold is_u64 in *; nia).
  by destruct (coin_new _).
Qed.

Lemma calculate_fee_range fee sz c : calculate_fee fee sz = Ok c → coin_ok c.
Proof.
  unfold calculate_fee, estimate, fee_new. intros Hf.
  destruct (coin_new _) as [c'|] eqn:E; [|done]. injection Hf as <-. apply coin_new_ok in E as [-> ?].
  split; [|done]. unfold milli_add. pose proof (as_u64_range (constant fee + milli_mul (coefficient fee) (milli_integral sz))).
  match goal with |- 0 ≤ to_integral ?m => pose proof (to_integral_ceil m) end. ints.
Qed.

(** ** Properties *)

(** Coins stay between zero and the total supply: on coins and a [u64], the
    operations return the exact result where it is within these bounds and the
    error of the case otherwise, with the wrap-around of an overflowing sum
    reported as the value zero. *)
Theorem coin_ops_exact a b m :
  coin_ok a → coin_ok b → is_u64 m →
  coin_add a b = (if a + b <=? MAX_COIN then Ok (a + b)
                  else Err (OutOfBound (if a + b <=? U64_MAX then a + b else 0)))
  ∧ coin_sub a b = (if b <=? a then Ok (a - b) else Err Negative)
  ∧ result_sub (Ok a) b = coin_sub a b
  ∧ coin_mul a m = (if a * m <=? MAX_COIN then Ok (a * m)
                    else if a * m <=? U64_MAX then Err (OutOfBound (a * m)) else Err Overflow)
  ∧ (∀ c, coin_add a b = Ok c ∨ coin_sub a b = Ok c ∨ coin_mul a m = Ok c
          ∨ coin_div a m = Ok c ∨ coin_rem a m = Ok c → coin_ok c).
Proof.
  intros Ha Hb Hm.
  assert (Ea : coin_add a b = (if a + b <=? MAX_COIN then Ok (a + b)
                  else Err (OutOfBound (if a + b <=? U64_MAX then a + b else 0)))).
  { unfold coin_add, checked_add, coin_new. destruct (Z.leb_spec (a + b) U64_MAX); [done|].
    destruct (Z.leb_spec (a + b) MAX_COIN); [ints | done]. }
  assert (Es : coin_sub a b = (if b <=? a then Ok (a - b) else Err Negative)).
  { unfold coin_sub, checked_sub, coin_new. destruct (Z.leb_spec b a); [|done].
    destruct (Z.leb_spec (a - b) MAX_COIN); [done | ints]. }
  split_and!; [done | done | | |].
  - rewrite Es. unfold result_sub. simpl. destruct (Z.ltb_spec a b), (Z.leb_spec b a); done || lia.
  - unfold coin_mul, checked_mul, coin_new. destruct (Z.leb_spec (a * m) U64_MAX); simpl; [done|].
    destruct (Z.leb_spec (a * m) MAX_COIN); [ints | done].
  - intros c [H|[H|[H|[H|H]]]].
    + apply coin_add_ok in H. ints.
    + apply coin_sub_ok in H; ints.
    + apply coin_mul_ok in H. autounfold with ints in *. nia.
    + unfold coin_div, checked_div in H. destruct (Z.eqb_spec m 0); simplify_eq/=.
      pose proof (Z.div_pos a m). pose proof (Z.div_le_upper_bound a m a).
      autounfold with ints in *. nia.
    + unfold coin_rem, checked_rem in H. destruct (Z.eqb_spec m 0); simplify_eq/=.
      pose proof (Z.mod_le a m). pose proof (Z.mod_pos_bound a m). ints.
Qed.

Lemma coin_ops_exact_witness :
  coin_ok MAX_COIN ∧ coin_ok 5 ∧ is_u64 3
  ∧ coin_add MAX_COIN 5 = Err (OutOfBound (MAX_COIN + 5)) ∧ coin_sub 5 MAX_COIN = Err Negative.
Proof.
  assert (coin_ok MAX_COIN ∧ coin_ok 5 ∧ is_u64 3) as (H1 & H2 & H3) by ints.
  destruct (coin_ops_exact MAX_COIN 5 3 H1 H2 H3) as (Ha & _).
  destruct (coin_ops_exact 5 MAX_COIN 3 H2 H1 H3) as (_ & Hs & _).
  split_and!; [done | done | done | exact Ha | exact Hs].
Defined.

(** Summing coins succeeds exactly when the exact sum is within the supply, and
    then returns it; the order of the coins does not matter. *)
Theorem sum_coins_exact l :
  Forall coin_ok l →
  (∀ s, sum_coins l = Ok s ↔ s = sum_by id l ∧ s ≤ MAX_COIN)
  ∧ (∀ l' s, l' ≡ₚ l → sum_coins l = Ok s → sum_coins l' = Ok s).
Proof.
  intros Hl. split; [intros s; by apply sum_coins_ok|].
  intros l' s Hp Hs. apply sum_coins_ok; [by rewrite Hp|].
  rewrite (sum_by_perm id l' l Hp). by apply sum_coins_ok.
Qed.

Lemma sum_coins_exact_witness :
  Forall coin_ok [1; 2; 3] ∧ sum_coins [3; 1; 2] = Ok 6.
Proof.
  assert (Hf : Forall coin_ok [1; 2; 3]) by (repeat constructor; ints).
  split; [exact Hf|]. destruct (sum_coins_exact [1; 2; 3] Hf) as [_ Hp].
  apply (Hp [3; 1; 2] 6); [|reflexivity]. exact (Permutation_cons_append [1; 2] 3).
Defined.

(** The conversion of a coin to a voting power never panics, drops the
    decimals, and stays below the largest voting power. *)
Theorem vote_power_total c :
  coin_ok c →
  vote_power_from_coin c = Some (c / MAX_COIN_DECIMALS)
  ∧ 0 ≤ c / MAX_COIN_DECIMALS ≤ MAX_COIN_UNITS
  ∧ MAX_COIN_UNITS < TENDERMINT_MAX_VOTE_POWER.
Proof. intros Hc. destruct (vote_power_from_coin_ok c Hc). split_and!; done || ints. Qed.

Lemma vote_power_total_witness :
  coin_ok MAX_COIN ∧ vote_power_from_coin MAX_COIN = Some MAX_COIN_UNITS.
Proof.
  assert (H : coin_ok MAX_COIN) by ints. split; [exact H|]. apply (vote_power_total MAX_COIN H).
Defined.

(** Where nothing overflows, the linear fee of a size is its affine formula in
    thousandths rounded up to a whole unit, and a larger transaction never has a
    smaller fee. *)
Theorem linear_fee_exact fee sz sz' :
  is_u64 (constant fee) → is_u64 (coefficient fee) → 0 ≤ sz ≤ sz' →
  sz' * 1000 ≤ U64_MAX → constant fee + coefficient fee * sz' ≤ U64_MAX →
  ∃ f f', calculate_fee fee sz = Ok f ∧ calculate_fee fee sz' = Ok f'
    ∧ 1000 * (f - 1) < constant fee + coefficient fee * sz ≤ 1000 * f
    ∧ f ≤ f'.
Proof.
  intros H1 H2 Hs Hm Hb.
  assert (Hle : coefficient fee * sz ≤ coefficient fee * sz') by (unfold is_u64 in *; nia).
  assert (0 ≤ coefficient fee * sz) by (unfold is_u64 in *; nia).
  unfold calculate_fee. rewrite !fee_millis_exact by (done || lia).
  pose proof (to_integral_ceil (constant fee + coefficient fee * sz) ltac:(ints)).
  pose proof (to_integral_ceil (constant fee + coefficient fee * sz') ltac:(ints)).
  do 2 eexists. split_and!; [apply coin_new_ok; split; [done | ints].. | lia | lia | lia].
Qed.

Lemma linear_fee_exact_witness :
  let fee := {| constant := 1100; coefficient := 1250 |} in
  ∃ f f', calculate_fee fee 100 = Ok f ∧ calculate_fee fee 200 = Ok f'
    ∧ 1000 * (f - 1) < constant fee + coefficient fee * 100 ≤ 1000 * f
    ∧ f ≤ f'.
Proof.
  intros fee. apply (linear_fee_exact fee 100 200); unfold fee; simpl; ints.
Defined.
