(* ===== verification/Crypto.v ===== *)
(** * Crypto: hash functions, signatures and text encodings as interfaces

    The [blake2], [tiny-keccak], [sha2], [secp256k1], [hex], [base64] and [bech32] crates
    are not part of the repository.  Each is a class of operations with the laws
    its documentation gives: digests have 32 bytes, parsing a serialized key or
    signature returns it, decoding an encoded string returns its bytes.  Nothing
    is assumed of the hash functions beyond the length of their output: the
    theorems that need more say which collision they would need instead.  The
    instances at the end are concrete functions for the witnesses. *)

From stdpp Require Import base tactics option list.
From Stdlib Require Import ZArith Lia.
From S2P Require Import Prelude Text Codec.

Abbreviation H256 := (list byte) (only parsing).
Abbreviation H264 := (list byte) (only parsing).
Abbreviation H512 := (list byte) (only parsing).
Definition HASH_SIZE_256 : nat := 32.

Definition h256_ok (h : H256) : Prop := length h = HASH_SIZE_256.

(** ** Hashes *)

Class Hashes := {
  blake2s : list byte → H256;
  keccak_v256 : list byte → H256;
  sha256 : list byte → H256;
  blake2s_length data : length (blake2s data) = HASH_SIZE_256;
  keccak_v256_length data : length (keccak_v256 data) = HASH_SIZE_256;
  sha256_length data : length (sha256 data) = HASH_SIZE_256;
}.

Create HintDb hashes discriminated.
#[export] Hint Resolve blake2s_length keccak_v256_length sha256_length : hashes.
#[export] Hint Unfold h256_ok : hashes.

(** [hash256::<Blake2s>]: the digest copied into an array of 32 bytes. *)
Definition hash256 `{Hashes} (data : list byte) : H256 := blake2s data.
Definition keccak256 `{Hashes} (data : list byte) : H256 := keccak_v256 data.

(** Two different inputs of one list of hashed inputs and another with the same
    digest. *)
Definition collision `{Hashes} (xs ys : list (list byte)) : Prop :=
  ∃ x y, x ∈ xs ∧ y ∈ ys ∧ x ≠ y ∧ hash256 x = hash256 y.

Lemma hash256_inv `{Hashes} xs ys x y :
  x ∈ xs → y ∈ ys → hash256 x = hash256 y → x = y ∨ collision xs ys.
Proof. intros Hx Hy E. destruct (decide (x = y)); [by left|]. right. by exists x, y. Qed.

(** ** Signatures *)

Inductive SecpError :=
  | IncorrectSignature
  | InvalidMessage
  | InvalidPublicKey
  | InvalidSignature
  | InvalidSecretKey
  | InvalidRecoveryId
  | InvalidTweak
  | NotEnoughMemory.

Class Secp256k1 := {
  PublicKey : Type;
  SchnorrSignature : Type;
  RecoverableSignature : Type;
  #[global] PublicKey_eq_dec :: EqDecision PublicKey;
  #[global] SchnorrSignature_eq_dec :: EqDecision SchnorrSignature;
  #[global] RecoverableSignature_eq_dec :: EqDecision RecoverableSignature;
  pk_from_slice : list byte → result SecpError PublicKey;
  pk_serialize : PublicKey → H264;
  pk_serialize_uncompressed : PublicKey → list byte;
  schnorr_from_default : H512 → result SecpError SchnorrSignature;
  schnorr_serialize_default : SchnorrSignature → H512;
  recoverable_from_compact : H512 → Z → result SecpError RecoverableSignature;
  recoverable_serialize_compact : RecoverableSignature → Z * H512;
  schnorr_verify : H256 → SchnorrSignature → PublicKey → result SecpError unit;
  recover : H256 → RecoverableSignature → result SecpError PublicKey;
  ecdsa_verify : H256 → RecoverableSignature → PublicKey → result SecpError unit;
}.

Class Secp256k1Laws `{Secp256k1} : Prop := {
  pk_from_serialize pk : pk_from_slice (pk_serialize pk) = Ok pk;
  pk_serialize_length pk : length (pk_serialize pk) = 33%nat;
  schnorr_from_serialize s : schnorr_from_default (schnorr_serialize_default s) = Ok s;
  schnorr_serialize_length s : length (schnorr_serialize_default s) = 64%nat;
  recoverable_from_serialize s :
    recoverable_from_compact (recoverable_serialize_compact s).2
      (recoverable_serialize_compact s).1 = Ok s;
  recoverable_serialize_length s : length (recoverable_serialize_compact s).2 = 64%nat;
  (** The recovery id is 0, 1, 2 or 3. *)
  recoverable_id_range s : 0 ≤ (recoverable_serialize_compact s).1 ≤ 3;
}.

(** [Message::from_slice]. *)
Definition message_from_slice (data : list byte) : result SecpError H256 :=
  if (length data =? 32)%nat then Ok data else Err InvalidMessage.

(** ** Text encodings of bytes *)

Class Hex := {
  hex_encode : list byte → str;
  hex_decode : str → option (list byte);
  hex_decode_encode bs : hex_decode (hex_encode bs) = Some bs;
  hex_encode_length bs : length (hex_encode bs) = (2 * length bs)%nat;
  hex_encode_ascii bs : Forall (λ b, in_range 0x00 0x7f b = true) (hex_encode bs);
}.

(** Base 64. *)
Class Base64 := {
  base64_encode : list byte → str;
  base64_decode : str → option (list byte);
  base64_decode_encode bs : base64_decode (base64_encode bs) = Some bs;
}.

(** [bech32]: groups of five bits, and texts with a human-readable part.  The parts that the
    chain uses are lower-case letters. *)
Definition hrp_ok (hrp : str) : Prop := hrp ≠ [] ∧ Forall (λ b, in_range 97 122 b = true) hrp.

Class Bech32 := {
  to_base32 : list byte → list Z;
  from_base32 : list Z → option (list byte);
  from_to_base32 bs : from_base32 (to_base32 bs) = Some bs;
  bech32_encode : str → list Z → option str;
  bech32_decode : str → option (str * list Z);
  bech32_encode_ok hrp bs : hrp_ok hrp →
    ∃ s, bech32_encode hrp (to_base32 bs) = Some (hrp ++ s) ∧ bech32_decode (hrp ++ s) = Some (hrp, to_base32 bs);
}.

(** Authenticated encryption (AES-GCM-SIV): key, nonce, additional data and message. *)
Class Aead := {
  aead_encrypt : list byte → list byte → list byte → list byte → option (list byte);
  aead_decrypt : list byte → list byte → list byte → list byte → option (list byte);
}.

Class AeadLaws `{Aead} : Prop := {
  aead_encrypt_total key nonce aad msg :
    Z.of_nat (length msg) ≤ U32_MAX → is_Some (aead_encrypt key nonce aad msg);
  aead_length key nonce aad msg c :
    aead_encrypt key nonce aad msg = Some c → length c = (length msg + 16)%nat;
  aead_decrypt_encrypt key nonce aad msg c :
    aead_encrypt key nonce aad msg = Some c → aead_decrypt key nonce aad c = Some msg;
}.

(** ** Concrete instances *)

Module Ref.
(** The first 32 bytes of the input, padded with zeros. *)
Definition digest (data : list byte) : list byte :=
  take 32 (data ++ replicate 32 Byte.x00).

Lemma digest_length data : length (digest data) = HASH_SIZE_256.
Proof. unfold digest. rewrite length_take, length_app, length_replicate. unfold HASH_SIZE_256. lia. Qed.

Definition hashes : Hashes := {|
  blake2s := digest; keccak_v256 := digest; sha256 := digest;
  blake2s_length := digest_length; keccak_v256_length := digest_length;
  sha256_length := digest_length |}.

(** Keys and signatures are one byte, padded to their length; a signature is
    valid under the key it names. *)
Definition padded (n : nat) (b : byte) : list byte := b :: replicate n Byte.x00.
Definition unpad (n : nat) (l : list byte) : result SecpError byte :=
  match l with
  | b :: l' => if decide (l' = replicate n Byte.x00) then Ok b else Err InvalidPublicKey
  | [] => Err InvalidPublicKey
  end.

(** Both forms of a key, told apart by their length. *)
Definition parse_key (l : list byte) : result SecpError byte :=
  if (length l =? 65)%nat then unpad 63 (drop 1 l) else unpad 32 l.

Definition secp : Secp256k1 := {|
  PublicKey := byte; SchnorrSignature := byte; RecoverableSignature := byte;
  pk_from_slice := parse_key; pk_serialize := padded 32;
  pk_serialize_uncompressed := λ b, Byte.x04 :: padded 63 b;
  schnorr_from_default := unpad 63; schnorr_serialize_default := padded 63;
  recoverable_from_compact := λ l _, unpad 63 l;
  recoverable_serialize_compact := λ b, (0, padded 63 b);
  schnorr_verify := λ _ s pk, if decide (s = pk) then Ok tt else Err IncorrectSignature;
  recover := λ _ s, Ok s;
  ecdsa_verify := λ _ s pk, if decide (s = pk) then Ok tt else Err IncorrectSignature;
|}.

Lemma unpad_padded n b : unpad n (padded n b) = Ok b.
Proof. unfold unpad, padded. by rewrite decide_True. Qed.

Lemma parse_compressed b : parse_key (padded 32 b) = Ok b.
Proof. apply unpad_padded. Qed.

Lemma secp_laws : @Secp256k1Laws secp.
Proof.
  split; intros; simpl; first [apply parse_compressed | apply unpad_padded | lia | by rewrite ?length_replicate].
Qed.

Definition nibble (n : Z) : byte := byte_of_Z (if n <? 10 then 48 + n else 87 + n).
Definition unnibble (b : byte) : option Z :=
  let c := byte_to_Z b in
  if (48 <=? c) && (c <=? 57) then Some (c - 48)
  else if (97 <=? c) && (c <=? 102) then Some (c - 87) else None.
Fixpoint hex_bytes (s : str) : option (list byte) :=
  match s with
  | [] => Some []
  | [_] => None
  | a :: b :: s => x ← unnibble a; y ← unnibble b; r ← hex_bytes s; Some (byte_of_Z (16 * x + y) :: r)
  end.
Definition hex_digits (bs : list byte) : str :=
  bs ≫= λ b, [nibble (byte_to_Z b / 16); nibble (byte_to_Z b mod 16)].

Lemma hex_byte b :
  unnibble (nibble (byte_to_Z b / 16)) = Some (byte_to_Z b / 16)
  ∧ unnibble (nibble (byte_to_Z b mod 16)) = Some (byte_to_Z b mod 16)
  ∧ byte_of_Z (16 * (byte_to_Z b / 16) + byte_to_Z b mod 16) = b
  ∧ in_range 0x00 0x7f (nibble (byte_to_Z b / 16)) = true
  ∧ in_range 0x00 0x7f (nibble (byte_to_Z b mod 16)) = true.
Proof. by destruct b; vm_compute. Qed.

Definition hex : Hex.
Proof.
  refine {| hex_encode := hex_digits; hex_decode := hex_bytes |}; intros bs; unfold hex_digits;
    induction bs as [|b bs IH]; try done; destruct (hex_byte b) as (E1 & E2 & E3 & E4 & E5);
    cbn [mbind list_bind hex_bytes app].
  - rewrite E1, E2. cbn [mbind option_bind]. rewrite IH. cbn [mbind option_bind]. by rewrite E3.
  - cbn [length]. rewrite IH. lia.
  - by repeat constructor.
Defined.

(** The bytes themselves. *)
Definition base64 : Base64 := {| base64_encode bs := bs; base64_decode s := Some s; base64_decode_encode _ := eq_refl |}.

(** The prefix, a separator and the payload; the separator is the first zero. *)
Fixpoint cut (s : list byte) : option (str * list byte) :=
  match s with
  | [] => None
  | b :: s' => if decide (b = Byte.x00) then Some ([], s')
               else '(h, p) ← cut s'; Some (b :: h, p)
  end.

Lemma cut_app hrp bs :
  Forall (λ b, in_range 97 122 b = true) hrp → cut (hrp ++ Byte.x00 :: bs) = Some (hrp, bs).
Proof.
  induction 1 as [|b hrp Hb Hh IH]; simpl; [done|].
  rewrite decide_False by (by intros ->). by rewrite IH.
Qed.

Definition bech32 : Bech32.
Proof.
  refine {| to_base32 bs := byte_to_Z <$> bs; from_base32 l := Some (byte_of_Z <$> l);
            bech32_encode hrp l := Some (hrp ++ Byte.x00 :: (byte_of_Z <$> l));
            bech32_decode s := match cut s with Some (hrp, bs) => Some (hrp, map byte_to_Z bs) | None => None end |}.
  - intros bs. f_equal. rewrite <- list_fmap_compose. rewrite <- (list_fmap_id bs) at 2. apply list_fmap_ext.
    intros i b _. apply byte_of_to_Z.
  - intros hrp bs [_ Hh]. eexists. split; [reflexivity|]. rewrite cut_app by done. cbn. do 2 f_equal.
    rewrite <- !list_fmap_compose. apply list_fmap_ext. intros i b _. cbn. by rewrite byte_of_to_Z.
Defined.

(** The message behind a tag that names the key. *)
Definition tag (key : list byte) : list byte := take 16 (key ++ replicate 16 Byte.x00).

Lemma tag_length key : length (tag key) = 16%nat.
Proof. unfold tag. rewrite length_take, length_app, length_replicate. lia. Qed.

Definition aead : Aead := {|
  aead_encrypt := λ key _ _ msg, Some (tag key ++ msg);
  aead_decrypt := λ key _ _ c, if decide (take 16 c = tag key) then Some (drop 16 c) else None;
|}.

Lemma aead_laws : @AeadLaws aead.
Proof.
  split; cbn [aead_encrypt aead_decrypt aead].
  - intros. by eexists.
  - intros key ? ? msg c <-%Some_inj. rewrite length_app, tag_length. lia.
  - intros key ? ? msg c <-%Some_inj.
    by rewrite take_app_length', drop_app_length', decide_True by by rewrite ?tag_length.
Qed.
End Ref.
