(* ===== verification/Merkle.v ===== *)
(** * Merkle: Merkle trees and inclusion proofs

    Models [src/chain-core/src/common/merkle_tree.rs].  The values are the byte
    strings the source reads through [AsRef<\[u8\]>].  The tree that [new] builds
    by joining neighbours in rounds is the tree that splits its leaves at the
    largest power of two below their number ([split_join]). *)

From Equations Require Import Equations.
From stdpp Require Import base tactics option list sets.
From Stdlib Require Import ZArith Lia.
From S2P Require Import Prelude Text Codec Crypto.

Section merkle.
Context `{Hashes}.

(** ** Hashing of nodes *)

Inductive NodeType :=
  | LeafType
  | Intermediate.

Definition prefix_with_byte (value : list byte) (prefix : byte) : list byte := prefix :: value.

Definition combine (left right : H256) : H512 := left ++ right.

Definition node_type_hash (value : list byte) (node_type : NodeType) : H256 :=
  match node_type with
  | LeafType => hash256 (prefix_with_byte value Byte.x00)
  | Intermediate => hash256 (prefix_with_byte value Byte.x01)
  end.

Definition combined_hash (left right : H256) : H256 :=
  node_type_hash (combine left right) Intermediate.

Definition EMPTY_HASH : H256 := byte_of_Z <$>
  [227; 77; 116; 219; 175; 79; 244; 198; 171; 216; 113; 204; 34; 4; 81; 210;
   234; 38; 72; 132; 108; 119; 87; 251; 170; 200; 47; 229; 26; 214; 75; 234].

(** ** Trees *)

Inductive Tree :=
  | Empty
  | Leaf (hash : H256) (value : list byte)
  | Node (hash : H256) (left right : Tree).

Definition tree_leaf (value : list byte) : Tree :=
  Leaf (node_type_hash value LeafType) value.

Definition tree_hash (t : Tree) : H256 :=
  match t with
  | Empty => EMPTY_HASH
  | Leaf hash _ => hash
  | Node hash _ _ => hash
  end.

Definition tree_node (left right : Tree) : Tree :=
  Node (combined_hash (tree_hash left) (tree_hash right)) left right.

(** ** Paths *)

Inductive Side :=
  | Left
  | Right.

Record PathNode := { node_hash : H256; child_hash : H256; hash_side : Side }.

(** The nodes go from the inner one to the outer one. *)
Record Path := { leaf_hash : H256; nodes : list PathNode }.

Definition push_node (p : Path) (n : PathNode) : Path :=
  {| leaf_hash := leaf_hash p; nodes := nodes p ++ [n] |}.

Fixpoint generate_path (t : Tree) (value : list byte) : option Path :=
  match t with
  | Empty => None
  | Leaf hash _ =>
      if decide (node_type_hash value LeafType = hash)
      then Some {| leaf_hash := hash; nodes := [] |} else None
  | Node hash l r =>
      match generate_path l value with
      | None =>
          match generate_path r value with
          | None => None
          | Some path =>
              Some (push_node path
                {| node_hash := hash; child_hash := tree_hash l; hash_side := Left |})
          end
      | Some path =>
          Some (push_node path
            {| node_hash := hash; child_hash := tree_hash r; hash_side := Right |})
      end
  end.

Definition path_hash (p : Path) : H256 :=
  match last (nodes p) with
  | None => leaf_hash p
  | Some node => node_hash node
  end.

(** The body of the loop of [verify] at index [i]; an index out of range
    panics. *)
Definition node_ok (node : PathNode) (ref_hash : H256) : bool :=
  let calced_hash := match hash_side node with
                     | Left => combined_hash (child_hash node) ref_hash
                     | Right => combined_hash ref_hash (child_hash node)
                     end in
  bool_decide (calced_hash = node_hash node).

Definition verify_step (p : Path) (i : nat) : option bool :=
  node ← nodes p !! i;
  ref_hash ← (if (i =? 0)%nat then Some (leaf_hash p)
              else node_hash <$> nodes p !! (i - 1)%nat);
  Some (node_ok node ref_hash).

Fixpoint verify_loop (p : Path) (indices : list nat) : option bool :=
  match indices with
  | [] => Some true
  | i :: indices =>
      b ← verify_step p i;
      if b : bool then verify_loop p indices else Some false
  end.

Definition path_verify (p : Path) : option bool :=
  verify_loop p (reverse (seq 0 (length (nodes p)))).

(** ** Proofs *)

Record Proof_ := MkProof { path : Path; value : list byte }.

Definition proof_verify (self : Proof_) (root_hash : H256) : option bool :=
  if decide (root_hash = path_hash (path self)) then path_verify (path self)
  else Some false.

Definition proof_root_hash (self : Proof_) : H256 := path_hash (path self).

(** ** Merkle trees *)

Record MerkleTree := { tree : Tree; len : Z; height : Z }.

Definition merkle_empty : MerkleTree := {| tree := Empty; len := 0; height := 0 |}.

(** [PairIter]. *)
Fixpoint pair_iter {A} (l : list A) : list (A * option A) :=
  match l with
  | [] => []
  | [a] => [(a, None)]
  | a :: b :: l => (a, Some b) :: pair_iter l
  end.

Definition join_pair (p : Tree * option Tree) : Tree :=
  match p.2 with
  | None => p.1
  | Some r => tree_node p.1 r
  end.

Definition join_round (trees : list Tree) : list Tree := join_pair <$> pair_iter trees.

(** The [while] loop of [new] and [trees.remove(0)]. *)
Fixpoint new_loop (fuel : nat) (trees : list Tree) (height : Z) : option (Tree * Z) :=
  match fuel with
  | O => None
  | S fuel =>
      if (1 <? length trees)%nat then new_loop fuel (join_round trees) (height + 1)
      else t ← head trees; Some (t, height)
  end.

(** A round halves the number of trees, so their number bounds the rounds. *)
Definition merkle_new (values : list (list byte)) : option MerkleTree :=
  match values with
  | [] => Some merkle_empty
  | _ :: _ =>
      '(t, height) ← new_loop (length values) (tree_leaf <$> values) 0;
      Some {| tree := t; len := Z.of_nat (length values); height := height |}
  end.

Definition root_hash (self : MerkleTree) : H256 := tree_hash (tree self).
Definition merkle_is_empty (self : MerkleTree) : bool := 0 =? len self.

(** The outer option is the [assert_eq!], the inner one the result. *)
Definition generate_proof (self : MerkleTree) (v : list byte) : option (option Proof_) :=
  match generate_path (tree self) v with
  | None => Some None
  | Some p =>
      if decide (root_hash self = path_hash p) then Some (Some (MkProof p v)) else None
  end.

(** ** The reference tree *)

Definition largest_power_below (n : nat) : nat := 2 ^ Nat.log2 (n - 1).

Lemma largest_power_below_lt n : (2 ≤ n)%nat → (1 ≤ largest_power_below n < n)%nat.
Proof.
  intros Hn. unfold largest_power_below.
  pose proof (Nat.log2_spec (n - 1) ltac:(lia)).
  pose proof (Nat.pow_nonzero 2 (Nat.log2 (n - 1))). lia.
Qed.

Equations? split_join (ts : list Tree) : Tree by wf (length ts) lt :=
  split_join [] := Empty;
  split_join [t] := t;
  split_join (t :: u :: ts) :=
    let k := largest_power_below (length (t :: u :: ts)) in
    tree_node (split_join (take k (t :: u :: ts))) (split_join (drop k (t :: u :: ts))).
Proof.
  all: pose proof (largest_power_below_lt (S (S (length ts))) ltac:(lia)).
  - rewrite length_take. subst k. simpl. lia.
  - rewrite length_drop. subst k. simpl. lia.
Defined.

Lemma split_join_split ts :
  (2 ≤ length ts)%nat →
  split_join ts = tree_node (split_join (take (largest_power_below (length ts)) ts))
                            (split_join (drop (largest_power_below (length ts)) ts)).
Proof. destruct ts as [|t [|u ts]]; simpl; [lia | lia |]. intros _. by simp split_join. Qed.

(** ** What [new] builds *)

Lemma list_pair_ind {A} (P : list A → Prop) :
  P [] → (∀ a, P [a]) → (∀ a b l, P l → P (a :: b :: l)) → ∀ l, P l.
Proof.
  intros H0 H1 H2. assert (Hl : ∀ l, P l ∧ ∀ a, P (a :: l)).
  { induction l as [|b l [IH IH']]; auto. }
  intros l. apply Hl.
Qed.

Lemma length_join_round ts : length (join_round ts) = Nat.div2 (S (length ts)).
Proof.
  unfold join_round. rewrite length_fmap.
  induction ts as [| |a b ts IH] using list_pair_ind; [done | done |].
  cbn [pair_iter length]. rewrite IH. done.
Qed.

Lemma join_round_app k ts us :
  length ts = (2 * k)%nat → join_round (ts ++ us) = join_round ts ++ join_round us.
Proof.
  unfold join_round. revert ts. induction k as [|k IH]; intros ts Hk.
  { by destruct ts. }
  destruct ts as [|a [|b ts]]; simpl in Hk; [lia | lia |].
  cbn [app pair_iter fmap list_fmap]. f_equal. apply IH. lia.
Qed.

Lemma log2_pred_half n :
  (3 ≤ n)%nat → Nat.log2 (n - 1) = S (Nat.log2 (Nat.div2 (S n) - 1)).
Proof.
  intros Hn.
  assert (E : (Nat.div2 (S n) - 1 = (n - 1) / 2)%nat).
  { destruct n as [|[|n]]; [lia | lia |]. rewrite <- Nat.div2_div.
    replace (S (S n) - 1)%nat with (S n) by lia. simpl. lia. }
  rewrite E. rewrite <- Nat.log2_double by (apply Nat.div_str_pos; lia).
  pose proof (Nat.div_mod_eq (n - 1) 2). pose proof (Nat.mod_upper_bound (n - 1) 2 ltac:(lia)).
  set (q := ((n - 1) / 2)%nat) in *.
  assert (n - 1 = 2 * q ∨ n - 1 = 2 * q + 1)%nat as [->| ->] by lia; [done|].
  rewrite Nat.log2_succ_double, Nat.log2_double; lia.
Qed.

Lemma log2_up_half n :
  (2 ≤ n)%nat → Nat.log2_up n = S (Nat.log2_up (Nat.div2 (S n))).
Proof.
  intros Hn. destruct (decide (n = 2)%nat) as [->|Hne]; [done|].
  assert (2 ≤ Nat.div2 (S n))%nat
    by (rewrite Nat.div2_div; apply Nat.div_le_lower_bound; lia).
  rewrite !Nat.log2_up_eqn by lia. do 2 f_equal.
  rewrite <- !Nat.sub_1_r. apply log2_pred_half. lia.
Qed.

Lemma largest_power_below_half n :
  (3 ≤ n)%nat →
  largest_power_below n = (2 * largest_power_below (Nat.div2 (S n)))%nat.
Proof.
  intros Hn. unfold largest_power_below. rewrite log2_pred_half by done.
  apply Nat.pow_succ_r'.
Qed.

(** A round of joins does not change the tree that the splits build. *)
Lemma split_join_round ts : split_join (join_round ts) = split_join ts.
Proof.
  remember (length ts) as n eqn:Hn. revert ts Hn.
  induction n as [n IH] using lt_wf_ind; intros ts Hn.
  destruct ts as [|a [|b [|c ts]]]; [done | done | done |].
  set (us := a :: b :: c :: ts) in *.
  assert (Hlen : (3 ≤ n)%nat) by (subst n; simpl; lia).
  set (k := largest_power_below (Nat.div2 (S n))).
  assert (Hk : largest_power_below n = (2 * k)%nat) by by apply largest_power_below_half.
  pose proof (largest_power_below_lt n ltac:(lia)) as Hlt.
  assert (Hr : length (join_round us) = Nat.div2 (S n)) by (rewrite length_join_round; by rewrite Hn).
  assert (Ht : length (take (2 * k) us) = (2 * k)%nat) by (rewrite length_take; lia).
  assert (Htr : length (join_round (take (2 * k) us)) = k).
  { rewrite length_join_round, Ht. apply Nat.div2_succ_double. }
  assert (Hd2 : (2 ≤ Nat.div2 (S n))%nat).
  { rewrite Nat.div2_div. apply Nat.div_le_lower_bound; lia. }
  rewrite (split_join_split us) by lia. rewrite <- Hn, Hk.
  rewrite split_join_split by lia. rewrite Hr. fold k.
  rewrite <- (take_drop (2 * k) us) at 1 2.
  rewrite (join_round_app k) by done.
  rewrite take_app_length', drop_app_length' by done.
  rewrite (IH (2 * k)%nat) by lia. rewrite (IH (length (drop (2 * k) us))); [done | | done].
  rewrite length_drop. lia.
Qed.

Lemma new_loop_spec fuel ts h :
  ts ≠ [] → (length ts ≤ fuel)%nat →
  new_loop fuel ts h = Some (split_join ts, h + Z.of_nat (Nat.log2_up (length ts))).
Proof.
  revert ts h. induction fuel as [|fuel IH]; intros ts h Hne Hf.
  { destruct ts; simpl in Hf; [done | lia]. }
  cbn [new_loop]. destruct (Nat.ltb_spec 1 (length ts)) as [Hlt|Hge].
  - assert (Hr : length (join_round ts) = Nat.div2 (S (length ts))) by apply length_join_round.
    assert (Hd : (1 ≤ Nat.div2 (S (length ts)) < length ts)%nat).
    { rewrite Nat.div2_div. split; [apply Nat.div_le_lower_bound; lia|].
      apply Nat.Div0.div_lt_upper_bound. lia. }
    rewrite IH; [| |lia].
    + rewrite split_join_round, Hr, (log2_up_half (length ts)) by done. do 2 f_equal. lia.
    + intros E. rewrite E in Hr. cbn [length] in Hr. rewrite <- Hr in Hd. lia.
  - destruct ts as [|t [|u ts]]; simpl in *; [done | | lia]. by rewrite Z.add_0_r.
Qed.

(** ** Well-formed trees *)

Inductive tree_ok : Tree → Prop :=
  | tree_ok_leaf v : tree_ok (tree_leaf v)
  | tree_ok_node l r : tree_ok l → tree_ok r → tree_ok (tree_node l r).

Fixpoint leaves (t : Tree) : list (list byte) :=
  match t with
  | Empty => []
  | Leaf _ v => [v]
  | Node _ l r => leaves l ++ leaves r
  end.

Lemma split_join_ok ts : ts ≠ [] → Forall tree_ok ts → tree_ok (split_join ts).
Proof.
  remember (length ts) as n eqn:Hn. revert ts Hn.
  induction n as [n IH] using lt_wf_ind; intros ts Hn Hne Hok.
  destruct (decide (2 ≤ length ts)%nat) as [Hlt|Hge].
  - pose proof (largest_power_below_lt _ Hlt) as Hk. rewrite split_join_split by done.
    constructor; eapply IH; [| done | | | | done | | ].
    + rewrite length_take; lia.
    + intros E%(f_equal length). rewrite length_take in E. simpl in E. lia.
    + by apply Forall_take.
    + rewrite length_drop; lia.
    + intros E%(f_equal length). rewrite length_drop in E. simpl in E. lia.
    + by apply Forall_drop.
  - destruct ts as [|t [|u ts]]; simpl in *; [done | | lia].
    simp split_join. by inversion Hok.
Qed.

Lemma split_join_leaves ts : leaves (split_join ts) = concat (leaves <$> ts).
Proof.
  remember (length ts) as n eqn:Hn. revert ts Hn.
  induction n as [n IH] using lt_wf_ind; intros ts Hn.
  destruct (decide (2 ≤ length ts)%nat) as [Hlt|Hge].
  - pose proof (largest_power_below_lt _ Hlt) as Hk. rewrite split_join_split by done. simpl.
    assert (IH' : ∀ us, (length us < n)%nat → leaves (split_join us) = concat (leaves <$> us))
      by eauto.
    rewrite !IH' by (rewrite ?length_take, ?length_drop; lia).
    by rewrite <- concat_app, <- fmap_app, take_drop.
  - destruct ts as [|t [|u ts]]; simpl in *; [done | | lia].
    simp split_join. by rewrite app_nil_r.
Qed.

(** What [new] returns on a non-empty list. *)
Lemma merkle_new_Some vs :
  vs ≠ [] → ∃ mt, merkle_new vs = Some mt ∧ tree mt = split_join (tree_leaf <$> vs)
    ∧ len mt = Z.of_nat (length vs) ∧ height mt = Z.of_nat (Nat.log2_up (length vs))
    ∧ tree_ok (tree mt) ∧ leaves (tree mt) = vs.
Proof.
  intros Hne. destruct vs as [|v vs]; [done|]. set (us := v :: vs).
  assert (Hl : new_loop (length us) (tree_leaf <$> us) 0
               = Some (split_join (tree_leaf <$> us), Z.of_nat (Nat.log2_up (length us)))).
  { rewrite new_loop_spec; [by rewrite length_fmap | done | by rewrite length_fmap]. }
  eexists. split_and!; [unfold merkle_new; fold us; by rewrite Hl | done | done | done | |].
  - apply split_join_ok; [done|]. apply Forall_fmap, Forall_true. intros; constructor.
  - cbn [tree]. rewrite split_join_leaves. clear. generalize us.
    induction us0 as [|u us' IH]; [done|]. rewrite !fmap_cons. cbn [concat]. by rewrite IH.
Qed.

(** ** Paths *)

Definition hashes_of (p : Path) : list H256 := leaf_hash p :: (node_hash <$> nodes p).

Definition path_valid (p : Path) : Prop :=
  ∀ i n r, nodes p !! i = Some n → hashes_of p !! i = Some r → node_ok n r = true.

Lemma verify_step_spec p i :
  verify_step p i = (n ← nodes p !! i; r ← hashes_of p !! i; Some (node_ok n r)).
Proof.
  unfold verify_step, hashes_of. destruct (nodes p !! i) as [n|] eqn:E; [|done]. simpl.
  destruct i as [|i]; [done|]. cbn [Nat.eqb]. rewrite Nat.sub_1_r. simpl.
  by rewrite list_lookup_fmap.
Qed.

Lemma verify_step_range p i : (i < length (nodes p))%nat → is_Some (verify_step p i).
Proof.
  intros Hi. rewrite verify_step_spec.
  apply lookup_lt_is_Some in Hi as Hn. destruct Hn as [n ->]. simpl.
  assert (Hr : is_Some (hashes_of p !! i)).
  { apply lookup_lt_is_Some. simpl. rewrite length_fmap. lia. }
  destruct Hr as [r ->]. by eexists.
Qed.

Lemma verify_loop_spec p is_ :
  (∀ i, i ∈ is_ → (i < length (nodes p))%nat) →
  ∃ b, verify_loop p is_ = Some b ∧ (b = true ↔ ∀ i, i ∈ is_ → verify_step p i = Some true).
Proof.
  induction is_ as [|i is_ IH]; intros Hr.
  { exists true. split; [done|]. split; [|done]. intros _ i Hi. by apply not_elem_of_nil in Hi. }
  destruct IH as (b & Hb & Hs); [intros; apply Hr; by right|].
  destruct (verify_step_range p i) as [c Hc]; [apply Hr; by left|].
  simpl. rewrite Hc. simpl. destruct c.
  - exists b. split; [done|]. rewrite Hs. split.
    + intros Hall j [->|Hj]%elem_of_cons; auto.
    + intros Hall j Hj. apply Hall. by right.
  - exists false. split; [done|]. split; [done|].
    intros Hall. specialize (Hall i ltac:(by left)). congruence.
Qed.

Lemma path_verify_spec p : ∃ b, path_verify p = Some b ∧ (b = true ↔ path_valid p).
Proof.
  destruct (verify_loop_spec p (reverse (seq 0 (length (nodes p))))) as (b & Hb & Hs).
  { intros i Hi. rewrite elem_of_reverse, elem_of_seq in Hi. lia. }
  exists b. split; [done|]. rewrite Hs. unfold path_valid. split.
  - intros Hall i n r Hn Hh. specialize (Hall i).
    rewrite elem_of_reverse, elem_of_seq, verify_step_spec, Hn, Hh in Hall. simpl in Hall.
    apply lookup_lt_Some in Hn. assert (Some (node_ok n r) = Some true) by (apply Hall; lia).
    congruence.
  - intros Hv i Hi. rewrite elem_of_reverse, elem_of_seq in Hi.
    destruct (verify_step_range p i ltac:(lia)) as [c Hc].
    rewrite verify_step_spec in Hc |- *. run_inv Hc. f_equal. eauto.
Qed.

Lemma path_hash_last p : last (hashes_of p) = Some (path_hash p).
Proof.
  unfold hashes_of, path_hash. destruct (nodes p) as [|n ns] using rev_ind; [done|].
  rewrite last_snoc, fmap_app. simpl. by rewrite app_comm_cons, last_snoc.
Qed.

Lemma path_hash_push p n : path_hash (push_node p n) = node_hash n.
Proof. unfold path_hash, push_node. simpl. by rewrite last_snoc. Qed.

Lemma path_valid_push p n :
  path_valid (push_node p n) ↔ path_valid p ∧ node_ok n (path_hash p) = true.
Proof.
  assert (Hh : hashes_of (push_node p n) = hashes_of p ++ [node_hash n]).
  { unfold hashes_of. simpl. by rewrite fmap_app. }
  assert (Hlen : length (hashes_of p) = S (length (nodes p))).
  { unfold hashes_of. simpl. by rewrite length_fmap. }
  unfold path_valid. rewrite Hh. cbn [nodes push_node]. split.
  - intros Hv. split.
    + intros i m r Hm Hr. apply (Hv i); by apply lookup_app_l_Some.
    + apply (Hv (length (nodes p))).
      * by rewrite lookup_app_r, Nat.sub_diag by lia.
      * pose proof (path_hash_last p) as Hl. rewrite last_lookup, Hlen in Hl.
        by apply lookup_app_l_Some.
  - intros [Hv Hn] i m r Hm Hr. destruct (decide (i < length (nodes p))%nat) as [Hi|Hi].
    + rewrite lookup_app_l in Hm by done. rewrite lookup_app_l in Hr by lia. eauto.
    + assert (i = length (nodes p)) as ->.
      { apply lookup_lt_Some in Hm. rewrite length_app in Hm. simpl in Hm. lia. }
      rewrite lookup_app_r, Nat.sub_diag in Hm by lia. injection Hm as <-.
      rewrite lookup_app_l in Hr by lia.
      pose proof (path_hash_last p) as Hl. rewrite last_lookup, Hlen in Hl.
      cbn [Nat.pred] in Hl. rewrite Hr in Hl. by injection Hl as ->.
Qed.

Lemma generate_path_spec t v p :
  tree_ok t → generate_path t v = Some p →
  path_hash p = tree_hash t ∧ path_valid p ∧ leaf_hash p = node_type_hash v LeafType.
Proof.
  intros Ht. revert p. induction Ht as [u|l r Hl IHl Hr IHr]; intros p Hp; simpl in Hp.
  - case_decide; simplify_eq. split_and!; [done| |done].
    intros i n r Hi. simpl in Hi. by rewrite lookup_nil in Hi.
  - destruct (generate_path l v) as [pl|] eqn:El; [|destruct (generate_path r v) as [pr|] eqn:Er];
      simplify_eq.
    + destruct (IHl _ eq_refl) as (Hh & Hv & Hf). rewrite path_hash_push. split_and!; [done| |done].
      apply path_valid_push. split; [done|]. unfold node_ok. simpl.
      apply bool_decide_eq_true. by rewrite Hh.
    + destruct (IHr _ eq_refl) as (Hh & Hv & Hf). rewrite path_hash_push. split_and!; [done| |done].
      apply path_valid_push. split; [done|]. unfold node_ok. simpl.
      apply bool_decide_eq_true. by rewrite Hh.
Qed.

Lemma generate_path_complete t v :
  tree_ok t → v ∈ leaves t → is_Some (generate_path t v).
Proof.
  intros Ht. induction Ht as [u|l r Hl IHl Hr IHr]; intros Hv; simpl in *.
  - apply list_elem_of_singleton in Hv as ->. rewrite decide_True by done. by eexists.
  - apply elem_of_app in Hv as [Hv|Hv].
    + destruct (IHl Hv) as [pl ->]. by eexists.
    + destruct (generate_path l v); [by eexists|].
      destruct (IHr Hv) as [pr ->]. by eexists.
Qed.

(** ** What a valid path shows *)

Definition leaf_input (v : list byte) : list byte := prefix_with_byte v Byte.x00.
Definition node_input (l r : H256) : list byte := prefix_with_byte (combine l r) Byte.x01.

(** The strings hashed to build a tree and to check a path. *)
Fixpoint tree_inputs (t : Tree) : list (list byte) :=
  match t with
  | Empty => []
  | Leaf _ v => [leaf_input v]
  | Node _ l r => node_input (tree_hash l) (tree_hash r) :: tree_inputs l ++ tree_inputs r
  end.

Definition step_input (n : PathNode) (ref_hash : H256) : list byte :=
  match hash_side n with
  | Left => node_input (child_hash n) ref_hash
  | Right => node_input ref_hash (child_hash n)
  end.

Definition path_inputs (p : Path) : list (list byte) :=
  zip_with step_input (nodes p) (hashes_of p).

Definition path_ok (p : Path) : Prop :=
  h256_ok (leaf_hash p) ∧ Forall (λ n, h256_ok (node_hash n) ∧ h256_ok (child_hash n)) (nodes p).

Lemma path_inputs_push p n :
  path_inputs (push_node p n) = path_inputs p ++ [step_input n (path_hash p)].
Proof.
  unfold path_inputs. assert (Hh : hashes_of (push_node p n) = hashes_of p ++ [node_hash n]).
  { unfold hashes_of. simpl. by rewrite fmap_app. }
  rewrite Hh. destruct (exists_last (l:=hashes_of p) ltac:(done)) as (hs & h & Eh).
  pose proof (path_hash_last p) as Hl. rewrite Eh, last_snoc in Hl. simplify_eq.
  assert (Hlen : length (nodes p) = length hs).
  { apply (f_equal length) in Eh. unfold hashes_of in Eh.
    rewrite length_app in Eh. simpl in Eh. rewrite length_fmap in Eh. lia. }
  rewrite Eh. cbn [nodes push_node]. rewrite <- app_assoc, zip_with_app by done.
  rewrite <- (app_nil_r (nodes p)) at 2. rewrite zip_with_app by done. simpl. by rewrite app_nil_r.
Qed.

Lemma tree_hash_ok t : tree_ok t → h256_ok (tree_hash t).
Proof. destruct 1; apply blake2s_length. Qed.

Lemma path_hash_ok p : path_ok p → h256_ok (path_hash p).
Proof.
  intros [Hl Hn]. unfold path_hash. destruct (nodes p) as [|n ns _] using rev_ind; [done|].
  rewrite last_snoc. apply Forall_app in Hn as [_ Hn]. by apply Forall_singleton in Hn as [? _].
Qed.

Lemma collision_mono xs ys xs' ys' : xs ⊆ xs' → ys ⊆ ys' → collision xs ys → collision xs' ys'.
Proof. intros Hx Hy (x & y & ? & ? & ? & ?). exists x, y. split_and!; auto. Qed.

Lemma path_snoc p n ns : nodes p = ns ++ [n] → p = push_node {| leaf_hash := leaf_hash p; nodes := ns |} n.
Proof. destruct p. simpl. intros ->. done. Qed.

Lemma node_ok_hash n r : node_ok n r = true → node_hash n = hash256 (step_input n r).
Proof.
  unfold node_ok, step_input. intros Hn%bool_decide_eq_true. rewrite <- Hn. by destruct (hash_side n).
Qed.

Lemma node_input_inj a b c d :
  h256_ok a → h256_ok c → node_input a b = node_input c d → a = c ∧ b = d.
Proof.
  unfold node_input, prefix_with_byte, combine, h256_ok. intros Ha Hc E. simplify_eq.
  apply app_inj_1; [by rewrite Ha, Hc | done].
Qed.

Lemma path_sound ns t v lh :
  tree_ok t → let p := {| leaf_hash := lh; nodes := ns |} in
  path_ok p → path_valid p → path_hash p = tree_hash t → lh = node_type_hash v LeafType →
  v ∈ leaves t ∨ collision (tree_inputs t) (leaf_input v :: path_inputs p).
Proof.
  revert t. induction ns as [|n ns IH] using rev_ind; intros t Ht p Hok Hv Hh Hl.
  - subst lh. unfold path_hash in Hh. simpl in Hh. unfold node_type_hash in Hh.
    destruct Ht as [u|l r Hlo Hro]; simpl in *.
    + destruct (hash256_inv [leaf_input u] (leaf_input v :: path_inputs p)
        (leaf_input u) (leaf_input v)) as [E|]; [by left | by left | done | | by right].
      unfold leaf_input, prefix_with_byte in E. simplify_eq. left. by left.
    + right. exists (node_input (tree_hash l) (tree_hash r)), (leaf_input v).
      split_and!; [by left | by left | done | done].
  - set (q := {| leaf_hash := lh; nodes := ns |}). change p with (push_node q n) in *.
    rewrite path_hash_push in Hh. apply path_valid_push in Hv as [Hv Hn].
    assert (Hqok : path_ok q ∧ h256_ok (child_hash n)).
    { destruct Hok as [? Hf]. simpl in Hf. apply Forall_app in Hf as [? Hf].
      apply Forall_singleton in Hf as [??]. by repeat split. }
    destruct Hqok as [Hqok Hc]. pose proof (path_hash_ok q Hqok) as Hqh.
    rewrite (node_ok_hash _ _ Hn) in Hh. rewrite path_inputs_push.
    assert (Hin : step_input n (path_hash q) ∈ leaf_input v :: path_inputs q ++ [step_input n (path_hash q)]).
    { right. apply elem_of_app. right. by left. }
    assert (Hsub : leaf_input v :: path_inputs q
              ⊆ leaf_input v :: path_inputs q ++ [step_input n (path_hash q)]) by set_solver.
    destruct Ht as [u|l r Hlo Hro].
    + right. exists (leaf_input u), (step_input n (path_hash q)).
      split_and!; [by left | done | | done]. unfold step_input, leaf_input, node_input, prefix_with_byte.
      by destruct (hash_side n).
    + cbn [tree_hash tree_node leaves tree_inputs] in *.
      destruct (hash256_inv (tree_inputs (tree_node l r)) _ (node_input (tree_hash l) (tree_hash r))
        (step_input n (path_hash q)) ltac:(by left) Hin) as [E|Hcol]; [done | | by right].
      pose proof (tree_hash_ok l Hlo). pose proof (tree_hash_ok r Hro).
      unfold step_input in E. destruct (hash_side n); apply node_input_inj in E as [E1 E2]; try done.
      * destruct (IH r Hro Hqok Hv (eq_sym E2) Hl) as [?|Hcol]; [left; set_solver|].
        right. eapply collision_mono; [|exact Hsub|exact Hcol]. simpl. set_solver.
      * destruct (IH l Hlo Hqok Hv (eq_sym E1) Hl) as [?|Hcol]; [left; set_solver|].
        right. eapply collision_mono; [|exact Hsub|exact Hcol]. simpl. set_solver.
Qed.

End merkle.

(** ** Properties *)

(** Building a Merkle tree terminates for every non-empty list of values and
    returns the tree that splits its leaves at the largest power of two below
    their number, with the values as its leaves in order, their number as its
    length and its height the ceiling of the logarithm of that number. *)
Theorem merkle_new_equiv `{Hashes} vs :
  vs ≠ [] →
  ∃ mt, merkle_new vs = Some mt
    ∧ tree mt = split_join (tree_leaf <$> vs)
    ∧ leaves (tree mt) = vs
    ∧ len mt = Z.of_nat (length vs)
    ∧ height mt = Z.of_nat (Nat.log2_up (length vs)).
Proof.
  intros Hne. destruct (merkle_new_Some vs Hne) as (mt & ? & ? & ? & ? & _ & ?).
  by exists mt.
Qed.

Definition merkle_example : list (list byte) :=
  [[Byte.x01]; [Byte.x02]; [Byte.x03]; [Byte.x04]; [Byte.x05]].

Lemma merkle_new_equiv_witness :
  let H := Ref.hashes in
  ∃ mt, merkle_new merkle_example = Some mt
    ∧ tree mt = split_join (tree_leaf <$> merkle_example)
    ∧ leaves (tree mt) = merkle_example
    ∧ len mt = Z.of_nat (length merkle_example)
    ∧ height mt = Z.of_nat (Nat.log2_up (length merkle_example)).
Proof. exact (merkle_new_equiv (H := Ref.hashes) merkle_example ltac:(done)). Defined.

Lemma proof_for `{Hashes} vs v :
  v ∈ vs →
  ∃ mt proof, merkle_new vs = Some mt
    ∧ generate_proof mt v = Some (Some proof)
    ∧ value proof = v
    ∧ proof_verify proof (root_hash mt) = Some true.
Proof.
  intros Hv. destruct (merkle_new_Some vs) as (mt & Hn & _ & _ & _ & Hok & Hl); [by intros ->; set_solver|].
  destruct (generate_path_complete (tree mt) v) as [p Hp]; [done | by rewrite Hl|].
  destruct (generate_path_spec _ _ _ Hok Hp) as (Hh & Hval & _).
  destruct (path_verify_spec p) as (b & Hb & Hs).
  exists mt, (MkProof p v). unfold generate_proof, proof_verify, root_hash.
  cbn [path]. rewrite Hp, Hh, !decide_True, Hb, (proj2 Hs Hval) by done. done.
Qed.

(** For every value of the list, the tree gives a proof without panicking, the
    proof carries the value and verifies against the tree's root hash. *)
Theorem merkle_proof_complete `{Hashes} vs v :
  v ∈ vs →
  ∃ mt proof, merkle_new vs = Some mt
    ∧ generate_proof mt v = Some (Some proof)
    ∧ value proof = v
    ∧ proof_verify proof (root_hash mt) = Some true.
Proof. apply proof_for. Qed.

Lemma merkle_proof_complete_witness :
  let H := Ref.hashes in
  ∃ mt proof, merkle_new merkle_example = Some mt
    ∧ generate_proof mt [Byte.x03] = Some (Some proof)
    ∧ value proof = [Byte.x03]
    ∧ proof_verify proof (root_hash mt) = Some true.
Proof.
  refine (merkle_proof_complete (H := Ref.hashes) merkle_example [Byte.x03] _).
  by do 2 right; left.
Defined.

(** C15. A proof whose path starts at the leaf hash of its value and verifies
    against the root of a tree shows that the value is a leaf of the tree, unless
    a string hashed by the tree and a different one hashed by the proof have the
    same digest. *)
Theorem merkle_proof_sound `{Hashes} vs mt proof :
  vs ≠ [] → merkle_new vs = Some mt →
  path_ok (path proof) →
  leaf_hash (path proof) = node_type_hash (value proof) LeafType →
  proof_verify proof (root_hash mt) = Some true →
  value proof ∈ vs
  ∨ collision (tree_inputs (tree mt)) (leaf_input (value proof) :: path_inputs (path proof)).
Proof.
  intros Hne Hn Hok Hl Hv.
  destruct (merkle_new_Some vs Hne) as (mt' & Hn' & _ & _ & _ & Hto & Hls).
  rewrite Hn in Hn'. simplify_eq. unfold proof_verify in Hv. case_decide as Hr; [|done].
  destruct (path_verify_spec (path proof)) as (b & Hb & Hs).
  rewrite Hb in Hv. simplify_eq.
  destruct proof as [[lh ns] v]. simpl in *.
  by apply (path_sound ns _ v lh Hto Hok); [apply Hs| |].
Qed.

Lemma merkle_proof_sound_witness :
  let H := Ref.hashes in
  let mt := default merkle_empty (merkle_new merkle_example) in
  ∃ proof, generate_proof mt [Byte.x03] = Some (Some proof)
    ∧ (value proof ∈ merkle_example
       ∨ collision (tree_inputs (tree mt))
           (leaf_input (value proof) :: path_inputs (path proof))).
Proof.
  intros H mt. eexists. split; [vm_compute; reflexivity|].
  apply (merkle_proof_sound (H := H) merkle_example mt).
  - done.
  - vm_compute. reflexivity.
  - split; [done|]. repeat constructor.
  - vm_compute. reflexivity.
  - vm_compute. reflexivity.
Defined.
