(* ===== verification/Params.v ===== *)
(** * Params: the network parameters

    Models [src/chain-core/src/init/params.rs]: the parameters fixed at genesis,
    their getters, their encoding and hash, and the check of the rewards
    parameters. *)

From stdpp Require Import base tactics option list strings.
From Stdlib Require Import ZArith Lia.
From S2P Require Import Prelude Text Codec Milli Coin Crypto.

Abbreviation Timespec := Z (only parsing).

Record JailingParameters := {
  jail_duration : Z;
  block_signing_window : Z;
  missed_block_threshold : Z;
}.

Record SlashingParameters := {
  liveness_slash_percent : SlashRatio;
  byzantine_slash_percent : SlashRatio;
  slash_wait_period : Z;
}.

Record RewardsParameters := {
  monetary_expansion_cap : Coin;
  distribution_period : Z;
  monetary_expansion_r0 : Milli;
  monetary_expansion_tau : Z;
  monetary_expansion_decay : Z;
}.

Record InitNetworkParameters := {
  initial_fee_policy : LinearFee;
  required_council_node_stake : Coin;
  unbonding_period : Z;
  jailing_config : JailingParameters;
  slashing_config : SlashingParameters;
  rewards_config : RewardsParameters;
  max_validators : Z;
}.

Inductive NetworkParameters :=
  | GenesisParams (params : InitNetworkParameters).

(** [RewardsParameters::validate]; the error is its message. *)
Definition validate_rewards (self : RewardsParameters) : result str () :=
  if milli_integral 1 <? monetary_expansion_r0 self then Err (bstr "R0 can't > 1")
  else if monetary_expansion_tau self =? 0 then Err (bstr "tau can't == 0")
  else if 1000000 <? monetary_expansion_decay self then Err (bstr "decay can't > 1_000_000")
  else Ok ().

(** ** Getters *)

Definition genesis_params (self : NetworkParameters) : InitNetworkParameters :=
  match self with GenesisParams params => params end.

Definition get_max_validators (self : NetworkParameters) : Z :=
  max_validators (genesis_params self).
Definition get_required_council_node_stake (self : NetworkParameters) : Coin :=
  required_council_node_stake (genesis_params self).
Definition get_byzantine_slash_percent (self : NetworkParameters) : SlashRatio :=
  byzantine_slash_percent (slashing_config (genesis_params self)).
Definition get_liveness_slash_percent (self : NetworkParameters) : SlashRatio :=
  liveness_slash_percent (slashing_config (genesis_params self)).
Definition get_jail_duration (self : NetworkParameters) : Timespec :=
  jail_duration (jailing_config (genesis_params self)).
Definition get_slash_wait_period (self : NetworkParameters) : Timespec :=
  slash_wait_period (slashing_config (genesis_params self)).
Definition get_missed_block_threshold (self : NetworkParameters) : Z :=
  missed_block_threshold (jailing_config (genesis_params self)).
Definition get_block_signing_window (self : NetworkParameters) : Z :=
  block_signing_window (jailing_config (genesis_params self)).
Definition get_unbonding_period (self : NetworkParameters) : Z :=
  unbonding_period (genesis_params self).
Definition get_rewards_distribution_period (self : NetworkParameters) : Z :=
  distribution_period (rewards_config (genesis_params self)).
Definition get_rewards_monetary_expansion_r0 (self : NetworkParameters) : Milli :=
  monetary_expansion_r0 (rewards_config (genesis_params self)).
Definition get_rewards_monetary_expansion_tau (self : NetworkParameters) : Z :=
  monetary_expansion_tau (rewards_config (genesis_params self)).
Definition get_rewards_monetary_expansion_decay (self : NetworkParameters) : Z :=
  monetary_expansion_decay (rewards_config (genesis_params self)).
Definition get_rewards_monetary_expansion_cap (self : NetworkParameters) : Coin :=
  monetary_expansion_cap (rewards_config (genesis_params self)).
Definition params_calculate_fee (self : NetworkParameters) (num_bytes : Z) : result CoinError Fee :=
  calculate_fee (initial_fee_policy (genesis_params self)) num_bytes.

(** ** Types of the fields *)

Definition jailing_ok (p : JailingParameters) : Prop :=
  is_u32 (jail_duration p) ∧ is_u16 (block_signing_window p) ∧ is_u16 (missed_block_threshold p).
Definition slashing_ok (p : SlashingParameters) : Prop :=
  is_slash_ratio (liveness_slash_percent p) ∧ is_slash_ratio (byzantine_slash_percent p)
  ∧ is_u32 (slash_wait_period p).
Definition rewards_ok (p : RewardsParameters) : Prop :=
  coin_ok (monetary_expansion_cap p) ∧ is_u32 (distribution_period p)
  ∧ is_u64 (monetary_expansion_r0 p) ∧ is_u64 (monetary_expansion_tau p)
  ∧ is_u32 (monetary_expansion_decay p).
Definition fee_policy_ok (f : LinearFee) : Prop := is_u64 (constant f) ∧ is_u64 (coefficient f).
Definition init_params_ok (p : InitNetworkParameters) : Prop :=
  fee_policy_ok (initial_fee_policy p) ∧ coin_ok (required_council_node_stake p)
  ∧ is_u32 (unbonding_period p) ∧ jailing_ok (jailing_config p)
  ∧ slashing_ok (slashing_config p) ∧ rewards_ok (rewards_config p)
  ∧ is_u16 (max_validators p).
Definition params_ok (p : NetworkParameters) : Prop := init_params_ok (genesis_params p).

(** ** Encoding *)

Section encoding.
Context `{Scale}.

Definition jailing_codec : codec JailingParameters :=
  Codec (λ p, enc u32_codec (jail_duration p) ++ enc u16_codec (block_signing_window p)
              ++ enc u16_codec (missed_block_threshold p))
    (a ⇐ dec u32_codec; b ⇐ dec u16_codec; c ⇐ dec u16_codec;
     dret {| jail_duration := a; block_signing_window := b; missed_block_threshold := c |}).

Definition slashing_codec : codec SlashingParameters :=
  Codec (λ p, enc u64_codec (liveness_slash_percent p) ++ enc u64_codec (byzantine_slash_percent p)
              ++ enc u32_codec (slash_wait_period p))
    (a ⇐ dec u64_codec; b ⇐ dec u64_codec; c ⇐ dec u32_codec;
     dret {| liveness_slash_percent := a; byzantine_slash_percent := b; slash_wait_period := c |}).

Definition rewards_codec : codec RewardsParameters :=
  Codec (λ p, enc coin_codec (monetary_expansion_cap p) ++ enc u32_codec (distribution_period p)
              ++ enc u64_codec (monetary_expansion_r0 p)
              ++ enc u64_codec (monetary_expansion_tau p)
              ++ enc u32_codec (monetary_expansion_decay p))
    (a ⇐ dec coin_codec; b ⇐ dec u32_codec; c ⇐ dec u64_codec;
     d ⇐ dec u64_codec; e ⇐ dec u32_codec;
     dret {| monetary_expansion_cap := a; distribution_period := b; monetary_expansion_r0 := c;
             monetary_expansion_tau := d; monetary_expansion_decay := e |}).

Definition linear_fee_codec : codec LinearFee :=
  Codec (λ f, enc u64_codec (constant f) ++ enc u64_codec (coefficient f))
    (a ⇐ dec u64_codec; b ⇐ dec u64_codec; dret {| constant := a; coefficient := b |}).

Definition init_params_codec : codec InitNetworkParameters :=
  Codec (λ p, enc linear_fee_codec (initial_fee_policy p)
              ++ enc coin_codec (required_council_node_stake p)
              ++ enc u32_codec (unbonding_period p) ++ enc jailing_codec (jailing_config p)
              ++ enc slashing_codec (slashing_config p) ++ enc rewards_codec (rewards_config p)
              ++ enc u16_codec (max_validators p))
    (a ⇐ dec linear_fee_codec; b ⇐ dec coin_codec; c ⇐ dec u32_codec;
     d ⇐ dec jailing_codec; e ⇐ dec slashing_codec; f ⇐ dec rewards_codec; g ⇐ dec u16_codec;
     dret {| initial_fee_policy := a; required_council_node_stake := b; unbonding_period := c;
             jailing_config := d; slashing_config := e; rewards_config := f;
             max_validators := g |}).

Definition network_params_codec : codec NetworkParameters :=
  Codec (λ p, Byte.x00 :: enc init_params_codec (genesis_params p))
    (tag ⇐ read_byte;
     if decide (tag = Byte.x00) then (p ⇐ dec init_params_codec; dret (GenesisParams p))
     else dfail).

(** [NetworkParameters::hash]. *)
Definition params_hash `{Hashes} (self : NetworkParameters) : H256 :=
  hash256 (enc network_params_codec self).

Lemma jailing_codec_ok `{!ScaleLaws} : codec_ok jailing_ok jailing_codec.
Proof.
  intros [a b c] rest (?&?&?). cbn [enc dec jailing_codec]. rewrite <- !app_assoc.
  by repeat dec_step.
Qed.

Lemma slash_ratio_is_u64 r : is_slash_ratio r → is_u64 r.
Proof. unfold is_slash_ratio. change MAX_SLASH_RATIO with 1000. ints. Qed.

Lemma slashing_codec_ok `{!ScaleLaws} : codec_ok slashing_ok slashing_codec.
Proof.
  intros [a b c] rest (?&?&?). cbn [enc dec slashing_codec]. rewrite <- !app_assoc.
  simpl in *. repeat (erewrite dbind_ok by eauto using slash_ratio_is_u64 with codec). done.
Qed.
#[local] Hint Resolve jailing_codec_ok slashing_codec_ok : codec.

Lemma rewards_codec_ok `{!ScaleLaws} : codec_ok rewards_ok rewards_codec.
Proof.
  intros [] rest (?&?&?&?&?). cbn [enc dec rewards_codec]. rewrite <- !app_assoc.
  by repeat dec_step.
Qed.
#[local] Hint Resolve rewards_codec_ok : codec.

Lemma linear_fee_codec_ok `{!ScaleLaws} : codec_ok fee_policy_ok linear_fee_codec.
Proof.
  intros [] rest (?&?). cbn [enc dec linear_fee_codec]. rewrite <- !app_assoc.
  by repeat dec_step.
Qed.
#[local] Hint Resolve linear_fee_codec_ok : codec.

Lemma init_params_codec_ok `{!ScaleLaws} : codec_ok init_params_ok init_params_codec.
Proof.
  intros [] rest (?&?&?&?&?&?&?). cbn [enc dec init_params_codec]. rewrite <- !app_assoc.
  by repeat dec_step.
Qed.

Lemma network_params_codec_ok `{!ScaleLaws} : codec_ok params_ok network_params_codec.
Proof.
  intros [p] rest Hp. cbn [enc dec network_params_codec app].
  rewrite dbind_read_byte, decide_True by done.
  by rewrite (dbind_ok _ _ _ _ _ init_params_codec_ok).
Qed.
End encoding.
#[export] Hint Resolve network_params_codec_ok : codec.
