(* ===== verification/Account.v ===== *)
(** * Account: staked state

    Models [src/chain-core/src/state/account.rs], [src/chain-core/src/state/validator.rs]
    and the keys and addresses of [src/chain-core/src/state/tendermint.rs] and
    [src/chain-core/src/init/address.rs]: the staked state of an address with its
    operations, the transactions on it with their encodings, and the staking
    witness. *)

From stdpp Require Import base tactics option list gmap strings.
From Stdlib Require Import ZArith Lia.
From S2P Require Import Prelude Text Codec Milli Coin Crypto Params.

Abbreviation Nonce := Z (only parsing).
Abbreviation RedeemAddress := (list byte) (only parsing).
Definition REDEEM_ADDRESS_BYTES : nat := 20.

(** [RedeemAddress::from(&PublicKey)]: the last 20 bytes of the hash of the
    uncompressed key without its tag. *)
Definition redeem_address_from_pk `{Hashes, Secp256k1} (pk : PublicKey) : RedeemAddress :=
  drop 12 (keccak256 (drop 1 (pk_serialize_uncompressed pk))).

Inductive StakedStateAddress :=
  | BasicRedeem (a : RedeemAddress).

Definition redeem_of (a : StakedStateAddress) : RedeemAddress :=
  match a with BasicRedeem r => r end.

#[global] Instance StakedStateAddress_eq_dec : EqDecision StakedStateAddress.
Proof. solve_decision. Defined.
#[global] Instance StakedStateAddress_countable : Countable StakedStateAddress.
Proof. by apply (inj_countable' redeem_of BasicRedeem); intros []. Defined.
#[global] Instance StakedStateAddress_ord : OrdKey StakedStateAddress.
Proof.
  refine {| key_leb a b := bytes_leb (redeem_of a) (redeem_of b) |}.
  - intros [a] [b]. exact (key_leb_total (K := list byte) a b).
  - intros [a] [b] [c]. exact (key_leb_trans (K := list byte) a b c).
  - intros [a] [b] H1 H2. f_equal. exact (key_leb_antisym (K := list byte) a b H1 H2).
Defined.

(** ** Validator keys *)

Inductive TendermintValidatorPubKey :=
  | Ed25519 (key : list byte).

#[global] Instance TendermintValidatorPubKey_eq_dec : EqDecision TendermintValidatorPubKey.
Proof. solve_decision. Defined.
#[global] Instance TendermintValidatorPubKey_countable : Countable TendermintValidatorPubKey.
Proof.
  by apply (inj_countable' (λ k, match k with Ed25519 b => b end) Ed25519); intros [].
Defined.

Definition PUBLIC_KEY_SIZE : nat := 32.
Definition pubkey_as_bytes (k : TendermintValidatorPubKey) : list byte :=
  match k with Ed25519 bytes => bytes end.
Definition to_validator_update (k : TendermintValidatorPubKey) : str * list byte :=
  match k with Ed25519 key => (bstr "ed25519", key) end.

(** The first 20 bytes of the SHA-256 of the key. *)
Abbreviation TendermintValidatorAddress := (list byte) (only parsing).
Definition validator_address_from `{Hashes} (k : TendermintValidatorPubKey) :
  TendermintValidatorAddress := take 20 (sha256 (pubkey_as_bytes k)).

Inductive TendermintValidatorAddressError :=
  | Long
  | Short.

Definition validator_address_try_from (bytes : list byte) :
  result TendermintValidatorAddressError TendermintValidatorAddress :=
  if (length bytes =? 20)%nat then Ok bytes
  else if (length bytes <? 20)%nat then Err Short else Err Long.

(** ** Council nodes and punishments *)

Record CouncilNode := {
  name : str;
  security_contact : option str;
  consensus_pubkey : TendermintValidatorPubKey;
}.

#[global] Instance CouncilNode_eq_dec : EqDecision CouncilNode.
Proof. solve_decision. Defined.

Definition council_node_new (k : TendermintValidatorPubKey) : CouncilNode :=
  {| name := bstr "no-name"; security_contact := None; consensus_pubkey := k |}.
Definition council_node_new_with_details (n : str) (contact : option str)
    (k : TendermintValidatorPubKey) : CouncilNode :=
  {| name := n; security_contact := contact; consensus_pubkey := k |}.

Inductive PunishmentKind :=
  | NonLive
  | ByzantineFault.

#[global] Instance PunishmentKind_eq_dec : EqDecision PunishmentKind.
Proof. solve_decision. Defined.

Record Punishment := {
  kind : PunishmentKind;
  punished_until : Timespec;
  slash_amount : option Coin;
}.

#[global] Instance Punishment_eq_dec : EqDecision Punishment.
Proof. solve_decision. Defined.

(** ** Staked state *)

Record StakedState := {
  nonce : Nonce;
  bonded : Coin;
  unbonded : Coin;
  unbonded_from : Timespec;
  address : StakedStateAddress;
  punishment : option Punishment;
  council_node : option CouncilNode;
}.

#[global] Instance StakedState_eq_dec : EqDecision StakedState.
Proof. solve_decision. Defined.

Definition to_stake_key `{Hashes} (a : StakedStateAddress) : H256 :=
  match a with BasicRedeem a => hash256 a end.

Definition staked_new (n : Nonce) (b u : Coin) (from : Timespec) (a : StakedStateAddress)
    (p : option Punishment) : StakedState :=
  {| nonce := n; bonded := b; unbonded := u; unbonded_from := from; address := a;
     punishment := p; council_node := None |}.

Definition staked_default : StakedState :=
  staked_new 0 coin_zero coin_zero 0 (BasicRedeem (replicate 20 Byte.x00)) None.

Definition new_init_bonded (amount : Coin) (genesis_time : Timespec) (a : StakedStateAddress)
    (node : option CouncilNode) : StakedState :=
  {| nonce := 0; bonded := amount; unbonded := coin_zero; unbonded_from := genesis_time;
     address := a; punishment := None; council_node := node |}.

Definition new_init_unbonded (amount : Coin) (time : Timespec) (a : StakedStateAddress) :
  StakedState :=
  {| nonce := 0; bonded := coin_zero; unbonded := amount; unbonded_from := time;
     address := a; punishment := None; council_node := None |}.

(** The fields an operation assigns; the rest of the record is kept. *)
Definition with_nonce (s : StakedState) (n : Nonce) : StakedState :=
  {| nonce := n; bonded := bonded s; unbonded := unbonded s; unbonded_from := unbonded_from s;
     address := address s; punishment := punishment s; council_node := council_node s |}.
Definition with_bonded (s : StakedState) (b : Coin) : StakedState :=
  {| nonce := nonce s; bonded := b; unbonded := unbonded s; unbonded_from := unbonded_from s;
     address := address s; punishment := punishment s; council_node := council_node s |}.
Definition with_unbonded (s : StakedState) (u : Coin) : StakedState :=
  {| nonce := nonce s; bonded := bonded s; unbonded := u; unbonded_from := unbonded_from s;
     address := address s; punishment := punishment s; council_node := council_node s |}.
Definition with_unbonded_from (s : StakedState) (t : Timespec) : StakedState :=
  {| nonce := nonce s; bonded := bonded s; unbonded := unbonded s; unbonded_from := t;
     address := address s; punishment := punishment s; council_node := council_node s |}.
Definition with_punishment (s : StakedState) (p : option Punishment) : StakedState :=
  {| nonce := nonce s; bonded := bonded s; unbonded := unbonded s;
     unbonded_from := unbonded_from s; address := address s; punishment := p;
     council_node := council_node s |}.
Definition with_council_node (s : StakedState) (c : option CouncilNode) : StakedState :=
  {| nonce := nonce s; bonded := bonded s; unbonded := unbonded s;
     unbonded_from := unbonded_from s; address := address s; punishment := punishment s;
     council_node := c |}.

Definition incr_nonce (s : StakedState) : StakedState := with_nonce s (as_u64 (nonce s + 1)).

(** The [expect]s of [deposit] and [unbond] panic. *)
Definition deposit (s : StakedState) (amount : Coin) : option StakedState :=
  let s := incr_nonce s in
  b ← unwrap (coin_add (bonded s) amount);
  Some (with_bonded s b).

Definition unbond (s : StakedState) (amount fee : Coin) (from : Timespec) : option StakedState :=
  let s := with_unbonded_from (incr_nonce s) from in
  b ← unwrap (x ← coin_sub (bonded s) amount; coin_sub x fee);
  let s := with_bonded s b in
  u ← unwrap (coin_add (unbonded s) amount);
  Some (with_unbonded s u).

Definition withdraw (s : StakedState) : StakedState :=
  with_unbonded (incr_nonce s) coin_zero.

Definition join_node (s : StakedState) (node : CouncilNode) : StakedState :=
  with_council_node (incr_nonce s) (Some node).

Definition staked_key `{Hashes} (s : StakedState) : H256 := to_stake_key (address s).

Definition is_jailed (s : StakedState) : bool :=
  match punishment s with Some _ => true | None => false end.

Definition jailed_until (s : StakedState) : option Timespec := punished_until <$> punishment s.

Definition jail_until (s : StakedState) (until : Timespec) (k : PunishmentKind) : StakedState :=
  with_punishment (incr_nonce s)
    (Some {| kind := k; punished_until := until; slash_amount := None |}).

Definition unjail (s : StakedState) : StakedState := with_punishment (incr_nonce s) None.

(** [slash] returns early on an error with the fields assigned so far; the outer
    option is the assertion on the ratio. *)
Definition slash (s : StakedState) (ratio : SlashRatio) (k : PunishmentKind) :
  option (StakedState * CoinResult) :=
  let s := incr_nonce s in
  bonded_slash_value ← coin_mul_ratio (bonded s) ratio;
  unbonded_slash_value ← coin_mul_ratio (unbonded s) ratio;
  match coin_sub (bonded s) bonded_slash_value with
  | Err e => Some (s, Err e)
  | Ok b =>
      let s := with_bonded s b in
      match coin_sub (unbonded s) unbonded_slash_value with
      | Err e => Some (s, Err e)
      | Ok u =>
          let s := with_unbonded s u in
          match coin_add bonded_slash_value unbonded_slash_value with
          | Err e => Some (s, Err e)
          | Ok amount =>
              let s := match punishment s with
                       | None => s
                       | Some p => with_punishment s
                           (Some {| kind := k; punished_until := punished_until p;
                                    slash_amount := Some amount |})
                       end in
              Some (s, Ok amount)
          end
      end
  end.

Definition add_reward (s : StakedState) (amount : Coin) : result CoinError (StakedState * Coin) :=
  b ← coin_add (bonded s) amount;
  Ok (with_bonded s b, b).

(** ** Encoding *)

Definition MAX_STRING_LEN : Z := 255.

Definition address_ok (a : StakedStateAddress) : Prop := length (redeem_of a) = REDEEM_ADDRESS_BYTES.
Definition pubkey_ok (k : TendermintValidatorPubKey) : Prop :=
  length (pubkey_as_bytes k) = PUBLIC_KEY_SIZE.
Definition short_string (s : str) : Prop :=
  Z.of_nat (length s) ≤ MAX_STRING_LEN ∧ utf8_valid s = true.
Definition council_node_ok (c : CouncilNode) : Prop :=
  short_string (name c) ∧ option_ok short_string (security_contact c)
  ∧ pubkey_ok (consensus_pubkey c).
Definition punishment_ok (p : Punishment) : Prop :=
  is_u64 (punished_until p) ∧ option_ok coin_ok (slash_amount p).
Definition staked_state_ok (s : StakedState) : Prop :=
  is_u64 (nonce s) ∧ coin_ok (bonded s) ∧ coin_ok (unbonded s) ∧ is_u64 (unbonded_from s)
  ∧ address_ok (address s) ∧ option_ok punishment_ok (punishment s)
  ∧ option_ok council_node_ok (council_node s).

Section encoding.
Context `{Scale}.

Definition address_codec : codec StakedStateAddress :=
  Codec (λ a, Byte.x00 :: enc (array_codec REDEEM_ADDRESS_BYTES) (redeem_of a))
    (tag ⇐ read_byte;
     if decide (tag = Byte.x00) then (r ⇐ dec (array_codec REDEEM_ADDRESS_BYTES); dret (BasicRedeem r))
     else dfail).

Definition pubkey_codec : codec TendermintValidatorPubKey :=
  Codec (λ k, Byte.x00 :: enc (array_codec PUBLIC_KEY_SIZE) (pubkey_as_bytes k))
    (tag ⇐ read_byte;
     if decide (tag = Byte.x00) then (b ⇐ dec (array_codec PUBLIC_KEY_SIZE); dret (Ed25519 b))
     else dfail).

(** The checks [CouncilNode::decode] makes on a string it reads as bytes. *)
Definition check_string (raw : list byte) : decoder str :=
  if MAX_STRING_LEN <? Z.of_nat (length raw) then dfail
  else if utf8_valid raw then dret raw else dfail.

Definition council_node_codec : codec CouncilNode :=
  Codec
    (λ c, enc string_codec (name c)
          ++ match security_contact c with
             | None => [Byte.x00]
             | Some s => Byte.x01 :: enc string_codec s
             end
          ++ enc pubkey_codec (consensus_pubkey c))
    (name_raw ⇐ dec bytes_codec;
     n ⇐ check_string name_raw;
     contact_raw ⇐ dec (option_codec bytes_codec);
     contact ⇐ (match contact_raw with
                | Some raw => s ⇐ check_string raw; dret (Some s)
                | None => dret None
                end);
     k ⇐ dec pubkey_codec;
     dret (council_node_new_with_details n contact k)).

Definition punishment_kind_codec : codec PunishmentKind :=
  Codec (λ k, match k with NonLive => [Byte.x00] | ByzantineFault => [Byte.x01] end)
    (tag ⇐ read_byte;
     if decide (tag = Byte.x00) then dret NonLive
     else if decide (tag = Byte.x01) then dret ByzantineFault else dfail).

Definition punishment_codec : codec Punishment :=
  Codec (λ p, enc punishment_kind_codec (kind p) ++ enc u64_codec (punished_until p)
              ++ enc (option_codec coin_codec) (slash_amount p))
    (k ⇐ dec punishment_kind_codec; t ⇐ dec u64_codec; a ⇐ dec (option_codec coin_codec);
     dret {| kind := k; punished_until := t; slash_amount := a |}).

Definition staked_state_codec : codec StakedState :=
  Codec (λ s, enc u64_codec (nonce s) ++ enc coin_codec (bonded s) ++ enc coin_codec (unbonded s)
              ++ enc u64_codec (unbonded_from s) ++ enc address_codec (address s)
              ++ enc (option_codec punishment_codec) (punishment s)
              ++ enc (option_codec council_node_codec) (council_node s))
    (n ⇐ dec u64_codec; b ⇐ dec coin_codec; u ⇐ dec coin_codec; f ⇐ dec u64_codec;
     a ⇐ dec address_codec; p ⇐ dec (option_codec punishment_codec);
     c ⇐ dec (option_codec council_node_codec);
     dret {| nonce := n; bonded := b; unbonded := u; unbonded_from := f; address := a;
             punishment := p; council_node := c |}).

Context `{!ScaleLaws}.

Lemma address_codec_ok : codec_ok address_ok address_codec.
Proof.
  intros [a] rest Ha. cbn [enc dec address_codec app]. rewrite dbind_read_byte, decide_True by done.
  by dec_step.
Qed.

Lemma pubkey_codec_ok : codec_ok pubkey_ok pubkey_codec.
Proof.
  intros [a] rest Ha. cbn [enc dec pubkey_codec app]. rewrite dbind_read_byte, decide_True by done.
  by dec_step.
Qed.
#[local] Hint Resolve address_codec_ok pubkey_codec_ok : codec.

Lemma short_string_vec s : short_string s → vec_ok any_byte s.
Proof. intros [Hl _]. apply vec_ok_any. unfold MAX_STRING_LEN in Hl. ints. Qed.
#[local] Hint Resolve short_string_vec : codec.

Lemma check_string_ok {B} s (k : str → decoder B) rest :
  short_string s → dbind (check_string s) k rest = k s rest.
Proof.
  intros [Hl Hu]. unfold check_string, dbind. rewrite Hu.
  by destruct (Z.ltb_spec MAX_STRING_LEN (Z.of_nat (length s))); [lia|].
Qed.

Lemma council_node_codec_ok : codec_ok council_node_ok council_node_codec.
Proof.
  intros [n o k] rest (Hn & Ho & Hk). cbn [enc dec council_node_codec string_codec].
  simpl in Hn, Ho, Hk. rewrite <- !app_assoc.
  rewrite (dbind_ok (vec_ok any_byte)) by eauto with codec.
  rewrite check_string_ok by done. cbn [security_contact].
  replace (match o with None => [Byte.x00] | Some s => Byte.x01 :: enc bytes_codec s end)
    with (enc (option_codec bytes_codec) o) by (rewrite option_codec_enc; by destruct o).
  rewrite (dbind_ok (option_ok (vec_ok any_byte))); [|by eauto with codec|].
  - destruct o as [s|]; simpl in Ho.
    + unfold dbind at 1. rewrite check_string_ok by done. cbn [dret]. by dec_step.
    + unfold dbind at 1. cbn [dret]. by dec_step.
  - destruct o; simpl in *; eauto with codec.
Qed.

Lemma punishment_codec_ok : codec_ok punishment_ok punishment_codec.
Proof.
  intros [k t a] rest (Ht & Ha). cbn [enc dec punishment_codec]. rewrite <- !app_assoc.
  assert (Hk : codec_ok (λ _, True) punishment_kind_codec) by by intros [] ? _.
  rewrite (dbind_ok _ _ _ _ _ Hk) by done. by repeat dec_step.
Qed.
#[local] Hint Resolve council_node_codec_ok punishment_codec_ok : codec.

Lemma address_codec_typed : codec_typed address_ok address_codec.
Proof. intros i a r Ha. cbn [dec address_codec] in Ha. dec_inv Ha. by apply array_codec_typed in E0. Qed.

Lemma pubkey_codec_typed : codec_typed pubkey_ok pubkey_codec.
Proof. intros i a r Ha. cbn [dec pubkey_codec] in Ha. dec_inv Ha. by apply array_codec_typed in E0. Qed.

Lemma check_string_typed raw i s r : check_string raw i = Some (s, r) → short_string s.
Proof. unfold check_string. intros Hs. dec_inv Hs. split; [lia | done]. Qed.

Lemma council_node_codec_typed : codec_typed council_node_ok council_node_codec.
Proof.
  intros i c r Hc. cbn [dec council_node_codec] in Hc. dec_inv Hc.
  apply check_string_typed in E0. apply pubkey_codec_typed in E3.
  split; [done|]. split; [|done]. simpl.
  dec_inv E2; [|done]. by eapply check_string_typed.
Qed.

Lemma punishment_codec_typed : codec_typed punishment_ok punishment_codec.
Proof.
  intros i p r Hp. cbn [dec punishment_codec] in Hp. dec_inv Hp. clear E.
  pose proof coin_codec_typed. typed_facts. by split.
Qed.
#[local] Hint Resolve address_codec_typed council_node_codec_typed punishment_codec_typed
  coin_codec_typed : typed.

Lemma staked_state_codec_typed : codec_typed staked_state_ok staked_state_codec.
Proof.
  intros i s r Hs. cbn [dec staked_state_codec] in Hs. dec_inv Hs. typed_facts. by split_and!.
Qed.

Lemma staked_state_codec_ok : codec_ok staked_state_ok staked_state_codec.
Proof.
  intros [] rest (?&?&?&?&?&?&?). cbn [enc dec staked_state_codec]. rewrite <- !app_assoc.
  by repeat dec_step.
Qed.
End encoding.
#[export] Hint Resolve address_codec_ok pubkey_codec_ok council_node_codec_ok punishment_codec_ok
  staked_state_codec_ok : codec.
#[export] Hint Resolve address_codec_typed pubkey_codec_typed council_node_codec_typed
  staked_state_codec_typed : typed.

(** ** Balances *)

(** What an address owns in its staked state. *)
Definition stake_total (s : StakedState) : Z := bonded s + unbonded s.

Lemma deposit_spec s amount s' :
  deposit s amount = Some s' ↔
  s' = with_bonded (incr_nonce s) (bonded s + amount) ∧ bonded s + amount ≤ MAX_COIN.
Proof.
  unfold deposit. simpl. destruct (coin_add (bonded s) amount) as [b|e] eqn:E; simpl.
  - apply coin_add_ok in E as [-> ?]. split; [intros [= <-]; done | by intros [-> _]].
  - split; [done|]. intros [_ Hle].
    rewrite (proj2 (coin_add_ok _ _ (bonded s + amount))) in E; done.
Qed.

Lemma unbond_spec s amount fee from s' :
  coin_ok (bonded s) → coin_ok amount → 0 ≤ fee →
  unbond s amount fee from = Some s' ↔
  s' = with_unbonded (with_bonded (with_unbonded_from (incr_nonce s) from)
                        (bonded s - amount - fee)) (unbonded s + amount)
  ∧ amount + fee ≤ bonded s ∧ unbonded s + amount ≤ MAX_COIN.
Proof.
  intros Hb Ha Hf. unfold unbond. simpl. split.
  - intros Hu. run_inv Hu.
    match goal with H : coin_add _ _ = Ok _ |- _ => apply coin_add_ok in H as [-> ?] end.
    match goal with H : coin_sub (bonded s) _ = Ok _ |- _ => apply coin_sub_ok in H as [-> ?]; [|done|ints] end.
    match goal with H : coin_sub _ fee = Ok _ |- _ => apply coin_sub_ok in H as [-> ?]; [|ints|done] end.
    split_and!; [done | lia | done].
  - intros (-> & ? & ?).
    rewrite (proj2 (coin_sub_ok (bonded s) amount (bonded s - amount) Hb ltac:(ints))) by lia.
    simpl. rewrite (proj2 (coin_sub_ok (bonded s - amount) fee (bonded s - amount - fee) ltac:(ints) Hf)) by lia.
    simpl. by rewrite (proj2 (coin_add_ok (unbonded s) amount (unbonded s + amount))).
Qed.

(** The amounts [slash] takes from the two balances. *)
Definition slash_part (c : Coin) (ratio : SlashRatio) : Coin := c * ratio / 1000.

Lemma slash_spec s ratio k :
  coin_ok (bonded s) → coin_ok (unbonded s) → is_slash_ratio ratio →
  slash_part (bonded s) ratio + slash_part (unbonded s) ratio ≤ MAX_COIN →
  ∃ s', slash s ratio k
        = Some (s', Ok (slash_part (bonded s) ratio + slash_part (unbonded s) ratio))
    ∧ bonded s' = bonded s - slash_part (bonded s) ratio
    ∧ unbonded s' = unbonded s - slash_part (unbonded s) ratio
    ∧ nonce s' = as_u64 (nonce s + 1) ∧ address s' = address s
    ∧ unbonded_from s' = unbonded_from s ∧ council_node s' = council_node s
    ∧ punishment s' = (p ← punishment s;
        Some {| kind := k; punished_until := punished_until p;
                slash_amount := Some (slash_part (bonded s) ratio + slash_part (unbonded s) ratio) |}).
Proof.
  intros Hb Hu Hr Hm. unfold slash, slash_part in *. simpl.
  destruct (coin_mul_ratio_ok _ _ Hb Hr) as [Eb ?]. destruct (coin_mul_ratio_ok _ _ Hu Hr) as [Eu ?].
  rewrite Eb, Eu. simpl.
  rewrite (proj2 (coin_sub_ok _ (bonded s * ratio / 1000) _ Hb ltac:(lia))) by (split; [done | lia]). simpl.
  rewrite (proj2 (coin_sub_ok _ (unbonded s * ratio / 1000) _ Hu ltac:(lia))) by (split; [done | lia]). simpl.
  rewrite (proj2 (coin_add_ok _ _ _)) by done.
  destruct (punishment s) eqn:Ep; eexists; split_and!; done.
Qed.

(** A staked state with fields replaced is well formed when the new values are. *)
Ltac staked_ok :=
  unfold staked_state_ok; simpl;
  repeat (split; [first [done | apply as_u64_range | ints]|]);
  first [done | ints].

(** Slashing a well-formed state: what is taken, and what is kept. *)
Lemma slash_ok s ratio k :
  staked_state_ok s → stake_total s ≤ MAX_COIN → is_slash_ratio ratio →
  ∃ s' amount, slash s ratio k = Some (s', Ok amount)
    ∧ staked_state_ok s' ∧ address s' = address s
    ∧ bonded s' = bonded s - slash_part (bonded s) ratio
    ∧ unbonded s' = unbonded s - slash_part (unbonded s) ratio
    ∧ stake_total s' + amount = stake_total s ∧ 0 ≤ stake_total s'
    ∧ 0 ≤ amount ∧ 1000 * amount ≤ stake_total s * ratio < 1000 * amount + 2000
    ∧ is_jailed s' = is_jailed s
    ∧ (∀ p, punishment s' = Some p → kind p = k ∧ slash_amount p = Some amount).
Proof.
  intros (?&Hb&Hu&?&?&Hp&?) Ht Hr. unfold stake_total in *.
  destruct (coin_mul_ratio_ok _ _ Hb Hr) as [_ Rb].
  destruct (coin_mul_ratio_ok _ _ Hu Hr) as [_ Ru].
  pose proof (Z.mul_div_le (bonded s * ratio) 1000 ltac:(lia)).
  pose proof (Z.mul_div_le (unbonded s * ratio) 1000 ltac:(lia)).
  pose proof (Z.mul_succ_div_gt (bonded s * ratio) 1000 ltac:(lia)).
  pose proof (Z.mul_succ_div_gt (unbonded s * ratio) 1000 ltac:(lia)).
  pose proof (as_u64_range (nonce s + 1)) as Hn.
  destruct (slash_spec s ratio k Hb Hu Hr) as (s' & Hs & Eb & Eu & En & Ea & Ef & Ec & Ep);
    [unfold slash_part; ints|].
  exists s', (slash_part (bonded s) ratio + slash_part (unbonded s) ratio).
  unfold slash_part in *. split_and!; try lia; try done.
  - unfold staked_state_ok. rewrite En, Ea, Ef, Ec, Eb, Eu.
    split_and!; try done; try ints. rewrite Ep.
    destruct (punishment s) as [p|]; simpl in *; [|done]. destruct Hp. split; [done|]. simpl. ints.
  - unfold is_jailed. rewrite Ep. by destruct (punishment s).
  - intros p Hp'. rewrite Ep in Hp'. run_inv Hp'. done.
Qed.

(** ** Properties *)

(** The operations on a staked state conserve its coins.  A deposit adds its
    amount to the bonded stake; unbonding moves its amount to the unbonded stake
    and takes its fee; withdrawing empties the unbonded stake.  They fail, by a
    panic, exactly when a balance would leave its bounds, and otherwise keep the
    state well formed. *)
Theorem staked_state_conserves s amount fee from :
  staked_state_ok s → coin_ok amount → coin_ok fee → is_u64 from →
  (is_Some (deposit s amount) ↔ bonded s + amount ≤ MAX_COIN)
  ∧ (∀ s', deposit s amount = Some s' →
       staked_state_ok s' ∧ stake_total s' = stake_total s + amount)
  ∧ (is_Some (unbond s amount fee from) ↔ amount + fee ≤ bonded s ∧ unbonded s + amount ≤ MAX_COIN)
  ∧ (∀ s', unbond s amount fee from = Some s' →
       staked_state_ok s' ∧ unbonded s' = unbonded s + amount
       ∧ stake_total s' = stake_total s - fee ∧ unbonded_from s' = from)
  ∧ staked_state_ok (withdraw s) ∧ stake_total (withdraw s) = bonded s.
Proof.
  intros (?&Hb&Hu&?&?&?&?) Ha Hf Ht. pose proof (as_u64_range (nonce s + 1)).
  unfold stake_total. split; [|split; [|split; [|split; [|split]]]].
  - split; [by intros [s' [_ ?]%deposit_spec]|]. intros. eexists. by apply deposit_spec.
  - intros s' [-> ?]%deposit_spec. split; [staked_ok | simpl; lia].
  - split.
    + intros [s' Hs]. apply unbond_spec in Hs; [naive_solver | done | done | ints].
    + intros []. eexists. apply unbond_spec; done || ints.
  - intros s' Hs. apply unbond_spec in Hs as (-> & ? & ?); [|done|done|ints].
    split; [staked_ok|]. simpl. split_and!; lia.
  - staked_ok.
  - simpl. ints.
Qed.

Definition staked_example : StakedState :=
  new_init_bonded 1000 1 (BasicRedeem (replicate 20 Byte.x01)) None.

Lemma staked_example_ok : staked_state_ok staked_example.
Proof. staked_ok. Qed.

Lemma staked_state_conserves_witness :
  ∃ s', unbond staked_example 300 7 50 = Some s'
        ∧ unbonded s' = 300 ∧ stake_total s' = stake_total staked_example - 7.
Proof.
  destruct (staked_state_conserves staked_example 300 7 50 staked_example_ok
    ltac:(ints) ltac:(ints) ltac:(ints)) as (_ & _ & Hs & Hu & _).
  destruct (proj2 Hs) as [s' Hs']; [vm_compute; split; discriminate|].
  exists s'. split; [exact Hs'|]. by destruct (Hu s' Hs') as (_ & ? & ? & _).
Defined.

(** Slashing a staked state by a ratio of at most one never panics and never
    fails while the balances are within the supply.  It takes the ratio of each
    balance rounded down, returns what it took, and records it with the kind of
    the fault in the punishment of a jailed account. *)
Theorem slash_conserves s ratio k :
  staked_state_ok s → stake_total s ≤ MAX_COIN → is_slash_ratio ratio →
  ∃ s' amount, slash s ratio k = Some (s', Ok amount)
    ∧ staked_state_ok s'
    ∧ stake_total s' + amount = stake_total s
    ∧ 0 ≤ amount ∧ 1000 * amount ≤ stake_total s * ratio < 1000 * amount + 2000
    ∧ is_jailed s' = is_jailed s
    ∧ (∀ p, punishment s' = Some p → kind p = k ∧ slash_amount p = Some amount).
Proof.
  intros Hs Ht Hr. destruct (slash_ok s ratio k Hs Ht Hr)
    as (s' & amount & ? & ? & _ & _ & _ & ? & _ & ? & ? & ? & ?).
  by exists s', amount.
Qed.

Lemma slash_conserves_witness :
  let s := jail_until staked_example 99 NonLive in
  ∃ s' amount, slash s 447 ByzantineFault = Some (s', Ok amount)
    ∧ stake_total s' + amount = 1000
    ∧ (∀ p, punishment s' = Some p → kind p = ByzantineFault ∧ slash_amount p = Some amount).
Proof.
  intros s. destruct (slash_conserves s 447 ByzantineFault) as (s' & a & Hs & _ & Ht & _ & _ & _ & Hp).
  - unfold s. staked_ok.
  - vm_compute. discriminate.
  - split; vm_compute; discriminate.
  - exists s', a. split; [exact Hs | split; [exact Ht | exact Hp]].
Defined.

(** Decoding the encoding of a well-formed staked state returns it and leaves
    the rest of the input, so the encoding is injective. *)
Theorem staked_state_roundtrip `{ScaleLaws} s rest :
  staked_state_ok s →
  dec staked_state_codec (enc staked_state_codec s ++ rest) = Some (s, rest)
  ∧ (∀ s' rest', staked_state_ok s' →
       enc staked_state_codec s ++ rest = enc staked_state_codec s' ++ rest' → s = s' ∧ rest = rest').
Proof.
  intros Hs. split; [by apply staked_state_codec_ok|].
  intros s' rest' Hs'. by apply (codec_ok_inj _ _ _ _ _ _ staked_state_codec_ok).
Qed.

Lemma staked_state_roundtrip_witness :
  let H := scale_ref in
  dec staked_state_codec (enc staked_state_codec staked_example ++ [Byte.x07])
    = Some (staked_example, [Byte.x07]).
Proof.
  refine (proj1 (@staked_state_roundtrip scale_ref scale_ref_laws staked_example [Byte.x07] _)).
  apply staked_example_ok.
Defined.
