(* ===== verification/TxTypes.v ===== *)
(** * TxTypes: transactions, their encodings and identifiers

    Models [src/chain-core/src/tx/mod.rs], [src/chain-core/src/tx/data/*.rs] and
    [src/chain-core/src/tx/witness/*.rs], and the staking transactions of
    [src/chain-core/src/state/account.rs] and [src/chain-core/src/state/validator.rs].
    Several decoders first refuse an input with more bytes left than a limit
    ([size_guard]); the limit counts everything that follows in the input. *)

From stdpp Require Import base tactics option list gmap strings.
From Stdlib Require Import ZArith Lia.
From S2P Require Import Prelude Text Codec Milli Coin Crypto Merkle Params Account.

(** ** Inputs, outputs and attributes *)

Abbreviation TxId := (list byte) (only parsing).
Abbreviation TxoIndex := Z (only parsing).

Record TxoPointer := { id : TxId; index : TxoIndex }.

#[global] Instance TxoPointer_eq_dec : EqDecision TxoPointer.
Proof. solve_decision. Defined.
#[global] Instance TxoPointer_countable : Countable TxoPointer.
Proof.
  by apply (inj_countable' (λ p, (id p, index p)) (λ p, {| id := p.1; index := p.2 |})); intros [].
Defined.

(** [TxoPointer::new]: the index is cut to 16 bits. *)
Definition txo_pointer_new (i : TxId) (ix : Z) : TxoPointer := {| id := i; index := as_u16 ix |}.

Inductive ExtendedAddr :=
  | OrTree (root : H256).

#[global] Instance ExtendedAddr_eq_dec : EqDecision ExtendedAddr.
Proof. solve_decision. Defined.

Record TxOut := {
  out_address : ExtendedAddr;
  out_value : Coin;
  valid_from : option Timespec;
}.

#[global] Instance TxOut_eq_dec : EqDecision TxOut.
Proof. solve_decision. Defined.

Definition tx_out_new (a : ExtendedAddr) (v : Coin) : TxOut :=
  {| out_address := a; out_value := v; valid_from := None |}.
Definition tx_out_new_with_timelock (a : ExtendedAddr) (v : Coin) (t : Timespec) : TxOut :=
  {| out_address := a; out_value := v; valid_from := Some t |}.

Inductive TxAccess :=
  | AllData
  | AccessOutput (n : Z).

#[global] Instance TxAccess_eq_dec : EqDecision TxAccess.
Proof. solve_decision. Defined.

Record StakedStateOpAttributes := { op_chain_hex_id : Z }.

#[global] Instance StakedStateOpAttributes_eq_dec : EqDecision StakedStateOpAttributes.
Proof. solve_decision. Defined.

(** ** Staking transactions *)

Record DepositBondTx := {
  deposit_inputs : list TxoPointer;
  to_staked_account : StakedStateAddress;
  deposit_attributes : StakedStateOpAttributes;
}.

Record UnbondTx := {
  from_staked_account : StakedStateAddress;
  unbond_nonce : Nonce;
  unbond_value : Coin;
  unbond_attributes : StakedStateOpAttributes;
}.

Record UnjailTx := {
  unjail_nonce : Nonce;
  unjail_address : StakedStateAddress;
  unjail_attributes : StakedStateOpAttributes;
}.

Record NodeJoinRequestTx := {
  join_nonce : Nonce;
  join_address : StakedStateAddress;
  join_attributes : StakedStateOpAttributes;
  node_meta : CouncilNode;
}.

Record TxObfuscated := {
  key_from : Z;
  init_vector : list byte;
  txpayload : list byte;
  txid : TxId;
}.

Definition MAX_TX_SIZE : Z := 8100.
Definition MAX_WITNESS_SIZE : Z := 51200.
Definition MAX_DEPOSIT_TX_SIZE : Z := 2200.
Definition TX_AUX_SIZE : Z := 1024 * 60.

Section crypto.
Context `{Secp256k1}.

Record TxAccessPolicy := { view_key : PublicKey; access : TxAccess }.

#[global] Instance TxAccessPolicy_eq_dec : EqDecision TxAccessPolicy.
Proof. solve_decision. Defined.

Record TxAttributes := { chain_hex_id : Z; allowed_view : list TxAccessPolicy }.

#[global] Instance TxAttributes_eq_dec : EqDecision TxAttributes.
Proof. solve_decision. Defined.

Definition tx_attributes_new (hex_id : Z) : TxAttributes :=
  {| chain_hex_id := hex_id; allowed_view := [] |}.
Definition tx_attributes_new_with_access (hex_id : Z) (view : list TxAccessPolicy) : TxAttributes :=
  {| chain_hex_id := hex_id; allowed_view := view |}.

Record Tx := {
  inputs : list TxoPointer;
  outputs : list TxOut;
  attributes : TxAttributes;
}.

#[global] Instance Tx_eq_dec : EqDecision Tx.
Proof. solve_decision. Defined.

Definition get_output_total (self : Tx) : CoinResult := sum_coins (out_value <$> outputs self).

Record WithdrawUnbondedTx := {
  withdraw_nonce : Nonce;
  withdraw_outputs : list TxOut;
  withdraw_attributes : TxAttributes;
}.

#[global] Instance WithdrawUnbondedTx_eq_dec : EqDecision WithdrawUnbondedTx.
Proof. solve_decision. Defined.

Definition withdraw_get_output_total (self : WithdrawUnbondedTx) : CoinResult :=
  sum_coins (out_value <$> withdraw_outputs self).

(** ** Witnesses *)

Inductive TxInWitness :=
  | TreeSig (sig : SchnorrSignature) (proof : Proof_).

Abbreviation TxWitness := (list TxInWitness) (only parsing).

Inductive StakedStateOpWitness :=
  | BasicRedeemSig (sig : RecoverableSignature).

(** ** Transactions *)

Inductive TxWithOutputs :=
  | Transfer (tx : Tx)
  | StakeWithdraw (tx : WithdrawUnbondedTx).

Definition tx_outputs (self : TxWithOutputs) : list TxOut :=
  match self with
  | Transfer tx => outputs tx
  | StakeWithdraw tx => withdraw_outputs tx
  end.

Inductive PlainTxAux :=
  | PlainTransferTx (tx : Tx) (witness : TxWitness)
  | PlainDepositStakeTx (witness : TxWitness)
  | PlainWithdrawUnbondedStakeTx (tx : WithdrawUnbondedTx).

Inductive TxEnclaveAux :=
  | TransferTx (inputs : list TxoPointer) (no_of_outputs : TxoIndex) (payload : TxObfuscated)
  | DepositStakeTx (tx : DepositBondTx) (payload : TxObfuscated)
  | WithdrawUnbondedStakeTx (no_of_outputs : TxoIndex) (witness : StakedStateOpWitness)
      (payload : TxObfuscated).

Inductive TxAux :=
  | EnclaveTx (tx : TxEnclaveAux)
  | UnbondStakeTx (tx : UnbondTx) (witness : StakedStateOpWitness)
  | UnjailStakeTx (tx : UnjailTx) (witness : StakedStateOpWitness)
  | NodeJoinTx (tx : NodeJoinRequestTx) (witness : StakedStateOpWitness).

(** ** Encoding *)

Context `{Scale}.

(** A decoder that refuses a remaining input longer than [max]. *)
Definition size_guard {A} (max : Z) (d : decoder A) : decoder A :=
  size ⇐ remaining_len;
  if max <? size then dfail else d.

Definition txo_pointer_codec : codec TxoPointer :=
  Codec (λ p, enc (array_codec 32) (id p) ++ enc u16_codec (index p))
    (i ⇐ dec (array_codec 32); ix ⇐ dec u16_codec; dret {| id := i; index := ix |}).

Definition extended_addr_codec : codec ExtendedAddr :=
  Codec (λ a, match a with OrTree r => Byte.x00 :: enc (array_codec 32) r end)
    (tag ⇐ read_byte;
     if decide (tag = Byte.x00) then (r ⇐ dec (array_codec 32); dret (OrTree r)) else dfail).

Definition tx_out_codec : codec TxOut :=
  Codec (λ o, enc extended_addr_codec (out_address o) ++ enc coin_codec (out_value o)
              ++ enc (option_codec u64_codec) (valid_from o))
    (a ⇐ dec extended_addr_codec; v ⇐ dec coin_codec; f ⇐ dec (option_codec u64_codec);
     dret {| out_address := a; out_value := v; valid_from := f |}).

Definition tx_access_codec : codec TxAccess :=
  Codec (λ a, match a with AllData => [Byte.x00] | AccessOutput n => Byte.x01 :: enc u64_codec n end)
    (tag ⇐ read_byte;
     if decide (tag = Byte.x00) then dret AllData
     else if decide (tag = Byte.x01) then (n ⇐ dec u64_codec; dret (AccessOutput n)) else dfail).

Definition tx_access_policy_codec : codec TxAccessPolicy :=
  Codec (λ p, enc (array_codec 33) (pk_serialize (view_key p)) ++ enc tx_access_codec (access p))
    (bytes ⇐ dec (array_codec 33);
     match pk_from_slice bytes with
     | Err _ => dfail
     | Ok k => a ⇐ dec tx_access_codec; dret {| view_key := k; access := a |}
     end).

Definition tx_attributes_codec : codec TxAttributes :=
  Codec (λ a, enc u8_codec (chain_hex_id a) ++ enc (vec_codec tx_access_policy_codec) (allowed_view a))
    (c ⇐ dec u8_codec; v ⇐ dec (vec_codec tx_access_policy_codec);
     dret {| chain_hex_id := c; allowed_view := v |}).

Definition tx_codec : codec Tx :=
  Codec (λ t, enc (vec_codec txo_pointer_codec) (inputs t) ++ enc (vec_codec tx_out_codec) (outputs t)
              ++ enc tx_attributes_codec (attributes t))
    (size_guard MAX_TX_SIZE
      (i ⇐ dec (vec_codec txo_pointer_codec); o ⇐ dec (vec_codec tx_out_codec);
       a ⇐ dec tx_attributes_codec;
       dret {| inputs := i; outputs := o; attributes := a |})).

Definition op_attributes_codec : codec StakedStateOpAttributes :=
  Codec (λ a, enc u8_codec (op_chain_hex_id a))
    (c ⇐ dec u8_codec; dret {| op_chain_hex_id := c |}).

Definition deposit_codec : codec DepositBondTx :=
  Codec (λ t, enc (vec_codec txo_pointer_codec) (deposit_inputs t)
              ++ enc address_codec (to_staked_account t)
              ++ enc op_attributes_codec (deposit_attributes t))
    (size_guard MAX_DEPOSIT_TX_SIZE
      (i ⇐ dec (vec_codec txo_pointer_codec); a ⇐ dec address_codec;
       t ⇐ dec op_attributes_codec;
       dret {| deposit_inputs := i; to_staked_account := a; deposit_attributes := t |})).

Definition unbond_codec : codec UnbondTx :=
  Codec (λ t, enc address_codec (from_staked_account t) ++ enc u64_codec (unbond_nonce t)
              ++ enc coin_codec (unbond_value t) ++ enc op_attributes_codec (unbond_attributes t))
    (a ⇐ dec address_codec; n ⇐ dec u64_codec; v ⇐ dec coin_codec; t ⇐ dec op_attributes_codec;
     dret {| from_staked_account := a; unbond_nonce := n; unbond_value := v;
             unbond_attributes := t |}).

Definition withdraw_codec : codec WithdrawUnbondedTx :=
  Codec (λ t, enc u64_codec (withdraw_nonce t) ++ enc (vec_codec tx_out_codec) (withdraw_outputs t)
              ++ enc tx_attributes_codec (withdraw_attributes t))
    (n ⇐ dec u64_codec; o ⇐ dec (vec_codec tx_out_codec); a ⇐ dec tx_attributes_codec;
     dret {| withdraw_nonce := n; withdraw_outputs := o; withdraw_attributes := a |}).

Definition unjail_codec : codec UnjailTx :=
  Codec (λ t, enc u64_codec (unjail_nonce t) ++ enc address_codec (unjail_address t)
              ++ enc op_attributes_codec (unjail_attributes t))
    (n ⇐ dec u64_codec; a ⇐ dec address_codec; t ⇐ dec op_attributes_codec;
     dret {| unjail_nonce := n; unjail_address := a; unjail_attributes := t |}).

Definition node_join_codec : codec NodeJoinRequestTx :=
  Codec (λ t, enc u64_codec (join_nonce t) ++ enc address_codec (join_address t)
              ++ enc op_attributes_codec (join_attributes t)
              ++ enc council_node_codec (node_meta t))
    (n ⇐ dec u64_codec; a ⇐ dec address_codec; t ⇐ dec op_attributes_codec;
     c ⇐ dec council_node_codec;
     dret {| join_nonce := n; join_address := a; join_attributes := t; node_meta := c |}).

(** Derived codecs of the Merkle path and of a proof for a public key of 33 bytes. *)
Definition side_codec : codec Side :=
  Codec (λ s, match s with Left => [Byte.x00] | Right => [Byte.x01] end)
    (tag ⇐ read_byte;
     if decide (tag = Byte.x00) then dret Left
     else if decide (tag = Byte.x01) then dret Right else dfail).

Definition path_node_codec : codec PathNode :=
  Codec (λ n, enc (array_codec 32) (node_hash n) ++ enc (array_codec 32) (child_hash n)
              ++ enc side_codec (hash_side n))
    (h ⇐ dec (array_codec 32); c ⇐ dec (array_codec 32); s ⇐ dec side_codec;
     dret {| node_hash := h; child_hash := c; hash_side := s |}).

Definition path_codec : codec Path :=
  Codec (λ p, enc (array_codec 32) (leaf_hash p) ++ enc (vec_codec path_node_codec) (nodes p))
    (l ⇐ dec (array_codec 32); n ⇐ dec (vec_codec path_node_codec);
     dret {| leaf_hash := l; nodes := n |}).

Definition proof_codec : codec Proof_ :=
  Codec (λ p, enc path_codec (path p) ++ enc (array_codec 33) (value p))
    (p ⇐ dec path_codec; v ⇐ dec (array_codec 33); dret (MkProof p v)).

Definition tx_in_witness_codec : codec TxInWitness :=
  Codec (λ w, match w with
              | TreeSig sig proof =>
                  Byte.x00 :: enc (array_codec 64) (schnorr_serialize_default sig) ++ enc proof_codec proof
              end)
    (tag ⇐ read_byte;
     if decide (tag = Byte.x00) then
       (raw_sig ⇐ dec (array_codec 64);
        match schnorr_from_default raw_sig with
        | Err _ => dfail
        | Ok sig => proof ⇐ dec proof_codec; dret (TreeSig sig proof)
        end)
     else dfail).

Definition tx_witness_codec : codec TxWitness :=
  Codec (enc (vec_codec tx_in_witness_codec))
    (size_guard MAX_WITNESS_SIZE (dec (vec_codec tx_in_witness_codec))).

(** The recovery id is one byte; [RecoveryId::from_i32] accepts 0 to 3. *)
Definition op_witness_codec : codec StakedStateOpWitness :=
  Codec (λ w, match w with
              | BasicRedeemSig sig =>
                  let '(recovery_id, serialized_sig) := recoverable_serialize_compact sig in
                  Byte.x00 :: byte_of_Z recovery_id :: enc (array_codec 64) serialized_sig
              end)
    (tag ⇐ read_byte;
     if decide (tag = Byte.x00) then
       (rid ⇐ read_byte;
        raw_sig ⇐ dec (array_codec 64);
        if byte_to_Z rid <=? 3 then
          match recoverable_from_compact raw_sig (byte_to_Z rid) with
          | Err _ => dfail
          | Ok sig => dret (BasicRedeemSig sig)
          end
        else dfail)
     else dfail).

Definition obfuscated_codec : codec TxObfuscated :=
  Codec (λ t, enc i64_codec (key_from t) ++ enc (array_codec 12) (init_vector t)
              ++ enc bytes_codec (txpayload t) ++ enc (array_codec 32) (txid t))
    (k ⇐ dec i64_codec; v ⇐ dec (array_codec 12); p ⇐ dec bytes_codec; i ⇐ dec (array_codec 32);
     dret {| key_from := k; init_vector := v; txpayload := p; txid := i |}).

Definition plain_tx_aux_codec : codec PlainTxAux :=
  Codec (λ t, match t with
              | PlainTransferTx tx w => Byte.x00 :: enc tx_codec tx ++ enc tx_witness_codec w
              | PlainDepositStakeTx w => Byte.x01 :: enc tx_witness_codec w
              | PlainWithdrawUnbondedStakeTx tx => Byte.x02 :: enc withdraw_codec tx
              end)
    (tag ⇐ read_byte;
     if decide (tag = Byte.x00) then
       (tx ⇐ dec tx_codec; w ⇐ dec tx_witness_codec; dret (PlainTransferTx tx w))
     else if decide (tag = Byte.x01) then
       (w ⇐ dec tx_witness_codec; dret (PlainDepositStakeTx w))
     else if decide (tag = Byte.x02) then
       (tx ⇐ dec withdraw_codec; dret (PlainWithdrawUnbondedStakeTx tx))
     else dfail).

Definition tx_with_outputs_codec : codec TxWithOutputs :=
  Codec (λ t, match t with
              | Transfer tx => Byte.x00 :: enc tx_codec tx
              | StakeWithdraw tx => Byte.x01 :: enc withdraw_codec tx
              end)
    (tag ⇐ read_byte;
     if decide (tag = Byte.x00) then (tx ⇐ dec tx_codec; dret (Transfer tx))
     else if decide (tag = Byte.x01) then (tx ⇐ dec withdraw_codec; dret (StakeWithdraw tx))
     else dfail).

Definition tx_enclave_aux_codec : codec TxEnclaveAux :=
  Codec (λ t, match t with
              | TransferTx i n p =>
                  Byte.x00 :: enc (vec_codec txo_pointer_codec) i ++ enc u16_codec n
                    ++ enc obfuscated_codec p
              | DepositStakeTx tx p => Byte.x01 :: enc deposit_codec tx ++ enc obfuscated_codec p
              | WithdrawUnbondedStakeTx n w p =>
                  Byte.x02 :: enc u16_codec n ++ enc op_witness_codec w ++ enc obfuscated_codec p
              end)
    (tag ⇐ read_byte;
     if decide (tag = Byte.x00) then
       (i ⇐ dec (vec_codec txo_pointer_codec); n ⇐ dec u16_codec; p ⇐ dec obfuscated_codec;
        dret (TransferTx i n p))
     else if decide (tag = Byte.x01) then
       (tx ⇐ dec deposit_codec; p ⇐ dec obfuscated_codec; dret (DepositStakeTx tx p))
     else if decide (tag = Byte.x02) then
       (n ⇐ dec u16_codec; w ⇐ dec op_witness_codec; p ⇐ dec obfuscated_codec;
        dret (WithdrawUnbondedStakeTx n w p))
     else dfail).

Definition tx_aux_codec : codec TxAux :=
  Codec (λ t, match t with
              | EnclaveTx tx => Byte.x00 :: enc tx_enclave_aux_codec tx
              | UnbondStakeTx tx w => Byte.x01 :: enc unbond_codec tx ++ enc op_witness_codec w
              | UnjailStakeTx tx w => Byte.x02 :: enc unjail_codec tx ++ enc op_witness_codec w
              | NodeJoinTx tx w => Byte.x03 :: enc node_join_codec tx ++ enc op_witness_codec w
              end)
    (size_guard TX_AUX_SIZE
      (tag ⇐ read_byte;
       if decide (tag = Byte.x00) then (tx ⇐ dec tx_enclave_aux_codec; dret (EnclaveTx tx))
       else if decide (tag = Byte.x01) then
         (tx ⇐ dec unbond_codec; w ⇐ dec op_witness_codec; dret (UnbondStakeTx tx w))
       else if decide (tag = Byte.x02) then
         (tx ⇐ dec unjail_codec; w ⇐ dec op_witness_codec; dret (UnjailStakeTx tx w))
       else if decide (tag = Byte.x03) then
         (tx ⇐ dec node_join_codec; w ⇐ dec op_witness_codec; dret (NodeJoinTx tx w))
       else dfail)).

(** ** Identifiers *)

Context `{Hashes}.

Definition txid_hash (buf : list byte) : H256 := hash256 buf.

(** [TransactionId::id]. *)
Definition transaction_id {A} (c : codec A) (tx : A) : TxId := txid_hash (enc c tx).

Definition tx_with_outputs_id (self : TxWithOutputs) : TxId :=
  match self with
  | Transfer tx => transaction_id tx_codec tx
  | StakeWithdraw tx => transaction_id withdraw_codec tx
  end.

Definition enclave_tx_id (self : TxEnclaveAux) : TxId :=
  match self with
  | TransferTx _ _ payload => txid payload
  | DepositStakeTx tx _ => transaction_id deposit_codec tx
  | WithdrawUnbondedStakeTx _ _ payload => txid payload
  end.

Definition tx_id (self : TxAux) : TxId :=
  match self with
  | EnclaveTx tx => enclave_tx_id tx
  | UnbondStakeTx tx _ => transaction_id unbond_codec tx
  | UnjailStakeTx tx _ => transaction_id unjail_codec tx
  | NodeJoinTx tx _ => transaction_id node_join_codec tx
  end.

(** [FeeAlgorithm::calculate_for_txaux]. *)
Definition calculate_for_txaux (self : LinearFee) (txaux : TxAux) : result CoinError Fee :=
  estimate self (Z.of_nat (length (enc tx_aux_codec txaux))).

(** [TxToObfuscate::from]: the payload is kept under the identifier only when it
    is the payload's own. *)
Record TxToObfuscate := { to_payload : list byte; to_txid : TxId }.

Definition tx_to_obfuscate_from (tx : PlainTxAux) (i : TxId) : option TxToObfuscate :=
  match tx with
  | PlainTransferTx itx _ =>
      if decide (transaction_id tx_codec itx = i)
      then Some {| to_payload := enc plain_tx_aux_codec tx; to_txid := i |} else None
  | PlainDepositStakeTx _ => Some {| to_payload := enc plain_tx_aux_codec tx; to_txid := i |}
  | PlainWithdrawUnbondedStakeTx itx =>
      if decide (transaction_id withdraw_codec itx = i)
      then Some {| to_payload := enc plain_tx_aux_codec tx; to_txid := i |} else None
  end.
End crypto.

Abbreviation TxWitness := (list TxInWitness) (only parsing).

(** ** Well-formed transactions: the types of their fields *)

Definition txo_ok (p : TxoPointer) : Prop := array_ok 32 (id p) ∧ is_u16 (index p).
Definition addr_ok (a : ExtendedAddr) : Prop := match a with OrTree r => array_ok 32 r end.
Definition out_ok (o : TxOut) : Prop :=
  addr_ok (out_address o) ∧ coin_ok (out_value o) ∧ option_ok is_u64 (valid_from o).
Definition access_ok (a : TxAccess) : Prop :=
  match a with AllData => True | AccessOutput n => is_u64 n end.
Definition op_attributes_ok (a : StakedStateOpAttributes) : Prop := is_u8 (op_chain_hex_id a).
Definition deposit_tx_ok (t : DepositBondTx) : Prop :=
  vec_ok txo_ok (deposit_inputs t) ∧ address_ok (to_staked_account t)
  ∧ op_attributes_ok (deposit_attributes t).
Definition unbond_tx_ok (t : UnbondTx) : Prop :=
  address_ok (from_staked_account t) ∧ is_u64 (unbond_nonce t) ∧ coin_ok (unbond_value t)
  ∧ op_attributes_ok (unbond_attributes t).
Definition unjail_tx_ok (t : UnjailTx) : Prop :=
  is_u64 (unjail_nonce t) ∧ address_ok (unjail_address t) ∧ op_attributes_ok (unjail_attributes t).
Definition node_join_tx_ok (t : NodeJoinRequestTx) : Prop :=
  is_u64 (join_nonce t) ∧ address_ok (join_address t) ∧ op_attributes_ok (join_attributes t)
  ∧ council_node_ok (node_meta t).
Definition obfuscated_ok (t : TxObfuscated) : Prop :=
  is_i64 (key_from t) ∧ array_ok 12 (init_vector t) ∧ vec_ok any_byte (txpayload t)
  ∧ array_ok 32 (txid t).
Definition path_node_ok (n : PathNode) : Prop :=
  array_ok 32 (node_hash n) ∧ array_ok 32 (child_hash n).
Definition proof_ok (p : Proof_) : Prop :=
  array_ok 32 (leaf_hash (path p)) ∧ vec_ok path_node_ok (nodes (path p)) ∧ array_ok 33 (value p).

Section well_formed.
Context `{Secp256k1}.

Definition policy_ok (p : TxAccessPolicy) : Prop := access_ok (access p).
Definition attributes_ok (a : TxAttributes) : Prop :=
  is_u8 (chain_hex_id a) ∧ vec_ok policy_ok (allowed_view a).
Definition tx_ok (t : Tx) : Prop :=
  vec_ok txo_ok (inputs t) ∧ vec_ok out_ok (outputs t) ∧ attributes_ok (attributes t).
Definition withdraw_tx_ok (t : WithdrawUnbondedTx) : Prop :=
  is_u64 (withdraw_nonce t) ∧ vec_ok out_ok (withdraw_outputs t)
  ∧ attributes_ok (withdraw_attributes t).
Definition in_witness_ok (w : TxInWitness) : Prop :=
  match w with TreeSig _ proof => proof_ok proof end.
Definition witness_ok (w : TxWitness) : Prop := vec_ok in_witness_ok w.
Definition enclave_aux_ok (t : TxEnclaveAux) : Prop :=
  match t with
  | TransferTx i n p => vec_ok txo_ok i ∧ is_u16 n ∧ obfuscated_ok p
  | DepositStakeTx tx p => deposit_tx_ok tx ∧ obfuscated_ok p
  | WithdrawUnbondedStakeTx n _ p => is_u16 n ∧ obfuscated_ok p
  end.
Definition tx_aux_ok (t : TxAux) : Prop :=
  match t with
  | EnclaveTx tx => enclave_aux_ok tx
  | UnbondStakeTx tx _ => unbond_tx_ok tx
  | UnjailStakeTx tx _ => unjail_tx_ok tx
  | NodeJoinTx tx _ => node_join_tx_ok tx
  end.
Definition plain_aux_ok (t : PlainTxAux) : Prop :=
  match t with
  | PlainTransferTx tx w => tx_ok tx ∧ witness_ok w
  | PlainDepositStakeTx w => witness_ok w
  | PlainWithdrawUnbondedStakeTx tx => withdraw_tx_ok tx
  end.
Definition with_outputs_ok (t : TxWithOutputs) : Prop :=
  match t with Transfer tx => tx_ok tx | StakeWithdraw tx => withdraw_tx_ok tx end.
End well_formed.

(** The outputs a transaction spends, as far as they are public. *)
Definition tx_spends `{Secp256k1} (t : TxAux) : list TxoPointer :=
  match t with
  | EnclaveTx (TransferTx ins _ _) => ins
  | EnclaveTx (DepositStakeTx tx _) => deposit_inputs tx
  | _ => []
  end.

(** What the checks of a well-formed transaction rely on. *)
Lemma tx_spends_ok `{Secp256k1} t : tx_aux_ok t → Forall txo_ok (tx_spends t).
Proof.
  destruct t as [[ins n p|tx p|n w p]|tx w|tx w|tx w]; simpl; intros Ht; try by constructor.
  - by destruct Ht as [[_ ?] _].
  - by destruct Ht as [[[_ ?] _] _].
Qed.

Section typed.
Context `{Secp256k1, ScaleLaws}.

(** Every field that a decoder read is in the range of its type. *)
Ltac typed Hd :=
  unfold size_guard in Hd; dec_inv Hd; typed_facts; repeat first [done | split].

Lemma txo_pointer_codec_typed : codec_typed txo_ok txo_pointer_codec.
Proof. intros i a r Hd. cbn [dec txo_pointer_codec] in Hd. typed Hd. Qed.

Lemma extended_addr_codec_typed : codec_typed addr_ok extended_addr_codec.
Proof. intros i a r Hd. cbn [dec extended_addr_codec] in Hd. typed Hd. Qed.
#[local] Hint Resolve txo_pointer_codec_typed extended_addr_codec_typed coin_codec_typed
  address_codec_typed council_node_codec_typed : typed.

Lemma tx_out_codec_typed : codec_typed out_ok tx_out_codec.
Proof. intros i a r Hd. cbn [dec tx_out_codec] in Hd. typed Hd. Qed.

Lemma tx_access_codec_typed : codec_typed access_ok tx_access_codec.
Proof. intros i a r Hd. cbn [dec tx_access_codec] in Hd. typed Hd. Qed.
#[local] Hint Resolve tx_out_codec_typed tx_access_codec_typed : typed.

Lemma tx_access_policy_codec_typed : codec_typed policy_ok tx_access_policy_codec.
Proof. intros i a r Hd. cbn [dec tx_access_policy_codec] in Hd. typed Hd. Qed.
#[local] Hint Resolve tx_access_policy_codec_typed : typed.

Lemma tx_attributes_codec_typed : codec_typed attributes_ok tx_attributes_codec.
Proof. intros i a r Hd. cbn [dec tx_attributes_codec] in Hd. typed Hd. Qed.

Lemma op_attributes_codec_typed : codec_typed op_attributes_ok op_attributes_codec.
Proof. intros i a r Hd. cbn [dec op_attributes_codec] in Hd. typed Hd. Qed.
#[local] Hint Resolve tx_attributes_codec_typed op_attributes_codec_typed : typed.

Lemma tx_codec_typed : codec_typed tx_ok tx_codec.
Proof. intros i a r Hd. cbn [dec tx_codec] in Hd. typed Hd. Qed.

Lemma deposit_codec_typed : codec_typed deposit_tx_ok deposit_codec.
Proof. intros i a r Hd. cbn [dec deposit_codec] in Hd. typed Hd. Qed.

Lemma unbond_codec_typed : codec_typed unbond_tx_ok unbond_codec.
Proof. intros i a r Hd. cbn [dec unbond_codec] in Hd. typed Hd. Qed.

Lemma withdraw_codec_typed : codec_typed withdraw_tx_ok withdraw_codec.
Proof. intros i a r Hd. cbn [dec withdraw_codec] in Hd. typed Hd. Qed.

Lemma unjail_codec_typed : codec_typed unjail_tx_ok unjail_codec.
Proof. intros i a r Hd. cbn [dec unjail_codec] in Hd. typed Hd. Qed.

Lemma node_join_codec_typed : codec_typed node_join_tx_ok node_join_codec.
Proof. intros i a r Hd. cbn [dec node_join_codec] in Hd. typed Hd. Qed.

Lemma obfuscated_codec_typed : codec_typed obfuscated_ok obfuscated_codec.
Proof. intros i a r Hd. cbn [dec obfuscated_codec] in Hd. typed Hd. Qed.
#[local] Hint Resolve tx_codec_typed deposit_codec_typed unbond_codec_typed withdraw_codec_typed
  unjail_codec_typed node_join_codec_typed obfuscated_codec_typed : typed.

Lemma tx_with_outputs_codec_typed : codec_typed with_outputs_ok tx_with_outputs_codec.
Proof. intros i a r Hd. cbn [dec tx_with_outputs_codec] in Hd. typed Hd. Qed.

Lemma path_node_codec_typed : codec_typed path_node_ok path_node_codec.
Proof.
  intros i a r Hd. cbn [dec path_node_codec] in Hd. dec_inv Hd. clear E1. typed_facts. by split.
Qed.
#[local] Hint Resolve path_node_codec_typed : typed.

Lemma proof_codec_typed : codec_typed proof_ok proof_codec.
Proof.
  intros i a r Hd. cbn [dec proof_codec] in Hd. dec_inv Hd. cbn [dec path_codec] in E. dec_inv E.
  typed_facts. by split_and!.
Qed.
#[local] Hint Resolve proof_codec_typed : typed.

Lemma tx_in_witness_codec_typed : codec_typed in_witness_ok tx_in_witness_codec.
Proof. intros i a r Hd. cbn [dec tx_in_witness_codec] in Hd. dec_inv Hd. by typed_facts. Qed.
#[local] Hint Resolve tx_in_witness_codec_typed : typed.

Lemma tx_witness_codec_typed : codec_typed witness_ok tx_witness_codec.
Proof.
  intros i a r Hd. cbn [dec tx_witness_codec] in Hd. unfold size_guard in Hd. dec_inv Hd. by typed_facts.
Qed.
#[local] Hint Resolve tx_witness_codec_typed : typed.

Lemma plain_tx_aux_codec_typed : codec_typed plain_aux_ok plain_tx_aux_codec.
Proof. intros i a r Hd. cbn [dec plain_tx_aux_codec] in Hd. typed Hd. Qed.

Lemma tx_enclave_aux_codec_typed : codec_typed enclave_aux_ok tx_enclave_aux_codec.
Proof.
  intros i a r Hd. cbn [dec tx_enclave_aux_codec] in Hd. dec_inv Hd; simpl;
    repeat match goal with E : dec op_witness_codec _ = _ |- _ => clear E end; typed_facts; done.
Qed.

Lemma tx_aux_codec_typed : codec_typed tx_aux_ok tx_aux_codec.
Proof.
  intros i a r Hd. cbn [dec tx_aux_codec] in Hd. unfold size_guard in Hd. dec_inv Hd; simpl;
    repeat match goal with E : dec op_witness_codec _ = _ |- _ => clear E end.
  - by eapply tx_enclave_aux_codec_typed.
  - by eapply unbond_codec_typed.
  - by eapply unjail_codec_typed.
  - by eapply node_join_codec_typed.
Qed.

Lemma tx_aux_typed bytes t : decode tx_aux_codec bytes = Some t → tx_aux_ok t.
Proof. apply decode_typed, tx_aux_codec_typed. Qed.
End typed.

(** ** Round trips *)

Section round_trips.
Context `{Secp256k1Laws, ScaleLaws}.

Definition len_of (bs : list byte) : Z := Z.of_nat (length bs).

Lemma size_guard_small {A} max (d : decoder A) i : len_of i ≤ max → size_guard max d i = d i.
Proof.
  intros Hl. unfold size_guard, dbind, remaining_len. fold (len_of i).
  by destruct (Z.ltb_spec max (len_of i)); [lia|].
Qed.

Lemma size_guard_large {A} max (d : decoder A) i : max < len_of i → size_guard max d i = None.
Proof.
  intros Hl. unfold size_guard, dbind, remaining_len. fold (len_of i).
  by destruct (Z.ltb_spec max (len_of i)); [|lia].
Qed.

Lemma txo_pointer_codec_ok : codec_ok txo_ok txo_pointer_codec.
Proof.
  intros [] rest [??]. cbn [enc dec txo_pointer_codec]. rewrite <- !app_assoc. by repeat dec_step.
Qed.

Lemma extended_addr_codec_ok : codec_ok addr_ok extended_addr_codec.
Proof.
  intros [r] rest Hr. cbn [enc dec extended_addr_codec app].
  rewrite dbind_read_byte, decide_True by done. by dec_step.
Qed.
#[local] Hint Resolve txo_pointer_codec_ok extended_addr_codec_ok : codec.

Lemma tx_out_codec_ok : codec_ok out_ok tx_out_codec.
Proof.
  intros [] rest (?&?&?). cbn [enc dec tx_out_codec]. rewrite <- !app_assoc. by repeat dec_step.
Qed.

Lemma tx_access_codec_ok : codec_ok access_ok tx_access_codec.
Proof.
  intros [|n] rest Hn; [done|]. cbn [enc dec tx_access_codec app].
  rewrite dbind_read_byte, decide_False, decide_True by done. by dec_step.
Qed.
#[local] Hint Resolve tx_out_codec_ok tx_access_codec_ok pk_serialize_length : codec.

Lemma tx_access_policy_codec_ok : codec_ok policy_ok tx_access_policy_codec.
Proof.
  intros [k a] rest Ha. cbn [enc dec tx_access_policy_codec]. rewrite <- !app_assoc.
  rewrite (dbind_ok (array_ok 33)); [|apply array_codec_ok|apply pk_serialize_length].
  rewrite pk_from_serialize. by dec_step.
Qed.
#[local] Hint Resolve tx_access_policy_codec_ok : codec.

Lemma tx_attributes_codec_ok : codec_ok attributes_ok tx_attributes_codec.
Proof.
  intros [] rest (?&?). cbn [enc dec tx_attributes_codec]. rewrite <- !app_assoc. by repeat dec_step.
Qed.
#[local] Hint Resolve tx_attributes_codec_ok : codec.

Lemma op_attributes_codec_ok : codec_ok op_attributes_ok op_attributes_codec.
Proof. intros [] rest ?. cbn [enc dec op_attributes_codec]. by dec_step. Qed.
#[local] Hint Resolve op_attributes_codec_ok : codec.

Lemma tx_codec_ok tx rest :
  tx_ok tx → len_of (enc tx_codec tx ++ rest) ≤ MAX_TX_SIZE →
  dec tx_codec (enc tx_codec tx ++ rest) = Some (tx, rest).
Proof.
  destruct tx as [i o a]. intros (?&?&?) Hl. cbn [enc dec tx_codec] in *.
  rewrite size_guard_small by done. rewrite <- !app_assoc. by repeat dec_step.
Qed.

Lemma deposit_codec_ok tx rest :
  deposit_tx_ok tx → len_of (enc deposit_codec tx ++ rest) ≤ MAX_DEPOSIT_TX_SIZE →
  dec deposit_codec (enc deposit_codec tx ++ rest) = Some (tx, rest).
Proof.
  destruct tx as [i o a]. intros (?&?&?) Hl. cbn [enc dec deposit_codec] in *.
  rewrite size_guard_small by done. rewrite <- !app_assoc. by repeat dec_step.
Qed.

Lemma unbond_codec_ok : codec_ok unbond_tx_ok unbond_codec.
Proof.
  intros [] rest (?&?&?&?). cbn [enc dec unbond_codec]. rewrite <- !app_assoc. by repeat dec_step.
Qed.

Lemma withdraw_codec_ok : codec_ok withdraw_tx_ok withdraw_codec.
Proof.
  intros [] rest (?&?&?). cbn [enc dec withdraw_codec]. rewrite <- !app_assoc. by repeat dec_step.
Qed.

Lemma unjail_codec_ok : codec_ok unjail_tx_ok unjail_codec.
Proof.
  intros [] rest (?&?&?). cbn [enc dec unjail_codec]. rewrite <- !app_assoc. by repeat dec_step.
Qed.

Lemma node_join_codec_ok : codec_ok node_join_tx_ok node_join_codec.
Proof.
  intros [] rest (?&?&?&?). cbn [enc dec node_join_codec]. rewrite <- !app_assoc. by repeat dec_step.
Qed.

Lemma obfuscated_codec_ok : codec_ok obfuscated_ok obfuscated_codec.
Proof.
  intros [] rest (?&?&?&?). cbn [enc dec obfuscated_codec]. rewrite <- !app_assoc. by repeat dec_step.
Qed.
#[local] Hint Resolve unbond_codec_ok withdraw_codec_ok unjail_codec_ok node_join_codec_ok
  obfuscated_codec_ok : codec.

Lemma path_node_codec_ok : codec_ok path_node_ok path_node_codec.
Proof.
  intros [h c s] rest (?&?). cbn [enc dec path_node_codec]. rewrite <- !app_assoc.
  assert (Hs : codec_ok (λ _, True) side_codec) by by intros [] ? _.
  do 2 dec_step. by rewrite (dbind_ok _ _ _ _ _ Hs).
Qed.
#[local] Hint Resolve path_node_codec_ok : codec.

Lemma proof_codec_ok : codec_ok proof_ok proof_codec.
Proof.
  intros [[l n] v] rest (?&?&?). cbn [enc dec proof_codec]. rewrite <- app_assoc.
  rewrite (dbind_ok (λ p, array_ok 32 (leaf_hash p) ∧ vec_ok path_node_ok (nodes p))); [| |done].
  - by dec_step.
  - intros [] rest' (?&?). cbn [enc dec path_codec]. rewrite <- !app_assoc. by repeat dec_step.
Qed.
#[local] Hint Resolve proof_codec_ok : codec.

Lemma tx_in_witness_codec_ok : codec_ok in_witness_ok tx_in_witness_codec.
Proof.
  intros [sig p] rest Hp. cbn [enc dec tx_in_witness_codec app]. rewrite <- app_assoc.
  rewrite dbind_read_byte, decide_True by done.
  rewrite (dbind_ok (array_ok 64)); [|apply array_codec_ok|apply schnorr_serialize_length].
  rewrite schnorr_from_serialize. by dec_step.
Qed.

Lemma tx_witness_codec_ok w rest :
  witness_ok w → len_of (enc tx_witness_codec w ++ rest) ≤ MAX_WITNESS_SIZE →
  dec tx_witness_codec (enc tx_witness_codec w ++ rest) = Some (w, rest).
Proof.
  intros Hw Hl. cbn [enc dec tx_witness_codec] in *. rewrite size_guard_small by done.
  by apply (vec_codec_ok in_witness_ok); [apply tx_in_witness_codec_ok|].
Qed.

Lemma op_witness_codec_ok : codec_ok (λ _, True) op_witness_codec.
Proof.
  intros [sig] rest _. cbn [enc dec op_witness_codec].
  pose proof (recoverable_from_serialize sig) as Hs. pose proof (recoverable_serialize_length sig) as Hl.
  pose proof (recoverable_id_range sig) as Hr.
  destruct (recoverable_serialize_compact sig) as [rid raw]. simpl in Hs, Hl, Hr. cbn [app].
  rewrite dbind_read_byte, decide_True by done. rewrite dbind_read_byte.
  rewrite (dbind_ok (array_ok 64)) by eauto with codec.
  rewrite byte_to_of_Z by ints. by destruct (Z.leb_spec rid 3); [rewrite Hs | lia].
Qed.
#[local] Hint Resolve op_witness_codec_ok : codec.

(** The limit on a deposit counts the obfuscated payload that follows it. *)
Definition deposit_fits (t : TxEnclaveAux) (rest : list byte) : Prop :=
  match t with
  | DepositStakeTx tx p =>
      len_of (enc deposit_codec tx ++ enc obfuscated_codec p ++ rest) ≤ MAX_DEPOSIT_TX_SIZE
  | _ => True
  end.

Lemma tx_enclave_aux_codec_ok t rest :
  enclave_aux_ok t → deposit_fits t rest →
  dec tx_enclave_aux_codec (enc tx_enclave_aux_codec t ++ rest) = Some (t, rest).
Proof.
  destruct t as [i n p|tx p|n w p]; cbn [enc dec tx_enclave_aux_codec app];
    rewrite dbind_read_byte, <- ?app_assoc.
  - intros (?&?&?) _. rewrite decide_True by done. by repeat dec_step.
  - intros (?&?) Hf. rewrite decide_False, decide_True by done.
    unfold dbind at 1. rewrite deposit_codec_ok by done. by dec_step.
  - intros (?&?) _. rewrite !decide_False, decide_True by done. dec_step.
    rewrite (dbind_ok _ _ _ _ _ op_witness_codec_ok) by done. by dec_step.
Qed.

Definition aux_deposit_fits (t : TxAux) (rest : list byte) : Prop :=
  match t with EnclaveTx tx => deposit_fits tx rest | _ => True end.

Lemma tx_aux_codec_ok t rest :
  tx_aux_ok t → aux_deposit_fits t rest → len_of (enc tx_aux_codec t ++ rest) ≤ TX_AUX_SIZE →
  dec tx_aux_codec (enc tx_aux_codec t ++ rest) = Some (t, rest).
Proof.
  intros Ht Hf Hl. cbn [dec tx_aux_codec]. rewrite size_guard_small by done. clear Hl.
  destruct t as [tx|tx w|tx w|tx w]; cbn [enc tx_aux_codec app]; rewrite dbind_read_byte, <- ?app_assoc.
  - rewrite decide_True by done. unfold dbind. by rewrite tx_enclave_aux_codec_ok.
  - rewrite decide_False, decide_True by done. dec_step.
    by rewrite (dbind_ok _ _ _ _ _ op_witness_codec_ok).
  - rewrite !decide_False, decide_True by done. dec_step.
    by rewrite (dbind_ok _ _ _ _ _ op_witness_codec_ok).
  - rewrite !decide_False, decide_True by done. dec_step.
    by rewrite (dbind_ok _ _ _ _ _ op_witness_codec_ok).
Qed.

Lemma tx_codec_too_large tx rest :
  MAX_TX_SIZE < len_of (enc tx_codec tx ++ rest) → dec tx_codec (enc tx_codec tx ++ rest) = None.
Proof. intros. cbn [dec tx_codec]. by apply size_guard_large. Qed.

Lemma deposit_codec_too_large tx rest :
  MAX_DEPOSIT_TX_SIZE < len_of (enc deposit_codec tx ++ rest) →
  dec deposit_codec (enc deposit_codec tx ++ rest) = None.
Proof. intros. cbn [dec deposit_codec]. by apply size_guard_large. Qed.
End round_trips.

#[export] Hint Resolve txo_pointer_codec_typed tx_with_outputs_codec_typed tx_enclave_aux_codec_typed
  obfuscated_codec_typed withdraw_codec_typed tx_codec_typed deposit_codec_typed
  tx_witness_codec_typed plain_tx_aux_codec_typed : typed.
#[export] Hint Resolve txo_pointer_codec_ok obfuscated_codec_ok withdraw_codec_ok op_witness_codec_ok
  tx_in_witness_codec_ok : codec.

(** ** Properties *)

(** A well-formed transaction whose encoding is within the size limits decodes
    to itself: every kind of transaction, with its witness or payload. *)
Theorem tx_aux_roundtrip `{Secp256k1Laws, ScaleLaws} t :
  tx_aux_ok t → aux_deposit_fits t [] → len_of (enc tx_aux_codec t) ≤ TX_AUX_SIZE →
  decode tx_aux_codec (enc tx_aux_codec t) = Some t.
Proof.
  intros Ht Hf Hl. unfold decode. rewrite <- (app_nil_r (enc tx_aux_codec t)).
  rewrite tx_aux_codec_ok; [done | done | done |]. by rewrite app_nil_r.
Qed.

Definition addr_example : StakedStateAddress := BasicRedeem (replicate 20 Byte.x02).
Definition payload_example (n : nat) : TxObfuscated :=
  {| key_from := 0; init_vector := replicate 12 Byte.x00; txpayload := replicate n Byte.x05;
     txid := replicate 32 Byte.x03 |}.
Definition deposit_example : DepositBondTx :=
  {| deposit_inputs := [txo_pointer_new (replicate 32 Byte.x09) 1];
     to_staked_account := addr_example; deposit_attributes := {| op_chain_hex_id := 171 |} |}.

Lemma payload_example_ok n : Z.of_nat n ≤ U32_MAX → obfuscated_ok (payload_example n).
Proof.
  intros Hn. split_and!; simpl; try done; try ints.
  split; [by rewrite length_replicate | by apply Forall_true].
Qed.

Lemma deposit_example_ok : deposit_tx_ok deposit_example.
Proof.
  split_and!; [|done|split; vm_compute; discriminate].
  split; [vm_compute; done|]. repeat constructor; vm_compute; discriminate.
Qed.

Lemma tx_aux_roundtrip_witness :
  let S := Ref.secp in let H := scale_ref in
  let t := EnclaveTx (DepositStakeTx deposit_example (payload_example 100)) in
  decode tx_aux_codec (enc tx_aux_codec t) = Some t.
Proof.
  refine (@tx_aux_roundtrip Ref.secp Ref.secp_laws scale_ref scale_ref_laws _ _ _ _).
  - split; [apply deposit_example_ok | apply payload_example_ok; ints].
  - vm_compute. discriminate.
  - vm_compute. discriminate.
Defined.

(** The size limits of a transfer and of a deposit count the bytes after them
    in the input.  A transfer whose body and witness together exceed the body's
    limit does not decode, although its own encoding is within that limit and its
    witness within the witness's; a deposit does not decode when its body and the
    payload together exceed the deposit's limit. *)
Theorem inner_size_limits_count_the_rest `{Secp256k1Laws, ScaleLaws} tx w deposit payload :
  MAX_TX_SIZE < len_of (enc tx_codec tx ++ enc tx_witness_codec w) →
  MAX_DEPOSIT_TX_SIZE < len_of (enc deposit_codec deposit ++ enc obfuscated_codec payload) →
  decode plain_tx_aux_codec (enc plain_tx_aux_codec (PlainTransferTx tx w)) = None
  ∧ decode tx_aux_codec (enc tx_aux_codec (EnclaveTx (DepositStakeTx deposit payload))) = None.
Proof.
  intros Ht Hd. unfold decode. split.
  - cbn [enc dec plain_tx_aux_codec]. rewrite dbind_read_byte, decide_True by done.
    unfold dbind at 1. by rewrite tx_codec_too_large.
  - cbn [enc dec tx_aux_codec].
    destruct (Z.le_gt_cases (len_of (Byte.x00 :: enc tx_enclave_aux_codec (DepositStakeTx deposit payload)))
      TX_AUX_SIZE); [|by rewrite size_guard_large].
    rewrite size_guard_small, dbind_read_byte, decide_True by done.
    cbn [enc dec tx_enclave_aux_codec]. unfold dbind at 1.
    rewrite dbind_read_byte, decide_False, decide_True by done.
    unfold dbind at 1. by rewrite deposit_codec_too_large.
Qed.

Definition proof_example (n : nat) : Proof_ :=
  MkProof {| leaf_hash := replicate 32 Byte.x00;
             nodes := replicate n {| node_hash := replicate 32 Byte.x01;
                                     child_hash := replicate 32 Byte.x02; hash_side := Left |} |}
    (replicate 33 Byte.x03).

Lemma inner_size_limits_count_the_rest_witness :
  let S := Ref.secp in let H := scale_ref in
  let tx := {| inputs := [txo_pointer_new (replicate 32 Byte.x09) 1]; outputs := [];
               attributes := tx_attributes_new 171 |} in
  let w : TxWitness := replicate 11 (TreeSig (Byte.x01 : SchnorrSignature) (proof_example 10)) in
  len_of (enc tx_codec tx) ≤ MAX_TX_SIZE ∧ len_of (enc tx_witness_codec w) ≤ MAX_WITNESS_SIZE
  ∧ decode plain_tx_aux_codec (enc plain_tx_aux_codec (PlainTransferTx tx w)) = None
  ∧ decode tx_aux_codec
      (enc tx_aux_codec (EnclaveTx (DepositStakeTx deposit_example (payload_example 2300)))) = None.
Proof.
  intros S H tx w. split; [vm_compute; discriminate|]. split; [vm_compute; discriminate|].
  apply (@inner_size_limits_count_the_rest Ref.secp Ref.secp_laws scale_ref scale_ref_laws);
    vm_compute; reflexivity.
Defined.
