(* ===== verification/Validation.v ===== *)
(** * Validation: the checks on transactions

    Models [src/chain-tx-validation/src/lib.rs] and
    [src/chain-tx-validation/src/witness.rs].  Each check returns what the source
    returns, the fee and the updated staked state or the first error, as a [run]:
    the [expect]s and indexing of the source can panic.  The specifications below
    say which transactions each check accepts. *)

From stdpp Require Import base tactics option list gmap strings.
From Stdlib Require Import ZArith Lia.
From S2P Require Import Prelude Text Codec Milli Coin Crypto Merkle Params Account TxTypes.

Inductive Error :=
  | WrongChainHexId
  | NoInputs
  | NoOutputs
  | DuplicateInputs
  | ZeroCoin
  | InvalidSum
  | UnexpectedWitnesses
  | MissingWitnesses
  | InvalidInput
  | InputSpent
  | InputOutputDoNotMatch
  | OutputInTimelock
  | EcdsaCrypto
  | IoError
  | EnclaveRejected
  | AccountNotFound
  | AccountNotUnbonded
  | AccountWithdrawOutputNotLocked
  | MismatchAccountAddress
  | AccountIncorrectNonce
  | AccountJailed
  | AccountNotJailed
  | NotEnoughStake
  | DuplicateValidator.

#[global] Instance Error_eq_dec : EqDecision Error.
Proof. solve_decision. Defined.

(** [ChainInfo] of [src/chain-core/src/lib.rs]. *)
Record ChainInfo := {
  min_fee_computed : Fee;
  info_chain_hex_id : Z;
  previous_block_time : Timespec;
  info_unbonding_period : Z;
}.

Record NodeInfo := {
  minimal_stake : Coin;
  tendermint_validator_addresses : gmap (list byte) StakedStateAddress;
  validator_voting_power : gmap StakedStateAddress TendermintVotePower;
}.

Section validation.
Context `{Hashes, Secp256k1, Scale}.

(** ** Witnesses *)

Definition verify_tx_address (witness : TxInWitness) (txid : TxId) (addr : ExtendedAddr) :
  run SecpError () :=
  message ?← Some (message_from_slice txid);
  match witness, addr with
  | TreeSig sig proof, OrTree root =>
      verified ← proof_verify proof root;
      if negb verified then Some (Err InvalidPublicKey)
      else
        pk ?← Some (pk_from_slice (value proof));
        Some (schnorr_verify message sig pk)
  end.

Definition verify_tx_recover_address (witness : StakedStateOpWitness) (txid : TxId) :
  result SecpError StakedStateAddress :=
  match witness with
  | BasicRedeemSig sig =>
      message ← message_from_slice txid;
      pk ← recover message sig;
      _ ← ecdsa_verify message sig pk;
      Ok (BasicRedeem (redeem_address_from_pk pk))
  end.

(** ** Basic checks *)

Definition check_attributes (tx_chain_hex_id : Z) (extra_info : ChainInfo) : result Error () :=
  if info_chain_hex_id extra_info =? tx_chain_hex_id then Ok () else Err WrongChainHexId.

(** [inputs.iter().all(|x| inputs_s.insert(x))], with [seen] the set so far. *)
Fixpoint insert_all (seen : gset TxoPointer) (l : list TxoPointer) : bool :=
  match l with
  | [] => true
  | x :: l => if decide (x ∈ seen) then false else insert_all ({[x]} ∪ seen) l
  end.

Definition check_inputs_basic (ins : list TxoPointer) (witness : TxWitness) : result Error () :=
  match ins with
  | [] => Err NoInputs
  | _ :: _ =>
      if negb (insert_all ∅ ins) then Err DuplicateInputs
      else if (length ins <? length witness)%nat then Err UnexpectedWitnesses
      else if (length witness <? length ins)%nat then Err MissingWitnesses
      else Ok ()
  end.

(** One round of the loop of [check_inputs]. *)
Definition check_input (main_txid : TxId) (extra_info : ChainInfo) (incoins : Coin)
    (txin : TxoPointer) (tx : TxWithOutputs) (in_witness : TxInWitness) : run Error Coin :=
  if decide (id txin = tx_with_outputs_id tx) then
    match tx_outputs tx !! Z.to_nat (index txin) with
    | None => Some (Err InvalidInput)
    | Some txout =>
        let locked := match valid_from txout with
                      | Some from => previous_block_time extra_info <? from
                      | None => false
                      end in
        if locked : bool then Some (Err OutputInTimelock)
        else
          wv ← verify_tx_address in_witness main_txid (out_address txout);
          match wv with
          | Err _ => Some (Err EcdsaCrypto)
          | Ok _ =>
              match coin_add incoins (out_value txout) with
              | Err _ => Some (Err InvalidSum)
              | Ok sum => Some (Ok sum)
              end
          end
    end
  else Some (Err InvalidInput).

Fixpoint check_inputs_loop (main_txid : TxId) (extra_info : ChainInfo) (incoins : Coin)
    (l : list (TxoPointer * (TxWithOutputs * TxInWitness))) : run Error Coin :=
  match l with
  | [] => Some (Ok incoins)
  | (txin, (tx, in_witness)) :: l =>
      incoins ?← check_input main_txid extra_info incoins txin tx in_witness;
      check_inputs_loop main_txid extra_info incoins l
  end.

Definition check_inputs (main_txid : TxId) (ins : list TxoPointer) (witness : TxWitness)
    (extra_info : ChainInfo) (transaction_inputs : list TxWithOutputs) : run Error Coin :=
  check_inputs_loop main_txid extra_info coin_zero (zip ins (zip transaction_inputs witness)).

Definition check_outputs_basic (outs : list TxOut) : result Error () :=
  match outs with
  | [] => Err NoOutputs
  | _ :: _ =>
      if negb (forallb (λ x, coin_zero <? out_value x) outs) then Err ZeroCoin else Ok ()
  end.

Definition check_input_output_sums (incoins outcoins : Coin) (extra_info : ChainInfo) :
  run Error Fee :=
  let min_fee := fee_to_coin (min_fee_computed extra_info) in
  match coin_add outcoins min_fee with
  | Err _ => Some (Err InvalidSum)
  | Ok total_outsum =>
      if incoins <? total_outsum then Some (Err InputOutputDoNotMatch)
      else
        fee_paid ← unwrap (coin_sub incoins outcoins);
        Some (Ok (fee_new fee_paid))
  end.

(** ** Transfers and deposits *)

Definition verify_transfer (maintx : Tx) (witness : TxWitness) (extra_info : ChainInfo)
    (transaction_inputs : list TxWithOutputs) : run Error Fee :=
  _ ?← Some (check_attributes (chain_hex_id (attributes maintx)) extra_info);
  _ ?← Some (check_inputs_basic (inputs maintx) witness);
  _ ?← Some (check_outputs_basic (outputs maintx));
  incoins ?← check_inputs (transaction_id tx_codec maintx) (inputs maintx) witness extra_info
               transaction_inputs;
  match get_output_total maintx with
  | Err _ => Some (Err InvalidSum)
  | Ok outcoins => check_input_output_sums incoins outcoins extra_info
  end.

Definition verify_unjailed (account : StakedState) : result Error () :=
  if is_jailed account then Err AccountJailed else Ok ().

Definition verify_bonded_deposit_core (maintx : DepositBondTx) (witness : TxWitness)
    (extra_info : ChainInfo) (transaction_inputs : list TxWithOutputs) : run Error Coin :=
  _ ?← Some (check_attributes (op_chain_hex_id (deposit_attributes maintx)) extra_info);
  _ ?← Some (check_inputs_basic (deposit_inputs maintx) witness);
  incoins ?← check_inputs (transaction_id deposit_codec maintx) (deposit_inputs maintx) witness
               extra_info transaction_inputs;
  if incoins <=? fee_to_coin (min_fee_computed extra_info)
  then Some (Err InputOutputDoNotMatch) else Some (Ok incoins).

Definition verify_bonded_deposit (maintx : DepositBondTx) (witness : TxWitness)
    (extra_info : ChainInfo) (transaction_inputs : list TxWithOutputs)
    (maccount : option StakedState) : run Error (Fee * option StakedState) :=
  _ ?← Some (match maccount with Some account => verify_unjailed account | None => Ok () end);
  incoins ?← verify_bonded_deposit_core maintx witness extra_info transaction_inputs;
  deposit_amount ← unwrap (coin_sub incoins (fee_to_coin (min_fee_computed extra_info)));
  account ← match maccount with
            | Some a => deposit a deposit_amount
            | None => Some (new_init_bonded deposit_amount (previous_block_time extra_info)
                              (to_staked_account maintx) None)
            end;
  Some (Ok (min_fee_computed extra_info, Some account)).

(** ** Staking operations *)

Definition verify_unbonding (maintx : UnbondTx) (extra_info : ChainInfo) (account : StakedState) :
  run Error (Fee * option StakedState) :=
  _ ?← Some (verify_unjailed account);
  _ ?← Some (check_attributes (op_chain_hex_id (unbond_attributes maintx)) extra_info);
  if decide (from_staked_account maintx ≠ address account) then Some (Err MismatchAccountAddress)
  else if negb (unbond_nonce maintx =? nonce account) then Some (Err AccountIncorrectNonce)
  else if unbond_value maintx =? coin_zero then Some (Err ZeroCoin)
  else
    _ ?← check_input_output_sums (bonded account) (unbond_value maintx) extra_info;
    account ← unbond account (unbond_value maintx) (fee_to_coin (min_fee_computed extra_info))
                (as_u64 (previous_block_time extra_info + info_unbonding_period extra_info));
    Some (Ok (min_fee_computed extra_info, Some account)).

Definition verify_unbonded_withdraw_core (maintx : WithdrawUnbondedTx) (extra_info : ChainInfo)
    (account : StakedState) : run Error Fee :=
  _ ?← Some (verify_unjailed account);
  _ ?← Some (check_attributes (chain_hex_id (withdraw_attributes maintx)) extra_info);
  _ ?← Some (check_outputs_basic (withdraw_outputs maintx));
  if negb (withdraw_nonce maintx =? nonce account) then Some (Err AccountIncorrectNonce)
  else if previous_block_time extra_info <? unbonded_from account
  then Some (Err AccountNotUnbonded)
  else if unbonded account =? coin_zero then Some (Err ZeroCoin)
  else if negb (forallb (λ x, bool_decide (valid_from x = Some (unbonded_from account)))
                  (withdraw_outputs maintx))
  then Some (Err AccountWithdrawOutputNotLocked)
  else
    match withdraw_get_output_total maintx with
    | Err _ => Some (Err InvalidSum)
    | Ok outcoins => check_input_output_sums (unbonded account) outcoins extra_info
    end.

Definition verify_unbonded_withdraw (maintx : WithdrawUnbondedTx) (extra_info : ChainInfo)
    (account : StakedState) : run Error (Fee * option StakedState) :=
  fee ?← verify_unbonded_withdraw_core maintx extra_info account;
  Some (Ok (fee, Some (withdraw account))).

Definition verify_unjailing (maintx : UnjailTx) (extra_info : ChainInfo) (account : StakedState) :
  result Error (Fee * option StakedState) :=
  _ ← check_attributes (op_chain_hex_id (unjail_attributes maintx)) extra_info;
  if negb (unjail_nonce maintx =? nonce account) then Err AccountIncorrectNonce
  else if decide (unjail_address maintx ≠ address account) then Err MismatchAccountAddress
  else
    match jailed_until account with
    | None => Err AccountNotJailed
    | Some until =>
        if previous_block_time extra_info <? until then Err AccountJailed
        else Ok (fee_new coin_zero, Some (unjail account))
    end.

Definition verify_node_join (maintx : NodeJoinRequestTx) (extra_info : ChainInfo)
    (node_info : NodeInfo) (account : StakedState) : result Error (Fee * option StakedState) :=
  _ ← verify_unjailed account;
  _ ← check_attributes (op_chain_hex_id (join_attributes maintx)) extra_info;
  if negb (join_nonce maintx =? nonce account) then Err AccountIncorrectNonce
  else if decide (join_address maintx ≠ address account) then Err MismatchAccountAddress
  else if bonded account <? minimal_stake node_info then Err NotEnoughStake
  else
    let validator_address := validator_address_from (consensus_pubkey (node_meta maintx)) in
    if decide (is_Some (validator_voting_power node_info !! join_address maintx))
    then Err DuplicateValidator
    else if decide (is_Some (tendermint_validator_addresses node_info !! validator_address))
    then Err DuplicateValidator
    else Ok (fee_new coin_zero, Some (join_node account (node_meta maintx))).

(** ** What the checks accept *)

Lemma insert_all_spec seen l :
  insert_all seen l = true ↔ NoDup l ∧ ∀ x, x ∈ l → x ∉ seen.
Proof.
  revert seen. induction l as [|x l IH]; intros seen; simpl.
  { split; [|done]. intros _. split; [constructor|]. set_solver. }
  case_decide as Hx.
  - split; [done|]. intros [_ Hn]. by destruct (Hn x ltac:(by left)).
  - rewrite IH, NoDup_cons. set_solver.
Qed.

Lemma check_attributes_ok hex info u :
  check_attributes hex info = Ok u ↔ info_chain_hex_id info = hex.
Proof.
  unfold check_attributes. destruct (Z.eqb_spec (info_chain_hex_id info) hex), u; done.
Qed.

Lemma check_inputs_basic_ok ins (w : TxWitness) u :
  check_inputs_basic ins w = Ok u ↔ ins ≠ [] ∧ NoDup ins ∧ length ins = length w.
Proof.
  unfold check_inputs_basic. destruct ins as [|i ins]; [naive_solver|]. destruct u.
  destruct (insert_all ∅ (i :: ins)) eqn:E; cbn [negb].
  - apply insert_all_spec in E as [Hn _].
    destruct (Nat.ltb_spec (length (i :: ins)) (length w)); [split; [done | lia]|].
    destruct (Nat.ltb_spec (length w) (length (i :: ins))); [split; [done | lia]|].
    split; [intros _; split_and!; [done | done | lia] | done].
  - split; [done|]. intros (_ & Hn & _). apply not_true_iff_false in E. destruct E.
    apply insert_all_spec. split; [done|]. set_solver.
Qed.

Lemma check_outputs_basic_ok outs u :
  check_outputs_basic outs = Ok u ↔ outs ≠ [] ∧ Forall (λ o, 0 < out_value o) outs.
Proof.
  unfold check_outputs_basic. destruct outs as [|o outs]; [naive_solver|]. destruct u.
  destruct (forallb _ (o :: outs)) eqn:E; cbn [negb].
  - rewrite forallb_forall in E. split; [|done]. intros _. split; [done|].
    apply Forall_forall. intros x Hx. apply list_elem_of_In, E in Hx. unfold coin_zero in Hx. lia.
  - split; [done|]. intros [_ Hf]. apply not_true_iff_false in E. destruct E.
    apply forallb_forall. intros x Hx%list_elem_of_In. rewrite Forall_forall in Hf.
    specialize (Hf x Hx). simpl in Hf. unfold coin_zero. lia.
Qed.

Lemma check_input_output_sums_ok i o info f :
  coin_ok i → coin_ok o → coin_ok (min_fee_computed info) →
  check_input_output_sums i o info = Some (Ok f) ↔
  f = i - o ∧ o + min_fee_computed info ≤ i.
Proof.
  intros Hi Ho Hm. unfold check_input_output_sums, fee_to_coin, fee_new.
  destruct (coin_add o (min_fee_computed info)) as [t|e] eqn:E.
  - apply coin_add_ok in E as [-> ?]. destruct (Z.ltb_spec i (o + min_fee_computed info)).
    { split; [done | lia]. }
    rewrite (proj2 (coin_sub_ok i o (i - o) Hi ltac:(ints))) by ints. simpl.
    split; [intros [= <-]; lia | by intros [-> _]].
  - split; [done|]. intros [_ ?].
    rewrite (proj2 (coin_add_ok _ _ (o + min_fee_computed info))) in E; [done | ints].
Qed.

Lemma check_input_output_sums_total i o info :
  coin_ok i → coin_ok o → coin_ok (min_fee_computed info) →
  is_Some (check_input_output_sums i o info).
Proof.
  intros Hi Ho Hm. unfold check_input_output_sums, fee_to_coin.
  destruct (coin_add o (min_fee_computed info)) as [t|e] eqn:E; [|by eexists].
  apply coin_add_ok in E as [-> ?]. destruct (Z.ltb_spec i (o + min_fee_computed info)); [by eexists|].
  rewrite (proj2 (coin_sub_ok i o (i - o) Hi ltac:(ints))) by ints. by eexists.
Qed.

Lemma verify_tx_address_total w i a : is_Some (verify_tx_address w i a).
Proof.
  unfold verify_tx_address. destruct (message_from_slice i); simpl; [|by eexists].
  destruct w as [sig proof], a as [root]. unfold proof_verify. case_decide; simpl; [|by eexists].
  destruct (path_verify_spec (path proof)) as (b & -> & _). simpl. destruct b; simpl; [|by eexists].
  destruct (pk_from_slice (value proof)); simpl; by eexists.
Qed.

(** An input that the witness may spend, and its value: the input names an output
    of the transaction, its time lock has passed, and the witness signs the
    spending transaction for the output's address. *)
Definition spends (main_txid : TxId) (info : ChainInfo)
    (t : TxoPointer * (TxWithOutputs * TxInWitness)) (v : Coin) : Prop :=
  let '(txin, (tx, w)) := t in
  id txin = tx_with_outputs_id tx
  ∧ ∃ out, tx_outputs tx !! Z.to_nat (index txin) = Some out
    ∧ (∀ from, valid_from out = Some from → from ≤ previous_block_time info)
    ∧ verify_tx_address w main_txid (out_address out) = Some (Ok tt)
    ∧ v = out_value out.

(** The outputs of the transactions an input refers to hold coins. *)
Definition outs_ok (tins : list TxWithOutputs) : Prop :=
  Forall (λ t, Forall (λ o, coin_ok (out_value o)) (tx_outputs t)) tins.

Lemma check_input_ok txid info acc txin tx w s :
  check_input txid info acc txin tx w = Some (Ok s) ↔
  ∃ v, spends txid info (txin, (tx, w)) v ∧ s = acc + v ∧ s ≤ MAX_COIN.
Proof.
  unfold check_input, spends. case_decide as Hid; [|naive_solver].
  destruct (tx_outputs tx !! Z.to_nat (index txin)) as [out|]; [|naive_solver].
  set (locked := match valid_from out with Some from => previous_block_time info <? from | None => false end).
  assert (Hl : locked = false ↔ ∀ from, valid_from out = Some from → from ≤ previous_block_time info).
  { unfold locked. destruct (valid_from out) as [f|]; [|naive_solver].
    rewrite Z.ltb_ge. naive_solver. }
  destruct locked.
  { split; [done|]. intros (v & (_ & o & [= <-] & Hf & _) & _). by apply Hl in Hf. }
  destruct (verify_tx_address_total w txid (out_address out)) as [wv Hwv]. rewrite Hwv. simpl.
  destruct wv as [[]|e].
  - destruct (coin_add acc (out_value out)) as [c|e] eqn:E.
    + apply coin_add_ok in E as [-> ?]. split.
      * intros [= <-]. exists (out_value out). split; [|lia]. split; [done|].
        exists out. split_and!; [done | by apply Hl | done | done].
      * intros (v & (_ & o & [= <-] & _ & _ & ->) & -> & _). done.
    + split; [done|]. intros (v & (_ & o & [= <-] & _ & _ & ->) & -> & ?).
      rewrite (proj2 (coin_add_ok _ _ (acc + out_value out))) in E; done.
  - split; [done|]. intros (v & (_ & o & [= <-] & _ & Hv & _) & _). congruence.
Qed.

Lemma check_input_total txid info acc txin tx w :
  is_Some (check_input txid info acc txin tx w).
Proof.
  unfold check_input. case_decide; [|by eexists].
  destruct (tx_outputs tx !! Z.to_nat (index txin)) as [out|]; [|by eexists].
  destruct (match valid_from out with Some from => previous_block_time info <? from | None => false end);
    [by eexists|].
  destruct (verify_tx_address_total w txid (out_address out)) as [[|] ->]; simpl; [|by eexists].
  destruct (coin_add _ _); by eexists.
Qed.

Lemma check_inputs_loop_total txid info acc l : is_Some (check_inputs_loop txid info acc l).
Proof.
  revert acc. induction l as [|[i [t w]] l IH]; intros acc; simpl; [by eexists|].
  destruct (check_input_total txid info acc i t w) as [[c|e] ->]; simpl; [apply IH | by eexists].
Qed.

Definition input_outs_ok (t : TxoPointer * (TxWithOutputs * TxInWitness)) : Prop :=
  Forall (λ o, coin_ok (out_value o)) (tx_outputs t.2.1).

Lemma spends_coin_ok txid info t v :
  input_outs_ok t → spends txid info t v → coin_ok v.
Proof.
  destruct t as [i [tx w]]. unfold input_outs_ok. simpl. intros Ho (_ & out & Hl & _ & _ & ->).
  rewrite Forall_forall in Ho. by apply Ho, (list_elem_of_lookup_2 _ (Z.to_nat (index i))).
Qed.

Lemma check_inputs_loop_ok txid info acc l s :
  0 ≤ acc ≤ MAX_COIN →
  Forall input_outs_ok l →
  check_inputs_loop txid info acc l = Some (Ok s) ↔
  ∃ vs, Forall2 (spends txid info) l vs ∧ s = acc + sum_by Datatypes.id vs ∧ s ≤ MAX_COIN.
Proof.
  intros Hacc Hl. revert acc Hacc. induction Hl as [|t l Ht Hl IH]; intros acc Hacc.
  { simpl. split.
    - intros [= <-]. exists []. split_and!; [constructor | rewrite sum_by_nil; lia | lia].
    - intros (vs & Hf & -> & _). apply Forall2_nil_inv_l in Hf as ->. rewrite sum_by_nil. do 2 f_equal. lia. }
  destruct t as [i [t w]]. cbn [check_inputs_loop]. split.
  - intros Hr. destruct (check_input txid info acc i t w) as [[c|]|] eqn:E; simpl in Hr; try done.
    apply check_input_ok in E as (v & Hs & -> & ?). pose proof (spends_coin_ok _ _ (i, (t, w)) v Ht Hs).
    apply IH in Hr as (vs & Hf & -> & ?); [|ints]. exists (v :: vs).
    split_and!; [by constructor | rewrite sum_id_cons; lia | lia].
  - intros (vs & Hf & -> & Hm). apply Forall2_cons_inv_l in Hf as (v & vs' & Hs & Hf & ->).
    pose proof (spends_coin_ok _ _ (i, (t, w)) v Ht Hs) as Hv.
    assert (0 ≤ sum_by Datatypes.id vs').
    { apply sum_by_nonneg. clear -Hf Hl. revert vs' Hf.
      induction Hl as [|t l Ht Hl IH]; intros vs' Hf; [by apply Forall2_nil_inv_l in Hf as ->|].
      apply Forall2_cons_inv_l in Hf as (v & vs & Hs & Hf & ->). constructor; [|by apply IH].
      pose proof (spends_coin_ok _ _ t v Ht Hs). unfold Datatypes.id. ints. }
    rewrite sum_id_cons in Hm |- *.
    rewrite (proj2 (check_input_ok txid info acc i t w (acc + v))) by (exists v; split_and!; [done | lia | lia]).
    cbn [run_bind]. apply IH; [ints|]. exists vs'. split_and!; [done | rewrite sum_id_cons; lia | done].
Qed.

(** A fee that covers the minimum and closes the gap between what goes in and
    what comes out. *)
Definition pays_fee (info : ChainInfo) (ins outs fee : Z) : Prop :=
  ins = outs + fee ∧ min_fee_computed info ≤ fee.

(** The inputs of a transaction with their values. *)
Definition spends_all (txid : TxId) (info : ChainInfo) (ins : list TxoPointer) (w : TxWitness)
    (tins : list TxWithOutputs) (vs : list Coin) : Prop :=
  ins ≠ [] ∧ NoDup ins ∧ length ins = length w
  ∧ Forall2 (spends txid info) (zip ins (zip tins w)) vs
  ∧ sum_by Datatypes.id vs ≤ MAX_COIN.

Lemma outs_ok_zip ins tins (w : TxWitness) :
  outs_ok tins →
  Forall input_outs_ok (zip ins (zip tins w)).
Proof.
  intros Ho. apply Forall_forall. intros [i [t x]] Hx. apply elem_of_zip_r in Hx.
  apply elem_of_zip_l in Hx. unfold input_outs_ok. simpl. unfold outs_ok in Ho. rewrite Forall_forall in Ho. by apply Ho.
Qed.

Lemma check_inputs_ok txid ins w info tins s :
  outs_ok tins →
  check_inputs txid ins w info tins = Some (Ok s) ↔
  ∃ vs, Forall2 (spends txid info) (zip ins (zip tins w)) vs
        ∧ s = sum_by Datatypes.id vs ∧ s ≤ MAX_COIN.
Proof.
  intros Ho. unfold check_inputs. rewrite check_inputs_loop_ok; [done | unfold coin_zero; ints |].
  by apply outs_ok_zip.
Qed.

Lemma check_inputs_range txid ins w info tins s :
  outs_ok tins → check_inputs txid ins w info tins = Some (Ok s) → coin_ok s.
Proof.
  intros Ho Hc. apply check_inputs_ok in Hc as (vs & Hf & -> & ?); [|done]. split; [|done].
  apply sum_by_nonneg. pose proof (outs_ok_zip ins tins w Ho) as Hz. revert Hz.
  induction Hf as [|t v l vs Hs Hf IH]; intros Hz; constructor; apply Forall_cons in Hz as [Ht Hz].
  - pose proof (spends_coin_ok _ _ t v Ht Hs). unfold Datatypes.id. ints.
  - apply IH; [|done]. rewrite sum_id_cons in H2. pose proof (spends_coin_ok _ _ t v Ht Hs). ints.
Qed.

(** What a transfer pays out. *)
Definition outputs_pay (outs : list TxOut) (total : Z) : Prop :=
  outs ≠ [] ∧ Forall (λ o, 0 < out_value o) outs ∧ total = sum_by out_value outs.

Lemma sum_by_fmap {A B} (f : A → B) (g : B → Z) l : sum_by g (f <$> l) = sum_by (λ x, g (f x)) l.
Proof. induction l as [|x l IH]; [done|]. rewrite fmap_cons, !sum_by_cons. by rewrite IH. Qed.

Definition transfer_spec (maintx : Tx) (w : TxWitness) (info : ChainInfo)
    (tins : list TxWithOutputs) (fee : Fee) : Prop :=
  info_chain_hex_id info = chain_hex_id (attributes maintx)
  ∧ ∃ vs total,
      spends_all (transaction_id tx_codec maintx) info (inputs maintx) w tins vs
      ∧ outputs_pay (outputs maintx) total
      ∧ pays_fee info (sum_by Datatypes.id vs) total fee.

Lemma sum_out_values outs s :
  Forall (λ o, coin_ok (out_value o)) outs →
  sum_coins (out_value <$> outs) = Ok s ↔ s = sum_by out_value outs ∧ s ≤ MAX_COIN.
Proof.
  intros Ho. rewrite sum_coins_ok by by apply Forall_fmap. by rewrite sum_by_fmap.
Qed.

Lemma verify_transfer_ok maintx w info tins fee :
  Forall (λ o, coin_ok (out_value o)) (outputs maintx) → outs_ok tins →
  coin_ok (min_fee_computed info) →
  verify_transfer maintx w info tins = Some (Ok fee) ↔ transfer_spec maintx w info tins fee.
Proof.
  intros Hout Hin Hmin. unfold verify_transfer, transfer_spec, get_output_total. split.
  - intros Hv.
    destruct (check_attributes _ _) as [u1|] eqn:E1; [|done]; cbn [run_bind] in Hv.
    destruct (check_inputs_basic _ _) as [u2|] eqn:E2; [|done]; cbn [run_bind] in Hv.
    destruct (check_outputs_basic _) as [u3|] eqn:E3; [|done]; cbn [run_bind] in Hv.
    destruct (check_inputs _ _ _ _ _) as [[s|]|] eqn:E4; [|done|done]; cbn [run_bind] in Hv.
    destruct (sum_coins _) as [t|] eqn:E5; [|done].
    apply check_attributes_ok in E1. apply check_inputs_basic_ok in E2 as (?&?&?).
    apply check_outputs_basic_ok in E3 as (?&?).
    pose proof (check_inputs_range _ _ _ _ _ _ Hin E4).
    apply check_inputs_ok in E4 as (vs & Hf & -> & ?); [|done].
    assert (coin_ok t) by (eapply sum_coins_range; [|exact E5]; by apply Forall_fmap).
    apply sum_out_values in E5 as [-> ?]; [|done].
    apply check_input_output_sums_ok in Hv as [-> ?]; [|done|done|done].
    split; [done|]. exists vs, (sum_by out_value (outputs maintx)).
    split_and!; unfold spends_all, outputs_pay, pays_fee; split_and!; try done; lia.
  - intros (Hc & vs & t & (?&?&?&Hf&?) & (?&?&->) & (Hs & ?)).
    rewrite (proj2 (check_attributes_ok _ _ tt) Hc). cbn [run_bind].
    rewrite (proj2 (check_inputs_basic_ok _ _ tt)) by done. cbn [run_bind].
    rewrite (proj2 (check_outputs_basic_ok _ tt)) by done. cbn [run_bind].
    assert (E4 : check_inputs (transaction_id tx_codec maintx) (inputs maintx) w info tins
             = Some (Ok (sum_by Datatypes.id vs))) by (apply check_inputs_ok; [done | by exists vs]).
    pose proof (check_inputs_range _ _ _ _ _ _ Hin E4). rewrite E4. cbn [run_bind].
    assert (0 ≤ sum_by out_value (outputs maintx)).
    { apply sum_by_nonneg. eapply Forall_impl; [exact Hout|]. intros; ints. }
    rewrite (proj2 (sum_out_values (outputs maintx) _ Hout)) by (split; [done | ints]).
    apply check_input_output_sums_ok; ints.
Qed.

Lemma verify_transfer_total maintx w info tins :
  Forall (λ o, coin_ok (out_value o)) (outputs maintx) → outs_ok tins →
  coin_ok (min_fee_computed info) → is_Some (verify_transfer maintx w info tins).
Proof.
  intros Hout Hin Hmin. unfold verify_transfer, get_output_total.
  destruct (check_attributes _ _); cbn [run_bind]; [|by eexists].
  destruct (check_inputs_basic _ _); cbn [run_bind]; [|by eexists].
  destruct (check_outputs_basic _); cbn [run_bind]; [|by eexists].
  destruct (check_inputs _ _ _ _ _) as [[s|]|] eqn:E; cbn [run_bind]; [|by eexists|].
  - destruct (sum_coins _) as [t|] eqn:E5; [|by eexists].
    apply check_input_output_sums_total; [by eapply check_inputs_range | | done].
    eapply sum_coins_range; [|exact E5]. by apply Forall_fmap.
  - unfold check_inputs in E. by destruct (check_inputs_loop_total (transaction_id tx_codec maintx) info coin_zero
      (zip (inputs maintx) (zip tins w))) as [? E']; rewrite E in E'.
Qed.

(** ** Deposits *)

Definition deposit_core_spec (maintx : DepositBondTx) (w : TxWitness) (info : ChainInfo)
    (tins : list TxWithOutputs) (incoins : Coin) : Prop :=
  info_chain_hex_id info = op_chain_hex_id (deposit_attributes maintx)
  ∧ (∃ vs, spends_all (transaction_id deposit_codec maintx) info (deposit_inputs maintx) w tins vs
           ∧ incoins = sum_by Datatypes.id vs)
  ∧ min_fee_computed info < incoins.

Lemma verify_bonded_deposit_core_ok maintx w info tins c :
  outs_ok tins →
  verify_bonded_deposit_core maintx w info tins = Some (Ok c) ↔
  deposit_core_spec maintx w info tins c.
Proof.
  intros Hin. unfold verify_bonded_deposit_core, deposit_core_spec, fee_to_coin. split.
  - intros Hv.
    destruct (check_attributes _ _) as [u1|] eqn:E1; [|done]; cbn [run_bind] in Hv.
    destruct (check_inputs_basic _ _) as [u2|] eqn:E2; [|done]; cbn [run_bind] in Hv.
    destruct (check_inputs _ _ _ _ _) as [[s|]|] eqn:E4; [|done|done]; cbn [run_bind] in Hv.
    apply check_attributes_ok in E1. apply check_inputs_basic_ok in E2 as (?&?&?).
    apply check_inputs_ok in E4 as (vs & Hf & -> & ?); [|done].
    destruct (Z.leb_spec (sum_by Datatypes.id vs) (min_fee_computed info)); [done|].
    injection Hv as <-. split; [done|]. split; [|done]. exists vs. by unfold spends_all; split_and!.
  - intros (Hc & (vs & (?&?&?&Hf&?) & ->) & Hlt).
    rewrite (proj2 (check_attributes_ok _ _ tt) Hc). cbn [run_bind].
    rewrite (proj2 (check_inputs_basic_ok _ _ tt)) by done. cbn [run_bind].
    rewrite (proj2 (check_inputs_ok _ _ _ _ _ (sum_by Datatypes.id vs) Hin)) by by exists vs.
    cbn [run_bind]. by destruct (Z.leb_spec (sum_by Datatypes.id vs) (min_fee_computed info)); [lia|].
Qed.

Lemma deposit_core_coin_ok maintx w info tins c :
  outs_ok tins → verify_bonded_deposit_core maintx w info tins = Some (Ok c) → coin_ok c.
Proof.
  intros Hin Hv. unfold verify_bonded_deposit_core in Hv.
  destruct (check_attributes _ _); [|done]; cbn [run_bind] in Hv.
  destruct (check_inputs_basic _ _); [|done]; cbn [run_bind] in Hv.
  destruct (check_inputs _ _ _ _ _) as [[s|]|] eqn:E4; [|done|done]; cbn [run_bind] in Hv.
  destruct (s <=? _); [done|]. injection Hv as <-. by eapply check_inputs_range.
Qed.

(** The account after a deposit of [amount]. *)
Definition deposited (maintx : DepositBondTx) (info : ChainInfo) (maccount : option StakedState)
    (amount : Coin) : option StakedState :=
  match maccount with
  | Some a => deposit a amount
  | None => Some (new_init_bonded amount (previous_block_time info) (to_staked_account maintx) None)
  end.

Lemma verify_bonded_deposit_unfold maintx w info tins maccount :
  outs_ok tins → coin_ok (min_fee_computed info) →
  (∀ a, maccount = Some a → is_jailed a = false) →
  verify_bonded_deposit maintx w info tins maccount =
  (incoins ?← verify_bonded_deposit_core maintx w info tins;
   account ← deposited maintx info maccount (incoins - min_fee_computed info);
   Some (Ok (min_fee_computed info, Some account))).
Proof.
  intros Hin Hmin Hj. unfold verify_bonded_deposit, fee_to_coin.
  replace (match maccount with Some account => verify_unjailed account | None => Ok () end)
    with (@Ok Error () tt)
    by (destruct maccount as [a|]; [unfold verify_unjailed; by rewrite (Hj a eq_refl) | done]).
  cbn [run_bind].
  destruct (verify_bonded_deposit_core maintx w info tins) as [[c|]|] eqn:E; [|done|done].
  cbn [run_bind]. pose proof (deposit_core_coin_ok _ _ _ _ _ Hin E).
  apply verify_bonded_deposit_core_ok in E as (_ & _ & ?); [|done].
  rewrite (proj2 (coin_sub_ok c (min_fee_computed info) (c - min_fee_computed info) ltac:(done) ltac:(ints)))
    by lia.
  done.
Qed.

(** ** Unbonding *)

Definition unbonding_spec (maintx : UnbondTx) (info : ChainInfo) (a : StakedState) : Prop :=
  is_jailed a = false
  ∧ info_chain_hex_id info = op_chain_hex_id (unbond_attributes maintx)
  ∧ from_staked_account maintx = address a
  ∧ unbond_nonce maintx = nonce a
  ∧ unbond_value maintx ≠ 0
  ∧ unbond_value maintx + min_fee_computed info ≤ bonded a.

Lemma verify_unjailed_ok a u : verify_unjailed a = Ok u ↔ is_jailed a = false.
Proof. unfold verify_unjailed. by destruct (is_jailed a), u. Qed.

Lemma verify_unbonding_ok maintx info a r :
  staked_state_ok a → coin_ok (unbond_value maintx) → coin_ok (min_fee_computed info) →
  unbonded a + unbond_value maintx ≤ MAX_COIN →
  verify_unbonding maintx info a = Some (Ok r) ↔
  unbonding_spec maintx info a
  ∧ r = (min_fee_computed info,
         unbond a (unbond_value maintx) (min_fee_computed info)
           (as_u64 (previous_block_time info + info_unbonding_period info)))
  ∧ is_Some r.2.
Proof.
  intros (_ & Hb & Hu & _) Hv Hm Hmax. unfold verify_unbonding, unbonding_spec, fee_to_coin.
  assert (Hun : unbond_value maintx + min_fee_computed info ≤ bonded a →
    is_Some (unbond a (unbond_value maintx) (min_fee_computed info)
           (as_u64 (previous_block_time info + info_unbonding_period info)))).
  { intros Hle. eexists. apply unbond_spec; [done | done | ints |]. split_and!; [reflexivity | lia | done]. }
  set (upd := unbond _ _ _ _) in *. split.
  - intros Hr.
    destruct (verify_unjailed a) as [u|] eqn:E1; [|done]. apply verify_unjailed_ok in E1.
    destruct (check_attributes _ _) as [u'|] eqn:E2; [|done]. apply check_attributes_ok in E2.
    cbn [run_bind] in Hr. case_decide as Ha; [done|].
    destruct (Z.eqb_spec (unbond_nonce maintx) (nonce a)); [|done]. cbn [negb] in Hr.
    destruct (Z.eqb_spec (unbond_value maintx) coin_zero) as [|Hz]; [done|].
    destruct (check_input_output_sums _ _ _) as [[f|]|] eqn:E3; [|done|done]. cbn [run_bind] in Hr.
    apply check_input_output_sums_ok in E3 as [-> Hle]; [|done|done|done].
    destruct (Hun Hle) as [a' Ha']. rewrite Ha' in Hr |- *. simpl in Hr. injection Hr as <-.
    split_and!; try done.
  - intros ((Hj & Hc & Ha & Hn & Hz & Hle) & -> & _).
    rewrite (proj2 (verify_unjailed_ok a tt) Hj), (proj2 (check_attributes_ok _ _ tt) Hc).
    cbn [run_bind]. rewrite decide_False by tauto.
    rewrite (proj2 (Z.eqb_eq _ _) Hn). cbn [negb].
    destruct (Z.eqb_spec (unbond_value maintx) coin_zero); [done|].
    rewrite (proj2 (check_input_output_sums_ok _ _ _ (bonded a - unbond_value maintx) Hb Hv Hm)) by done.
    cbn [run_bind]. by destruct (Hun Hle) as [a' ->].
Qed.

Lemma verify_unbonding_inv maintx info a fee a' :
  staked_state_ok a → coin_ok (unbond_value maintx) → coin_ok (min_fee_computed info) →
  verify_unbonding maintx info a = Some (Ok (fee, a')) →
  unbonding_spec maintx info a ∧ fee = min_fee_computed info
  ∧ ∃ s, a' = Some s
    ∧ unbond a (unbond_value maintx) fee
        (as_u64 (previous_block_time info + info_unbonding_period info)) = Some s.
Proof.
  intros (_ & Hb & Hu & _) Hv Hm Hr. unfold verify_unbonding, fee_to_coin in Hr. unfold unbonding_spec.
  destruct (verify_unjailed a) as [u|] eqn:E1; [|done]. apply verify_unjailed_ok in E1.
  destruct (check_attributes _ _) as [u'|] eqn:E2; [|done]. apply check_attributes_ok in E2.
  cbn [run_bind] in Hr. case_decide as Ha; [done|].
  destruct (Z.eqb_spec (unbond_nonce maintx) (nonce a)); [|done]. cbn [negb] in Hr.
  destruct (Z.eqb_spec (unbond_value maintx) coin_zero) as [|Hz]; [done|].
  destruct (check_input_output_sums _ _ _) as [[f|]|] eqn:E3; [|done|done]. cbn [run_bind] in Hr.
  apply check_input_output_sums_ok in E3 as [-> Hle]; [|done..].
  destruct (unbond _ _ _ _) as [s|] eqn:Es; [|done]. simpl in Hr. injection Hr as <- <-.
  split_and!; try done. by exists s.
Qed.

(** ** Withdrawals *)

Definition withdraw_spec (maintx : WithdrawUnbondedTx) (info : ChainInfo) (a : StakedState)
    (fee : Fee) : Prop :=
  is_jailed a = false
  ∧ info_chain_hex_id info = chain_hex_id (withdraw_attributes maintx)
  ∧ withdraw_nonce maintx = nonce a
  ∧ unbonded_from a ≤ previous_block_time info
  ∧ Forall (λ o, valid_from o = Some (unbonded_from a)) (withdraw_outputs maintx)
  ∧ ∃ total, outputs_pay (withdraw_outputs maintx) total ∧ pays_fee info (unbonded a) total fee.

Lemma forallb_locked a outs :
  forallb (λ x, bool_decide (valid_from x = Some (unbonded_from a))) outs = true ↔
  Forall (λ o, valid_from o = Some (unbonded_from a)) outs.
Proof.
  rewrite forallb_forall, Forall_forall. setoid_rewrite list_elem_of_In.
  by setoid_rewrite bool_decide_eq_true.
Qed.

Lemma verify_unbonded_withdraw_core_ok maintx info a fee :
  coin_ok (unbonded a) → Forall (λ o, coin_ok (out_value o)) (withdraw_outputs maintx) →
  coin_ok (min_fee_computed info) →
  verify_unbonded_withdraw_core maintx info a = Some (Ok fee) ↔ withdraw_spec maintx info a fee.
Proof.
  intros Hu Ho Hm. unfold verify_unbonded_withdraw_core, withdraw_spec, withdraw_get_output_total. split.
  - intros Hr.
    destruct (verify_unjailed a) as [u|] eqn:E1; [|done]. apply verify_unjailed_ok in E1.
    destruct (check_attributes _ _) as [u'|] eqn:E2; [|done]. apply check_attributes_ok in E2.
    destruct (check_outputs_basic _) as [u''|] eqn:E3; [|done]. apply check_outputs_basic_ok in E3 as [??].
    cbn [run_bind] in Hr. destruct (Z.eqb_spec (withdraw_nonce maintx) (nonce a)); [|done]. cbn [negb] in Hr.
    destruct (Z.ltb_spec (previous_block_time info) (unbonded_from a)); [done|].
    destruct (Z.eqb_spec (unbonded a) coin_zero); [done|].
    destruct (forallb _ _) eqn:E4; cbn [negb] in Hr; [|done]. apply forallb_locked in E4.
    destruct (sum_coins _) as [t|] eqn:E5; [|done].
    assert (coin_ok t) by (eapply sum_coins_range; [|exact E5]; by apply Forall_fmap).
    apply sum_out_values in E5 as [-> ?]; [|done].
    apply check_input_output_sums_ok in Hr as [-> ?]; [|done|done|done].
    split_and!; try done. eexists. unfold outputs_pay, pays_fee. split_and!; try done; lia.
  - intros (Hj & Hc & Hn & Hf & Hl & t & (Hne & Hpos & ->) & Hs & Hfee).
    rewrite (proj2 (verify_unjailed_ok a tt) Hj), (proj2 (check_attributes_ok _ _ tt) Hc).
    rewrite (proj2 (check_outputs_basic_ok _ tt)) by done. cbn [run_bind].
    rewrite (proj2 (Z.eqb_eq _ _) Hn). cbn [negb].
    destruct (Z.ltb_spec (previous_block_time info) (unbonded_from a)); [lia|].
    assert (0 < sum_by out_value (withdraw_outputs maintx)).
    { destruct (withdraw_outputs maintx) as [|o os]; [done|]. apply Forall_cons in Hpos as [? Hpos].
      rewrite sum_by_cons. assert (0 ≤ sum_by out_value os); [|lia].
      apply sum_by_nonneg. eapply Forall_impl; [exact Hpos|]. simpl. lia. }
    destruct (Z.eqb_spec (unbonded a) coin_zero); [ints|].
    rewrite (proj2 (forallb_locked a _) Hl). cbn [negb].
    rewrite (proj2 (sum_out_values _ _ Ho)) by (split; [done | ints]).
    apply check_input_output_sums_ok; ints.
Qed.

Lemma verify_unbonded_withdraw_ok maintx info a fee a' :
  coin_ok (unbonded a) → Forall (λ o, coin_ok (out_value o)) (withdraw_outputs maintx) →
  coin_ok (min_fee_computed info) →
  verify_unbonded_withdraw maintx info a = Some (Ok (fee, a')) ↔
  withdraw_spec maintx info a fee ∧ a' = Some (withdraw a).
Proof.
  intros Hu Ho Hm. unfold verify_unbonded_withdraw.
  pose proof (verify_unbonded_withdraw_core_ok maintx info a) as Hc. split.
  - destruct (verify_unbonded_withdraw_core maintx info a) as [[f|]|]; [|done|done].
    cbn [run_bind]. intros [= <- <-]. split; [by apply Hc | done].
  - intros [Hs%Hc ->]; [|done..]. by rewrite Hs.
Qed.

(** ** Unjailing and joining *)

Definition unjailing_spec (tx : UnjailTx) (info : ChainInfo) (a : StakedState) : Prop :=
  info_chain_hex_id info = op_chain_hex_id (unjail_attributes tx)
  ∧ unjail_nonce tx = nonce a ∧ unjail_address tx = address a
  ∧ ∃ t, jailed_until a = Some t ∧ t ≤ previous_block_time info.

Lemma verify_unjailing_ok tx info a r :
  verify_unjailing tx info a = Ok r ↔ unjailing_spec tx info a ∧ r = (0, Some (unjail a)).
Proof.
  unfold verify_unjailing, unjailing_spec, check_attributes, fee_new.
  destruct (Z.eqb_spec (info_chain_hex_id info) (op_chain_hex_id (unjail_attributes tx)));
    [|naive_solver]. simpl.
  destruct (Z.eqb_spec (unjail_nonce tx) (nonce a)); simpl; [|naive_solver].
  case_decide as Ha; [naive_solver|].
  destruct (jailed_until a) as [t|]; [|naive_solver].
  destruct (Z.ltb_spec (previous_block_time info) t); split.
  - done.
  - intros ((_ & _ & _ & (t' & [= <-] & ?)) & _). lia.
  - intros [= <-]. split_and!; try done. by exists t.
  - intros (_ & ->). done.
Qed.

Definition node_join_spec (tx : NodeJoinRequestTx) (info : ChainInfo) (node_info : NodeInfo)
    (a : StakedState) : Prop :=
  is_jailed a = false
  ∧ info_chain_hex_id info = op_chain_hex_id (join_attributes tx)
  ∧ join_nonce tx = nonce a ∧ join_address tx = address a
  ∧ minimal_stake node_info ≤ bonded a
  ∧ validator_voting_power node_info !! join_address tx = None
  ∧ tendermint_validator_addresses node_info
      !! validator_address_from (consensus_pubkey (node_meta tx)) = None.

Lemma verify_node_join_ok tx info node_info a r :
  verify_node_join tx info node_info a = Ok r ↔
  node_join_spec tx info node_info a ∧ r = (0, Some (join_node a (node_meta tx))).
Proof.
  unfold verify_node_join, node_join_spec, verify_unjailed, check_attributes, fee_new.
  destruct (is_jailed a); [naive_solver|]. simpl.
  destruct (Z.eqb_spec (info_chain_hex_id info) (op_chain_hex_id (join_attributes tx)));
    [|naive_solver]. simpl.
  destruct (Z.eqb_spec (join_nonce tx) (nonce a)); simpl; [|naive_solver].
  case_decide as Ha; [naive_solver|].
  destruct (Z.ltb_spec (bonded a) (minimal_stake node_info)); [split; [done|]; intros; lia|].
  case_decide as Hv; [split; [done|]; intros ((_&_&_&_&_&Hn&_)&_); by rewrite Hn in Hv; destruct Hv|].
  case_decide as Ht; [split; [done|]; intros ((_&_&_&_&_&_&Hn)&_); by rewrite Hn in Ht; destruct Ht|].
  rewrite eq_None_not_Some, eq_None_not_Some.
  split; [intros [= <-]; split_and!; done | intros (_& ->); done].
Qed.

(** ** Nonces *)

(** An accepted operation names the account's nonce and advances it. *)
Lemma verify_unbonding_nonce tx info a fee a' :
  verify_unbonding tx info a = Some (Ok (fee, a')) →
  unbond_nonce tx = nonce a ∧ ∀ b, a' = Some b → nonce b = as_u64 (nonce a + 1).
Proof.
  intros Hx. unfold verify_unbonding, unbond in Hx. run_inv Hx. bools. split; [lia|].
  by intros b [= <-].
Qed.
Lemma verify_unbonded_withdraw_nonce tx info a fee a' :
  verify_unbonded_withdraw tx info a = Some (Ok (fee, a')) →
  withdraw_nonce tx = nonce a ∧ ∀ b, a' = Some b → nonce b = as_u64 (nonce a + 1).
Proof.
  intros Hx. unfold verify_unbonded_withdraw, verify_unbonded_withdraw_core in Hx.
  run_inv Hx; bools; (split; [lia|]; by intros b [= <-]).
Qed.
Lemma verify_unjailing_nonce tx info a fee a' :
  verify_unjailing tx info a = Ok (fee, a') →
  unjail_nonce tx = nonce a ∧ ∀ b, a' = Some b → nonce b = as_u64 (nonce a + 1).
Proof. intros [(?&?&?&?) [= -> ->]]%verify_unjailing_ok. split; [done|]. by intros b [= <-]. Qed.
Lemma verify_node_join_nonce tx info node_info a fee a' :
  verify_node_join tx info node_info a = Ok (fee, a') →
  join_nonce tx = nonce a ∧ ∀ b, a' = Some b → nonce b = as_u64 (nonce a + 1).
Proof. intros [(?&?&?&?) [= -> ->]]%verify_node_join_ok. split; [done|]. by intros b [= <-]. Qed.

Lemma nonce_advances n : is_u64 n → as_u64 (n + 1) ≠ n.
Proof.
  intros Hn. unfold as_u64. destruct (decide (n = U64_MAX)) as [->|]; [done|].
  rewrite Z.mod_small by ints. lia.
Qed.

End validation.

(** ** A concrete chain for the witnesses *)

Module Example.
#[local] Existing Instance Ref.hashes.
#[local] Existing Instance Ref.secp.
#[local] Existing Instance scale_ref.

Definition keys : list (list byte) := Ref.padded 32 <$> [Byte.x07; Byte.x08; Byte.x09].
Definition key_tree : MerkleTree := default merkle_empty (merkle_new keys).
Definition addr : ExtendedAddr := OrTree (root_hash key_tree).
Definition info : ChainInfo :=
  {| min_fee_computed := 100; info_chain_hex_id := 171; previous_block_time := 1000;
     info_unbonding_period := 60 |}.
Definition prev_tx : Tx :=
  {| inputs := []; outputs := [tx_out_new addr 1000]; attributes := tx_attributes_new 171 |}.
Definition pointer : TxoPointer := txo_pointer_new (transaction_id tx_codec prev_tx) 0.
Definition spend_tx : Tx :=
  {| inputs := [pointer]; outputs := [tx_out_new addr 850]; attributes := tx_attributes_new 171 |}.
Definition key_proof : Proof_ :=
  match generate_proof key_tree (Ref.padded 32 Byte.x08) with
  | Some (Some p) => p
  | _ => MkProof {| leaf_hash := []; nodes := [] |} []
  end.
Definition witness : TxWitness := [TreeSig (Byte.x08 : SchnorrSignature) key_proof].
Definition staking_address : StakedStateAddress := BasicRedeem (replicate 20 Byte.x01).
Definition deposit_tx : DepositBondTx :=
  {| deposit_inputs := [pointer]; to_staked_account := staking_address;
     deposit_attributes := {| op_chain_hex_id := 171 |} |}.
Definition account : StakedState := new_init_bonded 5000 1 staking_address None.
Definition unbond_tx : UnbondTx :=
  {| from_staked_account := staking_address; unbond_nonce := 0; unbond_value := 700;
     unbond_attributes := {| op_chain_hex_id := 171 |} |}.
Definition unbonded_account : StakedState := new_init_unbonded 5000 900 staking_address.
Definition withdraw_tx : WithdrawUnbondedTx :=
  {| withdraw_nonce := 0; withdraw_outputs := [tx_out_new_with_timelock addr 4000 900];
     withdraw_attributes := tx_attributes_new 171 |}.
Definition unjail_tx : UnjailTx :=
  {| unjail_nonce := 1; unjail_address := staking_address;
     unjail_attributes := {| op_chain_hex_id := 171 |} |}.
Definition join_tx : NodeJoinRequestTx :=
  {| join_nonce := 0; join_address := staking_address;
     join_attributes := {| op_chain_hex_id := 171 |};
     node_meta := council_node_new (Ed25519 (replicate 32 Byte.x06)) |}.
Definition node_info : NodeInfo :=
  {| minimal_stake := 4000; tendermint_validator_addresses := ∅; validator_voting_power := ∅ |}.

Lemma outs_coin_ok : Forall (λ o, coin_ok (out_value o)) (outputs spend_tx).
Proof. apply Forall_singleton. simpl. ints. Qed.
Lemma tins_ok : outs_ok [Transfer prev_tx].
Proof. apply Forall_singleton, Forall_singleton. simpl. ints. Qed.
Lemma fee_ok : coin_ok (min_fee_computed info).
Proof. simpl. ints. Qed.
Lemma account_ok : staked_state_ok account.
Proof. staked_ok. Qed.
End Example.

(** ** Properties *)

(** C13. A transfer is accepted with a fee exactly when its chain id matches, its
    inputs are distinct, as many as its witnesses, and spendable by them, its
    outputs are non-empty and positive, and the inputs pay the outputs and a fee
    of at least the minimum: what goes in is what comes out plus the fee.  The
    check never panics. *)
Theorem transfer_accepts_iff `{Hashes, Secp256k1, Scale} maintx w info tins :
  Forall (λ o, coin_ok (out_value o)) (outputs maintx) → outs_ok tins →
  coin_ok (min_fee_computed info) →
  is_Some (verify_transfer maintx w info tins)
  ∧ ∀ fee, verify_transfer maintx w info tins = Some (Ok fee)
           ↔ transfer_spec maintx w info tins fee.
Proof.
  intros Ho Hi Hm. split; [by apply verify_transfer_total|].
  intros fee. by apply verify_transfer_ok.
Qed.

(** A deposit into an account that is not jailed is accepted exactly when its
    chain id matches and its inputs are spendable and exceed the minimum fee; the
    fee paid is the minimum and the rest is bonded, in the account or in a new one
    for the address.  It panics exactly when the stake would exceed the supply. *)
Theorem deposit_accepts_iff `{Hashes, Secp256k1, Scale} maintx w info tins maccount :
  outs_ok tins → coin_ok (min_fee_computed info) →
  (∀ a, maccount = Some a → is_jailed a = false) →
  (∀ fee a', verify_bonded_deposit maintx w info tins maccount = Some (Ok (fee, a')) ↔
     fee = min_fee_computed info
     ∧ ∃ incoins, deposit_core_spec maintx w info tins incoins
         ∧ a' = deposited maintx info maccount (incoins - fee) ∧ is_Some a')
  ∧ (verify_bonded_deposit maintx w info tins maccount = None ↔
     ∃ incoins a, deposit_core_spec maintx w info tins incoins ∧ maccount = Some a
         ∧ MAX_COIN < bonded a + (incoins - min_fee_computed info)).
Proof.
  intros Hin Hm Hj. rewrite verify_bonded_deposit_unfold by done.
  pose proof (verify_bonded_deposit_core_ok maintx w info tins) as Hcore.
  assert (Htot : is_Some (verify_bonded_deposit_core maintx w info tins)).
  { unfold verify_bonded_deposit_core. destruct (check_attributes _ _); cbn [run_bind]; [|by eexists].
    destruct (check_inputs_basic _ _); cbn [run_bind]; [|by eexists].
    unfold check_inputs. destruct (check_inputs_loop_total (transaction_id deposit_codec maintx) info
      coin_zero (zip (deposit_inputs maintx) (zip tins w))) as [[c|] ->]; cbn [run_bind]; [|by eexists].
    destruct (_ <=? _); by eexists. }
  destruct Htot as [[c|e] E]; rewrite E in *; cbn [run_bind].
  - assert (Hc : deposit_core_spec maintx w info tins c) by by apply (Hcore c).
    assert (Hu : ∀ c', deposit_core_spec maintx w info tins c' → c' = c).
    { intros c' Hc'. apply (Hcore c' Hin) in Hc'. congruence. }
    destruct (deposited maintx info maccount (c - min_fee_computed info)) as [a'|] eqn:Ed; simpl.
    + split.
      * intros fee a''. split.
        -- intros [= <- <-]. split; [done|]. exists c. by rewrite Ed.
        -- intros (-> & c' & ->%Hu & -> & _). by rewrite Ed.
      * split; [done|]. intros (c' & a & ->%Hu & -> & Hgt). simpl in Ed.
        apply deposit_spec in Ed. lia.
    + split.
      * intros fee a''. split; [done|]. intros (-> & c' & ->%Hu & -> & [? Hs]). congruence.
      * split; [|done]. intros _. destruct maccount as [a|]; [|done]. exists c, a. split_and!; [done | done |].
        simpl in Ed. destruct (Z.le_gt_cases (bonded a + (c - min_fee_computed info)) MAX_COIN) as [Hle|]; [|lia].
        by rewrite (proj2 (deposit_spec a _ _)) in Ed by done.
  - split.
    + intros fee a'. split; [done|]. intros (-> & c & Hc & _). by apply (Hcore c Hin) in Hc.
    + split; [done|]. intros (c & a & Hc & _). by apply (Hcore c Hin) in Hc.
Qed.

(** Unbonding is accepted exactly when the account is not jailed, the chain id,
    the address and the nonce match, and a non-zero amount and the minimum fee are
    within the bonded stake.  The amount moves to the unbonded stake, locked until
    the unbonding period after the previous block, and the fee leaves the account. *)
Theorem unbonding_accepts_iff maintx info a :
  staked_state_ok a → coin_ok (unbond_value maintx) → coin_ok (min_fee_computed info) →
  unbonded a + unbond_value maintx ≤ MAX_COIN →
  ((∃ r, verify_unbonding maintx info a = Some (Ok r)) ↔ unbonding_spec maintx info a)
  ∧ ∀ fee a', verify_unbonding maintx info a = Some (Ok (fee, a')) →
      fee = min_fee_computed info
      ∧ ∃ s, a' = Some s ∧ staked_state_ok s
        ∧ unbonded s = unbonded a + unbond_value maintx
        ∧ stake_total s = stake_total a - fee
        ∧ unbonded_from s = as_u64 (previous_block_time info + info_unbonding_period info)
        ∧ nonce s = as_u64 (nonce a + 1).
Proof.
  intros Ha Hv Hm Hmax.
  pose proof (verify_unbonding_ok maintx info a) as Hok.
  pose proof Ha as (Hn & Hb & Hu & ? & ? & ? & ?). split.
  - split.
    + intros [r Hr]. by apply (Hok r) in Hr as [? _].
    + intros Hs. assert (Hun : is_Some (unbond a (unbond_value maintx) (min_fee_computed info)
        (as_u64 (previous_block_time info + info_unbonding_period info)))).
      { eexists. apply unbond_spec; [done | done | ints |].
        destruct Hs as (_&_&_&_&_&?). split_and!; [reflexivity | lia | done]. }
      eexists. by apply Hok.
  - intros fee a' Hr. apply Hok in Hr as (_ & [= -> ->] & [s Hs]); [|done..]. simpl in Hs.
    split; [done|]. exists s. split; [done|].
    apply unbond_spec in Hs as (-> & ? & ?); [|done|done|ints].
    pose proof (as_u64_range (previous_block_time info + info_unbonding_period info)).
    split; [staked_ok|]. unfold stake_total. simpl. split_and!; lia.
Qed.

(** C14. Withdrawing is accepted with a fee exactly when the account is not jailed,
    the chain id and the nonce match, the unbonding time has passed, every output
    is positive and locked to that time, and the unbonded stake is the outputs plus
    the fee, which is at least the minimum.  The account it returns has no unbonded
    coins and the next nonce, and is otherwise the one before. *)
Theorem withdraw_accepts_iff `{Secp256k1} maintx info a fee a' :
  coin_ok (unbonded a) → Forall (λ o, coin_ok (out_value o)) (withdraw_outputs maintx) →
  coin_ok (min_fee_computed info) →
  verify_unbonded_withdraw maintx info a = Some (Ok (fee, a')) ↔
  withdraw_spec maintx info a fee
  ∧ a' = Some {| nonce := as_u64 (nonce a + 1); bonded := bonded a; unbonded := 0;
                 unbonded_from := unbonded_from a; address := address a;
                 punishment := punishment a; council_node := council_node a |}.
Proof.
  apply verify_unbonded_withdraw_ok.
Qed.

(** Unjailing is free and accepted exactly when the chain id, the nonce and the
    address match and the jail time of a jailed account has passed.  Joining as a
    council node is free and accepted exactly when the account is not jailed, the
    chain id, the nonce and the address match, the bonded stake reaches the minimum
    and neither the account nor the validator key is already in use. *)
Theorem unjail_and_join_accept_iff `{Hashes} unjail_tx join_tx info node_info a :
  (∀ r, verify_unjailing unjail_tx info a = Ok r ↔
     unjailing_spec unjail_tx info a ∧ r = (0, Some (unjail a)))
  ∧ (∀ r, verify_node_join join_tx info node_info a = Ok r ↔
     node_join_spec join_tx info node_info a ∧ r = (0, Some (join_node a (node_meta join_tx)))).
Proof. split; intros r; [apply verify_unjailing_ok | apply verify_node_join_ok]. Qed.

(** A staking transaction cannot be applied twice: on the account it leaves, the
    same unbonding, withdrawal, unjailing or node join is not accepted again. *)
Theorem staking_no_replay `{Hashes, Secp256k1} a a' info fee
    unbond_tx withdraw_tx unjail_tx join_tx node_info :
  is_u64 (nonce a) →
  verify_unbonding unbond_tx info a = Some (Ok (fee, Some a'))
  ∨ verify_unbonded_withdraw withdraw_tx info a = Some (Ok (fee, Some a'))
  ∨ verify_unjailing unjail_tx info a = Ok (fee, Some a')
  ∨ verify_node_join join_tx info node_info a = Ok (fee, Some a') →
  nonce a' = as_u64 (nonce a + 1) ∧ nonce a' ≠ nonce a
  ∧ ∀ info' node_info' r,
    (verify_unbonding unbond_tx info a = Some (Ok (fee, Some a')) →
       verify_unbonding unbond_tx info' a' ≠ Some (Ok r))
    ∧ (verify_unbonded_withdraw withdraw_tx info a = Some (Ok (fee, Some a')) →
       verify_unbonded_withdraw withdraw_tx info' a' ≠ Some (Ok r))
    ∧ (verify_unjailing unjail_tx info a = Ok (fee, Some a') →
       verify_unjailing unjail_tx info' a' ≠ Ok r)
    ∧ (verify_node_join join_tx info node_info a = Ok (fee, Some a') →
       verify_node_join join_tx info' node_info' a' ≠ Ok r).
Proof.
  intros Hn Hex. pose proof (nonce_advances _ Hn).
  assert (Hn' : nonce a' = as_u64 (nonce a + 1)).
  { destruct Hex as [E|[E|[E|E]]];
      [apply verify_unbonding_nonce in E|apply verify_unbonded_withdraw_nonce in E
      |apply verify_unjailing_nonce in E|apply verify_node_join_nonce in E]; destruct E; eauto. }
  split; [done|]. split; [congruence|]. intros info' node_info' [f r]. split_and!; intros E1 E2.
  - apply verify_unbonding_nonce in E1 as [? _], E2 as [? _]. congruence.
  - apply verify_unbonded_withdraw_nonce in E1 as [? _], E2 as [? _]. congruence.
  - apply verify_unjailing_nonce in E1 as [? _], E2 as [? _]. congruence.
  - apply verify_node_join_nonce in E1 as [? _], E2 as [? _]. congruence.
Qed.

(** C19. The witness of an output does not bind the signing key to the output's
    address: for any tree of keys, a path of one of its keys combined with any
    other key and that key's signature of the transaction is accepted for the
    tree's address. *)
Theorem witness_key_unbound `{Hashes, Secp256k1Laws} keys key txid pk sig :
  key ∈ keys → length txid = 32%nat → schnorr_verify txid sig pk = Ok () →
  ∃ mt proof,
    merkle_new keys = Some mt
    ∧ generate_proof mt key = Some (Some proof)
    ∧ verify_tx_address (TreeSig sig (MkProof (path proof) (pk_serialize pk))) txid
        (OrTree (root_hash mt)) = Some (Ok ()).
Proof.
  intros Hk Hlen Hsig.
  destruct (proof_for keys key Hk) as (mt & proof & Hn & Hg & _ & Hv).
  exists mt, proof. split; [done|]. split; [done|].
  unfold verify_tx_address, message_from_slice. rewrite Hlen. cbn [Nat.eqb run_bind].
  unfold proof_verify in Hv |- *. cbn [path value]. rewrite Hv. simpl.
  by rewrite pk_from_serialize, Hsig.
Qed.

(** ** Witnesses *)

Section witnesses.
#[local] Existing Instance Ref.hashes.
#[local] Existing Instance Ref.secp.
#[local] Existing Instance scale_ref.

Lemma transfer_accepts_iff_witness :
  verify_transfer Example.spend_tx Example.witness Example.info [Transfer Example.prev_tx]
    = Some (Ok 150)
  ∧ transfer_spec Example.spend_tx Example.witness Example.info [Transfer Example.prev_tx] 150.
Proof.
  assert (E : verify_transfer Example.spend_tx Example.witness Example.info
    [Transfer Example.prev_tx] = Some (Ok 150)) by (vm_compute; reflexivity).
  split; [exact E|].
  apply (transfer_accepts_iff Example.spend_tx Example.witness Example.info
    [Transfer Example.prev_tx] Example.outs_coin_ok Example.tins_ok Example.fee_ok).
  exact E.
Defined.

Lemma deposit_accepts_iff_witness :
  ∃ incoins, deposit_core_spec Example.deposit_tx Example.witness Example.info
               [Transfer Example.prev_tx] incoins
    ∧ Some (with_bonded (incr_nonce Example.account) 5900)
      = deposited Example.deposit_tx Example.info (Some Example.account) (incoins - 100).
Proof.
  assert (Hj : ∀ a, Some Example.account = Some a → is_jailed a = false) by by intros a [= <-].
  assert (E : verify_bonded_deposit Example.deposit_tx Example.witness Example.info
    [Transfer Example.prev_tx] (Some Example.account)
    = Some (Ok (100, Some (with_bonded (incr_nonce Example.account) 5900))))
    by (vm_compute; reflexivity).
  destruct (deposit_accepts_iff Example.deposit_tx Example.witness Example.info
    [Transfer Example.prev_tx] (Some Example.account) Example.tins_ok Example.fee_ok Hj) as [Hd _].
  apply Hd in E as (_ & c & Hc & Ha & _). exists c. split; [exact Hc | exact Ha].
Defined.

Lemma unbonding_accepts_iff_witness :
  ∃ s, verify_unbonding Example.unbond_tx Example.info Example.account = Some (Ok (100, Some s))
    ∧ unbonded s = 700 ∧ stake_total s = 4900 ∧ unbonded_from s = 1060.
Proof.
  destruct (unbonding_accepts_iff Example.unbond_tx Example.info Example.account
    Example.account_ok ltac:(simpl; ints) Example.fee_ok ltac:(vm_compute; discriminate)) as [_ Hr].
  eexists. assert (E : verify_unbonding Example.unbond_tx Example.info Example.account
    = Some (Ok (100, Some _))) by (vm_compute; reflexivity).
  split; [exact E|]. apply Hr in E as (_ & s & [= <-] & _ & H1 & H2 & H3 & _).
  split; [exact H1 | split; [exact H2 | exact H3]].
Defined.

Lemma withdraw_accepts_iff_witness :
  verify_unbonded_withdraw Example.withdraw_tx Example.info Example.unbonded_account
    = Some (Ok (1000, Some (withdraw Example.unbonded_account)))
  ∧ withdraw_spec Example.withdraw_tx Example.info Example.unbonded_account 1000.
Proof.
  assert (E : verify_unbonded_withdraw Example.withdraw_tx Example.info Example.unbonded_account
    = Some (Ok (1000, Some (withdraw Example.unbonded_account)))) by (vm_compute; reflexivity).
  split; [exact E|]. apply (withdraw_accepts_iff Example.withdraw_tx Example.info
    Example.unbonded_account 1000 (Some (withdraw Example.unbonded_account))) in E as [Hs _].
  - exact Hs.
  - simpl. ints.
  - apply Forall_singleton. simpl. ints.
  - exact Example.fee_ok.
Defined.

Lemma staking_no_replay_witness :
  verify_unbonding Example.unbond_tx Example.info
    (with_unbonded (with_bonded (with_unbonded_from (incr_nonce Example.account) 1060) 4200) 700)
  ≠ Some (Ok (100, None)).
Proof.
  assert (E : verify_unbonding Example.unbond_tx Example.info Example.account = Some (Ok (100, Some
    (with_unbonded (with_bonded (with_unbonded_from (incr_nonce Example.account) 1060) 4200) 700))))
    by (vm_compute; reflexivity).
  destruct (staking_no_replay Example.account _ Example.info 100 Example.unbond_tx Example.withdraw_tx
    Example.unjail_tx Example.join_tx Example.node_info ltac:(simpl; ints) (or_introl E))
    as (_ & _ & Hr).
  exact (proj1 (Hr Example.info Example.node_info (100, None)) E).
Defined.

Lemma witness_key_unbound_witness :
  ∃ mt proof, merkle_new Example.keys = Some mt
    ∧ generate_proof mt (Ref.padded 32 Byte.x08) = Some (Some proof)
    ∧ verify_tx_address (TreeSig (Byte.xff : SchnorrSignature)
          (MkProof (path proof) (pk_serialize (Byte.xff : PublicKey))))
        (transaction_id tx_codec Example.spend_tx) (OrTree (root_hash mt)) = Some (Ok ()).
Proof.
  apply (@witness_key_unbound Ref.hashes Ref.secp Ref.secp_laws Example.keys
    (Ref.padded 32 Byte.x08) _ Byte.xff Byte.xff).
  - by right; left.
  - vm_compute. reflexivity.
  - vm_compute. reflexivity.
Defined.
End witnesses.
