(* ===== verification/BitVec.v ===== *)
(** * BitVec: the bit vectors of the [bit-vec] crate as an interface

    Bloom filters, spent-output records and liveness trackers are bit vectors.
    [BitVecLib] has the operations of the crate the chain uses; its laws describe
    them on the list of bits, as the crate documents them: [from_bytes] and
    [to_bytes] use the most significant bit of each byte first, [to_bytes] fills
    the last byte with zeros, [set], [union] and [intersect] panic on an index or
    a length out of range.  The instance [bit_vec_ref] keeps the list itself. *)

From stdpp Require Import base tactics option list.
From Stdlib Require Import ZArith Lia.
From S2P Require Import Prelude.

(** ** Bits and bytes *)

Definition bits_of_bytes (bs : list byte) : list bool := concat (byte_bits <$> bs).

Definition bit_value (b : bool) (i : Z) : Z := if b then Z.shiftl 1 i else 0.

(** The byte of eight bits, the most significant first; missing bits are zero. *)
Fixpoint byte_of_bits_from (i : nat) (l : list bool) : Z :=
  match i, l with
  | O, _ => 0
  | S i, [] => 0
  | S i, b :: l => bit_value b (Z.of_nat i) + byte_of_bits_from i l
  end.
Definition byte_of_bits (l : list bool) : byte := byte_of_Z (byte_of_bits_from 8 l).

Fixpoint bytes_of_bits_fuel (fuel : nat) (l : list bool) : list byte :=
  match fuel, l with
  | O, _ => []
  | S _, [] => []
  | S fuel, _ :: _ => byte_of_bits (take 8 l) :: bytes_of_bits_fuel fuel (drop 8 l)
  end.
Definition bytes_of_bits (l : list bool) : list byte := bytes_of_bits_fuel (length l) l.

Lemma length_byte_bits b : length (byte_bits b) = 8%nat.
Proof. done. Qed.

Lemma length_bits_of_bytes bs : length (bits_of_bytes bs) = (8 * length bs)%nat.
Proof.
  unfold bits_of_bytes. induction bs as [|b bs IH]; [done|]. rewrite fmap_cons.
  cbn [concat length]. rewrite length_app, IH, length_byte_bits. lia.
Qed.

Lemma byte_of_byte_bits b : byte_of_bits (byte_bits b) = b.
Proof. by destruct b. Qed.

(** The bits of the byte of up to eight bits. *)
Lemma byte_bits_of_bits l :
  (length l ≤ 8)%nat → byte_bits (byte_of_bits l) = l ++ replicate (8 - length l) false.
Proof.
  destruct l as [|b1 [|b2 [|b3 [|b4 [|b5 [|b6 [|b7 [|b8 [|]]]]]]]]]; simpl; intros; try lia;
    repeat match goal with b : bool |- _ => destruct b end; reflexivity.
Qed.

Lemma bytes_of_bits_fuel_spec fuel l :
  (length l ≤ fuel)%nat →
  ∃ k, (k < 8)%nat ∧ bits_of_bytes (bytes_of_bits_fuel fuel l) = l ++ replicate k false
       ∧ (length l + k)%nat = (8 * length (bytes_of_bits_fuel fuel l))%nat.
Proof.
  revert l. induction fuel as [|fuel IH]; intros l Hl.
  { destruct l; simpl in Hl; [|lia]. exists 0%nat. split_and!; [lia | done | done]. }
  destruct l as [|b l]; [exists 0%nat; split_and!; [lia | done | done]|]. cbn [bytes_of_bits_fuel].
  set (m := b :: l) in *. assert (Hm : (1 ≤ length m)%nat) by (simpl; lia).
  destruct (decide (length m ≤ 8)%nat) as [Hle|Hgt].
  - rewrite (drop_ge m 8), (take_ge m 8) by lia.
    replace (bytes_of_bits_fuel fuel []) with (@nil byte) by by destruct fuel.
    exists (8 - length m)%nat. split_and!; [lia | | change (length [byte_of_bits m]) with 1%nat; lia].
    change (bits_of_bytes [byte_of_bits m]) with (byte_bits (byte_of_bits m) ++ []).
    rewrite app_nil_r. by apply byte_bits_of_bits.
  - destruct (IH (drop 8 m)) as (k & Hk & Hb & Hlen); [rewrite length_drop; lia|].
    exists k. split; [done|].
    assert (Ht : length (take 8 m) = 8%nat) by (rewrite length_take; lia). split.
    + change (bits_of_bytes (byte_of_bits (take 8 m) :: bytes_of_bits_fuel fuel (drop 8 m)))
        with (byte_bits (byte_of_bits (take 8 m)) ++ bits_of_bytes (bytes_of_bits_fuel fuel (drop 8 m))).
      rewrite Hb, byte_bits_of_bits by lia. rewrite Ht, Nat.sub_diag. simpl (replicate 0 _).
      by rewrite app_nil_r, app_assoc, take_drop.
    + cbn [length]. rewrite length_drop in Hlen. lia.
Qed.

Lemma bits_of_bytes_of_bits l :
  ∃ k, (k < 8)%nat ∧ bits_of_bytes (bytes_of_bits l) = l ++ replicate k false
       ∧ (length l + k)%nat = (8 * length (bytes_of_bits l))%nat.
Proof. by apply bytes_of_bits_fuel_spec. Qed.

Lemma bytes_of_bits_of_bytes bs : bytes_of_bits (bits_of_bytes bs) = bs.
Proof.
  unfold bytes_of_bits. rewrite length_bits_of_bytes.
  assert (Hf : ∀ fuel, (length bs ≤ fuel)%nat → bytes_of_bits_fuel fuel (bits_of_bytes bs) = bs).
  { induction bs as [|b bs IH]; intros fuel Hf; [by destruct fuel|].
    destruct fuel as [|fuel]; [simpl in Hf; lia|].
    change (bits_of_bytes (b :: bs)) with (byte_bits b ++ bits_of_bytes bs).
    cbn [bytes_of_bits_fuel]. rewrite (take_app_length' (byte_bits b)), (drop_app_length' (byte_bits b)) by done.
    destruct (byte_bits b ++ bits_of_bytes bs) eqn:E; [done|].
    rewrite byte_of_byte_bits, IH; [done | simpl in Hf; lia]. }
  apply Hf. lia.
Qed.

(** ** The interface *)

Class BitVecLib := {
  BitVec : Type;
  bits : BitVec → list bool;
  bv_from_elem : nat → bool → BitVec;
  bv_from_bytes : list byte → BitVec;
  bv_to_bytes : BitVec → list byte;
  bv_set : BitVec → nat → bool → option BitVec;
  bv_union : BitVec → BitVec → option BitVec;
  bv_intersect : BitVec → BitVec → option BitVec;
  bv_clear : BitVec → BitVec;
  bv_truncate : BitVec → nat → BitVec;
  bv_eqb : BitVec → BitVec → bool;
}.

Definition bv_len `{BitVecLib} (v : BitVec) : nat := length (bits v).
Definition bv_get `{BitVecLib} (v : BitVec) (i : nat) : option bool := bits v !! i.

Class BitVecLaws `{BitVecLib} : Prop := {
  bits_inj v w : bits v = bits w → v = w;
  bits_from_elem n b : bits (bv_from_elem n b) = replicate n b;
  bits_from_bytes bs : bits (bv_from_bytes bs) = bits_of_bytes bs;
  to_bytes_bits v : bv_to_bytes v = bytes_of_bits (bits v);
  bits_set v i b : bits <$> bv_set v i b
    = if decide (i < bv_len v)%nat then Some (<[i := b]> (bits v)) else None;
  bits_union v w : bits <$> bv_union v w
    = if decide (bv_len v = bv_len w) then Some (zip_with orb (bits v) (bits w)) else None;
  bits_intersect v w : bits <$> bv_intersect v w
    = if decide (bv_len v = bv_len w) then Some (zip_with andb (bits v) (bits w)) else None;
  bits_clear v : bits (bv_clear v) = replicate (bv_len v) false;
  bits_truncate v n : bits (bv_truncate v n) = take n (bits v);
  bits_eqb v w : bv_eqb v w = bool_decide (bits v = bits w);
}.

Definition bit_vec_ref : BitVecLib := {|
  BitVec := list bool; bits := Datatypes.id;
  bv_from_elem := replicate; bv_from_bytes := bits_of_bytes; bv_to_bytes := bytes_of_bits;
  bv_set := λ v i b, if decide (i < length v)%nat then Some (<[i := b]> v) else None;
  bv_union := λ v w, if decide (length v = length w) then Some (zip_with orb v w) else None;
  bv_intersect := λ v w, if decide (length v = length w) then Some (zip_with andb v w) else None;
  bv_clear := λ v, replicate (length v) false;
  bv_truncate := λ v n, take n v;
  bv_eqb := λ v w, bool_decide (v = w);
|}.

Lemma bit_vec_ref_laws : @BitVecLaws bit_vec_ref.
Proof. split; intros; simpl; unfold bv_len; simpl; try case_decide; done. Qed.

Section bit_vec.
Context `{BitVecLaws}.

(** What an operation that does not panic returns, on its bits. *)
Lemma bv_set_Some v i b :
  (i < bv_len v)%nat → ∃ w, bv_set v i b = Some w ∧ bits w = <[i := b]> (bits v).
Proof.
  intros Hi. pose proof (bits_set v i b) as Hs. rewrite decide_True in Hs by done.
  apply fmap_Some in Hs as (w & -> & Hw). by exists w.
Qed.

Lemma bv_union_Some v w :
  bv_len v = bv_len w → ∃ u, bv_union v w = Some u ∧ bits u = zip_with orb (bits v) (bits w).
Proof.
  intros Hi. pose proof (bits_union v w) as Hs. rewrite decide_True in Hs by done.
  apply fmap_Some in Hs as (u & -> & Hu). by exists u.
Qed.

Lemma bv_intersect_Some v w :
  bv_len v = bv_len w → ∃ u, bv_intersect v w = Some u ∧ bits u = zip_with andb (bits v) (bits w).
Proof.
  intros Hi. pose proof (bits_intersect v w) as Hs. rewrite decide_True in Hs by done.
  apply fmap_Some in Hs as (u & -> & Hu). by exists u.
Qed.

(** Bytes of a whole number of bytes of bits give the vector back. *)
Lemma from_to_bytes v n : bv_len v = (8 * n)%nat → bv_from_bytes (bv_to_bytes v) = v.
Proof.
  intros Hn. apply bits_inj. rewrite bits_from_bytes, to_bytes_bits.
  destruct (bits_of_bytes_of_bits (bits v)) as (k & Hk & -> & Hlen).
  unfold bv_len in Hn. replace k with 0%nat by lia. apply app_nil_r.
Qed.

(** With the length kept apart, any vector comes back. *)
Lemma truncate_from_to_bytes v : bv_truncate (bv_from_bytes (bv_to_bytes v)) (bv_len v) = v.
Proof.
  apply bits_inj. rewrite bits_truncate, bits_from_bytes, to_bytes_bits.
  destruct (bits_of_bytes_of_bits (bits v)) as (k & _ & -> & _). unfold bv_len. by rewrite take_app_length.
Qed.
End bit_vec.
