(* ===== verification/Events.v ===== *)
(** * Events: the Tendermint events of the application

    Models the event types and keys of [src/chain-core/src/common/mod.rs].  An
    event is its type and its attributes, keys with values as byte strings. *)

From stdpp Require Import base tactics option list strings.
From Stdlib Require Import ZArith Lia.
From S2P Require Import Prelude Text.

Inductive TendermintEventType :=
  | ValidTransactions
  | BlockFilterEvent
  | JailValidators
  | SlashValidators
  | RewardsDistribution.

#[global] Instance TendermintEventType_eq_dec : EqDecision TendermintEventType.
Proof. solve_decision. Defined.

Definition event_type_to_string (t : TendermintEventType) : str :=
  match t with
  | ValidTransactions => bstr "valid_txs"
  | BlockFilterEvent => bstr "block_filter"
  | JailValidators => bstr "jail_validators"
  | SlashValidators => bstr "slash_validators"
  | RewardsDistribution => bstr "rewards_distribution"
  end.

Inductive TendermintEventKey :=
  | AccountKey
  | FeeKey
  | TxIdKey
  | EthBloomKey
  | RewardsDistributionKey
  | CoinMintedKey.

#[global] Instance TendermintEventKey_eq_dec : EqDecision TendermintEventKey.
Proof. solve_decision. Defined.

Definition event_key_to_vec (k : TendermintEventKey) : list byte :=
  match k with
  | AccountKey => bstr "account"
  | FeeKey => bstr "fee"
  | TxIdKey => bstr "txid"
  | EthBloomKey => bstr "ethbloom"
  | RewardsDistributionKey => bstr "dist"
  | CoinMintedKey => bstr "minted"
  end.

Record KVPair := { kv_key : list byte; kv_value : list byte }.
Record Event := { field_type : str; event_attributes : list KVPair }.

(** The keys of the attributes tell the kinds of attribute apart. *)
Lemma event_key_to_vec_inj j k : event_key_to_vec j = event_key_to_vec k → j = k.
Proof. by destruct j, k. Qed.
