(* ===== verification/Filter.v ===== *)
(** * Filter: the Bloom filter of view keys

    Models [src/chain-tx-filter/src/filter.rs] and [src/chain-tx-filter/src/lib.rs].
    The unions and intersections of the source panic on vectors of different
    lengths; every filter has 2048 bits ([bloom_ok]). *)

From stdpp Require Import base tactics option list strings.
From Stdlib Require Import ZArith Lia.
From S2P Require Import Prelude Text Codec Crypto BitVec Events.

Section filter.
Context `{Hashes, Secp256k1, BitVecLib}.

Definition BLOOM_BYTES : nat := 256.

Record Bloom := MkBloom { bloom_bits : BitVec }.

Definition bloom_default : Bloom := MkBloom (bv_from_elem 2048 false).

Definition bloom_try_from (v : list byte) : result str Bloom :=
  if negb (length v =? 256)%nat
  then Err (bstr "Invalid length, ethbloom is expected to be 256-bytes")
  else Ok (MkBloom (bv_from_bytes v)).

Definition bloom_from (v : list byte) : Bloom := MkBloom (bv_from_bytes v).

(** The position chosen by bytes [i] and [i + 1] of the hash. *)
Definition bloom_index (h : H256) (i : nat) : Z :=
  let hi := byte_to_Z (nth i h Byte.x00) in
  let lo := byte_to_Z (nth (i + 1) h Byte.x00) in
  (Z.shiftl hi 8 + lo) mod 2048.

(** [r\[m / 8\] |= 1 << (m % 8)]. *)
Definition set_bit (r : list byte) (m : Z) : list byte :=
  let k := Z.to_nat (m / 8) in
  <[k := byte_of_Z (Z.lor (byte_to_Z (nth k r Byte.x00)) (Z.shiftl 1 (m mod 8)))]> r.

Definition single_set (arr : list byte) : BitVec :=
  let h := keccak256 arr in
  let r := foldl (λ r i, set_bit r (bloom_index h i)) (replicate BLOOM_BYTES Byte.x00)
             [0%nat; 2%nat; 4%nat] in
  bv_from_bytes r.

Definition bloom_reset (self : Bloom) : Bloom := MkBloom (bv_clear (bloom_bits self)).

Definition bloom_add (self other : Bloom) : option Bloom :=
  MkBloom <$> bv_union (bloom_bits self) (bloom_bits other).

Definition bloom_set (self : Bloom) (arr : list byte) : option Bloom :=
  MkBloom <$> bv_union (bloom_bits self) (single_set arr).

Definition bloom_check (self : Bloom) (arr : list byte) : option bool :=
  let s1 := single_set arr in
  s2 ← bv_intersect s1 (bloom_bits self);
  Some (bv_eqb s2 s1).

(** [copy_from_slice] panics unless there are 256 bytes. *)
Definition bloom_raw_data (self : Bloom) : option (list byte) :=
  let bytes := bv_to_bytes (bloom_bits self) in
  if (length bytes =? 256)%nat then Some bytes else None.

Definition bloom_data (self : Bloom) : list byte := bv_to_bytes (bloom_bits self).

(** ** Block filters *)

Record BlockFilter := { bloom : Bloom; modified : bool }.

Definition filter_default : BlockFilter := {| bloom := bloom_default; modified := false |}.

Definition filter_reset (self : BlockFilter) : BlockFilter :=
  {| bloom := bloom_reset (bloom self); modified := false |}.

Definition add_filter (self other : BlockFilter) : option BlockFilter :=
  b ← bloom_add (bloom self) (bloom other);
  Some {| bloom := b; modified := true |}.

Definition add_view_key (self : BlockFilter) (view_key : PublicKey) : option BlockFilter :=
  b ← bloom_set (bloom self) (pk_serialize view_key);
  Some {| bloom := b; modified := true |}.

Definition get_tendermint_kv (self : BlockFilter) : str * list byte :=
  (event_key_to_vec EthBloomKey, bloom_data (bloom self)).

Definition check_view_key (self : BlockFilter) (view_key : PublicKey) : option bool :=
  bloom_check (bloom self) (pk_serialize view_key).

Definition is_modified (self : BlockFilter) : bool := modified self.

Definition get_raw (self : BlockFilter) : option (list byte) := bloom_raw_data (bloom self).

Definition filter_try_from (v : list byte) : result str BlockFilter :=
  b ← bloom_try_from v;
  Ok {| bloom := b; modified := false |}.

Definition filter_from (v : list byte) : BlockFilter :=
  {| bloom := bloom_from v; modified := false |}.

(** ** Lemmas *)

Context `{!BitVecLaws}.

Definition bloom_ok (b : Bloom) : Prop := bv_len (bloom_bits b) = 2048%nat.
Definition filter_ok (f : BlockFilter) : Prop := bloom_ok (bloom f).

(** Every bit of the key is a bit of the filter. *)
Definition covers (v w : list bool) : Prop :=
  ∀ i, w !! i = Some true → v !! i = Some true.

Lemma length_set_bit r m : length (set_bit r m) = length r.
Proof. apply length_insert. Qed.

Lemma single_set_len arr : bv_len (single_set arr) = 2048%nat.
Proof.
  unfold bv_len, single_set. rewrite bits_from_bytes, length_bits_of_bytes. cbn [foldl].
  by rewrite !length_set_bit, length_replicate.
Qed.

Lemma covers_zip_or_l v w : length v = length w → covers (zip_with orb v w) v.
Proof.
  intros Hl i Hi. rewrite lookup_zip_with, Hi. simpl.
  assert (is_Some (w !! i)) as [b ->]; [|done].
  apply lookup_lt_is_Some. rewrite <- Hl. by apply lookup_lt_Some in Hi.
Qed.

Lemma covers_zip_or_r v w : length v = length w → covers (zip_with orb v w) w.
Proof.
  intros Hl i Hi. rewrite lookup_zip_with, Hi.
  assert (is_Some (v !! i)) as [b ->].
  { apply lookup_lt_is_Some. rewrite Hl. by apply lookup_lt_Some in Hi. }
  simpl. by rewrite orb_true_r.
Qed.

Lemma covers_trans u v w : covers u v → covers v w → covers u w.
Proof. unfold covers. auto. Qed.

Lemma zip_and_covers v w :
  length v = length w → zip_with andb v w = v ↔ covers w v.
Proof.
  revert w. induction v as [|a v IH]; intros [|b w] Hl; simplify_eq/=.
  { split; [intros _ i Hi; by rewrite lookup_nil in Hi | done]. }
  split.
  - intros E. injection E as Ea Ev. intros [|i] Hi; simpl in *.
    + injection Hi as ->. by destruct b.
    + by apply IH in Ev; [apply Ev|].
  - intros Hc. f_equal.
    + destruct a; [|done]. specialize (Hc 0%nat eq_refl). simpl in Hc. by injection Hc as ->.
    + apply IH; [done|]. intros i Hi. exact (Hc (S i) Hi).
Qed.

Lemma bloom_check_spec b arr :
  bloom_ok b →
  bloom_check b arr = Some (bool_decide (zip_with andb (bits (single_set arr)) (bits (bloom_bits b))
                                         = bits (single_set arr))).
Proof.
  intros Hb. unfold bloom_check.
  destruct (bv_intersect_Some (single_set arr) (bloom_bits b)) as (u & -> & Hu).
  { by rewrite single_set_len, Hb. }
  simpl. by rewrite bits_eqb, Hu.
Qed.

Lemma bloom_check_covers b arr :
  bloom_ok b → bloom_check b arr = Some true ↔ covers (bits (bloom_bits b)) (bits (single_set arr)).
Proof.
  intros Hb. rewrite bloom_check_spec by done.
  rewrite <- zip_and_covers; [|by rewrite (single_set_len arr : length _ = _), (Hb : length _ = _)].
  case_bool_decide; naive_solver.
Qed.

Lemma bloom_add_spec b c :
  bloom_ok b → bloom_ok c →
  ∃ d, bloom_add b c = Some d ∧ bloom_ok d
       ∧ covers (bits (bloom_bits d)) (bits (bloom_bits b))
       ∧ covers (bits (bloom_bits d)) (bits (bloom_bits c)).
Proof.
  intros Hb Hc. unfold bloom_add.
  destruct (bv_union_Some (bloom_bits b) (bloom_bits c)) as (u & -> & Hu); [by rewrite Hb, Hc|].
  assert (Hl : length (bits (bloom_bits b)) = length (bits (bloom_bits c)))
    by by rewrite (Hb : length _ = _), (Hc : length _ = _).
  exists (MkBloom u). split; [done|]. unfold bloom_ok, bv_len. simpl. rewrite Hu. split.
  - rewrite length_zip_with, <- Hl, Nat.min_id. exact Hb.
  - split; [by apply covers_zip_or_l | by apply covers_zip_or_r].
Qed.

Lemma bloom_set_spec b arr :
  bloom_ok b →
  ∃ d, bloom_set b arr = Some d ∧ bloom_ok d
       ∧ covers (bits (bloom_bits d)) (bits (bloom_bits b))
       ∧ covers (bits (bloom_bits d)) (bits (single_set arr)).
Proof.
  intros Hb. exact (bloom_add_spec b (MkBloom (single_set arr)) Hb (single_set_len arr)).
Qed.

Lemma bloom_default_ok : bloom_ok bloom_default.
Proof. unfold bloom_ok, bv_len. simpl. by rewrite bits_from_elem, length_replicate. Qed.

Lemma bloom_raw_roundtrip b :
  bloom_ok b → ∃ raw, bloom_raw_data b = Some raw ∧ length raw = 256%nat
    ∧ bloom_from raw = b ∧ bloom_try_from raw = Ok b.
Proof.
  intros Hb. destruct b as [v]. unfold bloom_ok in Hb. simpl in Hb.
  assert (Hl : length (bv_to_bytes v) = 256%nat).
  { rewrite to_bytes_bits. destruct (bits_of_bytes_of_bits (bits v)) as (k & ? & _ & Hlen).
    unfold bv_len in Hb. lia. }
  exists (bv_to_bytes v). unfold bloom_raw_data, bloom_try_from, bloom_from. simpl.
  rewrite Hl, (from_to_bytes v 256) by done. done.
Qed.
End filter.

(** ** Properties *)

Section operations.
Context `{Hashes, Secp256k1, BitVecLib}.

(** What happens to a filter between its creation and its use: keys are added, it
    is joined with another filter, it is sent as bytes and read back. *)
Inductive FilterOp :=
  | AddKey (k : PublicKey)
  | Join (other : BlockFilter)
  | Wire.

Definition filter_step (f : BlockFilter) (op : FilterOp) : option BlockFilter :=
  match op with
  | AddKey k => add_view_key f k
  | Join other => add_filter f other
  | Wire => filter_from <$> get_raw f
  end.

Fixpoint filter_run (f : BlockFilter) (ops : list FilterOp) : option BlockFilter :=
  match ops with
  | [] => Some f
  | op :: ops => f' ← filter_step f op; filter_run f' ops
  end.

Definition op_ok (op : FilterOp) : Prop :=
  match op with Join other => filter_ok other | _ => True end.

(** The keys an operation brings into a filter. *)
Definition op_adds (op : FilterOp) (k : PublicKey) : Prop :=
  match op with
  | AddKey k' => k = k'
  | Join other => check_view_key other k = Some true
  | Wire => False
  end.

Context `{!BitVecLaws}.

Lemma filter_step_spec f op :
  filter_ok f → op_ok op →
  ∃ f', filter_step f op = Some f' ∧ filter_ok f'
    ∧ ∀ k, check_view_key f k = Some true ∨ op_adds op k → check_view_key f' k = Some true.
Proof.
  intros Hf Ho. destruct op as [k'|other|]; simpl in *.
  - destruct (bloom_set_spec (bloom f) (pk_serialize k') Hf) as (d & Hd & Hok & Hc1 & Hc2).
    unfold add_view_key. rewrite Hd. eexists. split; [done|]. split; [done|].
    intros k. unfold check_view_key. simpl. rewrite !bloom_check_covers by done.
    intros [Hk| ->]; [exact (covers_trans _ _ _ Hc1 Hk) | done].
  - destruct (bloom_add_spec (bloom f) (bloom other) Hf Ho) as (d & Hd & Hok & Hc1 & Hc2).
    unfold add_filter. rewrite Hd. eexists. split; [done|]. split; [done|].
    intros k. unfold check_view_key. simpl. rewrite !bloom_check_covers by done.
    intros [Hk|Hk]; [exact (covers_trans _ _ _ Hc1 Hk) | exact (covers_trans _ _ _ Hc2 Hk)].
  - destruct (bloom_raw_roundtrip (bloom f) Hf) as (raw & Hr & _ & Hb & _).
    unfold get_raw. rewrite Hr. simpl. eexists. split; [done|].
    unfold filter_from. rewrite Hb. split; [done|]. intros k [Hk|[]]. exact Hk.
Qed.
End operations.

(** The filter has no false negatives: however keys are added, filters joined
    and filters sent as bytes and read back, no step panics and every key that was
    added to the filter or to one joined into it is reported as possibly present. *)
Theorem filter_no_false_negatives `{Hashes, Secp256k1, BitVecLaws} f ops :
  filter_ok f → Forall op_ok ops →
  ∃ f', filter_run f ops = Some f' ∧ filter_ok f'
    ∧ ∀ k, check_view_key f k = Some true ∨ (∃ op, op ∈ ops ∧ op_adds op k) →
           check_view_key f' k = Some true.
Proof.
  intros Hf Ho. revert f Hf. induction Ho as [|op ops Hop Ho IH]; intros f Hf; simpl.
  { exists f. split; [done|]. split; [done|]. intros k [Hk|(op & Hin & _)]; [done|].
    by apply not_elem_of_nil in Hin. }
  destruct (filter_step_spec f op Hf Hop) as (f1 & -> & Hf1 & Hk1). simpl.
  destruct (IH f1 Hf1) as (f' & -> & Hf' & Hk'). exists f'. split; [done|]. split; [done|].
  intros k [Hk|(op' & [->|Hin]%elem_of_cons & Ha)]; apply Hk'; eauto.
Qed.

Lemma filter_no_false_negatives_witness :
  let H := Ref.hashes in let S := Ref.secp in let B := bit_vec_ref in
  ∃ f', filter_run filter_default [AddKey (Byte.x05 : PublicKey); Wire; AddKey (Byte.x06 : PublicKey)]
          = Some f'
    ∧ check_view_key f' (Byte.x05 : PublicKey) = Some true.
Proof.
  destruct (@filter_no_false_negatives Ref.hashes Ref.secp bit_vec_ref bit_vec_ref_laws
    (@filter_default bit_vec_ref) [AddKey (Byte.x05 : @PublicKey Ref.secp); Wire;
      AddKey (Byte.x06 : @PublicKey Ref.secp)])
    as (f' & Hr & _ & Hk).
  - exact (@bloom_default_ok bit_vec_ref bit_vec_ref_laws).
  - repeat constructor.
  - exists f'. split; [exact Hr|]. apply Hk. right. eexists. split; [by left | done].
Defined.
