(* ===== verification/Punishment.v ===== *)
(** * Punishment: liveness trackers and slashing schedules

    Models [src/chain-abci/src/liveness.rs], [src/chain-abci/src/slashing.rs] and
    [src/chain-abci/src/punishment.rs].  The tracker is a ring buffer of the last
    blocks of the signing window. *)

From stdpp Require Import base tactics option list gmap.
From Stdlib Require Import ZArith Lia.
From S2P Require Import Prelude Text Codec Milli Coin Crypto BitVec Params Account.

Section punishment.
Context `{BitVecLib}.

(** ** Liveness *)

Record LivenessTracker := MkTracker { liveness : BitVec }.

Definition liveness_new (window : Z) : LivenessTracker :=
  MkTracker (bv_from_elem (Z.to_nat window) true).

(** The index is a remainder: an empty tracker panics on a division by zero. *)
Definition liveness_update (self : LivenessTracker) (block_height : Z) (signed : bool) :
  option LivenessTracker :=
  let window := Z.of_nat (bv_len (liveness self)) in
  update_index ← (if window =? 0 then None
                  else Some (as_u64 (as_u64 block_height - 1) mod window));
  MkTracker <$> bv_set (liveness self) (Z.to_nat update_index) signed.

Definition is_live (self : LivenessTracker) (missed_block_threshold : Z) : bool :=
  let zero_count := Z.of_nat (length (filter (λ x, x = false) (bits (liveness self)))) in
  zero_count <? missed_block_threshold.

Definition liveness_codec `{Scale} : codec LivenessTracker :=
  Codec (λ t, enc u16_codec (as_u16 (Z.of_nat (bv_len (liveness t))))
              ++ enc bytes_codec (bv_to_bytes (liveness t)))
    (length ⇐ dec u16_codec;
     bytes ⇐ dec bytes_codec;
     dret (MkTracker (bv_truncate (bv_from_bytes bytes) (Z.to_nat length)))).

(** ** Slashing schedules *)

Record SlashingSchedule := {
  slash_ratio : SlashRatio;
  slashing_time : Timespec;
  punishment_kind : PunishmentKind;
}.

Definition update_slash_ratio (self : SlashingSchedule) (new_ratio : SlashRatio)
    (k : PunishmentKind) : SlashingSchedule :=
  if slash_ratio self <? new_ratio then
    {| slash_ratio := new_ratio; slashing_time := slashing_time self; punishment_kind := k |}
  else self.

Definition can_slash (self : SlashingSchedule) (current_time : Timespec) : bool :=
  slashing_time self <=? current_time.

(** The trackers and the queue of the accounts to be slashed. *)
Record ValidatorPunishment := {
  validator_liveness : gmap (list byte) LivenessTracker;
  slashing_schedule : gmap StakedStateAddress SlashingSchedule;
}.

(** ** The ring buffer *)

Definition rotate (s : nat) (l : list bool) : list bool := drop s l ++ take s l.

(** The last [w] elements of a list. *)
Definition last_n (w : nat) (l : list bool) : list bool := drop (length l - w) l.

Lemma rotate_step s b (l : list bool) :
  (s < length l)%nat →
  rotate (if decide (S s = length l) then 0%nat else S s) (<[s := b]> l) = tail (rotate s l) ++ [b].
Proof.
  intros Hs. destruct (nth_split l true Hs) as (l1 & l2 & El & Hl1).
  remember (nth s l true) as x eqn:Ex. clear Ex. subst l. subst s.
  rewrite insert_app_r_alt by lia. rewrite Nat.sub_diag. simpl (<[0%nat:=b]> _).
  unfold rotate. rewrite drop_app_length, take_app_length. simpl (tail _).
  rewrite length_app. simpl (length (x :: l2)). case_decide as Hd.
  - assert (l2 = []) as -> by (destruct l2; simpl in *; [done | lia]).
    simpl. by rewrite drop_0, app_nil_r.
  - rewrite (cons_middle b l1 l2), app_assoc.
    replace (S (length l1)) with (length (l1 ++ [b])) by (rewrite length_app; simpl; lia).
    rewrite drop_app_length, take_app_length. by rewrite app_assoc.
Qed.

Lemma last_n_snoc w b l :
  (w ≤ length l)%nat → (0 < w)%nat → last_n w (l ++ [b]) = tail (last_n w l) ++ [b].
Proof.
  intros Hw Hp. unfold last_n. rewrite length_app. simpl (length [b]).
  rewrite drop_app_le by lia.
  destruct (drop (length l - w) l) as [|x m] eqn:E.
  { apply (f_equal length) in E. rewrite length_drop in E. simpl in E. lia. }
  replace (length l + 1 - w)%nat with (length l - w + 1)%nat by lia.
  by rewrite <- drop_drop, E.
Qed.

Context `{!BitVecLaws}.

(** The trackers of consecutive blocks from height [h]. *)
Fixpoint updates (t : LivenessTracker) (h : Z) (signed : list bool) : option LivenessTracker :=
  match signed with
  | [] => Some t
  | b :: signed => t' ← liveness_update t h b; updates t' (h + 1) signed
  end.

Definition next_index (w : nat) (h : Z) : nat := Z.to_nat ((h - 1) mod Z.of_nat w).

Lemma next_index_step w h :
  (0 < w)%nat →
  next_index w (h + 1)
  = (if decide (S (next_index w h) = w) then 0 else S (next_index w h))%nat.
Proof.
  intros Hw. unfold next_index.
  pose proof (Z.mod_pos_bound (h - 1) (Z.of_nat w) ltac:(lia)) as Hb.
  replace (h + 1 - 1) with (h - 1 + 1) by lia.
  rewrite <- Z.add_mod_idemp_l by lia. case_decide as Hd.
  - replace ((h - 1) mod Z.of_nat w + 1) with (Z.of_nat w) by lia. by rewrite Z.mod_same by lia.
  - rewrite Z.mod_small; lia.
Qed.

Lemma liveness_update_spec t h b :
  (0 < bv_len (liveness t))%nat → 1 ≤ h ≤ I64_MAX →
  ∃ t', liveness_update t h b = Some t'
    ∧ bits (liveness t') = <[next_index (bv_len (liveness t)) h := b]> (bits (liveness t)).
Proof.
  intros Hw Hh. unfold liveness_update.
  destruct (Z.eqb_spec (Z.of_nat (bv_len (liveness t))) 0); [lia|]. simpl.
  rewrite (as_u64_small h), as_u64_small by ints. fold (next_index (bv_len (liveness t)) h).
  destruct (bv_set_Some (liveness t) (next_index (bv_len (liveness t)) h) b) as (v & -> & Hv).
  { unfold next_index. pose proof (Z.mod_pos_bound (h - 1) (Z.of_nat (bv_len (liveness t)))). lia. }
  simpl. by eexists.
Qed.

Lemma updates_spec w h signed t hist :
  (0 < w)%nat → 1 ≤ h → h + Z.of_nat (length signed) ≤ I64_MAX →
  bv_len (liveness t) = w → (w ≤ length hist)%nat →
  rotate (next_index w h) (bits (liveness t)) = last_n w hist →
  ∃ t', updates t h signed = Some t' ∧ bv_len (liveness t') = w
    ∧ rotate (next_index w (h + Z.of_nat (length signed))) (bits (liveness t'))
      = last_n w (hist ++ signed).
Proof.
  intros Hw. revert h t hist. induction signed as [|b signed IH]; intros h t hist Hh Hm Hl Hlen Hr.
  { exists t. simpl. by rewrite Z.add_0_r, app_nil_r. }
  cbn [length] in Hm |- *. cbn [updates].
  destruct (liveness_update_spec t h b) as (t1 & -> & Hb); [lia | lia |]. cbn [mbind option_bind].
  rewrite Hl in Hb.
  assert (Hl1 : bv_len (liveness t1) = w) by (unfold bv_len; rewrite Hb, length_insert; exact Hl).
  assert (Hi : (next_index w h < w)%nat).
  { unfold next_index. pose proof (Z.mod_pos_bound (h - 1) (Z.of_nat w)). lia. }
  destruct (IH (h + 1) t1 (hist ++ [b])) as (t' & Hu & Hl' & Hr'); try lia; try done.
  - rewrite length_app. simpl. lia.
  - rewrite Hb, next_index_step by done. unfold bv_len in Hl.
    replace (if decide (S (next_index w h) = w) then 0%nat else S (next_index w h))
      with (if decide (S (next_index w h) = length (bits (liveness t))) then 0%nat
            else S (next_index w h)) by by rewrite Hl.
    rewrite rotate_step by by rewrite Hl. rewrite Hr. by rewrite last_n_snoc.
  - exists t'. split; [done|]. split; [done|]. rewrite <- app_assoc in Hr'. simpl in Hr'.
    rewrite <- Hr'. f_equal. f_equal. lia.
Qed.

Lemma rotate_perm s l : rotate s l ≡ₚ l.
Proof. unfold rotate. by rewrite Permutation_app_comm, take_drop. Qed.

Lemma rotate_replicate s w (b : bool) : (s ≤ w)%nat → rotate s (replicate w b) = replicate w b.
Proof.
  intros Hs. unfold rotate. rewrite drop_replicate, take_replicate, Nat.min_l by done.
  rewrite <- replicate_add. f_equal. lia.
Qed.
End punishment.

Definition misses (l : list bool) : Z := Z.of_nat (length (filter (λ x, x = false) l)).

Lemma misses_initial w l : misses (last_n w (replicate w true ++ l)) = misses (last_n w l).
Proof.
  unfold misses, last_n. rewrite length_app, length_replicate, drop_app, length_replicate.
  destruct (decide (w ≤ length l)%nat).
  - rewrite drop_ge by (rewrite length_replicate; lia). simpl. do 4 f_equal. lia.
  - replace (length l - w)%nat with 0%nat by lia. rewrite drop_replicate, filter_app, length_app.
    replace (w + length l - w - w)%nat with 0%nat by lia. rewrite !drop_0.
    assert (Hf : ∀ k, filter (λ x, x = false) (replicate k true) = []).
    { induction k as [|k IH]; [done|]. simpl. by rewrite filter_cons_False. }
    by rewrite Hf.
Qed.

Lemma misses_perm l l' : l ≡ₚ l' → misses l = misses l'.
Proof. intros Hp. unfold misses. by rewrite Hp. Qed.

Lemma liveness_codec_ok `{BitVecLaws, ScaleLaws} :
  codec_ok (λ t, Z.of_nat (bv_len (liveness t)) ≤ U16_MAX) liveness_codec.
Proof.
  intros [v] rest Hl. cbn [liveness] in Hl. cbn [enc dec liveness_codec liveness].
  rewrite <- app_assoc. rewrite as_u16_small by (unfold is_u16; lia).
  rewrite (dbind_ok is_u16); [|apply u16_codec_ok | unfold is_u16; lia].
  rewrite (dbind_ok (vec_ok any_byte)); [|apply bytes_codec_ok|].
  - by rewrite Nat2Z.id, truncate_from_to_bytes.
  - apply vec_ok_any. rewrite to_bytes_bits.
    destruct (bits_of_bytes_of_bits (bits v)) as (k & ? & _ & Hk).
    unfold bv_len in Hl. unfold U16_MAX in Hl. ints.
Qed.
#[export] Hint Resolve liveness_codec_ok : codec.

(** ** Properties *)

(** A tracker that starts at any height and is updated for each following
    block says that its validator is live exactly when, among the last blocks of
    the signing window, fewer than the threshold were missed; blocks before the
    first one count as signed. *)
Theorem liveness_window `{BitVecLaws} window h signed threshold :
  1 ≤ window ≤ U16_MAX → 1 ≤ h → h + Z.of_nat (length signed) ≤ I64_MAX →
  ∃ t, updates (liveness_new window) h signed = Some t
    ∧ is_live t threshold = (misses (last_n (Z.to_nat window) signed) <? threshold).
Proof.
  intros Hw Hh Hm. set (w := Z.to_nat window).
  assert (Hb : bits (liveness (liveness_new window)) = replicate w true) by apply bits_from_elem.
  destruct (updates_spec w h signed (liveness_new window) (replicate w true)) as (t & Ht & Hl & Hr);
    try done; try lia.
  - unfold bv_len. by rewrite Hb, length_replicate.
  - by rewrite length_replicate.
  - rewrite Hb, rotate_replicate.
    + unfold last_n. by rewrite length_replicate, Nat.sub_diag, drop_0.
    + unfold next_index. pose proof (Z.mod_pos_bound (h - 1) (Z.of_nat w)). lia.
  - exists t. split; [done|]. unfold is_live. fold (misses (bits (liveness t))).
    rewrite <- (misses_perm _ _ (rotate_perm (next_index w (h + Z.of_nat (length signed))) (bits (liveness t)))), Hr.
    by rewrite misses_initial.
Qed.

Lemma liveness_window_witness :
  let B := bit_vec_ref in
  ∃ t, updates (liveness_new 3) 5 [false; true; false; false; true] = Some t
    ∧ is_live t 2 = (misses (last_n 3 [false; true; false; false; true]) <? 2)
    ∧ is_live t 2 = false.
Proof.
  intros B. destruct (@liveness_window bit_vec_ref bit_vec_ref_laws 3 5 [false; true; false; false; true] 2)
    as (t & Ht & Hl); [ints | lia | simpl; ints |].
  exists t. split; [exact Ht|]. split; [exact Hl|].
  assert (E : (λ t, is_live t 2) <$> updates (liveness_new 3) 5 [false; true; false; false; true] = Some false)
    by (vm_compute; reflexivity).
  subst B. rewrite Ht in E. by injection E.
Defined.

(** Decoding the encoding of a tracker returns it, whatever its length: the
    padding of its last byte is cut off again. *)
Theorem liveness_roundtrip `{BitVecLaws, ScaleLaws} t rest :
  Z.of_nat (bv_len (liveness t)) ≤ U16_MAX →
  dec liveness_codec (enc liveness_codec t ++ rest) = Some (t, rest).
Proof. intros Hl. by apply liveness_codec_ok. Qed.

Lemma liveness_roundtrip_witness :
  let B := bit_vec_ref in let S := scale_ref in
  let t := MkTracker ([true; false; true] : BitVec) in
  dec liveness_codec (enc liveness_codec t ++ [Byte.x01]) = Some (t, [Byte.x01]).
Proof.
  apply (@liveness_roundtrip bit_vec_ref bit_vec_ref_laws scale_ref scale_ref_laws
    (@MkTracker bit_vec_ref [true; false; true]) [Byte.x01]).
  vm_compute. discriminate.
Defined.
