(* ===== verification/Genesis.v ===== *)
(** * Genesis: the initial configuration and the chain state

    Models [src/chain-core/src/init/config.rs], the state of
    [src/chain-core/src/state/mod.rs] and [compute_app_hash] of
    [src/chain-core/src/lib.rs]: the check of the genesis configuration, the
    accounts, rewards pool and validators it yields, and the hash of the state
    that consensus signs. *)

From stdpp Require Import base tactics option list gmap strings fin_maps.
From Stdlib Require Import ZArith Lia.
From S2P Require Import Prelude Text Codec Milli Coin Crypto Merkle Params Account.

(** ** Chain state *)

Record RewardsPoolState := {
  period_bonus : Coin;
  last_block_height : Z;
  last_distribution_time : Timespec;
  minted : Coin;
  tau : Z;
}.

Definition rewards_pool_new (genesis_time : Timespec) (t : Z) : RewardsPoolState :=
  {| period_bonus := coin_zero; last_block_height := 0; last_distribution_time := genesis_time;
     minted := coin_zero; tau := t |}.

Record ChainState := {
  account_root : H256;
  rewards_pool : RewardsPoolState;
  network_params : NetworkParameters;
}.

Definition rewards_pool_ok (r : RewardsPoolState) : Prop :=
  coin_ok (period_bonus r) ∧ is_i64 (last_block_height r) ∧ is_u64 (last_distribution_time r)
  ∧ coin_ok (minted r) ∧ is_u64 (tau r).
Definition chain_state_ok (c : ChainState) : Prop :=
  array_ok 32 (account_root c) ∧ rewards_pool_ok (rewards_pool c) ∧ params_ok (network_params c).

Section state.
Context `{Scale}.

Definition rewards_pool_codec : codec RewardsPoolState :=
  Codec (λ r, enc coin_codec (period_bonus r) ++ enc i64_codec (last_block_height r)
              ++ enc u64_codec (last_distribution_time r) ++ enc coin_codec (minted r)
              ++ enc u64_codec (tau r))
    (a ⇐ dec coin_codec; b ⇐ dec i64_codec; c ⇐ dec u64_codec; d ⇐ dec coin_codec;
     e ⇐ dec u64_codec;
     dret {| period_bonus := a; last_block_height := b; last_distribution_time := c;
             minted := d; tau := e |}).

Definition chain_state_codec : codec ChainState :=
  Codec (λ c, enc (array_codec 32) (account_root c) ++ enc rewards_pool_codec (rewards_pool c)
              ++ enc network_params_codec (network_params c))
    (a ⇐ dec (array_codec 32); b ⇐ dec rewards_pool_codec; c ⇐ dec network_params_codec;
     dret {| account_root := a; rewards_pool := b; network_params := c |}).

Lemma rewards_pool_codec_ok `{!ScaleLaws} : codec_ok rewards_pool_ok rewards_pool_codec.
Proof.
  intros [] rest (?&?&?&?&?). cbn [enc dec rewards_pool_codec]. rewrite <- !app_assoc.
  by repeat dec_step.
Qed.
#[local] Hint Resolve rewards_pool_codec_ok : codec.

Lemma chain_state_codec_ok `{!ScaleLaws} : codec_ok chain_state_ok chain_state_codec.
Proof.
  intros [] rest (?&?&?). cbn [enc dec chain_state_codec]. rewrite <- !app_assoc.
  by repeat dec_step.
Qed.

Context `{Hashes}.

Definition rewards_pool_hash (self : RewardsPoolState) : H256 :=
  hash256 (enc rewards_pool_codec self).

Definition compute_app_hash (valid_tx_id_tree : MerkleTree) (account_state_root : H256)
    (reward_pool : RewardsPoolState) (params : NetworkParameters) : H256 :=
  let valid_tx_part := root_hash valid_tx_id_tree in
  let rewards_pool_part := rewards_pool_hash reward_pool in
  let network_params_part := params_hash params in
  hash256 (valid_tx_part ++ account_state_root ++ rewards_pool_part ++ network_params_part).

(** [ChainState::compute_app_hash]. *)
Definition chain_state_app_hash (self : ChainState) (txids : list (list byte)) : option H256 :=
  t ← merkle_new txids;
  Some (compute_app_hash t (account_root self) (rewards_pool self) (network_params self)).
End state.
#[export] Hint Resolve rewards_pool_codec_ok chain_state_codec_ok : codec.

(** ** Genesis configuration *)

Inductive DistributionError :=
  | DistributionCoinError (e : CoinError)
  | DoesNotMatchMaxSupply (c : Coin)
  | AddressNotInDistribution (a : RedeemAddress)
  | DoesNotMatchRequiredAmount (a : RedeemAddress) (c : Coin)
  | InvalidValidatorKey
  | DuplicateValidatorKey
  | InvalidValidatorAccount
  | NoValidators
  | InvalidVotingPower
  | InvalidPunishmentConfiguration
  | InvalidRewardsParamter (e : str).

Inductive StakedStateDestination :=
  | Bonded
  | UnbondedFromGenesis
  | UnbondedFromCustomTime (t : Timespec).

#[global] Instance StakedStateDestination_eq_dec : EqDecision StakedStateDestination.
Proof. solve_decision. Defined.

Record InitConfig := {
  distribution : gmap RedeemAddress (StakedStateDestination * Coin);
  init_network_params : InitNetworkParameters;
  council_nodes : gmap RedeemAddress (str * option str * TendermintValidatorPubKey);
}.

Abbreviation GenesisState :=
  (list StakedState * RewardsPoolState * list (StakedStateAddress * CouncilNode))%type (only parsing).

Definition check_validator_address (self : InitConfig) (a : RedeemAddress) :
  result DistributionError () :=
  let expected := required_council_node_stake (init_network_params self) in
  match distribution self !! a with
  | Some (d, c) =>
      if decide (d = Bonded ∧ expected ≤ c) then Ok () else Err (DoesNotMatchRequiredAmount a c)
  | None => Err (AddressNotInDistribution a)
  end.

Definition get_council_node (self : InitConfig) (a : RedeemAddress) :
  result DistributionError CouncilNode :=
  _ ← check_validator_address self a;
  '(n, contact, pubkey) ← ok_or (council_nodes self !! a) InvalidValidatorAccount;
  Ok (council_node_new_with_details n contact pubkey).

Definition genesis_account (self : InitConfig) (genesis_time : Timespec)
    (entry : RedeemAddress * (StakedStateDestination * Coin)) : StakedState :=
  let '(a, (destination, amount)) := entry in
  match destination with
  | Bonded => new_init_bonded amount genesis_time (BasicRedeem a) (ok (get_council_node self a))
  | UnbondedFromGenesis => new_init_unbonded amount genesis_time (BasicRedeem a)
  | UnbondedFromCustomTime t => new_init_unbonded amount t (BasicRedeem a)
  end.

Definition get_account (self : InitConfig) (genesis_time : Timespec) : list StakedState :=
  genesis_account self genesis_time <$> btree_iter (distribution self).

(** [Iterator::collect] into a [Result]: the first error wins. *)
Fixpoint collect {E A} (l : list (result E A)) : result E (list A) :=
  match l with
  | [] => Ok []
  | r :: l => a ← r; rest ← collect l; Ok (a :: rest)
  end.

(** The panic of the outer option is the conversion to a voting power. *)
Definition validate_config_get_genesis (self : InitConfig) (genesis_time : Timespec) :
  run DistributionError GenesisState :=
  let params := init_network_params self in
  _ ?← Some (map_err InvalidRewardsParamter (validate_rewards (rewards_config params)));
  if decide (council_nodes self = ∅) then Some (Err NoValidators)
  else
    let pub_keys : gset TendermintValidatorPubKey :=
      list_to_set ((λ d, d.2.2) <$> btree_iter (council_nodes self)) in
    if negb (size pub_keys =? size (council_nodes self))%nat then Some (Err DuplicateValidatorKey)
    else
      let validators := collect ((λ a, council_node ← get_council_node self a;
                                       Ok (BasicRedeem a, council_node))
                                 <$> (btree_iter (council_nodes self)).*1) in
      _ ?← match coin_new (as_u64 (required_council_node_stake params
                                    * Z.of_nat (size (council_nodes self)))) with
           | Err _ => Some (Err InvalidVotingPower)
           | Ok c => p ← vote_power_from_coin c; Some (Ok p)
           end;
      match sum_coins ((λ e, e.2.2) <$> btree_iter (distribution self)) with
      | Err e => Some (Err (DistributionCoinError e))
      | Ok s =>
          match coin_add s (monetary_expansion_cap (rewards_config params)) with
          | Err e => Some (Err (DistributionCoinError e))
          | Ok sum =>
              if decide (sum ≠ coin_max) then Some (Err (DoesNotMatchMaxSupply sum))
              else if jail_duration (jailing_config params) <=? slash_wait_period (slashing_config params)
              then Some (Err InvalidPunishmentConfiguration)
              else
                let accounts := get_account self genesis_time in
                let pool := rewards_pool_new genesis_time
                              (monetary_expansion_tau (rewards_config params)) in
                validators ?← Some validators;
                Some (Ok (accounts, pool, validators))
          end
      end.

(** ** Lemmas *)

Lemma size_list_to_set_le `{Countable A} (l : list A) : (size (list_to_set l : gset A) ≤ length l)%nat.
Proof.
  induction l as [|x l IH]; [by rewrite list_to_set_nil, size_empty|].
  rewrite list_to_set_cons, size_union_alt. cbn [length]. rewrite size_singleton.
  pose proof (subseteq_size (list_to_set l ∖ {[x]} : gset A) (list_to_set l) ltac:(set_solver)). lia.
Qed.

Lemma size_list_to_set_NoDup `{Countable A} (l : list A) :
  size (list_to_set l : gset A) = length l → NoDup l.
Proof.
  induction l as [|x l IH]; intros Hs; [constructor|].
  rewrite list_to_set_cons in Hs. cbn [length] in Hs.
  pose proof (size_list_to_set_le l) as Hle.
  destruct (decide (x ∈ l)) as [Hx|Hx].
  - replace ({[x]} ∪ list_to_set l : gset A) with (list_to_set l : gset A) in Hs by set_solver. lia.
  - constructor; [done|]. apply IH.
    rewrite size_union, size_singleton in Hs by set_solver. lia.
Qed.

Lemma collect_ok {E A} (l : list (result E A)) rs :
  collect l = Ok rs ↔ Forall2 (λ r a, r = Ok a) l rs.
Proof.
  revert rs. induction l as [|r l IH]; intros rs; simpl.
  - split; [intros [= <-]; constructor | by intros ->%Forall2_nil_inv_l].
  - split.
    + intros Hc. run_inv Hc. constructor; [done|]. by apply IH.
    + intros (a & rs' & -> & Hf & ->)%Forall2_cons_inv_l. apply IH in Hf. simpl. by rewrite Hf.
Qed.

Lemma genesis_account_address self t e : address (genesis_account self t e) = BasicRedeem e.1.
Proof. by destruct e as [a [[] c]]. Qed.

Lemma genesis_account_total self t e : stake_total (genesis_account self t e) = e.2.2.
Proof. destruct e as [a [[] c]]; unfold stake_total; simpl; ints. Qed.

Lemma sum_genesis_accounts self t (l : list (RedeemAddress * (StakedStateDestination * Coin))) :
  sum_by stake_total (genesis_account self t <$> l) = sum_by Datatypes.id ((λ e, e.2.2) <$> l).
Proof.
  induction l as [|e l IH]; [done|].
  rewrite !fmap_cons, sum_by_cons, sum_id_cons, genesis_account_total. by rewrite IH.
Qed.

Lemma check_validator_address_ok self a u :
  check_validator_address self a = Ok u ↔
  ∃ c, distribution self !! a = Some (Bonded, c)
       ∧ required_council_node_stake (init_network_params self) ≤ c.
Proof.
  unfold check_validator_address. destruct (distribution self !! a) as [[d c]|]; [|naive_solver].
  destruct u. case_decide as Hd; naive_solver.
Qed.

Lemma get_council_node_ok self a node :
  get_council_node self a = Ok node ↔
  ∃ c n contact pubkey, distribution self !! a = Some (Bonded, c)
    ∧ required_council_node_stake (init_network_params self) ≤ c
    ∧ council_nodes self !! a = Some (n, contact, pubkey)
    ∧ node = council_node_new_with_details n contact pubkey.
Proof.
  unfold get_council_node. split.
  - intros Hg. destruct (check_validator_address self a) as [u|] eqn:E; [|done].
    apply check_validator_address_ok in E as (c & ? & ?). simpl in Hg.
    destruct (council_nodes self !! a) as [[[n contact] pubkey]|]; simpl in Hg; [|done].
    simplify_eq. by exists c, n, contact, pubkey.
  - intros (c & n & contact & pubkey & Hd & Hle & Hn & ->).
    assert (E : check_validator_address self a = Ok tt) by (apply check_validator_address_ok; eauto).
    rewrite E. simpl. by rewrite Hn.
Qed.

(** What the check guarantees of the state it returns. *)
Record genesis_spec (self : InitConfig) (genesis_time : Timespec) (accounts : list StakedState)
    (pool : RewardsPoolState) (validators : list (StakedStateAddress * CouncilNode)) : Prop := {
  gs_supply : sum_by stake_total accounts
              + monetary_expansion_cap (rewards_config (init_network_params self)) = MAX_COIN;
  gs_addresses : NoDup (address <$> accounts);
  gs_fresh : Forall (λ s, is_jailed s = false ∧ nonce s = 0) accounts;
  gs_pool : pool = rewards_pool_new genesis_time
                     (monetary_expansion_tau (rewards_config (init_network_params self)));
  gs_some_validator : validators ≠ [];
  gs_validator_addresses : NoDup validators.*1;
  gs_validator_keys : NoDup (consensus_pubkey <$> validators.*2);
  gs_validators a node :
    (a, node) ∈ validators ↔ ∃ s, s ∈ accounts ∧ address s = a ∧ council_node s = Some node;
  gs_stake s : s ∈ accounts → is_Some (council_node s) →
    required_council_node_stake (init_network_params self) ≤ bonded s;
  gs_jail : slash_wait_period (slashing_config (init_network_params self))
            < jail_duration (jailing_config (init_network_params self));
  gs_rewards : validate_rewards (rewards_config (init_network_params self)) = Ok ();
}.

(** The validators are the entries of the configuration, in order. *)
Lemma genesis_validators self vs :
  collect ((λ a, council_node ← get_council_node self a; Ok (BasicRedeem a, council_node))
           <$> (btree_iter (council_nodes self)).*1) = Ok vs →
  vs.*1 = BasicRedeem <$> (btree_iter (council_nodes self)).*1
  ∧ consensus_pubkey <$> vs.*2 = (λ d, d.2.2) <$> btree_iter (council_nodes self)
  ∧ ∀ a node, (BasicRedeem a, node) ∈ vs ↔ get_council_node self a = Ok node.
Proof.
  intros Hc. apply collect_ok in Hc.
  assert (Hf : Forall2 (λ e v, v.1 = BasicRedeem e.1 ∧ get_council_node self e.1 = Ok v.2)
                 (btree_iter (council_nodes self)) vs).
  { rewrite !Forall2_fmap_l in Hc. eapply Forall2_impl; [exact Hc|]. intros e [v1 v2] Hv. simpl in Hv.
    destruct (get_council_node self e.1); simpl in Hv; by simplify_eq. }
  clear Hc. pose proof (elem_of_btree_iter (council_nodes self)) as Hin.
  split; [|split].
  - clear Hin. induction Hf as [|e v l vs [H1 H2] Hf IH]; [done|].
    rewrite !fmap_cons, IH. by rewrite H1.
  - assert (Hin' : ∀ a d, (a, d) ∈ btree_iter (council_nodes self) → council_nodes self !! a = Some d)
      by naive_solver.
    clear Hin. revert Hin'. induction Hf as [|e v l vs [H1 H2] Hf IH]; intros Hin; [done|].
    rewrite !fmap_cons. rewrite IH by (intros; apply Hin; by right). f_equal.
    apply get_council_node_ok in H2 as (c & n & k & pk & _ & _ & Hn & ->).
    destruct e as [a d]. simpl in Hn. rewrite (Hin a d ltac:(by left)) in Hn. by simplify_eq/=.
  - intros a node. split.
    + intros Hv. apply list_elem_of_lookup_1 in Hv as [i Hi].
      destruct (Forall2_lookup_r _ _ _ _ _ Hf Hi) as ([a' d] & _ & [= ->] & Hg). done.
    + intros Hg. pose proof Hg as (c & n & k & pk & _ & _ & Hn & _)%get_council_node_ok.
      apply Hin in Hn. apply list_elem_of_lookup_1 in Hn as [i Hi].
      destruct (Forall2_lookup_l _ _ _ _ _ Hf Hi) as ([v1 v2] & Hv & H1 & H2).
      simpl in *. rewrite Hg in H2. simplify_eq.
      by eapply list_elem_of_lookup_2.
Qed.

Lemma genesis_account_fresh self t e :
  is_jailed (genesis_account self t e) = false ∧ nonce (genesis_account self t e) = 0.
Proof. by destruct e as [a [[] c]]. Qed.

(** The accounts with a council node are those the configuration lists. *)
Lemma genesis_account_node self t a d c node :
  council_node (genesis_account self t (a, (d, c))) = Some node →
  d = Bonded ∧ get_council_node self a = Ok node.
Proof. destruct d; simpl; try done. destruct (get_council_node self a); simpl; naive_solver. Qed.

Lemma elem_of_get_account self t s :
  s ∈ get_account self t ↔ ∃ a d c, distribution self !! a = Some (d, c)
                                  ∧ s = genesis_account self t (a, (d, c)).
Proof.
  unfold get_account. rewrite list_elem_of_fmap. split.
  - intros ([a [d c]] & -> & Hin%elem_of_btree_iter). by exists a, d, c.
  - intros (a & d & c & Hin & ->). exists (a, (d, c)). split; [done|]. by apply elem_of_btree_iter.
Qed.

Lemma genesis_ok self t accounts pool validators :
  map_Forall (λ _ e, coin_ok e.2) (distribution self) →
  validate_config_get_genesis self t = Some (Ok (accounts, pool, validators)) →
  genesis_spec self t accounts pool validators.
Proof.
  intros Hd Hv. unfold validate_config_get_genesis in Hv.
  destruct (validate_rewards _) as [[]|] eqn:Er; cbn [map_err run_bind] in Hv; [|done].
  case_decide as Hne; [done|].
  match type of Hv with context [negb ?b] => destruct b eqn:Ek end; cbn [negb] in Hv; [|done].
  match type of Hv with run_bind ?m _ = _ => destruct m as [[p|]|] eqn:Ep end; cbn [run_bind] in Hv; [|done|done].
  destruct (sum_coins _) as [s|] eqn:Es; [|done].
  destruct (coin_add s _) as [sum|] eqn:Ea; [|done].
  case_decide as Hm; [done|].
  destruct (Z.leb_spec (jail_duration (jailing_config (init_network_params self)))
    (slash_wait_period (slashing_config (init_network_params self)))); [done|].
  destruct (collect _) as [vs|] eqn:Ec; cbn [run_bind] in Hv; [|done]. simplify_eq.
  destruct (genesis_validators self validators Ec) as (H1 & H2 & H3).
  apply coin_add_ok in Ea as [Hm _].
  assert (Hco : Forall coin_ok ((λ e, e.2.2) <$> btree_iter (distribution self))).
  { apply Forall_fmap, Forall_forall. intros [a [d c]] Hin%elem_of_btree_iter. exact (Hd a _ Hin). }
  apply sum_coins_ok in Es as [-> _]; [|done].
  apply Nat.eqb_eq in Ek.
  split; try done.
  - unfold get_account. rewrite sum_genesis_accounts. by rewrite <- Hm.
  - unfold get_account. rewrite <- list_fmap_compose.
    replace (address ∘ genesis_account self t <$> btree_iter (distribution self))
      with (BasicRedeem <$> (btree_iter (distribution self)).*1)
      by (rewrite <- list_fmap_compose; apply list_fmap_ext; intros; symmetry; apply genesis_account_address).
    apply NoDup_fmap_2; [by intros ?? [=]|]. apply NoDup_btree_iter.
  - apply Forall_fmap, Forall_true. apply genesis_account_fresh.
  - intros ->. simpl in H1. apply Hne, map_size_empty_iff. rewrite <- length_btree_iter.
    apply (f_equal length) in H1. by rewrite !length_fmap in H1.
  - rewrite H1. apply NoDup_fmap_2; [by intros ?? [=]|]. apply NoDup_btree_iter.
  - rewrite H2. apply size_list_to_set_NoDup. by rewrite Ek, length_fmap, length_btree_iter.
  - intros [a] node. rewrite H3. split.
    + intros Hg. pose proof Hg as (c & n & k & pk & Hb & _ & _ & _)%get_council_node_ok.
      exists (genesis_account self t (a, (Bonded, c))). split_and!.
      * apply elem_of_get_account. by exists a, Bonded, c.
      * done.
      * simpl. by rewrite Hg.
    + intros (x & (a' & d & c & Hb & ->)%elem_of_get_account & Ha & Hn).
      rewrite genesis_account_address in Ha. simpl in Ha. simplify_eq.
      by apply genesis_account_node in Hn as [_ ?].
  - intros x (a & d & c & Hb & ->)%elem_of_get_account [node Hn].
    apply genesis_account_node in Hn as [-> (c' & n & k & pk & Hb' & Hle & _)%get_council_node_ok].
    rewrite Hb in Hb'. simplify_eq. done.
Qed.

Lemma genesis_total self t : is_Some (validate_config_get_genesis self t).
Proof.
  unfold validate_config_get_genesis.
  destruct (validate_rewards _) as [[]|]; cbn [map_err run_bind]; [|by eexists].
  case_decide; [by eexists|]. destruct (negb _); [by eexists|].
  set (stake := as_u64 _).
  destruct (coin_new stake) as [c|] eqn:Ec; cbn [run_bind]; [|by eexists].
  apply coin_new_ok in Ec as [-> ?].
  destruct (vote_power_from_coin_ok stake) as [-> _].
  { pose proof (as_u64_range (required_council_node_stake (init_network_params self)
      * Z.of_nat (size (council_nodes self)))). unfold coin_ok. split; [|done]. unfold stake. ints. }
  simpl. destruct (sum_coins _); [|by eexists]. destruct (coin_add _ _); [|by eexists].
  case_decide; [by eexists|]. destruct (_ <=? _); [by eexists|].
  destruct (collect _); by eexists.
Qed.

(** ** Properties *)

(** C16. The genesis check never panics, and an accepted configuration yields a sound
    initial state: all coins of the accounts and the coins still to be minted make
    up the total supply; accounts and validators are distinct, also by consensus
    key; the validators are exactly the accounts with a council node, and each of
    them bonds at least the required stake. *)
Theorem genesis_sound self t :
  map_Forall (λ _ e, coin_ok e.2) (distribution self) →
  is_Some (validate_config_get_genesis self t)
  ∧ ∀ accounts pool validators,
      validate_config_get_genesis self t = Some (Ok (accounts, pool, validators)) →
      genesis_spec self t accounts pool validators.
Proof.
  intros Hd. split; [apply genesis_total|]. intros accounts pool validators.
  by apply genesis_ok.
Qed.

Definition params_example : InitNetworkParameters := {|
  initial_fee_policy := {| constant := 1100; coefficient := 1250 |};
  required_council_node_stake := 5000000000000000000;
  unbonding_period := 60;
  jailing_config := {| jail_duration := 86400; block_signing_window := 100; missed_block_threshold := 50 |};
  slashing_config := {| liveness_slash_percent := 100; byzantine_slash_percent := 200;
                        slash_wait_period := 10800 |};
  rewards_config := {| monetary_expansion_cap := 3000000000000000000; distribution_period := 86400;
                       monetary_expansion_r0 := 500; monetary_expansion_tau := 14500000000000000;
                       monetary_expansion_decay := 999860 |};
  max_validators := 50;
|}.

Lemma params_example_ok : params_ok (GenesisParams params_example).
Proof.
  unfold params_ok, init_params_ok, fee_policy_ok, jailing_ok, slashing_ok, rewards_ok, is_slash_ratio.
  change MAX_SLASH_RATIO with 1000. simpl. ints.
Qed.

Definition config_example : InitConfig := {|
  distribution := <[replicate 20 Byte.x01 := (Bonded, 6000000000000000000)]>
                    {[replicate 20 Byte.x02 := (UnbondedFromGenesis, 1000000000000000000)]};
  init_network_params := params_example;
  council_nodes := {[replicate 20 Byte.x01 := (bstr "node", None, Ed25519 (replicate 32 Byte.x07))]};
|}.

Lemma genesis_sound_witness :
  ∃ accounts pool validators,
    validate_config_get_genesis config_example 5 = Some (Ok (accounts, pool, validators))
    ∧ genesis_spec config_example 5 accounts pool validators.
Proof.
  assert (Hd : map_Forall (λ _ e, coin_ok e.2) (distribution config_example)).
  { apply map_Forall_insert_2; [simpl; ints|]. apply map_Forall_singleton. simpl. ints. }
  destruct (genesis_sound config_example 5 Hd) as [_ Hs].
  do 3 eexists. split; [vm_compute; reflexivity|]. apply Hs. vm_compute. reflexivity.
Defined.

(** The encoding of the persisted chain state decodes to the state. *)
Theorem chain_state_roundtrip `{ScaleLaws} s rest :
  chain_state_ok s → dec chain_state_codec (enc chain_state_codec s ++ rest) = Some (s, rest).
Proof. intros Hs. by apply chain_state_codec_ok. Qed.

Definition chain_state_example : ChainState := {|
  account_root := replicate 32 Byte.x09;
  rewards_pool := rewards_pool_new 5 14500000000000000;
  network_params := GenesisParams params_example;
|}.

Lemma chain_state_roundtrip_witness :
  let S := scale_ref in
  dec chain_state_codec (enc chain_state_codec chain_state_example ++ [])
    = Some (chain_state_example, []).
Proof.
  apply (@chain_state_roundtrip scale_ref scale_ref_laws chain_state_example []).
  split; [done|]. split; [unfold rewards_pool_ok; simpl; ints|].
  unfold params_ok, init_params_ok, fee_policy_ok, jailing_ok, slashing_ok, rewards_ok, is_slash_ratio.
  change MAX_SLASH_RATIO with 1000. simpl. ints.
Defined.
