(* ===== verification/Storage.v ===== *)
(** * Storage: the key-value store, the account trie and spent outputs

    Models [src/chain-abci/src/storage/mod.rs], [src/chain-abci/src/storage/tx.rs]
    (lookups), [src/chain-abci/src/storage/account/mod.rs] and the functions on
    outputs and accounts of [src/chain-abci/src/app/mod.rs] and
    [src/chain-abci/src/app/commit.rs].  The [kvdb] and [starling] crates are
    interfaces: a store of byte strings by column and key, and a trie whose roots
    each name a map of byte strings and stay readable after later insertions. *)

From stdpp Require Import base tactics option list gmap strings.
From Stdlib Require Import ZArith Lia.
From S2P Require Import Prelude Text Codec Milli Coin Crypto Merkle Params Account TxTypes.
From S2P Require Import Validation BitVec.

(** ** The key-value store *)

Inductive DBOp :=
  | Put (col : Z) (key value : list byte).
Abbreviation DBTransaction := (list DBOp) (only parsing).

(** Lookups and writes fail with an I/O error. *)
Class KeyValueDB := {
  Db : Type;
  db_get : Db → Z → list byte → result () (option (list byte));
  db_write_buffered : Db → DBTransaction → Db;
  db_write : Db → DBTransaction → result () Db;
}.

Abbreviation dbmap := (gmap (Z * list byte) (list byte)) (only parsing).

Definition apply_op (m : dbmap) (op : DBOp) : dbmap :=
  match op with Put c k v => <[(c, k) := v]> m end.
Definition apply_ops (m : dbmap) (ops : DBTransaction) : dbmap := foldl apply_op m ops.

(** A store without I/O errors: a buffered write is seen by later lookups. *)
Class KeyValueDBLaws `{KeyValueDB} := {
  db_view : Db → dbmap;
  db_get_view d c k : db_get d c k = Ok (db_view d !! (c, k));
  db_write_buffered_view d ops : db_view (db_write_buffered d ops) = apply_ops (db_view d) ops;
  db_write_view d ops : ∃ d', db_write d ops = Ok d' ∧ db_view d' = apply_ops (db_view d) ops;
}.

Definition kvdb_ref : KeyValueDB := {|
  Db := dbmap; db_get := λ d c k, Ok (d !! (c, k));
  db_write_buffered := apply_ops; db_write := λ d ops, Ok (apply_ops d ops);
|}.

Definition kvdb_ref_laws : @KeyValueDBLaws kvdb_ref.
Proof. refine (@Build_KeyValueDBLaws kvdb_ref Datatypes.id _ _ _); [done | done | by eexists]. Defined.

Definition COL_TX_META : Z := 0.
Definition COL_WITNESS : Z := 1.
Definition COL_BODIES : Z := 2.
Definition COL_EXTRA : Z := 3.
Definition COL_NODE_INFO : Z := 4.
Definition COL_MERKLE_PROOFS : Z := 5.
Definition COL_APP_HASHS : Z := 6.
Definition COL_APP_STATES : Z := 7.
Definition NUM_COLUMNS : Z := 8.

Definition CHAIN_ID_KEY : list byte := bstr "chain_id".
Definition GENESIS_APP_HASH_KEY : list byte := bstr "genesis_app_hash".
Definition LAST_STATE_KEY : list byte := bstr "last_state".

(** ** The account trie *)

Class StarlingTree := {
  AccountStorage : Type;
  trie_get_one : AccountStorage → H256 → H256 → result () (option (list byte));
  trie_insert_one :
    AccountStorage → option H256 → H256 → list byte → result () (H256 * AccountStorage);
  trie_insert :
    AccountStorage → option H256 → list H256 → list (list byte) → result () (H256 * AccountStorage);
}.

Abbreviation triemap := (gmap (list byte) (list byte)) (only parsing).

(** The map a root names, if any.  An insertion returns the root of the updated
    map and keeps the maps of the roots before it. *)
Class StarlingLaws `{StarlingTree} := {
  trie_view : AccountStorage → H256 → option triemap;
  trie_get_view s r k m : trie_view s r = Some m → trie_get_one s r k = Ok (m !! k);
  trie_insert_one_view s r k v m :
    trie_view s r = Some m →
    ∃ r' s', trie_insert_one s (Some r) k v = Ok (r', s') ∧ trie_view s' r' = Some (<[k := v]> m)
      ∧ ∀ r0 m0, trie_view s r0 = Some m0 → trie_view s' r0 = Some m0;
  trie_insert_view s ks vs :
    ks ≠ [] → NoDup ks → length ks = length vs →
    ∃ r' s', trie_insert s None ks vs = Ok (r', s') ∧ trie_view s' r' = Some (list_to_map (zip ks vs))
      ∧ ∀ r0 m0, trie_view s r0 = Some m0 → trie_view s' r0 = Some m0;
}.

(** The maps inserted so far; a root is the position of its map. *)
Definition starling_ref : StarlingTree := {|
  AccountStorage := list triemap;
  trie_get_one := λ s r k, match s !! length r with Some m => Ok (m !! k) | None => Err () end;
  trie_insert_one := λ s o k v,
    match o with
    | Some r => match s !! length r with
                | Some m => Ok (replicate (length s) Byte.x00, s ++ [<[k := v]> m])
                | None => Err ()
                end
    | None => Ok (replicate (length s) Byte.x00, s ++ [ {[ k := v ]} ])
    end;
  trie_insert := λ s _ ks vs, Ok (replicate (length s) Byte.x00, s ++ [list_to_map (zip ks vs)]);
|}.

Definition starling_ref_laws : @StarlingLaws starling_ref.
Proof.
  refine (@Build_StarlingLaws starling_ref (λ s r, s !! length r) _ _ _); simpl.
  - by intros s r k m ->.
  - intros s r k v m ->. do 2 eexists. split; [done|].
    rewrite length_replicate, list_lookup_middle by done. split; [done|].
    intros r0 m0 Hr. by apply lookup_app_l_Some.
  - intros s ks vs _ _ _. do 2 eexists. split; [done|].
    rewrite length_replicate, list_lookup_middle by done. split; [done|].
    intros r0 m0 Hr. by apply lookup_app_l_Some.
Defined.

Section storage.
Context `{Hashes, Secp256k1, Scale, BitVecLib, KeyValueDB, StarlingTree}.

(** [AccountWrapper]'s codec: a buffer that does not decode is an exception. *)
Definition account_wrapper_encode (a : StakedState) : list byte := enc staked_state_codec a.
Definition account_wrapper_decode (buffer : list byte) : result () StakedState :=
  match decode staked_state_codec buffer with Some a => Ok a | None => Err () end.

Definition get_account (account_address : StakedStateAddress) (last_root : H256)
    (accounts : AccountStorage) : result Error StakedState :=
  match (b ← trie_get_one accounts last_root (to_stake_key account_address);
         match b with
         | None => Ok None
         | Some buffer => Some <$> account_wrapper_decode buffer
         end) with
  | Err _ => Err IoError
  | Ok None => Err AccountNotFound
  | Ok (Some a) => Ok a
  end.

(** The new root, the account and the storage; the [expect] panics. *)
Definition update_account (account : StakedState) (account_root_hash : H256)
    (accounts : AccountStorage) : option (H256 * option StakedState * AccountStorage) :=
  '(root, accounts) ← unwrap (trie_insert_one accounts (Some account_root_hash)
                                (staked_key account) (account_wrapper_encode account));
  Some (root, Some account, accounts).

Definition compute_accounts_root (account_storage : AccountStorage) (l : list StakedState) :
  option (H256 * AccountStorage) :=
  unwrap (trie_insert account_storage None (staked_key <$> l) (account_wrapper_encode <$> l)).

(** ** Spent outputs *)

(** [entry(txin.id).or_insert_with(..).set(..)], for one input. *)
Definition spend_step (db : Db) (updated_txs : gmap TxId BitVec) (txin : TxoPointer) :
  option (gmap TxId BitVec) :=
  bv ← match updated_txs !! id txin with
       | Some bv => Some bv
       | None =>
           v ← unwrap (db_get db COL_TX_META (id txin));
           bytes ← v;
           Some (bv_from_bytes bytes)
       end;
  bv ← bv_set bv (Z.to_nat (index txin)) true;
  Some (<[id txin := bv]> updated_txs).

Fixpoint spend_loop (db : Db) (updated_txs : gmap TxId BitVec) (txins : list TxoPointer) :
  option (gmap TxId BitVec) :=
  match txins with
  | [] => Some updated_txs
  | txin :: txins => u ← spend_step db updated_txs txin; spend_loop db u txins
  end.

Definition spend_utxos (txins : list TxoPointer) (db : Db) (dbtx : DBTransaction) :
  option DBTransaction :=
  updated_txs ← spend_loop db ∅ txins;
  Some (dbtx ++ ((λ e, Put COL_TX_META e.1 (bv_to_bytes e.2)) <$> btree_iter updated_txs)).

Definition update_utxos_commit (txins : list TxoPointer) (no_of_outputs : TxoIndex) (i : TxId)
    (db : Db) (dbtx : DBTransaction) : option DBTransaction :=
  dbtx ← spend_utxos txins db dbtx;
  Some (dbtx ++ [Put COL_TX_META i (bv_to_bytes (bv_from_elem (Z.to_nat no_of_outputs) false))]).

Fixpoint check_spent_loop (txins : list TxoPointer) (db : Db) : result Error () :=
  match txins with
  | [] => Ok ()
  | txin :: txins =>
      match db_get db COL_TX_META (id txin) with
      | Ok (Some v) =>
          match bv_get (bv_from_bytes v) (Z.to_nat (index txin)) with
          | None => Err InvalidInput
          | Some true => Err InputSpent
          | Some false => check_spent_loop txins db
          end
      | Ok None => Err InvalidInput
      | Err _ => Err IoError
      end
  end.

Definition check_spent_input_lookup (txins : list TxoPointer) (db : Db) : result Error () :=
  match txins with
  | [] => Err NoInputs
  | _ :: _ => check_spent_loop txins db
  end.
End storage.

(** ** The maps behind the stores *)

Lemma apply_ops_app m ops ops' : apply_ops m (ops ++ ops') = apply_ops (apply_ops m ops) ops'.
Proof. apply foldl_app. Qed.

(** Puts of one column with distinct keys. *)
Lemma apply_puts c (l : list (list byte * list byte)) m c' k :
  NoDup l.*1 →
  apply_ops m ((λ e, Put c e.1 e.2) <$> l) !! (c', k)
  = if decide (c' = c)
    then match (list_to_map l : gmap _ _) !! k with Some v => Some v | None => m !! (c', k) end
    else m !! (c', k).
Proof.
  revert m. induction l as [|[k0 v0] l IH]; intros m Hn.
  { simpl. by case_decide. }
  cbn in Hn. apply NoDup_cons in Hn as [Hk Hn]. rewrite fmap_cons. cbn [apply_ops foldl apply_op].
  change (foldl apply_op ?a ?b) with (apply_ops a b). rewrite IH by done.
  case_decide as Hc; [subst c'|].
  - simpl. destruct (decide (k = k0)) as [->|Hne].
    + rewrite lookup_insert_eq, (not_elem_of_list_to_map_1 l k0), lookup_insert_eq; done.
    + rewrite (lookup_insert_ne _ k0 k) by done.
      destruct ((list_to_map l : gmap _ _) !! k); [done|].
      apply lookup_insert_ne. congruence.
  - apply lookup_insert_ne. congruence.
Qed.

Lemma list_to_map_btree_iter {V W} (f : V → W) (m : gmap (list byte) V) :
  list_to_map ((λ e, (e.1, f e.2)) <$> btree_iter m) = f <$> m.
Proof.
  apply map_eq. intros k. rewrite lookup_fmap.
  destruct (m !! k) as [v|] eqn:E; simpl.
  - apply elem_of_list_to_map_1.
    + rewrite <- list_fmap_compose. apply NoDup_btree_iter.
    + apply list_elem_of_fmap. exists (k, v). by rewrite elem_of_btree_iter.
  - apply not_elem_of_list_to_map_1. rewrite <- list_fmap_compose.
    intros ((k' & v) & -> & Hin)%list_elem_of_fmap. apply elem_of_btree_iter in Hin. simpl in E.
    congruence.
Qed.

Section utxos.
Context `{Hashes, Secp256k1, Scale, BitVecLaws, KeyValueDBLaws}.

(** Whether an output is recorded and spent. *)
Definition utxo_status (m : dbmap) (p : TxoPointer) : option bool :=
  bytes ← m !! (COL_TX_META, id p);
  bits_of_bytes bytes !! Z.to_nat (index p).

Lemma check_spent_loop_ok ins db :
  check_spent_loop ins db = Ok () ↔ Forall (λ p, utxo_status (db_view db) p = Some false) ins.
Proof.
  induction ins as [|p ins IH]; cbn [check_spent_loop]; [by split; [constructor|]|].
  rewrite Forall_cons, <- IH. unfold utxo_status. rewrite db_get_view.
  destruct (db_view db !! (COL_TX_META, id p)) as [v|]; simpl; [|naive_solver].
  unfold bv_get. rewrite bits_from_bytes.
  destruct (bits_of_bytes v !! Z.to_nat (index p)) as [[]|]; naive_solver.
Qed.

Lemma check_spent_input_lookup_ok ins db :
  check_spent_input_lookup ins db = Ok () ↔
  ins ≠ [] ∧ Forall (λ p, utxo_status (db_view db) p = Some false) ins.
Proof.
  rewrite <- check_spent_loop_ok. destruct ins; simpl; naive_solver.
Qed.

(** The vectors of the loop against the recorded ones: the inputs handled so far
    are set, nothing else changed. *)
Definition spent_upto (m : dbmap) (done_ : list TxoPointer) (u : gmap TxId BitVec) : Prop :=
  ∀ t, match u !! t with
       | None => t ∉ id <$> done_
       | Some bv =>
           t ∈ id <$> done_ ∧ ∃ bytes, m !! (COL_TX_META, t) = Some bytes
             ∧ bv_len bv = length (bits_of_bytes bytes)
             ∧ ∀ i, (i < bv_len bv)%nat → bits bv !! i
                 = if decide ({| id := t; index := Z.of_nat i |} ∈ done_) then Some true
                   else bits_of_bytes bytes !! i
       end.

Lemma spend_step_spec db seen u p :
  spent_upto (db_view db) seen u → is_Some (utxo_status (db_view db) p) → 0 ≤ index p →
  ∃ u', spend_step db u p = Some u' ∧ spent_upto (db_view db) (seen ++ [p]) u'.
Proof.
  intros Hu [b Hb] Hp. unfold spend_step, utxo_status in *.
  destruct (db_view db !! (COL_TX_META, id p)) as [bytes|] eqn:Eb; [|done]. simpl in Hb.
  pose proof (lookup_lt_Some _ _ _ Hb) as Hlt.
  pose proof (Hu (id p)) as Hup.
  assert (∃ bv, (match u !! id p with
       | Some bv => Some bv
       | None => v ← unwrap (db_get db COL_TX_META (id p)); bytes ← v; Some (bv_from_bytes bytes)
       end) = Some bv ∧ bv_len bv = length (bits_of_bytes bytes)
    ∧ ∀ i, (i < bv_len bv)%nat → bits bv !! i
        = if decide ({| id := id p; index := Z.of_nat i |} ∈ seen) then Some true
          else bits_of_bytes bytes !! i) as (bv & -> & Hlen & Hbits).
  { destruct (u !! id p) as [bv|].
    - destruct Hup as (_ & bytes' & E' & Hup). simplify_eq. by exists bv.
    - rewrite db_get_view, Eb. simpl. eexists. split; [done|].
      unfold bv_len. rewrite bits_from_bytes. split; [done|]. intros i _.
      rewrite decide_False; [done|]. intros Hin. apply Hup, list_elem_of_fmap.
      by eexists {| id := id p; index := Z.of_nat i |}. }
  simpl. destruct (bv_set_Some bv (Z.to_nat (index p)) true ltac:(lia)) as (w & -> & Hw).
  simpl. eexists. split; [done|]. intros t. destruct (decide (t = id p)) as [->|Hne].
  - rewrite lookup_insert_eq. split; [set_solver|]. exists bytes. unfold bv_len in *. rewrite Hw, length_insert.
    split_and!; [done | done |]. intros i Hi.
    destruct (decide (i = Z.to_nat (index p))) as [->|Hi'].
    + rewrite list_lookup_insert_eq by lia. rewrite decide_True; [done|].
      rewrite Z2Nat.id by done. apply elem_of_app. right. destruct p. by left.
    + rewrite list_lookup_insert_ne by done. rewrite Hbits by done.
      apply decide_ext. rewrite elem_of_app, list_elem_of_singleton.
      split; [auto|]. intros [?|Hx]; [done|].
      rewrite <- Hx in Hi'. simpl in Hi'. lia.
  - rewrite lookup_insert_ne by done. specialize (Hu t).
    destruct (u !! t) as [bv'|].
    + destruct Hu as (? & by' & ? & ? & Hbt). split; [set_solver|]. exists by'.
      split_and!; [done | done |].
      intros i Hi. rewrite Hbt by done. apply decide_ext.
      rewrite elem_of_app, list_elem_of_singleton. split; [auto|]. intros [?|Hx]; [done|].
      by rewrite <- Hx in Hne.
    + rewrite fmap_app, elem_of_app. intros [?|Hx]; [done|]. by apply list_elem_of_singleton in Hx.
Qed.

Lemma spend_loop_spec db seen u ins :
  spent_upto (db_view db) seen u →
  Forall (λ p, is_Some (utxo_status (db_view db) p) ∧ 0 ≤ index p) ins →
  ∃ u', spend_loop db u ins = Some u' ∧ spent_upto (db_view db) (seen ++ ins) u'.
Proof.
  revert seen u. induction ins as [|p ins IH]; intros seen u Hu Hins; cbn [spend_loop].
  { rewrite app_nil_r. by exists u. }
  apply Forall_cons in Hins as [[Hs Hp] Hins].
  destruct (spend_step_spec db seen u p Hu Hs Hp) as (u' & -> & Hu'). simpl.
  destruct (IH _ _ Hu' Hins) as (u'' & -> & Hu''). exists u''. split; [done|].
  by rewrite <- app_assoc in Hu''.
Qed.

(** Spending recorded outputs does not panic, and appends operations that set
    exactly their bits, whatever was written to the store before them. *)
Lemma spend_utxos_spec ins db dbtx :
  Forall (λ p, is_Some (utxo_status (db_view db) p) ∧ 0 ≤ index p) ins →
  ∃ ops, spend_utxos ins db dbtx = Some (dbtx ++ ops)
    ∧ (∀ m p, 0 ≤ index p → utxo_status (apply_ops m ops) p
         = if decide (p ∈ ins) then Some true
           else if decide (id p ∈ id <$> ins) then utxo_status (db_view db) p else utxo_status m p)
    ∧ (∀ m c k, c ≠ COL_TX_META → apply_ops m ops !! (c, k) = m !! (c, k)).
Proof.
  intros Hins. unfold spend_utxos.
  destruct (spend_loop_spec db [] ∅ ins) as (u & -> & Hu); [|done|].
  { intros t. rewrite lookup_empty. simpl. set_solver. }
  simpl in *. eexists. split; [done|].
  assert (Hops : ∀ m c k, apply_ops m ((λ e, Put COL_TX_META e.1 (bv_to_bytes e.2)) <$> btree_iter u)
      !! (c, k) = if decide (c = COL_TX_META)
                  then match bv_to_bytes <$> u !! k with Some v => Some v | None => m !! (c, k) end
                  else m !! (c, k)).
  { intros m c k. pose proof (apply_puts COL_TX_META ((λ e, (e.1, bv_to_bytes e.2)) <$> btree_iter u) m c k) as Hp.
    rewrite list_to_map_btree_iter, lookup_fmap, <- !list_fmap_compose in Hp. apply Hp, NoDup_btree_iter. }
  split; [|intros m c k Hc; rewrite Hops; by rewrite decide_False].
  intros m p Hp. unfold utxo_status at 1. rewrite Hops, decide_True by done.
  specialize (Hu (id p)). destruct (u !! id p) as [bv|]; simpl.
  - destruct Hu as (Hid & bytes & Eb & Hlen & Hbits).
    assert (Hback : bits_of_bytes (bv_to_bytes bv) = bits bv).
    { rewrite <- bits_from_bytes, (from_to_bytes bv (length bytes)); [done|].
      by rewrite Hlen, length_bits_of_bytes. }
    rewrite Hback, (decide_True _ _ Hid). unfold utxo_status. rewrite Eb. simpl.
    destruct (decide (Z.to_nat (index p) < bv_len bv)%nat) as [Hlt|Hge].
    + rewrite Hbits, Z2Nat.id by done. by destruct p.
    + rewrite (lookup_ge_None_2 (bits bv)) by (unfold bv_len in Hge; lia).
      rewrite (lookup_ge_None_2 (bits_of_bytes bytes)) by lia.
      rewrite decide_False; [done|]. intros Hin. rewrite Forall_forall in Hins.
      destruct (Hins p Hin) as [[b Hb] _]. unfold utxo_status in Hb. rewrite Eb in Hb.
      apply lookup_lt_Some in Hb. lia.
  - rewrite !decide_False; [done | done |]. set_solver.
Qed.

(** The inputs the lookup accepts can be spent, and nothing else changes. *)
Lemma spend_checked ins db :
  Forall (λ p, 0 ≤ index p) ins → check_spent_input_lookup ins db = Ok () →
  ∃ ops, spend_utxos ins db [] = Some ops
    ∧ ∀ p, 0 ≤ index p → utxo_status (db_view (db_write_buffered db ops)) p
         = if decide (p ∈ ins) then Some true else utxo_status (db_view db) p.
Proof.
  intros Hi [_ Hs]%check_spent_input_lookup_ok.
  destruct (spend_utxos_spec ins db []) as (ops & Eops & Hops & _).
  { rewrite Forall_forall in Hi, Hs |- *. intros p Hp. split; [by rewrite (Hs p Hp) | auto]. }
  exists ops. split; [done|]. intros p Hp. rewrite db_write_buffered_view, Hops by done.
  by repeat case_decide.
Qed.

(** An input that is spent is refused. *)
Lemma check_spent_refuses ins db p :
  p ∈ ins → utxo_status (db_view db) p = Some true → ∃ e, check_spent_input_lookup ins db = Err e.
Proof.
  intros Hp Hs. destruct (check_spent_input_lookup ins db) as [[]|e] eqn:E; [|by eexists].
  apply check_spent_input_lookup_ok in E as [_ E]. rewrite Forall_forall in E.
  specialize (E p Hp). congruence.
Qed.

(** The lookup depends only on the statuses of the inputs. *)
Lemma check_spent_input_lookup_ext ins db db' :
  Forall (λ p, utxo_status (db_view db) p = utxo_status (db_view db') p) ins →
  check_spent_input_lookup ins db = check_spent_input_lookup ins db'.
Proof.
  intros Hins. assert (check_spent_loop ins db = check_spent_loop ins db').
  { induction Hins as [|p ins Hp _ IH]; [done|]. cbn [check_spent_loop].
    rewrite IH, !db_get_view. unfold utxo_status in Hp. unfold bv_get.
    destruct (db_view db !! _), (db_view db' !! _); simpl in Hp; rewrite ?bits_from_bytes, ?Hp, <- ?Hp; done. }
  by destruct ins.
Qed.

(** The record of a new transaction: all outputs unspent, and so are the indices
    up to the end of the last byte. *)
Lemma new_record_status n i :
  0 ≤ n → 0 ≤ i →
  bits_of_bytes (bv_to_bytes (bv_from_elem (Z.to_nat n) false)) !! Z.to_nat i
  = if i <? 8 * ((n + 7) / 8) then Some false else None.
Proof.
  intros Hn Hi. rewrite to_bytes_bits, bits_from_elem.
  destruct (bits_of_bytes_of_bits (replicate (Z.to_nat n) false)) as (k & Hk & -> & Hlen).
  rewrite length_replicate in *.
  rewrite <- replicate_add. set (m := (Z.to_nat n + k)%nat) in *.
  assert (Hm : Z.of_nat m = 8 * ((n + 7) / 8)) by (unfold m in *; Z.div_mod_to_equations; lia).
  destruct (Z.ltb_spec i (8 * ((n + 7) / 8))).
  - apply lookup_replicate_2. lia.
  - apply lookup_replicate_None. lia.
Qed.
End utxos.

(** ** Accounts by key *)

Abbreviation accmap := (gmap (list byte) StakedState) (only parsing).

(** Every account is well formed and stored under the key of its address. *)
Definition accmap_ok `{Hashes} (m : accmap) : Prop :=
  map_Forall (λ k a, k = staked_key a ∧ staked_state_ok a) m.

Lemma accmap_ok_insert `{Hashes} m a :
  accmap_ok m → staked_state_ok a → accmap_ok (<[staked_key a := a]> m).
Proof. intros Hm Ha. by apply map_Forall_insert_2. Qed.

(** The coins of all accounts. *)
Definition total_stake (m : accmap) : Z := map_sum stake_total m.

Lemma total_stake_insert_fresh m k a :
  m !! k = None → total_stake (<[k := a]> m) = stake_total a + total_stake m.
Proof. apply map_sum_insert_fresh. Qed.

Lemma total_stake_delete m k a :
  m !! k = Some a → total_stake m = stake_total a + total_stake (delete k m).
Proof. apply map_sum_delete. Qed.

Lemma total_stake_insert m k a :
  total_stake (<[k := a]> m)
  = total_stake m + stake_total a - (match m !! k with Some b => stake_total b | None => 0 end).
Proof. apply map_sum_insert. Qed.

Section accounts.
Context `{Hashes, ScaleLaws, StarlingLaws}.

(** A root of the trie holds a map of accounts. *)
Definition holds (s : AccountStorage) (r : H256) (m : accmap) : Prop :=
  trie_view s r = Some (account_wrapper_encode <$> m) ∧ accmap_ok m.

(** The storage still has everything another one has. *)
Definition keeps (s s' : AccountStorage) : Prop := ∀ r m, holds s r m → holds s' r m.

Lemma keeps_refl s : keeps s s.
Proof. by intros ? ?. Qed.
Lemma keeps_trans s s' s'' : keeps s s' → keeps s' s'' → keeps s s''.
Proof. intros H1' H2' r m Hm. by apply H2', H1'. Qed.

Lemma get_account_holds s r m a :
  holds s r m → get_account a r s = ok_or (m !! to_stake_key a) AccountNotFound.
Proof.
  intros [Hv Hm]. unfold get_account. rewrite (trie_get_view _ _ _ _ Hv), lookup_fmap. simpl.
  destruct (m !! to_stake_key a) as [b|] eqn:E; [|done]. simpl. unfold account_wrapper_decode.
  unfold account_wrapper_encode. rewrite (decode_ok staked_state_ok); [done| |].
  - apply staked_state_codec_ok.
  - by destruct (Hm _ _ E).
Qed.

Lemma get_account_Ok s r m a b :
  holds s r m → get_account a r s = Ok b ↔ m !! to_stake_key a = Some b.
Proof. intros Hm. rewrite (get_account_holds s r m) by done. destruct (m !! _); naive_solver. Qed.

Lemma update_account_holds s r m a :
  holds s r m → staked_state_ok a →
  ∃ r' s', update_account a r s = Some (r', Some a, s') ∧ holds s' r' (<[staked_key a := a]> m)
    ∧ keeps s s'.
Proof.
  intros [Hv Hm] Ha. unfold update_account.
  destruct (trie_insert_one_view s r (staked_key a) (account_wrapper_encode a) _ Hv)
    as (r' & s' & -> & Hv' & Hk). simpl. exists r', s'. split; [done|]. split.
  - split; [|by apply accmap_ok_insert]. by rewrite fmap_insert.
  - intros r0 m0 [Hv0 ?]. split; [by apply Hk | done].
Qed.

Lemma compute_accounts_root_holds s l :
  l ≠ [] → NoDup (staked_key <$> l) → Forall staked_state_ok l →
  ∃ r' s', compute_accounts_root s l = Some (r', s')
    ∧ holds s' r' (list_to_map ((λ a, (staked_key a, a)) <$> l)) ∧ keeps s s'.
Proof.
  intros Hl Hn Hok. unfold compute_accounts_root.
  destruct (trie_insert_view s (staked_key <$> l) (account_wrapper_encode <$> l))
    as (r' & s' & -> & Hv & Hk); [by destruct l | done | by rewrite !length_fmap |].
  exists r', s'. split; [done|]. split.
  - split.
    + rewrite Hv. f_equal. rewrite <- list_to_map_fmap, <- list_fmap_compose, zip_with_fmap_l,
        zip_with_fmap_r, zip_with_diag. done.
    + intros k a Hka. apply elem_of_list_to_map_2, list_elem_of_fmap in Hka as (b & [= -> ->] & Hb).
      rewrite Forall_forall in Hok. auto.
  - intros r0 m0 [Hv0 ?]. split; [by apply Hk | done].
Qed.
End accounts.

(** ** Properties *)

(** C10. Outputs are spent once.  When the lookup accepts the inputs of a
    transaction, marking them does not panic; afterwards their bits are set and
    no other output changed, so the lookup refuses every transaction that shares
    an input with it and answers as before for every transaction that does not. *)
Theorem utxo_no_double_spend `{BitVecLaws, KeyValueDBLaws} ins db :
  Forall (λ p, 0 ≤ index p) ins →
  check_spent_input_lookup ins db = Ok () →
  ∃ ops, spend_utxos ins db [] = Some ops ∧
    let db' := db_write_buffered db ops in
    (∀ p, 0 ≤ index p →
      utxo_status (db_view db') p = if decide (p ∈ ins) then Some true else utxo_status (db_view db) p)
    ∧ (∀ ins', Forall (λ p, 0 ≤ index p) ins' →
        ((∃ p, p ∈ ins ∧ p ∈ ins') → ∃ e, check_spent_input_lookup ins' db' = Err e)
        ∧ ((∀ p, p ∈ ins → p ∉ ins') →
             check_spent_input_lookup ins' db' = check_spent_input_lookup ins' db)).
Proof.
  intros Hi Hc. destruct (spend_checked ins db Hi Hc) as (ops & Eops & Hst).
  exists ops. split; [done|]. intros db'. split; [done|].
  intros ins' Hi'. rewrite Forall_forall in Hi, Hi'. split.
  - intros (p & Hp & Hp'). apply (check_spent_refuses ins' db' p Hp'). rewrite Hst by auto.
    by rewrite decide_True.
  - intros Hd. apply check_spent_input_lookup_ext, Forall_forall. intros p Hp.
    rewrite Hst, decide_False; [done | by intros ?%Hd | auto].
Qed.

Section witnesses.
#[local] Existing Instance bit_vec_ref.
#[local] Existing Instance bit_vec_ref_laws.
#[local] Existing Instance kvdb_ref.
#[local] Existing Instance kvdb_ref_laws.

Definition txo_example (i : Z) : TxoPointer := {| id := replicate 32 Byte.x07; index := i |}.
Definition db_example : dbmap := {[ (COL_TX_META, replicate 32 Byte.x07) := [Byte.x40] ]}.

Lemma utxo_no_double_spend_witness :
  check_spent_input_lookup [txo_example 0; txo_example 2] db_example = Ok ()
  ∧ ∃ ops, spend_utxos [txo_example 0; txo_example 2] db_example [] = Some ops
      ∧ (∃ e, check_spent_input_lookup [txo_example 3; txo_example 2] (apply_ops db_example ops) = Err e)
      ∧ check_spent_input_lookup [txo_example 3] (apply_ops db_example ops) = Ok ().
Proof.
  assert (E : check_spent_input_lookup [txo_example 0; txo_example 2] db_example = Ok ())
    by (vm_compute; reflexivity).
  split; [exact E|].
  assert (Hi : Forall (λ p, 0 ≤ index p) [txo_example 0; txo_example 2])
    by (repeat constructor; simpl; lia).
  destruct (utxo_no_double_spend _ _ Hi E) as (ops & Hops & _ & Hr). exists ops.
  split; [exact Hops|]. split.
  - apply (Hr [txo_example 3; txo_example 2]); [repeat constructor; simpl; lia|].
    exists (txo_example 2). split; repeat (left || right).
  - destruct (Hr [txo_example 3]) as [_ Hd]; [repeat constructor; simpl; lia|].
    transitivity (check_spent_input_lookup [txo_example 3] db_example); [|vm_compute; reflexivity].
    apply Hd. intros p Hp Hp'. apply list_elem_of_singleton in Hp'. subst p.
    repeat (apply elem_of_cons in Hp as [Hp|Hp]; [discriminate Hp|]). by apply elem_of_nil in Hp.
Defined.
End witnesses.

(** The record that a committed transaction creates has all of its outputs
    unspent and no output beyond the byte that holds the last one; the outputs
    recorded before keep their status, except the inputs, which are spent.  The
    indices that fill up the last byte pass the lookup although the transaction
    has no such output. *)
Theorem commit_records_outputs `{BitVecLaws, KeyValueDBLaws} ins n i db :
  0 ≤ n → i ∉ id <$> ins →
  Forall (λ p, is_Some (utxo_status (db_view db) p) ∧ 0 ≤ index p) ins →
  ∃ ops, update_utxos_commit ins n i db [] = Some ops ∧
    ∀ p, 0 ≤ index p → utxo_status (apply_ops (db_view db) ops) p
      = if decide (id p = i) then (if index p <? 8 * ((n + 7) / 8) then Some false else None)
        else if decide (p ∈ ins) then Some true else utxo_status (db_view db) p.
Proof.
  intros Hn Hi Hins. destruct (spend_utxos_spec ins db [] Hins) as (ops & E & Hops & _).
  unfold update_utxos_commit. rewrite E. simpl. eexists. split; [done|]. intros p Hp.
  rewrite apply_ops_app. simpl. case_decide as Hid.
  - unfold utxo_status. rewrite Hid, lookup_insert_eq. by apply new_record_status.
  - unfold utxo_status. rewrite lookup_insert_ne by congruence.
    change (utxo_status (apply_ops (db_view db) ops) p
      = if decide (p ∈ ins) then Some true else utxo_status (db_view db) p).
    rewrite Hops by done. by repeat case_decide.
Qed.

Section commit_witness.
#[local] Existing Instance bit_vec_ref.
#[local] Existing Instance bit_vec_ref_laws.
#[local] Existing Instance kvdb_ref.
#[local] Existing Instance kvdb_ref_laws.

Lemma commit_records_outputs_witness :
  ∃ ops, update_utxos_commit [txo_example 0] 2 (replicate 32 Byte.x09) db_example [] = Some ops
    ∧ utxo_status (apply_ops db_example ops) {| id := replicate 32 Byte.x09; index := 7 |} = Some false.
Proof.
  assert (Hi : replicate 32 Byte.x09 ∉ id <$> [txo_example 0])
    by (intros Hin; apply list_elem_of_singleton in Hin; discriminate Hin).
  assert (Hin : Forall (λ p, is_Some (utxo_status (db_view (db_example : Db)) p) ∧ 0 ≤ index p)
                  [txo_example 0]).
  { repeat constructor; [|simpl; lia]. exists false. vm_compute. reflexivity. }
  destruct (commit_records_outputs _ 2 _ _ ltac:(lia) Hi Hin) as (ops & E & Hst).
  exists ops. split; [exact E|].
  transitivity (utxo_status (apply_ops (db_view (db_example : Db)) ops)
                  {| id := replicate 32 Byte.x09; index := 7 |}); [reflexivity|].
  rewrite Hst by (simpl; lia). vm_compute. reflexivity.
Defined.
End commit_witness.
