(* ===== verification/EnclaveProtocol.v ===== *)
(** * EnclaveProtocol: the messages between the node and the enclaves

    Models [src/enclave-protocol/src/lib.rs]: the requests and responses the
    application, the validation server and the enclaves exchange, their derived
    encodings, the signed decryption request of a wallet, and the trait
    [EnclaveProxy] of [src/chain-abci/src/enclave_bridge/mod.rs] as a class. *)

From stdpp Require Import base tactics option list gmap strings.
From Stdlib Require Import ZArith Lia.
From S2P Require Import Prelude Text Codec Milli Coin Crypto Merkle Params Account TxTypes.
From S2P Require Import Validation.

Definition ENCRYPTION_REQUEST_SIZE : Z := 1024 * 60.
Abbreviation SealedLog := (list byte) (only parsing).
Abbreviation TxFilter := (list byte) (only parsing).

Section protocol.
Context `{Secp256k1}.

Record VerifyTxRequest := {
  req_tx : TxEnclaveAux;
  req_account : option StakedState;
  req_info : ChainInfo;
}.

Record IntraEncryptRequest := {
  encrypt_txid : TxId;
  encrypt_sealed_enc_request : SealedLog;
  encrypt_tx_inputs : option (list SealedLog);
  encrypt_info : ChainInfo;
}.

Inductive IntraEnclaveRequest :=
  | ValidateTx (request : VerifyTxRequest) (tx_inputs : option (list SealedLog))
  | IntraEndBlock
  | IntraEncrypt (request : IntraEncryptRequest).

Inductive IntraEnclaveResponseOk :=
  | OkTxWithOutputs (paid_fee : Fee) (sealed_tx : SealedLog)
  | OkDepositStakeTx (input_coins : Coin)
  | OkEndBlock (filter : option TxFilter)
  | OkEncrypt (tx : TxObfuscated).
Abbreviation IntraEnclaveResponse := (result Error IntraEnclaveResponseOk) (only parsing).

Record QueryEncryptRequest := {
  query_txid : TxId;
  query_sealed_enc_request : SealedLog;
  query_tx_inputs : option (list TxoPointer);
}.

Inductive EnclaveRequest :=
  | CheckChain (hex_id : Z) (last_app_hash : option H256)
  | VerifyTx (request : VerifyTxRequest)
  | EndBlock
  | CommitBlock (app_hash : H256) (info : ChainInfo)
  | GetSealedTxData (txids : list TxId)
  | EncryptTx (request : QueryEncryptRequest).

Definition new_tx_request (tx : TxEnclaveAux) (account : option StakedState) (info : ChainInfo) :
  EnclaveRequest := VerifyTx {| req_tx := tx; req_account := account; req_info := info |}.

Inductive EnclaveResponse :=
  | RespCheckChain (r : result (option H256) ())
  | RespVerifyTx (r : result Error (Fee * option StakedState))
  | RespEndBlock (r : result () (option TxFilter))
  | RespCommitBlock (r : result () ())
  | RespGetSealedTxData (r : option (list SealedLog))
  | RespEncryptTx (r : result Error TxObfuscated)
  | UnknownRequest.

(** The basic assumptions on a request: deposits and transfers come with inputs,
    withdrawals with an account. *)
Definition is_basic_valid_tx_request (request : VerifyTxRequest) (tx_inputs : option (list SealedLog))
    (chain_hex_id : Z) : result () () :=
  if negb (info_chain_hex_id (req_info request) =? chain_hex_id) then Err ()
  else
    match req_tx request with
    | DepositStakeTx _ _ | TransferTx _ _ _ =>
        match tx_inputs with Some (_ :: _) => Ok () | _ => Err () end
    | WithdrawUnbondedStakeTx _ _ _ =>
        match req_account request with Some _ => Ok () | None => Err () end
    end.

(** The requests of a wallet to the query enclave. *)
Inductive EncryptionRequest :=
  | EncTransferTx (tx : Tx) (witness : TxWitness)
  | EncDepositStake (tx : DepositBondTx) (witness : TxWitness)
  | EncWithdrawStake (tx : WithdrawUnbondedTx) (account : StakedState) (witness : StakedStateOpWitness).

Inductive TxQueryInitRequest :=
  | QueryEncrypt (request : EncryptionRequest)
  | QueryDecryptChallenge.

Inductive TxQueryInitResponse :=
  | RespQueryEncrypt (resp : result Error TxEnclaveAux)
  | RespQueryDecryptChallenge (challenge : H256).

Record DecryptionRequestBody := {
  body_txs : list TxId;
  body_view_key : PublicKey;
  body_challenge : H256;
}.

(** ** Encodings *)

Context `{Scale}.

(** [Result] writes 0 before a value and 1 before an error. *)
Definition result_codec {E A} (ce : codec E) (ca : codec A) : codec (result E A) :=
  Codec (λ r, match r with Ok a => Byte.x00 :: enc ca a | Err e => Byte.x01 :: enc ce e end)
    (tag ⇐ read_byte;
     if decide (tag = Byte.x00) then (a ⇐ dec ca; dret (Ok a))
     else if decide (tag = Byte.x01) then (e ⇐ dec ce; dret (Err e)) else dfail).

Definition unit_codec : codec () := Codec (λ _, []) (dret ()).

Definition all_errors : list Error :=
  [WrongChainHexId; NoInputs; NoOutputs; DuplicateInputs; ZeroCoin; InvalidSum; UnexpectedWitnesses;
   MissingWitnesses; InvalidInput; InputSpent; InputOutputDoNotMatch; OutputInTimelock; EcdsaCrypto;
   IoError; EnclaveRejected; AccountNotFound; AccountNotUnbonded; AccountWithdrawOutputNotLocked;
   MismatchAccountAddress; AccountIncorrectNonce; AccountJailed; AccountNotJailed; NotEnoughStake;
   DuplicateValidator].

(** The position of the variant. *)
Fixpoint error_index_in (l : list Error) (e : Error) : Z :=
  match l with
  | [] => 0
  | x :: l => if decide (x = e) then 0 else 1 + error_index_in l e
  end.

Definition error_codec : codec Error :=
  Codec (λ e, [byte_of_Z (error_index_in all_errors e)])
    (tag ⇐ read_byte;
     match all_errors !! Z.to_nat (byte_to_Z tag) with Some e => dret e | None => dfail end).

Definition chain_info_codec : codec ChainInfo :=
  Codec (λ i, enc coin_codec (min_fee_computed i) ++ enc u8_codec (info_chain_hex_id i)
              ++ enc u64_codec (previous_block_time i) ++ enc u32_codec (info_unbonding_period i))
    (f ⇐ dec coin_codec; c ⇐ dec u8_codec; t ⇐ dec u64_codec; u ⇐ dec u32_codec;
     dret {| min_fee_computed := f; info_chain_hex_id := c; previous_block_time := t;
             info_unbonding_period := u |}).

Definition verify_tx_request_codec : codec VerifyTxRequest :=
  Codec (λ r, enc tx_enclave_aux_codec (req_tx r)
              ++ enc (option_codec staked_state_codec) (req_account r)
              ++ enc chain_info_codec (req_info r))
    (t ⇐ dec tx_enclave_aux_codec; a ⇐ dec (option_codec staked_state_codec);
     i ⇐ dec chain_info_codec;
     dret {| req_tx := t; req_account := a; req_info := i |}).

Definition intra_encrypt_request_codec : codec IntraEncryptRequest :=
  Codec (λ r, enc (array_codec 32) (encrypt_txid r) ++ enc bytes_codec (encrypt_sealed_enc_request r)
              ++ enc (option_codec (vec_codec bytes_codec)) (encrypt_tx_inputs r)
              ++ enc chain_info_codec (encrypt_info r))
    (t ⇐ dec (array_codec 32); s ⇐ dec bytes_codec;
     l ⇐ dec (option_codec (vec_codec bytes_codec)); i ⇐ dec chain_info_codec;
     dret {| encrypt_txid := t; encrypt_sealed_enc_request := s; encrypt_tx_inputs := l;
             encrypt_info := i |}).

Definition intra_enclave_request_codec : codec IntraEnclaveRequest :=
  Codec (λ r, match r with
              | ValidateTx req l =>
                  Byte.x00 :: enc verify_tx_request_codec req
                    ++ enc (option_codec (vec_codec bytes_codec)) l
              | IntraEndBlock => [Byte.x01]
              | IntraEncrypt req => Byte.x02 :: enc intra_encrypt_request_codec req
              end)
    (tag ⇐ read_byte;
     if decide (tag = Byte.x00) then
       (req ⇐ dec verify_tx_request_codec; l ⇐ dec (option_codec (vec_codec bytes_codec));
        dret (ValidateTx req l))
     else if decide (tag = Byte.x01) then dret IntraEndBlock
     else if decide (tag = Byte.x02) then
       (req ⇐ dec intra_encrypt_request_codec; dret (IntraEncrypt req))
     else dfail).

Definition intra_enclave_response_ok_codec : codec IntraEnclaveResponseOk :=
  Codec (λ r, match r with
              | OkTxWithOutputs f s => Byte.x00 :: enc coin_codec f ++ enc bytes_codec s
              | OkDepositStakeTx c => Byte.x01 :: enc coin_codec c
              | OkEndBlock o => Byte.x02 :: enc (option_codec (array_codec 256)) o
              | OkEncrypt t => Byte.x03 :: enc obfuscated_codec t
              end)
    (tag ⇐ read_byte;
     if decide (tag = Byte.x00) then
       (f ⇐ dec coin_codec; s ⇐ dec bytes_codec; dret (OkTxWithOutputs f s))
     else if decide (tag = Byte.x01) then (c ⇐ dec coin_codec; dret (OkDepositStakeTx c))
     else if decide (tag = Byte.x02) then
       (o ⇐ dec (option_codec (array_codec 256)); dret (OkEndBlock o))
     else if decide (tag = Byte.x03) then (t ⇐ dec obfuscated_codec; dret (OkEncrypt t))
     else dfail).

Definition intra_enclave_response_codec : codec IntraEnclaveResponse :=
  result_codec error_codec intra_enclave_response_ok_codec.

Definition query_encrypt_request_codec : codec QueryEncryptRequest :=
  Codec (λ r, enc (array_codec 32) (query_txid r) ++ enc bytes_codec (query_sealed_enc_request r)
              ++ enc (option_codec (vec_codec txo_pointer_codec)) (query_tx_inputs r))
    (t ⇐ dec (array_codec 32); s ⇐ dec bytes_codec;
     l ⇐ dec (option_codec (vec_codec txo_pointer_codec));
     dret {| query_txid := t; query_sealed_enc_request := s; query_tx_inputs := l |}).

Definition enclave_request_codec : codec EnclaveRequest :=
  Codec (λ r, match r with
              | CheckChain c h =>
                  Byte.x00 :: enc u8_codec c ++ enc (option_codec (array_codec 32)) h
              | VerifyTx req => Byte.x01 :: enc verify_tx_request_codec req
              | EndBlock => [Byte.x02]
              | CommitBlock h i => Byte.x03 :: enc (array_codec 32) h ++ enc chain_info_codec i
              | GetSealedTxData l => Byte.x04 :: enc (vec_codec (array_codec 32)) l
              | EncryptTx req => Byte.x05 :: enc query_encrypt_request_codec req
              end)
    (tag ⇐ read_byte;
     if decide (tag = Byte.x00) then
       (c ⇐ dec u8_codec; h ⇐ dec (option_codec (array_codec 32)); dret (CheckChain c h))
     else if decide (tag = Byte.x01) then (req ⇐ dec verify_tx_request_codec; dret (VerifyTx req))
     else if decide (tag = Byte.x02) then dret EndBlock
     else if decide (tag = Byte.x03) then
       (h ⇐ dec (array_codec 32); i ⇐ dec chain_info_codec; dret (CommitBlock h i))
     else if decide (tag = Byte.x04) then
       (l ⇐ dec (vec_codec (array_codec 32)); dret (GetSealedTxData l))
     else if decide (tag = Byte.x05) then
       (req ⇐ dec query_encrypt_request_codec; dret (EncryptTx req))
     else dfail).

Definition enclave_response_codec : codec EnclaveResponse :=
  Codec (λ r, match r with
              | RespCheckChain r =>
                  Byte.x00 :: enc (result_codec (option_codec (array_codec 32)) unit_codec) r
              | RespVerifyTx r =>
                  Byte.x01 :: enc (result_codec error_codec
                                     (codec_pair coin_codec (option_codec staked_state_codec))) r
              | RespEndBlock r =>
                  Byte.x02 :: enc (result_codec unit_codec (option_codec (array_codec 256))) r
              | RespCommitBlock r => Byte.x03 :: enc (result_codec unit_codec unit_codec) r
              | RespGetSealedTxData r => Byte.x04 :: enc (option_codec (vec_codec bytes_codec)) r
              | RespEncryptTx r => Byte.x05 :: enc (result_codec error_codec obfuscated_codec) r
              | UnknownRequest => [Byte.x06]
              end)
    (tag ⇐ read_byte;
     if decide (tag = Byte.x00) then
       (r ⇐ dec (result_codec (option_codec (array_codec 32)) unit_codec); dret (RespCheckChain r))
     else if decide (tag = Byte.x01) then
       (r ⇐ dec (result_codec error_codec (codec_pair coin_codec (option_codec staked_state_codec)));
        dret (RespVerifyTx r))
     else if decide (tag = Byte.x02) then
       (r ⇐ dec (result_codec unit_codec (option_codec (array_codec 256))); dret (RespEndBlock r))
     else if decide (tag = Byte.x03) then
       (r ⇐ dec (result_codec unit_codec unit_codec); dret (RespCommitBlock r))
     else if decide (tag = Byte.x04) then
       (r ⇐ dec (option_codec (vec_codec bytes_codec)); dret (RespGetSealedTxData r))
     else if decide (tag = Byte.x05) then
       (r ⇐ dec (result_codec error_codec obfuscated_codec); dret (RespEncryptTx r))
     else if decide (tag = Byte.x06) then dret UnknownRequest
     else dfail).

(** The limit of a request counts the bytes after it, as for the transactions in it. *)
Definition encryption_request_codec : codec EncryptionRequest :=
  Codec (λ r, match r with
              | EncTransferTx tx w => Byte.x00 :: enc tx_codec tx ++ enc tx_witness_codec w
              | EncDepositStake tx w => Byte.x01 :: enc deposit_codec tx ++ enc tx_witness_codec w
              | EncWithdrawStake tx a w =>
                  Byte.x02 :: enc withdraw_codec tx ++ enc staked_state_codec a
                    ++ enc op_witness_codec w
              end)
    (size_guard ENCRYPTION_REQUEST_SIZE
      (tag ⇐ read_byte;
       if decide (tag = Byte.x00) then
         (tx ⇐ dec tx_codec; w ⇐ dec tx_witness_codec; dret (EncTransferTx tx w))
       else if decide (tag = Byte.x01) then
         (tx ⇐ dec deposit_codec; w ⇐ dec tx_witness_codec; dret (EncDepositStake tx w))
       else if decide (tag = Byte.x02) then
         (tx ⇐ dec withdraw_codec; a ⇐ dec staked_state_codec; w ⇐ dec op_witness_codec;
          dret (EncWithdrawStake tx a w))
       else dfail)).
End protocol.

(** ** Well-formed requests *)

Definition chain_info_ok (i : ChainInfo) : Prop :=
  coin_ok (min_fee_computed i) ∧ is_u8 (info_chain_hex_id i) ∧ is_u64 (previous_block_time i)
  ∧ is_u32 (info_unbonding_period i).
Definition verify_request_ok `{Secp256k1} (r : VerifyTxRequest) : Prop :=
  enclave_aux_ok (req_tx r) ∧ option_ok staked_state_ok (req_account r) ∧ chain_info_ok (req_info r).

Abbreviation IntraEnclaveResponse := (result Error IntraEnclaveResponseOk) (only parsing).

(** The connection to an enclave process: a state and the answer to a request,
    which may panic. *)
Class EnclaveProxy `{Secp256k1} := {
  Proxy : Type;
  process_request : Proxy → EnclaveRequest → option (EnclaveResponse * Proxy);
}.

(** What the application relies on when an enclave accepts a well-formed request: the
    payload opens to a plain transaction with the identifier and number of outputs
    that are public, and the check of that transaction passes against transactions
    that the enclave holds.  The promise is kept by connections that satisfy an
    invariant, which every request preserves. *)
Class EnclaveContract `{Hashes, Secp256k1, Scale, !EnclaveProxy} := {
  enclave_open : TxObfuscated → option PlainTxAux;
  proxy_inv : Proxy → Prop;
  proxy_inv_step p request response p' :
    proxy_inv p → process_request p request = Some (response, p') → proxy_inv p';
  contract_transfer p p' ins n payload info fee acc :
    proxy_inv p →
    verify_request_ok {| req_tx := TransferTx ins n payload; req_account := None; req_info := info |} →
    process_request p (new_tx_request (TransferTx ins n payload) None info)
      = Some (RespVerifyTx (Ok (fee, acc)), p') →
    acc = None ∧ ∃ tx w sources, enclave_open payload = Some (PlainTransferTx tx w)
      ∧ transaction_id tx_codec tx = txid payload ∧ as_u16 (Z.of_nat (length (outputs tx))) = n
      ∧ outs_ok sources ∧ Forall (λ o, coin_ok (out_value o)) (outputs tx)
      ∧ verify_transfer tx w info sources = Some (Ok fee);
  contract_deposit p p' tx payload account info fee acc :
    proxy_inv p →
    verify_request_ok {| req_tx := DepositStakeTx tx payload; req_account := account;
                         req_info := info |} →
    (∀ a, account = Some a → is_jailed a = false) →
    process_request p (new_tx_request (DepositStakeTx tx payload) account info)
      = Some (RespVerifyTx (Ok (fee, acc)), p') →
    ∃ w sources, enclave_open payload = Some (PlainDepositStakeTx w) ∧ outs_ok sources
      ∧ verify_bonded_deposit tx w info sources account = Some (Ok (fee, acc));
  contract_withdraw p p' n w payload account info fee acc :
    proxy_inv p →
    verify_request_ok {| req_tx := WithdrawUnbondedStakeTx n w payload; req_account := Some account;
                         req_info := info |} →
    process_request p (new_tx_request (WithdrawUnbondedStakeTx n w payload) (Some account) info)
      = Some (RespVerifyTx (Ok (fee, acc)), p') →
    ∃ tx, enclave_open payload = Some (PlainWithdrawUnbondedStakeTx tx)
      ∧ transaction_id withdraw_codec tx = txid payload
      ∧ as_u16 (Z.of_nat (length (withdraw_outputs tx))) = n
      ∧ Forall (λ o, coin_ok (out_value o)) (withdraw_outputs tx)
      ∧ verify_unbonded_withdraw tx info account = Some (Ok (fee, acc));
}.
