(* ===== verification/EnclaveCodec.v ===== *)
(** * EnclaveCodec: the messages of the enclaves survive their encodings

    The round trips of the encodings of [src/enclave-protocol/src/lib.rs].  Where a
    message holds a transaction with a limit on its size, a decoder may refuse what
    was encoded, but it never returns another message. *)

From stdpp Require Import base tactics option list gmap strings.
From Stdlib Require Import ZArith Lia.
From S2P Require Import Prelude Text Codec Milli Coin Crypto Merkle Params Account TxTypes.
From S2P Require Import Validation EnclaveProtocol.

Lemma decode_whole {A} (wf : A → Prop) (c : codec A) a b :
  codec_sound wf c → wf a → decode c (enc c a) = Some b → b = a.
Proof. intros Hc Ha Hd. rewrite <- (app_nil_r (enc c a)) in Hd. by eapply decode_sound. Qed.

Lemma enc_whole_inj {A} (wf : A → Prop) (c : codec A) a b :
  codec_ok wf c → wf a → wf b → enc c a = enc c b → a = b.
Proof. intros Hc Ha Hb E. by apply (codec_ok_inj wf c a b [] [] Hc Ha Hb); rewrite E. Qed.

(** ** Well-formed messages *)

Section messages.
Context `{Secp256k1}.

Definition result_ok {E A} (we : E → Prop) (wa : A → Prop) (r : result E A) : Prop :=
  match r with Ok a => wa a | Err e => we e end.
Definition any_error (e : Error) : Prop := True.
Definition any_unit (u : ()) : Prop := True.
Definition log_ok (l : SealedLog) : Prop := vec_ok any_byte l.

Definition intra_encrypt_ok (r : IntraEncryptRequest) : Prop :=
  array_ok 32 (encrypt_txid r) ∧ log_ok (encrypt_sealed_enc_request r)
  ∧ option_ok (vec_ok log_ok) (encrypt_tx_inputs r) ∧ chain_info_ok (encrypt_info r).
Definition intra_request_ok (r : IntraEnclaveRequest) : Prop :=
  match r with
  | ValidateTx req l => verify_request_ok req ∧ option_ok (vec_ok log_ok) l
  | IntraEndBlock => True
  | IntraEncrypt req => intra_encrypt_ok req
  end.
Definition intra_response_ok (r : IntraEnclaveResponseOk) : Prop :=
  match r with
  | OkTxWithOutputs f s => coin_ok f ∧ log_ok s
  | OkDepositStakeTx c => coin_ok c
  | OkEndBlock o => option_ok (array_ok 256) o
  | OkEncrypt t => obfuscated_ok t
  end.
Definition query_encrypt_ok (r : QueryEncryptRequest) : Prop :=
  array_ok 32 (query_txid r) ∧ log_ok (query_sealed_enc_request r)
  ∧ option_ok (vec_ok txo_ok) (query_tx_inputs r).
Definition enclave_request_ok (r : EnclaveRequest) : Prop :=
  match r with
  | CheckChain c h => is_u8 c ∧ option_ok (array_ok 32) h
  | VerifyTx req => verify_request_ok req
  | EndBlock => True
  | CommitBlock h i => array_ok 32 h ∧ chain_info_ok i
  | GetSealedTxData l => vec_ok (array_ok 32) l
  | EncryptTx req => query_encrypt_ok req
  end.
Definition verdict_ok (p : Fee * option StakedState) : Prop :=
  coin_ok p.1 ∧ option_ok staked_state_ok p.2.
Definition enclave_response_ok (r : EnclaveResponse) : Prop :=
  match r with
  | RespCheckChain r => result_ok (option_ok (array_ok 32)) any_unit r
  | RespVerifyTx r => result_ok any_error verdict_ok r
  | RespEndBlock r => result_ok any_unit (option_ok (array_ok 256)) r
  | RespCommitBlock r => True
  | RespGetSealedTxData r => option_ok (vec_ok log_ok) r
  | RespEncryptTx r => result_ok any_error obfuscated_ok r
  | UnknownRequest => True
  end.
Definition encryption_request_ok (r : EncryptionRequest) : Prop :=
  match r with
  | EncTransferTx tx w => tx_ok tx ∧ witness_ok w
  | EncDepositStake tx w => deposit_tx_ok tx ∧ witness_ok w
  | EncWithdrawStake tx a w => withdraw_tx_ok tx ∧ staked_state_ok a
  end.
End messages.

(** ** Round trips *)

Section round_trips.
Context `{Secp256k1Laws, ScaleLaws}.

Lemma unit_codec_ok : codec_ok any_unit unit_codec.
Proof. by intros [] rest _. Qed.

Lemma error_codec_ok : codec_ok any_error error_codec.
Proof. by intros [] rest _. Qed.

Lemma result_codec_ok {E A} (we : E → Prop) (wa : A → Prop) ce ca :
  codec_ok we ce → codec_ok wa ca → codec_ok (result_ok we wa) (result_codec ce ca).
Proof.
  intros He Ha [a|e] rest Hr; cbn [enc dec result_codec app]; rewrite dbind_read_byte.
  - rewrite decide_True by done. by rewrite (dbind_ok _ _ _ _ _ Ha).
  - rewrite decide_False, decide_True by done. by rewrite (dbind_ok _ _ _ _ _ He).
Qed.
#[local] Hint Resolve unit_codec_ok error_codec_ok result_codec_ok : codec.

Lemma chain_info_codec_ok : codec_ok chain_info_ok chain_info_codec.
Proof.
  intros [] rest (?&?&?&?). cbn [enc dec chain_info_codec]. rewrite <- !app_assoc. by repeat dec_step.
Qed.
#[local] Hint Resolve chain_info_codec_ok : codec.

Lemma chain_info_codec_typed : codec_typed chain_info_ok chain_info_codec.
Proof.
  intros i a r Hd. cbn [dec chain_info_codec] in Hd. dec_inv Hd. typed_facts.
  repeat first [done | split].
Qed.

#[local] Hint Resolve chain_info_codec_typed : typed.

Lemma verify_tx_request_codec_typed : codec_typed verify_request_ok verify_tx_request_codec.
Proof.
  intros i a r Hd. cbn [dec verify_tx_request_codec] in Hd. dec_inv Hd. typed_facts. by split_and!.
Qed.

Lemma query_encrypt_request_codec_typed : codec_typed query_encrypt_ok query_encrypt_request_codec.
Proof.
  intros i a r Hd. cbn [dec query_encrypt_request_codec] in Hd. dec_inv Hd. typed_facts. by split_and!.
Qed.
#[local] Hint Resolve verify_tx_request_codec_typed query_encrypt_request_codec_typed : typed.

Lemma enclave_request_codec_typed : codec_typed enclave_request_ok enclave_request_codec.
Proof.
  intros i a r Hd. cbn [dec enclave_request_codec] in Hd.
  dec_inv Hd; typed_facts; repeat first [done | split].
Qed.

Lemma intra_enclave_response_codec_typed :
  codec_typed (result_ok any_error intra_response_ok) intra_enclave_response_codec.
Proof.
  intros i a r Hd. cbn [dec intra_enclave_response_codec result_codec] in Hd. dec_inv Hd; [|done].
  cbn [dec intra_enclave_response_ok_codec] in E0. dec_inv E0; typed_facts;
    repeat first [done | split].
Qed.

(** *** Transactions with limits *)

Lemma size_guard_sound {A} max (d : decoder A) i r : size_guard max d i = Some r → d i = Some r.
Proof.
  unfold size_guard, dbind, remaining_len. by destruct (max <? Z.of_nat (length i)).
Qed.

Lemma tx_codec_sound : codec_sound tx_ok tx_codec.
Proof.
  intros tx rest b rest' Htx Hd. destruct (Z.le_gt_cases (len_of (enc tx_codec tx ++ rest)) MAX_TX_SIZE).
  - rewrite tx_codec_ok in Hd by done. by simplify_eq.
  - rewrite tx_codec_too_large in Hd by lia. done.
Qed.

Lemma deposit_codec_sound : codec_sound deposit_tx_ok deposit_codec.
Proof.
  intros tx rest b rest' Htx Hd.
  destruct (Z.le_gt_cases (len_of (enc deposit_codec tx ++ rest)) MAX_DEPOSIT_TX_SIZE).
  - rewrite deposit_codec_ok in Hd by done. by simplify_eq.
  - rewrite deposit_codec_too_large in Hd by lia. done.
Qed.

Lemma tx_witness_codec_sound : codec_sound witness_ok tx_witness_codec.
Proof.
  intros w rest b rest' Hw Hd. cbn [dec enc tx_witness_codec] in Hd. apply size_guard_sound in Hd.
  eapply (codec_ok_sound (vec_ok in_witness_ok)); eauto with codec.
Qed.
#[local] Hint Resolve tx_codec_sound deposit_codec_sound tx_witness_codec_sound : codec.

Lemma tx_with_outputs_codec_sound : codec_sound with_outputs_ok tx_with_outputs_codec.
Proof.
  intros [tx|tx] rest b rest' Ht Hd; cbn [enc dec tx_with_outputs_codec app] in Hd;
    rewrite dbind_read_byte in Hd; simpl in Ht.
  - rewrite decide_True in Hd by done. dec_sound_step Hd. by injection Hd as <- <-.
  - rewrite decide_False, decide_True in Hd by done. dec_sound_step Hd. by injection Hd as <- <-.
Qed.

Lemma tx_enclave_aux_codec_sound : codec_sound enclave_aux_ok tx_enclave_aux_codec.
Proof.
  intros [ins n p|tx p|n w p] rest b rest' Ht Hd; cbn [enc dec tx_enclave_aux_codec app] in Hd;
    rewrite dbind_read_byte, <- ?app_assoc in Hd.
  - destruct Ht as (?&?&?). rewrite decide_True in Hd by done. repeat dec_sound_step Hd.
    by injection Hd as <- <-.
  - destruct Ht as (?&?). rewrite decide_False, decide_True in Hd by done. repeat dec_sound_step Hd.
    by injection Hd as <- <-.
  - destruct Ht as (?&?). rewrite !decide_False, decide_True in Hd by done. dec_sound_step Hd.
    repeat dec_sound_step Hd. by injection Hd as <- <-.
Qed.
#[local] Hint Resolve tx_enclave_aux_codec_sound : codec.

(** *** Between the application and the server *)

Lemma verify_tx_request_codec_sound : codec_sound verify_request_ok verify_tx_request_codec.
Proof.
  intros [] rest b rest' (?&?&?) Hd. cbn [enc dec verify_tx_request_codec] in Hd.
  rewrite <- ?app_assoc in Hd. repeat dec_sound_step Hd. by injection Hd as <- <-.
Qed.
#[local] Hint Resolve verify_tx_request_codec_sound : codec.

Lemma query_encrypt_request_codec_ok : codec_ok query_encrypt_ok query_encrypt_request_codec.
Proof.
  intros [] rest (?&?&?). cbn [enc dec query_encrypt_request_codec]. rewrite <- !app_assoc.
  by repeat dec_step.
Qed.
#[local] Hint Resolve query_encrypt_request_codec_ok : codec.

(** Messages that are enumerations: choose the branch of the tag, then the fields. *)
Ltac tag_sound Hd :=
  rewrite dbind_read_byte, <- ?app_assoc in Hd;
  repeat (rewrite decide_False in Hd by done); try rewrite decide_True in Hd by done;
  repeat dec_sound_step Hd; by injection Hd as <- <-.
Ltac tag_ok :=
  rewrite dbind_read_byte, <- ?app_assoc;
  repeat (rewrite decide_False by done); try rewrite decide_True by done;
  by repeat dec_step.

Lemma enclave_request_codec_sound : codec_sound enclave_request_ok enclave_request_codec.
Proof.
  intros [c h|req| |h i|l|req] rest b rest' Hr Hd; cbn [enc dec enclave_request_codec app] in Hd;
    cbn [enclave_request_ok] in Hr; try destruct Hr; tag_sound Hd.
Qed.

Lemma enclave_response_codec_ok : codec_ok enclave_response_ok enclave_response_codec.
Proof.
  intros [r|r|r|r|r|r|] rest Hr; cbn [enc dec enclave_response_codec app];
    rewrite dbind_read_byte; repeat (rewrite decide_False by done); try rewrite decide_True by done.
  - by dec_step.
  - rewrite (dbind_ok (result_ok any_error verdict_ok)); [done | | done].
    apply result_codec_ok; eauto with codec.
  - by dec_step.
  - rewrite (dbind_ok (result_ok any_unit any_unit)); eauto with codec. by destruct r.
  - by dec_step.
  - by dec_step.
  - done.
Qed.

(** *** Between the server and the enclave *)

Lemma intra_encrypt_request_codec_ok : codec_ok intra_encrypt_ok intra_encrypt_request_codec.
Proof.
  intros [] rest (?&?&?&?). cbn [enc dec intra_encrypt_request_codec]. rewrite <- !app_assoc.
  by repeat dec_step.
Qed.
#[local] Hint Resolve intra_encrypt_request_codec_ok : codec.

Lemma intra_enclave_request_codec_sound : codec_sound intra_request_ok intra_enclave_request_codec.
Proof.
  intros [req l| |req] rest b rest' Hr Hd; cbn [enc dec intra_enclave_request_codec app] in Hd;
    cbn [intra_request_ok] in Hr; [destruct Hr|..]; tag_sound Hd.
Qed.

Lemma intra_response_ok_codec_ok : codec_ok intra_response_ok intra_enclave_response_ok_codec.
Proof.
  intros [f s|c|o|t] rest Hr; cbn [enc dec intra_enclave_response_ok_codec app];
    cbn [intra_response_ok] in Hr; [destruct Hr|..]; tag_ok.
Qed.

Lemma intra_enclave_response_codec_ok :
  codec_ok (result_ok any_error intra_response_ok) intra_enclave_response_codec.
Proof. apply result_codec_ok; [apply error_codec_ok | apply intra_response_ok_codec_ok]. Qed.

Lemma encryption_request_codec_sound : codec_sound encryption_request_ok encryption_request_codec.
Proof.
  intros [tx w|tx w|tx a w] rest b rest' Hr Hd; cbn [enc dec encryption_request_codec app] in Hd;
    apply size_guard_sound in Hd; destruct Hr; tag_sound Hd.
Qed.
End round_trips.
#[export] Hint Resolve chain_info_codec_typed : typed.
