(* ===== verification/Enclave.v ===== *)
(** * Enclave: the transaction-validation enclave

    Models [src/chain-tx-enclave/tx-validation/enclave] ([validate.rs],
    [obfuscate.rs], [lib.rs]) and the unsealing of [src/chain-tx-enclave/enclave-t-common].
    The enclave is a state, its block filter and its source of randomness; an entry
    point takes the bytes of a request and the size of the response buffer and
    returns a status and the bytes it wrote.  The SGX SDK and the authenticated
    encryption are the classes [Sgx] and [Aead]. *)

From stdpp Require Import base tactics option list gmap strings.
From Stdlib Require Import ZArith Lia.
From S2P Require Import Prelude Text Codec Milli Coin Crypto Merkle Params Account TxTypes.
From S2P Require Import Validation BitVec Filter EnclaveProtocol EnclaveCodec.

(** ** The libraries *)

(** [sgx_status_t], with the codes that the source names. *)
Inductive sgx_status :=
  | SGX_SUCCESS
  | SGX_ERROR_UNEXPECTED
  | SGX_ERROR_INVALID_PARAMETER
  | SGX_ERROR_INVALID_FUNCTION
  | SGX_ERROR_OTHER (code : Z).
#[export] Instance sgx_status_eq_dec : EqDecision sgx_status.
Proof. solve_decision. Defined.

(** Sealing binds an additional text and a secret text to the machine; [seal_data]
    and [fill_bytes] draw randomness.  [sealed_data_size] is the size of the header
    [sgx_sealed_data_t]. *)
Class Sgx := {
  SealedData : Type;
  Rng : Type;
  sealed_data_size : Z;
  fill_bytes : Rng → nat → list byte * Rng;
  seal_data : Rng → list byte → list byte → result sgx_status SealedData * Rng;
  to_raw_sealed_data : SealedData → option (list byte);
  from_raw_sealed_data : list byte → option SealedData;
  unseal_data : SealedData → result sgx_status (list byte * list byte);
}.

Class SgxLaws `{Sgx} : Prop := {
  sealed_data_size_range : 0 ≤ sealed_data_size ≤ 4096;
  seal_error r aad text : (seal_data r aad text).1 ≠ Err SGX_SUCCESS;
  fill_bytes_length r n : length (fill_bytes r n).1 = n;
  raw_length r aad text sd r' raw :
    seal_data r aad text = (Ok sd, r') → to_raw_sealed_data sd = Some raw →
    Z.of_nat (length raw) = sealed_data_size + Z.of_nat (length aad) + Z.of_nat (length text)
    ∧ Z.of_nat (length raw) < U32_MAX;
  unseal_seal r aad text sd r' raw :
    seal_data r aad text = (Ok sd, r') → to_raw_sealed_data sd = Some raw →
    ∃ sd', from_raw_sealed_data raw = Some sd' ∧ unseal_data sd' = Ok (aad, text);
}.

(** What the build fixes: [get_network_id!] and [mock_key!]. *)
Class EnclaveBuild := {
  NETWORK_HEX_ID : Z;
  MOCK_KEY : list byte;
}.

(** ** Unsealing *)

Section unsealing.
Context `{Secp256k1, Scale, Sgx}.

Definition is_allowed_view (allowed_views : list TxAccessPolicy) (vk : option PublicKey)
    (check_allowed_views : bool) : bool :=
  match vk with
  | Some vk => if check_allowed_views then existsb (λ x, bool_decide (view_key x = vk)) allowed_views
               else negb check_allowed_views
  | None => negb check_allowed_views
  end.

Definition tx_allowed_view (t : TxWithOutputs) : list TxAccessPolicy :=
  match t with
  | Transfer tx => allowed_view (attributes tx)
  | StakeWithdraw tx => allowed_view (withdraw_attributes tx)
  end.

(** One sealed log: its transaction, when its additional text is the identifier. *)
Definition unseal_tx (i : TxId) (sealed_log : SealedLog) : option TxWithOutputs :=
  if U32_MAX <=? Z.of_nat (length sealed_log) then None
  else
    sealed_data ← from_raw_sealed_data sealed_log;
    '(additional, text) ← ok (unseal_data sealed_data);
    if decide (additional = i) then decode tx_with_outputs_codec text else None.

Fixpoint check_unseal_loop (vk : option PublicKey) (check_allowed_views : bool)
    (l : list (TxId * SealedLog)) : option (list TxWithOutputs) :=
  match l with
  | [] => Some []
  | (i, sealed_log) :: l =>
      otx ← unseal_tx i sealed_log;
      rest ← check_unseal_loop vk check_allowed_views l;
      Some (if is_allowed_view (tx_allowed_view otx) vk check_allowed_views
            then otx :: rest else rest)
  end.

Definition check_unseal (vk : option PublicKey) (check_allowed_views : bool) (txids : list TxId)
    (sealed_logs : list SealedLog) : option (list TxWithOutputs) :=
  check_unseal_loop vk check_allowed_views (zip txids sealed_logs).
End unsealing.

(** ** The enclave *)

Section enclave.
Context `{Hashes, Secp256k1, Scale, BitVecLib, Sgx, Aead, EnclaveBuild}.

Record Enclave := { block_filter : BlockFilter; rng : Rng }.

Definition set_filter (e : Enclave) (f : BlockFilter) : Enclave :=
  {| block_filter := f; rng := rng e |}.
Definition set_rng (e : Enclave) (r : Rng) : Enclave :=
  {| block_filter := block_filter e; rng := r |}.

(** The status and what was written to the response buffer. *)
Abbreviation ecall_result := (sgx_status * list byte)%type (only parsing).

Definition as_u32 (z : Z) : Z := z mod (U32_MAX + 1).

(** The length that is compared is cut to 32 bits; copying more than the buffer holds
    is undefined and has no result. *)
Definition write_back_response (response : result sgx_status IntraEnclaveResponse)
    (max_response_len : Z) : option ecall_result :=
  match response with
  | Ok r =>
      let to_copy := enc intra_enclave_response_codec r in
      let resp_len := as_u32 (Z.of_nat (length to_copy)) in
      if (0 <? resp_len) && (resp_len <=? max_response_len)
      then if Z.of_nat (length to_copy) <=? max_response_len
           then Some (SGX_SUCCESS, to_copy) else None
      else Some (SGX_ERROR_INVALID_PARAMETER, [])
  | Err e => Some (e, [])
  end.

Definition refuse : ecall_result := (SGX_ERROR_INVALID_PARAMETER, []).

Definition handle_end_block (e : Enclave) (response_len : Z) : option (ecall_result * Enclave) :=
  maybe_filter ← (if is_modified (block_filter e) then Some <$> get_raw (block_filter e)
                  else Some None);
  reply ← write_back_response (Ok (Ok (OkEndBlock maybe_filter))) response_len;
  Some (reply, set_filter e (filter_reset (block_filter e))).

Fixpoint add_keys (f : BlockFilter) (l : list TxAccessPolicy) : option BlockFilter :=
  match l with
  | [] => Some f
  | view :: l => f ← add_view_key f (view_key view); add_keys f l
  end.

Definition add_view_keys (e : Enclave) (wraptx : TxWithOutputs) : option Enclave :=
  f ← add_keys (block_filter e) (tx_allowed_view wraptx);
  Some (set_filter e f).

Definition construct_sealed_response (e : Enclave) (verdict : result Error Fee) (i : TxId)
    (to_seal_tx : TxWithOutputs) : option (result sgx_status IntraEnclaveResponse * Enclave) :=
  let to_seal := enc tx_with_outputs_codec to_seal_tx in
  match verdict with
  | Err err => Some (Ok (Err err), e)
  | Ok fee =>
      let '(sealing_result, r) := seal_data (rng e) i to_seal in
      let e := set_rng e r in
      match sealing_result with
      | Err ret => Some (Err ret, e)
      | Ok sealed_data =>
          match to_raw_sealed_data sealed_data with
          | None => Some (Err SGX_ERROR_INVALID_PARAMETER, e)
          | Some sealed_log =>
              e ← add_view_keys e to_seal_tx;
              Some (Ok (Ok (OkTxWithOutputs fee sealed_log)), e)
          end
      end
  end.

Definition construct_simple_response (verdict : result Error Coin) :
  result sgx_status IntraEnclaveResponse :=
  match verdict with
  | Err err => Ok (Err err)
  | Ok input_coins => Ok (Ok (OkDepositStakeTx input_coins))
  end.

(** *** Encryption of payloads *)

Definition encrypt (e : Enclave) (tx : TxToObfuscate) : option (TxObfuscated * Enclave) :=
  let '(init_vector, r) := fill_bytes (rng e) 12 in
  ciphertext ← aead_encrypt MOCK_KEY init_vector (to_txid tx) (to_payload tx);
  Some ({| key_from := -1; init_vector := init_vector; txpayload := ciphertext;
           txid := to_txid tx |}, set_rng e r).

Definition decrypt (tx : TxObfuscated) : option PlainTxAux :=
  plaintext ← aead_decrypt MOCK_KEY (init_vector tx) (txid tx) (txpayload tx);
  decode plain_tx_aux_codec plaintext.

(** *** Validation of a transaction *)

(** The result of a validation, sealed and written back. *)
Definition reply_sealed (e : Enclave) (verdict : option (result Error Fee)) (i : TxId)
    (to_seal_tx : TxWithOutputs) (response_len : Z) : option (ecall_result * Enclave) :=
  verdict ← verdict;
  '(response, e) ← construct_sealed_response e verdict i to_seal_tx;
  reply ← write_back_response response response_len;
  Some (reply, e).

Definition handle_validate_tx (e : Enclave) (request : VerifyTxRequest)
    (tx_inputs : option (list SealedLog)) (response_len : Z) : option (ecall_result * Enclave) :=
  if is_ok (is_basic_valid_tx_request request tx_inputs NETWORK_HEX_ID) then
    match tx_inputs, req_tx request with
    | Some sealed_inputs, TransferTx ins no_of_outputs payload =>
        match decrypt payload, check_unseal None false (id <$> ins) sealed_inputs with
        | Some (PlainTransferTx tx witness), Some unsealed =>
            if decide (transaction_id tx_codec tx = txid payload
                       ∧ as_u16 (Z.of_nat (length (outputs tx))) = no_of_outputs)
            then reply_sealed e (verify_transfer tx witness (req_info request) unsealed)
                   (txid payload) (Transfer tx) response_len
            else Some (refuse, e)
        | _, _ => Some (refuse, e)
        end
    | Some sealed_inputs, DepositStakeTx tx payload =>
        match decrypt payload, check_unseal None false (id <$> deposit_inputs tx) sealed_inputs with
        | Some (PlainDepositStakeTx witness), Some unsealed =>
            verdict ← verify_bonded_deposit_core tx witness (req_info request) unsealed;
            reply ← write_back_response (construct_simple_response verdict) response_len;
            Some (reply, e)
        | _, _ => Some (refuse, e)
        end
    | None, WithdrawUnbondedStakeTx no_of_outputs witness payload =>
        match verify_tx_recover_address witness (txid payload) with
        | Err _ => Some (refuse, e)
        | Ok recovered =>
            match decrypt payload, req_account request with
            | Some (PlainWithdrawUnbondedStakeTx tx), Some account =>
                if decide (transaction_id withdraw_codec tx = txid payload
                           ∧ no_of_outputs = as_u16 (Z.of_nat (length (withdraw_outputs tx)))
                           ∧ address account = recovered)
                then reply_sealed e
                       (verify_unbonded_withdraw_core tx (req_info request) account)
                       (txid payload) (StakeWithdraw tx) response_len
                else Some (refuse, e)
            | _, _ => Some (refuse, e)
            end
        end
    | _, _ => Some (refuse, e)
    end
  else Some (refuse, e).

(** *** Requests of the query enclave *)

Definition unseal_request (request : IntraEncryptRequest) : option EncryptionRequest :=
  sealed_data ← from_raw_sealed_data (encrypt_sealed_enc_request request);
  '(additional, text) ← ok (unseal_data sealed_data);
  if decide (additional = encrypt_txid request) then decode encryption_request_codec text else None.

Definition construct_response (e : Enclave) (verdict : result Error ()) (tx : TxToObfuscate) :
  option (result sgx_status IntraEnclaveResponse * Enclave) :=
  match verdict with
  | Err err => Some (Ok (Err err), e)
  | Ok _ => '(otx, e) ← encrypt e tx; Some (Ok (Ok (OkEncrypt otx)), e)
  end.

(** The payload of a validated transaction, encrypted and written back. *)
Definition reply_encrypted {A} (e : Enclave) (verdict : option (result Error A)) (plain : PlainTxAux)
    (i : TxId) (response_len : Z) : option (ecall_result * Enclave) :=
  verdict ← verdict;
  tx ← tx_to_obfuscate_from plain i;
  '(response, e) ← construct_response e ((λ _, ()) <$> verdict) tx;
  reply ← write_back_response response response_len;
  Some (reply, e).

Definition handle_encrypt_request (e : Enclave) (request : IntraEncryptRequest) (response_len : Z) :
  option (ecall_result * Enclave) :=
  match unseal_request request, encrypt_tx_inputs request with
  | Some (EncTransferTx tx witness), Some sealed_inputs =>
      match check_unseal None false (id <$> inputs tx) sealed_inputs with
      | Some unsealed =>
          reply_encrypted e (verify_transfer tx witness (encrypt_info request) unsealed)
            (PlainTransferTx tx witness) (transaction_id tx_codec tx) response_len
      | None => Some (refuse, e)
      end
  | Some (EncDepositStake tx witness), Some sealed_inputs =>
      match check_unseal None false (id <$> deposit_inputs tx) sealed_inputs with
      | Some unsealed =>
          reply_encrypted e (verify_bonded_deposit_core tx witness (encrypt_info request) unsealed)
            (PlainDepositStakeTx witness) (transaction_id deposit_codec tx) response_len
      | None => Some (refuse, e)
      end
  | Some (EncWithdrawStake tx account witness), None =>
      let i := transaction_id withdraw_codec tx in
      match verify_tx_recover_address witness i with
      | Ok recovered =>
          if decide (recovered = address account) then
            reply_encrypted e (verify_unbonded_withdraw_core tx (encrypt_info request) account)
              (PlainWithdrawUnbondedStakeTx tx) i response_len
          else Some (refuse, e)
      | Err _ => Some (refuse, e)
      end
  | _, _ => Some (refuse, e)
  end.

(** *** Entry points *)

Definition ecall_initchain (hex_id : Z) : sgx_status :=
  if hex_id =? NETWORK_HEX_ID then SGX_SUCCESS else SGX_ERROR_INVALID_PARAMETER.

Definition ecall_check_tx (e : Enclave) (tx_request : list byte) (response_len : Z) :
  option (ecall_result * Enclave) :=
  match decode intra_enclave_request_codec tx_request with
  | Some (ValidateTx request tx_inputs) => handle_validate_tx e request tx_inputs response_len
  | Some IntraEndBlock => handle_end_block e response_len
  | Some (IntraEncrypt request) => handle_encrypt_request e request response_len
  | None => Some (refuse, e)
  end.
End enclave.

(** ** What the enclave accepts *)

Section specification.
Context `{Hashes, Secp256k1Laws, ScaleLaws, BitVecLib, SgxLaws, Aead, EnclaveBuild}.

(** A sealed log that unseals to a transaction under an identifier. *)
Definition sealed_holds (raw : SealedLog) (i : TxId) (t : TxWithOutputs) : Prop :=
  log_ok raw ∧ ∃ sd, from_raw_sealed_data raw = Some sd
    ∧ unseal_data sd = Ok (i, enc tx_with_outputs_codec t).

(** The positive responses to a request with its sealed inputs. *)
Inductive enclave_accepts (req : VerifyTxRequest) : option (list SealedLog) → IntraEnclaveResponseOk → Prop :=
  | accepts_transfer ins n payload tx w logs sources fee sealed :
      req_tx req = TransferTx ins n payload →
      decrypt payload = Some (PlainTransferTx tx w) →
      check_unseal None false (id <$> ins) logs = Some sources →
      transaction_id tx_codec tx = txid payload → as_u16 (Z.of_nat (length (outputs tx))) = n →
      verify_transfer tx w (req_info req) sources = Some (Ok fee) →
      sealed_holds sealed (txid payload) (Transfer tx) →
      enclave_accepts req (Some logs) (OkTxWithOutputs fee sealed)
  | accepts_deposit tx payload w logs sources coins :
      req_tx req = DepositStakeTx tx payload →
      decrypt payload = Some (PlainDepositStakeTx w) →
      check_unseal None false (id <$> deposit_inputs tx) logs = Some sources →
      verify_bonded_deposit_core tx w (req_info req) sources = Some (Ok coins) →
      enclave_accepts req (Some logs) (OkDepositStakeTx coins)
  | accepts_withdraw n w payload account tx fee sealed :
      req_tx req = WithdrawUnbondedStakeTx n w payload → req_account req = Some account →
      verify_tx_recover_address w (txid payload) = Ok (address account) →
      decrypt payload = Some (PlainWithdrawUnbondedStakeTx tx) →
      transaction_id withdraw_codec tx = txid payload →
      as_u16 (Z.of_nat (length (withdraw_outputs tx))) = n →
      verify_unbonded_withdraw_core tx (req_info req) account = Some (Ok fee) →
      sealed_holds sealed (txid payload) (StakeWithdraw tx) →
      enclave_accepts req None (OkTxWithOutputs fee sealed).

(** *** Types *)

Lemma with_outputs_outs t : with_outputs_ok t → Forall (λ o, coin_ok (out_value o)) (tx_outputs t).
Proof.
  assert (Hl : ∀ l, Forall out_ok l → Forall (λ o, coin_ok (out_value o)) l).
  { intros l Hl. eapply Forall_impl; [exact Hl|]. by intros o (_ & ? & _). }
  destruct t; simpl; [intros (_ & [_ ?] & _) | intros (_ & [_ ?] & _)]; by apply Hl.
Qed.

Lemma unseal_tx_ok i raw t : unseal_tx i raw = Some t → with_outputs_ok t.
Proof.
  unfold unseal_tx. destruct (U32_MAX <=? _); [done|].
  destruct (from_raw_sealed_data raw) as [sd|]; [|done]. simpl.
  destruct (unseal_data sd) as [[a text]|]; [|done]. simpl. case_decide; [|done].
  apply decode_typed, tx_with_outputs_codec_typed.
Qed.

Lemma check_unseal_ok vk c ids logs ts : check_unseal vk c ids logs = Some ts → Forall with_outputs_ok ts.
Proof.
  unfold check_unseal. generalize (zip ids logs). intros l. revert ts.
  induction l as [|[i raw] l IH]; intros ts; simpl; [by intros [= <-]|].
  destruct (unseal_tx i raw) as [t|] eqn:Et; [|done]. simpl.
  destruct (check_unseal_loop vk c l) as [rest|]; [|done]. simpl. intros [= <-].
  pose proof (unseal_tx_ok _ _ _ Et). case_match; [constructor; [done|]|]; by apply IH.
Qed.

Lemma check_unseal_outs vk c ids logs ts : check_unseal vk c ids logs = Some ts → outs_ok ts.
Proof.
  intros Hu%check_unseal_ok. eapply Forall_impl; [exact Hu|]. apply with_outputs_outs.
Qed.

Lemma decrypt_ok p t : decrypt p = Some t → plain_aux_ok t.
Proof.
  unfold decrypt. destruct (aead_decrypt _ _ _ _) as [m|]; [|done]. simpl.
  apply decode_typed, plain_tx_aux_codec_typed.
Qed.

Lemma transfer_fee_ok tx w info sources fee :
  tx_ok tx → outs_ok sources → coin_ok (min_fee_computed info) →
  verify_transfer tx w info sources = Some (Ok fee) → coin_ok fee.
Proof.
  intros Htx Hs Hm Hv.
  apply verify_transfer_ok in Hv; [|exact (with_outputs_outs (Transfer tx) Htx)|done|done].
  destruct Hv as (_ & vs & t & (_&_&_&_&?) & (_ & Hp & ->) & [Hf Hle]).
  assert (0 ≤ sum_by out_value (outputs tx)); [|ints].
  apply sum_by_nonneg. eapply Forall_impl; [exact Hp|]. simpl. lia.
Qed.

Lemma withdraw_fee_ok tx info a fee :
  withdraw_tx_ok tx → coin_ok (unbonded a) → coin_ok (min_fee_computed info) →
  verify_unbonded_withdraw_core tx info a = Some (Ok fee) → coin_ok fee.
Proof.
  intros Htx Ha Hm Hv.
  apply verify_unbonded_withdraw_core_ok in Hv; [|done|exact (with_outputs_outs (StakeWithdraw tx) Htx)|done].
  destruct Hv as (_&_&_&_&_&t&(_&Hp&->)&[Hf Hle]).
  assert (0 ≤ sum_by out_value (withdraw_outputs tx)); [|ints].
  apply sum_by_nonneg. eapply Forall_impl; [exact Hp|]. simpl. lia.
Qed.

(** *** Responses *)

Lemma write_back_inv response max wr :
  write_back_response response max = Some (SGX_SUCCESS, wr) →
  response = Err SGX_SUCCESS ∨ ∃ r, response = Ok r ∧ wr = enc intra_enclave_response_codec r.
Proof.
  unfold write_back_response. destruct response as [r|e]; [|intros [= ->]; by left].
  destruct (_ && _); [|done]. destruct (_ <=? _); [|done]. intros [= <-]. right. eauto.
Qed.

(** The filter after the view keys of an accepted transaction. *)
Definition filter_gains (e e' : Enclave) (t : TxWithOutputs) : Prop :=
  add_keys (block_filter e) (tx_allowed_view t) = Some (block_filter e').

Lemma sealed_response_inv e verdict i t r e' :
  array_ok 32 i → construct_sealed_response e verdict i t = Some (r, e') →
  r ≠ Err SGX_SUCCESS
  ∧ match r with
    | Ok (Ok a) => ∃ fee sealed, verdict = Ok fee ∧ a = OkTxWithOutputs fee sealed
        ∧ sealed_holds sealed i t ∧ filter_gains e e' t
    | Ok (Err err) => verdict = Err err ∧ e' = e
    | Err _ => block_filter e' = block_filter e
    end.
Proof.
  unfold construct_sealed_response. intros Hi. destruct verdict as [fee|err]; [|by intros [= <- <-]].
  pose proof (seal_error (rng e) i (enc tx_with_outputs_codec t)) as Hne.
  destruct (seal_data _ _ _) as [s r'] eqn:Es. simpl in Hne. destruct s as [sd|ret].
  2: { intros [= <- <-]. split; [congruence | done]. }
  destruct (to_raw_sealed_data sd) as [raw|] eqn:Er; [|by intros [= <- <-]].
  unfold add_view_keys. simpl. destruct (add_keys _ _) as [f|] eqn:Ek; [|done]. simpl.
  intros [= <- <-]. split; [done|]. exists fee, raw. split_and!; try done.
  destruct (raw_length _ _ _ _ _ _ Es Er) as [_ ?]. split; [|by eapply unseal_seal].
  apply vec_ok_any. lia.
Qed.

(** The transaction with outputs inside a transaction. *)
Definition opened_tx (tx : TxEnclaveAux) : option TxWithOutputs :=
  match tx with
  | TransferTx _ _ payload =>
      match decrypt payload with Some (PlainTransferTx tx _) => Some (Transfer tx) | _ => None end
  | DepositStakeTx _ _ => None
  | WithdrawUnbondedStakeTx _ _ payload =>
      match decrypt payload with
      | Some (PlainWithdrawUnbondedStakeTx tx) => Some (StakeWithdraw tx)
      | _ => None
      end
  end.

(** What the enclave does with a request it answers. *)
Definition answers (e : Enclave) (req : VerifyTxRequest) (logs : option (list SealedLog))
    (resp : IntraEnclaveResponse) (e' : Enclave) : Prop :=
  match resp with
  | Err _ => e' = e
  | Ok r => enclave_accepts req logs r
      ∧ match r with
        | OkTxWithOutputs _ sealed => ∃ t, opened_tx (req_tx req) = Some t ∧ filter_gains e e' t
        | _ => e' = e
        end
  end.

Lemma reply_sealed_inv e verdict i t max wr e' :
  array_ok 32 i → reply_sealed e verdict i t max = Some ((SGX_SUCCESS, wr), e') →
  ∃ resp, wr = enc intra_enclave_response_codec resp
    ∧ match resp with
      | Err err => verdict = Some (Err err) ∧ e' = e
      | Ok a => ∃ fee sealed, verdict = Some (Ok fee) ∧ a = OkTxWithOutputs fee sealed
          ∧ sealed_holds sealed i t ∧ filter_gains e e' t
      end.
Proof.
  unfold reply_sealed. intros Hi Hr. destruct verdict as [v|]; [|done]. simpl in Hr.
  destruct (construct_sealed_response e v i t) as [[resp e1]|] eqn:Ec; [|done]. simpl in Hr.
  destruct (write_back_response resp max) as [[st wr']|] eqn:Ew; [|done]. simpl in Hr.
  injection Hr as -> -> ->. destruct (sealed_response_inv _ _ _ _ _ _ Hi Ec) as [Hne Hs].
  apply write_back_inv in Ew as [->|(r & -> & ->)]; [done|]. exists r. split; [done|].
  destruct r; [|naive_solver]. destruct Hs as (fee & sealed & -> & ?). eauto.
Qed.

(** The types of an answer. *)
Lemma sealed_answer e req logs e' resp :
  result_ok any_error (λ a, ∃ fee sealed i t, a = OkTxWithOutputs fee sealed ∧ coin_ok fee
    ∧ enclave_accepts req logs a ∧ sealed_holds sealed i t ∧ opened_tx (req_tx req) = Some t
    ∧ filter_gains e e' t) resp →
  (∀ err, resp = Err err → e' = e) →
  result_ok any_error intra_response_ok resp ∧ answers e req logs resp e'.
Proof.
  destruct resp as [a|err]; simpl; [|naive_solver].
  intros (fee & sealed & i & t & -> & Hfee & Ha & Hs & Ho & Hf) _. simpl. split; [by destruct Hs|].
  split; [done|]. eauto.
Qed.

Lemma validate_transfer_inv e req ins n payload logs max wr e' :
  verify_request_ok req → req_tx req = TransferTx ins n payload →
  handle_validate_tx e req (Some logs) max = Some ((SGX_SUCCESS, wr), e') →
  ∃ resp, wr = enc intra_enclave_response_codec resp
    ∧ result_ok any_error intra_response_ok resp ∧ answers e req (Some logs) resp e'.
Proof.
  intros (Htx & _ & Hinfo) Et Hv. unfold handle_validate_tx in Hv. rewrite Et in *.
  destruct Htx as (_ & _ & _ & _ & _ & Hi). destruct (is_ok _); [|done].
  destruct (decrypt payload) as [[tx w| |]|] eqn:Ed; try done.
  destruct (check_unseal None false (id <$> ins) logs) as [sources|] eqn:Eu; [|done].
  case_decide as Hc; [|done]. destruct Hc as [Hid Hn].
  apply reply_sealed_inv in Hv as (resp & -> & Hr); [|done]. exists resp. split; [done|].
  apply sealed_answer; [|by destruct resp; naive_solver].
  destruct resp as [a|]; [|done]. destruct Hr as (fee & sealed & Hver & -> & Hs & Hf).
  exists fee, sealed, (txid payload), (Transfer tx). split_and!; try done.
  - eapply transfer_fee_ok; [by destruct (decrypt_ok _ _ Ed) | by eapply check_unseal_outs
      | apply Hinfo | done].
  - by eapply accepts_transfer.
  - rewrite Et. simpl. by rewrite Ed.
Qed.

Lemma validate_deposit_inv e req tx payload logs max wr e' :
  req_tx req = DepositStakeTx tx payload →
  handle_validate_tx e req (Some logs) max = Some ((SGX_SUCCESS, wr), e') →
  ∃ resp, wr = enc intra_enclave_response_codec resp
    ∧ result_ok any_error intra_response_ok resp ∧ answers e req (Some logs) resp e'.
Proof.
  intros Et Hv. unfold handle_validate_tx in Hv. rewrite Et in *. destruct (is_ok _); [|done].
  destruct (decrypt payload) as [[| w|]|] eqn:Ed; try done.
  destruct (check_unseal None false (id <$> deposit_inputs tx) logs) as [sources|] eqn:Eu; [|done].
  destruct (verify_bonded_deposit_core tx w (req_info req) sources) as [v|] eqn:Ev; [|done]. simpl in Hv.
  destruct (write_back_response _ max) as [[st wr']|] eqn:Ew; [|done]. simpl in Hv.
  injection Hv as -> -> ->. apply write_back_inv in Ew as [Ew|(r & Er & ->)]; [by destruct v|].
  exists r. split; [done|]. destruct v as [c|err]; injection Er as <-; [|done].
  pose proof (check_unseal_outs _ _ _ _ _ Eu) as Hout. split; [by eapply deposit_core_coin_ok|].
  split; [by eapply accepts_deposit | done].
Qed.

Lemma validate_withdraw_inv e req n w payload max wr e' :
  verify_request_ok req → req_tx req = WithdrawUnbondedStakeTx n w payload →
  handle_validate_tx e req None max = Some ((SGX_SUCCESS, wr), e') →
  ∃ resp, wr = enc intra_enclave_response_codec resp
    ∧ result_ok any_error intra_response_ok resp ∧ answers e req None resp e'.
Proof.
  intros (Htx & Hac & Hinfo) Et Hv. unfold handle_validate_tx in Hv. rewrite Et in *.
  destruct Htx as (_ & _ & _ & _ & Hi). destruct (is_ok _); [|done].
  destruct (verify_tx_recover_address w (txid payload)) as [recovered|] eqn:Er; [|done].
  destruct (decrypt payload) as [[| |tx]|] eqn:Ed; try done.
  destruct (req_account req) as [a|] eqn:Ea; [|done].
  case_decide as Hc; [|done]. destruct Hc as (Hid & Hn & Had).
  apply reply_sealed_inv in Hv as (resp & -> & Hr); [|done]. exists resp. split; [done|].
  apply sealed_answer; [|by destruct resp; naive_solver].
  destruct resp as [r|]; [|done]. destruct Hr as (fee & sealed & Hver & -> & Hs & Hf).
  exists fee, sealed, (txid payload), (StakeWithdraw tx). split_and!; try done.
  - destruct Hac as (_&_&Hu&_). eapply withdraw_fee_ok; [exact (decrypt_ok _ _ Ed) | done | apply Hinfo | done].
  - eapply accepts_withdraw; by rewrite ?Had.
  - rewrite Et. simpl. by rewrite Ed.
Qed.

Lemma validate_inv e req logs max wr e' :
  verify_request_ok req →
  handle_validate_tx e req logs max = Some ((SGX_SUCCESS, wr), e') →
  ∃ resp, wr = enc intra_enclave_response_codec resp
    ∧ result_ok any_error intra_response_ok resp ∧ answers e req logs resp e'.
Proof.
  intros Hok Hv. destruct logs as [logs|]; destruct (req_tx req) as [ins n p|tx p|n w p] eqn:Et.
  - by eapply validate_transfer_inv.
  - by eapply validate_deposit_inv.
  - unfold handle_validate_tx in Hv. rewrite Et in Hv. by destruct (is_ok _).
  - unfold handle_validate_tx in Hv. rewrite Et in Hv. by destruct (is_ok _).
  - unfold handle_validate_tx in Hv. rewrite Et in Hv. by destruct (is_ok _).
  - by eapply validate_withdraw_inv.
Qed.

(** *** The block filter *)

Context `{!BitVecLaws}.

(** A filter that keeps the keys of another. *)
Definition filter_le (f f' : BlockFilter) : Prop :=
  (is_modified f = true → is_modified f' = true)
  ∧ ∀ k, check_view_key f k = Some true → check_view_key f' k = Some true.

#[export] Instance filter_le_preorder : PreOrder filter_le.
Proof.
  split; [by intros f|]. intros f1 f2 f3 [Hm Hk] [Hm' Hk']. split; auto.
Qed.

Lemma add_keys_spec f l :
  filter_ok f → ∃ f', add_keys f l = Some f' ∧ filter_ok f' ∧ filter_le f f'
    ∧ ∀ k, k ∈ view_key <$> l → is_modified f' = true ∧ check_view_key f' k = Some true.
Proof.
  revert f. induction l as [|v l IH]; intros f Hf.
  { exists f. split_and!; try done. intros k Hk. by apply not_elem_of_nil in Hk. }
  destruct (filter_step_spec f (AddKey (view_key v)) Hf I) as (f1 & E1 & Hf1 & Hk1). simpl in E1.
  assert (Hm1 : is_modified f1 = true).
  { unfold add_view_key in E1. destruct (bloom_set _ _); [|done]. by injection E1 as <-. }
  assert (Hle1 : filter_le f f1) by (split; [done|]; intros k Hk; apply Hk1; by left).
  destruct (IH f1 Hf1) as (f' & E' & Hf' & Hle' & Hk'). exists f'. cbn [add_keys]. rewrite E1. simpl.
  split_and!; [done | done | by etrans |].
  intros k [->|Hk]%elem_of_cons; [|by apply Hk']. split; apply Hle'; [done|]. apply Hk1. by right.
Qed.

Lemma add_view_keys_ok e t e' :
  filter_ok (block_filter e) → add_view_keys e t = Some e' →
  filter_ok (block_filter e') ∧ filter_le (block_filter e) (block_filter e').
Proof.
  intros Hf. unfold add_view_keys. destruct (add_keys_spec (block_filter e) (tx_allowed_view t) Hf)
    as (f' & -> & Hf' & Hle & _). by intros [= <-].
Qed.

Lemma reply_sealed_filter e verdict i t max r e' :
  filter_ok (block_filter e) → reply_sealed e verdict i t max = Some (r, e') →
  filter_ok (block_filter e') ∧ filter_le (block_filter e) (block_filter e').
Proof.
  intros Hf. unfold reply_sealed. destruct verdict as [v|]; [|done]. simpl.
  destruct (construct_sealed_response e v i t) as [[resp e1]|] eqn:Ec; [|done]. simpl.
  destruct (write_back_response resp max) as [rep|]; [|done]. simpl. intros [= <- <-].
  unfold construct_sealed_response in Ec. destruct v as [fee|]; [|by injection Ec as _ <-].
  destruct (seal_data _ _ _) as [[sd|] r']; [|by injection Ec as _ <-].
  destruct (to_raw_sealed_data sd); [|by injection Ec as _ <-].
  destruct (add_view_keys _ t) as [e2|] eqn:Ea; [|done]. simpl in Ec. injection Ec as _ <-.
  by apply add_view_keys_ok in Ea.
Qed.

Lemma handle_validate_filter e req logs max r e' :
  filter_ok (block_filter e) → handle_validate_tx e req logs max = Some (r, e') →
  filter_ok (block_filter e') ∧ filter_le (block_filter e) (block_filter e').
Proof.
  intros Hf. unfold handle_validate_tx. destruct (is_ok _); [|by intros [= _ <-]].
  destruct logs as [logs|], (req_tx req) as [ins n p|tx p|n w p]; try by intros [= _ <-].
  - repeat case_match; try by intros [= _ <-]. by apply reply_sealed_filter.
  - repeat case_match; try by intros [= _ <-].
    destruct (verify_bonded_deposit_core _ _ _ _); [|done]. simpl.
    destruct (write_back_response _ _); [|done]. simpl. by intros [= _ <-].
  - repeat case_match; try by intros [= _ <-]. by apply reply_sealed_filter.
Qed.

(** The keys of a transaction are in the filter that gained them. *)
Lemma filter_gains_keys e e' t k :
  filter_ok (block_filter e) → filter_gains e e' t → k ∈ view_key <$> tx_allowed_view t →
  is_modified (block_filter e') = true ∧ check_view_key (block_filter e') k = Some true.
Proof.
  unfold filter_gains. intros Hf Hg.
  destruct (add_keys_spec (block_filter e) (tx_allowed_view t) Hf) as (f' & Hk & _ & _ & Hin).
  rewrite Hg in Hk. injection Hk as ->. apply Hin.
Qed.

(** The response at the end of a block fits its buffer: the filter when there were
    keys in the block; the enclave goes on with an empty one. *)
Lemma handle_end_block_ok e :
  filter_ok (block_filter e) → ∃ r,
    handle_end_block e 260 = Some ((SGX_SUCCESS, enc intra_enclave_response_codec (Ok (OkEndBlock r))),
                                   set_filter e (filter_reset (block_filter e)))
    ∧ option_ok (array_ok 256) r
    ∧ if is_modified (block_filter e)
      then ∃ raw, r = Some raw ∧ bloom_from raw = bloom (block_filter e) else r = None.
Proof.
  intros Hf. destruct (bloom_raw_roundtrip (bloom (block_filter e)) Hf) as (raw & Hr & Hl & Hb & _).
  unfold handle_end_block, get_raw. rewrite Hr.
  assert (He : ∀ r, option_ok (array_ok 256) r →
    Z.of_nat (length (enc intra_enclave_response_codec (Ok (OkEndBlock r))))
      = match r with Some _ => 259 | None => 3 end).
  { intros r Hok. simpl. rewrite option_codec_enc. destruct r as [a|]; [|done]. simpl.
    rewrite array_codec_enc by done. simpl in Hok. unfold array_ok in Hok. lia. }
  destruct (is_modified (block_filter e)).
  - exists (Some raw). split; [|split; [done | by exists raw]].
    unfold write_back_response. cbn [fmap option_fmap option_map mbind option_bind].
    by rewrite (He (Some raw) Hl).
  - exists None. split; [|done]. unfold write_back_response. cbn [mbind option_bind].
    by rewrite (He None I).
Qed.

Lemma encrypt_filter e tx otx e' : encrypt e tx = Some (otx, e') → block_filter e' = block_filter e.
Proof.
  unfold encrypt. destruct (fill_bytes _ _) as [iv r]. destruct (aead_encrypt _ _ _ _); [|done].
  simpl. by intros [= _ <-].
Qed.

Lemma reply_encrypted_filter {A} e (verdict : option (result Error A)) plain i max r e' :
  reply_encrypted e verdict plain i max = Some (r, e') → block_filter e' = block_filter e.
Proof.
  unfold reply_encrypted. destruct verdict as [v|]; [|done]. simpl.
  destruct (tx_to_obfuscate_from plain i) as [tx|]; [|done]. simpl.
  destruct (construct_response _ _ _) as [[resp e1]|] eqn:Ec; [|done]. simpl.
  destruct (write_back_response resp max); [|done]. simpl. intros [= _ <-].
  unfold construct_response in Ec. destruct v; simpl in Ec; [|by injection Ec as _ <-].
  destruct (encrypt e tx) as [[otx e2]|] eqn:Ee; [|done]. simpl in Ec. injection Ec as _ <-.
  by eapply encrypt_filter.
Qed.

Lemma filter_reset_ok f : filter_ok f → filter_ok (filter_reset f).
Proof.
  unfold filter_ok, bloom_ok, bv_len. simpl. intros <-. by rewrite bits_clear, length_replicate.
Qed.

Lemma ecall_check_tx_filter e bytes max r e' :
  filter_ok (block_filter e) → ecall_check_tx e bytes max = Some (r, e') →
  filter_ok (block_filter e').
Proof.
  intros Hf. unfold ecall_check_tx. destruct (decode _ bytes) as [[req logs| |req]|].
  - intros Hv. by eapply handle_validate_filter.
  - unfold handle_end_block. destruct (if is_modified _ then _ else _); [|done]. simpl.
    destruct (_ && _); [destruct (_ <=? _); [|done]|]; intros [= _ <-]; by apply filter_reset_ok.
  - unfold handle_encrypt_request. repeat case_match; try (by intros [= _ <-]);
      intros Hr%reply_encrypted_filter; by rewrite Hr.
  - by intros [= _ <-].
Qed.
End specification.
