(* ===== verification/EnclaveServer.v ===== *)
(** * EnclaveServer: the process around the validation enclave

    Models [src/chain-tx-enclave/tx-validation/app] ([server/mod.rs] and
    [enclave_u/mod.rs]): the server that stores the sealed transactions, calls the
    enclave through a response buffer and answers the application; and the client
    [ZmqEnclaveClient] of [src/chain-abci/src/enclave_bridge/mod.rs], which makes it
    an [EnclaveProxy].  The message queue delivers the bytes it is given; the trees
    of the [sled] database are a class. *)

From stdpp Require Import base tactics option list gmap strings.
From Stdlib Require Import ZArith Lia.
From S2P Require Import Prelude Text Codec Milli Coin Crypto Merkle Params Account TxTypes.
From S2P Require Import Validation BitVec Filter EnclaveProtocol EnclaveCodec Enclave.

(** A tree of the database: reads, insertions and flushes may fail. *)
Class Sled := {
  SledTree : Type;
  sled_get : SledTree → list byte → result () (option (list byte));
  sled_insert : SledTree → list byte → list byte → result () () * SledTree;
  sled_flush : SledTree → result () ();
}.

Class SledLaws `{Sled} := {
  sled_view : SledTree → gmap (list byte) (list byte);
  sled_get_view t k v : sled_get t k = Ok v → sled_view t !! k = v;
  sled_insert_view t k v r t' :
    sled_insert t k v = (r, t') →
    sled_view t' = match r with Ok _ => <[k := v]> (sled_view t) | Err _ => sled_view t end;
}.

Section server.
Context `{Hashes, Secp256k1, Scale, BitVecLib, Sgx, Aead, EnclaveBuild, Sled}.

Record TxValidationServer := {
  enclave : Enclave;
  txdb : SledTree;
  metadb : SledTree;
  server_info : option ChainInfo;
}.

Definition set_enclave (s : TxValidationServer) (e : Enclave) : TxValidationServer :=
  {| enclave := e; txdb := txdb s; metadb := metadb s; server_info := server_info s |}.
Definition set_txdb (s : TxValidationServer) (t : SledTree) : TxValidationServer :=
  {| enclave := enclave s; txdb := t; metadb := metadb s; server_info := server_info s |}.
Definition set_metadb (s : TxValidationServer) (t : SledTree) : TxValidationServer :=
  {| enclave := enclave s; txdb := txdb s; metadb := t; server_info := server_info s |}.
Definition set_info (s : TxValidationServer) (i : ChainInfo) : TxValidationServer :=
  {| enclave := enclave s; txdb := txdb s; metadb := metadb s; server_info := Some i |}.

Definition LAST_APP_HASH_KEY : list byte := bstr "last_apphash".
Definition LAST_CHAIN_INFO_KEY : list byte := bstr "chain_info".

(** [TxValidationServer::new] on the enclave and the trees; the socket is not modelled. *)
Definition server_new (e : Enclave) (txdb metadb : SledTree) : option (result () TxValidationServer) :=
  match sled_get metadb LAST_CHAIN_INFO_KEY with
  | Err _ => Some (Err ())
  | Ok None => Some (Ok {| enclave := e; txdb := txdb; metadb := metadb; server_info := None |})
  | Ok (Some stored) =>
      info ← decode chain_info_codec stored;
      Some (Ok {| enclave := e; txdb := txdb; metadb := metadb; server_info := Some info |})
  end.

Fixpoint lookup_txids (txdb : SledTree) (l : list TxId) : option (list SealedLog) :=
  match l with
  | [] => Some []
  | input :: l =>
      match sled_get txdb input with
      | Ok (Some txin) => rest ← lookup_txids txdb l; Some (txin :: rest)
      | _ => None
      end
  end.

Definition lookup_inputs (self : TxValidationServer) (tx : TxEnclaveAux) : option (list SealedLog) :=
  match tx with
  | TransferTx ins _ _ => lookup_txids (txdb self) (id <$> ins)
  | DepositStakeTx tx _ => lookup_txids (txdb self) (id <$> deposit_inputs tx)
  | WithdrawUnbondedStakeTx _ _ _ => None
  end.

Definition flush_all (self : TxValidationServer) : result () () :=
  _ ← sled_flush (txdb self);
  sled_flush (metadb self).

(** ** Calls of the enclave *)

(** A call with a response buffer of the given size: the status and the contents of
    the buffer, zeros after what the enclave wrote. *)
Definition ecall (self : TxValidationServer) (request_buf : list byte) (response_len : nat) :
  option (sgx_status * list byte * TxValidationServer) :=
  '((status, written), e) ← ecall_check_tx (enclave self) request_buf
                             (as_u32 (Z.of_nat response_len));
  Some (status, written ++ replicate (response_len - length written) Byte.x00, set_enclave self e).

Definition check_initchain (hex_id : Z) (last_app_hash : option H256) : result (option H256) () :=
  if decide (ecall_initchain hex_id = SGX_SUCCESS) then Ok () else Err last_app_hash.

Definition end_block (self : TxValidationServer) :
  option (result () (option TxFilter) * TxValidationServer) :=
  '(status, response_buf, self) ← ecall self (enc intra_enclave_request_codec IntraEndBlock) 260;
  Some (if decide (status = SGX_SUCCESS) then
          match decode intra_enclave_response_codec response_buf with
          | Some (Ok (OkEndBlock maybe_filter)) => Ok maybe_filter
          | _ => Err ()
          end
        else Err (), self).

Definition encrypt_tx (self : TxValidationServer) (request : IntraEncryptRequest) :
  option (result Error TxObfuscated * TxValidationServer) :=
  let request_buf := enc intra_enclave_request_codec (IntraEncrypt request) in
  '(status, response_buf, self) ← ecall self request_buf (length request_buf);
  Some (if decide (status = SGX_SUCCESS) then
          match decode intra_enclave_response_codec response_buf with
          | Some (Ok (OkEncrypt obftx)) => Ok obftx
          | Some (Err e) => Err e
          | _ => Err EnclaveRejected
          end
        else Err EnclaveRejected, self).

(** The account that a deposit leaves. *)
Definition deposit_account (request : VerifyTxRequest) (input_coins : Coin) : option StakedState :=
  deposit_amount ← unwrap (coin_sub input_coins (fee_to_coin (min_fee_computed (req_info request))));
  match req_account request, req_tx request with
  | Some a, _ => deposit a deposit_amount
  | None, DepositStakeTx tx _ =>
      Some (new_init_bonded deposit_amount (previous_block_time (req_info request))
              (to_staked_account tx) None)
  | None, _ => None
  end.

Definition check_tx (self : TxValidationServer) (request : VerifyTxRequest)
    (tx_inputs : option (list SealedLog)) :
  option (result Error (Fee * option StakedState) * TxValidationServer) :=
  let request_buf := enc intra_enclave_request_codec (ValidateTx request tx_inputs) in
  let response_len := (Z.to_nat sealed_data_size + length request_buf)%nat in
  '(status, response_buf, self) ← ecall self request_buf response_len;
  if decide (status = SGX_SUCCESS) then
    match decode intra_enclave_response_codec response_buf with
    | Some (Ok (OkTxWithOutputs paid_fee sealed_tx)) =>
        let '(inserted, t) := sled_insert (txdb self) (enclave_tx_id (req_tx request)) sealed_tx in
        let self := set_txdb self t in
        match inserted with
        | Err _ => Some (Err IoError, self)
        | Ok _ => Some (Ok (paid_fee, withdraw <$> req_account request), self)
        end
    | Some (Ok (OkDepositStakeTx input_coins)) =>
        account ← deposit_account request input_coins;
        Some (Ok (min_fee_computed (req_info request), Some account), self)
    | Some (Err e) => Some (Err e, self)
    | _ => Some (Err EnclaveRejected, self)
    end
  else Some (Err EnclaveRejected, self).

(** ** Messages *)

(** [app_hash.copy_from_slice(&stored)] panics unless there are 32 bytes. *)
Definition stored_app_hash (stored : option (list byte)) : option (option H256) :=
  match stored with
  | None => Some None
  | Some h => if (length h =? 32)%nat then Some (Some h) else None
  end.

Definition handle_check_chain (self : TxValidationServer) (hex_id : Z) (last_app_hash : option H256) :
  option EnclaveResponse :=
  match sled_get (metadb self) LAST_APP_HASH_KEY with
  | Err _ => Some (RespCheckChain (Err None))
  | Ok stored =>
      ss ← stored_app_hash stored;
      Some (RespCheckChain (if decide (last_app_hash = ss) then check_initchain hex_id ss else Err ss))
  end.

Definition handle_commit_block (self : TxValidationServer) (app_hash : H256) (info : ChainInfo) :
  EnclaveResponse * TxValidationServer :=
  let self := set_metadb self (sled_insert (metadb self) LAST_APP_HASH_KEY app_hash).2 in
  let self := set_metadb self (sled_insert (metadb self) LAST_CHAIN_INFO_KEY
                                 (enc chain_info_codec info)).2 in
  match flush_all self with
  | Ok _ => (RespCommitBlock (Ok ()), set_info self info)
  | Err _ => (RespCommitBlock (Err ()), self)
  end.

Definition handle_verify_tx (self : TxValidationServer) (req : VerifyTxRequest) :
  option (EnclaveResponse * TxValidationServer) :=
  let mtxins := lookup_inputs self (req_tx req) in
  if is_ok (is_basic_valid_tx_request req mtxins (info_chain_hex_id (req_info req))) then
    '(r, self) ← check_tx self req mtxins;
    Some (RespVerifyTx r, self)
  else Some (UnknownRequest, self).

Definition handle_encrypt_tx (self : TxValidationServer) (req : QueryEncryptRequest) :
  option (EnclaveResponse * TxValidationServer) :=
  match server_info self with
  | Some info =>
      let tx_inputs := ins ← query_tx_inputs req; lookup_txids (txdb self) (id <$> ins) in
      '(r, self) ← encrypt_tx self {| encrypt_txid := query_txid req;
                                      encrypt_sealed_enc_request := query_sealed_enc_request req;
                                      encrypt_tx_inputs := tx_inputs; encrypt_info := info |};
      Some (RespEncryptTx r, self)
  | None => Some (RespEncryptTx (Err EnclaveRejected), self)
  end.

(** One round of the loop of [execute]: the response, and its bytes. *)
Definition server_respond (self : TxValidationServer) (msg : list byte) :
  option (EnclaveResponse * TxValidationServer) :=
  match decode enclave_request_codec msg with
  | Some (CheckChain hex_id last_app_hash) =>
      r ← handle_check_chain self hex_id last_app_hash; Some (r, self)
  | Some EndBlock => '(r, self) ← end_block self; Some (RespEndBlock r, self)
  | Some (CommitBlock app_hash info) => Some (handle_commit_block self app_hash info)
  | Some (VerifyTx req) => handle_verify_tx self req
  | Some (GetSealedTxData txids) => Some (RespGetSealedTxData (lookup_txids (txdb self) txids), self)
  | Some (EncryptTx req) => handle_encrypt_tx self req
  | None => Some (UnknownRequest, self)
  end.

Definition server_step (self : TxValidationServer) (msg : list byte) :
  option (list byte * TxValidationServer) :=
  '(resp, self) ← server_respond self msg;
  Some (enc enclave_response_codec resp, self).

(** [ZmqEnclaveClient::process_request]. *)
Definition zmq_enclave_client : EnclaveProxy := {|
  Proxy := TxValidationServer;
  process_request := λ self request,
    '(msg, self) ← server_step self (enc enclave_request_codec request);
    resp ← decode enclave_response_codec msg;
    Some (resp, self);
|}.
End server.
