(* ===== verification/ServerContract.v ===== *)
(** * ServerContract: the validation server keeps the promise of [EnclaveContract]

    Every answer of the server can be parsed by its client, the sealed transactions
    it stores are those it validated, and an accepted request is one whose plain
    transaction passes the checks of the validation library. *)

From stdpp Require Import base tactics option list gmap strings.
From Stdlib Require Import ZArith Lia.
From S2P Require Import Prelude Text Codec Milli Coin Crypto Merkle Params Account TxTypes.
From S2P Require Import Validation BitVec Filter EnclaveProtocol EnclaveCodec Enclave EnclaveServer.

Section contract.
Context `{Hashes, Secp256k1Laws, ScaleLaws, BitVecLaws, SgxLaws, AeadLaws, EnclaveBuild, SledLaws}.

(** ** The invariant of the server *)

(** A sealed transaction is stored under its identifier. *)
Definition stored_as (i : TxId) (raw : SealedLog) : Prop :=
  ∃ t, sealed_holds raw i t ∧ tx_with_outputs_id t = i ∧ with_outputs_ok t.

Definition txdb_ok (t : SledTree) : Prop := map_Forall stored_as (sled_view t).

Record server_inv (s : TxValidationServer) : Prop := {
  inv_txdb : txdb_ok (txdb s);
  inv_info : option_ok chain_info_ok (server_info s);
  inv_filter : filter_ok (block_filter (enclave s));
}.

Lemma lookup_txids_inv t l logs :
  txdb_ok t → lookup_txids t l = Some logs → Forall2 stored_as l logs.
Proof.
  intros Ht. revert logs. induction l as [|i l IH]; intros logs Hl; simpl in Hl.
  { by injection Hl as <-. }
  destruct (sled_get t i) as [[raw|]|] eqn:Eg; [|done|done].
  destruct (lookup_txids t l) as [rest|]; [|done]. simpl in Hl. injection Hl as <-.
  constructor; [|by apply IH]. apply (Ht i raw), sled_get_view, Eg.
Qed.

Lemma lookup_txids_ok t l logs :
  txdb_ok t → Z.of_nat (length l) ≤ U32_MAX → lookup_txids t l = Some logs → vec_ok log_ok logs.
Proof.
  intros Ht Hlen Hl%lookup_txids_inv; [|done]. split.
  - by rewrite <- (Forall2_length _ _ _ Hl).
  - apply Forall_lookup. intros k raw Hk.
    destruct (Forall2_lookup_r _ _ _ _ _ Hl Hk) as (i & _ & t' & Hs & _). by destruct Hs.
Qed.

(** ** Validation *)

(** The answer of the server to an accepted request. *)
Definition server_accepts (s : TxValidationServer) (req : VerifyTxRequest)
    (logs : option (list SealedLog)) (fee : Fee) (acc : option StakedState)
    (s' : TxValidationServer) : Prop :=
  ∃ r, enclave_accepts req logs r
    ∧ match r with
      | OkTxWithOutputs f sealed => fee = f ∧ acc = withdraw <$> req_account req
          ∧ sled_view (txdb s') = <[enclave_tx_id (req_tx req) := sealed]> (sled_view (txdb s))
          ∧ ∃ t, opened_tx (req_tx req) = Some t ∧ filter_gains (enclave s) (enclave s') t
      | OkDepositStakeTx c => fee = min_fee_computed (req_info req)
          ∧ acc = deposit_account req c ∧ is_Some acc ∧ txdb s' = txdb s ∧ enclave s' = enclave s
      | _ => False
      end.

Lemma deposit_account_ok req c a :
  verify_request_ok req → coin_ok c → deposit_account req c = Some a → staked_state_ok a.
Proof.
  intros (Htx & Hac & (Hmin & _ & Ht & _)) Hc Hd. unfold deposit_account, fee_to_coin in Hd.
  destruct (coin_sub c _) as [d|] eqn:Es; [|done]. simpl in Hd.
  apply coin_sub_ok in Es as [-> ?]; [|done|by destruct Hmin].
  destruct (req_account req) as [b|].
  - apply deposit_spec in Hd as [-> ?]. destruct Hac as (?&?&?&?&?&?&?). staked_ok.
  - destruct (req_tx req) as [|tx p|]; [done| |done]. injection Hd as <-.
    destruct Htx as [(_ & ? & _) _]. staked_ok.
Qed.

Lemma ecall_validate s req logs len status buf s' :
  verify_request_ok req → option_ok (vec_ok log_ok) logs →
  ecall s (enc intra_enclave_request_codec (ValidateTx req logs)) len = Some (status, buf, s') →
  txdb s' = txdb s ∧ metadb s' = metadb s ∧ server_info s' = server_info s
  ∧ (status = SGX_SUCCESS → ∃ resp, decode intra_enclave_response_codec buf = Some resp
       ∧ result_ok any_error intra_response_ok resp ∧ answers (enclave s) req logs resp (enclave s')).
Proof.
  intros Hreq Hlogs He. unfold ecall in He.
  destruct (ecall_check_tx _ _ _) as [[[st wr] e]|] eqn:Ee; [|done]. simpl in He.
  injection He as <- <- <-. split_and!; try done. intros ->. unfold ecall_check_tx in Ee.
  destruct (decode intra_enclave_request_codec _) as [r|] eqn:Ed; [|done].
  apply (decode_whole intra_request_ok) in Ed; [|apply intra_enclave_request_codec_sound | by split].
  subst r. apply validate_inv in Ee as (resp & -> & Hok & Ha); [|done]. exists resp. split; [|done].
  unfold decode. by rewrite (intra_enclave_response_codec_ok resp).
Qed.

Lemma ecall_filter s bytes len status buf s' :
  filter_ok (block_filter (enclave s)) → ecall s bytes len = Some (status, buf, s') →
  filter_ok (block_filter (enclave s')).
Proof.
  intros Hf. unfold ecall. destruct (ecall_check_tx _ _ _) as [[[st wr] e]|] eqn:E; [|done]. simpl.
  intros [= _ _ <-]. by eapply ecall_check_tx_filter.
Qed.

(** The sealed transaction of an acceptance is stored under its identifier. *)
Lemma accepted_stored req logs f sealed :
  enclave_accepts req logs (OkTxWithOutputs f sealed) → stored_as (enclave_tx_id (req_tx req)) sealed.
Proof.
  intros Ha. inversion Ha as [? ? ? tx ? ? ? ? ? Et Hd ? Hid| |? ? ? ? tx ? ? Et ? ? Hd Hid]; subst;
    rewrite Et; apply decrypt_ok in Hd; [exists (Transfer tx) | exists (StakeWithdraw tx)];
    (split; [done|]); split; [done | apply Hd | done | apply Hd].
Qed.

Lemma withdraw_state_ok a : staked_state_ok a → staked_state_ok (withdraw a).
Proof. intros (?&?&?&?&?&?&?). unfold withdraw, incr_nonce, with_unbonded, coin_zero. staked_ok. Qed.

Lemma check_tx_spec s req logs r s' :
  server_inv s → verify_request_ok req → option_ok (vec_ok log_ok) logs →
  check_tx s req logs = Some (r, s') →
  server_inv s' ∧ metadb s' = metadb s ∧ result_ok any_error verdict_ok r
  ∧ match r with Ok (fee, acc) => server_accepts s req logs fee acc s' | Err _ => True end.
Proof.
  intros [Hdb Hi Hf] Hreq Hlogs Hc. unfold check_tx in Hc.
  destruct (ecall _ _ _) as [[[status buf] s1]|] eqn:Ee; [|done]. simpl in Hc.
  pose proof (ecall_filter _ _ _ _ _ _ Hf Ee) as Hf1.
  apply ecall_validate in Ee as (Edb & Emd & Einf & Hresp); [|done..].
  assert (Hinv1 : server_inv s1) by (split; [by rewrite Edb | by rewrite Einf | done]).
  case_decide as Hst; [|by injection Hc as <- <-]. destruct (Hresp Hst) as (resp & Ed & Hok & Ha).
  rewrite Ed in Hc. destruct resp as [[f sealed|c|o|t]|err]; try by injection Hc as <- <-.
  - destruct (sled_insert _ _ _) as [ins t] eqn:Ei. destruct Ha as [Ha Hg].
    pose proof (sled_insert_view _ _ _ _ _ Ei) as Hv. rewrite Edb in Hv.
    destruct ins; injection Hc as <- <-.
    + split_and!; try done.
      * split; [|apply Hinv1|apply Hinv1]. unfold txdb_ok. simpl. rewrite Hv. apply map_Forall_insert_2; [|done].
        by eapply accepted_stored.
      * destruct Hok as [? _]. split; [done|]. destruct Hreq as (_ & Hac & _).
        destruct (req_account req); [by apply withdraw_state_ok | done].
      * eexists. split; [exact Ha|]. by split_and!.
    + split_and!; try done. split; [|apply Hinv1|apply Hinv1]. unfold txdb_ok. simpl. by rewrite Hv.
  - destruct Ha as [Ha He]. destruct (deposit_account req c) as [a|] eqn:Ea; [|done]. simpl in Hc.
    injection Hc as <- <-. split_and!; try done.
    + split; [by destruct Hreq as (_ & _ & ? & _) | by eapply deposit_account_ok].
    + exists (OkDepositStakeTx c). split; [done|]. by split_and!.
Qed.

Lemma lookup_inputs_ok s tx :
  server_inv s → enclave_aux_ok tx → option_ok (vec_ok log_ok) (lookup_inputs s tx).
Proof.
  intros [Hdb _ _] Htx. destruct (lookup_inputs s tx) as [logs|] eqn:El; [|done]. simpl.
  destruct tx as [ins n p|tx p|n w p]; [| |done]; simpl in El;
    (eapply lookup_txids_ok; [done | | done]); rewrite length_fmap.
  - by destruct Htx as [[? _] _].
  - by destruct Htx as [[[? _] _] _].
Qed.

Lemma ecall_frame s bytes len status buf s' :
  server_inv s → ecall s bytes len = Some (status, buf, s') →
  server_inv s' ∧ txdb s' = txdb s ∧ metadb s' = metadb s ∧ server_info s' = server_info s.
Proof.
  intros [Hdb Hi Hf] He. pose proof (ecall_filter _ _ _ _ _ _ Hf He). unfold ecall in He.
  destruct (ecall_check_tx _ _ _) as [[[st wr] e]|]; [|done]. simpl in He. by injection He as _ _ <-.
Qed.

Lemma end_block_ok s r s' :
  server_inv s → end_block s = Some (r, s') →
  server_inv s' ∧ result_ok any_unit (option_ok (array_ok 256)) r.
Proof.
  intros Hs. unfold end_block. destruct (ecall _ _ _) as [[[status buf] s1]|] eqn:E; [|done]. simpl.
  intros [= <- <-]. apply ecall_frame in E as (? & _); [|done]. split; [done|].
  case_decide; [|done]. destruct (decode _ buf) as [resp|] eqn:Ed; [|done].
  eapply decode_typed in Ed; [|apply intra_enclave_response_codec_typed].
  by destruct resp as [[]|].
Qed.

Lemma encrypt_tx_ok s req r s' :
  server_inv s → encrypt_tx s req = Some (r, s') → server_inv s' ∧ result_ok any_error obfuscated_ok r.
Proof.
  intros Hs. unfold encrypt_tx. destruct (ecall _ _ _) as [[[status buf] s1]|] eqn:E; [|done]. simpl.
  intros [= <- <-]. apply ecall_frame in E as (? & _); [|done]. split; [done|].
  case_decide; [|done]. destruct (decode _ buf) as [resp|] eqn:Ed; [|done].
  eapply decode_typed in Ed; [|apply intra_enclave_response_codec_typed].
  by destruct resp as [[]|].
Qed.

Lemma check_chain_ok s hex_id h r : handle_check_chain s hex_id h = Some r → enclave_response_ok r.
Proof.
  unfold handle_check_chain. destruct (sled_get _ _) as [stored|]; [|by intros [= <-]].
  unfold stored_app_hash. destruct stored as [b|]; [|simpl].
  - destruct (Nat.eqb_spec (length b) 32); [|done]. simpl. intros [= <-]. simpl. case_decide; [|done].
    unfold check_initchain. by case_decide.
  - intros [= <-]. simpl. case_decide; [|done]. unfold check_initchain. by case_decide.
Qed.

(** Every message has an answer that its client can parse, and the invariant stays. *)
Lemma server_respond_ok s msg resp s1 :
  server_inv s → server_respond s msg = Some (resp, s1) → server_inv s1 ∧ enclave_response_ok resp.
Proof.
  intros Hs E. unfold server_respond in E.
  destruct (decode enclave_request_codec msg) as [req|] eqn:Ed; [|by injection E as <- <-].
  eapply decode_typed in Ed; [|apply enclave_request_codec_typed].
  destruct req as [c h|req| |h i|l|req]; simpl in Ed.
  - destruct (handle_check_chain s c h) eqn:Ec; [|done]. injection E as <- <-. split; [done|].
    by eapply check_chain_ok.
  - unfold handle_verify_tx in E. destruct (is_ok _); [|by injection E as <- <-].
    destruct (check_tx _ _ _) as [[r s2]|] eqn:Ec; [|done]. simpl in E. injection E as <- <-.
    apply check_tx_spec in Ec as (? & _ & ? & _); [done..|]. apply lookup_inputs_ok; [done | apply Ed].
  - destruct (end_block s) as [[r s2]|] eqn:Ee; [|done]. injection E as <- <-. exact (end_block_ok _ _ _ Hs Ee).
  - injection E as E. unfold handle_commit_block in E. destruct Hs as [Hdb Hi Hf], Ed as [_ Hinfo].
    destruct (flush_all _); injection E as <- <-; by split.
  - injection E as <- <-. split; [done|]. simpl. destruct (lookup_txids _ l) eqn:El; [|done].
    destruct Ed. by eapply lookup_txids_ok; [apply Hs|..].
  - unfold handle_encrypt_tx in E. destruct (server_info s); [|by injection E as <- <-].
    destruct (encrypt_tx _ _) as [[r s2]|] eqn:Ee; [|done]. injection E as <- <-.
    exact (encrypt_tx_ok _ _ _ _ Hs Ee).
Qed.

(** ** The contract *)

(** The transactions that are unsealed for a request are those the inputs name. *)
Lemma check_unseal_sources ids logs ts :
  Forall2 stored_as ids logs → check_unseal None false ids logs = Some ts →
  Forall2 (λ i t, tx_with_outputs_id t = i) ids ts.
Proof.
  unfold check_unseal. intros Hl. revert ts.
  induction Hl as [|i raw ids logs (t' & (_ & sd & Hr & Hu) & Hid & Hok) Hl IH]; intros ts Hc.
  { by injection Hc as <-. }
  cbn [zip check_unseal_loop zip_with] in Hc. unfold unseal_tx in Hc.
  destruct (U32_MAX <=? _); [done|]. rewrite Hr in Hc. cbn [mbind option_bind] in Hc.
  rewrite Hu in Hc. cbn [mbind option_bind ok] in Hc. rewrite decide_True in Hc by done.
  destruct (decode tx_with_outputs_codec _) as [t|] eqn:Ed; [|done]. cbn [mbind option_bind] in Hc.
  destruct (check_unseal_loop None false (zip ids logs)) as [rest|]; [|done]. injection Hc as <-.
  apply (decode_whole with_outputs_ok) in Ed; [|apply tx_with_outputs_codec_sound | done].
  subst t. constructor; [done | by apply IH].
Qed.

#[local] Existing Instance zmq_enclave_client.

(** The client sees the response of the server to its request. *)
Lemma process_request_inv s request resp s' :
  server_inv s → enclave_request_ok request → process_request s request = Some (resp, s') →
  server_inv s'
  ∧ (resp = UnknownRequest
     ∨ server_respond s (enc enclave_request_codec request) = Some (resp, s')
       ∧ decode enclave_request_codec (enc enclave_request_codec request) = Some request).
Proof.
  intros Hs Hreq Hp. cbn [process_request zmq_enclave_client] in Hp. unfold server_step in Hp.
  destruct (server_respond _ _) as [[r s1]|] eqn:Er; [|done]. cbn [mbind option_bind] in Hp.
  destruct (server_respond_ok _ _ _ _ Hs Er) as [Hs1 Hok].
  rewrite (decode_ok enclave_response_ok) in Hp; [|apply enclave_response_codec_ok | done].
  simpl in Hp. injection Hp as -> ->. split; [done|].
  destruct (decode enclave_request_codec (enc enclave_request_codec request)) as [q|] eqn:Ed.
  - right. apply (decode_whole enclave_request_ok) in Ed as ->; [|apply enclave_request_codec_sound | done].
    done.
  - left. unfold server_respond in Er. rewrite Ed in Er. by injection Er as <- _.
Qed.

Lemma verify_request_inv s req fee acc s' :
  server_inv s → verify_request_ok req →
  process_request s (VerifyTx req) = Some (RespVerifyTx (Ok (fee, acc)), s') →
  server_inv s' ∧ server_accepts s req (lookup_inputs s (req_tx req)) fee acc s'.
Proof.
  intros Hs Hreq Hp. apply process_request_inv in Hp as (Hs' & [?|[Er Ed]]); [done| |done..].
  split; [done|]. unfold server_respond in Er. rewrite Ed in Er. unfold handle_verify_tx in Er.
  destruct (is_ok _); [|done]. destruct (check_tx s req _) as [[r s2]|] eqn:Ec; [|done].
  simpl in Er. injection Er as -> ->. apply check_tx_spec in Ec as (_ & _ & _ & Ha); try done.
  apply lookup_inputs_ok; [done | apply Hreq].
Qed.

(** The transaction is kept under its identifier for the transactions that spend it. *)
Definition kept (s : TxValidationServer) (i : TxId) (t : TxWithOutputs) : Prop :=
  ∃ raw, sled_view (txdb s) !! i = Some raw ∧ sealed_holds raw i t.

(** What an accepted request says of the plain transaction.  A deposit creates no outputs and
    is not kept; the enclave leaves the check that its account is not jailed to the
    application. *)
Definition verified (s : TxValidationServer) (req : VerifyTxRequest) (fee : Fee)
    (acc : option StakedState) (s' : TxValidationServer) : Prop :=
  match req_tx req with
  | TransferTx ins n payload => ∃ tx w sources,
      decrypt payload = Some (PlainTransferTx tx w) ∧ tx_ok tx
      ∧ transaction_id tx_codec tx = txid payload ∧ as_u16 (Z.of_nat (length (outputs tx))) = n
      ∧ outs_ok sources ∧ Forall2 (λ p t, tx_with_outputs_id t = id p) ins sources
      ∧ verify_transfer tx w (req_info req) sources = Some (Ok fee)
      ∧ acc = withdraw <$> req_account req ∧ kept s' (txid payload) (Transfer tx)
  | DepositStakeTx tx payload => ∃ w sources coins,
      decrypt payload = Some (PlainDepositStakeTx w)
      ∧ outs_ok sources ∧ Forall2 (λ p t, tx_with_outputs_id t = id p) (deposit_inputs tx) sources
      ∧ verify_bonded_deposit_core tx w (req_info req) sources = Some (Ok coins)
      ∧ fee = min_fee_computed (req_info req) ∧ acc = deposit_account req coins ∧ txdb s' = txdb s
      ∧ ((∀ a, req_account req = Some a → is_jailed a = false) →
         verify_bonded_deposit tx w (req_info req) sources (req_account req) = Some (Ok (fee, acc)))
  | WithdrawUnbondedStakeTx n w payload => ∃ tx a,
      decrypt payload = Some (PlainWithdrawUnbondedStakeTx tx) ∧ withdraw_tx_ok tx
      ∧ transaction_id withdraw_codec tx = txid payload
      ∧ as_u16 (Z.of_nat (length (withdraw_outputs tx))) = n
      ∧ req_account req = Some a ∧ verify_tx_recover_address w (txid payload) = Ok (address a)
      ∧ verify_unbonded_withdraw tx (req_info req) a = Some (Ok (fee, acc))
      ∧ kept s' (txid payload) (StakeWithdraw tx)
  end.

(** The inputs of a request as they were looked up and unsealed. *)
Lemma request_sources s ins logs sources :
  server_inv s → lookup_txids (txdb s) (id <$> ins) = Some logs →
  check_unseal None false (id <$> ins) logs = Some sources →
  outs_ok sources ∧ Forall2 (λ p t, tx_with_outputs_id t = id p) ins sources.
Proof.
  intros Hs Hl Hu. split; [by eapply check_unseal_outs|].
  assert (Hf : Forall2 stored_as (id <$> ins) logs) by (eapply lookup_txids_inv; [apply Hs | done]).
  pose proof (check_unseal_sources _ _ _ Hf Hu) as Hsrc. by rewrite Forall2_fmap_l in Hsrc.
Qed.

Lemma accepts_verified s req fee acc s' :
  server_inv s → verify_request_ok req →
  server_accepts s req (lookup_inputs s (req_tx req)) fee acc s' → verified s req fee acc s'.
Proof.
  intros Hs (_ & _ & Hmin & _) (r & Ha & Hr). unfold verified.
  remember (lookup_inputs s (req_tx req)) as logs eqn:El.
  destruct Ha as [ins n payload tx w logs sources f sealed Et Hd Hu Hid Hn Hv Hsl
    |tx payload w logs sources c Et Hd Hu Hv
    |n w payload a tx f sealed Et Hac Hre Hd Hid Hn Hv Hsl]; rewrite Et in *; simpl in El.
  - destruct Hr as (-> & -> & Hview & _). apply eq_sym in El.
    destruct (request_sources _ _ _ _ Hs El Hu) as [Ho Hsrc]. destruct (decrypt_ok _ _ Hd) as [Htx _].
    exists tx, w, sources. split_and!; try done. exists sealed. rewrite Hview, lookup_insert_eq. done.
  - destruct Hr as (-> & -> & [a Ha] & Hdb & _). apply eq_sym in El.
    destruct (request_sources _ _ _ _ Hs El Hu) as [Ho Hsrc].
    exists w, sources, c. split_and!; try done. intros Hj. unfold verify_bonded_deposit.
    replace (match req_account req with Some account => verify_unjailed account | None => Ok () end)
      with (@Ok Error () tt).
    2: { destruct (req_account req) as [b|]; [|done]. unfold verify_unjailed. by rewrite (Hj b eq_refl). }
    cbn [run_bind]. rewrite Hv. cbn [run_bind]. unfold deposit_account in *. rewrite Et in *.
    destruct (unwrap (coin_sub c _)) as [d|]; [|done]. simpl in *. destruct (req_account req) as [b|]; simpl in *.
    + by rewrite Ha.
    + done.
  - destruct Hr as (-> & -> & Hview & _). rewrite Hac. exists tx, a.
    split_and!; try done; [apply (decrypt_ok _ _ Hd) | | by exists sealed; rewrite Hview, lookup_insert_eq].
    unfold verify_unbonded_withdraw. by rewrite Hv.
Qed.

(** The server is an enclave of the application. *)
Lemma server_keeps_inv s request resp s' :
  server_inv s → process_request s request = Some (resp, s') → server_inv s'.
Proof.
  intros Hs Hp. cbn [process_request zmq_enclave_client] in Hp. unfold server_step in Hp.
  destruct (server_respond _ _) as [[r s1]|] eqn:Er; [|done]. cbn [mbind option_bind] in Hp.
  destruct (server_respond_ok _ _ _ _ Hs Er) as [Hs1 Hok].
  rewrite (decode_ok enclave_response_ok) in Hp; [|apply enclave_response_codec_ok | done].
  simpl in Hp. by injection Hp as _ ->.
Qed.

Lemma server_verified s req fee acc s' :
  server_inv s → verify_request_ok req →
  process_request s (VerifyTx req) = Some (RespVerifyTx (Ok (fee, acc)), s') →
  server_inv s' ∧ verified s req fee acc s'.
Proof.
  intros Hs Hreq Hp. apply verify_request_inv in Hp as [? Ha]; [|done..].
  split; [done | by apply accepts_verified].
Qed.

#[refine] Definition validation_server_contract : EnclaveContract := {|
  enclave_open := decrypt;
  proxy_inv := server_inv;
  proxy_inv_step := server_keeps_inv;
|}.
Proof.
  - intros s s' ins n payload info fee acc Hs Hr Hp.
    destruct (server_verified _ _ _ _ _ Hs Hr Hp) as (_ & tx & w & sources & ? & Htx & ? & ? & ? & _ & ? & -> & _).
    split; [done|]. exists tx, w, sources. split_and!; try done. by apply (with_outputs_outs (Transfer tx)).
  - intros s s' tx payload account info fee acc Hs Hr Hj Hp.
    destruct (server_verified _ _ _ _ _ Hs Hr Hp) as (_ & w & sources & c & ? & ? & _ & _ & _ & _ & _ & Hv).
    exists w, sources. split_and!; try done. by apply Hv.
  - intros s s' n w payload account info fee acc Hs Hr Hp.
    destruct (server_verified _ _ _ _ _ Hs Hr Hp) as (_ & tx & a & ? & Htx & ? & ? & [= <-] & _ & ? & _).
    exists tx. split_and!; try done. by apply (with_outputs_outs (StakeWithdraw tx)).
Defined.

(** ** The filter of a block *)

Lemma ecall_validate_filter s req logs len status buf s' :
  verify_request_ok req → option_ok (vec_ok log_ok) logs → filter_ok (block_filter (enclave s)) →
  ecall s (enc intra_enclave_request_codec (ValidateTx req logs)) len = Some (status, buf, s') →
  filter_le (block_filter (enclave s)) (block_filter (enclave s')).
Proof.
  intros Hreq Hlogs Hf He. unfold ecall in He.
  destruct (ecall_check_tx _ _ _) as [[[st wr] e]|] eqn:Ee; [|done]. simpl in He.
  injection He as _ _ <-. unfold ecall_check_tx in Ee. simpl.
  destruct (decode intra_enclave_request_codec _) as [r|] eqn:Ed; [|by injection Ee as _ _ <-].
  apply (decode_whole intra_request_ok) in Ed; [|apply intra_enclave_request_codec_sound | by split].
  subst r. by apply handle_validate_filter in Ee as [_ ?].
Qed.

(** A request for validation only adds keys to the filter. *)
Lemma verify_tx_filter s req resp s' :
  server_inv s → verify_request_ok req → process_request s (VerifyTx req) = Some (resp, s') →
  filter_le (block_filter (enclave s)) (block_filter (enclave s')).
Proof.
  intros Hs Hreq Hp. pose proof (lookup_inputs_ok s (req_tx req) Hs ltac:(apply Hreq)) as Hlogs.
  cbn [process_request zmq_enclave_client] in Hp. unfold server_step in Hp.
  destruct (server_respond _ _) as [[r s1]|] eqn:Er; [|done]. cbn [mbind option_bind] in Hp.
  destruct (decode enclave_response_codec _); [|done]. injection Hp as _ <-. unfold server_respond in Er.
  destruct (decode enclave_request_codec _) as [q|] eqn:Ed; [|by injection Er as _ <-].
  apply (decode_whole enclave_request_ok) in Ed as ->; [|apply enclave_request_codec_sound | done].
  unfold handle_verify_tx in Er. destruct (is_ok _); [|by injection Er as _ <-].
  destruct (check_tx s req _) as [[v s2]|] eqn:Ec; [|done]. simpl in Er. injection Er as _ <-.
  unfold check_tx in Ec. destruct (ecall _ _ _) as [[[st buf] s3]|] eqn:Ee; [|done]. simpl in Ec.
  apply ecall_validate_filter in Ee; [|done|done|apply Hs]. revert Ec.
  case_decide; [|by intros [= _ <-]].
  destruct (decode _ buf) as [[[f sealed|c|o|o]|]|]; try by intros [= _ <-].
  - destruct (sled_insert _ _ _) as [[] t]; by intros [= _ <-].
  - destruct (deposit_account req c); [|done]. by intros [= _ <-].
Qed.

(** The validation requests of a block. *)
Fixpoint verify_all (s : TxValidationServer) (reqs : list VerifyTxRequest) :
  option (list EnclaveResponse * TxValidationServer) :=
  match reqs with
  | [] => Some ([], s)
  | req :: reqs =>
      '(resp, s) ← process_request s (VerifyTx req);
      '(resps, s) ← verify_all s reqs;
      Some (resp :: resps, s)
  end.

(** An accepted transaction of the block that lets [k] view it. *)
Definition viewable (reqs : list VerifyTxRequest) (resps : list EnclaveResponse) (k : PublicKey) : Prop :=
  ∃ i req fee acc t, reqs !! i = Some req ∧ resps !! i = Some (RespVerifyTx (Ok (fee, acc)))
    ∧ opened_tx (req_tx req) = Some t ∧ k ∈ view_key <$> tx_allowed_view t.

Lemma accepted_keys s req fee acc s' t k :
  server_inv s → server_accepts s req (lookup_inputs s (req_tx req)) fee acc s' →
  opened_tx (req_tx req) = Some t → k ∈ view_key <$> tx_allowed_view t →
  is_modified (block_filter (enclave s')) = true
  ∧ check_view_key (block_filter (enclave s')) k = Some true.
Proof.
  intros Hs (r & Ha & Hr) Ho Hk. destruct r as [f sealed|c|o|o]; try done.
  - destruct Hr as (_ & _ & _ & t' & Ho' & Hg). rewrite Ho in Ho'. injection Ho' as <-.
    eapply filter_gains_keys; [apply Hs | done..].
  - inversion Ha as [|? ? ? ? ? ? Et|]; subst. rewrite Et in Ho. done.
Qed.

Lemma verify_all_filter s reqs resps s' :
  server_inv s → Forall verify_request_ok reqs → verify_all s reqs = Some (resps, s') →
  server_inv s' ∧ filter_le (block_filter (enclave s)) (block_filter (enclave s'))
  ∧ ∀ k, viewable reqs resps k → is_modified (block_filter (enclave s')) = true
      ∧ check_view_key (block_filter (enclave s')) k = Some true.
Proof.
  intros Hs Hreqs. revert s resps Hs. induction Hreqs as [|req reqs Hreq Hreqs IH]; intros s resps Hs Hv.
  { injection Hv as <- <-. split_and!; try done. by intros k (i & ? & ? & ? & ? & Hi & _). }
  cbn [verify_all] in Hv. destruct (process_request _ _) as [[resp s1]|] eqn:Ep; [|done].
  cbn [mbind option_bind] in Hv. destruct (verify_all s1 reqs) as [[rest s2]|] eqn:Er; [|done].
  injection Hv as <- ->. pose proof (server_keeps_inv _ _ _ _ Hs Ep) as Hs1.
  destruct (IH s1 rest Hs1 Er) as (Hs' & Hle & Hk).
  split_and!; [done | etrans; [by eapply verify_tx_filter | done] |].
  intros k ([|i] & r & fee & acc & t & Hi & Hresp & Ho & Hin); [|by apply Hk; exists i, r, fee, acc, t].
  injection Hi as <-. injection Hresp as ->.
  apply verify_request_inv in Ep as [_ Ha]; [|done..].
  destruct (accepted_keys _ _ _ _ _ _ _ Hs Ha Ho Hin). split; by apply Hle.
Qed.

(** The end of the block: the filter is returned and a new one begun. *)
Lemma end_block_reply s :
  server_inv s → ∃ r, process_request s EndBlock
      = Some (RespEndBlock (Ok r), set_enclave s (set_filter (enclave s) (filter_reset (block_filter (enclave s)))))
    ∧ if is_modified (block_filter (enclave s))
      then ∃ raw, r = Some raw ∧ bloom_from raw = bloom (block_filter (enclave s)) else r = None.
Proof.
  intros Hs. destruct (handle_end_block_ok (enclave s)) as (r & Hh & Hok & Hr); [apply Hs|].
  exists r. split; [|done]. cbn [process_request zmq_enclave_client]. unfold server_step, server_respond.
  assert (Ed : decode enclave_request_codec (enc enclave_request_codec EndBlock) = Some EndBlock) by done.
  assert (Ei : decode intra_enclave_request_codec (enc intra_enclave_request_codec IntraEndBlock)
               = Some IntraEndBlock) by done.
  assert (Er : ∀ z, decode intra_enclave_response_codec
    (enc intra_enclave_response_codec (Ok (OkEndBlock r)) ++ z) = Some (Ok (OkEndBlock r))).
  { intros z. unfold decode. by rewrite (intra_enclave_response_codec_ok (Ok (OkEndBlock r)) _ Hok). }
  rewrite Ed. unfold end_block, ecall, ecall_check_tx. rewrite Ei.
  change (as_u32 (Z.of_nat 260)) with 260. rewrite Hh. cbn [mbind option_bind].
  rewrite decide_True, Er by done. cbn [mbind option_bind].
  rewrite (decode_ok enclave_response_ok); [done | apply enclave_response_codec_ok | done].
Qed.
End contract.

(** ** Properties *)

Section properties.
Context `{Hashes, Secp256k1Laws, ScaleLaws, BitVecLaws, SgxLaws, AeadLaws, EnclaveBuild, SledLaws}.
#[local] Existing Instance zmq_enclave_client.

(** C3. The validation server is sound.  When its client gets an acceptance for a
    well-formed request, through both encodings, the enclave call and the response buffer,
    then the payload opens to a plain part, and the public inputs of a transfer or a deposit
    were unsealed to transactions with their identifiers.  For a transfer or a withdrawal
    the plain transaction has the public identifier and number of outputs, the check of the
    validation library passes on it with the reported fee, and it is kept sealed under its
    identifier.  For a deposit the core of the library's check passes, which does not look
    at the account: the fee is the minimal one, the account is credited with the rest, and
    nothing is stored; when the account is not jailed, the full check passes with the same
    result.  The server still holds only transactions sealed under their identifiers, so
    the same can be said of every later request. *)
Theorem validation_server_sound s req fee acc s' :
  server_inv s → verify_request_ok req →
  process_request s (VerifyTx req) = Some (RespVerifyTx (Ok (fee, acc)), s') →
  server_inv s' ∧ verified s req fee acc s'.
Proof. apply server_verified. Qed.

(** C17. The filter of a block is complete.  After any sequence of validation requests
    the end of the block is answered without a panic; each key that may view an
    accepted transaction is found in the returned filter; and the next block begins
    with an unmodified filter. *)
Theorem block_filter_complete s reqs resps s1 :
  server_inv s → Forall verify_request_ok reqs → verify_all s reqs = Some (resps, s1) →
  ∃ r s2, process_request s1 EndBlock = Some (RespEndBlock (Ok r), s2)
    ∧ server_inv s2 ∧ is_modified (block_filter (enclave s2)) = false
    ∧ ∀ k, viewable reqs resps k →
        ∃ raw, r = Some raw ∧ check_view_key (filter_from raw) k = Some true.
Proof.
  intros Hs Hreqs Hv. destruct (verify_all_filter _ _ _ _ Hs Hreqs Hv) as (Hs1 & _ & Hk).
  destruct (end_block_reply s1 Hs1) as (r & Hp & Hr). eexists r, _. split; [exact Hp|].
  split; [by eapply server_keeps_inv in Hp|]. split; [done|].
  intros k [Hm Hc]%Hk. rewrite Hm in Hr. destruct Hr as (raw & -> & Hb). exists raw.
  split; [done|]. unfold check_view_key, filter_from. simpl. by rewrite Hb.
Qed.

(** The enclave does not bind the public inputs of a transfer to the inputs of its
    plain transaction: a transfer whose public inputs name other outputs of the same
    transactions is answered in the same way, so an accepted payload is accepted again
    with indices that its witness never signed. *)
Theorem transfer_inputs_unbound e ins ins' n payload account info logs len :
  id <$> ins' = id <$> ins →
  handle_validate_tx e {| req_tx := TransferTx ins' n payload; req_account := account;
                          req_info := info |} logs len
  = handle_validate_tx e {| req_tx := TransferTx ins n payload; req_account := account;
                            req_info := info |} logs len.
Proof.
  intros Hid. unfold handle_validate_tx, is_basic_valid_tx_request. cbn [req_tx req_info req_account].
  by rewrite Hid.
Qed.
End properties.

(** ** A concrete server *)

Module ServerExample.
Import Validation.Example.

(** The sealed form is the length of the additional text, that text and the secret. *)
Definition seal_raw (d : list byte * list byte) : list byte :=
  le_bytes 4 (Z.of_nat (length d.1)) ++ d.1 ++ d.2.

Definition unseal_raw (raw : list byte) : option (list byte * list byte) :=
  '(n, rest) ← le_decode 4 raw;
  Some (take (Z.to_nat n) rest, drop (Z.to_nat n) rest).

Definition sgx_ref : Sgx := {|
  SealedData := list byte * list byte;
  Rng := ();
  sealed_data_size := 4;
  fill_bytes := λ r n, (replicate n Byte.x00, r);
  seal_data := λ r aad text,
    (if Z.of_nat (length aad) + Z.of_nat (length text) + 4 <? U32_MAX then Ok (aad, text)
     else Err SGX_ERROR_INVALID_PARAMETER, r);
  to_raw_sealed_data := λ d, Some (seal_raw d);
  from_raw_sealed_data := unseal_raw;
  unseal_data := Ok;
|}.

Definition build_ref : EnclaveBuild := {| NETWORK_HEX_ID := 171; MOCK_KEY := replicate 16 Byte.x00 |}.

Definition sled_ref : Sled := {|
  SledTree := gmap (list byte) (list byte);
  sled_get := λ t k, Ok (t !! k);
  sled_insert := λ t k v, (Ok (), <[k := v]> t);
  sled_flush := λ _, Ok ();
|}.

#[export] Existing Instances sgx_ref Ref.aead Ref.aead_laws build_ref sled_ref.

#[export] Instance sgx_ref_laws : SgxLaws.
Proof.
  split; simpl.
  - lia.
  - intros r aad text. by destruct (_ <? _).
  - intros r n. apply length_replicate.
  - intros r aad text sd r' raw Hs [= <-]. revert Hs.
    destruct (Z.ltb_spec (Z.of_nat (length aad) + Z.of_nat (length text) + 4) U32_MAX); [|done].
    intros [= <-]. unfold seal_raw. cbn [fst snd].
    rewrite (length_app (le_bytes 4 _)), (length_app aad), le_bytes_length. lia.
  - intros r aad text sd r' raw Hs [= <-]. revert Hs.
    destruct (Z.ltb_spec (Z.of_nat (length aad) + Z.of_nat (length text) + 4) U32_MAX) as [Hl|]; [|done].
    intros [= <-]. exists (aad, text). split; [|done]. unfold unseal_raw, seal_raw. cbn [fst snd].
    pose proof (le_codec_ok 4 (Z.of_nat (length aad)) (aad ++ text)) as Hd. cbn [enc dec le_codec] in Hd.
    rewrite Hd by (change (256 ^ Z.of_nat 4) with (U32_MAX + 1); lia).
    cbn [mbind option_bind]. by rewrite Nat2Z.id, take_app_length, drop_app_length.
Qed.

#[export] Instance sled_ref_laws : SledLaws.
Proof.
  unshelve refine {| sled_view := λ t : SledTree, t |}; simpl.
  - by intros t k v [= ->].
  - by intros t k v r t' [= <- <-].
Defined.

#[export] Existing Instances Ref.hashes Ref.secp Ref.secp_laws scale_ref scale_ref_laws.
#[export] Existing Instances bit_vec_ref bit_vec_ref_laws zmq_enclave_client.

(** The server holds one transaction; the transfer that spends it may be viewed. *)
Definition viewer : PublicKey := Byte.x05.
Definition spend : Tx :=
  {| inputs := [pointer]; outputs := [tx_out_new addr 850];
     attributes := tx_attributes_new_with_access 171 [{| view_key := viewer; access := AllData |}] |}.
Definition payload : TxObfuscated :=
  {| key_from := -1; init_vector := replicate 12 Byte.x00;
     txpayload := replicate 16 Byte.x00 ++ enc plain_tx_aux_codec (PlainTransferTx spend witness);
     txid := transaction_id tx_codec spend |}.
Definition request : VerifyTxRequest :=
  {| req_tx := TransferTx [pointer] 1 payload; req_account := None; req_info := info |}.
Definition server : TxValidationServer :=
  {| enclave := {| block_filter := filter_default; rng := tt |};
     txdb := {[id pointer := seal_raw (id pointer, enc tx_with_outputs_codec (Transfer prev_tx))]};
     metadb := ∅; server_info := None |}.

Lemma prev_ok : with_outputs_ok (Transfer prev_tx).
Proof.
  repeat first [done | split | apply Forall_nil | apply Forall_singleton]; simpl; ints.
Qed.

Lemma server_ok : server_inv server.
Proof.
  split; [|done|exact bloom_default_ok]. refine (proj2 (map_Forall_singleton stored_as _ _) _). exists (Transfer prev_tx).
  split; [|split; [done | exact prev_ok]]. split; [apply vec_ok_any; vm_compute; discriminate|].
  eexists. split; [vm_compute; reflexivity | vm_compute; reflexivity].
Qed.

Lemma payload_ok : obfuscated_ok payload.
Proof.
  split; [simpl; ints|]. split; [reflexivity|]. split; [apply vec_ok_any; vm_compute; discriminate|].
  apply Ref.digest_length.
Qed.

Lemma example_request_ok : verify_request_ok request.
Proof.
  split; [|split; [exact I | split_and!; vm_compute; split; discriminate]]. change (vec_ok txo_ok [pointer] ∧ is_u16 1 ∧ obfuscated_ok payload).
  split; [|split; [ints | exact payload_ok]]. split; [vm_compute; discriminate|].
  apply Forall_singleton. split; [apply Ref.digest_length | vm_compute; split; discriminate].
Qed.
End ServerExample.

Import Validation.Example ServerExample.

Lemma validation_server_sound_witness :
  ∃ s', process_request server (VerifyTx request) = Some (RespVerifyTx (Ok (150, None)), s')
    ∧ verified server request 150 None s'.
Proof.
  assert (E : fst <$> process_request server (VerifyTx request) = Some (RespVerifyTx (Ok (150, None))))
    by (vm_compute; reflexivity).
  destruct (process_request _ _) as [[r s']|] eqn:Ep; [|discriminate E].
  apply Some_inj in E. cbn [fst] in E. subst r. exists s'. split; [reflexivity|].
  exact (proj2 (validation_server_sound server request 150 None s' server_ok example_request_ok Ep)).
Defined.

Lemma block_filter_complete_witness :
  ∃ resps s1 r s2, verify_all server [request] = Some (resps, s1)
    ∧ process_request s1 EndBlock = Some (RespEndBlock (Ok r), s2)
    ∧ ∃ raw, r = Some raw ∧ check_view_key (filter_from raw) viewer = Some true.
Proof.
  assert (E : fst <$> verify_all server [request] = Some [RespVerifyTx (Ok (150, None))])
    by (vm_compute; reflexivity).
  destruct (verify_all server [request]) as [[resps s1]|] eqn:Ev; [|discriminate E].
  apply Some_inj in E. cbn [fst] in E. subst resps.
  destruct (block_filter_complete server [request] _ s1 server_ok
    (proj2 (Forall_singleton _ _) example_request_ok) Ev) as (r & s2 & Hp & _ & _ & Hk).
  exists [RespVerifyTx (Ok (150, None))], s1, r, s2. split; [reflexivity|]. split; [exact Hp|].
  apply Hk. exists 0%nat, request, 150, None, (Transfer spend).
  split; [reflexivity|]. split; [reflexivity|]. split; [vm_compute; reflexivity|]. by left.
Defined.

Lemma transfer_inputs_unbound_witness :
  handle_validate_tx (enclave server)
    {| req_tx := TransferTx [txo_pointer_new (id pointer) 7] 1 payload; req_account := None; req_info := info |}
    (lookup_inputs server (req_tx request)) 1000
  = handle_validate_tx (enclave server) request (lookup_inputs server (req_tx request)) 1000.
Proof.
  exact (transfer_inputs_unbound (enclave server) [pointer] [txo_pointer_new (id pointer) 7] 1 payload
    None info (lookup_inputs server (req_tx request)) 1000 eq_refl).
Defined.
