(* ===== verification/AppState.v ===== *)
(** * AppState: the state of the ABCI application

    Models the types of [src/chain-abci/src/app/app_init.rs]: [ValidatorState],
    [ChainNodeState], [ChainNodeApp] and the operations on the validators that
    are tracked.  The application is a record; each handler takes it and returns
    the updated one. *)

From stdpp Require Import base tactics option list gmap strings.
From Stdlib Require Import ZArith Lia.
From S2P Require Import Prelude Text Codec Milli Coin Crypto Merkle Params Account TxTypes.
From S2P Require Import Validation BitVec Punishment Genesis Storage EnclaveProtocol.

(** [Ord] of [(TendermintVotePower, StakedStateAddress)] is the one of pairs. *)
Abbreviation power_key := (TendermintVotePower * StakedStateAddress)%type (only parsing).

Section state.
Context `{BitVecLib}.

Record ValidatorState := {
  council_nodes_by_power : gmap (Z * StakedStateAddress) CouncilNode;
  staking_addresses : gmap (list byte) StakedStateAddress;
  validator_punishment : ValidatorPunishment;
}.

Record ChainNodeState := {
  state_block_height : Z;
  last_apphash : H256;
  block_time : Timespec;
  proposer_stats : gmap StakedStateAddress Z;
  validators : ValidatorState;
  genesis_time : Timespec;
  top_level : ChainState;
}.

Definition chain_node_state_genesis (genesis_apphash : H256) (time : Timespec) (root : H256)
    (pool : RewardsPoolState) (params : NetworkParameters) (vs : ValidatorState) : ChainNodeState :=
  {| state_block_height := 0; last_apphash := genesis_apphash; block_time := time;
     proposer_stats := ∅; validators := vs; genesis_time := time;
     top_level := {| account_root := root; rewards_pool := pool; network_params := params |} |}.

(** ** Field updates *)

Definition with_liveness (p : ValidatorPunishment) (l : gmap (list byte) LivenessTracker) :
  ValidatorPunishment :=
  {| validator_liveness := l; slashing_schedule := slashing_schedule p |}.
Definition with_schedule (p : ValidatorPunishment) (s : gmap StakedStateAddress SlashingSchedule) :
  ValidatorPunishment :=
  {| validator_liveness := validator_liveness p; slashing_schedule := s |}.

Definition with_nodes (v : ValidatorState) (n : gmap (Z * StakedStateAddress) CouncilNode) :
  ValidatorState :=
  {| council_nodes_by_power := n; staking_addresses := staking_addresses v;
     validator_punishment := validator_punishment v |}.
Definition with_vpunishment (v : ValidatorState) (p : ValidatorPunishment) : ValidatorState :=
  {| council_nodes_by_power := council_nodes_by_power v; staking_addresses := staking_addresses v;
     validator_punishment := p |}.

Definition with_validators (s : ChainNodeState) (v : ValidatorState) : ChainNodeState :=
  {| state_block_height := state_block_height s; last_apphash := last_apphash s;
     block_time := block_time s; proposer_stats := proposer_stats s; validators := v;
     genesis_time := genesis_time s; top_level := top_level s |}.
Definition with_block_time (s : ChainNodeState) (t : Timespec) : ChainNodeState :=
  {| state_block_height := state_block_height s; last_apphash := last_apphash s;
     block_time := t; proposer_stats := proposer_stats s; validators := validators s;
     genesis_time := genesis_time s; top_level := top_level s |}.
Definition with_block_height (s : ChainNodeState) (h : Z) : ChainNodeState :=
  {| state_block_height := h; last_apphash := last_apphash s;
     block_time := block_time s; proposer_stats := proposer_stats s; validators := validators s;
     genesis_time := genesis_time s; top_level := top_level s |}.
Definition with_apphash (s : ChainNodeState) (h : H256) : ChainNodeState :=
  {| state_block_height := state_block_height s; last_apphash := h;
     block_time := block_time s; proposer_stats := proposer_stats s; validators := validators s;
     genesis_time := genesis_time s; top_level := top_level s |}.
Definition with_stats (s : ChainNodeState) (p : gmap StakedStateAddress Z) : ChainNodeState :=
  {| state_block_height := state_block_height s; last_apphash := last_apphash s;
     block_time := block_time s; proposer_stats := p; validators := validators s;
     genesis_time := genesis_time s; top_level := top_level s |}.
Definition with_top_level (s : ChainNodeState) (t : ChainState) : ChainNodeState :=
  {| state_block_height := state_block_height s; last_apphash := last_apphash s;
     block_time := block_time s; proposer_stats := proposer_stats s; validators := validators s;
     genesis_time := genesis_time s; top_level := t |}.

Definition with_pool (t : ChainState) (p : RewardsPoolState) : ChainState :=
  {| account_root := account_root t; rewards_pool := p; network_params := network_params t |}.
Definition with_root (t : ChainState) (r : H256) : ChainState :=
  {| account_root := r; rewards_pool := rewards_pool t; network_params := network_params t |}.

Definition with_bonus (p : RewardsPoolState) (b : Coin) : RewardsPoolState :=
  {| period_bonus := b; last_block_height := last_block_height p;
     last_distribution_time := last_distribution_time p; minted := minted p; tau := tau p |}.
Definition with_minted (p : RewardsPoolState) (m : Coin) : RewardsPoolState :=
  {| period_bonus := period_bonus p; last_block_height := last_block_height p;
     last_distribution_time := last_distribution_time p; minted := m; tau := tau p |}.
Definition with_tau (p : RewardsPoolState) (t : Z) : RewardsPoolState :=
  {| period_bonus := period_bonus p; last_block_height := last_block_height p;
     last_distribution_time := last_distribution_time p; minted := minted p; tau := t |}.
Definition with_pool_height (p : RewardsPoolState) (h : Z) : RewardsPoolState :=
  {| period_bonus := period_bonus p; last_block_height := h;
     last_distribution_time := last_distribution_time p; minted := minted p; tau := tau p |}.

(** [state.top_level.rewards_pool]. *)
Definition pool_of (s : ChainNodeState) : RewardsPoolState := rewards_pool (top_level s).
Definition params_of (s : ChainNodeState) : NetworkParameters := network_params (top_level s).
Definition set_pool (s : ChainNodeState) (p : RewardsPoolState) : ChainNodeState :=
  with_top_level s (with_pool (top_level s) p).
(** [state.validators.punishment]. *)
Definition punishment_of (s : ChainNodeState) : ValidatorPunishment :=
  validator_punishment (validators s).
Definition set_vpunishment (s : ChainNodeState) (p : ValidatorPunishment) : ChainNodeState :=
  with_validators s (with_vpunishment (validators s) p).

(** ** Validator tracking *)

Definition add_validator_for_tracking (self : ValidatorState) (validator_address : list byte)
    (staking_address : StakedStateAddress) (block_signing_window : Z) : ValidatorState :=
  let p := validator_punishment self in
  if decide (is_Some (validator_liveness p !! validator_address)) then self
  else {| council_nodes_by_power := council_nodes_by_power self;
          staking_addresses := <[validator_address := staking_address]> (staking_addresses self);
          validator_punishment := with_liveness p
            (<[validator_address := liveness_new block_signing_window]> (validator_liveness p)) |}.

Definition remove_validator_from_tracking (self : ValidatorState) (tendermint_address : list byte) :
  ValidatorState :=
  let p := validator_punishment self in
  with_vpunishment self (with_liveness p (delete tendermint_address (validator_liveness p))).
End state.

(** ** The application *)

Section app.
Context `{Secp256k1, BitVecLib, KeyValueDB, StarlingTree, !EnclaveProxy}.

Record ChainNodeApp := {
  storage : Db;
  accounts : AccountStorage;
  delivered_txs : list TxAux;
  uncommitted_account_root_hash : H256;
  genesis_app_hash : H256;
  app_chain_hex_id : Z;
  last_state : option ChainNodeState;
  voting_power : gmap StakedStateAddress TendermintVotePower;
  power_changed_in_block : gmap StakedStateAddress TendermintVotePower;
  new_nodes_in_block : gmap StakedStateAddress CouncilNode;
  tx_validator : Proxy;
  rewards_pool_updated : bool;
  tx_query_address : option str;
}.

Definition set_last_state (a : ChainNodeApp) (s : ChainNodeState) : ChainNodeApp :=
  {| storage := storage a; accounts := accounts a; delivered_txs := delivered_txs a;
     uncommitted_account_root_hash := uncommitted_account_root_hash a;
     genesis_app_hash := genesis_app_hash a; app_chain_hex_id := app_chain_hex_id a;
     last_state := Some s; voting_power := voting_power a;
     power_changed_in_block := power_changed_in_block a;
     new_nodes_in_block := new_nodes_in_block a; tx_validator := tx_validator a;
     rewards_pool_updated := rewards_pool_updated a; tx_query_address := tx_query_address a |}.

(** The trie and the root of the uncommitted accounts move together. *)
Definition set_accounts (a : ChainNodeApp) (r : H256) (s : AccountStorage) : ChainNodeApp :=
  {| storage := storage a; accounts := s; delivered_txs := delivered_txs a;
     uncommitted_account_root_hash := r;
     genesis_app_hash := genesis_app_hash a; app_chain_hex_id := app_chain_hex_id a;
     last_state := last_state a; voting_power := voting_power a;
     power_changed_in_block := power_changed_in_block a;
     new_nodes_in_block := new_nodes_in_block a; tx_validator := tx_validator a;
     rewards_pool_updated := rewards_pool_updated a; tx_query_address := tx_query_address a |}.

Definition set_power_changed (a : ChainNodeApp) (p : gmap StakedStateAddress TendermintVotePower) :
  ChainNodeApp :=
  {| storage := storage a; accounts := accounts a; delivered_txs := delivered_txs a;
     uncommitted_account_root_hash := uncommitted_account_root_hash a;
     genesis_app_hash := genesis_app_hash a; app_chain_hex_id := app_chain_hex_id a;
     last_state := last_state a; voting_power := voting_power a;
     power_changed_in_block := p;
     new_nodes_in_block := new_nodes_in_block a; tx_validator := tx_validator a;
     rewards_pool_updated := rewards_pool_updated a; tx_query_address := tx_query_address a |}.

Definition set_pool_updated (a : ChainNodeApp) (b : bool) : ChainNodeApp :=
  {| storage := storage a; accounts := accounts a; delivered_txs := delivered_txs a;
     uncommitted_account_root_hash := uncommitted_account_root_hash a;
     genesis_app_hash := genesis_app_hash a; app_chain_hex_id := app_chain_hex_id a;
     last_state := last_state a; voting_power := voting_power a;
     power_changed_in_block := power_changed_in_block a;
     new_nodes_in_block := new_nodes_in_block a; tx_validator := tx_validator a;
     rewards_pool_updated := b; tx_query_address := tx_query_address a |}.

Definition set_validator (a : ChainNodeApp) (p : Proxy) : ChainNodeApp :=
  {| storage := storage a; accounts := accounts a; delivered_txs := delivered_txs a;
     uncommitted_account_root_hash := uncommitted_account_root_hash a;
     genesis_app_hash := genesis_app_hash a; app_chain_hex_id := app_chain_hex_id a;
     last_state := last_state a; voting_power := voting_power a;
     power_changed_in_block := power_changed_in_block a;
     new_nodes_in_block := new_nodes_in_block a; tx_validator := p;
     rewards_pool_updated := rewards_pool_updated a; tx_query_address := tx_query_address a |}.

Definition set_new_nodes (a : ChainNodeApp) (n : gmap StakedStateAddress CouncilNode) :
  ChainNodeApp :=
  {| storage := storage a; accounts := accounts a; delivered_txs := delivered_txs a;
     uncommitted_account_root_hash := uncommitted_account_root_hash a;
     genesis_app_hash := genesis_app_hash a; app_chain_hex_id := app_chain_hex_id a;
     last_state := last_state a; voting_power := voting_power a;
     power_changed_in_block := power_changed_in_block a;
     new_nodes_in_block := n; tx_validator := tx_validator a;
     rewards_pool_updated := rewards_pool_updated a; tx_query_address := tx_query_address a |}.

Definition set_voting_power (a : ChainNodeApp) (v : gmap StakedStateAddress TendermintVotePower) :
  ChainNodeApp :=
  {| storage := storage a; accounts := accounts a; delivered_txs := delivered_txs a;
     uncommitted_account_root_hash := uncommitted_account_root_hash a;
     genesis_app_hash := genesis_app_hash a; app_chain_hex_id := app_chain_hex_id a;
     last_state := last_state a; voting_power := v;
     power_changed_in_block := power_changed_in_block a;
     new_nodes_in_block := new_nodes_in_block a; tx_validator := tx_validator a;
     rewards_pool_updated := rewards_pool_updated a; tx_query_address := tx_query_address a |}.

Definition set_storage (a : ChainNodeApp) (d : Db) (l : list TxAux) : ChainNodeApp :=
  {| storage := d; accounts := accounts a; delivered_txs := l;
     uncommitted_account_root_hash := uncommitted_account_root_hash a;
     genesis_app_hash := genesis_app_hash a; app_chain_hex_id := app_chain_hex_id a;
     last_state := last_state a; voting_power := voting_power a;
     power_changed_in_block := power_changed_in_block a;
     new_nodes_in_block := new_nodes_in_block a; tx_validator := tx_validator a;
     rewards_pool_updated := rewards_pool_updated a; tx_query_address := tx_query_address a |}.

Definition get_validator_key (node : CouncilNode) : str * list byte :=
  to_validator_update (consensus_pubkey node).
End app.

(** ** A concrete application *)

(** An enclave that accepts the chain and the blocks and refuses transactions. *)
Definition reject_proxy `{Secp256k1} : EnclaveProxy := {|
  Proxy := unit;
  process_request := λ p r, Some (match r with
    | CheckChain _ _ => RespCheckChain (Ok ())
    | VerifyTx _ => RespVerifyTx (Err EnclaveRejected)
    | EndBlock => RespEndBlock (Ok None)
    | CommitBlock _ _ => RespCommitBlock (Ok ())
    | _ => UnknownRequest
    end, p);
|}.

Module AppExample.
#[export] Existing Instance Ref.hashes.
#[export] Existing Instance Ref.secp.
#[export] Existing Instance scale_ref.
#[export] Existing Instance scale_ref_laws.
#[export] Existing Instance bit_vec_ref.
#[export] Existing Instance bit_vec_ref_laws.
#[export] Existing Instance kvdb_ref.
#[export] Existing Instance kvdb_ref_laws.
#[export] Existing Instance starling_ref.
#[export] Existing Instance starling_ref_laws.
#[export] Existing Instance Ref.hex.
#[export] Existing Instance reject_proxy.

Definition addr (i : byte) : StakedStateAddress := BasicRedeem (replicate 20 i).
Definition node (i : byte) : CouncilNode := council_node_new (Ed25519 (replicate 32 i)).
Definition validator (i : byte) (stake : Coin) : StakedState :=
  new_init_bonded stake 10 (addr i) (Some (node i)).

Definition accmap_of (l : list StakedState) : accmap :=
  list_to_map ((λ a, (staked_key a, a)) <$> l).

(** The accounts of a list are the only map of the trie. *)
Definition trie_of (l : list StakedState) : AccountStorage := [account_wrapper_encode <$> accmap_of l].

Definition state (l : list StakedState) : ChainNodeState :=
  chain_node_state_genesis (replicate 32 Byte.x00) 10 [] (rewards_pool_new 10 1000)
    (GenesisParams params_example)
    {| council_nodes_by_power :=
         list_to_map ((λ a, ((bonded a / MAX_COIN_DECIMALS, address a),
                             default (node Byte.x00) (council_node a))) <$> l);
       staking_addresses :=
         list_to_map ((λ a, (validator_address_from (consensus_pubkey
                               (default (node Byte.x00) (council_node a))), address a)) <$> l);
       validator_punishment := {| validator_liveness := ∅; slashing_schedule := ∅ |} |}.

Definition app (l : list StakedState) : ChainNodeApp :=
  {| storage := (∅ : dbmap); accounts := trie_of l; delivered_txs := [];
     uncommitted_account_root_hash := []; genesis_app_hash := replicate 32 Byte.x00;
     app_chain_hex_id := 171; last_state := Some (state l);
     voting_power := list_to_map ((λ a, (address a, bonded a / MAX_COIN_DECIMALS)) <$> l);
     power_changed_in_block := ∅; new_nodes_in_block := ∅; tx_validator := tt;
     rewards_pool_updated := false; tx_query_address := None |}.

Lemma accmap_of_ok l : Forall staked_state_ok l → accmap_ok (accmap_of l).
Proof.
  intros Hl k a Hk. apply elem_of_list_to_map_2, list_elem_of_fmap in Hk as (b & [= -> ->] & Hb).
  rewrite Forall_forall in Hl. auto.
Qed.

Lemma app_holds_example l : Forall staked_state_ok l → holds (trie_of l) [] (accmap_of l).
Proof. intros Hl. split; [reflexivity | by apply accmap_of_ok]. Qed.
End AppExample.
