(* ===== verification/Slashing.v ===== *)
(** * Slashing: liveness updates, jailing and slashing of validators

    Models [src/chain-abci/src/app/jail_account.rs],
    [src/chain-abci/src/app/slash_accounts.rs] and [update_validator_liveness] of
    [src/chain-abci/src/app/mod.rs]. *)

From stdpp Require Import base tactics option list gmap strings.
From Stdlib Require Import ZArith Lia.
From S2P Require Import Prelude Text Codec Milli Coin Crypto Merkle Params Account TxTypes.
From S2P Require Import Validation BitVec Events Punishment Genesis Storage EnclaveProtocol.
From S2P Require Import AppState.

(** [Display] of a staking address. *)
Definition address_to_string `{Hex} (a : StakedStateAddress) : str :=
  match a with BasicRedeem r => bstr "0x" ++ hex_encode r end.

Definition kvpair (k : TendermintEventKey) (v : list byte) : KVPair :=
  {| kv_key := event_key_to_vec k; kv_value := v |}.
Definition account_kvpair `{Hex} (a : StakedStateAddress) : KVPair :=
  kvpair AccountKey (address_to_string a).

(** A vote in the commit of the previous block. *)
Record VoteInfo := { vote_validator : option (list byte); signed_last_block : bool }.

Section slashing.
Context `{Hashes, Secp256k1, Scale, BitVecLib, KeyValueDB, StarlingTree, Hex, !EnclaveProxy}.

(** ** Liveness *)

Definition update_vote (block_height : Z) (state : ChainNodeState) (vote_info : VoteInfo) :
  option ChainNodeState :=
  raw ← vote_validator vote_info;
  address ← unwrap (validator_address_try_from raw);
  let p := punishment_of state in
  match validator_liveness p !! address with
  | Some liveness_tracker =>
      t ← liveness_update liveness_tracker block_height (signed_last_block vote_info);
      Some (set_vpunishment state (with_liveness p (<[address := t]> (validator_liveness p))))
  | None => Some state
  end.

Fixpoint update_validator_liveness (state : ChainNodeState) (block_height : Z)
    (votes : list VoteInfo) : option ChainNodeState :=
  match votes with
  | [] => Some state
  | v :: votes => state ← update_vote block_height state v;
                  update_validator_liveness state block_height votes
  end.

(** ** Jailing *)

Definition jail_account (self : ChainNodeApp) (staking_address : StakedStateAddress)
    (punishment_kind : PunishmentKind) : run Error ChainNodeApp :=
  account ?← Some (get_account staking_address (uncommitted_account_root_hash self) (accounts self));
  if is_jailed account then Some (Ok self)
  else
    s ← last_state self;
    let account := jail_until account (as_u64 (block_time s + get_jail_duration (params_of s)))
                     punishment_kind in
    '(new_root, _, accs) ← update_account account (uncommitted_account_root_hash self) (accounts self);
    let self := set_accounts self new_root accs in
    Some (Ok (set_power_changed self
                (<[staking_address := vote_power_zero]> (power_changed_in_block self)))).

(** ** Slashing *)

(** The body of the loop over the accounts to slash. *)
Definition slash_account (self : ChainNodeApp) (staking_address : StakedStateAddress) :
  run Error ChainNodeApp :=
  account ?← Some (get_account staking_address (uncommitted_account_root_hash self) (accounts self));
  if negb (is_jailed account) then None
  else
    s ← last_state self;
    let p := punishment_of s in
    schedule ← slashing_schedule p !! staking_address;
    let s := set_vpunishment s (with_schedule p (delete staking_address (slashing_schedule p))) in
    '(account, slashed) ← slash account (slash_ratio schedule) (punishment_kind schedule);
    slashed_amount ?← Some (map_err (λ _, InvalidSum) slashed);
    bonus ?← Some (map_err (λ _, InvalidSum) (coin_add (period_bonus (pool_of s)) slashed_amount));
    let self := set_pool_updated (set_last_state self (set_pool s (with_bonus (pool_of s) bonus))) true in
    '(new_root, _, accs) ← update_account account (uncommitted_account_root_hash self) (accounts self);
    Some (Ok (set_accounts self new_root accs)).

Fixpoint slash_accounts (self : ChainNodeApp) (accounts_to_slash : list StakedStateAddress) :
  run Error ChainNodeApp :=
  match accounts_to_slash with
  | [] => Some (Ok self)
  | a :: l => self ?← slash_account self a; slash_accounts self l
  end.

Definition accounts_to_slash (s : ChainNodeState) : list StakedStateAddress :=
  fst <$> filter (λ e, can_slash e.2 (block_time s) = true)
            (btree_iter (slashing_schedule (punishment_of s))).

Definition slash_eligible_accounts (self : ChainNodeApp) : run Error (ChainNodeApp * Event) :=
  s ← last_state self;
  let l := accounts_to_slash s in
  self ?← slash_accounts self l;
  Some (Ok (self, {| field_type := event_type_to_string SlashValidators;
                     event_attributes := account_kvpair <$> l |})).

(** ** The slashing proportion *)

(** The sum is an [i64]. *)
Definition get_total_vote_power (self : ChainNodeApp) : Milli :=
  milli_new (as_u64 (as_i64 (sum_by snd (btree_iter (voting_power self))))) 0.

Definition voting_percent_sqrt (self : ChainNodeApp) (s : ChainNodeState)
    (a : StakedStateAddress) : option Milli :=
  account ← unwrap (get_account a (account_root (top_level s)) (accounts self));
  power ← vote_power_from_coin (bonded account);
  validator_voting_percent ← milli_div (milli_new power 0) (get_total_vote_power self);
  milli_sqrt validator_voting_percent.

Definition get_slashing_proportion (self : ChainNodeApp) (l : list StakedStateAddress) :
  option SlashRatio :=
  s ← last_state self;
  millis ← mapM (voting_percent_sqrt self s) l;
  let slashing_proportion := milli_from_millis (as_u64 (sum_by Datatypes.id millis)) in
  unwrap (slash_ratio_try_from
            (Z.min (milli_new 1 0) (milli_mul slashing_proportion slashing_proportion))).
End slashing.

(** ** Supply *)

Lemma total_stake_nonneg `{Hashes} m : accmap_ok m → 0 ≤ total_stake m.
Proof.
  induction m as [|k a m Hk IH] using map_ind; intros Hm; [done|].
  rewrite total_stake_insert_fresh by done. apply map_Forall_insert in Hm as [[_ Ha] Hm]; [|done].
  specialize (IH Hm). destruct Ha as (_ & Hb & Hu & _). unfold stake_total. ints.
Qed.

Lemma total_stake_ge `{Hashes} m k a : accmap_ok m → m !! k = Some a → stake_total a ≤ total_stake m.
Proof.
  intros Hm Hk. rewrite (total_stake_delete m k a Hk).
  assert (accmap_ok (delete k m)) as Hd by by apply map_Forall_delete.
  pose proof (total_stake_nonneg _ Hd). lia.
Qed.

Section supply.
Context `{Hashes, Secp256k1, BitVecLib, KeyValueDB, ScaleLaws, StarlingLaws, Hex, !EnclaveProxy}.

(** The accounts of the uncommitted root. *)
Definition app_holds (self : ChainNodeApp) (m : accmap) : Prop :=
  holds (accounts self) (uncommitted_account_root_hash self) m.

(** The coins of the accounts and of the rewards pool. *)
Definition supply (s : ChainNodeState) (m : accmap) : Z := total_stake m + period_bonus (pool_of s).

(** An account of the map sits under the key of its address. *)
Lemma staked_key_lookup m a acct :
  accmap_ok m → m !! to_stake_key a = Some acct →
  staked_key acct = to_stake_key a ∧ staked_state_ok acct.
Proof. intros Hm Ha. by destruct (Hm _ _ Ha). Qed.

(** *** Jailing *)

Definition jailed_as (s : ChainNodeState) (acct : StakedState) (k : PunishmentKind) : StakedState :=
  jail_until acct (as_u64 (block_time s + get_jail_duration (params_of s))) k.

Lemma jail_until_ok acct t k : staked_state_ok acct → is_u64 t → staked_state_ok (jail_until acct t k).
Proof. intros (?&?&?&?&?&?&?) Ht. staked_ok. Qed.

Lemma jail_account_spec self s m a k acct :
  last_state self = Some s → app_holds self m → m !! to_stake_key a = Some acct →
  is_jailed acct = false →
  ∃ r accs, jail_account self a k
      = Some (Ok (set_power_changed (set_accounts self r accs)
                    (<[a := vote_power_zero]> (power_changed_in_block self))))
    ∧ holds accs r (<[to_stake_key a := jailed_as s acct k]> m)
    ∧ keeps (accounts self) accs.
Proof.
  intros Hs Hm Ha Hj. unfold jail_account.
  rewrite (proj2 (get_account_Ok _ _ _ _ _ Hm) Ha). simpl. rewrite Hj, Hs. simpl.
  destruct (staked_key_lookup m a acct (proj2 Hm) Ha) as [Hk Hok].
  fold (jailed_as s acct k).
  destruct (update_account_holds _ _ _ (jailed_as s acct k) Hm) as (r & accs & -> & Hh & Hkp).
  { apply jail_until_ok; [done | apply as_u64_range]. }
  simpl. exists r, accs. split; [done|]. split; [|done].
  rewrite <- Hk. exact Hh.
Qed.

Lemma jail_account_twice self m a k acct :
  app_holds self m → m !! to_stake_key a = Some acct → is_jailed acct = true →
  jail_account self a k = Some (Ok self).
Proof.
  intros Hm Ha Hj. unfold jail_account.
  rewrite (proj2 (get_account_Ok _ _ _ _ _ Hm) Ha). simpl. by rewrite Hj.
Qed.

Lemma jail_keeps_total s m a acct k :
  m !! to_stake_key a = Some acct →
  total_stake (<[to_stake_key a := jailed_as s acct k]> m) = total_stake m.
Proof. intros Ha. rewrite total_stake_insert, Ha. unfold stake_total. simpl. lia. Qed.

(** *** Slashing *)

(** The state after the entry of an account left the schedule and its slash went
    to the pool. *)
Definition slashed_state (s : ChainNodeState) (a : StakedStateAddress) (amount : Coin) :
  ChainNodeState :=
  let p := punishment_of s in
  set_pool (set_vpunishment s (with_schedule p (delete a (slashing_schedule p))))
    (with_bonus (pool_of s) (period_bonus (pool_of s) + amount)).

(** An account after slashing by an entry of the schedule. *)
Definition slashed_by (acct acct' : StakedState) (sch : SlashingSchedule) (amount : Coin) : Prop :=
  staked_state_ok acct' ∧ address acct' = address acct
  ∧ bonded acct' = bonded acct - slash_part (bonded acct) (slash_ratio sch)
  ∧ unbonded acct' = unbonded acct - slash_part (unbonded acct) (slash_ratio sch)
  ∧ stake_total acct' + amount = stake_total acct ∧ 0 ≤ amount
  ∧ is_jailed acct' = true.

Lemma slash_account_spec self s m a acct sch :
  last_state self = Some s → app_holds self m → m !! to_stake_key a = Some acct →
  is_jailed acct = true → slashing_schedule (punishment_of s) !! a = Some sch →
  is_slash_ratio (slash_ratio sch) → coin_ok (period_bonus (pool_of s)) → supply s m ≤ MAX_COIN →
  ∃ r accs acct' amount, slash_account self a
      = Some (Ok (set_accounts (set_pool_updated (set_last_state self (slashed_state s a amount)) true)
                    r accs))
    ∧ slashed_by acct acct' sch amount
    ∧ slash acct (slash_ratio sch) (punishment_kind sch) = Some (acct', Ok amount)
    ∧ holds accs r (<[to_stake_key a := acct']> m) ∧ keeps (accounts self) accs.
Proof.
  intros Hs Hm Ha Hj Hsch Hr Hb Hsup. unfold slash_account.
  rewrite (proj2 (get_account_Ok _ _ _ _ _ Hm) Ha). simpl. rewrite Hj, Hs. simpl. rewrite Hsch. simpl.
  destruct (staked_key_lookup m a acct (proj2 Hm) Ha) as [Hk Hok].
  pose proof (total_stake_ge m _ acct (proj2 Hm) Ha) as Hge. unfold supply in Hsup.
  destruct (slash_ok acct (slash_ratio sch) (punishment_kind sch) Hok ltac:(ints) Hr)
    as (acct' & amount & Esl & Hok' & Ead & Eb & Eu & Et & Hnn & Hnna & _ & Ej & _).
  rewrite Esl. simpl. unfold pool_of, top_level, set_vpunishment, with_validators. simpl.
  fold (pool_of s).
  rewrite (proj2 (coin_add_ok _ amount (period_bonus (pool_of s) + amount))) by (split; [done | lia]).
  simpl.
  destruct (update_account_holds (accounts self) (uncommitted_account_root_hash self) m acct' Hm Hok')
    as (r & accs & Eup & Hh & Hkp).
  unfold set_accounts, set_pool_updated, set_last_state. simpl. rewrite Eup. simpl.
  exists r, accs, acct', amount. split; [done|].
  split; [by unfold slashed_by; rewrite Ej|]. split; [done|]. split; [|done].
  rewrite <- Hk. unfold staked_key in *. by rewrite <- Ead.
Qed.
(** The fields slashing changes. *)
Definition slash_frame (self : ChainNodeApp) (s : ChainNodeState) (self' : ChainNodeApp)
    (s' : ChainNodeState) : Prop :=
  ∃ b r accs sched bonus,
    self' = set_accounts (set_pool_updated (set_last_state self s') b) r accs
    ∧ s' = set_pool (set_vpunishment s (with_schedule (punishment_of s) sched))
             (with_bonus (pool_of s) bonus).

Lemma set_schedule_id s :
  s = set_pool (set_vpunishment s (with_schedule (punishment_of s)
        (slashing_schedule (punishment_of s)))) (with_bonus (pool_of s) (period_bonus (pool_of s))).
Proof. by destruct s as [? ? ? ? [? ? []] ? [? [] ?]]. Qed.

Lemma slash_frame_refl self s : last_state self = Some s → slash_frame self s self s.
Proof.
  intros Hs. exists (rewards_pool_updated self), (uncommitted_account_root_hash self), (accounts self),
    (slashing_schedule (punishment_of s)), (period_bonus (pool_of s)).
  split; [|apply set_schedule_id]. destruct self. simpl in *. by rewrite Hs.
Qed.

Lemma slash_frame_step self s a amount r accs self' s' :
  slash_frame (set_accounts (set_pool_updated (set_last_state self (slashed_state s a amount)) true) r accs)
    (slashed_state s a amount) self' s' →
  slash_frame self s self' s'.
Proof. intros (b & r' & accs' & sched & bonus & -> & ->). by exists b, r', accs', sched, bonus. Qed.

(** What holds of the accounts to be slashed. *)
Definition to_slash_ok (s : ChainNodeState) (m : accmap) (a : StakedStateAddress) : Prop :=
  ∃ acct sch, m !! to_stake_key a = Some acct ∧ is_jailed acct = true
    ∧ slashing_schedule (punishment_of s) !! a = Some sch ∧ is_slash_ratio (slash_ratio sch).

Lemma to_slash_ok_step s m a b acct' amount :
  to_stake_key a ≠ to_stake_key b → to_slash_ok s m b →
  to_slash_ok (slashed_state s a amount) (<[to_stake_key a := acct']> m) b.
Proof.
  intros Hne (acct & sch & ? & ? & ? & ?). exists acct, sch.
  rewrite lookup_insert_ne by done. split_and!; [done | done | | done].
  simpl. rewrite lookup_delete_ne; [done | congruence].
Qed.

(** The outcome of slashing the accounts of a list. *)
Record slashed_list (l : list StakedStateAddress) (s : ChainNodeState) (m : accmap)
    (s' : ChainNodeState) (m' : accmap) : Prop := {
  slashed_supply : supply s' m' = supply s m;
  slashed_bonus : period_bonus (pool_of s) ≤ period_bonus (pool_of s');
  slashed_sched b : slashing_schedule (punishment_of s') !! b
    = if decide (b ∈ l) then None else slashing_schedule (punishment_of s) !! b;
  slashed_accounts a acct sch :
    a ∈ l → m !! to_stake_key a = Some acct → slashing_schedule (punishment_of s) !! a = Some sch →
    ∃ acct' amount, m' !! to_stake_key a = Some acct' ∧ slashed_by acct acct' sch amount;
  slashed_others k : k ∉ to_stake_key <$> l → m' !! k = m !! k;
}.

Lemma slashed_list_cons a l s m acct acct' sch amount s' m' :
  to_stake_key a ∉ to_stake_key <$> l →
  m !! to_stake_key a = Some acct → slashing_schedule (punishment_of s) !! a = Some sch →
  slashed_by acct acct' sch amount →
  slashed_list l (slashed_state s a amount) (<[to_stake_key a := acct']> m) s' m' →
  slashed_list (a :: l) s m s' m'.
Proof.
  intros Hnin Ha Hsch Hby [H1' H2' H3' H4' H5'].
  pose proof Hby as (Hok & Had & Hb & Hu & Ht & Hnn & Hj).
  assert (Hal : a ∉ l) by (intros Hin; apply Hnin; apply list_elem_of_fmap; by exists a).
  split.
  - rewrite H1'. unfold supply. rewrite total_stake_insert, Ha. simpl. lia.
  - simpl in H2'. lia.
  - intros b. rewrite H3'. simpl. destruct (decide (b = a)) as [->|Hne].
    + rewrite lookup_delete_eq, (decide_True (P := a ∈ a :: l)) by by left. by case_decide.
    + rewrite lookup_delete_ne by done. apply decide_ext. set_solver.
  - intros b acct0 sch0 Hb' Hm0 Hs0. destruct (decide (b = a)) as [->|Hne].
    + simplify_eq. exists acct', amount. rewrite H5', lookup_insert_eq by done. done.
    + apply elem_of_cons in Hb' as [?|Hb']; [done|].
      assert (to_stake_key a ≠ to_stake_key b).
      { intros E. apply Hnin. rewrite E. apply list_elem_of_fmap. by exists b. }
      apply (H4' b); [done | by rewrite lookup_insert_ne | simpl; by rewrite lookup_delete_ne].
  - intros k Hk. rewrite fmap_cons, not_elem_of_cons in Hk. destruct Hk as [Hne Hk].
    rewrite H5' by done. by apply lookup_insert_ne.
Qed.

Lemma slash_accounts_spec l self s m :
  last_state self = Some s → app_holds self m → coin_ok (period_bonus (pool_of s)) →
  supply s m ≤ MAX_COIN → NoDup (to_stake_key <$> l) → Forall (to_slash_ok s m) l →
  ∃ self' s' m', slash_accounts self l = Some (Ok self') ∧ last_state self' = Some s'
    ∧ app_holds self' m' ∧ keeps (accounts self) (accounts self')
    ∧ slash_frame self s self' s' ∧ slashed_list l s m s' m'.
Proof.
  revert self s m. induction l as [|a l IH]; intros self s m Hs Hm Hb Hsup Hnd Hl.
  { exists self, s, m. split_and!; try done; [apply keeps_refl | by apply slash_frame_refl|].
    split; [done | done | | set_solver | done]. intros b. by rewrite decide_False by set_solver. }
  rewrite fmap_cons, NoDup_cons in Hnd. destruct Hnd as [Hnin Hnd].
  apply Forall_cons in Hl as [(acct & sch & Ha & Hj & Hsch & Hr) Hl].
  destruct (slash_account_spec self s m a acct sch Hs Hm Ha Hj Hsch Hr Hb Hsup)
    as (r & accs & acct' & amount & E & Hby & _ & Hh & Hk).
  pose proof Hby as (_ & _ & _ & _ & Ht & Hnn & _).
  cbn [slash_accounts]. rewrite E. cbn [run_bind].
  set (self1 := set_accounts _ r accs) in *. set (s1 := slashed_state s a amount) in *.
  set (m1 := <[to_stake_key a := acct']> m) in *.
  assert (Hsup1 : supply s1 m1 = supply s m).
  { unfold supply, s1, m1. rewrite total_stake_insert, Ha. simpl. lia. }
  assert (Hb1 : coin_ok (period_bonus (pool_of s1))).
  { pose proof (total_stake_nonneg m1 (proj2 Hh)). unfold supply in *. unfold s1 in *. simpl in *. ints. }
  destruct (IH self1 s1 m1) as (self' & s' & m' & E' & Hs' & Hm' & Hk' & Hf & Hsl);
    [done | done | done | lia | done | |].
  { rewrite Forall_forall in Hl |- *. intros b Hbl. apply to_slash_ok_step; [|by apply Hl].
    intros E'. apply Hnin. rewrite E'. apply list_elem_of_fmap. by exists b. }
  exists self', s', m'. split_and!; [done | done | done | | |].
  - by eapply keeps_trans.
  - by eapply slash_frame_step.
  - by eapply slashed_list_cons.
Qed.
End supply.

Section proportion.
Context `{Hashes, Secp256k1, BitVecLib, KeyValueDB, ScaleLaws, StarlingLaws, Hex, !EnclaveProxy}.

Definition total_power (self : ChainNodeApp) : Z := sum_by snd (btree_iter (voting_power self)).

Lemma get_total_vote_power_small self :
  0 ≤ total_power self ≤ MAX_COIN_UNITS → get_total_vote_power self = total_power self * 1000.
Proof.
  unfold get_total_vote_power. fold (total_power self). unfold MAX_COIN_UNITS.
  generalize (total_power self). intros t Ht. rewrite as_i64_small, as_u64_small by ints.
  rewrite milli_new_small; rewrite ?Zmod_0_l; ints.
Qed.

(** The share of the total power in thousandths. *)
Definition share (self : ChainNodeApp) (acct : StakedState) : Z :=
  bonded acct / MAX_COIN_DECIMALS * 1000 / total_power self.

(** A root of the share in thousandths, at most one thousandth above. *)
Definition share_root (self : ChainNodeApp) (m : accmap) (a : StakedStateAddress) (r : Z) : Prop :=
  ∃ acct, m !! to_stake_key a = Some acct
    ∧ Z.sqrt (share self acct * 1000) ≤ r ≤ Z.sqrt (share self acct * 1000) + 1.

Definition counted (self : ChainNodeApp) (m : accmap) (a : StakedStateAddress) : Prop :=
  ∃ acct, m !! to_stake_key a = Some acct ∧ bonded acct / MAX_COIN_DECIMALS ≤ total_power self.

Lemma voting_percent_sqrt_spec self s m a :
  holds (accounts self) (account_root (top_level s)) m →
  0 < total_power self ≤ MAX_COIN_UNITS → counted self m a →
  ∃ r, voting_percent_sqrt self s a = Some r ∧ share_root self m a r ∧ 0 ≤ r ≤ 1001.
Proof.
  intros Hm Ht (acct & Ha & Hc). unfold voting_percent_sqrt.
  rewrite (proj2 (get_account_Ok _ _ _ _ _ Hm) Ha). simpl.
  destruct (staked_key_lookup m a acct (proj2 Hm) Ha) as [_ (_ & Hb & _)].
  destruct (vote_power_from_coin_ok _ Hb) as [-> _]. simpl.
  assert (Hp : 0 ≤ bonded acct / MAX_COIN_DECIMALS) by (apply Z.div_pos; ints).
  unfold MAX_COIN_UNITS in Ht. rewrite get_total_vote_power_small by (unfold MAX_COIN_UNITS; lia).
  rewrite milli_new_small; rewrite ?Zmod_0_l, ?Z.add_0_r; try ints. unfold milli_div.
  destruct (Z.eqb_spec (total_power self * 1000) 0); [lia|]. simpl.
  rewrite Z.div_mul_cancel_r by lia. fold (share self acct).
  assert (Hs : 0 ≤ share self acct ≤ 1000).
  { unfold share. split; [apply Z.div_pos; lia|]. apply Z.div_le_upper_bound; lia. }
  rewrite as_u64_small by ints.
  destruct (milli_sqrt_spec (share self acct)) as (r & -> & Hr); [ints|].
  exists r. split; [done|]. split; [by exists acct|].
  pose proof (Z.sqrt_nonneg (share self acct * 1000)).
  assert (Z.sqrt (share self acct * 1000) < 1001) by (apply Z.sqrt_lt_square; lia). lia.
Qed.

Lemma percent_sqrts_spec self s m l :
  holds (accounts self) (account_root (top_level s)) m →
  0 < total_power self ≤ MAX_COIN_UNITS → Forall (counted self m) l →
  ∃ roots, mapM (voting_percent_sqrt self s) l = Some roots ∧ Forall2 (share_root self m) l roots
    ∧ 0 ≤ sum_by Datatypes.id roots ≤ 1001 * Z.of_nat (length l).
Proof.
  intros Hm Ht. induction 1 as [|a l Ha _ IH]; [by exists []; split_and!|].
  destruct (voting_percent_sqrt_spec self s m a Hm Ht Ha) as (r & Er & Hr & Hb).
  destruct IH as (roots & El & Hl & Hsum). exists (r :: roots).
  cbn [mapM]. rewrite Er. simpl. rewrite El. simpl. split; [done|]. split; [by constructor|].
  change (0 ≤ r + sum_by Datatypes.id roots ≤ 1001 * Z.of_nat (S (length l))). lia.
Qed.

Lemma slashing_proportion_ok self s m l :
  last_state self = Some s → holds (accounts self) (account_root (top_level s)) m →
  0 < total_power self ≤ MAX_COIN_UNITS → Forall (counted self m) l →
  Z.of_nat (length l) ≤ U16_MAX →
  ∃ roots, Forall2 (share_root self m) l roots
    ∧ get_slashing_proportion self l
      = Some (Z.min 1000 (sum_by Datatypes.id roots * sum_by Datatypes.id roots / 1000))
    ∧ is_slash_ratio (Z.min 1000 (sum_by Datatypes.id roots * sum_by Datatypes.id roots / 1000)).
Proof.
  intros Hs Hm Ht Hl Hlen. unfold get_slashing_proportion. rewrite Hs. simpl.
  destruct (percent_sqrts_spec self s m l Hm Ht Hl) as (roots & -> & Hr & Hsum). simpl.
  exists roots. split; [done|]. unfold milli_from_millis, milli_mul.
  set (t := sum_by Datatypes.id roots) in *.
  assert (Hts : 0 ≤ t ≤ 65600535) by ints.
  assert (Ht2 : 0 ≤ t * t / 1000 ≤ U64_MAX).
  { split; [apply Z.div_pos; nia|]. apply Z.div_le_upper_bound; [lia|].
    pose proof (Z.mul_le_mono_nonneg t 65600535 t 65600535). ints. }
  rewrite (as_u64_small t), as_u64_small by ints. change (milli_new 1 0) with 1000.
  unfold slash_ratio_try_from, is_slash_ratio. change MAX_SLASH_RATIO with 1000.
  destruct (Z.ltb_spec 1000 (Z.min 1000 (t * t / 1000))); [lia|].
  split; [done | lia].
Qed.
End proportion.

(** ** Properties *)

(** The slashing proportion of a set of validators is the square of the sum of
    the square roots of their shares of the voting power, at most one: the code
    neither panics nor wraps while the validators' power counts in the total, and
    the roots are exact up to a thousandth. *)
Theorem slashing_proportion_spec
    `{Hashes, Secp256k1, BitVecLib, KeyValueDB, ScaleLaws, StarlingLaws, Hex, !EnclaveProxy}
    self s m l :
  last_state self = Some s → holds (accounts self) (account_root (top_level s)) m →
  0 < total_power self ≤ MAX_COIN_UNITS → Forall (counted self m) l →
  Z.of_nat (length l) ≤ U16_MAX →
  ∃ roots, Forall2 (share_root self m) l roots
    ∧ get_slashing_proportion self l
      = Some (Z.min 1000 (sum_by Datatypes.id roots * sum_by Datatypes.id roots / 1000))
    ∧ is_slash_ratio (Z.min 1000 (sum_by Datatypes.id roots * sum_by Datatypes.id roots / 1000)).
Proof. apply slashing_proportion_ok. Qed.

Section witnesses.
Import AppExample.

Definition two_validators : list StakedState :=
  [validator Byte.x01 1000000000; validator Byte.x02 3000000000].

Lemma two_validators_ok : Forall staked_state_ok two_validators.
Proof.
  repeat constructor; simpl; try ints; try done.
Qed.

Lemma slashing_proportion_spec_witness :
  get_slashing_proportion (app two_validators) [addr Byte.x01] = Some 250
  ∧ ∃ roots, Forall2 (share_root (app two_validators) (accmap_of two_validators)) [addr Byte.x01] roots.
Proof.
  split; [vm_compute; reflexivity|].
  destruct (slashing_proportion_spec (app two_validators) (state two_validators)
    (accmap_of two_validators) [addr Byte.x01]) as (roots & Hr & _).
  - reflexivity.
  - apply app_holds_example, two_validators_ok.
  - vm_compute. split; [reflexivity | discriminate].
  - repeat constructor. exists (validator Byte.x01 1000000000).
    split; [vm_compute; reflexivity | vm_compute; discriminate].
  - vm_compute. discriminate.
  - exists roots. exact Hr.
Defined.
End witnesses.

Section eligible.
Context `{Hashes, Secp256k1, BitVecLib, KeyValueDB, ScaleLaws, StarlingLaws, Hex, !EnclaveProxy}.

Lemma elem_of_accounts_to_slash s a :
  a ∈ accounts_to_slash s ↔
  ∃ sch, slashing_schedule (punishment_of s) !! a = Some sch ∧ can_slash sch (block_time s) = true.
Proof.
  unfold accounts_to_slash. rewrite list_elem_of_fmap. split.
  - intros ((a' & sch) & -> & [Hc Hin]%list_elem_of_filter). apply elem_of_btree_iter in Hin. eauto.
  - intros (sch & Hs & Hc). exists (a, sch). split; [done|]. apply list_elem_of_filter.
    by rewrite elem_of_btree_iter.
Qed.

(** The accounts scheduled for slashing are jailed and their ratio is at most one. *)
Definition schedule_ok (s : ChainNodeState) (m : accmap) : Prop :=
  ∀ a sch, slashing_schedule (punishment_of s) !! a = Some sch →
    is_slash_ratio (slash_ratio sch)
    ∧ ∃ acct, m !! to_stake_key a = Some acct ∧ is_jailed acct = true.

Lemma slash_eligible_spec self s m :
  last_state self = Some s → app_holds self m → coin_ok (period_bonus (pool_of s)) →
  supply s m ≤ MAX_COIN → schedule_ok s m → NoDup (to_stake_key <$> accounts_to_slash s) →
  ∃ self' s' m' ev, slash_eligible_accounts self = Some (Ok (self', ev))
    ∧ last_state self' = Some s' ∧ app_holds self' m' ∧ keeps (accounts self) (accounts self')
    ∧ slash_frame self s self' s' ∧ slashed_list (accounts_to_slash s) s m s' m'
    ∧ event_attributes ev = account_kvpair <$> accounts_to_slash s.
Proof.
  intros Hs Hm Hb Hsup Hok Hnd. unfold slash_eligible_accounts. rewrite Hs. simpl.
  destruct (slash_accounts_spec (accounts_to_slash s) self s m Hs Hm Hb Hsup Hnd)
    as (self' & s' & m' & -> & Hs' & Hm' & Hk & Hf & Hl).
  { apply Forall_forall. intros a (sch & Ha & _)%elem_of_accounts_to_slash.
    destruct (Hok a sch Ha) as (Hr & acct & ? & ?). by exists acct, sch. }
  by exists self', s', m', {| field_type := event_type_to_string SlashValidators;
    event_attributes := account_kvpair <$> accounts_to_slash s |}.
Qed.
End eligible.

(** C12. Slashing conserves coins.  When the scheduled accounts are jailed and the
    accounts and the pool hold at most the maximum supply, slashing the queue
    neither panics nor fails: every account whose time has come loses the scheduled
    ratio of both its balances, rounded down, and leaves the queue, the rewards pool
    gains exactly what they lose, and every other account and queue entry is kept. *)
Theorem slash_eligible_sound
    `{Hashes, Secp256k1, BitVecLib, KeyValueDB, ScaleLaws, StarlingLaws, Hex, !EnclaveProxy}
    self s m :
  last_state self = Some s → app_holds self m → coin_ok (period_bonus (pool_of s)) →
  supply s m ≤ MAX_COIN → schedule_ok s m → NoDup (to_stake_key <$> accounts_to_slash s) →
  ∃ self' s' m' ev, slash_eligible_accounts self = Some (Ok (self', ev))
    ∧ last_state self' = Some s' ∧ app_holds self' m'
    ∧ slashed_list (accounts_to_slash s) s m s' m'
    ∧ (∀ a sch, slashing_schedule (punishment_of s') !! a = Some sch →
         can_slash sch (block_time s) = false)
    ∧ voting_power self' = voting_power self
    ∧ power_changed_in_block self' = power_changed_in_block self
    ∧ event_attributes ev = account_kvpair <$> accounts_to_slash s.
Proof.
  intros Hs Hm Hb Hsup Hok Hnd.
  destruct (slash_eligible_spec self s m Hs Hm Hb Hsup Hok Hnd)
    as (self' & s' & m' & ev & E & Hs' & Hm' & _ & (b & r & accs & sched & bonus & -> & _) & Hl & Hev).
  do 4 eexists. split_and!; [done | done | done | done | | done | done | done].
  intros a sch. rewrite (slashed_sched _ _ _ _ _ Hl a). case_decide as Ha; [done|].
  intros Hsch. destruct (can_slash sch (block_time s)) eqn:Ec; [|done].
  destruct Ha. apply elem_of_accounts_to_slash. eauto.
Qed.

(** Jailing a validator that is not jailed takes it out until the block time
    plus the jail duration, marks its voting power as zero for the end of the block,
    and moves no coins; jailing it again changes nothing. *)
Theorem jail_account_sound
    `{Hashes, Secp256k1, BitVecLib, KeyValueDB, ScaleLaws, StarlingLaws, Hex, !EnclaveProxy}
    self s m a k k' acct :
  last_state self = Some s → app_holds self m → m !! to_stake_key a = Some acct →
  is_jailed acct = false →
  ∃ self' m', jail_account self a k = Some (Ok self') ∧ app_holds self' m'
    ∧ m' = <[to_stake_key a := jailed_as s acct k]> m ∧ total_stake m' = total_stake m
    ∧ last_state self' = last_state self
    ∧ jailed_until (jailed_as s acct k) = Some (as_u64 (block_time s + get_jail_duration (params_of s)))
    ∧ power_changed_in_block self' !! a = Some vote_power_zero
    ∧ jail_account self' a k' = Some (Ok self').
Proof.
  intros Hs Hm Ha Hj. destruct (jail_account_spec self s m a k acct Hs Hm Ha Hj)
    as (r & accs & E & Hh & _).
  do 2 eexists. split; [exact E|]. split; [exact Hh|].
  split_and!; [done | by apply jail_keeps_total | done | done | by apply lookup_insert_eq |].
  eapply jail_account_twice; [exact Hh | by apply lookup_insert_eq | done].
Qed.

Section jail_witnesses.
Import AppExample.

(** The first of two validators is jailed and its slash is due. *)
Definition jailed_validators : list StakedState :=
  [jail_until (validator Byte.x01 1000000000) 500 ByzantineFault; validator Byte.x02 3000000000].
Definition due_state : ChainNodeState :=
  set_vpunishment (state jailed_validators) (with_schedule (punishment_of (state jailed_validators))
    {[ addr Byte.x01 := {| slash_ratio := 200; slashing_time := 5; punishment_kind := ByzantineFault |} ]}).

Lemma jailed_validators_ok : Forall staked_state_ok jailed_validators.
Proof. repeat constructor; simpl; try ints; try done. Qed.

Lemma slash_eligible_sound_witness :
  ∃ self' s' m' ev,
    slash_eligible_accounts (set_last_state (app jailed_validators) due_state) = Some (Ok (self', ev))
    ∧ last_state self' = Some s' ∧ supply s' m' = 4000000000 ∧ period_bonus (pool_of s') = 200000000.
Proof.
  destruct (slash_eligible_sound (set_last_state (app jailed_validators) due_state) due_state
    (accmap_of jailed_validators)) as (self' & s' & m' & ev & E & Hs & _ & Hl & _).
  - reflexivity.
  - apply app_holds_example, jailed_validators_ok.
  - vm_compute. split; discriminate.
  - vm_compute. discriminate.
  - intros a sch Ha. simpl in Ha. apply lookup_singleton_Some in Ha as [<- <-].
    split; [vm_compute; split; discriminate|].
    exists (jail_until (validator Byte.x01 1000000000) 500 ByzantineFault).
    split; vm_compute; reflexivity.
  - vm_compute. apply NoDup_singleton.
  - exists self', s', m', ev. split; [exact E|]. split; [exact Hs|]. split.
    + rewrite (slashed_supply _ _ _ _ _ Hl). vm_compute. reflexivity.
    + assert (E' : (p ← slash_eligible_accounts (set_last_state (app jailed_validators) due_state);
                    match p with Ok (x, _) => (λ s, period_bonus (pool_of s)) <$> last_state x | Err _ => None end)
                   = Some 200000000) by (vm_compute; reflexivity).
      rewrite E in E'. simpl in E'. rewrite Hs in E'. by injection E'.
Defined.

Lemma jail_account_sound_witness :
  ∃ self', jail_account (app two_validators) (addr Byte.x02) NonLive = Some (Ok self')
    ∧ power_changed_in_block self' !! addr Byte.x02 = Some 0.
Proof.
  destruct (jail_account_sound (app two_validators) (state two_validators)
    (accmap_of two_validators) (addr Byte.x02) NonLive NonLive (validator Byte.x02 3000000000))
    as (self' & m' & E & _ & _ & _ & _ & _ & Hp & _).
  - reflexivity.
  - apply app_holds_example, two_validators_ok.
  - vm_compute. reflexivity.
  - reflexivity.
  - exists self'. split; [exact E | exact Hp].
Defined.
End jail_witnesses.
