(* ===== verification/Rewards.v ===== *)
(** * Rewards: monetary expansion and the distribution of the rewards pool

    Models [src/chain-abci/src/app/rewards.rs] and the exponential of
    [src/chain-core/src/common/fixed.rs].  The fixed-point numbers of the [fixed]
    crate are an interface; [fixed_ref] is a concrete one. *)

From stdpp Require Import base tactics option list gmap strings.
From Stdlib Require Import ZArith Lia.
From S2P Require Import Prelude Text Codec Milli Coin Crypto Merkle Params Account TxTypes.
From S2P Require Import Validation BitVec Events Punishment Genesis Storage EnclaveProtocol.
From S2P Require Import AppState Slashing.

(** ** Fixed-point numbers *)

(** [I65F63] and its operations; division by zero panics. *)
Class FixedLib := {
  FixedNumber : Type;
  fx_from_num : Z → FixedNumber;
  fx_to_u64 : FixedNumber → Z;
  fx_add : FixedNumber → FixedNumber → FixedNumber;
  fx_mul : FixedNumber → FixedNumber → FixedNumber;
  fx_neg : FixedNumber → FixedNumber;
  fx_div : FixedNumber → FixedNumber → option FixedNumber;
  fx_mul_int : FixedNumber → Z → FixedNumber;
  fx_div_int : FixedNumber → Z → option FixedNumber;
  fx_leb : FixedNumber → FixedNumber → bool;
  fx_to_u64_range x : is_u64 (fx_to_u64 x);
}.

(** Integers scaled by [2 ^ 63]; products round down, quotients towards zero. *)
Definition fixed_ref : FixedLib.
Proof.
  refine {| FixedNumber := Z; fx_from_num z := z * 2 ^ 63; fx_to_u64 x := as_u64 (x / 2 ^ 63);
    fx_add := Z.add; fx_mul a b := a * b / 2 ^ 63; fx_neg := Z.opp;
    fx_div a b := if b =? 0 then None else Some (Z.quot (a * 2 ^ 63) b);
    fx_mul_int := Z.mul; fx_div_int a n := if n =? 0 then None else Some (Z.quot a n);
    fx_leb := Z.leb |}.
  intros x. apply as_u64_range.
Defined.

Definition EXP_LOWER_BOUND : Z := -20.

(** ** The expansion *)

Section expansion.
Context `{FixedLib}.

(** The fold of [continued_fraction] from the last pair of the series. *)
Fixpoint continued_fraction_fold (l : list (FixedNumber * FixedNumber)) (acc : FixedNumber) :
  option FixedNumber :=
  match l with
  | [] => Some acc
  | (x, y) :: l => acc ← fx_div y (fx_add x acc); continued_fraction_fold l acc
  end.

Definition continued_fraction (a b : nat → FixedNumber) (count : nat) : option FixedNumber :=
  let init_a := a O in
  tail ← continued_fraction_fold (rev ((λ k, (a (S k), b k)) <$> seq 0 count)) (fx_from_num 0);
  Some (fx_add init_a tail).

(** The two series of [exp_series] by position: 1, 1, x + 2, x + 3, ... and
    x, -x, -2x, ... *)
Definition exp_series_a (x : FixedNumber) (k : nat) : FixedNumber :=
  match k with
  | O | S O => fx_from_num 1
  | S (S n) => fx_add x (fx_from_num (Z.of_nat n + 2))
  end.
Definition exp_series_b (x : FixedNumber) (k : nat) : FixedNumber :=
  match k with
  | O => fx_mul_int x 1
  | S n => fx_mul_int x (- (Z.of_nat n + 1))
  end.

Definition exp (x : FixedNumber) : option FixedNumber :=
  continued_fraction (exp_series_a x) (exp_series_b x) 100.

Definition fx_max (a b : FixedNumber) : FixedNumber := if fx_leb a b then b else a.

Definition monetary_expansion (tau : Z) (total_staking minted : Coin) (params : NetworkParameters) :
  option Coin :=
  let cap := get_rewards_monetary_expansion_cap params in
  r0 ← fx_div_int (fx_from_num (milli_as_millis (get_rewards_monetary_expansion_r0 params))) 1000;
  let tau := fx_from_num tau in
  let total_staking := fx_from_num total_staking in
  q ← fx_div (fx_neg total_staking) tau;
  e ← exp (fx_max (fx_from_num EXP_LOWER_BOUND) q);
  let amount := fx_mul (fx_mul total_staking r0) e in
  c ← unwrap (coin_new (fx_to_u64 amount));
  Some (Z.min (default coin_zero (ok (coin_sub cap minted))) c).
End expansion.

(** The assertion on the rate panics. *)
Definition mul_micro (n rate : Z) : option Z :=
  if rate <=? 1000000 then
    let div := n / 1000000 in
    let rem := n mod 1000000 in
    Some (as_u64 (as_u64 (div * rate) + as_u64 (rem * rate) / 1000000))
  else None.

(** ** Distribution *)

Section rewards.
Context `{Hashes, Secp256k1, Scale, BitVecLib, KeyValueDB, StarlingTree, FixedLib, !EnclaveProxy}.

(** The bonded coins of the validators in the committed accounts. *)
Fixpoint sum_staking (accs : AccountStorage) (root : H256) (l : list StakedStateAddress)
    (total_staking : Coin) : option Coin :=
  match l with
  | [] => Some total_staking
  | a :: l =>
      account ← unwrap (get_account a root accs);
      t ← unwrap (coin_add total_staking (bonded account));
      sum_staking accs root l t
  end.

(** The loop over the proposers: the root, the trie, the changed powers and what
    was distributed. *)
Fixpoint distribute (share : Coin) (l : list (StakedStateAddress * Z)) (root : H256)
    (accs : AccountStorage) (powers : gmap StakedStateAddress TendermintVotePower)
    (distributed : list (StakedStateAddress * Coin)) :
  option (H256 * AccountStorage * gmap StakedStateAddress TendermintVotePower
          * list (StakedStateAddress * Coin)) :=
  match l with
  | [] => Some (root, accs, powers, distributed)
  | (a, count) :: l =>
      state ← unwrap (get_account a root accs);
      amount ← unwrap (coin_mul share count);
      '(state, balance) ← unwrap (add_reward state amount);
      '(root, _, accs) ← update_account state root accs;
      power ← vote_power_from_coin balance;
      distribute share l root accs (<[a := power]> powers) (distributed ++ [(a, amount)])
  end.

Definition rewards_try_distribute (self : ChainNodeApp) :
  option (ChainNodeApp * option (list (StakedStateAddress * Coin) * Coin)) :=
  state ← last_state self;
  let pool := pool_of state in
  if (block_time state <? genesis_time state) || (block_time state <? last_distribution_time pool)
  then None
  else if block_time state - last_distribution_time pool
          <? get_rewards_distribution_period (params_of state)
  then Some (self, None)
  else
    let self := set_pool_updated self true in
    total_staking ← sum_staking (accounts self) (account_root (top_level state))
                      (fst <$> btree_iter (voting_power self)) coin_zero;
    newly_minted ← monetary_expansion (tau pool) total_staking (minted pool) (params_of state);
    t ← mul_micro (tau pool) (get_rewards_monetary_expansion_decay (params_of state));
    let pool := with_tau pool t in
    total_rewards ← unwrap (coin_add (period_bonus pool) newly_minted);
    m ← unwrap (coin_add (minted pool) newly_minted);
    let pool := with_minted pool m in
    let total_blocks := as_u64 (sum_by snd (btree_iter (proposer_stats state))) in
    share ← unwrap (coin_div total_rewards total_blocks);
    bonus ← unwrap (coin_rem total_rewards total_blocks);
    let pool := with_bonus pool bonus in
    '(root, accs, powers, distributed) ←
      (if coin_zero <? share
       then distribute share (btree_iter (proposer_stats state)) (uncommitted_account_root_hash self)
              (accounts self) (power_changed_in_block self) []
       else Some (uncommitted_account_root_hash self, accounts self, power_changed_in_block self, []));
    let state := with_stats (set_pool state pool) ∅ in
    Some (set_last_state (set_power_changed (set_accounts self root accs) powers) state,
          Some (distributed, newly_minted)).

Definition rewards_record_proposer (self : ChainNodeApp) (a : list byte) : option ChainNodeApp :=
  state ← last_state self;
  staking_address ← staking_addresses (validators state) !! a;
  let count := match proposer_stats state !! staking_address with
               | Some count => as_u64 (count + 1)
               | None => 1
               end in
  Some (set_last_state self (with_stats state (<[staking_address := count]> (proposer_stats state)))).
End rewards.

(** ** Exactness of the decay and bounds of the expansion *)

Lemma mul_micro_spec n rate :
  is_u64 n → 0 ≤ rate ≤ 1000000 → mul_micro n rate = Some (n * rate / 1000000).
Proof.
  intros Hn Hr. unfold mul_micro. destruct (Z.leb_spec rate 1000000); [|lia].
  pose proof (Z.div_mod n 1000000 ltac:(lia)) as E.
  pose proof (Z.mod_pos_bound n 1000000 ltac:(lia)).
  set (q := n / 1000000) in *. set (r := n mod 1000000) in *.
  assert (0 ≤ q) by (apply Z.div_pos; ints).
  assert (Hq : 0 ≤ q * rate ≤ q * 1000000) by nia.
  assert (Hrr : 0 ≤ r * rate ≤ r * 1000000) by nia.
  assert (0 ≤ r * rate / 1000000 ≤ r).
  { split; [apply Z.div_pos; lia | apply Z.div_le_upper_bound; lia]. }
  rewrite (as_u64_small (q * rate)), (as_u64_small (r * rate)) by ints.
  rewrite as_u64_small by ints. f_equal.
  replace (n * rate) with (r * rate + q * rate * 1000000) by nia.
  rewrite Z.div_add by lia. lia.
Qed.

Lemma monetary_expansion_bound `{FixedLib} tau total minted params c :
  coin_ok (get_rewards_monetary_expansion_cap params) → 0 ≤ minted →
  monetary_expansion tau total minted params = Some c →
  0 ≤ c ∧ c ≤ Z.max 0 (get_rewards_monetary_expansion_cap params - minted).
Proof.
  intros Hcap Hm He. unfold monetary_expansion in He.
  set (cap := get_rewards_monetary_expansion_cap params) in *.
  assert (Hroom : default coin_zero (ok (coin_sub cap minted)) = Z.max 0 (cap - minted)).
  { unfold coin_sub, checked_sub. destruct (Z.leb_spec minted cap); simpl; [|unfold coin_zero; lia].
    unfold coin_new. destruct (Z.leb_spec (cap - minted) MAX_COIN); simpl; ints. }
  rewrite Hroom in He.
  destruct (fx_div_int _ _) as [r0|]; simpl in He; [|done].
  destruct (fx_div _ _) as [q|]; simpl in He; [|done].
  destruct (exp _) as [e|]; simpl in He; [|done].
  match type of He with context [fx_to_u64 ?x] => pose proof (fx_to_u64_range x) as Hu; set (u := fx_to_u64 x) in * end.
  unfold coin_new in He. destruct (u <=? MAX_COIN); simpl in He; [|done]. injection He as <-. ints.
Qed.

Section conserve.
Context `{Hashes, Secp256k1, BitVecLib, KeyValueDB, ScaleLaws, StarlingLaws, FixedLib, Hex,
  !EnclaveProxy}.

Lemma add_reward_spec acct amount :
  staked_state_ok acct → 0 ≤ amount → bonded acct + amount ≤ MAX_COIN →
  add_reward acct amount = Ok (with_bonded acct (bonded acct + amount), bonded acct + amount)
  ∧ staked_state_ok (with_bonded acct (bonded acct + amount)).
Proof.
  intros (?&?&?&?&?&?&?) Ha Hle. unfold add_reward.
  rewrite (proj2 (coin_add_ok _ _ (bonded acct + amount))) by done. split; [done|]. staked_ok.
Qed.

(** The outcome of a distribution on the accounts and the powers. *)
Record rewarded (share : Coin) (l : list (StakedStateAddress * Z)) (m m' : accmap)
    (powers powers' : gmap StakedStateAddress TendermintVotePower) : Prop := {
  rewarded_total : total_stake m' = total_stake m + share * sum_by snd l;
  rewarded_accounts a n acct :
    (a, n) ∈ l → m !! to_stake_key a = Some acct →
    m' !! to_stake_key a = Some (with_bonded acct (bonded acct + share * n))
    ∧ powers' !! a = Some ((bonded acct + share * n) / MAX_COIN_DECIMALS);
  rewarded_others k : k ∉ to_stake_key <$> l.*1 → m' !! k = m !! k;
  rewarded_powers a : a ∉ l.*1 → powers' !! a = powers !! a;
}.

Lemma rewarded_cons share a n l m m' powers powers' acct :
  to_stake_key a ∉ to_stake_key <$> l.*1 → m !! to_stake_key a = Some acct →
  rewarded share l (<[to_stake_key a := with_bonded acct (bonded acct + share * n)]> m) m'
    (<[a := (bonded acct + share * n) / MAX_COIN_DECIMALS]> powers) powers' →
  rewarded share ((a, n) :: l) m m' powers powers'.
Proof.
  intros Hnin Ha [H1' H2' H3' H4'].
  assert (Hal : a ∉ l.*1) by (intros Hin; apply Hnin, list_elem_of_fmap; by exists a).
  split.
  - rewrite H1', total_stake_insert, Ha, sum_by_cons. unfold stake_total. simpl. lia.
  - intros b k acct0 Hb Hm. apply elem_of_cons in Hb as [[= -> ->]|Hb].
    + simplify_eq. rewrite H3', lookup_insert_eq, H4', lookup_insert_eq by done. done.
    + apply (H2' b k); [done|]. rewrite lookup_insert_ne; [done|]. intros E. apply Hnin.
      rewrite E. apply list_elem_of_fmap. exists b. split; [done|]. apply list_elem_of_fmap. by exists (b, k).
  - intros k Hk. rewrite !fmap_cons, not_elem_of_cons in Hk. destruct Hk as [Hne Hk].
    rewrite H3' by done. by apply lookup_insert_ne.
  - intros b Hb. rewrite fmap_cons, not_elem_of_cons in Hb. destruct Hb as [Hne Hb].
    rewrite H4' by done. by apply lookup_insert_ne.
Qed.

Definition proposer_ok (m : accmap) (e : StakedStateAddress * Z) : Prop :=
  0 ≤ e.2 ∧ is_Some (m !! to_stake_key e.1).

Lemma distribute_spec share l root accs powers dist m :
  holds accs root m → 0 ≤ share → NoDup (to_stake_key <$> l.*1) → Forall (proposer_ok m) l →
  total_stake m + share * sum_by snd l ≤ MAX_COIN →
  ∃ root' accs' powers' m', distribute share l root accs powers dist
      = Some (root', accs', powers', dist ++ ((λ e, (e.1, share * e.2)) <$> l))
    ∧ holds accs' root' m' ∧ keeps accs accs' ∧ rewarded share l m m' powers powers'.
Proof.
  intros Hm Hsh. revert root accs powers dist m Hm.
  induction l as [|[a n] l IH]; intros root accs powers dist m Hm Hnd Hl Hsup.
  { exists root, accs, powers, m. rewrite app_nil_r. split_and!; [done | done | apply keeps_refl |].
    split; [rewrite sum_by_nil; lia | set_solver | done | done]. }
  rewrite !fmap_cons, NoDup_cons in Hnd. destruct Hnd as [Hnin Hnd]. simpl in Hnin.
  apply Forall_cons in Hl as [[Hn [acct Ha]] Hl]. simpl in Hn, Ha.
  rewrite sum_by_cons in Hsup. simpl in Hsup.
  assert (Hsum : 0 ≤ sum_by snd l).
  { apply sum_by_nonneg. eapply Forall_impl; [exact Hl|]. by intros [? ?] [? _]. }
  destruct (staked_key_lookup m a acct (proj2 Hm) Ha) as [Hk Hok].
  pose proof (total_stake_ge m _ acct (proj2 Hm) Ha) as Hge.
  assert (Hamt : 0 ≤ share * n ∧ bonded acct + share * n ≤ MAX_COIN ∧ share * n ≤ MAX_COIN).
  { pose proof (total_stake_nonneg m (proj2 Hm)).
    destruct Hok as (_ & Hb & Hu & _). unfold stake_total in Hge. rewrite Z.mul_add_distr_l in Hsup.
    pose proof (Z.mul_nonneg_nonneg _ _ Hsh Hn). pose proof (Z.mul_nonneg_nonneg _ _ Hsh Hsum). ints. }
  destruct Hamt as (Hamt & Hbd & Hle).
  cbn [distribute]. rewrite (proj2 (get_account_Ok _ _ _ _ _ Hm) Ha). simpl.
  rewrite (proj2 (coin_mul_ok share n (share * n))) by done. simpl.
  destruct (add_reward_spec acct (share * n) Hok Hamt Hbd) as [-> Hok']. simpl.
  destruct (update_account_holds accs root m _ Hm Hok') as (r1 & a1 & -> & Hm1 & Hk1). simpl.
  destruct (vote_power_from_coin_ok (bonded acct + share * n)) as [-> _].
  { destruct Hok as (_ & Hb & _). ints. }
  simpl.
  change (staked_key (with_bonded acct (bonded acct + share * n))) with (staked_key acct) in Hm1.
  rewrite Hk in Hm1.
  destruct (IH r1 a1 (<[a := (bonded acct + share * n) / MAX_COIN_DECIMALS]> powers)
              (dist ++ [(a, share * n)]) _ Hm1 Hnd)
    as (r' & a' & p' & m' & -> & Hm' & Hk' & Hr).
  - eapply Forall_impl; [exact Hl|]. intros [b k] [? Hs]. split; [done|]. simpl in *.
    by apply lookup_insert_is_Some'; right.
  - rewrite total_stake_insert, Ha. unfold stake_total. simpl. lia.
  - exists r', a', p', m'. rewrite <- app_assoc. split; [done|]. split; [done|].
    split; [by eapply keeps_trans | by eapply rewarded_cons].
Qed.
(** The bonded coins of a list of addresses. *)
Definition bonded_at (m : accmap) (a : StakedStateAddress) : Z :=
  default 0 (bonded <$> m !! to_stake_key a).

Lemma sum_staking_spec accs root m l t :
  holds accs root m → Forall (λ a, is_Some (m !! to_stake_key a)) l → 0 ≤ t →
  t + sum_by (bonded_at m) l ≤ MAX_COIN →
  sum_staking accs root l t = Some (t + sum_by (bonded_at m) l).
Proof.
  intros Hm Hl. revert t. induction Hl as [|a l [acct Ha] Hl IH]; intros t Ht Hle.
  { simpl. f_equal. lia. }
  rewrite sum_by_cons in *. cbn [sum_staking]. rewrite (proj2 (get_account_Ok _ _ _ _ _ Hm) Ha). simpl.
  assert (Eb : bonded_at m a = bonded acct) by (unfold bonded_at; by rewrite Ha).
  rewrite Eb in *. destruct (staked_key_lookup m a acct (proj2 Hm) Ha) as [_ (_ & Hb & _)].
  assert (0 ≤ sum_by (bonded_at m) l).
  { apply sum_by_nonneg. eapply Forall_impl; [exact Hl|]. intros b [acct' Hb']. unfold bonded_at.
    rewrite Hb'. simpl. destruct (staked_key_lookup m b acct' (proj2 Hm) Hb') as [_ (_ & ? & _)]. ints. }
  rewrite (proj2 (coin_add_ok _ _ (t + bonded acct))) by (split; [done | lia]). simpl.
  rewrite IH; [|ints|lia]. f_equal. lia.
Qed.

Lemma cap_ok params : params_ok params → coin_ok (get_rewards_monetary_expansion_cap params).
Proof. intros (_ & _ & _ & _ & _ & (? & _) & _). done. Qed.

(** The distribution is due. *)
Definition due (s : ChainNodeState) : Prop :=
  genesis_time s ≤ block_time s
  ∧ get_rewards_distribution_period (params_of s) ≤ block_time s - last_distribution_time (pool_of s)
  ∧ last_distribution_time (pool_of s) ≤ block_time s.

(** The proposers have accounts, their blocks fit the counter, and there are some. *)
Definition stats_ok (s : ChainNodeState) (m : accmap) : Prop :=
  let l := btree_iter (proposer_stats s) in
  Forall (proposer_ok m) l ∧ NoDup (to_stake_key <$> l.*1) ∧ 0 < sum_by snd l ≤ U64_MAX.

(** The pool after a distribution of [c] new coins. *)
Definition pool_after (s : ChainNodeState) (c : Coin) : RewardsPoolState :=
  let pool := pool_of s in
  let blocks := sum_by snd (btree_iter (proposer_stats s)) in
  {| period_bonus := (period_bonus pool + c) mod blocks;
     last_block_height := last_block_height pool;
     last_distribution_time := last_distribution_time pool;
     minted := minted pool + c;
     tau := tau pool * get_rewards_monetary_expansion_decay (params_of s) / 1000000 |}.

(** The reward of one block. *)
Definition block_reward (s : ChainNodeState) (c : Coin) : Coin :=
  (period_bonus (pool_of s) + c) / sum_by snd (btree_iter (proposer_stats s)).

Lemma rewards_try_distribute_spec self s m m0 c :
  last_state self = Some s → app_holds self m →
  holds (accounts self) (account_root (top_level s)) m0 →
  due s → stats_ok s m → rewards_pool_ok (pool_of s) → params_ok (params_of s) →
  get_rewards_monetary_expansion_decay (params_of s) ≤ 1000000 →
  Forall (λ a, is_Some (m0 !! to_stake_key a)) (btree_iter (voting_power self)).*1 →
  sum_by (bonded_at m0) (btree_iter (voting_power self)).*1 ≤ MAX_COIN →
  monetary_expansion (tau (pool_of s)) (sum_by (bonded_at m0) (btree_iter (voting_power self)).*1)
    (minted (pool_of s)) (params_of s) = Some c →
  supply s m + c ≤ MAX_COIN → minted (pool_of s) + c ≤ MAX_COIN →
  ∃ root accs powers m',
    rewards_try_distribute self
      = Some (set_last_state (set_power_changed (set_accounts (set_pool_updated self true) root accs) powers)
                (with_stats (set_pool s (pool_after s c)) ∅),
              Some (if 0 <? block_reward s c
                    then (λ e, (e.1, block_reward s c * e.2)) <$> btree_iter (proposer_stats s)
                    else [], c))
    ∧ holds accs root m' ∧ keeps (accounts self) accs
    ∧ (if 0 <? block_reward s c
       then rewarded (block_reward s c) (btree_iter (proposer_stats s)) m m'
              (power_changed_in_block self) powers
       else m' = m ∧ powers = power_changed_in_block self).
Proof.
  intros Hs Hm Hm0 (Hg & Hd & Hlast) (Hprop & Hnd & Hblk) Hpool Hpar Hdec Hval Hst He Hsup Hmint.
  assert (Hdec0 : 0 ≤ get_rewards_monetary_expansion_decay (params_of s))
    by (destruct Hpar as (_ & _ & _ & _ & _ & (_ & _ & _ & _ & ?) & _);
        unfold get_rewards_monetary_expansion_decay; ints).
  pose proof Hpool as (Hbon & _ & _ & Hmin & Htau).
  destruct (monetary_expansion_bound _ _ _ _ _ (cap_ok _ Hpar) (proj1 Hmin) He) as [Hc0 _].
  pose proof (total_stake_nonneg m (proj2 Hm)) as Hts. unfold supply in Hsup.
  set (pool := pool_of s) in *. set (blocks := sum_by snd (btree_iter (proposer_stats s))) in *.
  set (total := period_bonus pool + c).
  assert (Hdiv : total = blocks * (total / blocks) + total mod blocks) by (apply Z.div_mod; lia).
  pose proof (Z.mod_pos_bound total blocks ltac:(lia)).
  assert (0 ≤ total / blocks) by (apply Z.div_pos; ints).
  unfold rewards_try_distribute. rewrite Hs. cbn [mbind option_bind]. fold pool.
  destruct (Z.ltb_spec (block_time s) (genesis_time s)); [lia|].
  destruct (Z.ltb_spec (block_time s) (last_distribution_time pool)); [lia|].
  destruct (Z.ltb_spec (block_time s - last_distribution_time pool)
              (get_rewards_distribution_period (params_of s))); [lia|]. cbn [orb].
  change (voting_power (set_pool_updated self true)) with (voting_power self).
  change (accounts (set_pool_updated self true)) with (accounts self).
  rewrite (sum_staking_spec _ _ m0 _ coin_zero Hm0 Hval ltac:(done)) by done.
  cbn [mbind option_bind]. rewrite Z.add_0_l, He. cbn [mbind option_bind].
  rewrite mul_micro_spec by (done || lia). cbn [mbind option_bind].
  change (period_bonus (with_tau pool ?t)) with (period_bonus pool).
  change (minted (with_tau pool ?t)) with (minted pool).
  rewrite (proj2 (coin_add_ok (period_bonus pool) c total)) by (unfold total; lia).
  cbn [ok mbind option_bind]. rewrite (proj2 (coin_add_ok (minted pool) c (minted pool + c))) by done.
  cbn [ok mbind option_bind]. fold blocks. rewrite (as_u64_small blocks) by ints.
  unfold coin_div, coin_rem, checked_div, checked_rem. destruct (Z.eqb_spec blocks 0); [lia|].
  cbn [ok ok_or mbind option_bind]. unfold block_reward, coin_zero. fold pool blocks total.
  destruct (Z.ltb_spec 0 (total / blocks)) as [Hpos|Hz].
  - destruct (distribute_spec (total / blocks) (btree_iter (proposer_stats s))
      (uncommitted_account_root_hash self) (accounts self) (power_changed_in_block self) [] m)
      as (root & accs & powers & m' & E & Hm' & Hk & Hr); [done | lia | done | done | |].
    { fold blocks. unfold total in *. nia. }
    change (uncommitted_account_root_hash (set_pool_updated self true)) with (uncommitted_account_root_hash self).
    change (power_changed_in_block (set_pool_updated self true)) with (power_changed_in_block self).
    rewrite E. cbn [mbind option_bind]. exists root, accs, powers, m'. by split.
  - cbn [mbind option_bind].
    exists (uncommitted_account_root_hash self), (accounts self), (power_changed_in_block self), m.
    split; [done|]. split; [done|]. split; [apply keeps_refl | done].
Qed.
End conserve.

(** ** Properties *)

(** Multiplying by a rate in millionths is exact: for every 64-bit number and
    every rate of at most one the split computation equals the product rounded
    down, never wraps and never exceeds the number; a larger rate panics. *)
Theorem mul_micro_exact n rate :
  is_u64 n → 0 ≤ rate →
  mul_micro n rate = (if rate <=? 1000000 then Some (n * rate / 1000000) else None)
  ∧ (rate ≤ 1000000 → n * rate / 1000000 ≤ n).
Proof.
  intros Hn Hr. destruct (Z.leb_spec rate 1000000).
  - split; [by apply mul_micro_spec|]. intros _. destruct Hn. apply Z.div_le_upper_bound; [lia | nia].
  - split; [|lia]. unfold mul_micro. by destruct (Z.leb_spec rate 1000000); [lia|].
Qed.

Lemma mul_micro_exact_witness :
  mul_micro 18446744073709551615 999860 = Some 18444161529539232277.
Proof. apply (mul_micro_exact 18446744073709551615 999860); ints. Defined.

(** C11. A distribution of rewards conserves coins up to what it mints: the proposers
    receive equal shares per block, the remainder stays in the pool, and the accounts
    and the pool together gain exactly the minted amount, which never takes the coins
    minted so far beyond the cap. *)
Theorem rewards_conserve
    `{Hashes, Secp256k1, BitVecLib, KeyValueDB, ScaleLaws, StarlingLaws, FixedLib, Hex,
      !EnclaveProxy} self s m m0 c :
  last_state self = Some s → app_holds self m →
  holds (accounts self) (account_root (top_level s)) m0 →
  due s → stats_ok s m → rewards_pool_ok (pool_of s) → params_ok (params_of s) →
  get_rewards_monetary_expansion_decay (params_of s) ≤ 1000000 →
  Forall (λ a, is_Some (m0 !! to_stake_key a)) (btree_iter (voting_power self)).*1 →
  sum_by (bonded_at m0) (btree_iter (voting_power self)).*1 ≤ MAX_COIN →
  monetary_expansion (tau (pool_of s)) (sum_by (bonded_at m0) (btree_iter (voting_power self)).*1)
    (minted (pool_of s)) (params_of s) = Some c →
  supply s m + c ≤ MAX_COIN → minted (pool_of s) + c ≤ MAX_COIN →
  ∃ self' s' m' dist, rewards_try_distribute self = Some (self', Some (dist, c))
    ∧ last_state self' = Some s' ∧ app_holds self' m'
    ∧ supply s' m' = supply s m + c
    ∧ sum_by snd dist + period_bonus (pool_of s') = period_bonus (pool_of s) + c
    ∧ minted (pool_of s') = minted (pool_of s) + c
    ∧ 0 ≤ c ≤ Z.max 0 (get_rewards_monetary_expansion_cap (params_of s) - minted (pool_of s))
    ∧ (∀ a n acct, proposer_stats s !! a = Some n → m !! to_stake_key a = Some acct →
         m' !! to_stake_key a = Some (with_bonded acct (bonded acct + block_reward s c * n)))
    ∧ (∀ k, k ∉ to_stake_key <$> (btree_iter (proposer_stats s)).*1 → m' !! k = m !! k)
    ∧ proposer_stats s' = ∅.
Proof.
  intros Hs Hm Hm0 Hdue Hstats Hpool Hpar Hdec Hval Hst He Hsup Hmint.
  pose proof (monetary_expansion_bound _ _ _ _ _ (cap_ok _ Hpar)
    (proj1 (proj1 (proj2 (proj2 (proj2 Hpool))))) He) as Hc.
  destruct (rewards_try_distribute_spec self s m m0 c)
    as (root & accs & powers & m' & E & Hm' & _ & Hr); try done.
  do 2 eexists. exists m'. eexists. split; [exact E|]. split; [done|]. split; [exact Hm'|].
  destruct Hstats as (_ & _ & Hblk). destruct Hpool as ((Hb0 & _) & _).
  set (blocks := sum_by snd (btree_iter (proposer_stats s))) in *.
  assert (Hdm : period_bonus (pool_of s) + c
      = blocks * block_reward s c + (period_bonus (pool_of s) + c) mod blocks)
    by (apply Z.div_mod; lia).
  assert (Hnn : 0 ≤ block_reward s c) by (apply Z.div_pos; [|fold blocks]; lia).
  assert (Hsd : sum_by snd ((λ e : StakedStateAddress * Z, (e.1, block_reward s c * e.2)) <$>
                  btree_iter (proposer_stats s)) = block_reward s c * blocks).
  { unfold blocks. clear. induction (btree_iter (proposer_stats s)) as [|e l IH]; [simpl; lia|].
    rewrite fmap_cons, !sum_by_cons, IH. simpl. lia. }
  destruct (Z.ltb_spec 0 (block_reward s c)) as [Hpos|Hz].
  - destruct Hr as [Ht Ha Ho _]. unfold supply. rewrite Ht, Hsd. simpl. fold blocks.
    split; [lia|]. split; [lia|]. do 2 (split; [done|]). split; [|done].
    intros a n acct Hn Hacct. apply (Ha a n); [by apply elem_of_btree_iter | done].
  - destruct Hr as [-> _]. assert (E0 : block_reward s c = 0) by lia. unfold supply. simpl. fold blocks.
    rewrite E0 in *. split; [lia|]. split; [lia|]. do 2 (split; [done|]).
    split; [|done]. intros a n acct _ Hacct. rewrite Z.mul_0_l, Z.add_0_r. rewrite Hacct. by destruct acct.
Qed.

(** The time of the last distribution is not recorded: after a distribution the
    next one is due at every later block time, so once the first period has passed
    rewards are minted and distributed in every block. *)
Theorem rewards_due_again
    `{Hashes, Secp256k1, Scale, BitVecLib, KeyValueDB, StarlingTree, FixedLib, !EnclaveProxy}
    self self' s s' dist c t :
  last_state self = Some s →
  rewards_try_distribute self = Some (self', Some (dist, c)) → last_state self' = Some s' →
  block_time s ≤ t →
  due (with_block_time s' t).
Proof.
  intros Hs E Hs' Ht. unfold rewards_try_distribute in E. rewrite Hs in E. cbn [mbind option_bind] in E.
  destruct (Z.ltb_spec (block_time s) (genesis_time s)); [done|].
  destruct (Z.ltb_spec (block_time s) (last_distribution_time (pool_of s))); [done|].
  destruct (Z.ltb_spec (block_time s - last_distribution_time (pool_of s))
              (get_rewards_distribution_period (params_of s))); [done|].
  run_inv E; unfold due, params_of, pool_of in *; simpl; lia.
Qed.

Section witnesses.
Import AppExample.
#[local] Existing Instance fixed_ref.

(** Two validators proposed three blocks in the first period. *)
Definition reward_state : ChainNodeState :=
  with_stats (with_block_time (set_pool (state two_validators) (rewards_pool_new 10 14500000000000000))
                100000)
    (<[addr Byte.x01 := 2]> {[ addr Byte.x02 := 1 ]}).
Definition reward_app : ChainNodeApp := set_last_state (app two_validators) reward_state.

Lemma rewards_conserve_witness :
  ∃ self' s' m' dist, rewards_try_distribute reward_app = Some (self', Some (dist, 1999999448))
    ∧ last_state self' = Some s' ∧ supply s' m' = 4000000000 + 1999999448
    ∧ sum_by snd dist + period_bonus (pool_of s') = 1999999448.
Proof.
  destruct (rewards_conserve reward_app reward_state (accmap_of two_validators)
    (accmap_of two_validators) 1999999448) as (self' & s' & m' & dist & E & Hs & _ & Hsup & Hd & _).
  - reflexivity.
  - apply app_holds_example, two_validators_ok.
  - apply app_holds_example, two_validators_ok.
  - vm_compute. split_and!; discriminate.
  - split; [|split].
    + vm_compute. repeat constructor; try discriminate; eexists; reflexivity.
    + vm_compute. constructor; [|apply NoDup_singleton].
      intros Hin. apply list_elem_of_singleton in Hin. discriminate Hin.
    + vm_compute. split; [reflexivity | discriminate].
  - vm_compute. split_and!; discriminate.
  - exact params_example_ok.
  - vm_compute. discriminate.
  - vm_compute. repeat constructor; eexists; reflexivity.
  - vm_compute. discriminate.
  - vm_compute. reflexivity.
  - vm_compute. discriminate.
  - vm_compute. discriminate.
  - exists self', s', m', dist. split; [exact E|]. split; [exact Hs|]. split; [|exact Hd].
    rewrite Hsup. vm_compute. reflexivity.
Defined.

Lemma rewards_due_again_witness :
  ∃ self' s' dist c, rewards_try_distribute reward_app = Some (self', Some (dist, c))
    ∧ last_state self' = Some s' ∧ due (with_block_time s' 100001).
Proof.
  assert (Hd : match rewards_try_distribute reward_app with
               | Some (self', Some _) => bool_decide (is_Some (last_state self'))
               | _ => false
               end = true) by (vm_compute; reflexivity).
  destruct (rewards_try_distribute reward_app) as [[self' [[dist c]|]]|] eqn:E;
    [|discriminate Hd|discriminate Hd].
  destruct (last_state self') as [s'|] eqn:Hs; [|discriminate Hd].
  exists self', s', dist, c. split; [reflexivity|]. split; [exact Hs|].
  apply (rewards_due_again reward_app self' reward_state s' dist c 100001 eq_refl E Hs).
  vm_compute. discriminate.
Defined.
End witnesses.
