(* ===== verification/BeginBlock.v ===== *)
(** * BeginBlock: the start of a block

    Models [begin_block] of [src/chain-abci/src/app/mod.rs]: the liveness of the
    previous block's signers is recorded, faulty validators are scheduled for
    slashing and jailed, due slashes are executed, the proposer is recorded and the
    rewards pool is distributed. *)

From stdpp Require Import base tactics option list gmap strings.
From Stdlib Require Import ZArith Lia.
From S2P Require Import Prelude Text Codec Milli Coin Crypto Merkle Params Account TxTypes.
From S2P Require Import Validation BitVec Events Punishment Genesis Storage EnclaveProtocol.
From S2P Require Import AppState Slashing Rewards.

Record BlockHeader := {
  header_height : Z;
  header_time : option Z;
  header_proposer_address : list byte;
}.

(** An evidence is the address of its validator, if it has one. *)
Record RequestBeginBlock := {
  begin_header : option BlockHeader;
  last_commit_info : option (list VoteInfo);
  byzantine_validators : list (option (list byte));
}.

(** [serde_json::to_string] of a distribution. *)
Class SerdeJson := {
  json_distribution : list (StakedStateAddress * Coin) → str;
}.

(** An account to punish with the ratio of its fault. *)
Abbreviation punished := (StakedStateAddress * SlashRatio * PunishmentKind)%type (only parsing).

Section begin_block.
Context `{Hashes, Secp256k1, Scale, BitVecLib, KeyValueDB, StarlingTree, Hex, FixedLib, SerdeJson,
  !EnclaveProxy}.

(** [i64] to [u64] with [try_into]. *)
Definition u64_try_from_i64 (z : Z) : option Z := if 0 <=? z then Some z else None.

Definition staking_address_of (s : ChainNodeState) (a : list byte) : option StakedStateAddress :=
  staking_addresses (validators s) !! a.

Fixpoint byzantine_to_punish (s : ChainNodeState) (l : list (option (list byte))) :
  option (list punished) :=
  match l with
  | [] => Some []
  | None :: l => byzantine_to_punish s l
  | Some raw :: l =>
      a ← unwrap (validator_address_try_from raw);
      account_address ← staking_address_of s a;
      rest ← byzantine_to_punish s l;
      Some ((account_address, get_byzantine_slash_percent (params_of s), ByzantineFault) :: rest)
  end.

Definition nonlive (s : ChainNodeState) : list (list byte) :=
  fst <$> filter (λ e, is_live e.2 (get_missed_block_threshold (params_of s)) = false)
            (btree_iter (validator_liveness (punishment_of s))).

Definition nonlive_to_punish (s : ChainNodeState) : option (list punished) :=
  mapM (λ a, account_address ← staking_address_of s a;
             Some (account_address, get_liveness_slash_percent (params_of s), NonLive)) (nonlive s).

(** The entry of an account in the schedule is created or its ratio raised. *)
Definition schedule_punishment (proportion : SlashRatio) (slashing_time : Timespec)
    (schedule : gmap StakedStateAddress SlashingSchedule) (p : punished) :
  option (gmap StakedStateAddress SlashingSchedule) :=
  let '(account_address, ratio, kind) := p in
  r ← slash_ratio_mul ratio proportion;
  Some (<[account_address :=
            match schedule !! account_address with
            | Some account_schedule => update_slash_ratio account_schedule r kind
            | None => {| slash_ratio := r; slashing_time := slashing_time; punishment_kind := kind |}
            end]> schedule).

Fixpoint schedule_all (proportion : SlashRatio) (slashing_time : Timespec)
    (schedule : gmap StakedStateAddress SlashingSchedule) (l : list punished) :
  option (gmap StakedStateAddress SlashingSchedule) :=
  match l with
  | [] => Some schedule
  | p :: l => schedule ← schedule_punishment proportion slashing_time schedule p;
              schedule_all proportion slashing_time schedule l
  end.

Fixpoint jail_all (self : ChainNodeApp) (l : list punished) : option ChainNodeApp :=
  match l with
  | [] => Some self
  | (account_address, _, kind) :: l =>
      self ← mbind unwrap (jail_account self account_address kind);
      jail_all self l
  end.

Definition rewards_event (r : option (list (StakedStateAddress * Coin) * Coin)) : list Event :=
  match r with
  | None => []
  | Some (distributed, newly_minted) =>
      [{| field_type := event_type_to_string RewardsDistribution;
          event_attributes := [kvpair RewardsDistributionKey (json_distribution distributed);
                               kvpair CoinMintedKey (coin_to_string newly_minted)] |}]
  end.

Definition nonempty_event (e : Event) : list Event :=
  match event_attributes e with [] => [] | _ :: _ => [e] end.

(** The part up to the list of the accounts to punish. *)
Definition begin_state (s : ChainNodeState) (req : RequestBeginBlock) (header : BlockHeader) :
  option (ChainNodeState * list punished) :=
  time ← header_time header;
  block_time ← u64_try_from_i64 time;
  let s := with_block_time s block_time in
  s ← (if 1 <? header_height header
       then votes ← last_commit_info req;
            update_validator_liveness s (header_height header - 1) votes
       else Some s);
  byzantine ← byzantine_to_punish s (byzantine_validators req);
  non_live ← nonlive_to_punish s;
  Some (s, byzantine ++ non_live).

Definition begin_block (self : ChainNodeApp) (req : RequestBeginBlock) :
  option (ChainNodeApp * list Event) :=
  header ← begin_header req;
  proposer_address ← unwrap (validator_address_try_from (header_proposer_address header));
  s ← last_state self;
  '(s, accounts_to_punish) ← begin_state s req header;
  let self := set_last_state self s in
  let slashing_time := as_u64 (block_time s + get_slash_wait_period (params_of s)) in
  slashing_proportion ← get_slashing_proportion self ((λ p, p.1.1) <$> accounts_to_punish);
  schedule ← schedule_all slashing_proportion slashing_time
               (slashing_schedule (punishment_of s)) accounts_to_punish;
  let self := set_last_state self (set_vpunishment s (with_schedule (punishment_of s) schedule)) in
  let jailing_event := {| field_type := event_type_to_string JailValidators;
                          event_attributes := (λ p, account_kvpair p.1.1) <$> accounts_to_punish |} in
  self ← jail_all self accounts_to_punish;
  '(self, slashing_event) ← mbind unwrap (slash_eligible_accounts self);
  self ← rewards_record_proposer self proposer_address;
  '(self, rewards) ← rewards_try_distribute self;
  Some (self, nonempty_event jailing_event ++ nonempty_event slashing_event ++ rewards_event rewards).
End begin_block.

(** ** The steps *)

Section steps.
Context `{Hashes, Secp256k1, BitVecLaws, KeyValueDB, ScaleLaws, StarlingLaws, Hex, FixedLib,
  SerdeJson, !EnclaveProxy}.

Definition vote_ok (v : VoteInfo) : Prop := ∃ raw, vote_validator v = Some raw ∧ length raw = 20%nat.

Definition trackers_ok (l : gmap (list byte) LivenessTracker) : Prop :=
  map_Forall (λ _ t, (0 < bv_len (liveness t))%nat) l.

Lemma liveness_update_total t h b :
  (0 < bv_len (liveness t))%nat →
  ∃ t', liveness_update t h b = Some t' ∧ bv_len (liveness t') = bv_len (liveness t).
Proof.
  intros Ht. unfold liveness_update. destruct (Z.eqb_spec (Z.of_nat (bv_len (liveness t))) 0); [lia|].
  simpl. pose proof (Z.mod_pos_bound (as_u64 (as_u64 h - 1)) (Z.of_nat (bv_len (liveness t))) ltac:(lia)).
  destruct (bv_set_Some (liveness t)
    (Z.to_nat (as_u64 (as_u64 h - 1) mod Z.of_nat (bv_len (liveness t)))) b) as (w & -> & Hw); [lia|].
  simpl. eexists. split; [done|]. unfold bv_len. simpl. by rewrite Hw, length_insert.
Qed.

Lemma set_liveness_twice s l l' :
  set_vpunishment (set_vpunishment s (with_liveness (punishment_of s) l))
    (with_liveness (punishment_of (set_vpunishment s (with_liveness (punishment_of s) l))) l')
  = set_vpunishment s (with_liveness (punishment_of s) l').
Proof. done. Qed.

Lemma set_liveness_id s :
  s = set_vpunishment s (with_liveness (punishment_of s) (validator_liveness (punishment_of s))).
Proof. by destruct s as [? ? ? ? [? ? []] ? ?]. Qed.

Lemma update_validator_liveness_spec s h votes :
  Forall vote_ok votes → trackers_ok (validator_liveness (punishment_of s)) →
  ∃ l, update_validator_liveness s h votes
         = Some (set_vpunishment s (with_liveness (punishment_of s) l))
    ∧ trackers_ok l ∧ dom l = dom (validator_liveness (punishment_of s)).
Proof.
  intros Hv. revert s. induction Hv as [|v votes (raw & Hraw & Hlen) _ IH]; intros s Hs.
  { exists (validator_liveness (punishment_of s)). split_and!; [|done | done].
    simpl. f_equal. apply set_liveness_id. }
  cbn [update_validator_liveness]. unfold update_vote, validator_address_try_from.
  rewrite Hraw. simpl. rewrite Hlen. simpl.
  destruct (validator_liveness (punishment_of s) !! raw) as [t|] eqn:Et; [|by apply IH].
  destruct (liveness_update_total t h (signed_last_block v) (Hs _ _ Et)) as (t' & -> & Ht'). simpl.
  set (s1 := set_vpunishment s _). destruct (IH s1) as (l & -> & Hl & Hd).
  - unfold s1. simpl. apply map_Forall_insert_2; [by rewrite Ht'; apply (Hs _ _ Et) | done].
  - exists l. split_and!; [done | done |]. rewrite Hd. unfold s1. simpl. rewrite dom_insert_L.
    apply elem_of_dom_2 in Et. set_solver.
Qed.

(** The lists of the accounts to punish. *)
Definition evidence_ok (s : ChainNodeState) (o : option (list byte)) : Prop :=
  match o with
  | None => True
  | Some raw => length raw = 20%nat ∧ is_Some (staking_address_of s raw)
  end.

Definition in_tracking (s : ChainNodeState) (a : StakedStateAddress) : Prop :=
  ∃ v, staking_address_of s v = Some a.

(** A punished account is a known validator's and its ratio is at most one. *)
Definition punished_ok (s : ChainNodeState) (p : punished) : Prop :=
  in_tracking s p.1.1 ∧ is_slash_ratio p.1.2.

Lemma byzantine_to_punish_spec s l :
  params_ok (params_of s) → Forall (evidence_ok s) l →
  ∃ ps, byzantine_to_punish s l = Some ps ∧ Forall (punished_ok s) ps ∧ (length ps ≤ length l)%nat.
Proof.
  intros Hp. induction 1 as [|o l Ho _ (ps & E & Hps & Hlen)]; [by exists []; split_and!|].
  destruct o as [raw|]; cbn [byzantine_to_punish]; rewrite E.
  - destruct Ho as [Hraw [a Ha]]. unfold validator_address_try_from. rewrite Hraw. simpl. rewrite Ha. simpl.
    eexists. split; [done|]. split; [|simpl; lia]. constructor; [|done]. split; [by exists raw|].
    by destruct Hp as (_ & _ & _ & _ & (_ & ? & _) & _).
  - exists ps. split_and!; [done | done | simpl; lia].
Qed.

Lemma nonlive_to_punish_spec s :
  params_ok (params_of s) →
  (∀ v, is_Some (validator_liveness (punishment_of s) !! v) → is_Some (staking_address_of s v)) →
  ∃ ps, nonlive_to_punish s = Some ps ∧ Forall (punished_ok s) ps
    ∧ (length ps ≤ size (validator_liveness (punishment_of s)))%nat.
Proof.
  intros Hp Htr. unfold nonlive_to_punish.
  assert (Hall : ∀ v, v ∈ nonlive s → is_Some (staking_address_of s v)).
  { intros v. unfold nonlive. intros ((v' & t) & -> & [_ Hin]%list_elem_of_filter)%list_elem_of_fmap.
    apply elem_of_btree_iter in Hin. by apply Htr; eexists. }
  assert (Hlen : (length (nonlive s) ≤ size (validator_liveness (punishment_of s)))%nat).
  { unfold nonlive. rewrite length_fmap, <- length_btree_iter. apply length_filter. }
  revert Hall Hlen. generalize (size (validator_liveness (punishment_of s))).
  induction (nonlive s) as [|v l IH]; intros n Hall Hlen; [by exists []; split_and!; simpl; try lia|].
  destruct (Hall v ltac:(by left)) as [a Ha].
  destruct (IH (pred n)) as (ps & E & Hps & Hl); [intros; apply Hall; by right | simpl in Hlen; lia|].
  cbn [mapM]. rewrite Ha. simpl. rewrite E. simpl. eexists. split; [done|].
  split; [|simpl in *; lia]. constructor; [|done]. split; [by exists v|].
  by destruct Hp as (_ & _ & _ & _ & (? & _) & _).
Qed.

(** *** Scheduling *)

Lemma slash_ratio_mul_ok a b :
  is_slash_ratio a → is_slash_ratio b → ∃ r, slash_ratio_mul a b = Some r ∧ is_slash_ratio r.
Proof.
  unfold is_slash_ratio. change MAX_SLASH_RATIO with 1000. intros Ha Hb.
  unfold slash_ratio_mul, milli_mul, slash_ratio_try_from. change MAX_SLASH_RATIO with 1000.
  assert (0 ≤ a * b / 1000 ≤ 1000).
  { split; [apply Z.div_pos; nia | apply Z.div_le_upper_bound; nia]. }
  rewrite as_u64_small by ints. destruct (Z.ltb_spec 1000 (a * b / 1000)); [lia|].
  by exists (a * b / 1000).
Qed.

Definition ratios_ok (sched : gmap StakedStateAddress SlashingSchedule) : Prop :=
  map_Forall (λ _ sch, is_slash_ratio (slash_ratio sch)) sched.

Lemma schedule_all_spec prop time sched l :
  is_slash_ratio prop → Forall (λ p, is_slash_ratio p.1.2) l → ratios_ok sched →
  ∃ sched', schedule_all prop time sched l = Some sched' ∧ ratios_ok sched'
    ∧ dom sched' = dom sched ∪ list_to_set ((λ p, p.1.1) <$> l).
Proof.
  intros Hp Hl. revert sched. induction Hl as [|[[a r] k] l Hr _ IH]; intros sched Hs.
  { exists sched. split_and!; [done | done | set_solver]. }
  cbn [schedule_all schedule_punishment]. simpl in Hr.
  destruct (slash_ratio_mul_ok r prop Hr Hp) as (q & -> & Hq). simpl.
  edestruct IH as (sched' & E & Hs' & Hd); [|exists sched'; split; [exact E|]; split; [done|]].
  - apply map_Forall_insert_2; [|done]. destruct (sched !! a) as [sch|] eqn:Ea; [|done].
    unfold update_slash_ratio. destruct (slash_ratio sch <? q); [done|]. by apply (Hs _ _ Ea).
  - rewrite Hd, dom_insert_L. simpl. set_solver.
Qed.

(** *** Jailing all *)

Record jailed_list (l : list punished) (m m' : accmap) : Prop := {
  jailed_total : total_stake m' = total_stake m;
  jailed_present k : is_Some (m' !! k) ↔ is_Some (m !! k);
  jailed_listed p : p ∈ l → ∃ acct, m' !! to_stake_key p.1.1 = Some acct ∧ is_jailed acct = true;
  jailed_stays k acct : m !! k = Some acct → is_jailed acct = true → m' !! k = Some acct;
  jailed_balances k acct : m !! k = Some acct →
    ∃ acct', m' !! k = Some acct' ∧ bonded acct' = bonded acct ∧ unbonded acct' = unbonded acct;
  jailed_others k : k ∉ (λ p, to_stake_key p.1.1) <$> l → m' !! k = m !! k;
}.

Lemma jailed_list_skip p l m m' acct :
  m !! to_stake_key p.1.1 = Some acct → is_jailed acct = true →
  jailed_list l m m' → jailed_list (p :: l) m m'.
Proof.
  intros Ha Hj [H1' H2' H3' H4' H5' H6']. split; try done.
  - intros q [->|Hq]%elem_of_cons; [|by apply H3']. exists acct. split; [by apply H4' | done].
  - intros k Hk. apply H6'. set_solver.
Qed.

Lemma jailed_list_step p l s m m' acct :
  m !! to_stake_key p.1.1 = Some acct → is_jailed acct = false →
  jailed_list l (<[to_stake_key p.1.1 := jailed_as s acct p.2]> m) m' →
  jailed_list (p :: l) m m'.
Proof.
  intros Ha Hj [H1' H2' H3' H4' H5' H6']. split.
  - rewrite H1'. by apply jail_keeps_total.
  - intros k. rewrite H2', lookup_insert_is_Some'. split; [|by right]. intros [<-|?]; [by eexists | done].
  - intros q [->|Hq]%elem_of_cons; [|by apply H3']. exists (jailed_as s acct p.2). split; [|done].
    apply H4'; [apply lookup_insert_eq | done].
  - intros k acct' Hk Hj'. apply H4'; [|done]. rewrite lookup_insert_ne; [done|]. intros <-. congruence.
  - intros k acct' Hk. destruct (decide (k = to_stake_key p.1.1)) as [->|Hne].
    + destruct (H5' _ _ (lookup_insert_eq _ _ _)) as (x & ? & ? & ?). exists x. simplify_eq. done.
    + apply H5'. by rewrite lookup_insert_ne.
  - intros k Hk. rewrite fmap_cons, not_elem_of_cons in Hk. destruct Hk as [Hne Hk].
    rewrite H6' by done. by apply lookup_insert_ne.
Qed.

Lemma jail_all_spec l self s m :
  last_state self = Some s → app_holds self m →
  Forall (λ p, is_Some (m !! to_stake_key p.1.1)) l →
  ∃ r accs powers m', jail_all self l = Some (set_power_changed (set_accounts self r accs) powers)
    ∧ holds accs r m' ∧ keeps (accounts self) accs ∧ jailed_list l m m'.
Proof.
  revert self m. induction l as [|[[a ratio] k] l IH]; intros self m Hs Hm Hl.
  { exists (uncommitted_account_root_hash self), (accounts self), (power_changed_in_block self), m.
    split_and!; [by destruct self | done | apply keeps_refl |]. split; try done; [set_solver|]. eauto. }
  apply Forall_cons in Hl as [[acct Ha] Hl]. simpl in Ha. cbn [jail_all].
  destruct (is_jailed acct) eqn:Hj.
  - rewrite (jail_account_twice self m a k acct Hm Ha Hj). simpl.
    destruct (IH self m Hs Hm Hl) as (r & accs & powers & m' & E & Hh & Hk & Hjl).
    exists r, accs, powers, m'. split_and!; [done | done | done |].
    by apply (jailed_list_skip (a, ratio, k) l m m' acct).
  - destruct (jail_account_spec self s m a k acct Hs Hm Ha Hj) as (r & accs & -> & Hh & Hk). simpl.
    set (self1 := set_power_changed _ _). set (m1 := <[to_stake_key a := _]> m) in *.
    destruct (IH self1 m1 Hs Hh) as (r' & accs' & powers & m' & E & Hh' & Hk' & Hjl).
    { eapply Forall_impl; [exact Hl|]. intros q Hq. unfold m1. apply lookup_insert_is_Some'. by right. }
    exists r', accs', powers, m'. split_and!; [done | done | by eapply keeps_trans |].
    by apply (jailed_list_step (a, ratio, k) l s m m' acct).
Qed.
End steps.

(** ** The whole handler *)

Section handler.
Context `{Hashes, Secp256k1, BitVecLaws, KeyValueDB, ScaleLaws, StarlingLaws, Hex, FixedLib,
  SerdeJson, !EnclaveProxy}.

(** The staking addresses the node refers to. *)
Definition known (self : ChainNodeApp) (s : ChainNodeState) (a : StakedStateAddress) : Prop :=
  in_tracking s a ∨ is_Some (slashing_schedule (punishment_of s) !! a)
  ∨ is_Some (proposer_stats s !! a) ∨ is_Some (voting_power self !! a).

(** The state between blocks: the uncommitted accounts are the committed ones, the
    addresses the node refers to have accounts under different keys, tracked
    validators have a staking address and a signing window, scheduled accounts are
    jailed, and the coins with those still to be minted fit the supply. *)
Record block_inv (self : ChainNodeApp) (s : ChainNodeState) (m : accmap) : Prop := {
  inv_state : last_state self = Some s;
  inv_holds : app_holds self m;
  inv_root : uncommitted_account_root_hash self = account_root (top_level s);
  inv_known a : known self s a → is_Some (m !! to_stake_key a);
  inv_keys a b : known self s a → known self s b → to_stake_key a = to_stake_key b → a = b;
  inv_trackers : trackers_ok (validator_liveness (punishment_of s));
  inv_tracked v : is_Some (validator_liveness (punishment_of s) !! v) → is_Some (staking_address_of s v);
  inv_schedule : schedule_ok s m;
  inv_power : 0 < total_power self ≤ MAX_COIN_UNITS;
  inv_counted a : in_tracking s a → counted self m a;
  inv_pool : rewards_pool_ok (pool_of s);
  inv_params : params_ok (params_of s);
  inv_decay : get_rewards_monetary_expansion_decay (params_of s) ≤ 1000000;
  inv_stats : map_Forall (λ _ n, 0 ≤ n) (proposer_stats s)
              ∧ sum_by snd (btree_iter (proposer_stats s)) < U64_MAX;
  inv_minted : minted (pool_of s) ≤ get_rewards_monetary_expansion_cap (params_of s);
  inv_supply : supply s m + (get_rewards_monetary_expansion_cap (params_of s) - minted (pool_of s))
               ≤ MAX_COIN;
}.

(** The state inside a block: [m0] holds the committed accounts, [m] those with the
    block's changes.  Voting powers follow the committed accounts, everything else the
    changed ones. *)
Record open_inv (self : ChainNodeApp) (s : ChainNodeState) (m0 m : accmap) : Prop := {
  open_state : last_state self = Some s;
  open_holds : app_holds self m;
  open_committed : holds (accounts self) (account_root (top_level s)) m0;
  open_validators : Forall (λ a, is_Some (m0 !! to_stake_key a)) (btree_iter (voting_power self)).*1
    ∧ sum_by (bonded_at m0) (btree_iter (voting_power self)).*1 ≤ MAX_COIN;
  open_known a : known self s a → is_Some (m !! to_stake_key a);
  open_keys a b : known self s a → known self s b → to_stake_key a = to_stake_key b → a = b;
  open_trackers : trackers_ok (validator_liveness (punishment_of s));
  open_tracked v : is_Some (validator_liveness (punishment_of s) !! v) → is_Some (staking_address_of s v);
  open_schedule : schedule_ok s m;
  open_power : 0 < total_power self ≤ MAX_COIN_UNITS;
  open_counted a : in_tracking s a → counted self m0 a;
  open_pool : rewards_pool_ok (pool_of s);
  open_params : params_ok (params_of s);
  open_decay : get_rewards_monetary_expansion_decay (params_of s) ≤ 1000000;
  open_stats : map_Forall (λ _ n, 0 ≤ n) (proposer_stats s)
               ∧ sum_by snd (btree_iter (proposer_stats s)) ≤ U64_MAX;
  open_minted : minted (pool_of s) ≤ get_rewards_monetary_expansion_cap (params_of s);
  open_supply : supply s m + (get_rewards_monetary_expansion_cap (params_of s) - minted (pool_of s))
                ≤ MAX_COIN;
}.

(** A request as Tendermint sends it for the next block. *)
Record begin_request_ok (s : ChainNodeState) (req : RequestBeginBlock) (header : BlockHeader)
    (time : Z) : Prop := {
  req_header : begin_header req = Some header;
  req_time : header_time header = Some time;
  req_time_range : 0 ≤ time ≤ I64_MAX;
  req_after : genesis_time s ≤ time ∧ last_distribution_time (pool_of s) ≤ time;
  req_proposer : length (header_proposer_address header) = 20%nat
                 ∧ is_Some (staking_address_of s (header_proposer_address header));
  req_votes : 1 < header_height header → ∃ votes, last_commit_info req = Some votes ∧ Forall vote_ok votes;
  req_evidence : Forall (evidence_ok s) (byzantine_validators req);
  req_count : Z.of_nat (length (byzantine_validators req)
                + size (validator_liveness (punishment_of s))) ≤ U16_MAX;
}.

(** Distinct accounts bond at most the total stake. *)
Lemma sum_bonded_le m l :
  accmap_ok m → NoDup (to_stake_key <$> l) → sum_by (bonded_at m) l ≤ total_stake m.
Proof.
  revert m. induction l as [|a l IH]; intros m Hm Hnd; [by apply total_stake_nonneg|].
  rewrite fmap_cons, NoDup_cons in Hnd. destruct Hnd as [Hnin Hnd].
  rewrite sum_by_cons. unfold bonded_at at 1.
  destruct (m !! to_stake_key a) as [acct|] eqn:Ea; simpl; [|by apply IH].
  rewrite (total_stake_delete m _ acct Ea).
  assert (Hd : accmap_ok (delete (to_stake_key a) m)) by by apply map_Forall_delete.
  specialize (IH _ Hd Hnd). destruct (staked_key_lookup m a acct Hm Ea) as [_ (_ & _ & Hu & _)].
  assert (E : sum_by (bonded_at (delete (to_stake_key a) m)) l = sum_by (bonded_at m) l).
  { clear IH Hnd. induction l as [|b l IHl]; [done|]. rewrite fmap_cons, not_elem_of_cons in Hnin.
    destruct Hnin as [Hne Hnin]. rewrite !sum_by_cons, IHl by done. unfold bonded_at at 1 3.
    by rewrite lookup_delete_ne. }
  unfold stake_total. ints.
Qed.

Lemma NoDup_keys (P : StakedStateAddress → Prop) l :
  (∀ a b, P a → P b → to_stake_key a = to_stake_key b → a = b) →
  Forall P l → NoDup l → NoDup (to_stake_key <$> l).
Proof.
  intros Hinj Hl. induction Hl as [|a l Ha Hl IH]; intros Hnd; [constructor|].
  apply NoDup_cons in Hnd as [Hn Hnd]. rewrite fmap_cons. constructor; [|by apply IH].
  intros (b & E & Hb)%list_elem_of_fmap. rewrite Forall_forall in Hl.
  by rewrite (Hinj a b Ha (Hl b Hb) E) in Hn.
Qed.

Lemma block_inv_validators self s m :
  block_inv self s m →
  Forall (λ a, is_Some (m !! to_stake_key a)) (btree_iter (voting_power self)).*1
  ∧ sum_by (bonded_at m) (btree_iter (voting_power self)).*1 ≤ MAX_COIN.
Proof.
  intros Hinv.
  assert (Hk : Forall (known self s) (btree_iter (voting_power self)).*1).
  { apply Forall_forall. intros a ((b & p) & -> & Hin%elem_of_btree_iter)%list_elem_of_fmap.
    right; right; right. by eexists. }
  split; [eapply Forall_impl; [exact Hk | exact (inv_known _ _ _ Hinv)]|].
  etransitivity; [apply sum_bonded_le|].
  - apply (inv_holds _ _ _ Hinv).
  - apply (NoDup_keys (known self s)); [exact (inv_keys _ _ _ Hinv) | done | apply NoDup_btree_iter].
  - pose proof (inv_supply _ _ _ Hinv) as Hsup. pose proof (inv_minted _ _ _ Hinv).
    unfold supply in Hsup. destruct (inv_pool _ _ _ Hinv) as ((? & _) & _). lia.
Qed.

(** Between blocks nothing is uncommitted and the proposers' counters have room. *)
Lemma block_inv_open self s m :
  block_inv self s m ↔
  open_inv self s m m ∧ uncommitted_account_root_hash self = account_root (top_level s)
  ∧ sum_by snd (btree_iter (proposer_stats s)) < U64_MAX.
Proof.
  split.
  - intros Hinv. pose proof (inv_root _ _ _ Hinv) as Hr. pose proof (block_inv_validators _ _ _ Hinv).
    pose proof (inv_holds _ _ _ Hinv) as Hm. destruct Hinv as [? ? ? ? ? ? ? ? ? ? ? ? ? [? ?] ? ?].
    split; [|done]. split; try done; [rewrite <- Hr; exact Hm | split; [done | lia]].
  - intros ([? ? ? ? ? ? ? ? ? ? ? ? ? ? [? ?] ? ?] & ? & ?). by split.
Qed.

Lemma begin_state_spec self s m req header time :
  block_inv self s m → begin_request_ok s req header time →
  ∃ l ps, begin_state s req header
      = Some (with_block_time (set_vpunishment s (with_liveness (punishment_of s) l)) time, ps)
    ∧ Forall (punished_ok s) ps ∧ Z.of_nat (length ps) ≤ U16_MAX
    ∧ trackers_ok l ∧ dom l = dom (validator_liveness (punishment_of s)).
Proof.
  intros Hinv Hreq. unfold begin_state. rewrite (req_time _ _ _ _ Hreq). simpl.
  unfold u64_try_from_i64. destruct (Z.leb_spec 0 time); [|destruct (req_time_range _ _ _ _ Hreq); lia].
  simpl. set (s1 := with_block_time s time).
  assert (∃ l, (if 1 <? header_height header
       then votes ← last_commit_info req; update_validator_liveness s1 (header_height header - 1) votes
       else Some s1) = Some (set_vpunishment s1 (with_liveness (punishment_of s1) l))
    ∧ trackers_ok l ∧ dom l = dom (validator_liveness (punishment_of s))) as (l & -> & Hl & Hd).
  { destruct (Z.ltb_spec 1 (header_height header)) as [Hh|_].
    - destruct (req_votes _ _ _ _ Hreq Hh) as (votes & -> & Hv). simpl.
      apply (update_validator_liveness_spec s1); [done | exact (inv_trackers _ _ _ Hinv)].
    - exists (validator_liveness (punishment_of s)).
      split_and!; [f_equal; exact (set_liveness_id s1) | apply (inv_trackers _ _ _ Hinv) | done]. }
  simpl. set (s2 := set_vpunishment s1 _).
  destruct (byzantine_to_punish_spec s2 (byzantine_validators req)) as (ps & -> & Hps & Hlps);
    [apply (inv_params _ _ _ Hinv) | apply (req_evidence _ _ _ _ Hreq)|]. simpl.
  assert (Hsz : size l = size (validator_liveness (punishment_of s))) by (rewrite <- !size_dom; by rewrite Hd).
  destruct (nonlive_to_punish_spec s2) as (qs & -> & Hqs & Hlqs); [apply (inv_params _ _ _ Hinv) | |].
  { intros v Hv. apply (inv_tracked _ _ _ Hinv). apply elem_of_dom. rewrite <- Hd. by apply elem_of_dom. }
  simpl. exists l, (ps ++ qs). split_and!; [done | | | done | done].
  - by apply Forall_app.
  - rewrite length_app. pose proof (req_count _ _ _ _ Hreq) as Hc. simpl in Hlqs. rewrite Hsz in Hlqs. lia.
Qed.
(** *** Punishment *)

(** The accounts after jailing and slashing. *)
Record punished_accounts (ps : list punished) (s s' : ChainNodeState) (m m' : accmap) : Prop := {
  punished_supply : supply s' m' = supply s m;
  punished_bonus : period_bonus (pool_of s) ≤ period_bonus (pool_of s');
  punished_present k : is_Some (m !! k) → is_Some (m' !! k);
  punished_jailed p : p ∈ ps → ∃ acct, m' !! to_stake_key p.1.1 = Some acct ∧ is_jailed acct = true;
  punished_queue a sch : slashing_schedule (punishment_of s') !! a = Some sch →
    can_slash sch (block_time s) = false;
  punished_schedule : schedule_ok s' m';
  punished_scheduled a : is_Some (slashing_schedule (punishment_of s') !! a) →
    is_Some (slashing_schedule (punishment_of s) !! a) ∨ a ∈ (λ p : punished, p.1.1) <$> ps;
}.

(** What jailing and slashing leave of the state. *)
Definition punish_frame (s s' : ChainNodeState) : Prop :=
  ∃ sched bonus, s' = set_pool (set_vpunishment s (with_schedule (punishment_of s) sched))
                        (with_bonus (pool_of s) bonus).

Lemma slashed_present l s m s' m' k :
  Forall (to_slash_ok s m) l → slashed_list l s m s' m' → is_Some (m !! k) → is_Some (m' !! k).
Proof.
  intros Hl Hsl Hk. destruct (decide (k ∈ to_stake_key <$> l)) as [(a & -> & Ha)%list_elem_of_fmap|Hn].
  - rewrite Forall_forall in Hl. destruct (Hl a Ha) as (acct & sch & Em & _ & Es & _).
    destruct (slashed_accounts _ _ _ _ _ Hsl a acct sch Ha Em Es) as (acct' & ? & ? & _). by exists acct'.
  - by rewrite (slashed_others _ _ _ _ _ Hsl).
Qed.

Lemma slashed_stays_jailed l s m s' m' k acct :
  Forall (to_slash_ok s m) l → slashed_list l s m s' m' →
  m !! k = Some acct → is_jailed acct = true →
  ∃ acct', m' !! k = Some acct' ∧ is_jailed acct' = true.
Proof.
  intros Hl Hsl Hk Hj. destruct (decide (k ∈ to_stake_key <$> l)) as [(a & -> & Ha)%list_elem_of_fmap|Hn].
  - rewrite Forall_forall in Hl. destruct (Hl a Ha) as (acct0 & sch & Em & _ & Es & _).
    destruct (slashed_accounts _ _ _ _ _ Hsl a acct0 sch Ha Em Es) as (acct' & ? & ? & (_&_&_&_&_&_&?)).
    by exists acct'.
  - exists acct. by rewrite (slashed_others _ _ _ _ _ Hsl).
Qed.

Lemma schedule_to_slash s m : schedule_ok s m → Forall (to_slash_ok s m) (accounts_to_slash s).
Proof.
  intros Hok. apply Forall_forall. intros a (sch & Ha & _)%elem_of_accounts_to_slash.
  destruct (Hok a sch Ha) as (Hr & acct & ? & ?). by exists acct, sch.
Qed.

(** What stays scheduled after the due slashes stays jailed. *)
Lemma slashed_schedule_ok l s m s' m' :
  Forall (to_slash_ok s m) l → slashed_list l s m s' m' → schedule_ok s m → schedule_ok s' m'.
Proof.
  intros Hl Hsl Hok a sch. rewrite (slashed_sched _ _ _ _ _ Hsl a). case_decide; [done|].
  intros Ha. destruct (Hok a sch Ha) as (Hr & acct & Em & Ej). split; [done|].
  by eapply slashed_stays_jailed.
Qed.

(** The schedule after the new punishments, with every scheduled account jailed. *)
Lemma new_schedule_ok s m m' sched ps :
  schedule_ok s m → ratios_ok sched →
  dom sched = dom (slashing_schedule (punishment_of s)) ∪ list_to_set ((λ p : punished, p.1.1) <$> ps) →
  jailed_list ps m m' →
  schedule_ok (set_vpunishment s (with_schedule (punishment_of s) sched)) m'.
Proof.
  intros Hok Hr Hd Hj a sch Ha. simpl in Ha. split; [by apply (Hr a)|].
  apply elem_of_dom_2 in Ha. rewrite Hd in Ha. apply elem_of_union in Ha as [Ha|Ha].
  - apply elem_of_dom in Ha as [sch0 Ha]. destruct (Hok a sch0 Ha) as (_ & acct & Em & Ej).
    exists acct. split; [by apply (jailed_stays _ _ _ Hj) | done].
  - apply elem_of_list_to_set, list_elem_of_fmap in Ha as (p & -> & Hp). by apply (jailed_listed _ _ _ Hj).
Qed.

Lemma punish_spec self s m ps sched :
  last_state self = Some s → app_holds self m → schedule_ok s m →
  coin_ok (period_bonus (pool_of s)) → supply s m ≤ MAX_COIN →
  Forall (λ p, is_Some (m !! to_stake_key p.1.1)) ps → ratios_ok sched →
  dom sched = dom (slashing_schedule (punishment_of s)) ∪ list_to_set ((λ p : punished, p.1.1) <$> ps) →
  (∀ a b, a ∈ dom sched → b ∈ dom sched → to_stake_key a = to_stake_key b → a = b) →
  let s1 := set_vpunishment s (with_schedule (punishment_of s) sched) in
  ∃ self2 self3 s3 m3 ev, jail_all (set_last_state self s1) ps = Some self2
    ∧ slash_eligible_accounts self2 = Some (Ok (self3, ev))
    ∧ last_state self3 = Some s3 ∧ app_holds self3 m3 ∧ keeps (accounts self) (accounts self3)
    ∧ voting_power self3 = voting_power self ∧ punish_frame s s3
    ∧ punished_accounts ps s s3 m m3.
Proof.
  intros Hs Hm Hok Hb Hsup Hps Hr Hd Hinj s1.
  destruct (jail_all_spec ps (set_last_state self s1) s1 m eq_refl Hm Hps)
    as (r & accs & powers & m2 & E & Hh & Hk & Hj).
  set (self2 := set_power_changed _ _) in E.
  assert (Hok2 : schedule_ok s1 m2) by by eapply new_schedule_ok.
  assert (Hsup2 : supply s1 m2 = supply s m) by (unfold supply; by rewrite (jailed_total _ _ _ Hj)).
  destruct (slash_eligible_spec self2 s1 m2) as (self3 & s3 & m3 & ev & E3 & Hs3 & Hm3 & Hk3 & Hf & Hsl & _);
    [done | exact Hh | done | lia | done | |].
  { apply (NoDup_keys (λ a, a ∈ dom sched)); [done | |].
    - apply Forall_forall. intros a (sch & Ha & _)%elem_of_accounts_to_slash. by eapply elem_of_dom_2.
    - unfold accounts_to_slash. eapply sublist_NoDup;
        [apply (NoDup_btree_iter (slashing_schedule (punishment_of s1))) |].
      apply fmap_sublist, sublist_filter. }
  exists self2, self3, s3, m3, ev. split; [exact E|]. split; [exact E3|].
  destruct Hf as (b & r3 & accs3 & sched3 & bonus3 & -> & ->).
  split_and!; [done | exact Hm3 | by eapply keeps_trans | done | by exists sched3, bonus3 |].
  pose proof (schedule_to_slash s1 m2 Hok2) as Hall. split.
  - by rewrite (slashed_supply _ _ _ _ _ Hsl).
  - exact (slashed_bonus _ _ _ _ _ Hsl).
  - intros k Hk'. eapply slashed_present; [exact Hall | exact Hsl|]. by apply (jailed_present _ _ _ Hj).
  - intros p Hp. destruct (jailed_listed _ _ _ Hj p Hp) as (acct & Ea & Ej).
    by eapply slashed_stays_jailed.
  - intros a sch. rewrite (slashed_sched _ _ _ _ _ Hsl a). case_decide as Ha; [done|].
    intros Hsch. destruct (can_slash sch (block_time s)) eqn:Ec; [|done].
    destruct Ha. apply elem_of_accounts_to_slash. eauto.
  - by eapply slashed_schedule_ok.
  - intros a [sch Ha]. rewrite (slashed_sched _ _ _ _ _ Hsl a) in Ha. case_decide; [done|].
    apply elem_of_dom_2 in Ha. change (a ∈ dom sched) in Ha.
    rewrite Hd, elem_of_union, elem_of_list_to_set, elem_of_dom in Ha. exact Ha.
Qed.
(** *** Rewards *)

Lemma sum_stats_insert (st : gmap StakedStateAddress Z) a n :
  sum_by snd (btree_iter (<[a := n]> st))
  = sum_by snd (btree_iter st) + n - default 0 (st !! a).
Proof.
  rewrite !(sum_by_perm snd _ _ (btree_iter_perm _)).
  destruct (st !! a) as [k|] eqn:E; simpl.
  - rewrite <- (insert_delete_id st a k E) at 2. rewrite <- insert_delete_eq.
    rewrite !(sum_by_perm snd _ _ (map_to_list_insert _ _ _ (lookup_delete_eq _ _))), !sum_by_cons.
    simpl. lia.
  - rewrite (sum_by_perm snd _ _ (map_to_list_insert _ _ _ E)), sum_by_cons. simpl. lia.
Qed.

(** The proposers so far and their accounts. *)
Definition proposers_ok (st : gmap StakedStateAddress Z) (m : accmap) : Prop :=
  map_Forall (λ a n, 0 ≤ n ∧ is_Some (m !! to_stake_key a)) st
  ∧ (∀ a b, a ∈ dom st → b ∈ dom st → to_stake_key a = to_stake_key b → a = b).

Lemma proposers_stats_ok s m :
  proposers_ok (proposer_stats s) m → 0 < sum_by snd (btree_iter (proposer_stats s)) ≤ U64_MAX →
  stats_ok s m.
Proof.
  intros [Hf Hi] Hs. split; [|split; [|done]].
  - apply Forall_forall. intros [a n] Hin%elem_of_btree_iter. by apply (Hf a n).
  - apply (NoDup_keys (λ a, a ∈ dom (proposer_stats s))); [done | | apply NoDup_btree_iter].
    apply Forall_forall. intros a ((b & n) & -> & Hin%elem_of_btree_iter)%list_elem_of_fmap.
    by eapply elem_of_dom_2.
Qed.

(** The counter of a proposer. *)
Definition proposed (st : gmap StakedStateAddress Z) (a : StakedStateAddress) : Z := default 0 (st !! a).

Lemma record_proposer_spec self s v a :
  last_state self = Some s → staking_address_of s v = Some a →
  map_Forall (λ _ n, 0 ≤ n) (proposer_stats s) →
  sum_by snd (btree_iter (proposer_stats s)) < U64_MAX →
  rewards_record_proposer self v
  = Some (set_last_state self (with_stats s
            (<[a := proposed (proposer_stats s) a + 1]> (proposer_stats s)))).
Proof.
  intros Hs Ha Hn Hsum. unfold rewards_record_proposer. rewrite Hs. simpl.
  unfold staking_address_of in Ha. rewrite Ha. simpl. unfold proposed.
  destruct (proposer_stats s !! a) as [n|] eqn:E; simpl; [|done].
  assert (n ≤ sum_by snd (btree_iter (proposer_stats s))).
  { rewrite (sum_by_perm snd _ _ (btree_iter_perm _)).
    rewrite <- (insert_delete_id _ a n E).
    rewrite (sum_by_perm snd _ _ (map_to_list_insert _ _ _ (lookup_delete_eq _ _))), sum_by_cons. simpl.
    enough (0 ≤ sum_by snd (map_to_list (delete a (proposer_stats s)))) by lia.
    apply sum_by_nonneg, Forall_forall. intros [b k] Hin%elem_of_map_to_list. simpl.
    apply lookup_delete_Some in Hin as [_ Hin]. by apply (Hn b). }
  pose proof (Hn a n E) as Hn0. simpl in Hn0. by rewrite as_u64_small by ints.
Qed.

Lemma rewards_not_due self s :
  last_state self = Some s → genesis_time s ≤ block_time s →
  last_distribution_time (pool_of s) ≤ block_time s →
  block_time s - last_distribution_time (pool_of s) < get_rewards_distribution_period (params_of s) →
  rewards_try_distribute self = Some (self, None).
Proof.
  intros Hs Hg Hl Hp. unfold rewards_try_distribute. rewrite Hs. cbn [mbind option_bind].
  destruct (Z.ltb_spec (block_time s) (genesis_time s)); [lia|].
  destruct (Z.ltb_spec (block_time s) (last_distribution_time (pool_of s))); [lia|].
  by destruct (Z.ltb_spec (block_time s - last_distribution_time (pool_of s))
              (get_rewards_distribution_period (params_of s))); [|lia].
Qed.

(** The accounts and the state after the rewards. *)
Record rewarded_block (s s' : ChainNodeState) (m m' : accmap) (newly : Coin) : Prop := {
  block_supply : supply s' m' = supply s m + newly;
  block_minted : minted (pool_of s') = minted (pool_of s) + newly;
  block_newly : 0 ≤ newly ≤ get_rewards_monetary_expansion_cap (params_of s) - minted (pool_of s);
  block_punishment k acct : m !! k = Some acct →
    ∃ acct', m' !! k = Some acct' ∧ punishment acct' = punishment acct;
  block_state : validators s' = validators s ∧ account_root (top_level s') = account_root (top_level s)
    ∧ block_time s' = block_time s ∧ params_of s' = params_of s;
  block_stats : proposer_stats s' = proposer_stats s ∨ proposer_stats s' = ∅;
  block_pool : rewards_pool_ok (pool_of s');
}.

Lemma rewarded_punishment share l m m' powers powers' k acct :
  Forall (proposer_ok m) l → rewarded share l m m' powers powers' → m !! k = Some acct →
  ∃ acct', m' !! k = Some acct' ∧ punishment acct' = punishment acct.
Proof.
  intros Hl Hr Hk. destruct (decide (k ∈ to_stake_key <$> l.*1)) as [Hin|Hn].
  - apply list_elem_of_fmap in Hin as (a & -> & Ha). apply list_elem_of_fmap in Ha as ([b n] & -> & Hb).
    destruct (rewarded_accounts _ _ _ _ _ _ Hr b n acct Hb Hk) as [E _]. by eexists.
  - exists acct. by rewrite (rewarded_others _ _ _ _ _ _ Hr).
Qed.

(** The pool after a distribution is a valid one. *)
Lemma pool_after_ok s c :
  rewards_pool_ok (pool_of s) → params_ok (params_of s) →
  get_rewards_monetary_expansion_decay (params_of s) ≤ 1000000 →
  0 < sum_by snd (btree_iter (proposer_stats s)) → 0 ≤ c →
  period_bonus (pool_of s) + c ≤ MAX_COIN → minted (pool_of s) + c ≤ MAX_COIN →
  rewards_pool_ok (pool_after s c).
Proof.
  intros (Hb & Hh & Ht & Hm & Htau) Hpar Hdec Hsum Hc Hbc Hmc.
  assert (0 ≤ get_rewards_monetary_expansion_decay (params_of s))
    by (destruct Hpar as (_ & _ & _ & _ & _ & (_ & _ & _ & _ & ?) & _);
        unfold get_rewards_monetary_expansion_decay; ints).
  unfold pool_after. split_and!; simpl; [| done | done | ints |].
  - pose proof (Z.mod_pos_bound (period_bonus (pool_of s) + c) _ Hsum).
    pose proof (Z.mod_le (period_bonus (pool_of s) + c) _ ltac:(ints) Hsum). ints.
  - destruct Htau. split; [apply Z.div_pos; nia|]. apply Z.div_le_upper_bound; [lia | nia].
Qed.

(** The computation of the expansion is the one step of a due distribution that can
    panic. *)
Lemma rewards_overflow self s m0 :
  last_state self = Some s → holds (accounts self) (account_root (top_level s)) m0 →
  get_rewards_distribution_period (params_of s) ≤ block_time s - last_distribution_time (pool_of s) →
  Forall (λ a, is_Some (m0 !! to_stake_key a)) (btree_iter (voting_power self)).*1 →
  sum_by (bonded_at m0) (btree_iter (voting_power self)).*1 ≤ MAX_COIN →
  monetary_expansion (tau (pool_of s)) (sum_by (bonded_at m0) (btree_iter (voting_power self)).*1)
    (minted (pool_of s)) (params_of s) = None →
  rewards_try_distribute self = None.
Proof.
  intros Hs Hm0 Hdue Hval Hst He. unfold rewards_try_distribute. rewrite Hs. cbn [mbind option_bind].
  destruct (_ || _); [done|].
  destruct (Z.ltb_spec (block_time s - last_distribution_time (pool_of s))
              (get_rewards_distribution_period (params_of s))); [lia|].
  change (voting_power (set_pool_updated self true)) with (voting_power self).
  change (accounts (set_pool_updated self true)) with (accounts self).
  rewrite (sum_staking_spec _ _ m0 _ coin_zero Hm0 Hval ltac:(done)) by done.
  cbn [mbind option_bind]. by rewrite Z.add_0_l, He.
Qed.

Lemma rewards_block_spec self s m m0 :
  last_state self = Some s → app_holds self m →
  holds (accounts self) (account_root (top_level s)) m0 →
  genesis_time s ≤ block_time s → last_distribution_time (pool_of s) ≤ block_time s →
  proposers_ok (proposer_stats s) m → 0 < sum_by snd (btree_iter (proposer_stats s)) ≤ U64_MAX →
  rewards_pool_ok (pool_of s) → params_ok (params_of s) →
  get_rewards_monetary_expansion_decay (params_of s) ≤ 1000000 →
  Forall (λ a, is_Some (m0 !! to_stake_key a)) (btree_iter (voting_power self)).*1 →
  sum_by (bonded_at m0) (btree_iter (voting_power self)).*1 ≤ MAX_COIN →
  (get_rewards_distribution_period (params_of s) ≤ block_time s - last_distribution_time (pool_of s) →
   is_Some (monetary_expansion (tau (pool_of s))
     (sum_by (bonded_at m0) (btree_iter (voting_power self)).*1) (minted (pool_of s)) (params_of s))) →
  minted (pool_of s) ≤ get_rewards_monetary_expansion_cap (params_of s) →
  supply s m + (get_rewards_monetary_expansion_cap (params_of s) - minted (pool_of s)) ≤ MAX_COIN →
  ∃ self' s' m' r, rewards_try_distribute self = Some (self', r)
    ∧ last_state self' = Some s' ∧ app_holds self' m' ∧ keeps (accounts self) (accounts self')
    ∧ voting_power self' = voting_power self
    ∧ rewarded_block s s' m m' (match r with Some (_, c) => c | None => 0 end).
Proof.
  intros Hs Hm Hm0 Hg Hl Hprop Hsum Hpool Hpar Hdec Hval Hb Hexp Hmc Hsup.
  destruct (Z.lt_ge_cases (block_time s - last_distribution_time (pool_of s))
              (get_rewards_distribution_period (params_of s))) as [Hnd|Hdue].
  { rewrite (rewards_not_due self s) by done. exists self, s, m, None.
    split_and!; try done; [apply keeps_refl|]. split; [lia | lia | lia | eauto | done | by left | done]. }
  destruct (Hexp Hdue) as [c He]. clear Hexp.
  pose proof (proposers_stats_ok s m Hprop Hsum) as Hst.
  pose proof (monetary_expansion_bound _ _ _ _ _ (cap_ok _ Hpar)
    (proj1 (proj1 (proj2 (proj2 (proj2 Hpool))))) He) as Hc.
  destruct (rewards_try_distribute_spec self s m m0 c) as (r & accs & powers & m' & E & Hm' & Hk & Hr);
    try done; [lia | |].
  { destruct (cap_ok _ Hpar). lia. }
  rewrite E. do 2 eexists. exists m'. eexists. split; [done|]. split; [done|].
  split_and!; [exact Hm' | done | done |].
  assert (Hdm : period_bonus (pool_of s) + c
      = sum_by snd (btree_iter (proposer_stats s)) * block_reward s c + period_bonus (pool_after s c))
    by (apply Z.div_mod; lia).
  assert (Hnn : 0 ≤ block_reward s c) by (apply Z.div_pos; [destruct Hpool as ((? & _) & _)|]; lia).
  assert (Hpa : rewards_pool_ok (pool_after s c)).
  { pose proof (total_stake_nonneg m (proj2 Hm)). destruct (cap_ok _ Hpar).
    unfold supply in Hsup. apply pool_after_ok; try done; lia. }
  destruct (Z.ltb_spec 0 (block_reward s c)) as [Hpos|Hz].
  - split; [|done | lia | | done | by right | exact Hpa].
    + unfold supply. rewrite (rewarded_total _ _ _ _ _ _ Hr).
      change (pool_of (with_stats (set_pool s (pool_after s c)) ∅)) with (pool_after s c). lia.
    + intros k acct. apply (rewarded_punishment _ _ _ _ _ _ _ _ (proj1 Hst) Hr).
  - destruct Hr as [-> _]. assert (E0 : block_reward s c = 0) by lia. rewrite E0 in Hdm.
    split; [|done | lia | eauto | done | by right | exact Hpa].
    unfold supply. change (pool_of (with_stats (set_pool s (pool_after s c)) ∅)) with (pool_after s c). lia.
Qed.
(** The coins minted by a distribution in this block, without a value when the
    fixed-point computation panics. *)
Definition block_expansion (self : ChainNodeApp) (s : ChainNodeState) (m0 : accmap) : option Coin :=
  monetary_expansion (tau (pool_of s)) (sum_by (bonded_at m0) (btree_iter (voting_power self)).*1)
    (minted (pool_of s)) (params_of s).

(** A distribution is due at a time, and the computation of its expansion panics. *)
Definition expansion_panics (self : ChainNodeApp) (s : ChainNodeState) (m0 : accmap) (time : Z) : Prop :=
  get_rewards_distribution_period (params_of s) ≤ time - last_distribution_time (pool_of s)
  ∧ block_expansion self s m0 = None.

#[global] Instance expansion_panics_dec self s m0 time : Decision (expansion_panics self s m0 time).
Proof. unfold expansion_panics. apply _. Defined.

(** The outcome of the start of a block. *)
Record block_begun (self : ChainNodeApp) (s : ChainNodeState) (m : accmap) (time : Z)
    (ps : list punished) (self' : ChainNodeApp) (s' : ChainNodeState) (m' : accmap) (newly : Coin) :
  Prop := {
  begun_inv : open_inv self' s' m m';
  begun_root : account_root (top_level s') = account_root (top_level s);
  begun_power : voting_power self' = voting_power self;
  begun_time : block_time s' = time;
  begun_count : sum_by snd (btree_iter (proposer_stats s')) ≤ sum_by snd (btree_iter (proposer_stats s)) + 1;
  begun_supply : supply s' m' = supply s m + newly;
  begun_minted : minted (pool_of s') = minted (pool_of s) + newly;
  begun_cap : 0 ≤ newly ∧ minted (pool_of s') ≤ get_rewards_monetary_expansion_cap (params_of s);
  begun_jailed p : p ∈ ps → ∃ acct, m' !! to_stake_key p.1.1 = Some acct ∧ is_jailed acct = true;
  begun_queue a sch : slashing_schedule (punishment_of s') !! a = Some sch → can_slash sch time = false;
}.

Lemma known_ratios self s m : block_inv self s m → ratios_ok (slashing_schedule (punishment_of s)).
Proof. intros Hinv a sch Ha. by destruct (inv_schedule _ _ _ Hinv a sch Ha). Qed.

(** *** The invariant through the steps *)

(** The node and the accounts once the block's punishments are done. *)
Record punishments_done (self : ChainNodeApp) (s : ChainNodeState) (m : accmap) (time : Z)
    (l : gmap (list byte) LivenessTracker) (ps : list punished)
    (self3 : ChainNodeApp) (s3 : ChainNodeState) (m3 : accmap) : Prop := {
  pd_trackers : trackers_ok l;
  pd_dom : dom l = dom (validator_liveness (punishment_of s));
  pd_punished : Forall (λ p, known self s p.1.1) ps;
  pd_state : last_state self3 = Some s3;
  pd_holds : app_holds self3 m3;
  pd_keeps : keeps (accounts self) (accounts self3);
  pd_power : voting_power self3 = voting_power self;
  pd_frame : punish_frame (with_block_time (set_vpunishment s (with_liveness (punishment_of s) l)) time) s3;
  pd_accounts : punished_accounts ps
    (with_block_time (set_vpunishment s (with_liveness (punishment_of s) l)) time) s3 m m3;
}.

(** The handler up to the punishments; what is left are the rewards. *)
Lemma begin_punish self s m req header time :
  block_inv self s m → begin_request_ok s req header time →
  ∃ l ps self3 s3 m3 jailing slashing,
    begin_state s req header
      = Some (with_block_time (set_vpunishment s (with_liveness (punishment_of s) l)) time, ps)
    ∧ punishments_done self s m time l ps self3 s3 m3
    ∧ begin_block self req
      = (self4 ← rewards_record_proposer self3 (header_proposer_address header);
         '(self5, r) ← rewards_try_distribute self4;
         Some (self5, jailing ++ slashing ++ rewards_event r)).
Proof.
  intros Hinv Hreq.
  destruct (begin_state_spec self s m req header time Hinv Hreq) as (l & ps & Eb & Hps & Hlen & Htr & Hd).
  set (s1 := with_block_time _ time) in Eb. destruct Hreq as [Eh _ _ _ [Hplen _] _ _ _].
  pose proof (inv_state _ _ _ Hinv) as Hs. pose proof (inv_holds _ _ _ Hinv) as Hm.
  pose proof Hinv as [Hopen _]%block_inv_open. pose proof (open_committed _ _ _ _ Hopen) as Hm1.
  assert (Hpk : Forall (λ p, known self s p.1.1) ps).
  { eapply Forall_impl; [exact Hps|]. intros p [? _]. by left. }
  destruct (slashing_proportion_ok (set_last_state self s1) s1 m ((λ p, p.1.1) <$> ps))
    as (roots & _ & Eprop & Hprop); [done | exact Hm1 | exact (inv_power _ _ _ Hinv) | | by rewrite length_fmap |].
  { apply Forall_fmap. eapply Forall_impl; [exact Hps|]. intros p [Hp _]. exact (inv_counted _ _ _ Hinv _ Hp). }
  set (prop := Z.min 1000 _) in Eprop, Hprop.
  destruct (schedule_all_spec prop (as_u64 (block_time s1 + get_slash_wait_period (params_of s1)))
    (slashing_schedule (punishment_of s1)) ps) as (sched & Esched & Hratios & Hdom);
    [done | eapply Forall_impl; [exact Hps | by intros p [_ ?]] | exact (known_ratios _ _ _ Hinv) |].
  assert (Hdk : ∀ a, a ∈ dom sched → known self s a).
  { intros a. rewrite Hdom, elem_of_union, elem_of_list_to_set. intros [Ha|Ha].
    - right. left. by apply elem_of_dom.
    - apply list_elem_of_fmap in Ha as (p & -> & Hp). rewrite Forall_forall in Hpk. by apply Hpk. }
  pose proof (inv_supply _ _ _ Hinv) as Hsup. pose proof (inv_minted _ _ _ Hinv) as Hmin.
  destruct (punish_spec (set_last_state self s1) s1 m ps sched)
    as (self2 & self3 & s3 & m3 & ev & Ej & Es & Hs3 & Hm3 & Hk3 & Hv3 & Hframe & Hpun);
    [done | exact Hm | exact (inv_schedule _ _ _ Hinv) | apply (inv_pool _ _ _ Hinv)
    | change (supply s m ≤ MAX_COIN); lia | | done
    | done | by intros a b Ha Hb; apply (inv_keys _ _ _ Hinv); apply Hdk |].
  { eapply Forall_impl; [exact Hpk|]. intros p. apply (inv_known _ _ _ Hinv). }
  exists l, ps, self3, s3, m3. do 2 eexists. split; [exact Eb|].
  split; [by split|].
  unfold begin_block. rewrite Eh. cbn [mbind option_bind]. unfold validator_address_try_from.
  rewrite Hplen. cbn [Nat.eqb unwrap ok mbind option_bind]. rewrite Hs. cbn [mbind option_bind].
  rewrite Eb. cbn [mbind option_bind]. rewrite Eprop. cbn [mbind option_bind]. rewrite Esched.
  cbn [mbind option_bind]. simpl in Ej. rewrite Ej. cbn [mbind option_bind]. rewrite Es.
  cbn [mbind option_bind unwrap ok]. reflexivity.
Qed.

(** The addresses known after the punishments were known before. *)
Lemma punished_known self s m time l ps self3 s3 m3 a :
  punishments_done self s m time l ps self3 s3 m3 → known self3 s3 a → known self s a.
Proof.
  intros [_ _ Hpk _ _ _ Hv (sched & bonus & E3) Hacc] [Ht|[Ha|[Ha|Ha]]].
  - left. by rewrite E3 in Ht.
  - destruct (punished_scheduled _ _ _ _ _ Hacc a Ha) as [Ha'|Ha']; [right; left; exact Ha'|].
    apply list_elem_of_fmap in Ha' as (p & -> & Hp). rewrite Forall_forall in Hpk. by apply Hpk.
  - right; right; left. by rewrite E3 in Ha.
  - right; right; right. by rewrite Hv in Ha.
Qed.

Lemma punish_open self s m time l ps self3 s3 m3 :
  block_inv self s m → punishments_done self s m time l ps self3 s3 m3 → open_inv self3 s3 m m3.
Proof.
  intros Hinv Hpd. pose proof (λ a, punished_known _ _ _ _ _ _ _ _ _ a Hpd) as Hkn.
  apply block_inv_open in Hinv as ([]&_&_).
  destruct Hpd as [Htr Hd _ Hs3 Hm3 Hk3 Hv3 (sched & bonus & E3) [Psup Pbon Ppres _ _ Psch _]].
  change (supply s3 m3 = supply s m) in Psup. change (period_bonus (pool_of s) ≤ period_bonus (pool_of s3)) in Pbon.
  assert (Etp : total_power self3 = total_power self) by (unfold total_power; by rewrite Hv3).
  split; try (rewrite E3; done).
  - exact Hs3.
  - exact Hm3.
  - rewrite E3. by apply Hk3.
  - by rewrite Hv3.
  - intros a Ha. apply Ppres. auto.
  - intros a b Ha Hb. auto.
  - rewrite E3. intros v Hv. apply open_tracked0. apply elem_of_dom. rewrite <- Hd. by apply elem_of_dom.
  - exact Psch.
  - by rewrite Etp.
  - rewrite E3. intros a Ha. destruct (open_counted0 a Ha) as (acct & ? & ?). exists acct. by rewrite Etp.
  - pose proof (total_stake_nonneg m3 (proj2 Hm3)). unfold supply in *.
    assert (Hb3 : period_bonus (pool_of s3) = bonus) by by rewrite E3.
    destruct open_pool0 as (? & ? & ? & ? & ?). rewrite E3 in *. split_and!; try done. simpl in *. ints.
  - rewrite Psup, E3. done.
Qed.

(** The proposer of the block is counted. *)
Lemma record_open self s m0 m v a :
  open_inv self s m0 m → staking_address_of s v = Some a →
  sum_by snd (btree_iter (proposer_stats s)) < U64_MAX →
  ∃ s', rewards_record_proposer self v = Some (set_last_state self s')
    ∧ s' = with_stats s (<[a := proposed (proposer_stats s) a + 1]> (proposer_stats s))
    ∧ open_inv (set_last_state self s') s' m0 m
    ∧ sum_by snd (btree_iter (proposer_stats s')) = sum_by snd (btree_iter (proposer_stats s)) + 1
    ∧ 0 < sum_by snd (btree_iter (proposer_stats s')).
Proof.
  intros Hinv Ha Hsum. pose proof (open_stats _ _ _ _ Hinv) as [Hnn _].
  assert (Hs0 : 0 ≤ sum_by snd (btree_iter (proposer_stats s))).
  { apply sum_by_nonneg, Forall_forall. intros [b k] Hin%elem_of_btree_iter. by apply (Hnn b). }
  eexists. split; [by apply record_proposer_spec; [apply Hinv|..]|]. split; [done|].
  set (s' := with_stats s _).
  assert (Es : sum_by snd (btree_iter (proposer_stats s')) = sum_by snd (btree_iter (proposer_stats s)) + 1).
  { unfold s'. simpl. rewrite sum_stats_insert. unfold proposed. lia. }
  split; [|split; [exact Es | lia]].
  assert (Hkn : ∀ b, known (set_last_state self s') s' b → known self s b).
  { intros b [Hb|[Hb|[Hb|Hb]]]; [by left | by right; left | | by right; right; right].
    unfold s' in Hb. simpl in Hb. destruct (decide (b = a)) as [->|Hne]; [left; by exists v|].
    rewrite lookup_insert_ne in Hb by done. by right; right; left. }
  destruct Hinv. split; try done.
  - auto.
  - intros b c Hb Hc. auto.
  - split; [|rewrite Es; lia]. apply map_Forall_insert_2; [|done]. unfold proposed.
    destruct (proposer_stats s !! a) as [k|] eqn:Ek; simpl; [|lia].
    pose proof (Hnn _ _ Ek). simpl in *. lia.
Qed.

Lemma rewards_open self s m0 m :
  open_inv self s m0 m → 0 < sum_by snd (btree_iter (proposer_stats s)) →
  genesis_time s ≤ block_time s → last_distribution_time (pool_of s) ≤ block_time s →
  ¬ expansion_panics self s m0 (block_time s) →
  ∃ self' s' m' r, rewards_try_distribute self = Some (self', r)
    ∧ open_inv self' s' m0 m' ∧ voting_power self' = voting_power self
    ∧ rewarded_block s s' m m' (match r with Some (_, c) => c | None => 0 end).
Proof.
  intros Hinv Hpos Hg Hl Hexp. pose proof Hinv as [].
  destruct (rewards_block_spec self s m m0) as (self' & s' & m' & r & E & Hs' & Hm' & Hk & Hv & Hr);
    try done; try apply open_validators0.
  - split; [|intros a b Ha Hb; apply open_keys0; right; right; left; by apply elem_of_dom].
    intros a n Ha. split; [by apply (proj1 open_stats0 a)|]. apply open_known0. right; right; left. by exists n.
  - split; [lia | apply open_stats0].
  - intros Hd. apply not_eq_None_Some. intros En. apply Hexp. by split.
  - exists self', s', m', r. split; [done|]. split; [|done].
    destruct Hr as [Rs Rm Rn Rp (Rval & Rroot & Rtime & Rpar) Rst Rpool].
    assert (Rpun : punishment_of s' = punishment_of s) by (unfold punishment_of; by rewrite Rval).
    assert (Rtr : ∀ v, staking_address_of s' v = staking_address_of s v)
      by (intros v; unfold staking_address_of; by rewrite Rval).
    assert (Rin : ∀ a, in_tracking s' a → in_tracking s a) by (intros a [v Hv']; exists v; by rewrite <- Rtr).
    assert (Hkn : ∀ b, known self' s' b → known self s b).
    { intros b [Hb|[Hb|[Hb|Hb]]]; [left; auto | right; left; by rewrite <- Rpun | right; right; left
        | right; right; right; by rewrite <- Hv].
      destruct Rst as [<-|Eq]; [done|]. rewrite Eq in Hb. by destruct Hb. }
    assert (Etp : total_power self' = total_power self) by (unfold total_power; by rewrite Hv).
    split; rewrite ?Rpun, ?Rpar, ?Hv; try done.
    + rewrite Rroot. by apply Hk.
    + intros a Ha. destruct (open_known0 a (Hkn a Ha)) as [acct Ea]. destruct (Rp _ _ Ea) as (? & ? & _). by eexists.
    + intros a b Ha Hb. auto.
    + intros v. rewrite Rtr. auto.
    + intros a sch Ha. rewrite Rpun in Ha. destruct (open_schedule0 a sch Ha) as (Hr & acct & Ea & Ej).
      split; [done|]. destruct (Rp _ _ Ea) as (acct' & Ea' & Epun). exists acct'. split; [done|].
      unfold is_jailed in *. by rewrite Epun.
    + by rewrite Etp.
    + intros a Ha. destruct (open_counted0 a (Rin a Ha)) as (acct & ? & ?). exists acct. by rewrite Etp.
    + destruct Rst as [-> | ->]; [done|]. split; [apply map_Forall_empty | vm_compute; discriminate].
    + lia.
    + lia.
Qed.

Lemma begin_block_spec self s m req header time :
  block_inv self s m → begin_request_ok s req header time →
  if decide (expansion_panics self s m time) then begin_block self req = None
  else ∃ self' evs s1 ps s' m' newly, begin_block self req = Some (self', evs)
    ∧ begin_state s req header = Some (s1, ps)
    ∧ block_begun self s m time ps self' s' m' newly.
Proof.
  intros Hinv Hreq.
  destruct (begin_punish self s m req header time Hinv Hreq)
    as (l & ps & self3 & s3 & m3 & jailing & slashing & Eb & Hpd & Ebb). rewrite Ebb. clear Ebb.
  pose proof (punish_open _ _ _ _ _ _ _ _ _ Hinv Hpd) as Ho3.
  destruct Hreq as [_ _ _ [Hg Hlast] [_ [a0 Ha0]] _ _ _].
  destruct Hpd as [_ _ _ _ _ _ Hv3 (sched & bonus & E3) [Psup _ _ Pjail Pq _ _]].
  assert (F : proposer_stats s3 = proposer_stats s ∧ staking_address_of s3 = staking_address_of s
    ∧ params_of s3 = params_of s ∧ pool_of s3 = with_bonus (pool_of s) bonus ∧ block_time s3 = time
    ∧ genesis_time s3 = genesis_time s ∧ account_root (top_level s3) = account_root (top_level s))
    by by rewrite E3.
  destruct F as (Fst & Fad & Fpar & Fpool & Ft & Fg & Froot). clear E3.
  destruct (record_open self3 s3 m m3 (header_proposer_address header) a0 Ho3)
    as (s4 & -> & E4 & Ho4 & Ec & Hpos); [by rewrite Fad | rewrite Fst; apply (inv_stats _ _ _ Hinv) |].
  cbn [mbind option_bind]. rewrite Fst in Ec.
  assert (Hex : expansion_panics (set_last_state self3 s4) s4 m (block_time s4) ↔ expansion_panics self s m time).
  { unfold expansion_panics, block_expansion. rewrite E4.
    change (pool_of (with_stats s3 ?x)) with (pool_of s3). change (params_of (with_stats s3 ?x)) with (params_of s3).
    simpl. by rewrite Hv3, Fpool, Fpar, Ft. }
  destruct (decide (expansion_panics self s m time)) as [Hp|Hp]; rewrite <- Hex in Hp.
  - rewrite (rewards_overflow _ s4 m); [done | apply Ho4 | apply Ho4 | apply Hp | apply Ho4 | apply Ho4 | apply Hp].
  - destruct (rewards_open _ s4 m m3 Ho4 Hpos) as (self5 & s5 & m5 & r & -> & Ho5 & Hv5 & Hr);
      [rewrite E4; change (genesis_time s3 ≤ block_time s3); by rewrite Fg, Ft
      | rewrite E4; change (last_distribution_time (pool_of s3) ≤ block_time s3); by rewrite Fpool, Ft
      | done |].
    destruct Hr as [Rs Rm Rn Rp (Rval & Rroot & Rtime & Rpar) Rst _].
    cbn [mbind option_bind]. do 7 eexists. split; [done|]. split; [exact Eb|].
    change (supply s3 m3 = supply s m) in Psup.
    assert (E4' : pool_of s4 = pool_of s3 ∧ params_of s4 = params_of s3 ∧ block_time s4 = block_time s3
      ∧ account_root (top_level s4) = account_root (top_level s3) ∧ punishment_of s4 = punishment_of s3
      ∧ supply s4 m3 = supply s3 m3) by by rewrite E4.
    destruct E4' as (F1 & F2 & F3 & F4 & F5 & F6). rewrite F1, F2, Fpool, Fpar in Rn. rewrite F1, Fpool in Rm.
    simpl in Rm, Rn. split.
    + exact Ho5.
    + by rewrite Rroot, F4.
    + by rewrite Hv5.
    + by rewrite Rtime, F3.
    + destruct Rst as [-> | ->]; [lia|]. rewrite <- Ec. etransitivity; [|apply Z.lt_le_incl, Hpos]. done.
    + by rewrite Rs, F6, Psup.
    + exact Rm.
    + rewrite Rm. lia.
    + intros p Hp'. destruct (Pjail p Hp') as (acct & Ea & Ej').
      destruct (Rp _ _ Ea) as (acct' & Ea' & Epun). exists acct'. split; [done|].
      unfold is_jailed in *. by rewrite Epun.
    + intros a sch. unfold punishment_of. rewrite Rval. fold (punishment_of s4). rewrite F5. apply Pq.
Qed.
End handler.

(** ** Properties *)

(** C6. The start of a block keeps the node's invariant and conserves coins.  From a
    state that satisfies the invariant between blocks and a well-formed request,
    [begin_block] panics in one case only: a distribution of rewards is due and the
    fixed-point computation of its expansion, done by a library, panics.  Otherwise it
    returns a state that satisfies the invariant inside a block: every address the node
    refers to has an account under a key of its own, tracked validators keep their
    signing window, scheduled accounts are jailed, the committed accounts stay
    readable and the coins with those still to be minted fit the supply.  Every
    validator with evidence against it or too many missed blocks is jailed, no slash
    that is due stays in the queue, the proposers' counters grow by at most one, and
    the accounts and the rewards pool together change by exactly the coins minted,
    which stay within the cap. *)
Theorem begin_block_sound
    `{Hashes, Secp256k1, BitVecLaws, KeyValueDB, ScaleLaws, StarlingLaws, Hex, FixedLib, SerdeJson,
      !EnclaveProxy} self s m req header time :
  block_inv self s m → begin_request_ok s req header time →
  if decide (expansion_panics self s m time) then begin_block self req = None
  else ∃ self' evs s1 ps s' m' newly, begin_block self req = Some (self', evs)
    ∧ begin_state s req header = Some (s1, ps)
    ∧ block_begun self s m time ps self' s' m' newly.
Proof. apply begin_block_spec. Qed.

Section witness.
Import AppExample.
#[local] Existing Instance fixed_ref.
#[local] Instance json_ref : SerdeJson := {| json_distribution _ := [] |}.

(** The first of two validators missed the whole signing window, and the first
    rewards period is over. *)
Definition lazy_state : ChainNodeState :=
  let s := set_pool (state two_validators) (rewards_pool_new 10 14500000000000000) in
  set_vpunishment s (with_liveness (punishment_of s)
    {[ validator_address_from (Ed25519 (replicate 32 Byte.x01)) :=
         MkTracker (replicate 100 false : BitVec) ]}).
Definition lazy_app : ChainNodeApp := set_last_state (app two_validators) lazy_state.
Definition lazy_header : BlockHeader :=
  {| header_height := 1; header_time := Some 100000;
     header_proposer_address := validator_address_from (Ed25519 (replicate 32 Byte.x02)) |}.
Definition lazy_request : RequestBeginBlock :=
  {| begin_header := Some lazy_header; last_commit_info := None; byzantine_validators := [] |}.

Definition one_of_two (a : StakedStateAddress) : Prop := a = addr Byte.x01 ∨ a = addr Byte.x02.

#[local] Instance one_of_two_dec a : Decision (one_of_two a).
Proof. unfold one_of_two. apply _. Defined.

Lemma lazy_tracking a : in_tracking lazy_state a → one_of_two a.
Proof.
  intros (v & Hv). unfold staking_address_of in Hv. revert v a Hv.
  change (map_Forall (λ _ a, one_of_two a) (staking_addresses (validators lazy_state))).
  refine (bool_decide_unpack _ _). vm_compute. exact I.
Qed.

Lemma lazy_known a : known lazy_app lazy_state a → one_of_two a.
Proof.
  intros [Ht|[[x Hx]|[[x Hx]|[x Hx]]]]; [by apply lazy_tracking | done | done |].
  revert x Hx. revert a.
  change (map_Forall (λ a _, one_of_two a) (voting_power lazy_app)).
  refine (bool_decide_unpack _ _). vm_compute. exact I.
Qed.

Lemma lazy_inv : block_inv lazy_app lazy_state (accmap_of two_validators).
Proof.
  split.
  - reflexivity.
  - apply app_holds_example, two_validators_ok.
  - reflexivity.
  - intros a [->| ->]%lazy_known; refine (bool_decide_unpack _ _); vm_compute; exact I.
  - intros a b [->| ->]%lazy_known [->| ->]%lazy_known E; done.
  - apply map_Forall_singleton. vm_compute. lia.
  - intros v [t Ht]. simpl in Ht. apply lookup_singleton_Some in Ht as [<- _].
    refine (bool_decide_unpack _ _). vm_compute. exact I.
  - intros a sch Ha. done.
  - vm_compute. split; [reflexivity | discriminate].
  - intros a [->| ->]%lazy_tracking; eexists; (split; [vm_compute; reflexivity | vm_compute; discriminate]).
  - vm_compute. split_and!; discriminate.
  - exact params_example_ok.
  - vm_compute. discriminate.
  - split; [done | vm_compute; reflexivity].
  - vm_compute. discriminate.
  - vm_compute. discriminate.
Qed.

Lemma lazy_expansion : ¬ expansion_panics lazy_app lazy_state (accmap_of two_validators) 100000.
Proof. intros [_ E]. vm_compute in E. discriminate E. Qed.

Lemma begin_block_sound_witness :
  ∃ self' evs s' m', begin_block lazy_app lazy_request = Some (self', evs)
    ∧ last_state self' = Some s' ∧ schedule_ok s' m' ∧ minted (pool_of s') = 1999999448
    ∧ supply s' m' = 4000000000 + 1999999448
    ∧ ∃ acct, m' !! to_stake_key (addr Byte.x01) = Some acct ∧ is_jailed acct = true.
Proof.
  assert (Hb : if decide (expansion_panics lazy_app lazy_state (accmap_of two_validators) 100000)
    then begin_block lazy_app lazy_request = None
    else ∃ self' evs s1 ps s' m' newly, begin_block lazy_app lazy_request = Some (self', evs)
      ∧ begin_state lazy_state lazy_request lazy_header = Some (s1, ps)
      ∧ block_begun lazy_app lazy_state (accmap_of two_validators) 100000 ps self' s' m' newly).
  { apply begin_block_sound; [exact lazy_inv|].
    split; [reflexivity | reflexivity | | | | | |].
    + vm_compute. split; discriminate.
    + vm_compute. split; discriminate.
    + split; [reflexivity|]. refine (bool_decide_unpack _ _). vm_compute. exact I.
    + intros Hh. vm_compute in Hh. discriminate Hh.
    + constructor.
    + vm_compute. discriminate. }
  rewrite decide_False in Hb by exact lazy_expansion.
  destruct Hb as (self' & evs & s1 & ps & s' & m' & newly & E & Eb & Hb).
  exists self', evs, s', m'. split; [exact E|]. destruct Hb as [Hi _ _ _ _ Hsup Hmint _ Hj _].
  pose proof (open_state _ _ _ _ Hi) as Hs. split; [exact Hs|].
  split; [exact (open_schedule _ _ _ _ Hi)|].
  assert (En : newly = 1999999448).
  { assert (E' : ('(x, _) ← begin_block lazy_app lazy_request; minted ∘ pool_of <$> last_state x)
                 = Some 1999999448) by (vm_compute; reflexivity).
    rewrite E in E'. simpl in E'. rewrite Hs in E'. injection E' as E'. rewrite Hmint in E'.
    change (minted (pool_of lazy_state)) with 0 in E'. lia. }
  split; [rewrite Hmint, En; reflexivity|]. split; [rewrite Hsup, En; vm_compute; reflexivity|].
  apply (Hj (addr Byte.x01, 100, NonLive)).
  assert (Ep : snd <$> begin_state lazy_state lazy_request lazy_header = Some [(addr Byte.x01, 100, NonLive)])
    by (vm_compute; reflexivity).
  rewrite Eb in Ep. injection Ep as ->. left.
Defined.
End witness.
