(* ===== verification/DeliverTx.v ===== *)
(** * DeliverTx: the processing of a transaction

    Models [verify_enclave_tx] and [verify_public_tx] of
    [src/chain-abci/src/storage/tx.rs], [src/chain-abci/src/app/validate_tx.rs] and
    [check_tx] and [deliver_tx] of [src/chain-abci/src/app/mod.rs].  The text of the
    log of a response is not modelled. *)

From stdpp Require Import base tactics option list gmap strings.
From Stdlib Require Import ZArith Lia.
From S2P Require Import Prelude Text Codec Milli Coin Crypto Merkle Params Account TxTypes.
From S2P Require Import Validation BitVec Events Punishment Genesis Storage EnclaveProtocol.
From S2P Require Import Enclave EnclaveServer ServerContract AppState Slashing.

(** The code and the events of a response. *)
Record ResponseTx := { resp_code : Z; resp_events : list Event }.

Section deliver.
Context `{Hashes, Secp256k1, Scale, BitVecLib, KeyValueDB, StarlingTree, Hex, !EnclaveProxy}.

(** ** Checks against the storage *)

(** [match response { VerifyTx(r) => r, _ => Err(EnclaveRejected) }]. *)
Definition enclave_verdict (response : EnclaveResponse) : result Error (Fee * option StakedState) :=
  match response with RespVerifyTx r => r | _ => Err EnclaveRejected end.

Definition ask_enclave (tx_validator : Proxy) (tx : TxEnclaveAux) (account : option StakedState)
    (info : ChainInfo) : option (result Error (Fee * option StakedState) * Proxy) :=
  '(response, tx_validator) ← process_request tx_validator (new_tx_request tx account info);
  Some (enclave_verdict response, tx_validator).

Definition verify_enclave_tx (tx_validator : Proxy) (txaux : TxEnclaveAux) (extra_info : ChainInfo)
    (last_account_root_hash : H256) (db : Db) (accs : AccountStorage) :
  option (result Error (Fee * option StakedState) * Proxy) :=
  match txaux with
  | TransferTx ins _ _ =>
      match check_spent_input_lookup ins db with
      | Err e => Some (Err e, tx_validator)
      | Ok _ => ask_enclave tx_validator txaux None extra_info
      end
  | DepositStakeTx tx _ =>
      match (match get_account (to_staked_account tx) last_account_root_hash accs with
             | Ok a => Ok (Some a)
             | Err AccountNotFound => Ok None
             | Err e => Err e
             end) with
      | Err e => Some (Err e, tx_validator)
      | Ok account =>
          match (_ ← match account with Some a => verify_unjailed a | None => Ok () end;
                 check_spent_input_lookup (deposit_inputs tx) db) with
          | Err e => Some (Err e, tx_validator)
          | Ok _ => ask_enclave tx_validator txaux account extra_info
          end
      end
  | WithdrawUnbondedStakeTx _ witness payload =>
      match verify_tx_recover_address witness (txid payload) with
      | Err _ => Some (Err EcdsaCrypto, tx_validator)
      | Ok account_address =>
          match (account ← get_account account_address last_account_root_hash accs;
                 _ ← verify_unjailed account;
                 Ok account) with
          | Err e => Some (Err e, tx_validator)
          | Ok account => ask_enclave tx_validator txaux (Some account) extra_info
          end
      end
  end.

(** The [unreachable!] of the enclave transactions panics. *)
Definition verify_public_tx (txaux : TxAux) (extra_info : ChainInfo) (node_info : NodeInfo)
    (last_account_root_hash : H256) (accs : AccountStorage) : run Error (Fee * option StakedState) :=
  match txaux with
  | EnclaveTx _ => None
  | UnbondStakeTx maintx witness =>
      match verify_tx_recover_address witness (transaction_id unbond_codec maintx) with
      | Ok account_address =>
          account ?← Some (get_account account_address last_account_root_hash accs);
          verify_unbonding maintx extra_info account
      | Err _ => Some (Err EcdsaCrypto)
      end
  | UnjailStakeTx maintx witness =>
      match verify_tx_recover_address witness (transaction_id unjail_codec maintx) with
      | Ok account_address =>
          account ?← Some (get_account account_address last_account_root_hash accs);
          Some (verify_unjailing maintx extra_info account)
      | Err _ => Some (Err EcdsaCrypto)
      end
  | NodeJoinTx maintx witness =>
      match verify_tx_recover_address witness (transaction_id node_join_codec maintx) with
      | Ok account_address =>
          account ?← Some (get_account account_address last_account_root_hash accs);
          Some (verify_node_join maintx extra_info node_info account)
      | Err _ => Some (Err EcdsaCrypto)
      end
  end.

(** ** Validation of a request *)

Definition tx_chain_info (self : ChainNodeApp) (state : ChainNodeState) (min_fee : Fee) : ChainInfo :=
  {| min_fee_computed := min_fee; info_chain_hex_id := app_chain_hex_id self;
     previous_block_time := block_time state;
     info_unbonding_period := get_unbonding_period (params_of state) |}.

Definition tx_node_info (self : ChainNodeApp) (state : ChainNodeState) : NodeInfo :=
  {| minimal_stake := get_required_council_node_stake (params_of state);
     tendermint_validator_addresses := staking_addresses (validators state);
     validator_voting_power := voting_power self |}.

Definition handle_tx (self : ChainNodeApp) (txaux : TxAux) (tx_len : Z) :
  option (result Error (Fee * option StakedState) * ChainNodeApp) :=
  state ← last_state self;
  min_fee ← unwrap (params_calculate_fee (params_of state) tx_len);
  let extra_info := tx_chain_info self state min_fee in
  match txaux with
  | EnclaveTx tx =>
      '(r, v) ← verify_enclave_tx (tx_validator self) tx extra_info
                  (uncommitted_account_root_hash self) (storage self) (accounts self);
      Some (r, set_validator self v)
  | _ =>
      r ← verify_public_tx txaux extra_info (tx_node_info self state)
            (uncommitted_account_root_hash self) (accounts self);
      Some (r, self)
  end.

(** The code of the response, the application and what was validated. *)
Definition validate_tx_req (self : ChainNodeApp) (tx : list byte) :
  option (Z * ChainNodeApp * option (TxAux * (Fee * option StakedState))) :=
  match decode tx_aux_codec tx with
  | None => Some (1, self, None)
  | Some txaux =>
      '(fee_paid, self) ← handle_tx self txaux (Z.of_nat (length tx));
      match fee_paid with
      | Ok fee => Some (0, self, Some (txaux, fee))
      | Err _ => Some (1, self, None)
      end
  end.

Definition check_tx (self : ChainNodeApp) (tx : list byte) : option (ChainNodeApp * Z) :=
  '(code, self, _) ← validate_tx_req self tx;
  Some (self, code).

(** ** Delivery *)

(** The effect of a valid transaction on the outputs: the inputs are spent. *)
Definition deliver_utxos (self : ChainNodeApp) (txaux : TxAux) : option DBTransaction :=
  match txaux with
  | EnclaveTx (TransferTx ins _ _) => spend_utxos ins (storage self) []
  | EnclaveTx (DepositStakeTx tx _) => spend_utxos (deposit_inputs tx) (storage self) []
  | _ => Some []
  end.

(** Its effect on the accounts: the updated account is stored; a node that joins is
    recorded with its power. *)
Definition deliver_account (self : ChainNodeApp) (txaux : TxAux) (acc : option StakedState) :
  option (H256 * option StakedState * ChainNodeApp) :=
  match txaux with
  | EnclaveTx (TransferTx _ _ _) => Some (uncommitted_account_root_hash self, None, self)
  | EnclaveTx _ | UnbondStakeTx _ _ | UnjailStakeTx _ _ =>
      state ← acc;
      '(root, maccount, accs) ← update_account state (uncommitted_account_root_hash self) (accounts self);
      Some (root, maccount, set_accounts self (uncommitted_account_root_hash self) accs)
  | NodeJoinTx _ _ =>
      state ← acc;
      node ← council_node state;
      let self := set_new_nodes self (<[address state := node]> (new_nodes_in_block self)) in
      power ← vote_power_from_coin (bonded state);
      let self := set_power_changed self (<[address state := power]> (power_changed_in_block self)) in
      '(root, maccount, accs) ← update_account state (uncommitted_account_root_hash self) (accounts self);
      Some (root, maccount, set_accounts self (uncommitted_account_root_hash self) accs)
  end.

(** The voting power of a validator whose stake changed; a jailed account is
    [unreachable!]. *)
Definition deliver_power (self : ChainNodeApp) (maccount : option StakedState) :
  option ChainNodeApp :=
  match maccount with
  | None => Some self
  | Some account =>
      if decide (is_Some (voting_power self !! address account)
                 ∨ is_Some (power_changed_in_block self !! address account)) then
        if is_jailed account then None
        else
          state ← last_state self;
          min_power ← vote_power_from_coin (get_required_council_node_stake (params_of state));
          new_power ← vote_power_from_coin (bonded account);
          let old_power := default vote_power_zero (voting_power self !! address account) in
          if (old_power <? new_power) && (min_power <=? new_power)
          then Some (set_power_changed self
                       (<[address account := new_power]> (power_changed_in_block self)))
          else if (min_power <=? old_power) && (new_power <? old_power)
          then Some (set_power_changed self
                       (<[address account := vote_power_zero]> (power_changed_in_block self)))
          else Some self
      else Some self
  end.

Definition valid_tx_event (fee : Fee) (maccount : option StakedState) (txaux : TxAux) : Event :=
  {| field_type := event_type_to_string ValidTransactions;
     event_attributes :=
       kvpair FeeKey (coin_to_string (fee_to_coin fee))
       :: match maccount with Some account => [account_kvpair (address account)] | None => [] end
       ++ [kvpair TxIdKey (hex_encode (tx_id txaux))] |}.

Definition deliver_tx (self : ChainNodeApp) (tx : list byte) : option (ChainNodeApp * ResponseTx) :=
  '(code, self, mtxaux) ← validate_tx_req self tx;
  match mtxaux with
  | Some (txaux, (fee, acc)) =>
      inittx ← deliver_utxos self txaux;
      '(next_account_root, maccount, self) ← deliver_account self txaux acc;
      self ← deliver_power self maccount;
      let self := set_accounts self next_account_root (accounts self) in
      let self := set_storage self (storage self) (delivered_txs self ++ [txaux]) in
      state ← last_state self;
      new_remaining ← unwrap (coin_add (period_bonus (pool_of state)) (fee_to_coin fee));
      let self := set_last_state self (set_pool state (with_bonus (pool_of state) new_remaining)) in
      let self := set_pool_updated self true in
      let self := set_storage self (db_write_buffered (storage self) inittx) (delivered_txs self) in
      Some (self, {| resp_code := code; resp_events := [valid_tx_event fee maccount txaux] |})
  | None => Some (self, {| resp_code := code; resp_events := [] |})
  end.
End deliver.

(** ** What an accepted transaction does *)

Section spec.
Context `{Hashes, Secp256k1, BitVecLaws, KeyValueDBLaws, ScaleLaws, StarlingLaws, Hex,
          !EnclaveProxy, !EnclaveContract}.

(** The account after an operation that adds [amount] to its stake. *)
Definition account_moves (m : accmap) (a' : StakedState) (amount : Z) : Prop :=
  staked_state_ok a' ∧ is_jailed a' = false
  ∧ match m !! staked_key a' with
    | Some a => stake_total a' = stake_total a + amount ∧ nonce a' = as_u64 (nonce a + 1)
    | None => stake_total a' = amount ∧ nonce a' = 0
    end.

(** The account whose key signed a staking operation. *)
Definition signed_by (m : accmap) (w : StakedStateOpWitness) (i : TxId) (a : StakedState) : Prop :=
  ∃ addr, verify_tx_recover_address w i = Ok addr ∧ m !! to_stake_key addr = Some a.

(** A transaction that is accepted with a fee and an account: what it spends and
    creates in outputs, and what it requires. *)
Definition tx_moves (info : ChainInfo) (node_info : NodeInfo) (m : accmap) (txaux : TxAux)
    (fee : Fee) (acc : option StakedState) (spent created : Z) : Prop :=
  match txaux with
  | EnclaveTx (TransferTx _ n payload) =>
      acc = None ∧ ∃ tx w sources vs, enclave_open payload = Some (PlainTransferTx tx w)
        ∧ transaction_id tx_codec tx = txid payload
        ∧ as_u16 (Z.of_nat (length (outputs tx))) = n
        ∧ spends_all (txid payload) info (inputs tx) w sources vs
        ∧ spent = sum_by Datatypes.id vs ∧ outputs_pay (outputs tx) created
        ∧ pays_fee info spent created fee
  | EnclaveTx (DepositStakeTx tx payload) =>
      fee = min_fee_computed info ∧ created = 0
      ∧ (∃ w sources vs, enclave_open payload = Some (PlainDepositStakeTx w)
           ∧ spends_all (transaction_id deposit_codec tx) info (deposit_inputs tx) w sources vs
           ∧ spent = sum_by Datatypes.id vs)
      ∧ (∀ a, m !! to_stake_key (to_staked_account tx) = Some a → is_jailed a = false)
      ∧ ∃ a', acc = Some a' ∧ staked_key a' = to_stake_key (to_staked_account tx)
  | EnclaveTx (WithdrawUnbondedStakeTx n w payload) =>
      spent = 0 ∧ ∃ a tx, signed_by m w (txid payload) a
        ∧ enclave_open payload = Some (PlainWithdrawUnbondedStakeTx tx)
        ∧ transaction_id withdraw_codec tx = txid payload
        ∧ as_u16 (Z.of_nat (length (withdraw_outputs tx))) = n
        ∧ withdraw_spec tx info a fee ∧ created = sum_by out_value (withdraw_outputs tx)
        ∧ acc = Some (withdraw a)
  | UnbondStakeTx tx w =>
      spent = 0 ∧ created = 0 ∧ fee = min_fee_computed info
      ∧ ∃ a a', signed_by m w (transaction_id unbond_codec tx) a ∧ unbonding_spec tx info a
        ∧ unbond a (unbond_value tx) fee
            (as_u64 (previous_block_time info + info_unbonding_period info)) = Some a'
        ∧ acc = Some a'
  | UnjailStakeTx tx w =>
      spent = 0 ∧ created = 0 ∧ fee = 0
      ∧ ∃ a, signed_by m w (transaction_id unjail_codec tx) a ∧ unjailing_spec tx info a
        ∧ acc = Some (unjail a)
  | NodeJoinTx tx w =>
      spent = 0 ∧ created = 0 ∧ fee = 0
      ∧ ∃ a, signed_by m w (transaction_id node_join_codec tx) a ∧ node_join_spec tx info node_info a
        ∧ acc = Some (join_node a (node_meta tx))
  end.

(** The fee of each kind: unjailing and joining are free, deposits and unbondings pay
    exactly the minimum, transfers and withdrawals at least that. *)
Definition fee_due (min_fee : Fee) (txaux : TxAux) (fee : Fee) : Prop :=
  match txaux with
  | EnclaveTx (TransferTx _ _ _) | EnclaveTx (WithdrawUnbondedStakeTx _ _ _) => min_fee ≤ fee
  | EnclaveTx (DepositStakeTx _ _) | UnbondStakeTx _ _ => fee = min_fee
  | UnjailStakeTx _ _ | NodeJoinTx _ _ => fee = 0
  end.

Lemma moves_fee_due self s node_info m min_fee txaux fee acc spent created :
  tx_moves (tx_chain_info self s min_fee) node_info m txaux fee acc spent created →
  fee_due min_fee txaux fee.
Proof.
  destruct txaux as [[]| | |]; simpl.
  - intros (_ & tx & w & src & vs & _ & _ & _ & _ & _ & _ & _ & Hf). exact Hf.
  - by intros (-> & _).
  - intros (_ & a & tx & _ & _ & _ & _ & (_ & _ & _ & _ & _ & t & _ & _ & Hf) & _). exact Hf.
  - by intros (_ & _ & -> & _).
  - by intros (_ & _ & -> & _).
  - by intros (_ & _ & -> & _).
Qed.

(** What leaves the outputs goes to new outputs, to the account and to the fee. *)
Definition balanced (m : accmap) (acc : option StakedState) (fee spent created : Z) : Prop :=
  match acc with
  | None => spent = created + fee
  | Some a' => account_moves m a' (spent - created - fee)
  end.

(** *** Each kind of transaction *)

Lemma signed_account m w i a :
  accmap_ok m → signed_by m w i a → m !! staked_key a = Some a ∧ staked_state_ok a.
Proof.
  intros Hm (addr & _ & Ha). destruct (staked_key_lookup m addr a Hm Ha) as [-> ?]. done.
Qed.

Lemma moves_same_key m a a' amount :
  m !! staked_key a = Some a → staked_key a' = staked_key a → staked_state_ok a' → is_jailed a' = false →
  stake_total a' = stake_total a + amount → nonce a' = as_u64 (nonce a + 1) →
  account_moves m a' amount.
Proof. intros Ha Hk. unfold account_moves. by rewrite Hk, Ha. Qed.

Lemma withdraw_balanced m w i tx info a fee :
  accmap_ok m → signed_by m w i a → withdraw_spec tx info a fee →
  account_moves m (withdraw a) (0 - sum_by out_value (withdraw_outputs tx) - fee).
Proof.
  intros Hm Hs (Hj & _ & _ & _ & _ & t & (_ & _ & ->) & [Hu _]).
  destruct (signed_account m w i a Hm Hs) as [Ha Hok].
  apply (moves_same_key m a); try done.
  - destruct Hok as (?&?&?&?&?&?&?). staked_ok.
  - unfold stake_total. simpl. unfold coin_zero. lia.
Qed.

Lemma unbond_balanced m w i tx info a fee a' from :
  accmap_ok m → signed_by m w i a → unbonding_spec tx info a → coin_ok (unbond_value tx) → 0 ≤ fee →
  is_u64 from → unbond a (unbond_value tx) fee from = Some a' → account_moves m a' (0 - 0 - fee).
Proof.
  intros Hm Hs (Hj & _) Hv Hf Hfrom Hu. destruct (signed_account m w i a Hm Hs) as [Ha Hok].
  pose proof Hok as (?&?&?&?&?&?&?). apply unbond_spec in Hu as (-> & ? & ?); [|done..].
  apply (moves_same_key m a); try done; [staked_ok|]. unfold stake_total. simpl. lia.
Qed.

Lemma unjail_balanced m w i a :
  accmap_ok m → signed_by m w i a → account_moves m (unjail a) (0 - 0 - 0).
Proof.
  intros Hm Hs. destruct (signed_account m w i a Hm Hs) as [Ha Hok].
  apply (moves_same_key m a); try done; [|unfold stake_total; simpl; lia].
  destruct Hok as (?&?&?&?&?&?&?). staked_ok.
Qed.

Lemma join_balanced m w i a tx info node_info :
  accmap_ok m → signed_by m w i a → node_join_spec tx info node_info a →
  council_node_ok (node_meta tx) → account_moves m (join_node a (node_meta tx)) (0 - 0 - 0).
Proof.
  intros Hm Hs (Hj & _) Hn. destruct (signed_account m w i a Hm Hs) as [Ha Hok].
  apply (moves_same_key m a); try done; [|unfold stake_total; simpl; lia].
  destruct Hok as (?&?&?&?&?&?&?). staked_ok.
Qed.

Lemma deposit_balanced m tx info amount a' :
  accmap_ok m → address_ok (to_staked_account tx) → coin_ok amount → is_u64 (previous_block_time info) →
  (∀ a, m !! to_stake_key (to_staked_account tx) = Some a → is_jailed a = false) →
  deposited tx info (m !! to_stake_key (to_staked_account tx)) amount = Some a' →
  staked_key a' = to_stake_key (to_staked_account tx) ∧ account_moves m a' amount.
Proof.
  intros Hm Haddr Ham Ht Hj Hd.
  destruct (m !! to_stake_key (to_staked_account tx)) as [a|] eqn:Ha; simpl in Hd.
  - destruct (staked_key_lookup m _ a Hm Ha) as [Hk Hok]. apply deposit_spec in Hd as [-> Hle].
    assert (Ha' : m !! staked_key a = Some a) by by rewrite Hk.
    pose proof Hok as (?&?&?&?&?&?&?). split; [done|].
    apply (moves_same_key m a); [done | done | staked_ok | exact (Hj a eq_refl) | unfold stake_total; simpl; lia | done].
  - injection Hd as <-. split; [done|]. unfold account_moves.
    change (staked_key _) with (to_stake_key (to_staked_account tx)). rewrite Ha.
    split; [staked_ok|]. split; [done|]. unfold stake_total. simpl. unfold coin_zero. split; [lia | done].
Qed.

(** *** Validation *)

(** What validation relies on: the accounts, the types of what goes into a request to
    the enclave, and a connection to it that keeps the contract. *)
Definition info_typed (self : ChainNodeApp) (s : ChainNodeState) : Prop :=
  is_u64 (block_time s) ∧ is_u8 (app_chain_hex_id self)
  ∧ is_u32 (get_unbonding_period (params_of s)) ∧ proxy_inv (tx_validator self).
Definition tx_inv (self : ChainNodeApp) (s : ChainNodeState) (m : accmap) : Prop :=
  last_state self = Some s ∧ app_holds self m ∧ info_typed self s.

(** The inputs that are public are recorded as unspent. *)
Definition inputs_unspent (self : ChainNodeApp) (txaux : TxAux) : Prop :=
  match txaux with
  | EnclaveTx (TransferTx _ _ _) | EnclaveTx (DepositStakeTx _ _) =>
      check_spent_input_lookup (tx_spends txaux) (storage self) = Ok ()
  | _ => True
  end.

Lemma inputs_unspent_cases self txaux :
  inputs_unspent self txaux →
  tx_spends txaux = [] ∨ check_spent_input_lookup (tx_spends txaux) (storage self) = Ok ().
Proof. destruct txaux as [[]| | |]; auto. Qed.

Definition tx_accepted (self : ChainNodeApp) (s : ChainNodeState) (m : accmap) (min_fee : Fee)
    (txaux : TxAux) (fee : Fee) (acc : option StakedState) (spent created : Z) : Prop :=
  tx_moves (tx_chain_info self s min_fee) (tx_node_info self s) m txaux fee acc spent created
  ∧ balanced m acc fee spent created ∧ coin_ok fee ∧ inputs_unspent self txaux.

Lemma ask_enclave_inv p tx account info r p' :
  ask_enclave p tx account info = Some (Ok r, p') →
  process_request p (new_tx_request tx account info) = Some (RespVerifyTx (Ok r), p').
Proof.
  unfold ask_enclave. destruct (process_request _ _) as [[[]]|]; simpl; try done.
  by intros [= -> ->].
Qed.

Lemma request_ok self s min_fee tx account :
  info_typed self s → coin_ok min_fee → enclave_aux_ok tx → option_ok staked_state_ok account →
  verify_request_ok {| req_tx := tx; req_account := account;
                       req_info := tx_chain_info self s min_fee |}.
Proof. intros (?&?&?&_) Hf Ht Ha. by split_and!. Qed.

Lemma transfer_accepted self s m min_fee ins n payload fee acc p' :
  info_typed self s → coin_ok min_fee → enclave_aux_ok (TransferTx ins n payload) →
  verify_enclave_tx (tx_validator self) (TransferTx ins n payload) (tx_chain_info self s min_fee)
    (uncommitted_account_root_hash self) (storage self) (accounts self) = Some (Ok (fee, acc), p') →
  ∃ spent created,
    tx_accepted self s m min_fee (EnclaveTx (TransferTx ins n payload)) fee acc spent created.
Proof.
  intros Hi Hmin Hty Hv. cbn [verify_enclave_tx] in Hv.
  destruct (check_spent_input_lookup ins (storage self)) as [[]|] eqn:Ec; [|done].
  apply ask_enclave_inv, contract_transfer in Hv; [|apply Hi|by apply request_ok].
  destruct Hv as (-> & tx & w & src & Ho & Hid & Hn & Hsrc & Hout & Hv).
  apply verify_transfer_ok in Hv as (_ & vs & t & Hs & Hp & Hf); [|done..].
  exists (sum_by Datatypes.id vs), t. split; [|split; [|split]].
  - split; [done|]. exists tx, w, src, vs. rewrite Hid in Hs. by split_and!.
  - by destruct Hf.
  - destruct Hf as [Hf Hle]. simpl in Hle. destruct Hs as (_&_&_&_&?), Hp as (_&Hp&->).
    assert (0 ≤ sum_by out_value (outputs tx)); [|ints].
    apply sum_by_nonneg. eapply Forall_impl; [exact Hp|]. simpl. lia.
  - exact Ec.
Qed.

Lemma deposit_accepted self s m min_fee tx payload fee acc p' :
  tx_inv self s m → coin_ok min_fee → enclave_aux_ok (DepositStakeTx tx payload) →
  verify_enclave_tx (tx_validator self) (DepositStakeTx tx payload) (tx_chain_info self s min_fee)
    (uncommitted_account_root_hash self) (storage self) (accounts self) = Some (Ok (fee, acc), p') →
  ∃ spent created,
    tx_accepted self s m min_fee (EnclaveTx (DepositStakeTx tx payload)) fee acc spent created.
Proof.
  intros (Hs & Hm & Ht) Hmin Hty Hv. pose proof (proj1 (proj2 (proj1 Hty))) as Haddr.
  cbn [verify_enclave_tx] in Hv.
  rewrite (get_account_holds _ _ _ _ Hm) in Hv.
  set (k := to_stake_key (to_staked_account tx)) in *.
  replace (match ok_or (m !! k) AccountNotFound with
           | Ok a => Ok (Some a) | Err AccountNotFound => Ok None | Err e => Err e end)
    with (@Ok Error _ (m !! k)) in Hv by by destruct (m !! k).
  destruct (match m !! k with Some a => verify_unjailed a | None => Ok () end) as [[]|] eqn:Ej; [|done].
  assert (Hj : ∀ a, m !! k = Some a → is_jailed a = false).
  { intros a Ha. rewrite Ha in Ej. by apply verify_unjailed_ok in Ej. }
  cbn [mbind] in Hv.
  destruct (check_spent_input_lookup (deposit_inputs tx) (storage self)) as [[]|] eqn:Ec; [|done].
  simpl in Hv. apply ask_enclave_inv, contract_deposit in Hv as (w & src & Ho & Hsrc & Hv);
    [|apply Ht|apply request_ok; [done..|]; destruct (m !! k) as [a|] eqn:Ea; [by eapply Hm | done] | done].
  rewrite verify_bonded_deposit_unfold in Hv by done.
  destruct (verify_bonded_deposit_core _ _ _ _) as [[c|]|] eqn:E; [|done|done]. cbn [run_bind] in Hv.
  pose proof (deposit_core_coin_ok _ _ _ _ _ Hsrc E).
  apply verify_bonded_deposit_core_ok in E as (_ & (vs & Hsp & ->) & Hlt); [|done].
  simpl in Hv, Hlt. destruct (deposited _ _ _ _) as [a'|] eqn:Ed; [|done]. injection Hv as <- <-.
  destruct (deposit_balanced m tx (tx_chain_info self s min_fee) (sum_by Datatypes.id vs - min_fee) a')
    as [Hk Hb]; [by destruct Hm | done | ints | apply Ht | done | done |].
  exists (sum_by Datatypes.id vs), 0. split; [|split; [|split; [done | exact Ec]]].
  - split; [done|]. split; [done|]. split; [by exists w, src, vs|]. split; [done|]. by exists a'.
  - simpl. by rewrite Z.sub_0_r.
Qed.

Lemma get_signed self m addr w i a :
  app_holds self m → verify_tx_recover_address w i = Ok addr →
  get_account addr (uncommitted_account_root_hash self) (accounts self) = Ok a → signed_by m w i a.
Proof. intros Hm Hr Ha. exists addr. split; [done|]. by apply (get_account_Ok _ _ _ _ _ Hm). Qed.

Lemma withdraw_accepted self s m min_fee n w payload fee acc p' :
  tx_inv self s m → coin_ok min_fee → enclave_aux_ok (WithdrawUnbondedStakeTx n w payload) →
  verify_enclave_tx (tx_validator self) (WithdrawUnbondedStakeTx n w payload)
    (tx_chain_info self s min_fee) (uncommitted_account_root_hash self) (storage self)
    (accounts self) = Some (Ok (fee, acc), p') →
  ∃ spent created, tx_accepted self s m min_fee
    (EnclaveTx (WithdrawUnbondedStakeTx n w payload)) fee acc spent created.
Proof.
  intros (Hs & Hm & Ht) Hmin Hty Hv. cbn [verify_enclave_tx] in Hv.
  destruct (verify_tx_recover_address w (txid payload)) as [addr|] eqn:Er; [|done].
  destruct (get_account addr _ _) as [a|] eqn:Ea; [|done]. simpl in Hv.
  pose proof (get_signed self m addr w _ a Hm Er Ea) as Hsig.
  destruct (signed_account m w _ a (proj2 Hm) Hsig) as [_ Ha]. pose proof Ha as (_&_&Hu&_).
  destruct (verify_unjailed a); [|done]. simpl in Hv.
  apply ask_enclave_inv, contract_withdraw in Hv as (tx & Ho & Hid & Hn & Hout & Hv);
    [|apply Ht | by apply request_ok].
  apply verify_unbonded_withdraw_ok in Hv as [Hw ->]; [|done..].
  exists 0, (sum_by out_value (withdraw_outputs tx)). split; [|split; [|split; [|done]]].
  - split; [done|]. exists a, tx. by split_and!.
  - by eapply withdraw_balanced; [apply Hm | |].
  - destruct Hw as (_&_&_&_&_&t&(_&Hp&->)&[Hf Hle]). simpl in Hle.
    assert (0 ≤ sum_by out_value (withdraw_outputs tx)); [|ints].
    apply sum_by_nonneg. eapply Forall_impl; [exact Hp|]. simpl. lia.
Qed.

Lemma public_accepted self s m min_fee txaux fee acc :
  tx_inv self s m → coin_ok min_fee → tx_aux_ok txaux →
  verify_public_tx txaux (tx_chain_info self s min_fee) (tx_node_info self s)
    (uncommitted_account_root_hash self) (accounts self) = Some (Ok (fee, acc)) →
  ∃ spent created, tx_accepted self s m min_fee txaux fee acc spent created.
Proof.
  intros (Hs & Hm & Ht) Hmin Hty Hv. pose proof (proj2 Hm) as Hok. exists 0, 0.
  destruct txaux as [|tx w|tx w|tx w]; [done|..]; cbn [verify_public_tx] in Hv;
    (destruct (verify_tx_recover_address w _) as [addr|] eqn:Er; [|done]);
    (destruct (get_account addr _ _) as [a|] eqn:Ea; [|done]); cbn [run_bind] in Hv;
    pose proof (get_signed self m addr w _ a Hm Er Ea) as Hsig;
    destruct (signed_account m w _ a Hok Hsig) as [_ Ha].
  - apply verify_unbonding_inv in Hv as (Hu & -> & a' & -> & Ea'); [|done|apply Hty|done].
    split; [|split; [|split; [done | done]]].
    + do 3 (split; [done|]). by exists a, a'.
    + eapply unbond_balanced; [done | done | done | apply Hty | by destruct Hmin | apply as_u64_range | done].
  - injection Hv as Hv. apply verify_unjailing_ok in Hv as [Hu [= -> ->]].
    split; [|split; [|split; [ints | done]]]; [|by eapply unjail_balanced].
    do 3 (split; [done|]). by exists a.
  - injection Hv as Hv. apply verify_node_join_ok in Hv as [Hu [= -> ->]].
    split; [|split; [|split; [ints | done]]]; [|eapply join_balanced; [done | done | done | apply Hty]].
    do 3 (split; [done|]). by exists a.
Qed.

Lemma set_validator_id self : set_validator self (tx_validator self) = self.
Proof. by destruct self. Qed.

Lemma verify_enclave_tx_keeps p etx info root db accs r p' :
  proxy_inv p → verify_enclave_tx p etx info root db accs = Some (r, p') → proxy_inv p'.
Proof.
  intros Hp. assert (Hask : ∀ acc, ask_enclave p etx acc info = Some (r, p') → proxy_inv p').
  { intros acc. unfold ask_enclave. destruct (process_request _ _) as [[resp q]|] eqn:Eq; [|done].
    intros [= _ <-]. by eapply proxy_inv_step. }
  unfold verify_enclave_tx. repeat case_match; try (by intros [= _ <-]); apply Hask.
Qed.

(** Validation asks the enclave at most once and changes nothing else. *)
Lemma handle_tx_frame self txaux len r self' :
  proxy_inv (tx_validator self) → handle_tx self txaux len = Some (r, self') →
  ∃ v, self' = set_validator self v ∧ proxy_inv v.
Proof.
  unfold handle_tx. intros Hpi Hh. destruct (last_state self) as [s|]; [|done]. simpl in Hh.
  destruct (unwrap _) as [f|]; [|done]. simpl in Hh.
  destruct txaux; [destruct (verify_enclave_tx _ _ _ _ _ _) as [[r' v]|] eqn:Ev; [|done] |
    destruct (verify_public_tx _ _ _ _ _); [|done] ..]; simpl in Hh; injection Hh as <- <-;
    [eexists; split; [done | by eapply verify_enclave_tx_keeps] |
     by exists (tx_validator self); rewrite set_validator_id ..].
Qed.

Lemma handle_tx_accepted self s m txaux len fee acc self' :
  tx_inv self s m → tx_aux_ok txaux →
  handle_tx self txaux len = Some (Ok (fee, acc), self') →
  ∃ min_fee spent created, params_calculate_fee (params_of s) len = Ok min_fee
    ∧ tx_accepted self s m min_fee txaux fee acc spent created.
Proof.
  intros Hinv Hty Hh. unfold handle_tx in Hh. rewrite (proj1 Hinv) in Hh. simpl in Hh.
  destruct (params_calculate_fee (params_of s) len) as [f|] eqn:Ef; [|done]. simpl in Hh.
  exists f. pose proof (calculate_fee_range _ _ _ Ef) as Hf.
  cut (∃ spent created, tx_accepted self s m f txaux fee acc spent created); [naive_solver|].
  destruct txaux as [etx|tx w|tx w|tx w].
  - destruct (verify_enclave_tx _ _ _ _ _ _) as [[r v]|] eqn:Ev; [|done]. simpl in Hh. injection Hh as -> <-.
    destruct etx; [eapply transfer_accepted; by try apply Hinv | by eapply deposit_accepted
                  | by eapply withdraw_accepted].
  - destruct (verify_public_tx _ _ _ _ _) eqn:Ev; [|done]. simpl in Hh. injection Hh as -> <-. by eapply public_accepted.
  - destruct (verify_public_tx _ _ _ _ _) eqn:Ev; [|done]. simpl in Hh. injection Hh as -> <-. by eapply public_accepted.
  - destruct (verify_public_tx _ _ _ _ _) eqn:Ev; [|done]. simpl in Hh. injection Hh as -> <-. by eapply public_accepted.
Qed.

(** *** Delivery *)

(** The accounts after an accepted transaction. *)
Definition accounts_after (m : accmap) (acc : option StakedState) : accmap :=
  match acc with Some a => <[staked_key a := a]> m | None => m end.

Lemma accounts_after_total m acc fee spent created :
  balanced m acc fee spent created →
  total_stake (accounts_after m acc) + fee + created = total_stake m + spent.
Proof.
  destruct acc as [a|]; simpl; [|lia]. intros (_ & _ & Ha).
  rewrite total_stake_insert. destruct (m !! staked_key a); simpl; lia.
Qed.

(** Another step of the same delivery: the parts of the application it leaves. *)
Definition same_tx_env (self self' : ChainNodeApp) : Prop :=
  storage self' = storage self ∧ delivered_txs self' = delivered_txs self
  ∧ last_state self' = last_state self ∧ voting_power self' = voting_power self
  ∧ app_chain_hex_id self' = app_chain_hex_id self ∧ tx_validator self' = tx_validator self
  ∧ genesis_app_hash self' = genesis_app_hash self.

Lemma moves_acc_cases self s m min_fee txaux fee acc spent created :
  tx_accepted self s m min_fee txaux fee acc spent created →
  (acc = None ∧ ∃ ins n payload, txaux = EnclaveTx (TransferTx ins n payload))
  ∨ ∃ a, acc = Some a ∧ account_moves m a (spent - created - fee)
         ∧ (∀ tx w, txaux = NodeJoinTx tx w → council_node a = Some (node_meta tx))
         ∧ ∀ ins n payload, txaux ≠ EnclaveTx (TransferTx ins n payload).
Proof.
  intros (Hmv & Hb & _). destruct acc as [a|].
  - right. exists a. split; [done|]. split; [done|]. split.
    + intros tx w ->. by destruct Hmv as (_ & _ & _ & b & _ & _ & [= ->]).
    + intros ins n payload ->. by destruct Hmv.
  - left. split; [done|]. destruct txaux as [[]| | |]; [by eauto|..]; exfalso.
    + by destruct Hmv as (_ & _ & _ & _ & ? & ? & _).
    + by destruct Hmv as (_ & a & tx & _ & _ & _ & _ & _ & _ & ?).
    + by destruct Hmv as (_ & _ & _ & b & b' & _ & _ & _ & ?).
    + by destruct Hmv as (_ & _ & _ & b & _ & _ & ?).
    + by destruct Hmv as (_ & _ & _ & b & _ & _ & ?).
Qed.

Lemma same_tx_env_refl self : same_tx_env self self.
Proof. done. Qed.

Lemma deliver_account_spec self s m min_fee txaux fee acc spent created :
  app_holds self m → tx_accepted self s m min_fee txaux fee acc spent created →
  ∃ root self', deliver_account self txaux acc = Some (root, acc, self')
    ∧ same_tx_env self self' ∧ uncommitted_account_root_hash self' = uncommitted_account_root_hash self
    ∧ holds (accounts self') root (accounts_after m acc) ∧ keeps (accounts self) (accounts self').
Proof.
  intros Hm Hacc.
  destruct (moves_acc_cases _ _ _ _ _ _ _ _ _ Hacc) as [(-> & ins & n & p & ->)|(a & -> & Hmv & Hj & Hnt)].
  { exists (uncommitted_account_root_hash self), self. split_and!; try done. apply keeps_refl. }
  destruct Hmv as (Ha & _).
  destruct (update_account_holds _ _ _ a Hm Ha) as (r & accs & Eu & Hh & Hk).
  assert (Hupd : ∀ t, (∀ tx w, t ≠ NodeJoinTx tx w) →
    (∀ ins n p, t ≠ EnclaveTx (TransferTx ins n p)) → deliver_account self t (Some a)
     = Some (r, Some a, set_accounts self (uncommitted_account_root_hash self) accs)).
  { intros t Ht Ht'. destruct t as [[]| | |]; simpl; rewrite ?Eu; try done; exfalso; [by eapply Ht' | by eapply Ht]. }
  destruct txaux as [etx|tx w|tx w|tx w].
  1-3: exists r, (set_accounts self (uncommitted_account_root_hash self) accs); rewrite Hupd by done; by split_and!.
  cbn [deliver_account]. simpl. rewrite (Hj tx w eq_refl). simpl.
  destruct Ha as (_ & Hb & _). rewrite (proj1 (vote_power_from_coin_ok _ Hb)). simpl. rewrite Eu. simpl.
  eexists r, _. by split_and!.
Qed.

Lemma deliver_power_spec self s acc :
  last_state self = Some s → params_ok (params_of s) →
  (∀ a, acc = Some a → staked_state_ok a ∧ is_jailed a = false) →
  ∃ powers, deliver_power self acc = Some (set_power_changed self powers).
Proof.
  intros Hs (_ & Hst & _) Hacc. unfold deliver_power.
  assert (Hid : self = set_power_changed self (power_changed_in_block self)) by by destruct self.
  destruct acc as [a|]; [|by eexists; f_equal]. destruct (Hacc a eq_refl) as [(_ & Hb & _) Hj].
  case_decide; [|by eexists; f_equal]. rewrite Hj, Hs. simpl.
  change (coin_ok (get_required_council_node_stake (params_of s))) in Hst.
  rewrite (proj1 (vote_power_from_coin_ok _ Hst)). simpl.
  rewrite (proj1 (vote_power_from_coin_ok _ Hb)). simpl.
  repeat case_match; eexists; (reflexivity || by f_equal).
Qed.

Lemma deliver_utxos_spec self txaux :
  tx_aux_ok txaux → inputs_unspent self txaux →
  ∃ ops, deliver_utxos self txaux = Some ops
    ∧ ∀ p, 0 ≤ index p → utxo_status (db_view (db_write_buffered (storage self) ops)) p
         = if decide (p ∈ tx_spends txaux) then Some true else utxo_status (db_view (storage self)) p.
Proof.
  intros Hi%tx_spends_ok Hc. assert (Hi' : Forall (λ p, 0 ≤ index p) (tx_spends txaux)).
  { eapply Forall_impl; [exact Hi|]. simpl. intros p [_ ?]. ints. }
  assert (Hd : deliver_utxos self txaux = spend_utxos (tx_spends txaux) (storage self) [])
    by by destruct txaux as [[]| | |].
  rewrite Hd. destruct (inputs_unspent_cases _ _ Hc) as [E|Hc']; [|by apply spend_checked].
  rewrite E. exists []. split; [done|]. intros p _.
  rewrite db_write_buffered_view, decide_False by set_solver. done.
Qed.

(** The application after an accepted transaction. *)
Definition tx_delivered (self : ChainNodeApp) (s : ChainNodeState) (m : accmap) (txaux : TxAux)
    (fee : Fee) (acc : option StakedState) (self' : ChainNodeApp) (s' : ChainNodeState) : Prop :=
  last_state self' = Some s'
  ∧ s' = set_pool s (with_bonus (pool_of s) (period_bonus (pool_of s) + fee))
  ∧ app_holds self' (accounts_after m acc) ∧ keeps (accounts self) (accounts self')
  ∧ delivered_txs self' = delivered_txs self ++ [txaux] ∧ rewards_pool_updated self' = true
  ∧ voting_power self' = voting_power self ∧ app_chain_hex_id self' = app_chain_hex_id self
  ∧ proxy_inv (tx_validator self')
  ∧ ∀ p, 0 ≤ index p → utxo_status (db_view (storage self')) p
       = if decide (p ∈ tx_spends txaux) then Some true else utxo_status (db_view (storage self)) p.

Lemma validate_tx_req_cases self s m tx code self1 mtx :
  tx_inv self s m → validate_tx_req self tx = Some (code, self1, mtx) →
  (∃ v, self1 = set_validator self v ∧ proxy_inv v)
  ∧ match mtx with
    | None => code = 1
    | Some (txaux, (fee, acc)) => code = 0 ∧ decode tx_aux_codec tx = Some txaux
        ∧ tx_aux_ok txaux
        ∧ ∃ min_fee spent created,
            params_calculate_fee (params_of s) (Z.of_nat (length tx)) = Ok min_fee
            ∧ tx_accepted self s m min_fee txaux fee acc spent created
    end.
Proof.
  intros Hinv Hv. unfold validate_tx_req in Hv. destruct (decode tx_aux_codec tx) as [txaux|] eqn:Ed.
  2: { injection Hv as <- <- <-. split; [|done]. exists (tx_validator self). rewrite set_validator_id. by split; [|apply Hinv]. }
  destruct (handle_tx self txaux (Z.of_nat (length tx))) as [[r self2]|] eqn:Eh; [|done]. simpl in Hv.
  pose proof (handle_tx_frame _ _ _ _ _ ltac:(apply Hinv) Eh) as Hf. pose proof (tx_aux_typed _ _ Ed) as Hty.
  destruct r as [[fee acc]|e]; injection Hv as <- <- <-; [|by split].
  split; [done|]. do 3 (split; [done|]). by eapply handle_tx_accepted.
Qed.

Lemma balanced_account m acc fee spent created :
  balanced m acc fee spent created → ∀ a, acc = Some a → staked_state_ok a ∧ is_jailed a = false.
Proof. intros Hb a ->. by destruct Hb as (? & ? & _). Qed.

Lemma deliver_tx_spec self s m tx self1 txaux fee acc min_fee spent created :
  tx_inv self s m → params_ok (params_of s) →
  validate_tx_req self tx = Some (0, self1, Some (txaux, (fee, acc))) →
  tx_accepted self s m min_fee txaux fee acc spent created → tx_aux_ok txaux →
  (MAX_COIN < period_bonus (pool_of s) + fee → deliver_tx self tx = None)
  ∧ (period_bonus (pool_of s) + fee ≤ MAX_COIN →
     ∃ self' s', deliver_tx self tx
         = Some (self', {| resp_code := 0; resp_events := [valid_tx_event fee acc txaux] |})
       ∧ tx_delivered self s m txaux fee acc self' s').
Proof.
  intros Hinv Hp Hv Hacc Hty.
  destruct (validate_tx_req_cases _ _ _ _ _ _ _ Hinv Hv) as [(v & -> & Hpv) _].
  destruct Hinv as (Hs & Hm & Ht). unfold deliver_tx. rewrite Hv. simpl.
  destruct (deliver_utxos_spec (set_validator self v) txaux Hty ltac:(by destruct Hacc as (_&_&_&?)))
    as (ops & -> & Hops). simpl.
  destruct (deliver_account_spec (set_validator self v) s m min_fee txaux fee acc spent created)
    as (root & self2 & -> & (Est & Edl & Els & Evp & Eid & Etv & _) & Er & Hh & Hk); [done | done|]. simpl.
  destruct (deliver_power_spec self2 s acc) as [powers ->]; [by rewrite Els | done | |].
  { eapply balanced_account, Hacc. }
  simpl. rewrite Els. simpl. rewrite Hs. simpl. unfold fee_to_coin.
  destruct (coin_add (period_bonus (pool_of s)) fee) as [b|] eqn:Eb; simpl.
  - apply coin_add_ok in Eb as [-> ?]. split; [lia|]. intros _.
    eexists _, _. split; [reflexivity|]. unfold tx_delivered. simpl.
    rewrite Edl, Evp, Eid, Est, Etv. by split_and!.
  - split; [done|]. intros Hle. by rewrite (proj2 (coin_add_ok _ _ _) (conj eq_refl Hle)) in Eb.
Qed.

Lemma delivered_supply self s m txaux fee acc spent created self' s' :
  balanced m acc fee spent created → tx_delivered self s m txaux fee acc self' s' →
  supply s' (accounts_after m acc) + created = supply s m + spent.
Proof.
  intros Hb (_ & -> & _). pose proof (accounts_after_total m acc fee spent created Hb).
  unfold supply, pool_of, set_pool. simpl. unfold pool_of in *. lia.
Qed.

Lemma delivered_inv self s m txaux fee acc self' s' :
  tx_inv self s m → tx_delivered self s m txaux fee acc self' s' →
  tx_inv self' s' (accounts_after m acc).
Proof.
  intros (_ & _ & Ht) (Hs' & Es' & Hm' & _ & _ & _ & _ & Eid & Hpi & _). split; [done|]. split; [done|].
  destruct Ht as (? & ? & ? & _). unfold info_typed. rewrite Eid, Es'. by split_and!.
Qed.

Lemma refused_inv self s m v : tx_inv self s m → proxy_inv v → tx_inv (set_validator self v) s m.
Proof. intros (? & ? & ? & ? & ? & _) Hv. split; [done|]. split; [done|]. by split_and!. Qed.

(** *** Sequences of transactions *)

Fixpoint deliver_all (self : ChainNodeApp) (txs : list (list byte)) : option ChainNodeApp :=
  match txs with
  | [] => Some self
  | tx :: txs => '(self, _) ← deliver_tx self tx; deliver_all self txs
  end.

Definition nonces_below (m : accmap) (n : Z) : Prop := ∀ k a, m !! k = Some a → nonce a < n.

(** A staking operation names a nonce its account is past. *)
Definition stale (m : accmap) (w : StakedStateOpWitness) (i : TxId) (n : Z) : Prop :=
  ∃ a, signed_by m w i a ∧ n < nonce a.

(** A transaction that has been delivered. *)
Definition used (self : ChainNodeApp) (m : accmap) (txaux : TxAux) : Prop :=
  match txaux with
  | EnclaveTx (WithdrawUnbondedStakeTx _ w payload) =>
      ∃ tx, enclave_open payload = Some (PlainWithdrawUnbondedStakeTx tx)
            ∧ stale m w (txid payload) (withdraw_nonce tx)
  | EnclaveTx _ => ∃ p, p ∈ tx_spends txaux ∧ 0 ≤ index p
                        ∧ utxo_status (db_view (storage self)) p = Some true
  | UnbondStakeTx tx w => stale m w (transaction_id unbond_codec tx) (unbond_nonce tx)
  | UnjailStakeTx tx w => stale m w (transaction_id unjail_codec tx) (unjail_nonce tx)
  | NodeJoinTx tx w => stale m w (transaction_id node_join_codec tx) (join_nonce tx)
  end.

Lemma signed_by_inj m w i a b : signed_by m w i a → signed_by m w i b → a = b.
Proof. intros (x & Hx & Ha) (y & Hy & Hb). congruence. Qed.

Lemma stale_not_next m w i n a : stale m w i n → signed_by m w i a → n ≠ nonce a.
Proof. intros (b & Hb & Hlt) Ha. rewrite (signed_by_inj m w i a b Ha Hb). lia. Qed.

Lemma used_not_accepted self s m min_fee txaux fee acc spent created :
  used self m txaux → ¬ tx_accepted self s m min_fee txaux fee acc spent created.
Proof.
  intros Hu (Hmv & _ & _ & Hin).
  assert (Hsp : (∃ p, p ∈ tx_spends txaux ∧ 0 ≤ index p
      ∧ utxo_status (db_view (storage self)) p = Some true) → False).
  { intros (p & Hp & _ & Hs). destruct (inputs_unspent_cases _ _ Hin) as [E|E]; [rewrite E in Hp; set_solver|].
    destruct (check_spent_refuses _ _ _ Hp Hs). congruence. }
  destruct txaux as [[]|tx w|tx w|tx w]; try by apply Hsp.
  - destruct Hu as (tx & Ho & Hst), Hmv as (_ & a & tx' & Hsig & Ho' & _ & _ & (_&_&Hn&_) & _).
    rewrite Ho in Ho'. injection Ho' as <-. by apply (stale_not_next _ _ _ _ _ Hst Hsig).
  - destruct Hmv as (_ & _ & _ & a & a' & Hsig & (_&_&_&Hn&_) & _).
    by apply (stale_not_next _ _ _ _ _ Hu Hsig).
  - destruct Hmv as (_ & _ & _ & a & Hsig & (_&Hn&_) & _).
    by apply (stale_not_next _ _ _ _ _ Hu Hsig).
  - destruct Hmv as (_ & _ & _ & a & Hsig & (_&_&Hn&_) & _).
    by apply (stale_not_next _ _ _ _ _ Hu Hsig).
Qed.

(** An accepted transaction moves the nonces forward. *)
Lemma accounts_after_nonce m acc fee spent created k a :
  balanced m acc fee spent created → nonces_below m U64_MAX → accmap_ok m → m !! k = Some a →
  ∃ b, accounts_after m acc !! k = Some b ∧ nonce a ≤ nonce b
       ∧ (∀ c, acc = Some c → k = staked_key c → nonce b = nonce a + 1).
Proof.
  intros Hb Hn Hok Ha. destruct acc as [c|]; [|by exists a; split_and!]. simpl in *.
  destruct (decide (k = staked_key c)) as [->|Hne].
  - rewrite lookup_insert_eq. exists c. destruct Hb as (_ & _ & Hb). rewrite Ha in Hb.
    destruct Hb as [_ Hc]. destruct (Hok _ _ Ha) as [_ [Hu _]]. specialize (Hn _ _ Ha).
    rewrite as_u64_small in Hc by ints. split_and!; [done | lia | done].
  - rewrite lookup_insert_ne by done. exists a. split_and!; [done | lia |]. by intros ? [= <-].
Qed.

Lemma accounts_after_below m acc fee spent created n :
  balanced m acc fee spent created → accmap_ok m → nonces_below m n → 0 < n ≤ U64_MAX →
  nonces_below (accounts_after m acc) (n + 1).
Proof.
  intros Hb Hok Hm Hn k a Ha. destruct acc as [c|]; simpl in *; [|by specialize (Hm _ _ Ha); lia].
  destruct (decide (k = staked_key c)) as [->|Hne].
  - rewrite lookup_insert_eq in Ha. injection Ha as <-. destruct Hb as (_ & _ & Hb).
    destruct (m !! staked_key c) as [b|] eqn:E; [|lia]. destruct Hb as [_ ->].
    destruct (Hok _ _ E) as [_ [Hu _]]. specialize (Hm _ _ E). rewrite as_u64_small by ints. lia.
  - rewrite lookup_insert_ne in Ha by done. specialize (Hm _ _ Ha). lia.
Qed.

Lemma stale_after m acc fee spent created w i n :
  balanced m acc fee spent created → nonces_below m U64_MAX → accmap_ok m →
  stale m w i n → stale (accounts_after m acc) w i n.
Proof.
  intros Hb Hn Hok (a & (addr & Hr & Ha) & Hlt).
  destruct (accounts_after_nonce _ _ _ _ _ _ _ Hb Hn Hok Ha) as (b & Hb' & Hle & _).
  exists b. split; [by exists addr | lia].
Qed.

Lemma stale_signed m a' fee spent created w i a :
  balanced m (Some a') fee spent created → nonces_below m U64_MAX → accmap_ok m →
  signed_by m w i a → staked_key a' = staked_key a → stale (accounts_after m (Some a')) w i (nonce a).
Proof.
  intros Hb Hn Hok Hs Hk. destruct (signed_account _ _ _ _ Hok Hs) as [Ha _].
  destruct Hs as (addr & Hr & Ha'). destruct (staked_key_lookup m addr a Hok Ha') as [Hka _].
  destruct (accounts_after_nonce _ _ _ _ _ _ _ Hb Hn Hok Ha') as (b & Hb' & _ & Hnext).
  exists b. split; [by exists addr|]. rewrite (Hnext a'); [lia | done | congruence].
Qed.

Lemma used_kept self s m txaux fee acc spent created self' s' t :
  balanced m acc fee spent created → nonces_below m U64_MAX → accmap_ok m →
  tx_delivered self s m txaux fee acc self' s' →
  used self m t → used self' (accounts_after m acc) t.
Proof.
  intros Hb Hn Hok (_&_&_&_&_&_&_&_&_& Hu). pose proof (stale_after m acc fee spent created) as Hst.
  assert (Hsp : (∃ p, p ∈ tx_spends t ∧ 0 ≤ index p ∧ utxo_status (db_view (storage self)) p = Some true) →
    ∃ p, p ∈ tx_spends t ∧ 0 ≤ index p ∧ utxo_status (db_view (storage self')) p = Some true).
  { intros (p & Hp & Hi & Hs). exists p. split; [done|]. split; [done|]. rewrite Hu by done.
    by case_decide. }
  destruct t as [[]| | |]; simpl in *; eauto. intros (tx & ? & ?). eauto.
Qed.

Lemma used_after self s m min_fee txaux fee acc spent created self' s' :
  tx_accepted self s m min_fee txaux fee acc spent created → tx_aux_ok txaux →
  nonces_below m U64_MAX → accmap_ok m → tx_delivered self s m txaux fee acc self' s' →
  used self' (accounts_after m acc) txaux.
Proof.
  intros (Hmv & Hb & Hf & Hin) Hty Hn Hok (_&_&_&_&_&_&_&_&_& Hu). pose proof (tx_spends_ok _ Hty) as Hidx.
  assert (Hsp : inputs_unspent self txaux → tx_spends txaux ≠ [] →
    ∃ p, p ∈ tx_spends txaux ∧ 0 ≤ index p ∧ utxo_status (db_view (storage self')) p = Some true).
  { intros _ Hne. destruct (tx_spends txaux) as [|p ps] eqn:E; [done|]. exists p.
    apply Forall_cons in Hidx as [[_ Hp] _]. assert (0 ≤ index p) by ints.
    split; [set_solver|]. split; [done|]. rewrite Hu by done. apply decide_True. set_solver. }
  destruct txaux as [[ins n p|tx p|n w p]|tx w|tx w|tx w].
  - apply Hsp; [done|]. by apply check_spent_input_lookup_ok in Hin as [? _].
  - apply Hsp; [done|]. destruct Hmv as (_ & _ & (w & src & vs & _ & [Hne _] & _) & _). done.
  - destruct Hmv as (_ & a & tx & Hsig & Ho & _ & _ & (_&_&Hn'&_) & _ & ->).
    exists tx. split; [done|]. rewrite Hn'. by eapply stale_signed.
  - destruct Hmv as (_ & _ & _ & a & a' & Hsig & (_&_&_&Hn'&_) & Hun & ->). simpl. rewrite Hn'.
    eapply stale_signed; [done..|].
    destruct (signed_account _ _ _ _ Hok Hsig) as [_ (_&Hbo&_)].
    apply unbond_spec in Hun as (-> & _); [done | done | apply Hty | by destruct Hf].
  - destruct Hmv as (_ & _ & _ & a & Hsig & (_&Hn'&_) & ->). simpl. rewrite Hn'. by eapply stale_signed.
  - destruct Hmv as (_ & _ & _ & a & Hsig & (_&_&Hn'&_) & ->). simpl. rewrite Hn'. by eapply stale_signed.
Qed.

Definition seq_inv (self : ChainNodeApp) (s : ChainNodeState) (m : accmap) (n : Z) : Prop :=
  tx_inv self s m ∧ params_ok (params_of s) ∧ nonces_below m n.

(** A delivery that returns either refused the transaction or applied it. *)
Lemma deliver_tx_cases self s m tx self' r :
  tx_inv self s m → params_ok (params_of s) → deliver_tx self tx = Some (self', r) →
  (resp_code r = 1 ∧ ∃ v, self' = set_validator self v ∧ proxy_inv v)
  ∨ (resp_code r = 0 ∧ ∃ txaux fee acc min_fee spent created s',
       decode tx_aux_codec tx = Some txaux ∧ tx_aux_ok txaux
       ∧ tx_accepted self s m min_fee txaux fee acc spent created
       ∧ tx_delivered self s m txaux fee acc self' s').
Proof.
  intros Hinv Hp Hd.
  destruct (validate_tx_req self tx) as [[[code self1] mtx]|] eqn:Hv; [|by unfold deliver_tx in Hd; rewrite Hv in Hd].
  pose proof (validate_tx_req_cases _ _ _ _ _ _ _ Hinv Hv) as [(v & Hf & Hpv) Hc].
  destruct mtx as [[txaux [fee acc]]|].
  - destruct Hc as (-> & Hdec & Hty & min_fee & spent & created & _ & Hacc).
    destruct (deliver_tx_spec _ _ _ _ _ _ _ _ _ _ _ Hinv Hp Hv Hacc Hty) as [Hpanic Hok].
    assert (Hle : period_bonus (pool_of s) + fee ≤ MAX_COIN).
    { destruct (Z.le_gt_cases (period_bonus (pool_of s) + fee) MAX_COIN); [done|].
      rewrite Hpanic in Hd; [done | lia]. }
    destruct (Hok Hle) as (self2 & s' & E & Hdel). rewrite Hd in E. injection E as -> ->.
    right. split; [done|]. by exists txaux, fee, acc, min_fee, spent, created, s'.
  - unfold deliver_tx in Hd. rewrite Hv in Hd. simpl in Hd. injection Hd as <- <-. subst code self1.
    left. split; [done | by exists v].
Qed.

Lemma deliver_step self s m n tx self' r :
  seq_inv self s m n → 0 < n ≤ U64_MAX → deliver_tx self tx = Some (self', r) →
  (∃ s' m', seq_inv self' s' m' (n + 1) ∧ (∀ t, used self m t → used self' m' t)
     ∧ (resp_code r = 0 → ∀ t, decode tx_aux_codec tx = Some t → used self' m' t))
  ∧ (∀ t, decode tx_aux_codec tx = Some t → used self m t → resp_code r = 1).
Proof.
  intros (Hinv & Hp & Hn) Hb Hd.
  destruct (deliver_tx_cases _ _ _ _ _ _ Hinv Hp Hd) as [(Hr & v & -> & Hpv)|
    (Hr & txaux & fee & acc & min_fee & spent & created & s' & Hdec & Hty & Hacc & Hdel)].
  - split; [|done]. exists s, m. split; [|split; [done | congruence]].
    split; [by apply refused_inv|]. split; [done|]. intros k a Ha. specialize (Hn _ _ Ha). lia.
  - pose proof Hdel as (Hs' & Es' & Hm' & _).
    pose proof (delivered_inv _ _ _ _ _ _ _ _ Hinv Hdel) as Hinv'. destruct Hinv as (Hs & [_ Hm] & Ht).
    pose proof Hacc as (_ & Hbal & _).
    assert (Hn' : nonces_below m U64_MAX) by (intros k a Ha; specialize (Hn _ _ Ha); lia).
    split.
    + exists s', (accounts_after m acc). split_and!.
      * split; [done|]. split; [by rewrite Es' | by eapply accounts_after_below].
      * intros t Ht'. by eapply used_kept.
      * intros _ t E'. rewrite Hdec in E'. injection E' as <-. by eapply used_after.
    + intros t E' Hu. rewrite Hdec in E'. injection E' as <-. by edestruct used_not_accepted.
Qed.

Lemma deliver_all_used txs self s m n self' t :
  seq_inv self s m n → 0 < n → n + Z.of_nat (length txs) ≤ U64_MAX →
  deliver_all self txs = Some self' → used self m t →
  ∃ s' m', seq_inv self' s' m' (n + Z.of_nat (length txs)) ∧ used self' m' t.
Proof.
  revert self s m n. induction txs as [|tx txs IH]; intros self s m n Hinv Hn Hle Hd Hu.
  { injection Hd as <-. exists s, m. by rewrite Z.add_0_r. }
  cbn [deliver_all] in Hd. destruct (deliver_tx self tx) as [[self1 r]|] eqn:E; [|done]. simpl in Hd.
  cbn [length] in Hle |- *.
  destruct (deliver_step _ _ _ _ _ _ _ Hinv ltac:(lia) E) as [(s1 & m1 & Hinv1 & Hk & _) _].
  destruct (IH self1 s1 m1 (n + 1) Hinv1 ltac:(lia) ltac:(lia) Hd (Hk _ Hu)) as (s' & m' & ? & ?).
  exists s', m'. by replace (n + Z.of_nat (S (length txs))) with (n + 1 + Z.of_nat (length txs)) by lia.
Qed.
End spec.

(** ** Properties *)

(** C1. Delivering a transaction that validation refuses changes nothing but the
    state of the enclave and answers with code 1.  One it accepts is what its kind
    requires against the accounts and the outputs before it, and pays the fee of its
    kind: a transfer or a withdrawal at least the minimum for its size, a deposit or
    an unbonding exactly that, an unjailing or a joining nothing.  It is delivered
    without a panic, unless the fee takes the rewards pool past the supply.  Then its
    public inputs, which were recorded as unspent, are spent and no other output
    changed, the account is the one validation returned and no other changed, the fee
    is in the pool, and the amounts validation worked with balance: the accounts and the
    pool, with the coins of the new outputs, hold what the accounts and the pool held
    before with the coins of the inputs.  For a deposit these are the inputs that are
    marked as spent.  For a transfer they are the inputs of the transaction inside the
    payload: that the public inputs are the same ones is not among what acceptance
    means, because nothing in the enclave compares them. *)
Theorem deliver_tx_sound
  `{Hashes, Secp256k1, BitVecLaws, KeyValueDBLaws, ScaleLaws, StarlingLaws, Hex,
    !EnclaveProxy, !EnclaveContract} self s m tx code self1 mtx :
  tx_inv self s m → params_ok (params_of s) →
  validate_tx_req self tx = Some (code, self1, mtx) →
  match mtx with
  | None =>
      (∃ v, self1 = set_validator self v ∧ proxy_inv v)
      ∧ deliver_tx self tx = Some (self1, {| resp_code := 1; resp_events := [] |})
  | Some (txaux, (fee, acc)) =>
      decode tx_aux_codec tx = Some txaux
      ∧ ∃ min_fee spent created,
          params_calculate_fee (params_of s) (Z.of_nat (length tx)) = Ok min_fee
          ∧ tx_accepted self s m min_fee txaux fee acc spent created
          ∧ fee_due min_fee txaux fee
          ∧ (MAX_COIN < period_bonus (pool_of s) + fee → deliver_tx self tx = None)
          ∧ (period_bonus (pool_of s) + fee ≤ MAX_COIN →
             ∃ self' s', deliver_tx self tx
                 = Some (self', {| resp_code := 0; resp_events := [valid_tx_event fee acc txaux] |})
               ∧ tx_delivered self s m txaux fee acc self' s'
               ∧ supply s' (accounts_after m acc) + created = supply s m + spent)
  end.
Proof.
  intros Hinv Hp Hv. destruct (validate_tx_req_cases _ _ _ _ _ _ _ Hinv Hv) as [Hf Hc].
  destruct mtx as [[txaux [fee acc]]|].
  - destruct Hc as (-> & Hd & Hty & min_fee & spent & created & Hmin & Hacc). split; [done|].
    exists min_fee, spent, created. split; [done|]. split; [done|].
    split; [exact (moves_fee_due _ _ _ _ _ _ _ _ _ _ (proj1 Hacc))|].
    destruct (deliver_tx_spec _ _ _ _ _ _ _ _ _ _ _ Hinv Hp Hv Hacc Hty) as [Hpanic Hok].
    split; [done|]. intros Hle. destruct (Hok Hle) as (self' & s' & E & Hdel).
    exists self', s'. split; [done|]. split; [done|]. eapply delivered_supply; [apply Hacc | done].
  - split; [done|]. unfold deliver_tx. rewrite Hv. simpl. by rewrite Hc.
Qed.

(** C2. A transaction is delivered once: after it was accepted and whatever was
    delivered after it, the same bytes are refused, as long as no nonce reaches the
    end of its 64 bits. *)
Theorem deliver_no_replay
  `{Hashes, Secp256k1, BitVecLaws, KeyValueDBLaws, ScaleLaws, StarlingLaws, Hex,
    !EnclaveProxy, !EnclaveContract} self s m n tx self1 r txs self2 self3 r' :
  seq_inv self s m n → 0 < n → n + Z.of_nat (length txs) + 1 ≤ U64_MAX →
  deliver_tx self tx = Some (self1, r) → resp_code r = 0 →
  deliver_all self1 txs = Some self2 →
  deliver_tx self2 tx = Some (self3, r') →
  resp_code r' = 1.
Proof.
  intros Hinv Hn Hle Hd Hr Hall Hd'.
  destruct (deliver_step _ _ _ _ _ _ _ Hinv ltac:(lia) Hd) as [(s1 & m1 & Hinv1 & _ & Hu) _].
  destruct (decode tx_aux_codec tx) as [t|] eqn:Et.
  - destruct (deliver_all_used txs self1 s1 m1 (n + 1) self2 t Hinv1 ltac:(lia) ltac:(lia) Hall (Hu Hr t eq_refl))
      as (s2 & m2 & Hinv2 & Hu2).
    eapply deliver_step; [done | lia | done | done | done].
  - unfold deliver_tx, validate_tx_req in Hd'. rewrite Et in Hd'. simpl in Hd'. by simplify_eq.
Qed.

(** ** Witnesses *)

(** A transfer, accepted through the validation server. *)
Section transfer.
Import AppExample Validation.Example ServerExample.
#[local] Remove Hints reject_proxy : typeclass_instances.
#[local] Existing Instance validation_server_contract.

Definition cheap_params : InitNetworkParameters := {|
  initial_fee_policy := {| constant := 100000; coefficient := 0 |};
  required_council_node_stake := required_council_node_stake params_example;
  unbonding_period := unbonding_period params_example;
  jailing_config := jailing_config params_example;
  slashing_config := slashing_config params_example;
  rewards_config := rewards_config params_example;
  max_validators := max_validators params_example;
|}.

(** No accounts, and the output that the transfer spends. *)
Definition cheap_state : ChainNodeState :=
  with_top_level (state []) {| account_root := []; rewards_pool := rewards_pool_new 10 1000;
                               network_params := GenesisParams cheap_params |}.
Definition transfer_app : ChainNodeApp :=
  {| storage := ({[ (COL_TX_META, id pointer) := [Byte.x00] ]} : dbmap); accounts := trie_of [];
     delivered_txs := []; uncommitted_account_root_hash := [];
     genesis_app_hash := replicate 32 Byte.x00; app_chain_hex_id := 171;
     last_state := Some cheap_state; voting_power := ∅; power_changed_in_block := ∅;
     new_nodes_in_block := ∅; tx_validator := server; rewards_pool_updated := false;
     tx_query_address := None |}.
Definition transfer_aux : TxAux := EnclaveTx (TransferTx [pointer] 1 payload).
Definition transfer_bytes : list byte := enc tx_aux_codec transfer_aux.

Lemma cheap_params_ok : params_ok (GenesisParams cheap_params).
Proof.
  unfold params_ok, init_params_ok, fee_policy_ok, jailing_ok, slashing_ok, rewards_ok, is_slash_ratio.
  change MAX_SLASH_RATIO with 1000. simpl. ints.
Qed.

Lemma transfer_inv : tx_inv transfer_app cheap_state ∅.
Proof.
  split; [done|]. split; [apply (app_holds_example []); constructor|].
  split; [vm_compute; split; discriminate|]. split; [vm_compute; split; discriminate|].
  split; [vm_compute; split; discriminate | exact server_ok].
Qed.

Lemma transfer_validated :
  match validate_tx_req transfer_app transfer_bytes with
  | Some (_, _, Some (t, (fee, acc))) => fee =? 150
  | _ => false
  end = true.
Proof. vm_cast_no_check (@eq_refl bool true). Qed.

(** The fee of 150 pays the minimum of 100, the input is spent and the pool has the fee. *)
Lemma deliver_tx_sound_witness :
  ∃ self' s' acc spent created,
    deliver_tx transfer_app transfer_bytes
      = Some (self', {| resp_code := 0; resp_events := [valid_tx_event 150 acc transfer_aux] |})
    ∧ fee_due 100 transfer_aux 150
    ∧ period_bonus (pool_of s') = 150
    ∧ utxo_status (db_view (storage self')) pointer = Some true
    ∧ supply s' (accounts_after ∅ acc) + created = supply cheap_state ∅ + spent.
Proof.
  pose proof transfer_validated as Hm.
  destruct (validate_tx_req transfer_app transfer_bytes) as [[[code self1] mtx]|] eqn:Hv; [|discriminate Hm].
  pose proof (deliver_tx_sound transfer_app cheap_state ∅ transfer_bytes code self1
    mtx transfer_inv cheap_params_ok Hv) as Hd.
  destruct mtx as [[t [fee acc]]|]; [|discriminate Hm].
  apply Z.eqb_eq in Hm as ->.
  destruct Hd as (Hdec & min_fee & spent & created & Hmin & _ & Hdue & _ & Hok).
  assert (Ht : t = transfer_aux).
  { assert (Et : decode tx_aux_codec transfer_bytes = Some transfer_aux) by (vm_compute; reflexivity).
    rewrite Hdec in Et. injection Et as ->. reflexivity. }
  subst t. assert (E : min_fee = 100) by (vm_compute in Hmin; injection Hmin as <-; reflexivity).
  destruct Hok as (self' & s' & Hdel & (Hs & Es & _ & _ & _ & _ & _ & _ & _ & Hu) & Hsup);
    [vm_compute; discriminate|].
  exists self', s', acc, spent, created. split; [exact Hdel|]. split; [rewrite <- E; exact Hdue|].
  split; [rewrite Es; reflexivity|].
  split; [rewrite (Hu pointer) by (vm_compute; discriminate); apply decide_True; left | exact Hsup].
Defined.
End transfer.

Section witnesses.
Import AppExample.

(** An enclave that refuses every transaction keeps the contract. *)
#[local] Instance reject_contract : EnclaveContract.
Proof. refine {| enclave_open := λ _, None; proxy_inv := λ _, True |}; by intros. Defined.

Definition staker : list StakedState := [validator Byte.x00 6000000000000000000].
Definition unbond_example : TxAux :=
  UnbondStakeTx {| from_staked_account := addr Byte.x00; unbond_nonce := 0;
                   unbond_value := 1000000000000000000;
                   unbond_attributes := {| op_chain_hex_id := 171 |} |} (BasicRedeemSig Byte.x05).
Definition unbond_bytes : list byte := enc tx_aux_codec unbond_example.

Lemma staker_ok : Forall staked_state_ok staker.
Proof. apply Forall_singleton. unfold validator, new_init_bonded. staked_ok. Qed.

Lemma staker_inv : tx_inv (app staker) (state staker) (accmap_of staker).
Proof.
  split; [done|]. split; [apply app_holds_example, staker_ok|]. repeat split; vm_compute; discriminate.
Qed.

Lemma staker_params_ok : params_ok (params_of (state staker)).
Proof. apply params_example_ok. Qed.

(** The bytes are refused after another delivery, of bytes that do not decode. *)
Lemma deliver_no_replay_witness :
  ∃ self1 self2 self3 r r',
    deliver_tx (app staker) unbond_bytes = Some (self1, r) ∧ resp_code r = 0
    ∧ deliver_all self1 [[]] = Some self2
    ∧ deliver_tx self2 unbond_bytes = Some (self3, r') ∧ resp_code r' = 1.
Proof.
  assert (E : match deliver_tx (app staker) unbond_bytes with
              | Some (self1, r) => (resp_code r =? 0) &&
                  match deliver_all self1 [[]] with
                  | Some self2 => bool_decide (is_Some (deliver_tx self2 unbond_bytes))
                  | None => false
                  end
              | None => false
              end = true) by (vm_compute; reflexivity).
  destruct (deliver_tx (app staker) unbond_bytes) as [[self1 r]|] eqn:E1; [|discriminate E].
  apply andb_true_iff in E as [Hr%Z.eqb_eq E].
  destruct (deliver_all self1 [[]]) as [self2|] eqn:E2; [|discriminate E].
  destruct (deliver_tx self2 unbond_bytes) as [[self3 r']|] eqn:E3; [|discriminate E].
  exists self1, self2, self3, r, r'.
  split; [reflexivity|]. split; [exact Hr|]. split; [exact E2|]. split; [exact E3|].
  refine (deliver_no_replay (app staker) (state staker) (accmap_of staker) 1 unbond_bytes self1 r [[]]
           self2 self3 r' _ _ _ E1 Hr E2 E3); [|reflexivity | vm_compute; discriminate].
  split; [exact staker_inv|]. split; [exact staker_params_ok|].
  intros k a Ha. apply elem_of_list_to_map_2, list_elem_of_fmap in Ha as (b & [= -> ->] & Hb).
  apply list_elem_of_singleton in Hb as ->. simpl. lia.
Defined.
End witnesses.
