(* ===== verification/EndBlock.v ===== *)
(** * EndBlock: the changes of the validator set

    Models [src/chain-abci/src/app/end_block.rs]: the handler of the end of a block,
    which publishes the filter of the block, and [get_validator_updates], which
    maintains the index of council nodes by power and tells Tendermint what changed. *)

From stdpp Require Import base tactics option list gmap strings.
From Stdlib Require Import ZArith Lia.
From S2P Require Import Prelude Text Codec Milli Coin Crypto Merkle Params Account TxTypes.
From S2P Require Import Validation BitVec Events Filter Punishment Genesis Storage.
From S2P Require Import EnclaveProtocol AppState.

(** The fields of [ValidatorUpdate]: the public key with its type and the power. *)
Record ValidatorUpdate := { update_key : str * list byte; update_power : Z }.

Record ResponseEndBlock := {
  end_events : list Event;
  validator_updates : list ValidatorUpdate;
}.

Section end_block.
Context `{Hashes, Secp256k1, BitVecLib}.

(** ** The index of council nodes *)

Abbreviation powers := (gmap StakedStateAddress Z) (only parsing).
Abbreviation node_index := (gmap (Z * StakedStateAddress) CouncilNode) (only parsing).

(** Step 1 for one address; [new_nodes_in_block\[&address\]] panics when there is
    none. *)
Definition index_power (voting : powers) (new_nodes : gmap StakedStateAddress CouncilNode)
    (nodes : node_index) (change : StakedStateAddress * Z) : option node_index :=
  let '(address, new_power) := change in
  let old_power := default vote_power_zero (voting !! address) in
  if old_power =? new_power then Some nodes
  else
    let old_key := (old_power, address) in
    node ← match nodes !! old_key with Some node => Some node | None => new_nodes !! address end;
    Some (<[(new_power, address) := node]> (delete old_key nodes)).

Fixpoint index_powers (voting : powers) (new_nodes : gmap StakedStateAddress CouncilNode)
    (nodes : node_index) (changes : list (StakedStateAddress * Z)) : option node_index :=
  match changes with
  | [] => Some nodes
  | change :: changes =>
      nodes ← index_power voting new_nodes nodes change;
      index_powers voting new_nodes nodes changes
  end.

(** ** The validator set *)

(** The variables of step 2. *)
Record SetUpdate := {
  set_updates : list ValidatorUpdate;
  set_powers : powers;
  remaining_validators : powers;
  new_to_track : list (list byte * StakedStateAddress);
}.

Definition validator_update (node : CouncilNode) (power : Z) : ValidatorUpdate :=
  {| update_key := get_validator_key node; update_power := power |}.

(** One of the nodes with the most power. *)
Definition select_validator (liveness : gmap (list byte) LivenessTracker) (st : SetUpdate)
    (entry : (Z * StakedStateAddress) * CouncilNode) : SetUpdate :=
  let '((voting_power, address), node) := entry in
  let '(create_update, remaining) :=
    match set_powers st !! address with
    | Some p =>
        if p =? voting_power then (false, delete address (remaining_validators st))
        else if vote_power_zero <? voting_power then (true, delete address (remaining_validators st))
        else (false, <[address := voting_power]> (remaining_validators st))
    | None => (vote_power_zero <? voting_power, remaining_validators st)
    end in
  if create_update : bool then
    let validator_address := validator_address_from (consensus_pubkey node) in
    {| set_updates := set_updates st ++ [validator_update node voting_power];
       set_powers := <[address := voting_power]> (set_powers st);
       remaining_validators := remaining;
       new_to_track := new_to_track st
         ++ if decide (is_Some (liveness !! validator_address)) then []
            else [(validator_address, address)] |}
  else {| set_updates := set_updates st; set_powers := set_powers st;
          remaining_validators := remaining; new_to_track := new_to_track st |}.

(** The node of a validator that leaves the set. *)
Definition leaving_node (nodes : node_index) (address : StakedStateAddress) (voting_power : Z) :
  option CouncilNode :=
  match nodes !! (voting_power, address) with
  | Some node => Some node
  | None => nodes !! (vote_power_zero, address)
  end.

(** Step 3. *)
Fixpoint remove_validators (vs : ValidatorState) (st : SetUpdate)
    (remaining : list (StakedStateAddress * Z)) : option (ValidatorState * SetUpdate) :=
  match remaining with
  | [] => Some (vs, st)
  | (address, voting_power) :: remaining =>
      node ← leaving_node (council_nodes_by_power vs) address voting_power;
      remove_validators
        (remove_validator_from_tracking vs (validator_address_from (consensus_pubkey node)))
        {| set_updates := set_updates st ++ [validator_update node 0];
           set_powers := delete address (set_powers st);
           remaining_validators := remaining_validators st;
           new_to_track := new_to_track st |}
        remaining
  end.

(** The nodes with the most power, as many as there can be validators. *)
Definition top_nodes (max : Z) (nodes : node_index) : list ((Z * StakedStateAddress) * CouncilNode) :=
  take (Z.to_nat max) (reverse (btree_iter nodes)).

Definition get_validator_updates (last_state : ChainNodeState) (voting : powers)
    (changed : powers) (new_nodes : gmap StakedStateAddress CouncilNode) :
  option (ChainNodeState * powers * list ValidatorUpdate) :=
  nodes ← index_powers voting new_nodes (council_nodes_by_power (validators last_state))
            (btree_iter changed);
  let vs := with_nodes (validators last_state) nodes in
  let st := foldl (select_validator (validator_liveness (validator_punishment vs)))
              {| set_updates := []; set_powers := voting; remaining_validators := voting;
                 new_to_track := [] |}
              (top_nodes (get_max_validators (params_of last_state)) nodes) in
  let window := get_block_signing_window (params_of last_state) in
  let vs := foldl (λ vs e, add_validator_for_tracking vs e.1 e.2 window) vs
              (reverse (new_to_track st)) in
  '(vs, st) ← remove_validators vs st (btree_iter (remaining_validators st));
  Some (with_validators last_state vs, set_powers st, set_updates st).

(** ** The handler *)

Context `{KeyValueDB, StarlingTree, !EnclaveProxy}.

Definition filter_event (raw_filter : TxFilter) : Event :=
  let '(key, value) := get_tendermint_kv (filter_from raw_filter) in
  {| field_type := event_type_to_string BlockFilterEvent;
     event_attributes := [{| kv_key := key; kv_value := value |}] |}.

(** The filter of a block with transactions; anything but an answer panics. *)
Definition block_filter_events (self : ChainNodeApp) : option (list Event * Proxy) :=
  match delivered_txs self with
  | [] => Some ([], tx_validator self)
  | _ :: _ =>
      '(response, tx_validator) ← process_request (tx_validator self) EndBlock;
      match response with
      | RespEndBlock (Ok maybe_filter) =>
          Some (match maybe_filter with Some raw => [filter_event raw] | None => [] end, tx_validator)
      | _ => None
      end
  end.

Definition end_block_handler (self : ChainNodeApp) (height : Z) :
  option (ChainNodeApp * ResponseEndBlock) :=
  '(events, v) ← block_filter_events self;
  let self := set_validator self v in
  '(self, updates) ←
    (if decide (power_changed_in_block self = ∅) then Some (self, [])
     else
       state ← last_state self;
       '(state, voting, updates) ← get_validator_updates state (voting_power self)
                                     (power_changed_in_block self) (new_nodes_in_block self);
       Some (set_new_nodes (set_power_changed (set_voting_power (set_last_state self state) voting) ∅) ∅,
             updates));
  state ← last_state self;
  Some (set_last_state self (with_block_height state height),
        {| end_events := events; validator_updates := updates |}).
End end_block.

(** ** The index after the changes *)

Section index.
Context `{Hashes, Secp256k1, BitVecLib}.
Implicit Types (voting : gmap StakedStateAddress Z) (nodes : gmap (Z * StakedStateAddress) CouncilNode).

Definition old_power (voting : gmap StakedStateAddress Z) (a : StakedStateAddress) : Z :=
  default vote_power_zero (voting !! a).

(** An address whose power really changes. *)
Definition repowered voting (changes : list (StakedStateAddress * Z)) (a : StakedStateAddress) (q : Z) :
  Prop := (a, q) ∈ changes ∧ old_power voting a ≠ q.

(** The node of an address, in the index at its old power or new in the block. *)
Definition node_of voting (new_nodes : gmap StakedStateAddress CouncilNode) nodes
    (a : StakedStateAddress) : option CouncilNode :=
  match nodes !! (old_power voting a, a) with Some n => Some n | None => new_nodes !! a end.

(** The index has an address at its old power only, and its node is known. *)
Definition movable voting (new_nodes : gmap StakedStateAddress CouncilNode) nodes
    (a : StakedStateAddress) : Prop :=
  (∀ p, is_Some (nodes !! (p, a)) → p = old_power voting a)
  ∧ is_Some (node_of voting new_nodes nodes a).

(** The index at an address after the changes. *)
Definition reindexed voting (new_nodes : gmap StakedStateAddress CouncilNode) nodes
    (changes : list (StakedStateAddress * Z)) nodes' : Prop :=
  ∀ a, (∀ q, repowered voting changes a q →
          ∀ p, nodes' !! (p, a) = if decide (p = q) then node_of voting new_nodes nodes a else None)
       ∧ ((∀ q, ¬ repowered voting changes a q) → ∀ p, nodes' !! (p, a) = nodes !! (p, a)).

Lemma index_power_spec voting new_nodes nodes a q :
  (old_power voting a ≠ q → movable voting new_nodes nodes a) →
  ∃ nodes', index_power voting new_nodes nodes (a, q) = Some nodes'
    ∧ (∀ b p, b ≠ a → nodes' !! (p, b) = nodes !! (p, b))
    ∧ reindexed voting new_nodes nodes [(a, q)] nodes'.
Proof.
  intros Hmv. unfold index_power. fold (old_power voting a).
  destruct (Z.eqb_spec (old_power voting a) q) as [E|E].
  - exists nodes. split; [done|]. split; [done|]. intros b. split; [|done].
    intros q' [Hin%list_elem_of_singleton Hne]. simplify_eq.
  - destruct (Hmv E) as [Hold [n Hn]]. fold (node_of voting new_nodes nodes a). rewrite Hn. simpl.
    eexists. split; [done|]. split.
    + intros b p Hne. rewrite lookup_insert_ne, lookup_delete_ne by congruence. done.
    + intros b. split.
      * intros q' [Hin%list_elem_of_singleton _] p. injection Hin as -> ->. rewrite Hn.
        case_decide as Hp; [subst; by rewrite lookup_insert_eq|].
        rewrite lookup_insert_ne by congruence.
        destruct (decide (p = old_power voting a)) as [->|Hpo]; [by rewrite lookup_delete_eq|].
        rewrite lookup_delete_ne by congruence. apply eq_None_not_Some. by intros ?%Hold.
      * intros Hno p. destruct (decide (b = a)) as [->|Hne].
        { destruct (Hno q). split; [by apply list_elem_of_singleton | done]. }
        rewrite lookup_insert_ne, lookup_delete_ne by congruence. done.
Qed.

Lemma movable_frame voting new_nodes nodes nodes' a :
  (∀ p, nodes' !! (p, a) = nodes !! (p, a)) →
  node_of voting new_nodes nodes' a = node_of voting new_nodes nodes a
  ∧ (movable voting new_nodes nodes a → movable voting new_nodes nodes' a).
Proof.
  intros Hp. assert (E : node_of voting new_nodes nodes' a = node_of voting new_nodes nodes a).
  { unfold node_of. by rewrite Hp. }
  split; [done|]. intros [Ho Hn]. split; [|by rewrite E]. intros p. rewrite Hp. apply Ho.
Qed.

Lemma index_powers_spec voting new_nodes nodes changes :
  NoDup changes.*1 →
  (∀ a q, repowered voting changes a q → movable voting new_nodes nodes a) →
  ∃ nodes', index_powers voting new_nodes nodes changes = Some nodes'
    ∧ reindexed voting new_nodes nodes changes nodes'.
Proof.
  revert nodes. induction changes as [|[a q] l IH]; intros nodes Hnd Hmv.
  { exists nodes. split; [done|]. intros a. split; [|done]. by intros q [Hq%not_elem_of_nil _]. }
  cbn [fmap list_fmap fst] in Hnd. apply NoDup_cons in Hnd as [Ha Hnd]. cbn [index_powers].
  destruct (index_power_spec voting new_nodes nodes a q) as (n1 & -> & Hother & Hre).
  { intros Hne. apply (Hmv a q). split; [by left | done]. }
  assert (Hla : ∀ q', ¬ repowered voting l a q').
  { intros q' [Hin _]. apply Ha. apply list_elem_of_fmap. by exists (a, q'). }
  simpl. destruct (IH n1 Hnd) as (n2 & -> & Hre2).
  { intros b q' Hb. assert (b ≠ a) by (intros ->; by eapply Hla).
    apply (movable_frame voting new_nodes nodes n1 b); [intros p; by apply Hother|].
    apply (Hmv b q'). destruct Hb. split; [by right | done]. }
  exists n2. split; [done|]. intros b. destruct (decide (b = a)) as [->|Hne].
  - destruct (Hre2 a) as [_ Hsame], (Hre a) as [Hch Hno].
    assert (Hiff : ∀ q', repowered voting ((a, q) :: l) a q' ↔ repowered voting [(a, q)] a q').
    { intros q'. unfold repowered. rewrite elem_of_cons, list_elem_of_singleton.
      split; [|by intros [-> ?]; auto]. intros [[E|Hin] Hq]; [done|].
      exfalso. by apply (Hla q'). }
    split.
    + intros q' Hq p. rewrite Hsame by done. apply Hch. by apply Hiff.
    + intros Hq p. rewrite Hsame by done. apply Hno. intros q' Hq'. by apply (Hq q'), Hiff.
  - destruct (Hre2 b) as [Hch Hno].
    assert (Hiff : ∀ q', repowered voting ((a, q) :: l) b q' ↔ repowered voting l b q').
    { intros q'. unfold repowered. rewrite elem_of_cons. split; [|by intros [? ?]; auto].
      intros [[E|Hin] Hq]; [congruence | done]. }
    destruct (movable_frame voting new_nodes nodes n1 b) as [En _]; [intros p; by apply Hother|].
    split.
    + intros q' Hq p. rewrite <- En. apply Hch. by apply Hiff.
    + intros Hq p. rewrite Hno; [by apply Hother|]. intros q' Hq'. by apply (Hq q'), Hiff.
Qed.
End index.

(** ** The validator set after the changes *)

Section validator_set.
Context `{Hashes, Secp256k1, BitVecLib}.
Abbreviation entry := ((Z * StakedStateAddress) * CouncilNode)%type (only parsing).

(** A node that gets an update: it has power, and not the one it had. *)
Definition creates (voting : gmap StakedStateAddress Z) (e : entry) : Prop :=
  0 < e.1.1 ∧ voting !! e.1.2 ≠ Some e.1.1.
#[local] Instance creates_dec voting e : Decision (creates voting e).
Proof. unfold creates. apply _. Defined.

Definition update_of (e : entry) : ValidatorUpdate := validator_update e.2 e.1.1.

(** What is left of a current validator whose node is selected. *)
Definition left_over (old : option Z) (p : Z) (r : option Z) : option Z :=
  match old with
  | Some q => if decide (q = p ∨ 0 < p) then None else Some p
  | None => r
  end.

Lemma select_validator_spec live st p a n :
  let st' := select_validator live st ((p, a), n) in
  set_updates st' = set_updates st
    ++ (if decide (creates (set_powers st) ((p, a), n)) then [update_of ((p, a), n)] else [])
  ∧ (set_powers st' !! a
     = if decide (creates (set_powers st) ((p, a), n)) then Some p else set_powers st !! a)
  ∧ remaining_validators st' !! a = left_over (set_powers st !! a) p (remaining_validators st !! a)
  ∧ ∀ b, b ≠ a → set_powers st' !! b = set_powers st !! b
                 ∧ remaining_validators st' !! b = remaining_validators st !! b.
Proof.
  assert (Hc : creates (set_powers st) ((p, a), n) ↔ 0 < p ∧ set_powers st !! a ≠ Some p) by done.
  unfold select_validator, left_over, vote_power_zero. cbn [fst snd].
  destruct (set_powers st !! a) as [q|] eqn:Eq.
  - destruct (Z.eqb_spec q p) as [->|Hne]; simpl.
    + rewrite !(decide_False (P := creates _ _)) by naive_solver.
      rewrite (decide_True (P := p = p ∨ _)) by auto.
      rewrite app_nil_r, lookup_delete_eq. split_and!; try done.
      intros b Hb. by rewrite lookup_delete_ne.
    + destruct (Z.ltb_spec 0 p); simpl.
      * rewrite !(decide_True (P := creates _ _)) by (apply Hc; split; [done | congruence]).
        rewrite (decide_True (P := q = p ∨ _)) by auto.
        rewrite lookup_delete_eq, lookup_insert_eq. split_and!; try done.
        intros b Hb. by rewrite lookup_delete_ne, lookup_insert_ne.
      * rewrite !(decide_False (P := creates _ _)) by (rewrite Hc; lia).
        rewrite (decide_False (P := q = p ∨ _)) by lia.
        rewrite app_nil_r, lookup_insert_eq. split_and!; try done.
        intros b Hb. by rewrite lookup_insert_ne.
  - destruct (Z.ltb_spec 0 p); simpl.
    + rewrite !(decide_True (P := creates _ _)) by by apply Hc.
      rewrite lookup_insert_eq. split_and!; try done.
      intros b Hb. by rewrite lookup_insert_ne.
    + rewrite !(decide_False (P := creates _ _)) by (rewrite Hc; lia).
      rewrite app_nil_r. by split_and!.
Qed.

Lemma creates_frame v v' (l : list entry) :
  (∀ e, e ∈ l → v' !! e.1.2 = v !! e.1.2) →
  filter (creates v') l = filter (creates v) l.
Proof.
  induction l as [|e l IH]; intros Hl; [done|].
  assert (Hiff : creates v' e ↔ creates v e) by (unfold creates; by rewrite (Hl e) by left).
  rewrite !filter_cons, IH by (intros; apply Hl; by right).
  destruct (decide (creates v e)); [rewrite decide_True by tauto | rewrite decide_False by tauto]; done.
Qed.

(** The whole selection, where every address has one node. *)
Lemma select_all_spec live st l :
  NoDup ((λ e : entry, e.1.2) <$> l) →
  let st' := foldl (select_validator live) st l in
  set_updates st' = set_updates st ++ (update_of <$> filter (creates (set_powers st)) l)
  ∧ (∀ p a n, ((p, a), n) ∈ l →
       set_powers st' !! a
       = (if decide (creates (set_powers st) ((p, a), n)) then Some p else set_powers st !! a)
       ∧ remaining_validators st' !! a
         = left_over (set_powers st !! a) p (remaining_validators st !! a))
  ∧ (∀ a, a ∉ (λ e : entry, e.1.2) <$> l →
       set_powers st' !! a = set_powers st !! a
       ∧ remaining_validators st' !! a = remaining_validators st !! a).
Proof.
  revert st. induction l as [|[[p a] n] l IH]; intros st Hnd; cbn [foldl].
  { rewrite app_nil_r. split; [done|]. split; [|done]. by intros p a n ?%not_elem_of_nil. }
  cbn [fmap list_fmap fst snd] in Hnd. apply NoDup_cons in Hnd as [Ha Hnd].
  destruct (select_validator_spec live st p a n) as (Hu & Hp & Hr & Ho).
  set (st1 := select_validator live st ((p, a), n)) in *.
  destruct (IH st1 Hnd) as (IHu & IHin & IHout).
  assert (Hnea : ∀ q b m, ((q, b), m) ∈ l → b ≠ a).
  { intros q b m Hin ->. apply Ha. apply list_elem_of_fmap. by exists ((q, a), m). }
  split; [|split].
  - rewrite IHu, Hu, filter_cons. rewrite (creates_frame (set_powers st) (set_powers st1)).
    + case_decide; simpl; [by rewrite <- app_assoc | by rewrite app_nil_r].
    + intros [[q b] m] Hin. apply Ho. by eapply Hnea.
  - intros q b m [E|Hin]%elem_of_cons.
    + injection E as -> -> ->. destruct (IHout a Ha) as [-> ->]. done.
    + destruct (IHin q b m Hin) as [-> ->]. destruct (Ho b (Hnea _ _ _ Hin)) as [E ->].
      rewrite E. split; [|done].
      assert (Hiff : creates (set_powers st1) ((q, b), m) ↔ creates (set_powers st) ((q, b), m))
        by (unfold creates; simpl; by rewrite E).
      by rewrite (decide_ext _ _ _ _ Hiff).
  - intros b Hb. cbn [fmap list_fmap fst snd] in Hb. apply not_elem_of_cons in Hb as [Hne Hb].
    destruct (IHout b Hb) as [-> ->]. by apply Ho.
Qed.

(** Tracking does not touch the index. *)
Lemma track_nodes vs l w :
  council_nodes_by_power (foldl (λ vs e, add_validator_for_tracking vs e.1 e.2 w) vs l)
  = council_nodes_by_power vs.
Proof.
  revert vs. induction l as [|e l IH]; intros vs; [done|]. simpl. rewrite IH.
  unfold add_validator_for_tracking. by case_decide.
Qed.

(** The removal of what is left. *)
Lemma remove_validators_spec vs st l :
  (∀ a q, (a, q) ∈ l → is_Some (leaving_node (council_nodes_by_power vs) a q)) →
  ∃ vs' st', remove_validators vs st l = Some (vs', st')
    ∧ council_nodes_by_power vs' = council_nodes_by_power vs
    ∧ (∃ gone, Forall2 (λ e n, leaving_node (council_nodes_by_power vs) e.1 e.2 = Some n) l gone
         ∧ set_updates st' = set_updates st ++ ((λ n, validator_update n 0) <$> gone))
    ∧ ∀ a, set_powers st' !! a = if decide (a ∈ l.*1) then None else set_powers st !! a.
Proof.
  revert vs st. induction l as [|[a q] l IH]; intros vs st Hl; cbn [remove_validators].
  { exists vs, st. split; [done|]. split; [done|]. split; [|done].
    exists []. by rewrite app_nil_r. }
  destruct (Hl a q) as [n Hn]; [by left|]. rewrite Hn. simpl.
  destruct (IH (remove_validator_from_tracking vs (validator_address_from (consensus_pubkey n)))
    {| set_updates := set_updates st ++ [validator_update n 0]; set_powers := delete a (set_powers st);
       remaining_validators := remaining_validators st; new_to_track := new_to_track st |})
    as (vs' & st' & -> & Hnd & (gone & Hg & Hu) & Hp).
  { intros b r Hin. apply Hl. by right. }
  exists vs', st'. split; [done|]. split; [done|]. split.
  - exists (n :: gone). split; [by constructor|]. rewrite Hu. simpl. by rewrite <- app_assoc.
  - intros b. rewrite Hp. simpl. destruct (decide (b ∈ l.*1)) as [Hin|Hin].
    + rewrite decide_True; [done | by right].
    + destruct (decide (b = a)) as [->|Hne].
      * rewrite lookup_delete_eq, decide_True; [done | by left].
      * rewrite lookup_delete_ne by done. rewrite decide_False; [done|]. set_solver.
Qed.

Lemma remove_validators_panics vs st l a q :
  (a, q) ∈ l → leaving_node (council_nodes_by_power vs) a q = None → remove_validators vs st l = None.
Proof.
  revert vs st. induction l as [|[b r] l IH]; intros vs st Hin Hn; [by apply not_elem_of_nil in Hin|].
  cbn [remove_validators]. apply elem_of_cons in Hin as [E|Hin]; [injection E as -> ->; by rewrite Hn|].
  destruct (leaving_node _ b r); [|done]. simpl. by apply IH.
Qed.
End validator_set.

Section updates.
Context `{Hashes, Secp256k1, BitVecLib}.
Abbreviation entry := ((Z * StakedStateAddress) * CouncilNode)%type (only parsing).
#[local] Existing Instance creates_dec.

(** The index agrees with the validator set: every address is in it once, the
    validators at their power, and the nodes of the changes are known. *)
Record set_inv (voting changed : gmap StakedStateAddress Z)
    (new_nodes : gmap StakedStateAddress CouncilNode)
    (nodes : gmap (Z * StakedStateAddress) CouncilNode) : Prop := {
  inv_once : ∀ p q a, is_Some (nodes !! (p, a)) → is_Some (nodes !! (q, a)) → p = q;
  inv_nonneg : ∀ p a, is_Some (nodes !! (p, a)) → 0 ≤ p;
  inv_voting : ∀ a p, voting !! a = Some p → 0 < p ∧ is_Some (nodes !! (p, a));
  inv_changed : ∀ a q, changed !! a = Some q → 0 ≤ q
    ∧ (voting !! a = None → q ≠ 0 → movable voting new_nodes nodes a);
}.

(** A validator that got a new power and is not among the nodes with the most. *)
Definition outbid (voting changed : gmap StakedStateAddress Z) (top : list entry) : Prop :=
  ∃ a p q, voting !! a = Some p ∧ changed !! a = Some q ∧ q ≠ p ∧ 0 < q
           ∧ a ∉ (λ e : entry, e.1.2) <$> top.

Lemma elem_of_top max nodes (e : entry) : e ∈ top_nodes max nodes → nodes !! e.1 = Some e.2.
Proof.
  unfold top_nodes. intros He. destruct e as [k n]. apply elem_of_btree_iter.
  rewrite <- (reverse_Permutation (btree_iter nodes)).
  eapply elem_of_submseteq; [exact He|]. apply sublist_submseteq, sublist_take.
Qed.

Lemma top_addresses_NoDup max nodes :
  (∀ p q a, is_Some (nodes !! (p, a)) → is_Some (nodes !! (q, a)) → p = q) →
  NoDup ((λ e : entry, e.1.2) <$> top_nodes max nodes).
Proof.
  intros Huniq. apply NoDup_fmap_2_strong.
  - intros [[p a] n] [[q b] m] H1'%elem_of_top H2'%elem_of_top E. simpl in *. subst b.
    assert (p = q) as <- by (eapply Huniq; by eexists). congruence.
  - eapply sublist_NoDup; [|apply sublist_take]. rewrite reverse_Permutation.
    eapply NoDup_fmap_1, NoDup_btree_iter.
Qed.

Lemma movable_changed voting changed new_nodes nodes a q :
  set_inv voting changed new_nodes nodes → repowered voting (btree_iter changed) a q →
  movable voting new_nodes nodes a.
Proof.
  intros Hinv [Hc%elem_of_btree_iter Hne]. destruct (inv_changed _ _ _ _ Hinv a q Hc) as [_ Hmv].
  destruct (voting !! a) as [p|] eqn:Ev.
  - destruct (inv_voting _ _ _ _ Hinv a p Ev) as [Hp [n Hn]].
    assert (Eo : old_power voting a = p) by (unfold old_power; by rewrite Ev).
    split; [|unfold node_of; rewrite Eo, Hn; by eexists].
    intros r Hr. rewrite Eo. eapply (inv_once _ _ _ _ Hinv); [done | by eexists].
  - apply Hmv; [done|]. unfold old_power in Hne. rewrite Ev in Hne. unfold vote_power_zero in Hne.
    simpl in Hne. congruence.
Qed.

Lemma reindexed_cases voting changed new_nodes nodes nodes' a p n :
  reindexed voting new_nodes nodes (btree_iter changed) nodes' → nodes' !! (p, a) = Some n →
  (repowered voting (btree_iter changed) a p ∧ node_of voting new_nodes nodes a = Some n)
  ∨ ((∀ q, ¬ repowered voting (btree_iter changed) a q) ∧ nodes !! (p, a) = Some n).
Proof.
  intros Hre Hp. destruct (Hre a) as [Hch Hno].
  destruct (changed !! a) as [q|] eqn:Ec.
  - destruct (decide (old_power voting a = q)) as [E|Hne].
    + right. assert (Hn' : ∀ q', ¬ repowered voting (btree_iter changed) a q').
      { intros q' [Hq'%elem_of_btree_iter ?]. congruence. }
      split; [done|]. by rewrite <- (Hno Hn').
    + left. assert (Hr : repowered voting (btree_iter changed) a q).
      { split; [by apply elem_of_btree_iter | done]. }
      pose proof (Hch q Hr p) as E. rewrite Hp in E. case_decide; [by subst | done].
  - right. assert (Hn' : ∀ q', ¬ repowered voting (btree_iter changed) a q').
    { intros q' [Hq'%elem_of_btree_iter ?]. congruence. }
    split; [done|]. by rewrite <- (Hno Hn').
Qed.

Lemma reindexed_once voting changed new_nodes nodes nodes' :
  set_inv voting changed new_nodes nodes →
  reindexed voting new_nodes nodes (btree_iter changed) nodes' →
  (∀ p q a, is_Some (nodes' !! (p, a)) → is_Some (nodes' !! (q, a)) → p = q)
  ∧ (∀ p a, is_Some (nodes' !! (p, a)) → 0 ≤ p).
Proof.
  intros Hinv Hre. split.
  - intros p q a [n Hp] [m Hq].
    destruct (reindexed_cases _ _ _ _ _ _ _ _ Hre Hp) as [[[Hr1%elem_of_btree_iter ?] _]|[Hno Hp']],
      (reindexed_cases _ _ _ _ _ _ _ _ Hre Hq) as [[[Hr2%elem_of_btree_iter ?] _]|[Hno' Hq']].
    + congruence.
    + destruct (Hno' p). split; [by apply elem_of_btree_iter | done].
    + destruct (Hno q). split; [by apply elem_of_btree_iter | done].
    + eapply (inv_once _ _ _ _ Hinv); by eexists.
  - intros p a [n Hp].
    destruct (reindexed_cases _ _ _ _ _ _ _ _ Hre Hp) as [[[Hr%elem_of_btree_iter ?] _]|[_ Hp']].
    + by destruct (inv_changed _ _ _ _ Hinv a p Hr).
    + eapply (inv_nonneg _ _ _ _ Hinv); by eexists.
Qed.

(** A validator is in the new index, with the node it had. *)
Lemma reindexed_voting voting changed new_nodes nodes nodes' a p :
  set_inv voting changed new_nodes nodes →
  reindexed voting new_nodes nodes (btree_iter changed) nodes' → voting !! a = Some p →
  ∃ n, nodes !! (p, a) = Some n
    ∧ (∀ q, repowered voting (btree_iter changed) a q →
         q = default p (changed !! a) ∧ q ≠ p ∧ nodes' !! (q, a) = Some n)
    ∧ ((∀ q, ¬ repowered voting (btree_iter changed) a q) → nodes' !! (p, a) = Some n).
Proof.
  intros Hinv Hre Hv. destruct (inv_voting _ _ _ _ Hinv a p Hv) as [Hp [n Hn]]. exists n.
  assert (Eo : old_power voting a = p) by (unfold old_power; by rewrite Hv).
  destruct (Hre a) as [Hch Hno]. split; [done|]. split.
  - intros q Hq. pose proof Hq as [Hc%elem_of_btree_iter Hne]. rewrite Hc. split; [done|].
    split; [congruence|]. rewrite (Hch q Hq), decide_True by done. unfold node_of. by rewrite Eo, Hn.
  - intros Hq. by rewrite Hno.
Qed.

(** *** The selection against the new index *)

Definition selected (live : gmap (list byte) LivenessTracker) (voting : gmap StakedStateAddress Z)
    (top : list entry) : SetUpdate :=
  foldl (select_validator live)
    {| set_updates := []; set_powers := voting; remaining_validators := voting; new_to_track := [] |}
    top.

Lemma selected_remaining live voting changed new_nodes nodes nodes' max a r :
  set_inv voting changed new_nodes nodes →
  reindexed voting new_nodes nodes (btree_iter changed) nodes' →
  remaining_validators (selected live voting (top_nodes max nodes')) !! a = Some r ↔
  ∃ q, voting !! a = Some q
    ∧ ((a ∉ ((λ e : entry, e.1.2) <$> top_nodes max nodes')) ∧ r = q
       ∨ ∃ n, ((0, a), n) ∈ top_nodes max nodes' ∧ r = 0).
Proof.
  intros Hinv Hre. destruct (reindexed_once _ _ _ _ _ Hinv Hre) as [Honce Hnn].
  set (top := top_nodes max nodes').
  destruct (select_all_spec live {| set_updates := []; set_powers := voting;
    remaining_validators := voting; new_to_track := [] |} top (top_addresses_NoDup max nodes' Honce))
    as (_ & Hin & Hout). fold (selected live voting top) in Hin, Hout. simpl in Hin, Hout.
  destruct (decide (a ∈ (λ e : entry, e.1.2) <$> top)) as [Hat|Hat].
  - apply list_elem_of_fmap in Hat as ([[p b] n] & Ea & He). simpl in Ea. subst b.
    destruct (Hin p a n He) as [_ ->]. unfold left_over.
    assert (Hp : 0 ≤ p) by (apply elem_of_top in He; eapply Hnn; by eexists).
    assert (Hat : a ∈ (λ e : entry, e.1.2) <$> top) by (apply list_elem_of_fmap; by exists ((p, a), n)).
    destruct (voting !! a) as [q|] eqn:Ev; [|by split; [|intros (q & ? & _)]].
    destruct (inv_voting _ _ _ _ Hinv a q Ev) as [Hq _]. case_decide as Hd; split.
    + done.
    + intros (q' & [= <-] & [[? _]|(m & Hm & ->)]); [done|].
      assert (p = 0); [|lia]. apply elem_of_top in He, Hm. eapply Honce; by eexists.
    + intros [= <-]. exists q. split; [done|]. right. exists n. by replace 0 with p by lia.
    + intros (q' & [= <-] & [[? _]|(m & Hm & ->)]); [done|]. f_equal. lia.
  - destruct (Hout a Hat) as [_ ->]. split.
    + intros Hv. exists r. auto.
    + intros (q & -> & [[_ ->]|(n & Hn & ->)]); [done|]. destruct Hat.
      apply list_elem_of_fmap. by exists ((0, a), n).
Qed.

(** The node of a validator that leaves is found, unless the validator is outbid. *)
Lemma leaving_found live voting changed new_nodes nodes nodes' max a r :
  set_inv voting changed new_nodes nodes →
  reindexed voting new_nodes nodes (btree_iter changed) nodes' →
  ¬ outbid voting changed (top_nodes max nodes') →
  remaining_validators (selected live voting (top_nodes max nodes')) !! a = Some r →
  ∃ n p, leaving_node nodes' a r = Some n ∧ nodes' !! (p, a) = Some n.
Proof.
  intros Hinv Hre Hob Hr. destruct (reindexed_once _ _ _ _ _ Hinv Hre) as [Honce _].
  apply (selected_remaining _ _ _ _ _ _ _ _ _ Hinv Hre) in Hr as (q & Hv & Hr).
  unfold leaving_node, vote_power_zero. destruct Hr as [[Hat ->]|(n & Hn%elem_of_top & ->)].
  - destruct (reindexed_voting _ _ _ _ _ _ _ Hinv Hre Hv) as (n & Hn & Hch & Hno).
    destruct (changed !! a) as [q'|] eqn:Ec.
    + destruct (decide (q' = q)) as [->|Hne].
      * assert (Hq : nodes' !! (q, a) = Some n).
        { apply Hno. intros q'' [Hq''%elem_of_btree_iter Hne]. unfold old_power in Hne.
          rewrite Hv in Hne. simpl in Hne. congruence. }
        rewrite Hq. by exists n, q.
      * destruct (Hch q') as (_ & _ & Hq').
        { split; [by apply elem_of_btree_iter|]. unfold old_power. rewrite Hv. simpl. congruence. }
        assert (q' = 0) as ->.
        { destruct (inv_changed _ _ _ _ Hinv a q' Ec) as [Hge _].
          destruct (decide (0 < q')); [|lia]. destruct Hob. by exists a, q, q'. }
        exists n, 0. destruct (nodes' !! (q, a)) as [m|] eqn:Em; [|done].
        assert (q = 0) as -> by (eapply Honce; by eexists). congruence.
    + assert (Hq : nodes' !! (q, a) = Some n).
      { apply Hno. intros q'' [Hq''%elem_of_btree_iter _]. congruence. }
      rewrite Hq. by exists n, q.
  - simpl in Hn. rewrite Hn. by exists n, 0.
Qed.

Lemma outbid_not_found live voting changed new_nodes nodes nodes' max :
  set_inv voting changed new_nodes nodes →
  reindexed voting new_nodes nodes (btree_iter changed) nodes' →
  outbid voting changed (top_nodes max nodes') →
  ∃ a r, remaining_validators (selected live voting (top_nodes max nodes')) !! a = Some r
    ∧ leaving_node nodes' a r = None.
Proof.
  intros Hinv Hre (a & p & q & Hv & Hc & Hne & Hq & Hat). exists a, p.
  destruct (reindexed_once _ _ _ _ _ Hinv Hre) as [Honce _].
  split; [apply (selected_remaining _ _ _ _ _ _ _ _ _ Hinv Hre); exists p; auto|].
  destruct (reindexed_voting _ _ _ _ _ _ _ Hinv Hre Hv) as (n & Hn & Hch & _).
  destruct (Hch q) as (_ & _ & Hq').
  { split; [by apply elem_of_btree_iter|]. unfold old_power. rewrite Hv. simpl. congruence. }
  unfold leaving_node, vote_power_zero.
  destruct (nodes' !! (p, a)) as [m|] eqn:Ep.
  { assert (p = q); [|congruence]. eapply Honce; by eexists. }
  destruct (nodes' !! (0, a)) as [m|] eqn:E0; [|done].
  assert (0 = q); [|lia]. eapply Honce; by eexists.
Qed.

(** The new validators are the nodes with the most power that have some. *)
Lemma selected_powers live voting changed new_nodes nodes nodes' max a p :
  set_inv voting changed new_nodes nodes →
  reindexed voting new_nodes nodes (btree_iter changed) nodes' →
  let st := selected live voting (top_nodes max nodes') in
  (if decide (a ∈ (btree_iter (remaining_validators st)).*1) then None else set_powers st !! a) = Some p
  ↔ 0 < p ∧ ∃ n, ((p, a), n) ∈ top_nodes max nodes'.
Proof.
  intros Hinv Hre st. destruct (reindexed_once _ _ _ _ _ Hinv Hre) as [Honce Hnn].
  set (top := top_nodes max nodes') in *.
  assert (Hrem : a ∈ (btree_iter (remaining_validators st)).*1 ↔ is_Some (remaining_validators st !! a)).
  { rewrite list_elem_of_fmap. split.
    - intros ([b r] & -> & Hb%elem_of_btree_iter). by eexists.
    - intros [r Hr%elem_of_btree_iter]. by exists (a, r). }
  assert (Hsr := λ r, selected_remaining live voting changed new_nodes nodes nodes' max a r Hinv Hre).
  destruct (select_all_spec live {| set_updates := []; set_powers := voting;
    remaining_validators := voting; new_to_track := [] |} top (top_addresses_NoDup max nodes' Honce))
    as (_ & Hin & Hout). fold (selected live voting top) in Hin, Hout. fold st in Hin, Hout.
  simpl in Hin, Hout. split.
  - case_decide as Hd; [done|]. rewrite Hrem in Hd. intros Hp.
    destruct (decide (a ∈ (λ e : entry, e.1.2) <$> top)) as [Hat|Hat].
    + apply list_elem_of_fmap in Hat as ([[p' b] n] & Ea & He). simpl in Ea. subst b.
      destruct (Hin p' a n He) as [E _]. rewrite E in Hp. case_decide as Hc.
      * injection Hp as <-. split; [by destruct Hc | by exists n].
      * destruct (inv_voting _ _ _ _ Hinv a p Hp) as [Hpos _]. split; [done|]. exists n.
        assert (Hp' : 0 ≤ p') by (apply elem_of_top in He; eapply Hnn; by eexists).
        destruct (decide (p' = p)) as [->|Hne]; [done|]. destruct Hd. exists 0.
        apply (Hsr 0). exists p. split; [done|]. right. exists n. split; [|done].
        replace 0 with p'; [done|]. destruct (decide (0 < p')); [|lia].
        destruct Hc. split; simpl; [done | congruence].
    + destruct (Hout a Hat) as [E _]. rewrite E in Hp. destruct Hd. exists p.
      apply (Hsr p). exists p. auto.
  - intros [Hp [n He]]. destruct (Hin p a n He) as [Ep Er].
    rewrite decide_False.
    + rewrite Ep. case_decide as Hc; [done|]. unfold creates in Hc. simpl in Hc.
      destruct (decide (voting !! a = Some p)); [done | tauto].
    + rewrite Hrem, Er. unfold left_over. destruct (voting !! a).
      * rewrite decide_True by auto. by apply is_Some_None.
      * by apply is_Some_None.
Qed.

(** The set of validators as Tendermint keeps it, by public key.  It refuses
    updates that name a key twice or remove a key that is not there. *)
Definition apply_update (t : gmap (str * list byte) Z) (u : ValidatorUpdate) :
  option (gmap (str * list byte) Z) :=
  if decide (update_power u = 0) then
    if decide (is_Some (t !! update_key u)) then Some (delete (update_key u) t) else None
  else Some (<[update_key u := update_power u]> t).

Fixpoint apply_updates (t : gmap (str * list byte) Z) (us : list ValidatorUpdate) :
  option (gmap (str * list byte) Z) :=
  match us with
  | [] => Some t
  | u :: us =>
      if decide (update_key u ∈ (update_key <$> us)) then None
      else t ← apply_update t u; apply_updates t us
  end.

(** Tendermint's set is the one of the chain. *)
Definition represents (t : gmap (str * list byte) Z) (voting : gmap StakedStateAddress Z)
    (nodes : gmap (Z * StakedStateAddress) CouncilNode) : Prop :=
  ∀ k p, t !! k = Some p ↔
    ∃ a n, voting !! a = Some p ∧ nodes !! (p, a) = Some n ∧ get_validator_key n = k.

(** No two addresses have nodes with the same key. *)
Definition keys_distinct (nodes : gmap (Z * StakedStateAddress) CouncilNode) : Prop :=
  ∀ p q a b n m, nodes !! (p, a) = Some n → nodes !! (q, b) = Some m →
    get_validator_key n = get_validator_key m → a = b.

Lemma apply_updates_spec t us :
  NoDup (update_key <$> us) →
  (∀ u, u ∈ us → update_power u = 0 → is_Some (t !! update_key u)) →
  ∃ t', apply_updates t us = Some t'
    ∧ (∀ u, u ∈ us → t' !! update_key u = if decide (update_power u = 0) then None else Some (update_power u))
    ∧ (∀ k, k ∉ (update_key <$> us) → t' !! k = t !! k).
Proof.
  revert t. induction us as [|u us IH]; intros t Hnd Hrem; cbn [apply_updates].
  { exists t. split; [done|]. split; [|done]. by intros u ?%not_elem_of_nil. }
  cbn [fmap list_fmap] in Hnd. apply NoDup_cons in Hnd as [Hu Hnd].
  rewrite decide_False by done.
  set (t1 := if decide (update_power u = 0) then delete (update_key u) t
             else <[update_key u := update_power u]> t).
  assert (E : apply_update t u = Some t1).
  { unfold apply_update, t1. case_decide; [|done]. rewrite decide_True; [done|]. apply Hrem; [by left | done]. }
  assert (Ho : ∀ k, k ≠ update_key u → t1 !! k = t !! k).
  { intros k Hk. unfold t1. case_decide; [by rewrite lookup_delete_ne | by rewrite lookup_insert_ne]. }
  rewrite E. simpl. destruct (IH t1 Hnd) as (t' & -> & Hin & Hout).
  { intros v Hv Hp. rewrite Ho; [apply Hrem; [by right | done]|].
    intros E'. apply Hu. rewrite <- E'. by apply list_elem_of_fmap_2. }
  exists t'. split; [done|]. split.
  - intros v [->|Hv]%elem_of_cons; [|by apply Hin]. rewrite Hout by done. unfold t1.
    case_decide; [by rewrite lookup_delete_eq | by rewrite lookup_insert_eq].
  - intros k Hk. cbn [fmap list_fmap] in Hk. apply not_elem_of_cons in Hk as [Hne Hk].
    rewrite Hout by done. by apply Ho.
Qed.

Lemma NoDup_update_keys (P : StakedStateAddress → ValidatorUpdate → Prop) addrs us :
  Forall2 P addrs us → NoDup addrs →
  (∀ a b u v, P a u → P b v → update_key u = update_key v → a = b) → NoDup (update_key <$> us).
Proof.
  intros Hf Hnd Hinj. induction Hf as [|a u addrs us Hau Hf IH]; [constructor|].
  apply NoDup_cons in Hnd as [Ha Hnd]. cbn [fmap list_fmap]. constructor; [|by apply IH].
  intros (v & Ev & Hv)%list_elem_of_fmap.
  apply list_elem_of_lookup in Hv as [i Hv].
  destruct (Forall2_lookup_r _ _ _ _ _ Hf Hv) as (b & Hb & Hbv).
  apply Ha. rewrite (Hinj a b u v Hau Hbv Ev). by eapply list_elem_of_lookup_2.
Qed.

(** The node of a validator, before and after. *)
Lemma voting_node voting changed new_nodes nodes nodes' a q :
  set_inv voting changed new_nodes nodes →
  reindexed voting new_nodes nodes (btree_iter changed) nodes' → voting !! a = Some q →
  ∃ n p, nodes !! (q, a) = Some n ∧ nodes' !! (p, a) = Some n
    ∧ (p = q ∨ p ≠ q ∧ changed !! a = Some p).
Proof.
  intros Hinv Hre Hv. destruct (reindexed_voting _ _ _ _ _ _ _ Hinv Hre Hv) as (n & Hn & Hch & Hno).
  exists n. destruct (changed !! a) as [q'|] eqn:Ec; [destruct (decide (q' = q)) as [->|Hne]|].
  - exists q. split; [done|]. split; [|by left]. apply Hno. intros r [Hr%elem_of_btree_iter Hne].
    unfold old_power in Hne. rewrite Hv in Hne. simpl in Hne. congruence.
  - exists q'. split; [done|]. split; [|by right]. apply Hch.
    split; [by apply elem_of_btree_iter|]. unfold old_power. rewrite Hv. simpl. congruence.
  - exists q. split; [done|]. split; [|by left]. apply Hno. intros r [Hr%elem_of_btree_iter _]. congruence.
Qed.

Section refine.
Context (voting changed : gmap StakedStateAddress Z) (new_nodes : gmap StakedStateAddress CouncilNode)
  (nodes nodes' : gmap (Z * StakedStateAddress) CouncilNode) (max : Z)
  (live : gmap (list byte) LivenessTracker) (gone : list CouncilNode) (t : gmap (str * list byte) Z)
  (voting' : gmap StakedStateAddress Z).
Let top := top_nodes max nodes'.
Let left := remaining_validators (selected live voting top).
Let us := (update_of <$> filter (creates voting) top) ++ ((λ n, validator_update n 0) <$> gone).
Context (Hinv : set_inv voting changed new_nodes nodes)
  (Hre : reindexed voting new_nodes nodes (btree_iter changed) nodes')
  (Hob : ¬ outbid voting changed top)
  (Hkeys : keys_distinct nodes')
  (Hgone : Forall2 (λ e n, leaving_node nodes' e.1 e.2 = Some n) (btree_iter left) gone)
  (Ht : represents t voting nodes)
  (Hv' : ∀ a p, voting' !! a = Some p ↔ 0 < p ∧ ∃ n, ((p, a), n) ∈ top).

(** The update is about the node of the address. *)
Definition update_for (a : StakedStateAddress) (u : ValidatorUpdate) : Prop :=
  ∃ p n, nodes' !! (p, a) = Some n ∧ update_key u = get_validator_key n
    ∧ ((update_power u = p ∧ ((p, a), n) ∈ top ∧ creates voting ((p, a), n))
       ∨ (update_power u = 0 ∧ is_Some (left !! a))).

Lemma updates_for :
  Forall2 update_for (((λ e : entry, e.1.2) <$> filter (creates voting) top) ++ (btree_iter left).*1) us.
Proof.
  apply Forall2_app.
  - rewrite Forall2_fmap. apply Forall_Forall2_diag, Forall_forall. intros [[p a] n] [Hc Hin]%list_elem_of_filter.
    exists p, n. split; [by apply elem_of_top in Hin|]. split; [done|]. left. done.
  - rewrite Forall2_fmap. eapply Forall2_impl; [|intros x y Hxy; exact Hxy].
    apply Forall2_same_length_lookup. pose proof (Forall2_length _ _ _ Hgone) as Hl. split; [done|].
    intros i [a r] n Hi Hn. simpl. pose proof (Forall2_lookup_lr _ _ _ _ _ _ Hgone Hi Hn) as Hlv. simpl in Hlv.
    assert (Hla : left !! a = Some r) by (apply elem_of_btree_iter; by eapply list_elem_of_lookup_2).
    destruct (leaving_found _ _ _ _ _ _ _ _ _ Hinv Hre Hob Hla) as (m & p & Hm & Hp).
    assert (m = n) as -> by congruence. exists p, n. split; [done|]. split; [done|]. right. by split.
Qed.

Lemma updates_addresses_NoDup :
  NoDup (((λ e : entry, e.1.2) <$> filter (creates voting) top) ++ (btree_iter left).*1).
Proof.
  destruct (reindexed_once _ _ _ _ _ Hinv Hre) as [Honce Hnn].
  apply NoDup_app. split; [|split; [|apply NoDup_btree_iter]].
  - eapply sublist_NoDup; [apply (top_addresses_NoDup max nodes' Honce)|].
    apply fmap_sublist, sublist_filter.
  - intros a (e & -> & [Hc He]%list_elem_of_filter)%list_elem_of_fmap
      ([b r] & Eb & Hb%elem_of_btree_iter)%list_elem_of_fmap.
    destruct e as [[p a] n]. simpl in Eb. subst b.
    apply (selected_remaining _ _ _ _ _ _ _ _ _ Hinv Hre) in Hb as (q & Hq & [[Hat _]|(m & Hm & _)]).
    + apply Hat, list_elem_of_fmap. by exists ((p, a), n).
    + destruct Hc as [Hp _]. simpl in Hp. apply elem_of_top in He, Hm. simpl in *.
      assert (p = 0); [|lia]. eapply Honce; by eexists.
Qed.

Lemma update_for_inj a b u v :
  update_for a u → update_for b v → update_key u = update_key v → a = b.
Proof.
  intros (p & n & Hn & Eu & _) (q & m & Hm & Ev & _) E. eapply Hkeys; [exact Hn | exact Hm | congruence].
Qed.

Lemma update_of_address a :
  a ∈ ((λ e : entry, e.1.2) <$> filter (creates voting) top) ++ (btree_iter left).*1 →
  ∃ u, u ∈ us ∧ update_for a u.
Proof.
  intros [i Hi]%list_elem_of_lookup. destruct (Forall2_lookup_l _ _ _ _ _ updates_for Hi) as (u & Hu & Hf).
  exists u. split; [by eapply list_elem_of_lookup_2 | done].
Qed.

Lemma address_of_update u : u ∈ us → ∃ a, update_for a u.
Proof.
  intros [i Hi]%list_elem_of_lookup. destruct (Forall2_lookup_r _ _ _ _ _ updates_for Hi) as (a & _ & Hf).
  by exists a.
Qed.

Lemma left_voting a : is_Some (left !! a) → ∃ q, voting !! a = Some q.
Proof.
  intros [r Hr]. apply (selected_remaining _ _ _ _ _ _ _ _ _ Hinv Hre) in Hr as (q & Hq & _). by exists q.
Qed.

Lemma update_removes_present u : u ∈ us → update_power u = 0 → is_Some (t !! update_key u).
Proof.
  intros Hu H0'. destruct (address_of_update u Hu) as (a & p & n & Hn & Ek & [(Ep & _ & [Hc _])|(_ & Hl)]).
  { simpl in Hc. lia. }
  destruct (left_voting a Hl) as [q Hq].
  destruct (voting_node _ _ _ _ _ _ _ Hinv Hre Hq) as (m & p' & Hm & Hm' & _).
  destruct (reindexed_once _ _ _ _ _ Hinv Hre) as [Honce _].
  assert (p' = p) as -> by (eapply Honce; by eexists). exists q. apply Ht. exists a, m.
  split; [done|]. split; [done|]. congruence.
Qed.

(** A validator whose key is in no update stays as it is. *)
Lemma unchanged_stays a p n :
  voting !! a = Some p → nodes !! (p, a) = Some n → get_validator_key n ∉ (update_key <$> us) →
  voting' !! a = Some p ∧ nodes' !! (p, a) = Some n.
Proof.
  intros Hv Hn Hku. destruct (reindexed_once _ _ _ _ _ Hinv Hre) as [Honce Hnn].
  destruct (voting_node _ _ _ _ _ _ _ Hinv Hre Hv) as (m' & q & Hm1 & Hm2 & _).
  assert (m' = n) as -> by congruence.
  assert (Hna : a ∉ ((λ e : entry, e.1.2) <$> filter (creates voting) top) ++ (btree_iter left).*1).
  { intros (u & Hu & p' & m & Hm & Em & _)%update_of_address. apply Hku, list_elem_of_fmap.
    exists u. split; [|done]. assert (p' = q) as -> by (eapply Honce; by eexists). congruence. }
  apply not_elem_of_app in Hna as [Hnc Hnl].
  assert (Hl : ∀ r, left !! a ≠ Some r).
  { intros r Hr. apply Hnl, list_elem_of_fmap. exists (a, r). by rewrite elem_of_btree_iter. }
  destruct (decide (a ∈ (λ e : entry, e.1.2) <$> top)) as [Hat|Hat].
  2: { destruct (Hl p). apply (selected_remaining _ _ _ _ _ _ _ _ _ Hinv Hre). exists p. auto. }
  apply list_elem_of_fmap in Hat as ([[r b] m] & Eb & He). simpl in Eb. subst b.
  pose proof (elem_of_top _ _ _ He) as Hm. simpl in Hm.
  assert (r = q) as -> by (eapply Honce; by eexists). assert (m = n) as -> by congruence.
  destruct (inv_voting _ _ _ _ Hinv a p Hv) as [Hpos _].
  assert (q = p) as ->; [|split; [apply Hv'; split; [done | by exists n] | done]].
  destruct (decide (0 < q)) as [Hq|Hq].
  - destruct (decide (q = p)) as [|Hne]; [done|]. destruct Hnc. apply list_elem_of_fmap.
    exists ((q, a), n). split; [done|]. apply list_elem_of_filter. split; [|done].
    split; simpl; [done | congruence].
  - assert (0 ≤ q) by (eapply Hnn; by eexists). assert (q = 0) as -> by lia. destruct (Hl 0).
    apply (selected_remaining _ _ _ _ _ _ _ _ _ Hinv Hre). exists p. split; [done|]. right. by exists n.
Qed.

(** A selected node with the power it had is in no update. *)
Lemma selected_not_updated a p n :
  0 < p → ((p, a), n) ∈ top → voting !! a = Some p → get_validator_key n ∉ (update_key <$> us).
Proof.
  intros Hpos He Hv (u & Ek & Hu)%list_elem_of_fmap.
  destruct (reindexed_once _ _ _ _ _ Hinv Hre) as [Honce _].
  pose proof (elem_of_top _ _ _ He) as Hn. simpl in Hn.
  destruct (address_of_update u Hu) as (b & q & m & Hm & Ek' & Hcase).
  assert (b = a) as -> by (eapply Hkeys; [exact Hm | exact Hn | congruence]).
  assert (q = p) as -> by (eapply Honce; by eexists).
  destruct Hcase as [(_ & _ & [_ Hc])|(_ & [r Hr])]; [done|].
  apply (selected_remaining _ _ _ _ _ _ _ _ _ Hinv Hre) in Hr as (q' & Hq' & [[Hat _]|(m' & Hm' & _)]).
  - apply Hat, list_elem_of_fmap. by exists ((p, a), n).
  - apply elem_of_top in Hm'. simpl in Hm'. assert (p = 0); [|lia]. eapply Honce; by eexists.
Qed.

Lemma refine_updates : ∃ t', apply_updates t us = Some t' ∧ represents t' voting' nodes'.
Proof.
  destruct (apply_updates_spec t us) as (t' & Et & Hin & Hout).
  { eapply NoDup_update_keys; [exact updates_for | exact updates_addresses_NoDup | exact update_for_inj]. }
  { exact update_removes_present. }
  exists t'. split; [done|]. intros k p. split.
  - intros Hk. destruct (decide (k ∈ update_key <$> us)) as [Hku|Hku].
    + apply list_elem_of_fmap in Hku as (u & -> & Hu). rewrite (Hin u Hu) in Hk.
      case_decide as Hz; [done|]. injection Hk as <-.
      destruct (address_of_update u Hu) as (a & p & n & Hn & Ek & [(-> & Htop & Hc)|(? & _)]); [|done].
      exists a, n. split; [apply Hv'; split; [by destruct Hc | by exists n]|]. by split.
    + rewrite Hout in Hk by done. apply Ht in Hk as (a & n & Hv & Hn & <-).
      destruct (unchanged_stays a p n Hv Hn Hku) as [? ?]. by exists a, n.
  - intros (a & n & [Hpos [m He]]%Hv' & Hn & <-).
    pose proof (elem_of_top _ _ _ He) as Hm. simpl in Hm. assert (m = n) as -> by congruence.
    destruct (decide (creates voting ((p, a), n))) as [Hc|Hc].
    + assert (Hu : update_of ((p, a), n) ∈ us).
      { apply elem_of_app. left. apply list_elem_of_fmap_2, list_elem_of_filter. done. }
      pose proof (Hin _ Hu) as E. simpl in E. rewrite decide_False in E by lia. done.
    + assert (Hv : voting !! a = Some p).
      { destruct (decide (voting !! a = Some p)); [done|]. destruct Hc. by split. }
      rewrite Hout by by eapply selected_not_updated.
      apply Ht. exists a, n. split; [done|]. split; [|done].
      destruct (reindexed_once _ _ _ _ _ Hinv Hre) as [Honce _].
      destruct (voting_node _ _ _ _ _ _ _ Hinv Hre Hv) as (m' & q & Hm1 & Hm2 & _).
      assert (p = q) as <- by (eapply Honce; by eexists). congruence.
Qed.
End refine.

Lemma validator_updates_spec s voting changed new_nodes :
  set_inv voting changed new_nodes (council_nodes_by_power (validators s)) →
  ∃ nodes', index_powers voting new_nodes (council_nodes_by_power (validators s)) (btree_iter changed)
      = Some nodes'
    ∧ reindexed voting new_nodes (council_nodes_by_power (validators s)) (btree_iter changed) nodes'
    ∧ let top := top_nodes (get_max_validators (params_of s)) nodes' in
      (outbid voting changed top → get_validator_updates s voting changed new_nodes = None)
      ∧ (¬ outbid voting changed top →
         ∃ s' voting' updates,
           get_validator_updates s voting changed new_nodes = Some (s', voting', updates)
           ∧ council_nodes_by_power (validators s') = nodes'
           ∧ (∀ a p, voting' !! a = Some p ↔ 0 < p ∧ ∃ n, ((p, a), n) ∈ top)
           ∧ ∀ t, represents t voting (council_nodes_by_power (validators s)) → keys_distinct nodes' →
               ∃ t', apply_updates t updates = Some t' ∧ represents t' voting' nodes').
Proof.
  intros Hinv. set (nodes := council_nodes_by_power (validators s)) in *.
  destruct (index_powers_spec voting new_nodes nodes (btree_iter changed)) as (nodes' & Ei & Hre).
  { apply NoDup_btree_iter. } { intros a q. by apply (movable_changed voting changed). }
  exists nodes'. split; [done|]. split; [done|]. intros top.
  set (live := validator_liveness (validator_punishment (with_nodes (validators s) nodes'))).
  set (window := get_block_signing_window (params_of s)).
  set (vs1 := foldl (λ vs e, add_validator_for_tracking vs e.1 e.2 window)
                (with_nodes (validators s) nodes') (reverse (new_to_track (selected live voting top)))).
  assert (En : council_nodes_by_power vs1 = nodes') by apply track_nodes.
  assert (Eg : get_validator_updates s voting changed new_nodes
    = '(vs, st) ← remove_validators vs1 (selected live voting top)
                    (btree_iter (remaining_validators (selected live voting top)));
      Some (with_validators s vs, set_powers st, set_updates st)).
  { unfold get_validator_updates. fold nodes. rewrite Ei. done. }
  rewrite Eg. split.
  - intros Hob. destruct (outbid_not_found live _ _ _ _ _ _ Hinv Hre Hob) as (a & r & Hr & Hn).
    rewrite (remove_validators_panics vs1 _ _ a r); [done | by apply elem_of_btree_iter | by rewrite En].
  - intros Hob. destruct (remove_validators_spec vs1 (selected live voting top)
      (btree_iter (remaining_validators (selected live voting top)))) as (vs' & st' & -> & Hn' & Hgone & Hp).
    { intros a q Hq%elem_of_btree_iter. rewrite En.
      destruct (leaving_found _ _ _ _ _ _ _ _ _ Hinv Hre Hob Hq) as (n & p & -> & _). by eexists. }
    eexists _, _, _. split; [done|]. split; [simpl; congruence|].
    assert (Hv' : ∀ a p, set_powers st' !! a = Some p ↔ 0 < p ∧ ∃ n, ((p, a), n) ∈ top).
    { intros a p. rewrite Hp. by apply (selected_powers live _ _ _ _ _ _ _ _ Hinv Hre). }
    split; [done|]. intros t Ht Hk. destruct Hgone as (gone & Hg & Eu). rewrite En in Hg. rewrite Eu.
    destruct (reindexed_once _ _ _ _ _ Hinv Hre) as [Honce _].
    destruct (select_all_spec live {| set_updates := []; set_powers := voting;
      remaining_validators := voting; new_to_track := [] |} top (top_addresses_NoDup _ nodes' Honce))
      as (Esel & _). fold (selected live voting top) in Esel. rewrite Esel. simpl.
    by apply (refine_updates voting changed new_nodes nodes nodes' _ live gone t (set_powers st')).
Qed.

(** The new voting powers are those of the nodes with the most power that have some. *)
Lemma updates_voting s voting changed new_nodes s' voting' updates a p :
  set_inv voting changed new_nodes (council_nodes_by_power (validators s)) →
  get_validator_updates s voting changed new_nodes = Some (s', voting', updates) →
  voting' !! a = Some p →
  0 < p ∧ ∃ n, ((p, a), n) ∈ top_nodes (get_max_validators (params_of s)) (council_nodes_by_power (validators s')).
Proof.
  intros Hinv Hu Ha. destruct (validator_updates_spec _ _ _ _ Hinv) as (nodes' & _ & _ & Hout & Hok).
  destruct Hok as (s1 & voting1 & updates1 & E & <- & Hv & _); [intros Ho; by rewrite (Hout Ho) in Hu|].
  rewrite Hu in E. injection E as <- <- <-. by apply Hv.
Qed.
End updates.

(** ** Properties *)

(** C4. The index of council nodes and the validator set at the end of a block.  When
    the index has every address once, the validators at their power and the nodes of
    all changes, the changes are indexed without a panic.  The rest panics exactly when
    a validator whose power rose is outbid by other nodes in the same block.  Otherwise
    the new validators are the nodes with the most power, at most as many as allowed,
    that have some, at the power of the index, and the updates are what takes
    Tendermint's set to the new one: no key twice, no removal of an absent key. *)
Theorem validator_updates_refine `{Hashes, Secp256k1, BitVecLib} s voting changed new_nodes :
  set_inv voting changed new_nodes (council_nodes_by_power (validators s)) →
  ∃ nodes', index_powers voting new_nodes (council_nodes_by_power (validators s)) (btree_iter changed)
      = Some nodes'
    ∧ reindexed voting new_nodes (council_nodes_by_power (validators s)) (btree_iter changed) nodes'
    ∧ let top := top_nodes (get_max_validators (params_of s)) nodes' in
      (outbid voting changed top → get_validator_updates s voting changed new_nodes = None)
      ∧ (¬ outbid voting changed top →
         ∃ s' voting' updates,
           get_validator_updates s voting changed new_nodes = Some (s', voting', updates)
           ∧ council_nodes_by_power (validators s') = nodes'
           ∧ (∀ a p, voting' !! a = Some p ↔ 0 < p ∧ ∃ n, ((p, a), n) ∈ top)
           ∧ ∀ t, represents t voting (council_nodes_by_power (validators s)) → keys_distinct nodes' →
               ∃ t', apply_updates t updates = Some t' ∧ represents t' voting' nodes').
Proof. apply validator_updates_spec. Qed.

(** ** Witnesses *)

Section witnesses.
Import AppExample.

Definition one_seat_params : InitNetworkParameters := {|
  initial_fee_policy := initial_fee_policy params_example;
  required_council_node_stake := required_council_node_stake params_example;
  unbonding_period := 60; jailing_config := jailing_config params_example;
  slashing_config := slashing_config params_example;
  rewards_config := rewards_config params_example; max_validators := 1;
|}.
Definition one_seat_state : ChainNodeState :=
  chain_node_state_genesis (replicate 32 Byte.x00) 10 [] (rewards_pool_new 10 1000)
    (GenesisParams one_seat_params)
    {| council_nodes_by_power := {[ (10, addr Byte.x01) := node Byte.x01 ]};
       staking_addresses := ∅;
       validator_punishment := {| validator_liveness := ∅; slashing_schedule := ∅ |} |}.
Definition one_voting : gmap StakedStateAddress Z := {[ addr Byte.x01 := 10 ]}.
Definition joining : gmap StakedStateAddress CouncilNode := {[ addr Byte.x02 := node Byte.x02 ]}.

Lemma one_seat_inv (changed : gmap StakedStateAddress Z) :
  (∀ a q, changed !! a = Some q → (a = addr Byte.x01 ∨ a = addr Byte.x02) ∧ 0 ≤ q) →
  set_inv one_voting changed joining (council_nodes_by_power (validators one_seat_state)).
Proof.
  intros Hc. unfold one_voting, joining. split; simpl.
  - intros p q a [n [[= <- <-] _]%lookup_singleton_Some] [m [[= <-] _]%lookup_singleton_Some]. done.
  - intros p a [n [[= <- <-] _]%lookup_singleton_Some]. lia.
  - intros a p [<- <-]%lookup_singleton_Some. split; [lia|]. by eexists.
  - intros a q [Ha Hq]%Hc. split; [done|]. intros Hv Hne. destruct Ha as [->| ->]; [done|]. split.
    + by intros p [n [[= <-] _]%lookup_singleton_Some].
    + by exists (node Byte.x02).
Qed.

(** The nodes of the index after the changes. *)
Lemma one_seat_nodes changed nodes' p a n :
  (∀ a q, changed !! a = Some q → (a = addr Byte.x01 ∨ a = addr Byte.x02) ∧ 0 ≤ q) →
  reindexed one_voting joining (council_nodes_by_power (validators one_seat_state))
    (btree_iter changed) nodes' →
  nodes' !! (p, a) = Some n →
  a = addr Byte.x01 ∧ n = node Byte.x01 ∨ a = addr Byte.x02 ∧ n = node Byte.x02.
Proof.
  intros Hc Hre Hn. destruct (reindexed_cases _ _ _ _ _ _ _ _ Hre Hn) as [[[Hp _] Hno]|[_ Hn']].
  - apply elem_of_btree_iter, Hc in Hp as [[->| ->] _].
    + left. split; [reflexivity|]. unfold node_of, old_power, one_voting in Hno.
      rewrite lookup_singleton_eq in Hno. simpl in Hno. rewrite lookup_singleton_eq in Hno. congruence.
    + right. split; [reflexivity|]. unfold node_of, old_power, one_voting, joining in Hno.
      rewrite (lookup_singleton_ne (addr Byte.x01)) in Hno by discriminate. simpl in Hno.
      rewrite (lookup_singleton_ne (10, addr Byte.x01)) in Hno by discriminate.
      rewrite lookup_singleton_eq in Hno. congruence.
  - simpl in Hn'. apply lookup_singleton_Some in Hn' as [[= _ <-] <-]. by left.
Qed.

(** A node with more power takes the seat; if the validator's own power rises in the
    same block, the handler panics. *)
Lemma validator_updates_refine_witness :
  (∃ s' voting' updates,
     get_validator_updates one_seat_state one_voting {[ addr Byte.x02 := 20 ]} joining
       = Some (s', voting', updates)
     ∧ voting' !! addr Byte.x02 = Some 20
     ∧ ∃ t', apply_updates {[ get_validator_key (node Byte.x01) := 10 ]} updates = Some t')
  ∧ get_validator_updates one_seat_state one_voting
      (<[addr Byte.x01 := 11]> {[ addr Byte.x02 := 20 ]}) joining = None.
Proof.
  split.
  - assert (Hc : ∀ a q, ({[ addr Byte.x02 := 20 ]} : gmap StakedStateAddress Z) !! a = Some q →
      (a = addr Byte.x01 ∨ a = addr Byte.x02) ∧ 0 ≤ q).
    { intros a q [<- <-]%lookup_singleton_Some. split; [by right | lia]. }
    destruct (validator_updates_refine one_seat_state one_voting {[ addr Byte.x02 := 20 ]} joining
      (one_seat_inv _ Hc)) as (nodes' & Ei & Hre & _ & Hok).
    destruct Hok as (s' & voting' & us & E & _ & Hv & Href).
    { intros (a & p & q & Hv' & [<- _]%lookup_singleton_Some & _).
      unfold one_voting in Hv'. apply lookup_singleton_Some in Hv' as [Hv' _]. discriminate Hv'. }
    exists s', voting', us. split; [exact E|]. split.
    + apply Hv. split; [lia|]. exists (node Byte.x02).
      assert (Et : match index_powers one_voting joining
          (council_nodes_by_power (validators one_seat_state)) (btree_iter {[ addr Byte.x02 := 20 ]}) with
        | Some nodes => bool_decide ((20, addr Byte.x02, node Byte.x02) ∈ top_nodes 1 nodes)
        | None => false end = true) by (vm_compute; reflexivity).
      rewrite Ei in Et. exact (bool_decide_eq_true_1 _ Et).
    + destruct (Href {[ get_validator_key (node Byte.x01) := 10 ]}) as (t' & Et & _); [| |by exists t'].
      * intros k p. rewrite lookup_singleton_Some. split.
        -- intros [<- <-]. exists (addr Byte.x01), (node Byte.x01).
           split; [apply lookup_singleton_eq|]. split; [apply lookup_singleton_eq | reflexivity].
        -- unfold one_voting. simpl.
           intros (a & n & [<- <-]%lookup_singleton_Some & [_ <-]%lookup_singleton_Some & <-).
           split; reflexivity.
      * intros p q a b n m Hn Hm Ek.
        destruct (one_seat_nodes _ _ _ _ _ Hc Hre Hn) as [[-> ->]|[-> ->]],
          (one_seat_nodes _ _ _ _ _ Hc Hre Hm) as [[-> ->]|[-> ->]];
          first [reflexivity | discriminate Ek].
  - destruct (validator_updates_refine one_seat_state one_voting
      (<[addr Byte.x01 := 11]> {[ addr Byte.x02 := 20 ]}) joining) as (nodes' & Ei & _ & Hpanic & _).
    { apply one_seat_inv. intros a q [[<- <-]|[_ [<- <-]%lookup_singleton_Some]]%lookup_insert_Some.
      - split; [by left | lia].
      - split; [by right | lia]. }
    apply Hpanic. exists (addr Byte.x01), 10, 11.
    split; [apply lookup_singleton_eq|]. split; [apply lookup_insert_eq|]. split; [lia|]. split; [lia|].
    assert (Et : match index_powers one_voting joining
        (council_nodes_by_power (validators one_seat_state))
        (btree_iter (<[addr Byte.x01 := 11]> {[ addr Byte.x02 := 20 ]})) with
      | Some nodes => bool_decide (addr Byte.x01 ∉ (λ e, e.1.2) <$> top_nodes 1 nodes)
      | None => false end = true) by (vm_compute; reflexivity).
    rewrite Ei in Et. exact (bool_decide_eq_true_1 _ Et).
Defined.
End witnesses.
