(* ===== verification/TreeCodec.v ===== *)
(** * TreeCodec: the encoding of Merkle trees

    The derived codecs of [Tree] and [MerkleTree]
    ([src/chain-core/src/common/merkle_tree.rs]) for values of a fixed width: the node
    stores the trees of transaction identifiers, the wallet those of its addresses. *)

From stdpp Require Import base tactics option list.
From Stdlib Require Import ZArith Lia.
From S2P Require Import Prelude Text Codec Crypto Merkle.

Section trees.
Context `{Scale} (n : nat).

Fixpoint tree_encode (t : Tree) : list byte :=
  match t with
  | Empty => [Byte.x00]
  | Leaf hash value => Byte.x01 :: enc (array_codec 32) hash ++ enc (array_codec n) value
  | Node hash l r => Byte.x02 :: enc (array_codec 32) hash ++ tree_encode l ++ tree_encode r
  end.

(** Every level of the recursion reads its tag, so that the length of the input bounds
    the depth. *)
Fixpoint tree_decode (fuel : nat) : decoder Tree :=
  match fuel with
  | O => dfail
  | S fuel =>
      tag ⇐ read_byte;
      match tag with
      | Byte.x00 => dret Empty
      | Byte.x01 => hash ⇐ dec (array_codec 32); value ⇐ dec (array_codec n); dret (Leaf hash value)
      | Byte.x02 => hash ⇐ dec (array_codec 32); l ⇐ tree_decode fuel; r ⇐ tree_decode fuel;
                    dret (Node hash l r)
      | _ => dfail
      end
  end.

Definition tree_codec : codec Tree := Codec tree_encode (λ i, tree_decode (S (length i)) i).

Definition merkle_tree_codec : codec MerkleTree :=
  Codec (λ t, enc tree_codec (tree t) ++ enc u64_codec (len t) ++ enc u64_codec (height t))
    (t ⇐ dec tree_codec; l ⇐ dec u64_codec; h ⇐ dec u64_codec;
     dret {| tree := t; len := l; height := h |}).

(** ** The round trip *)

Inductive tree_sized : Tree → Prop :=
  | sized_empty : tree_sized Empty
  | sized_leaf hash value : array_ok 32 hash → array_ok n value → tree_sized (Leaf hash value)
  | sized_node hash l r : array_ok 32 hash → tree_sized l → tree_sized r → tree_sized (Node hash l r).

Definition merkle_tree_sized (t : MerkleTree) : Prop :=
  tree_sized (tree t) ∧ is_u64 (len t) ∧ is_u64 (height t).

Context `{!ScaleLaws}.

Lemma tree_decode_encode t fuel rest :
  tree_sized t → (length (tree_encode t) ≤ fuel)%nat → tree_decode fuel (tree_encode t ++ rest) = Some (t, rest).
Proof.
  intros Ht. revert fuel rest. induction Ht as [|hash value Hh Hv|hash l r Hh Hl IHl Hr IHr];
    intros [|fuel] rest Hf; simpl in *; try lia; rewrite ?dbind_read_byte.
  - done.
  - rewrite <- !app_assoc. dec_step. by dec_step.
  - rewrite <- !app_assoc. dec_step. rewrite !length_app in Hf. unfold dbind.
    rewrite IHl by lia. by rewrite IHr by lia.
Qed.

Lemma tree_codec_ok : codec_ok tree_sized tree_codec.
Proof. intros t rest Ht. cbn [enc dec tree_codec]. apply tree_decode_encode; [done|]. rewrite length_app. lia. Qed.

Lemma merkle_tree_codec_ok : codec_ok merkle_tree_sized merkle_tree_codec.
Proof.
  intros [t l h] rest (Ht & Hl & Hh). cbn [enc dec merkle_tree_codec tree len height] in *.
  rewrite <- !app_assoc, (dbind_ok tree_sized) by (apply tree_codec_ok || done). by do 2 dec_step.
Qed.

Context `{!Hashes}.

Lemma tree_ok_sized t : tree_ok t → Forall (array_ok n) (leaves t) → tree_sized t.
Proof.
  induction 1 as [v|l r Hl IHl Hr IHr]; simpl.
  - intros Hv. apply sized_leaf; [apply blake2s_length | by inversion Hv].
  - intros [? ?]%Forall_app. apply sized_node; [apply blake2s_length | auto | auto].
Qed.

(** What [new] builds can be encoded. *)
Lemma merkle_new_sized vs t :
  merkle_new vs = Some t → Forall (array_ok n) vs → Z.of_nat (length vs) ≤ U64_MAX → merkle_tree_sized t.
Proof.
  intros Ht Hv Hl. destruct (decide (vs = [])) as [->|Hne].
  { injection Ht as <-. split; [constructor | split; [done | done]]. }
  destruct (merkle_new_Some vs Hne) as (mt & E & _ & Elen & Eh & Hok & Elv).
  assert (mt = t) as -> by congruence. split; [|split].
  - apply tree_ok_sized; [done | by rewrite Elv].
  - rewrite Elen. split; lia.
  - rewrite Eh. assert (Hlog : (Nat.log2_up (length vs) ≤ length vs)%nat).
    { destruct (decide (length vs = 0)%nat) as [->|]; [done|]. apply Nat.lt_le_incl, Nat.log2_up_lt_lin. lia. }
    split; lia.
Qed.
End trees.
#[export] Hint Resolve tree_codec_ok merkle_tree_codec_ok : codec.
