(* ===== verification/NodeCodec.v ===== *)
(** * NodeCodec: the encoding of the persisted state

    The derived codecs of [ChainNodeState] and of the types it is made of
    ([src/chain-abci/src/app/app_init.rs], [src/chain-abci/src/punishment.rs],
    [src/chain-abci/src/slashing.rs]), and their round trip: what a node
    reads at a restart is what it wrote at its last commit. *)

From stdpp Require Import base tactics option list gmap.
From Stdlib Require Import ZArith Lia.
From S2P Require Import Prelude Text Codec Milli Coin Crypto Merkle Params Account TxTypes.
From S2P Require Import Validation BitVec Punishment Genesis Storage EnclaveProtocol AppState.

Section codecs.
Context `{Scale, BitVecLib}.

Definition slashing_schedule_codec : codec SlashingSchedule :=
  Codec (λ s, enc u64_codec (slash_ratio s) ++ enc u64_codec (slashing_time s)
              ++ enc punishment_kind_codec (punishment_kind s))
    (r ⇐ dec u64_codec; t ⇐ dec u64_codec; k ⇐ dec punishment_kind_codec;
     dret {| slash_ratio := r; slashing_time := t; punishment_kind := k |}).

Definition validator_punishment_codec : codec ValidatorPunishment :=
  Codec (λ p, enc (btree_codec (array_codec 20) liveness_codec) (validator_liveness p)
              ++ enc (btree_codec address_codec slashing_schedule_codec) (slashing_schedule p))
    (l ⇐ dec (btree_codec (array_codec 20) liveness_codec);
     s ⇐ dec (btree_codec address_codec slashing_schedule_codec);
     dret {| validator_liveness := l; slashing_schedule := s |}).

(** [TendermintVotePower] is an [i64]. *)
Definition power_key_codec : codec (Z * StakedStateAddress) := codec_pair i64_codec address_codec.

Definition validator_state_codec : codec ValidatorState :=
  Codec (λ v, enc (btree_codec power_key_codec council_node_codec) (council_nodes_by_power v)
              ++ enc (btree_codec (array_codec 20) address_codec) (staking_addresses v)
              ++ enc validator_punishment_codec (validator_punishment v))
    (n ⇐ dec (btree_codec power_key_codec council_node_codec);
     a ⇐ dec (btree_codec (array_codec 20) address_codec);
     p ⇐ dec validator_punishment_codec;
     dret {| council_nodes_by_power := n; staking_addresses := a; validator_punishment := p |}).

Definition node_state_codec : codec ChainNodeState :=
  Codec (λ s, enc i64_codec (state_block_height s) ++ enc (array_codec 32) (last_apphash s)
              ++ enc u64_codec (block_time s)
              ++ enc (btree_codec address_codec u64_codec) (proposer_stats s)
              ++ enc validator_state_codec (validators s) ++ enc u64_codec (genesis_time s)
              ++ enc chain_state_codec (top_level s))
    (h ⇐ dec i64_codec; a ⇐ dec (array_codec 32); t ⇐ dec u64_codec;
     p ⇐ dec (btree_codec address_codec u64_codec); v ⇐ dec validator_state_codec;
     g ⇐ dec u64_codec; l ⇐ dec chain_state_codec;
     dret {| state_block_height := h; last_apphash := a; block_time := t; proposer_stats := p;
             validators := v; genesis_time := g; top_level := l |}).

(** ** Types of the fields *)

Definition slashing_schedule_ok (s : SlashingSchedule) : Prop :=
  is_u64 (slash_ratio s) ∧ is_u64 (slashing_time s).
Definition tracker_ok (t : LivenessTracker) : Prop := Z.of_nat (bv_len (liveness t)) ≤ U16_MAX.
Definition validator_punishment_ok (p : ValidatorPunishment) : Prop :=
  btree_ok (array_ok 20) tracker_ok (validator_liveness p)
  ∧ btree_ok address_ok slashing_schedule_ok (slashing_schedule p).
Definition validator_state_ok (v : ValidatorState) : Prop :=
  btree_ok (λ k, is_i64 k.1 ∧ address_ok k.2) council_node_ok (council_nodes_by_power v)
  ∧ btree_ok (array_ok 20) address_ok (staking_addresses v)
  ∧ validator_punishment_ok (validator_punishment v).
Definition node_state_ok (s : ChainNodeState) : Prop :=
  is_i64 (state_block_height s) ∧ array_ok 32 (last_apphash s) ∧ is_u64 (block_time s)
  ∧ btree_ok address_ok is_u64 (proposer_stats s) ∧ validator_state_ok (validators s)
  ∧ is_u64 (genesis_time s) ∧ chain_state_ok (top_level s).

(** ** Round trips *)

Context `{!ScaleLaws, !BitVecLaws}.

Lemma slashing_schedule_codec_ok : codec_ok slashing_schedule_ok slashing_schedule_codec.
Proof.
  intros [r t k] rest (Hr & Ht). cbn [enc dec slashing_schedule_codec]. rewrite <- !app_assoc.
  assert (Hk : codec_ok (λ _, True) punishment_kind_codec) by by intros [] ? _.
  do 2 dec_step. by rewrite (dbind_ok _ _ _ _ _ Hk).
Qed.

Lemma validator_punishment_codec_ok : codec_ok validator_punishment_ok validator_punishment_codec.
Proof.
  intros [l s] rest (Hl & Hs). cbn [enc dec validator_punishment_codec]. rewrite <- !app_assoc.
  rewrite (dbind_ok _ _ _ _ _ (btree_codec_ok _ _ _ _ (array_codec_ok 20) liveness_codec_ok)) by done.
  by rewrite (dbind_ok _ _ _ _ _ (btree_codec_ok _ _ _ _ address_codec_ok slashing_schedule_codec_ok)).
Qed.

Lemma power_key_codec_ok : codec_ok (λ k, is_i64 k.1 ∧ address_ok k.2) power_key_codec.
Proof. apply codec_pair_ok; [apply i64_codec_ok | apply address_codec_ok]. Qed.

Lemma validator_state_codec_ok : codec_ok validator_state_ok validator_state_codec.
Proof.
  intros [n a p] rest (Hn & Ha & Hp). cbn [enc dec validator_state_codec]. rewrite <- !app_assoc.
  rewrite (dbind_ok _ _ _ _ _ (btree_codec_ok _ _ _ _ power_key_codec_ok council_node_codec_ok)) by done.
  rewrite (dbind_ok _ _ _ _ _ (btree_codec_ok _ _ _ _ (array_codec_ok 20) address_codec_ok)) by done.
  by rewrite (dbind_ok _ _ _ _ _ validator_punishment_codec_ok).
Qed.

Lemma node_state_codec_ok : codec_ok node_state_ok node_state_codec.
Proof.
  intros [] rest (?&?&?&?&?&?&?). cbn [enc dec node_state_codec]. rewrite <- !app_assoc.
  do 3 dec_step. rewrite (dbind_ok _ _ _ _ _ (btree_codec_ok _ _ _ _ address_codec_ok u64_codec_ok)) by done.
  rewrite (dbind_ok _ _ _ _ _ validator_state_codec_ok) by done. dec_step.
  by rewrite (dbind_ok _ _ _ _ _ chain_state_codec_ok).
Qed.
End codecs.
