(* ===== verification/Commit.v ===== *)
(** * Commit: the end of a block is made durable

    Models [process_txs] and [commit_handler] of [src/chain-abci/src/app/commit.rs]:
    the records of the outputs, the bodies and the witnesses of the delivered
    transactions, the application hash and the state a restart reads. *)

From stdpp Require Import base tactics option list gmap strings.
From Stdlib Require Import ZArith Lia.
From S2P Require Import Prelude Text Codec Milli Coin Crypto Merkle Params Account TxTypes.
From S2P Require Import Validation BitVec Punishment Genesis Storage EnclaveProtocol AppState.
From S2P Require Import TreeCodec NodeCodec Slashing DeliverTx EndBlock.

(** [VarInt::encode_var_vec] of the [integer-encoding] crate on an [i64]. *)
Class VarInt := { i64_encode_var : Z → list byte }.

Section commit.
Context `{Hashes, Secp256k1, Scale, BitVecLib, KeyValueDB, StarlingTree, VarInt, !EnclaveProxy}.

(** The record of a transaction with all outputs unspent. *)
Definition unspent_record (no_of_outputs : TxoIndex) : list byte :=
  bv_to_bytes (bv_from_elem (Z.to_nat no_of_outputs) false).

(** [PlainTxAux::decode] of the payload: a payload that is not plain is skipped. *)
Definition plain_transfer_puts (i : TxId) (txpayload : list byte) : DBTransaction :=
  match decode plain_tx_aux_codec txpayload with
  | Some (PlainTransferTx tx witness) =>
      [Put COL_BODIES i (enc tx_with_outputs_codec (Transfer tx));
       Put COL_WITNESS i (enc tx_witness_codec witness)]
  | _ => []
  end.

Definition plain_withdraw_puts (i : TxId) (txpayload : list byte) : DBTransaction :=
  match decode plain_tx_aux_codec txpayload with
  | Some (PlainWithdrawUnbondedStakeTx tx) =>
      [Put COL_BODIES i (enc tx_with_outputs_codec (StakeWithdraw tx))]
  | _ => []
  end.

Definition process_tx (db : Db) (inittx : DBTransaction) (txaux : TxAux) : option DBTransaction :=
  let i := tx_id txaux in
  match txaux with
  | EnclaveTx (TransferTx ins no_of_outputs payload) =>
      update_utxos_commit ins no_of_outputs i db
        (inittx ++ plain_transfer_puts i (txpayload payload))
  | EnclaveTx (DepositStakeTx tx _) =>
      spend_utxos (deposit_inputs tx) db (inittx ++ [Put COL_BODIES i (enc deposit_codec tx)])
  | UnbondStakeTx tx witness =>
      Some (inittx ++ [Put COL_BODIES i (enc unbond_codec tx);
                       Put COL_WITNESS i (enc op_witness_codec witness)])
  | EnclaveTx (WithdrawUnbondedStakeTx no_of_outputs witness payload) =>
      Some (inittx ++ plain_withdraw_puts i (txpayload payload)
            ++ [Put COL_WITNESS i (enc op_witness_codec witness);
                Put COL_TX_META i (unspent_record no_of_outputs)])
  | UnjailStakeTx tx witness =>
      Some (inittx ++ [Put COL_BODIES i (enc unjail_codec tx);
                       Put COL_WITNESS i (enc op_witness_codec witness)])
  | NodeJoinTx tx witness =>
      Some (inittx ++ [Put COL_BODIES i (enc node_join_codec tx);
                       Put COL_WITNESS i (enc op_witness_codec witness)])
  end.

Fixpoint process_txs (db : Db) (inittx : DBTransaction) (txs : list TxAux) : option DBTransaction :=
  match txs with
  | [] => Some inittx
  | txaux :: txs => inittx ← process_tx db inittx txaux; process_txs db inittx txs
  end.

(** The state that is committed. *)
Definition committed_state (self : ChainNodeApp) (state : ChainNodeState) (app_hash : H256) :
  ChainNodeState :=
  let pool := if rewards_pool_updated self
              then with_pool_height (pool_of state) (state_block_height state) else pool_of state in
  with_apphash
    (with_top_level state
       (with_root (with_pool (top_level state) pool) (uncommitted_account_root_hash self)))
    app_hash.

Definition commit_info (self : ChainNodeApp) (state : ChainNodeState) (base_fee : Fee) : ChainInfo :=
  {| min_fee_computed := base_fee; info_chain_hex_id := app_chain_hex_id self;
     previous_block_time := block_time state;
     info_unbonding_period := get_unbonding_period (params_of state) |}.

(** The entries of the committed state. *)
Definition state_puts (self : ChainNodeApp) (state : ChainNodeState) : DBTransaction :=
  let encoded_height := i64_encode_var (state_block_height state) in
  [Put COL_NODE_INFO LAST_STATE_KEY (enc node_state_codec state);
   Put COL_APP_HASHS encoded_height (last_apphash state)]
  ++ match tx_query_address self with
     | Some _ => [Put COL_APP_STATES encoded_height (enc chain_state_codec (top_level state))]
     | None => []
     end.

(** The application and the data of the response, the application hash. *)
Definition commit_handler (self : ChainNodeApp) : option (ChainNodeApp * H256) :=
  state ← last_state self;
  tree ← merkle_new (tx_id <$> delivered_txs self);
  inittx ← process_txs (storage self) [] (delivered_txs self);
  let state' := committed_state self state [] in
  let app_hash := compute_app_hash tree (account_root (top_level state')) (pool_of state')
                    (params_of state') in
  let new_state := committed_state self state app_hash in
  let inittx := inittx ++ [Put COL_MERKLE_PROOFS app_hash (enc (merkle_tree_codec 32) tree)] in
  base_fee ← unwrap (params_calculate_fee (params_of new_state) 0);
  '(response, v) ← process_request (tx_validator self)
                     (CommitBlock app_hash (commit_info self new_state base_fee));
  match response with
  | RespCommitBlock (Ok _) =>
      let self := set_pool_updated (set_validator self v) false in
      db ← unwrap (db_write (storage self) (inittx ++ state_puts self new_state));
      Some (set_storage (set_last_state self new_state) db [], app_hash)
  | _ => None
  end.
End commit.

(** ** The records of the outputs *)

Section records.
Context `{Hashes, Secp256k1, BitVecLaws, KeyValueDBLaws, ScaleLaws, StarlingLaws, VarInt, !EnclaveProxy}.

(** The number of outputs a transaction creates, as far as it is public. *)
Definition tx_creates (t : TxAux) : option Z :=
  match t with
  | EnclaveTx (TransferTx _ n _) | EnclaveTx (WithdrawUnbondedStakeTx n _ _) => Some n
  | _ => None
  end.

(** The records after a list of transactions: new ones are unspent, up to the end of
    their last byte, and nothing else changes. *)
Fixpoint status_after (base : TxoPointer → option bool) (txs : list TxAux) (p : TxoPointer) :
  option bool :=
  match txs with
  | [] => base p
  | t :: txs =>
      match tx_creates t with
      | Some n => if decide (id p = tx_id t)
                  then (if index p <? 8 * ((n + 7) / 8) then Some false else None)
                  else status_after base txs p
      | None => status_after base txs p
      end
  end.

(** The inputs of a delivered transaction are spent. *)
Definition inputs_spent (m : dbmap) (t : TxAux) : Prop :=
  Forall (λ p, 0 ≤ index p ∧ utxo_status m p = Some true) (tx_spends t).

(** The transactions create records that are not there yet, each its own. *)
Definition creates_fresh (m : dbmap) (txs : list TxAux) : Prop :=
  NoDup (tx_id <$> filter (λ t, is_Some (tx_creates t)) txs)
  ∧ Forall (λ t, ∀ n, tx_creates t = Some n → 0 ≤ n ∧ m !! (COL_TX_META, tx_id t) = None) txs.

Lemma status_other_column m ops p :
  Forall (λ op, match op with Put c _ _ => c ≠ COL_TX_META end) ops →
  utxo_status (apply_ops m ops) p = utxo_status m p.
Proof.
  revert m. induction ops as [|[c k v] ops IH]; intros m Hops; [done|].
  apply Forall_cons in Hops as [Hc Hops]. cbn [apply_ops foldl]. fold (apply_ops (apply_op m (Put c k v)) ops).
  rewrite IH by done. unfold utxo_status. simpl. rewrite lookup_insert_ne by congruence. done.
Qed.

Lemma plain_puts_other i pl :
  Forall (λ op, match op with Put c _ _ => c ≠ COL_TX_META end) (plain_transfer_puts i pl)
  ∧ Forall (λ op, match op with Put c _ _ => c ≠ COL_TX_META end) (plain_withdraw_puts i pl).
Proof.
  unfold plain_transfer_puts, plain_withdraw_puts.
  destruct (decode plain_tx_aux_codec pl) as [[]|]; split; repeat constructor; done.
Qed.

(** Spending again what is spent changes nothing, where the records of the inputs are
    as in the store. *)
Lemma respend m ins db dbtx :
  Forall (λ p, 0 ≤ index p ∧ utxo_status (db_view db) p = Some true) ins →
  (∀ p, 0 ≤ index p → id p ∈ id <$> ins → utxo_status (apply_ops m dbtx) p = utxo_status (db_view db) p) →
  ∃ ops, spend_utxos ins db dbtx = Some ops
    ∧ ∀ p, 0 ≤ index p → utxo_status (apply_ops m ops) p = utxo_status (apply_ops m dbtx) p.
Proof.
  intros Hins Hsame. destruct (spend_utxos_spec ins db dbtx) as (ops & E & Hst & _).
  { eapply Forall_impl; [exact Hins|]. simpl. intros p [? ->]. by split; [eexists|]. }
  eexists. split; [exact E|]. intros p Hp. rewrite apply_ops_app, Hst by done.
  case_decide as Hin.
  - rewrite Forall_forall in Hins. destruct (Hins p Hin) as [_ Hs].
    rewrite Hsame; [done | done | by apply list_elem_of_fmap_2].
  - case_decide as Hid; [|done]. by rewrite Hsame.
Qed.

(** The record a transaction creates. *)
Lemma put_record_status m n i p :
  0 ≤ n → 0 ≤ index p →
  utxo_status (apply_op m (Put COL_TX_META i (unspent_record n))) p
  = if decide (id p = i) then (if index p <? 8 * ((n + 7) / 8) then Some false else None)
    else utxo_status m p.
Proof.
  intros Hn Hp. unfold utxo_status. simpl. case_decide as Hid.
  - rewrite Hid, lookup_insert_eq. by apply new_record_status.
  - by rewrite lookup_insert_ne by congruence.
Qed.

Lemma process_tx_spec m db dbtx t :
  inputs_spent (db_view db) t → (∀ n, tx_creates t = Some n → 0 ≤ n) →
  (∀ p, 0 ≤ index p → id p ∈ id <$> tx_spends t →
     utxo_status (apply_ops m dbtx) p = utxo_status (db_view db) p) →
  ∃ ops, process_tx db dbtx t = Some ops
    ∧ ∀ p, 0 ≤ index p → utxo_status (apply_ops m ops) p
        = match tx_creates t with
          | Some n => if decide (id p = tx_id t)
                      then (if index p <? 8 * ((n + 7) / 8) then Some false else None)
                      else utxo_status (apply_ops m dbtx) p
          | None => utxo_status (apply_ops m dbtx) p
          end.
Proof.
  intros Hin Hn Hsame.
  assert (Hother : ∀ ops, Forall (λ op, match op with Put c _ _ => c ≠ COL_TX_META end) ops →
    ∀ p, utxo_status (apply_ops m (dbtx ++ ops)) p = utxo_status (apply_ops m dbtx) p).
  { intros ops Hops p. rewrite apply_ops_app. by apply status_other_column. }
  destruct t as [[ins n pl|tx pl|n w pl]|tx w|tx w|tx w]; cbn [process_tx tx_creates].
  - unfold update_utxos_commit. destruct (plain_puts_other (txid pl) (txpayload pl)) as [Hpl _].
    destruct (respend m ins db (dbtx ++ plain_transfer_puts (txid pl) (txpayload pl))) as (ops & E & Hst).
    { exact Hin. } { intros p Hp Hid. rewrite Hother by done. by apply Hsame. }
    change (tx_id (EnclaveTx (TransferTx ins n pl))) with (txid pl) in *. rewrite E. simpl.
    eexists. split; [done|]. intros p Hp. rewrite apply_ops_app.
    fold (unspent_record n). cbn [apply_ops foldl]. fold (apply_ops m ops).
    rewrite put_record_status by auto.
    case_decide; [done|]. rewrite Hst by done. by apply Hother.
  - destruct (respend m (deposit_inputs tx) db (dbtx ++ [Put COL_BODIES
      (tx_id (EnclaveTx (DepositStakeTx tx pl))) (enc deposit_codec tx)])) as (ops & E & Hst).
    { exact Hin. } { intros p Hp Hid. rewrite Hother by by repeat constructor. by apply Hsame. }
    exists ops. split; [exact E|]. intros p Hp. rewrite Hst by done. apply Hother. by repeat constructor.
  - eexists. split; [done|]. intros p Hp.
    destruct (plain_puts_other (txid pl) (txpayload pl)) as [_ Hpl].
    change (tx_id (EnclaveTx (WithdrawUnbondedStakeTx n w pl))) with (txid pl).
    rewrite !apply_ops_app. cbn [apply_ops foldl].
    rewrite put_record_status by auto. case_decide; [done|].
    match goal with |- utxo_status (apply_op ?x ?o) p = _ => change (apply_op x o) with (apply_ops x [o]) end.
    rewrite status_other_column by by repeat constructor. by rewrite status_other_column.
  - eexists. split; [done|]. intros p _. apply Hother. by repeat constructor.
  - eexists. split; [done|]. intros p _. apply Hother. by repeat constructor.
  - eexists. split; [done|]. intros p _. apply Hother. by repeat constructor.
Qed.

Lemma status_after_ext base base' txs p :
  base p = base' p → status_after base txs p = status_after base' txs p.
Proof. intros Hb. induction txs as [|t txs IH]; simpl; [done|]. rewrite IH. done. Qed.

Lemma status_after_cons base t txs p :
  NoDup (tx_id <$> filter (λ t, is_Some (tx_creates t)) (t :: txs)) →
  status_after (status_after base [t]) txs p = status_after base (t :: txs) p.
Proof.
  intros Hnd. assert (Hne : ∀ t', t' ∈ txs → is_Some (tx_creates t) → is_Some (tx_creates t') →
    tx_id t' ≠ tx_id t).
  { intros t' Hin Ht Ht' E. rewrite filter_cons_True in Hnd by done. cbn [fmap list_fmap] in Hnd.
    apply NoDup_cons in Hnd as [Hnd _]. apply Hnd, list_elem_of_fmap. exists t'.
    split; [done|]. by apply list_elem_of_filter. }
  clear Hnd. cbn [status_after]. destruct (tx_creates t) as [n|] eqn:Et; [|by apply status_after_ext].
  induction txs as [|t' txs IH]; cbn [status_after]; [done|].
  specialize (IH (λ t'' Hin, Hne t'' ltac:(by right))).
  destruct (tx_creates t') as [n'|] eqn:Et'; [|done].
  destruct (decide (id p = tx_id t')) as [E'|]; [|done].
  rewrite decide_False; [done|]. rewrite E'. apply Hne; [by left | done | by eexists].
Qed.

Lemma creates_fresh_tail m t txs : creates_fresh m (t :: txs) → creates_fresh m txs.
Proof.
  intros [Hnd Hf]. apply Forall_cons in Hf as [_ Hf]. split; [|done].
  rewrite filter_cons in Hnd. case_decide; [|done]. by apply NoDup_cons in Hnd as [_ ?].
Qed.

Lemma process_txs_spec db m txs dbtx :
  Forall (inputs_spent (db_view db)) txs → creates_fresh (db_view db) txs →
  (∀ p, 0 ≤ index p → is_Some (db_view db !! (COL_TX_META, id p)) →
     utxo_status (apply_ops m dbtx) p = utxo_status (db_view db) p) →
  ∃ ops, process_txs db dbtx txs = Some ops
    ∧ ∀ p, 0 ≤ index p → utxo_status (apply_ops m ops) p
         = status_after (utxo_status (apply_ops m dbtx)) txs p.
Proof.
  revert dbtx. induction txs as [|t txs IH]; intros dbtx Hin Hfr Hsame.
  { exists dbtx. by split. }
  apply Forall_cons in Hin as [Ht Hin]. pose proof (creates_fresh_tail _ _ _ Hfr) as Hfr'.
  destruct Hfr as [Hnd Hf]. apply Forall_cons in Hf as [Hft _]. cbn [process_txs].
  destruct (process_tx_spec m db dbtx t) as (ops & E & Hst); [done | intros n Hn; by apply Hft | |].
  { intros p Hp (q & Eq & Hq)%list_elem_of_fmap. apply Hsame; [done|]. rewrite Eq.
    unfold inputs_spent in Ht. rewrite Forall_forall in Ht. destruct (Ht q Hq) as [_ Hs].
    unfold utxo_status in Hs. destruct (db_view db !! (COL_TX_META, id q)); [by eexists | done]. }
  rewrite E. cbn [mbind option_bind]. destruct (IH ops Hin Hfr') as (ops' & E' & Hst').
  { intros p Hp Hrec. rewrite Hst by done. destruct (tx_creates t) as [n|] eqn:Et; [|by apply Hsame].
    rewrite decide_False; [by apply Hsame|]. intros Eid. destruct (Hft n eq_refl) as [_ Hno].
    rewrite Eid, Hno in Hrec. by destruct Hrec. }
  exists ops'. split; [done|]. intros p Hp. rewrite Hst' by done.
  rewrite <- status_after_cons by done. apply status_after_ext. by rewrite Hst.
Qed.
End records.

(** ** A block *)

Section block.
Context `{Hashes, Secp256k1, BitVecLaws, KeyValueDBLaws, ScaleLaws, StarlingLaws, Hex, VarInt,
          !EnclaveProxy, !EnclaveContract}.

(** The inputs of the transactions delivered so far are spent. *)
Definition deliveries_spent (self : ChainNodeApp) : Prop :=
  Forall (inputs_spent (db_view (storage self))) (delivered_txs self).

Lemma deliver_spent self s m tx self' r :
  tx_inv self s m → params_ok (params_of s) → deliveries_spent self →
  deliver_tx self tx = Some (self', r) →
  ∃ s' m', tx_inv self' s' m' ∧ params_ok (params_of s') ∧ deliveries_spent self'.
Proof.
  intros Hinv Hp Hsp Hd.
  destruct (deliver_tx_cases _ _ _ _ _ _ Hinv Hp Hd) as [(Hr & v & -> & Hpv)|
    (Hr & txaux & fee & acc & min_fee & spent & created & s' & Hdec & Hty & Hacc & Hdel)].
  { exists s, m. split; [by apply refused_inv | done]. }
  pose proof (delivered_inv _ _ _ _ _ _ _ _ Hinv Hdel) as Hinv'.
  destruct Hdel as (Hs' & -> & Hm' & _ & Hdl & _ & _ & _ & _ & Hst).
  eexists _, _. split; [exact Hinv'|]. split; [done|]. unfold deliveries_spent. rewrite Hdl.
  apply Forall_app. split; [|apply Forall_singleton].
  - eapply Forall_impl; [exact Hsp|]. intros t Hin. eapply Forall_impl; [exact Hin|].
    intros p [Hp' Hs'']. split; [done|]. rewrite Hst by done. by case_decide.
  - apply Forall_forall. intros p Hin. apply tx_spends_ok in Hty. rewrite Forall_forall in Hty.
    destruct (Hty p Hin) as [_ Hidx]. assert (0 ≤ index p) by ints. split; [done|].
    by rewrite Hst, decide_True.
Qed.

Lemma deliver_all_spent txs self s m self' :
  tx_inv self s m → params_ok (params_of s) → deliveries_spent self →
  deliver_all self txs = Some self' →
  ∃ s' m', tx_inv self' s' m' ∧ params_ok (params_of s') ∧ deliveries_spent self'.
Proof.
  revert self s m. induction txs as [|tx txs IH]; intros self s m Hinv Hp Hsp Hall.
  { injection Hall as <-. by exists s, m. }
  cbn [deliver_all] in Hall. destruct (deliver_tx self tx) as [[self1 r]|] eqn:E; [|done]. simpl in Hall.
  destruct (deliver_spent _ _ _ _ _ _ Hinv Hp Hsp E) as (s1 & m1 & Hinv1 & Hp1 & Hsp1).
  by eapply IH.
Qed.

Lemma end_block_frame self h self' resp :
  end_block_handler self h = Some (self', resp) →
  storage self' = storage self ∧ delivered_txs self' = delivered_txs self
  ∧ accounts self' = accounts self
  ∧ uncommitted_account_root_hash self' = uncommitted_account_root_hash self
  ∧ ∃ s s', last_state self = Some s ∧ last_state self' = Some s' ∧ top_level s' = top_level s.
Proof.
  unfold end_block_handler. intros He.
  destruct (block_filter_events self) as [[ev v]|]; [|done]. simpl in He. case_decide.
  - simpl in He. destruct (last_state self) as [s|]; [|done]. simpl in He. injection He as <- _.
    split_and!; [done..|]. by do 2 eexists.
  - destruct (last_state self) as [s|]; [|done]. simpl in He.
    destruct (get_validator_updates _ _ _ _) as [[[s' vp] us]|] eqn:Eu; [|done]. simpl in He.
    injection He as <- _. split_and!; [done..|]. do 2 eexists. split_and!; [done..|].
    unfold get_validator_updates in Eu. destruct (index_powers _ _ _ _); [|done]. simpl in Eu.
    destruct (remove_validators _ _ _) as [[]|]; [|done]. simpl in Eu. by injection Eu as <- _ _.
Qed.

(** The fee of a transaction without bytes is a coin under any fee policy. *)
Lemma base_fee_total p : params_ok p → is_Some (unwrap (params_calculate_fee p 0)).
Proof.
  intros [[Hc Hk] _]. unfold params_calculate_fee, calculate_fee.
  rewrite fee_millis_exact by (done || ints). rewrite Z.mul_0_r, Z.add_0_r.
  pose proof (to_integral_ceil (constant (initial_fee_policy (genesis_params p))) ltac:(ints)).
  assert (Hn : coin_new (to_integral (constant (initial_fee_policy (genesis_params p))))
               = Ok (to_integral (constant (initial_fee_policy (genesis_params p)))))
    by (apply coin_new_ok; split; [done | ints]).
  rewrite Hn. by eexists.
Qed.

(** What a restart reads. *)
Definition stored_state (db : Db) : option ChainNodeState :=
  bytes ← db_view db !! (COL_NODE_INFO, LAST_STATE_KEY);
  decode node_state_codec bytes.

Lemma state_puts_stored self st m :
  node_state_ok st →
  apply_ops m (state_puts self st) !! (COL_NODE_INFO, LAST_STATE_KEY) = Some (enc node_state_codec st).
Proof.
  intros Hok. unfold state_puts. rewrite apply_ops_app. unfold apply_ops.
  destruct (tx_query_address self); cbn [foldl apply_op app]; rewrite !lookup_insert_ne by done;
    by rewrite lookup_insert_eq.
Qed.

Lemma merkle_new_total vs : is_Some (merkle_new vs).
Proof.
  destruct vs as [|v vs]; [by eexists|]. destruct (merkle_new_Some (v :: vs)) as (mt & -> & _); [done|].
  by eexists.
Qed.

Lemma commit_spec self s :
  last_state self = Some s → deliveries_spent self →
  creates_fresh (db_view (storage self)) (delivered_txs self) →
  is_Some (unwrap (params_calculate_fee (params_of s) 0)) →
  (∀ app_hash info, ∃ v, process_request (tx_validator self) (CommitBlock app_hash info)
                          = Some (RespCommitBlock (Ok tt), v)) →
  ∃ self' tree app_hash, merkle_new (tx_id <$> delivered_txs self) = Some tree
    ∧ commit_handler self = Some (self', app_hash)
    ∧ let s' := committed_state self s app_hash in
      last_state self' = Some s' ∧ delivered_txs self' = [] ∧ accounts self' = accounts self
      ∧ uncommitted_account_root_hash self' = uncommitted_account_root_hash self
      ∧ account_root (top_level s') = uncommitted_account_root_hash self
      ∧ app_hash = compute_app_hash tree (account_root (top_level s')) (pool_of s') (params_of s')
      ∧ (node_state_ok s' → stored_state (storage self') = Some s')
      ∧ ∀ p, 0 ≤ index p → utxo_status (db_view (storage self')) p
           = status_after (utxo_status (db_view (storage self))) (delivered_txs self) p.
Proof.
  intros Hs Hsp Hfr [fee Hfee] Hv. destruct (merkle_new_total (tx_id <$> delivered_txs self)) as [tree Ht].
  destruct (process_txs_spec (storage self) (db_view (storage self)) (delivered_txs self) [])
    as (ops & Eops & Hst); [done | done | done |].
  unfold commit_handler. rewrite Hs. simpl. rewrite Ht. simpl. rewrite Eops. simpl.
  change (params_of (committed_state self s ?h)) with (params_of s). rewrite Hfee. simpl.
  match goal with |- context [CommitBlock ?h ?i] => destruct (Hv h i) as [v Ev]; set (app_hash := h) in * end.
  rewrite Ev. simpl.
  match goal with |- context [db_write ?d ?o] => destruct (db_write_view d o) as (db' & Ew & Hview) end.
  rewrite Ew. simpl. eexists _, tree, app_hash. split; [done|]. split; [done|].
  simpl. split_and!; try done.
  - intros Hok. unfold stored_state. rewrite Hview, apply_ops_app.
    rewrite state_puts_stored by done. cbn [mbind option_bind]. apply (decode_ok node_state_ok); [apply node_state_codec_ok | done].
  - intros p Hp. rewrite Hview, !apply_ops_app. rewrite status_other_column.
    + rewrite status_other_column by by repeat constructor. rewrite Hst by done. done.
    + unfold state_puts. apply Forall_app. split; [by repeat constructor|].
      simpl. destruct (tx_query_address self); by repeat constructor.
Qed.

(** C5. A block is made durable: when the transactions of a block were delivered to an
    application whose accounts and parameters are well-formed and the block ended, the
    commit does not panic; its application hash is the one of the identifiers of the
    accepted transactions, of the accounts and of the state; the store has the new state
    for a restart; every output of the accepted transactions is recorded as unspent,
    every input stays spent, and no other record changes. *)
Theorem block_commit_sound self s m txs self1 h self2 resp :
  tx_inv self s m → params_ok (params_of s) → delivered_txs self = [] →
  deliver_all self txs = Some self1 → end_block_handler self1 h = Some (self2, resp) →
  creates_fresh (db_view (storage self1)) (delivered_txs self1) →
  (∀ app_hash info, ∃ v, process_request (tx_validator self2) (CommitBlock app_hash info)
                          = Some (RespCommitBlock (Ok tt), v)) →
  ∃ s2 self' tree app_hash, last_state self2 = Some s2
    ∧ merkle_new (tx_id <$> delivered_txs self1) = Some tree
    ∧ commit_handler self2 = Some (self', app_hash)
    ∧ let s' := committed_state self2 s2 app_hash in
      last_state self' = Some s' ∧ delivered_txs self' = []
      ∧ (∃ m', holds (accounts self') (account_root (top_level s')) m')
      ∧ app_hash = compute_app_hash tree (account_root (top_level s')) (pool_of s') (params_of s')
      ∧ (node_state_ok s' → stored_state (storage self') = Some s')
      ∧ Forall (inputs_spent (db_view (storage self1))) (delivered_txs self1)
      ∧ ∀ p, 0 ≤ index p → utxo_status (db_view (storage self')) p
           = status_after (utxo_status (db_view (storage self1))) (delivered_txs self1) p.
Proof.
  intros Hinv Hp Hno Hall He Hfr Hv.
  destruct (deliver_all_spent _ _ _ _ _ Hinv Hp ltac:(unfold deliveries_spent; by rewrite Hno) Hall)
    as (s1 & m1 & (Hs1 & Hh1 & _) & Hp1 & Hsp).
  destruct (end_block_frame _ _ _ _ He) as (Hst & Hdl & Hac & Hr & s1' & s2 & Hs1' & Hs2 & Htop).
  assert (s1' = s1) as -> by congruence.
  destruct (commit_spec self2 s2) as (self' & tree & app_hash & Ht & Hc & Hl' & Hd' & Ha' & _ & Hroot & Hrest).
  { done. } { unfold deliveries_spent. by rewrite Hst, Hdl. } { by rewrite Hst, Hdl. }
  { apply base_fee_total. unfold params_of. by rewrite Htop. } { done. }
  rewrite Hdl, Hst in *. exists s2, self', tree, app_hash.
  destruct Hrest as (? & ? & ?).
  assert (∃ m', holds (accounts self') (account_root (top_level (committed_state self2 s2 app_hash))) m')
    by (exists m1; by rewrite Ha', Hac, Hroot, Hr).
  split_and!; done.
Qed.
End block.

(** ** Witness *)

Section witness.
Import AppExample.

(** A variable-length integer as its eight bytes. *)
#[local] Instance var_int_fixed : VarInt := {| i64_encode_var := λ z, enc u64_codec (as_u64 z) |}.
#[local] Instance reject_contract : EnclaveContract.
Proof. refine {| enclave_open := λ _, None; proxy_inv := λ _, True |}; by intros. Defined.

(** A block with an accepted unbonding and bytes that are refused. *)
Lemma block_commit_sound_witness :
  ∃ self1 self2 resp self' app_hash,
    deliver_all (app staker) [unbond_bytes; []] = Some self1
    ∧ (∃ tx w, delivered_txs self1 = [UnbondStakeTx tx w])
    ∧ end_block_handler self1 7 = Some (self2, resp)
    ∧ commit_handler self2 = Some (self', app_hash) ∧ delivered_txs self' = [].
Proof.
  assert (E : match deliver_all (app staker) [unbond_bytes; []] with
              | Some self1 => match delivered_txs self1 with [UnbondStakeTx _ _] => true | _ => false end &&
                  bool_decide (is_Some (end_block_handler self1 7))
              | None => false
              end = true) by (vm_compute; reflexivity).
  destruct (deliver_all (app staker) [unbond_bytes; []]) as [self1|] eqn:E1; [|discriminate E].
  apply andb_true_iff in E as [Hd' E].
  assert (Hd : ∃ tx w, delivered_txs self1 = [UnbondStakeTx tx w]).
  { destruct (delivered_txs self1) as [|[| tx w | |] []]; try discriminate Hd'.
    exists tx, w. reflexivity. }
  destruct (end_block_handler self1 7) as [[self2 resp]|] eqn:E2; [|discriminate E].
  destruct (block_commit_sound (app staker) (state staker) (accmap_of staker) [unbond_bytes; []]
    self1 7 self2 resp staker_inv staker_params_ok eq_refl E1 E2) as (s2 & self' & tree & app_hash & H).
  - destruct Hd as (tx & w & ->). split; [constructor|]. apply Forall_singleton. discriminate.
  - intros a i. exists (tx_validator self2). reflexivity.
  - destruct H as (_ & _ & Hc & _ & Hdl & _). exists self1, self2, resp, self', app_hash.
    split; [reflexivity|]. split; [exact Hd|]. split; [exact E2|]. split; [exact Hc | exact Hdl].
Defined.
End witness.
