(* ===== verification/InitChain.v ===== *)
(** * InitChain: genesis and restart of the node

    Models the functions of [src/chain-abci/src/app/app_init.rs] that bring up the
    application: [init_chain_handler] at genesis, [new_with_storage] and
    [restore_from_storage] at a start, with [get_validator_mapping], which rebuilds the
    voting powers from the committed state.  The parser of the configuration and the
    protobuf encoding of the consensus parameters are the class [GenesisLib]. *)

From stdpp Require Import base tactics option list gmap strings sorting.
From Stdlib Require Import ZArith Lia.
From S2P Require Import Prelude Text Codec Milli Coin Crypto Merkle Params Account TxTypes.
From S2P Require Import Validation BitVec Events Punishment Genesis Storage EnclaveProtocol AppState.
From S2P Require Import Slashing Rewards BeginBlock DeliverTx EndBlock NodeCodec Commit.

(** [serde_json::from_slice] to an [InitConfig], and [write_to_bytes] of the consensus
    parameters. *)
Class GenesisLib := {
  init_config_from_slice : list byte → option InitConfig;
  ConsensusParams : Type;
  params_write_to_bytes : ConsensusParams → option (list byte);
}.

(** A [ValidatorUpdate] of a request, whose key may be missing. *)
Abbreviation raw_update := (option (str * list byte) * Z)%type (only parsing).

Record RequestInitChain `{GenesisLib} := {
  app_state_bytes : list byte;
  init_time : option Z;
  init_chain_id : str;
  consensus_params : option ConsensusParams;
  init_validators : list raw_update;
}.

Section init.
Context `{Hashes, Secp256k1, Scale, BitVecLib, KeyValueDB, StarlingTree, Hex, VarInt, GenesisLib,
          !EnclaveProxy}.

Abbreviation powers := (gmap StakedStateAddress Z) (only parsing).

(** ** Restart *)

(** The power a node must have for its account. *)
Definition expected_power (s : ChainNodeState) (account : StakedState) : option Z :=
  if is_jailed account || (bonded account <? get_required_council_node_stake (params_of s))
  then vote_power_from_coin coin_zero else vote_power_from_coin (bonded account).

Fixpoint check_mapping (accs : AccountStorage) (s : ChainNodeState)
    (l : list ((Z * StakedStateAddress) * CouncilNode)) (m : powers) : option powers :=
  match l with
  | [] => Some m
  | ((voting_power, address), node) :: l =>
      account ← unwrap (get_account address (account_root (top_level s)) accs);
      account_node ← council_node account;
      vp ← expected_power s account;
      if negb (voting_power =? vp) then None
      else if decide (node = account_node)
           then check_mapping accs s l (<[address := vp]> m) else None
  end.

Definition get_validator_mapping (accs : AccountStorage) (last_app_state : ChainNodeState) :
  option powers :=
  check_mapping accs last_app_state
    (top_nodes (get_max_validators (params_of last_app_state))
       (council_nodes_by_power (validators last_app_state))) ∅.

(** The last two characters of the chain id as a byte. *)
Definition chain_hex_id_of (chain_id : str) : option Z :=
  if (length chain_id <? 2)%nat then None
  else bs ← hex_decode (drop (length chain_id - 2) chain_id);
       b ← head bs;
       Some (byte_to_Z b).

(** [copy_from_slice] into 32 bytes. *)
Definition copy_hash (bs : list byte) : option H256 :=
  if (length bs =? 32)%nat then Some bs else None.

Definition restore_from_storage (tx_validator : Proxy) (last_app_state : ChainNodeState)
    (genesis_app_hash : H256) (chain_id : str) (db : Db) (accs : AccountStorage)
    (tx_query_address : option str) : option ChainNodeApp :=
  stored ← unwrap (db_get db COL_NODE_INFO GENESIS_APP_HASH_KEY);
  stored_gah ← stored;
  stored_genesis ← copy_hash stored_gah;
  if decide (stored_genesis ≠ genesis_app_hash) then None
  else
    stored ← unwrap (db_get db COL_EXTRA CHAIN_ID_KEY);
    stored_chain_id ← stored;
    if decide (stored_chain_id ≠ chain_id) then None
    else
      hex_id ← chain_hex_id_of chain_id;
      powers ← get_validator_mapping accs last_app_state;
      Some {| storage := db; accounts := accs; delivered_txs := [];
              uncommitted_account_root_hash := account_root (top_level last_app_state);
              genesis_app_hash := genesis_app_hash; app_chain_hex_id := hex_id;
              last_state := Some last_app_state; voting_power := powers;
              power_changed_in_block := ∅; new_nodes_in_block := ∅;
              tx_validator := tx_validator; rewards_pool_updated := false;
              tx_query_address := tx_query_address |}.

(** The sanity check of the enclave; anything but an agreement panics. *)
Definition check_enclave (tx_validator : Proxy) (hex_id : Z) (last_app_hash : option H256) :
  option Proxy :=
  '(response, tx_validator) ← process_request tx_validator (CheckChain hex_id last_app_hash);
  match response with RespCheckChain (Ok _) => Some tx_validator | _ => None end.

Definition new_with_storage (tx_validator : Proxy) (gah chain_id : str) (db : Db)
    (accs : AccountStorage) (tx_query_address : option str) : option ChainNodeApp :=
  decoded_gah ← hex_decode gah;
  genesis_app_hash ← copy_hash decoded_gah;
  hex_id ← chain_hex_id_of chain_id;
  last_app_state ← unwrap (db_get db COL_NODE_INFO LAST_STATE_KEY);
  match last_app_state with
  | Some data =>
      last_state ← decode node_state_codec data;
      tx_validator ← check_enclave tx_validator hex_id (Some (last_apphash last_state));
      restore_from_storage tx_validator last_state genesis_app_hash chain_id db accs tx_query_address
  | None =>
      tx_validator ← check_enclave tx_validator hex_id None;
      db ← unwrap (db_write db [Put COL_NODE_INFO GENESIS_APP_HASH_KEY genesis_app_hash;
                                Put COL_EXTRA CHAIN_ID_KEY chain_id]);
      Some {| storage := db; accounts := accs; delivered_txs := [];
              uncommitted_account_root_hash := replicate 32 Byte.x00;
              genesis_app_hash := genesis_app_hash; app_chain_hex_id := hex_id;
              last_state := None; voting_power := ∅;
              power_changed_in_block := ∅; new_nodes_in_block := ∅;
              tx_validator := tx_validator; rewards_pool_updated := false;
              tx_query_address := tx_query_address |}
  end.

(** ** Genesis *)

Definition check_and_store_consensus_params (params : option ConsensusParams) (inittx : DBTransaction) :
  option DBTransaction :=
  match params with
  | Some cp =>
      bytes ← params_write_to_bytes cp;
      Some (inittx ++ [Put COL_EXTRA (bstr "init_chain_consensus_params") bytes])
  | None => Some inittx
  end.

(** [distribution\[a\]] panics when there is no entry. *)
Definition get_voting_power (conf : InitConfig) (node_address : StakedStateAddress) : option Z :=
  match node_address with
  | BasicRedeem a => e ← distribution conf !! a; vote_power_from_coin e.2
  end.

Definition store_valid_genesis_state (genesis_state : ChainNodeState) (inittx : DBTransaction)
    (write_history_states : bool) : DBTransaction :=
  let encoded_height := i64_encode_var 0 in
  inittx ++ [Put COL_NODE_INFO LAST_STATE_KEY (enc node_state_codec genesis_state);
             Put COL_APP_HASHS encoded_height (last_apphash genesis_state)]
  ++ (if write_history_states
      then [Put COL_APP_STATES encoded_height (enc chain_state_codec (top_level genesis_state))]
      else []).

Definition init_app_hash (pure_account_storage : AccountStorage) (conf : InitConfig)
    (genesis_time : Timespec) : option H256 :=
  genesis ← validate_config_get_genesis conf genesis_time;
  '(accs, rp, _) ← unwrap genesis;
  '(root, _) ← compute_accounts_root pure_account_storage accs;
  Some (compute_app_hash merkle_empty root rp (GenesisParams (init_network_params conf))).

(** What the loop over the genesis nodes builds. *)
Record GenesisNodes := {
  nodes_updates : list raw_update;
  nodes_powers : powers;
  nodes_state : ValidatorState;
}.

Definition add_node (conf : InitConfig) (window : Z) (g : GenesisNodes)
    (entry : StakedStateAddress * CouncilNode) : option GenesisNodes :=
  let '(address, node) := entry in
  let vs := nodes_state g in
  power ← get_voting_power conf address;
  let validator_address := validator_address_from (consensus_pubkey node) in
  Some {| nodes_updates := nodes_updates g ++ [(Some (get_validator_key node), power)];
          nodes_powers := <[address := power]> (nodes_powers g);
          nodes_state :=
            {| council_nodes_by_power := <[(power, address) := node]> (council_nodes_by_power vs);
               staking_addresses := <[validator_address := address]> (staking_addresses vs);
               validator_punishment :=
                 with_liveness (validator_punishment vs)
                   (<[validator_address := liveness_new window]>
                      (validator_liveness (validator_punishment vs))) |} |}.

Fixpoint add_nodes (conf : InitConfig) (window : Z) (g : GenesisNodes)
    (nodes : list (StakedStateAddress * CouncilNode)) : option GenesisNodes :=
  match nodes with
  | [] => Some g
  | entry :: nodes => g ← add_node conf window g entry; add_nodes conf window g nodes
  end.

(** [sort_by_key] by the type and the data of the key; a missing key comes first. *)
Definition update_le (a b : raw_update) : Prop :=
  match a.1, b.1 with
  | None, _ => True
  | Some _, None => False
  | Some k, Some k' => key_leb k k' = true
  end.
#[global] Instance update_le_dec a b : Decision (update_le a b).
Proof. unfold update_le. destruct a.1, b.1; solve_decision. Defined.

Definition sort_updates (l : list raw_update) : list raw_update := stable_sort update_le l.

Definition no_nodes (self : ChainNodeApp) : GenesisNodes :=
  {| nodes_updates := []; nodes_powers := voting_power self;
     nodes_state := {| council_nodes_by_power := ∅; staking_addresses := ∅;
                       validator_punishment := {| validator_liveness := ∅; slashing_schedule := ∅ |} |} |}.

Definition init_chain_handler (self : ChainNodeApp) (req : RequestInitChain) : option ChainNodeApp :=
  conf ← init_config_from_slice (app_state_bytes req);
  seconds ← init_time req;
  genesis_time ← u64_try_from_i64 seconds;
  genesis ← validate_config_get_genesis conf genesis_time;
  '(accs, rp, nodes) ← unwrap genesis;
  stored ← unwrap (db_get (storage self) COL_EXTRA CHAIN_ID_KEY);
  stored_chain_id ← stored;
  if decide (stored_chain_id ≠ init_chain_id req) then None
  else
    let network_params := GenesisParams (init_network_params conf) in
    '(new_account_root, trie) ← compute_accounts_root (accounts self) accs;
    let app_hash := compute_app_hash merkle_empty new_account_root rp network_params in
    if decide (genesis_app_hash self ≠ app_hash) then None
    else
      inittx ← check_and_store_consensus_params (consensus_params req) [];
      g ← add_nodes conf (get_block_signing_window network_params) (no_nodes self) nodes;
      if decide (sort_updates (nodes_updates g) ≠ sort_updates (init_validators req)) then None
      else
        let genesis_state := chain_node_state_genesis app_hash genesis_time new_account_root rp
                               network_params (nodes_state g) in
        let inittx := store_valid_genesis_state genesis_state inittx
                        (bool_decide (is_Some (tx_query_address self))) in
        db ← unwrap (db_write (storage self) inittx);
        let self := set_voting_power self (nodes_powers g) in
        let self := set_accounts self new_account_root trie in
        Some (set_storage (set_last_state self genesis_state) db (delivered_txs self)).
End init.

(** ** The genesis state *)

Section genesis.
Context `{Hashes, Secp256k1, BitVecLaws, KeyValueDBLaws, ScaleLaws, StarlingLaws, Hex, VarInt, GenesisLib,
          FixedLib, SerdeJson, !EnclaveProxy}.

Definition node_power (conf : InitConfig) (a : StakedStateAddress) : Z :=
  match a with
  | BasicRedeem r => match distribution conf !! r with Some e => e.2 / MAX_COIN_DECIMALS | None => 0 end
  end.

Definition node_update (conf : InitConfig) (e : StakedStateAddress * CouncilNode) : raw_update :=
  (Some (get_validator_key e.2), node_power conf e.1).

Record nodes_inv (conf : InitConfig) (window : Z) (base : gmap StakedStateAddress Z) (g : GenesisNodes)
    (done : list (StakedStateAddress * CouncilNode)) : Prop := {
  ni_updates : nodes_updates g = node_update conf <$> done;
  ni_powers a : nodes_powers g !! a = if decide (a ∈ done.*1) then Some (node_power conf a) else base !! a;
  ni_index p a node :
    council_nodes_by_power (nodes_state g) !! (p, a) = Some node ↔ p = node_power conf a ∧ (a, node) ∈ done;
  ni_staking v a : staking_addresses (nodes_state g) !! v = Some a → a ∈ done.*1;
  ni_live v t : validator_liveness (validator_punishment (nodes_state g)) !! v = Some t →
    t = liveness_new window ∧ is_Some (staking_addresses (nodes_state g) !! v);
  ni_schedule : slashing_schedule (validator_punishment (nodes_state g)) = ∅;
}.

Lemma no_nodes_inv conf window self : nodes_inv conf window (voting_power self) (no_nodes self) [].
Proof.
  split; simpl; try done.
  - intros p a node. rewrite lookup_empty. split; [done|]. intros [_ Hn]. by apply not_elem_of_nil in Hn.
Qed.

Lemma add_node_spec conf window base g done e :
  get_voting_power conf e.1 = Some (node_power conf e.1) → e.1 ∉ done.*1 →
  nodes_inv conf window base g done →
  ∃ g', add_node conf window g e = Some g' ∧ nodes_inv conf window base g' (done ++ [e]).
Proof.
  destruct e as [a n]. simpl. intros Hp Hn [Hu Hw Hi Hs Hl Hsch]. rewrite Hp. simpl.
  eexists. split; [done|]. split; simpl.
  - by rewrite Hu, fmap_app.
  - intros b. rewrite fmap_app. simpl. destruct (decide (b = a)) as [->|Hne].
    + rewrite lookup_insert_eq, decide_True by (apply elem_of_app; right; by left). done.
    + rewrite lookup_insert_ne, Hw by done. apply decide_ext. rewrite elem_of_app, list_elem_of_singleton. naive_solver.
  - intros p b node. rewrite elem_of_app, list_elem_of_singleton.
    destruct (decide ((p, b) = (node_power conf a, a))) as [[= -> ->]|Hne].
    + rewrite lookup_insert_eq. split; [intros [= ->]; naive_solver|]. intros [_ [Hin|[= ->]]]; [|done].
      destruct Hn. apply list_elem_of_fmap. by exists (a, node).
    + rewrite lookup_insert_ne by congruence. rewrite Hi. naive_solver.
  - intros v b. rewrite lookup_insert_Some, fmap_app, elem_of_app. simpl. rewrite list_elem_of_singleton. naive_solver.
  - intros v t. rewrite lookup_insert_Some. intros [[<- <-]|[Hne Ht]].
    + split; [done|]. rewrite lookup_insert_eq. by eexists.
    + rewrite lookup_insert_ne by done. by apply Hl.
  - done.
Qed.

Lemma add_nodes_spec conf window base l g done :
  Forall (λ e, get_voting_power conf e.1 = Some (node_power conf e.1)) l →
  NoDup (done ++ l).*1 → nodes_inv conf window base g done →
  ∃ g', add_nodes conf window g l = Some g' ∧ nodes_inv conf window base g' (done ++ l).
Proof.
  intros Hl. revert g done. induction Hl as [|e l He Hl IH]; intros g done Hnd Hg.
  { exists g. by rewrite app_nil_r. }
  destruct (add_node_spec conf window base g done e He) as (g1 & E1 & Hg1); [|done|].
  { rewrite fmap_app, NoDup_app in Hnd. destruct Hnd as (_ & Hd & _). intros Hin. destruct (Hd _ Hin). by left. }
  cbn [add_nodes]. rewrite E1. cbn [mbind option_bind].
  destruct (IH g1 (done ++ [e])) as (g' & E' & Hg'); [by rewrite <- app_assoc | done|].
  exists g'. split; [done|]. by rewrite <- app_assoc in Hg'.
Qed.

(** The types of a configuration. *)
Definition destination_ok (d : StakedStateDestination) : Prop :=
  match d with UnbondedFromCustomTime t => is_u64 t | _ => True end.

Record config_ok (conf : InitConfig) : Prop := {
  conf_params : init_params_ok (init_network_params conf);
  conf_distribution : map_Forall (λ a e, length a = REDEEM_ADDRESS_BYTES ∧ destination_ok e.1 ∧ coin_ok e.2)
                        (distribution conf);
  conf_nodes : map_Forall (λ _ d, council_node_ok (council_node_new_with_details d.1.1 d.1.2 d.2))
                 (council_nodes conf);
}.

Lemma genesis_account_ok conf t e :
  config_ok conf → is_u64 t → distribution conf !! e.1 = Some e.2 →
  staked_state_ok (genesis_account conf t e).
Proof.
  intros Hc Ht He. destruct e as [a [d c]]. destruct (conf_distribution _ Hc _ _ He) as (Ha & Hd & Hco).
  simpl in *. destruct d; unfold new_init_bonded, new_init_unbonded; [|staked_ok..].
  assert (Hn : option_ok council_node_ok (ok (get_council_node conf a))); [|staked_ok].
  destruct (get_council_node conf a) as [node|] eqn:En; [|done]. simpl.
  apply get_council_node_ok in En as (? & n & contact & k & _ & _ & Hk & ->).
  exact (conf_nodes _ Hc _ _ Hk).
Qed.

Lemma genesis_accounts_ok conf t : config_ok conf → is_u64 t → Forall staked_state_ok (Genesis.get_account conf t).
Proof.
  intros Hc Ht. apply Forall_fmap, Forall_forall. intros e He. simpl. apply genesis_account_ok; [done..|].
  apply elem_of_btree_iter. by destruct e.
Qed.

(** What a chain needs to start besides a configuration that is accepted: a signing
    window, validators with power, and addresses whose hashes differ. *)
Record bootable (conf : InitConfig) : Prop := {
  boot_config : config_ok conf;
  boot_window : 0 < block_signing_window (jailing_config (init_network_params conf));
  boot_stake : MAX_COIN_DECIMALS ≤ required_council_node_stake (init_network_params conf);
  boot_keys a b : is_Some (distribution conf !! a) → is_Some (distribution conf !! b) →
    hash256 a = hash256 b → a = b;
}.

Definition genesis_accmap (conf : InitConfig) (t : Timespec) : accmap :=
  list_to_map ((λ a, (staked_key a, a)) <$> Genesis.get_account conf t).

Lemma elem_of_genesis_accounts conf t acct :
  acct ∈ Genesis.get_account conf t ↔
  ∃ a d c, distribution conf !! a = Some (d, c) ∧ acct = genesis_account conf t (a, (d, c)).
Proof.
  unfold Genesis.get_account. rewrite list_elem_of_fmap. split.
  - intros ([a [d c]] & -> & Hin%elem_of_btree_iter). eauto.
  - intros (a & d & c & Hd & ->). eexists. split; [done|]. by apply elem_of_btree_iter.
Qed.

Lemma genesis_keys conf t :
  bootable conf → NoDup (staked_key <$> Genesis.get_account conf t).
Proof.
  intros Hb. unfold Genesis.get_account. rewrite <- list_fmap_compose.
  apply NoDup_fmap_2_strong.
  - intros [a [d c]] [a' [d' c']] Hin%elem_of_btree_iter Hin'%elem_of_btree_iter Hk.
    unfold compose, staked_key in Hk. rewrite !genesis_account_address in Hk.
    assert (a = a') as <- by (eapply boot_keys; eauto). by simplify_eq.
  - eapply NoDup_fmap_1, NoDup_btree_iter.
Qed.

Lemma genesis_accmap_lookup conf t acct :
  bootable conf → acct ∈ Genesis.get_account conf t →
  genesis_accmap conf t !! to_stake_key (address acct) = Some acct.
Proof.
  intros Hb Hin. apply elem_of_list_to_map_1.
  - rewrite <- list_fmap_compose. by apply genesis_keys.
  - apply list_elem_of_fmap. by exists acct.
Qed.

Lemma genesis_accmap_total conf t :
  bootable conf → total_stake (genesis_accmap conf t) = sum_by stake_total (Genesis.get_account conf t).
Proof.
  intros Hb. pose proof (genesis_keys conf t Hb) as Hk. unfold genesis_accmap. revert Hk.
  generalize (Genesis.get_account conf t). intros l. induction l as [|a l IH]; intros Hk; [done|].
  rewrite fmap_cons in *. apply NoDup_cons in Hk as [Hn Hk]. rewrite list_to_map_cons.
  rewrite total_stake_insert_fresh, IH, sum_by_cons; [done | done|].
  apply not_elem_of_list_to_map_1. by rewrite <- list_fmap_compose.
Qed.

(** A validator of the genesis with its account and its power. *)
Lemma genesis_node conf t pool nodes a node :
  bootable conf → genesis_spec conf t (Genesis.get_account conf t) pool nodes → (a, node) ∈ nodes →
  ∃ acct, genesis_accmap conf t !! to_stake_key a = Some acct ∧ council_node acct = Some node
    ∧ is_jailed acct = false
    ∧ required_council_node_stake (init_network_params conf) ≤ bonded acct
    ∧ node_power conf a = bonded acct / MAX_COIN_DECIMALS ∧ coin_ok (bonded acct)
    ∧ get_voting_power conf a = Some (node_power conf a).
Proof.
  intros Hb Hg Hin. apply (gs_validators _ _ _ _ _ Hg) in Hin as (acct & Hin & <- & Hn).
  exists acct. pose proof (genesis_accmap_lookup _ _ _ Hb Hin).
  pose proof (gs_fresh _ _ _ _ _ Hg) as Hf. rewrite Forall_forall in Hf. destruct (Hf _ Hin) as [Hj _].
  pose proof (gs_stake _ _ _ _ _ Hg _ Hin ltac:(by eexists)).
  apply elem_of_genesis_accounts in Hin as (r & d & c & Hd & ->).
  destruct (conf_distribution _ (boot_config _ Hb) _ _ Hd) as (_ & _ & Hc). simpl in Hc.
  destruct d; simpl in Hn; try done.
  assert (Hp : node_power conf (BasicRedeem r) = c / MAX_COIN_DECIMALS) by (simpl; by rewrite Hd).
  split_and!; try done. simpl. rewrite Hd. simpl. apply (vote_power_from_coin_ok c Hc).
Qed.

Lemma sum_div_le {A} (f g : A → Z) (l : list A) d :
  0 < d → Forall (λ x, 0 ≤ g x ∧ f x = g x / d) l → sum_by f l ≤ sum_by g l / d.
Proof.
  intros Hd. induction 1 as [|x l [Hx Hfx] _ IH]; [by rewrite Zdiv_0_l|].
  rewrite !sum_by_cons, Hfx. pose proof (Z.div_mod (g x) d ltac:(lia)).
  pose proof (Z.div_mod (sum_by g l) d ltac:(lia)). pose proof (Z.mod_pos_bound (g x) d Hd).
  pose proof (Z.mod_pos_bound (sum_by g l) d Hd).
  apply Z.div_le_lower_bound; nia.
Qed.

Lemma sum_by_ge {A} (f : A → Z) (l : list A) x :
  (∀ y, y ∈ l → 0 ≤ f y) → x ∈ l → f x ≤ sum_by f l.
Proof.
  induction l as [|y l IH]; intros Hp Hx; [by apply not_elem_of_nil in Hx|]. rewrite sum_by_cons.
  assert (0 ≤ sum_by f l) by (apply sum_by_nonneg, Forall_forall; intros z Hz; apply Hp; by right).
  pose proof (Hp y ltac:(by left)). apply elem_of_cons in Hx as [->|Hx]; [lia|].
  pose proof (IH ltac:(intros z Hz; apply Hp; by right) Hx). lia.
Qed.

(** The powers of the genesis validators. *)
Lemma genesis_powers conf t pool nodes (v : gmap StakedStateAddress Z) :
  bootable conf → is_u64 t → genesis_spec conf t (Genesis.get_account conf t) pool nodes →
  (∀ a, v !! a = if decide (a ∈ nodes.*1) then Some (node_power conf a) else None) →
  sum_by snd (btree_iter v) = sum_by (node_power conf) nodes.*1
  ∧ 0 < sum_by (node_power conf) nodes.*1 ≤ MAX_COIN_UNITS
  ∧ ∀ a, a ∈ nodes.*1 → node_power conf a ≤ sum_by (node_power conf) nodes.*1.
Proof.
  intros Hb Ht Hg Hv. set (m := genesis_accmap conf t).
  assert (Hnode : ∀ a, a ∈ nodes.*1 → 0 < node_power conf a ∧ 0 ≤ bonded_at m a
            ∧ node_power conf a = bonded_at m a / MAX_COIN_DECIMALS).
  { intros a (e & -> & Hin)%list_elem_of_fmap. destruct e as [a node].
    destruct (genesis_node _ _ _ _ _ _ Hb Hg Hin) as (acct & Hm & _ & _ & Hreq & Hp & [Hc _] & _).
    pose proof (boot_stake _ Hb). simpl in *. unfold bonded_at. fold m in Hm. rewrite Hm. simpl.
    split; [|by rewrite Hp]. rewrite Hp. apply Z.div_str_pos. unfold MAX_COIN_DECIMALS in *. lia. }
  assert (Hperm : btree_iter v ≡ₚ (λ a, (a, node_power conf a)) <$> nodes.*1).
  { apply NoDup_Permutation.
    - eapply NoDup_fmap_1, NoDup_btree_iter.
    - apply NoDup_fmap_2; [intros ?? [=]; done | apply Hg].
    - intros [a p]. rewrite elem_of_btree_iter, Hv. split.
      + case_decide; [|done]. intros [= <-]. apply list_elem_of_fmap. by exists a.
      + intros (b & [= -> ->] & Hb')%list_elem_of_fmap. by rewrite decide_True. }
  assert (Hsum : sum_by snd (btree_iter v) = sum_by (node_power conf) nodes.*1).
  { rewrite (sum_by_perm _ _ _ Hperm). generalize nodes.*1. intros l.
    induction l as [|a l IH]; [done|]. rewrite fmap_cons, !sum_by_cons, IH. done. }
  assert (Hge : ∀ a, a ∈ nodes.*1 → node_power conf a ≤ sum_by (node_power conf) nodes.*1).
  { intros a Ha. apply sum_by_ge; [|done]. intros y Hy. destruct (Hnode y Hy). lia. }
  split; [done|]. split; [|done]. split.
  - assert (∃ a, a ∈ nodes.*1) as [e Hin].
    { pose proof (gs_some_validator _ _ _ _ _ Hg). destruct nodes as [|e l]; [done|]. exists e.1. by left. }
    pose proof (Hge _ Hin). destruct (Hnode _ Hin). lia.
  - transitivity (sum_by (bonded_at m) nodes.*1 / MAX_COIN_DECIMALS).
    { apply sum_div_le; [done|]. apply Forall_forall. intros a Ha. destruct (Hnode a Ha) as (_ & ? & ?). done. }
    assert (Hle : sum_by (bonded_at m) nodes.*1 ≤ total_stake m).
    { apply sum_bonded_le.
      - intros k acct Hk. apply elem_of_list_to_map_2, list_elem_of_fmap in Hk as (b & [= -> ->] & Hin).
        split; [done|]. pose proof (genesis_accounts_ok conf t (boot_config _ Hb) Ht) as Hok.
        rewrite Forall_forall in Hok. by apply Hok.
      - apply (NoDup_keys (λ a, a ∈ nodes.*1)); [| by apply Forall_forall | apply Hg].
        intros a b Ha Hb' Hk.
        apply list_elem_of_fmap in Ha as ([a1 n] & -> & Hin), Hb' as ([b1 n'] & -> & Hin'). simpl in *.
        apply (gs_validators _ _ _ _ _ Hg) in Hin as (s & Hin & Ea & _).
        apply (gs_validators _ _ _ _ _ Hg) in Hin' as (s' & Hin' & Eb & _).
        apply elem_of_genesis_accounts in Hin as (r & d & c & Hd & ->).
        apply elem_of_genesis_accounts in Hin' as (r' & d' & c' & Hd' & ->).
        rewrite genesis_account_address in Ea, Eb. simpl in Ea, Eb. subst. f_equal. eapply boot_keys; eauto. }
    unfold m in *. rewrite genesis_accmap_total in Hle by done. pose proof (gs_supply _ _ _ _ _ Hg).
    destruct (conf_params _ (boot_config _ Hb)) as (_&_&_&_&_&([Hcap _]&_)&_).
    apply Z.div_le_upper_bound; unfold MAX_COIN_DECIMALS, MAX_COIN_UNITS, MAX_COIN in *; lia.
Qed.

Definition genesis_params_of (conf : InitConfig) : NetworkParameters := GenesisParams (init_network_params conf).

(** The state at genesis satisfies the invariant between blocks. *)
Lemma genesis_block_inv conf t h root nodes pool g self s :
  bootable conf → is_u64 t → genesis_spec conf t (Genesis.get_account conf t) pool nodes →
  nodes_inv conf (get_block_signing_window (genesis_params_of conf)) ∅ g nodes →
  s = chain_node_state_genesis h t root pool (genesis_params_of conf) (nodes_state g) →
  last_state self = Some s → voting_power self = nodes_powers g →
  uncommitted_account_root_hash self = root → holds (accounts self) root (genesis_accmap conf t) →
  block_inv self s (genesis_accmap conf t).
Proof.
  intros Hb Ht Hg [Hu Hw Hi Hst Hl Hsch] -> Hs Hv Hr Hh.
  destruct (genesis_powers conf t pool nodes (nodes_powers g) Hb Ht Hg) as (Hsum & Hpos & Hge).
  { intros a. rewrite Hw. by destruct (decide _). }
  pose proof (conf_params _ (boot_config _ Hb)) as Hp. pose proof (gs_pool _ _ _ _ _ Hg) as Ep.
  pose proof (gs_supply _ _ _ _ _ Hg) as Hsup. pose proof (gs_rewards _ _ _ _ _ Hg) as Hrew.
  destruct Hp as (Hp1 & Hp2 & Hp3 & Hp4 & Hp5 & Hp6 & Hp7).
  assert (Hknown : ∀ a, known self (chain_node_state_genesis h t root pool (genesis_params_of conf) (nodes_state g)) a
            → a ∈ nodes.*1).
  { intros a [[v Ha]|[[x Ha]|[[x Ha]|[x Ha]]]].
    - by eapply Hst.
    - unfold punishment_of in Ha. simpl in Ha. by rewrite Hsch in Ha.
    - done.
    - rewrite Hv, Hw in Ha. by destruct (decide _). }
  assert (Hacct : ∀ a, a ∈ nodes.*1 → ∃ acct, genesis_accmap conf t !! to_stake_key a = Some acct
            ∧ address acct = a ∧ node_power conf a = bonded acct / MAX_COIN_DECIMALS).
  { intros a ([a1 node] & -> & Hin)%list_elem_of_fmap.
    destruct (genesis_node _ _ _ _ _ _ Hb Hg Hin) as (acct & Hm & _ & _ & _ & Hpw & _). exists acct. split; [done|].
    split; [|done]. apply (gs_validators _ _ _ _ _ Hg) in Hin as (acct' & Hin & Ea & _). simpl in *.
    rewrite <- Ea, (genesis_accmap_lookup _ _ _ Hb Hin) in Hm. by injection Hm as <-. }
  split; simpl.
  - done.
  - unfold app_holds. by rewrite Hr.
  - done.
  - intros a Ha%Hknown%Hacct. destruct Ha as (acct & ? & _). by eexists.
  - intros a b Ha%Hknown%Hacct Hb'%Hknown%Hacct Hk. destruct Ha as (x & Hx & <- & _), Hb' as (y & Hy & <- & _).
    rewrite Hk, Hy in Hx. by injection Hx as ->.
  - intros v tr Htr. destruct (Hl v tr Htr) as [-> _]. unfold liveness_new, bv_len. simpl.
    rewrite bits_from_elem, length_replicate. pose proof (boot_window _ Hb).
    unfold get_block_signing_window, genesis_params_of. simpl. lia.
  - intros v [tr Htr]. by apply (Hl v tr).
  - intros a sch Ha. unfold punishment_of in Ha. simpl in Ha. by rewrite Hsch in Ha.
  - unfold total_power. by rewrite Hv, Hsum.
  - intros a [v Ha]. destruct (Hacct a) as (acct & Hm & Ea & Hpw); [by eapply Hst|].
    exists acct. split; [done|]. unfold total_power. rewrite Hv, Hsum, <- Hpw. apply Hge. by eapply Hst.
  - unfold pool_of. simpl. rewrite Ep. unfold rewards_pool_ok. simpl. destruct Hp6 as (_&_&_&?&_).
    split_and!; first [done | ints].
  - by split_and!.
  - unfold get_rewards_monetary_expansion_decay, params_of. simpl. unfold validate_rewards in Hrew.
    destruct (_ <? _); [done|]. destruct (_ =? _); [done|].
    destruct (Z.ltb_spec 1000000 (monetary_expansion_decay (rewards_config (init_network_params conf)))); [done | lia].
  - split; [apply map_Forall_empty|]. vm_compute. reflexivity.
  - unfold pool_of, params_of, get_rewards_monetary_expansion_cap. simpl. rewrite Ep. simpl.
    destruct Hp6 as ([? _]&_). unfold coin_zero. lia.
  - unfold supply. rewrite genesis_accmap_total by done. unfold pool_of, params_of. simpl. rewrite Ep. simpl.
    unfold get_rewards_monetary_expansion_cap. simpl. unfold coin_zero. lia.
Qed.

(** *** The validators of the request *)

#[local] Instance update_le_total : Total update_le.
Proof.
  intros [[k|] p] [[k'|] p']; unfold update_le; cbn [fst]; [apply key_leb_total | auto..].
Qed.
#[local] Instance update_le_trans : Transitive update_le.
Proof.
  intros [[k|] p] [[k'|] p'] [[k''|] p'']; unfold update_le; cbn [fst]; try done. apply key_leb_trans.
Qed.

Lemma sort_updates_perm l l' : sort_updates l = sort_updates l' → l ≡ₚ l'.
Proof.
  intros Hs. unfold sort_updates in Hs. rewrite <- (stable_sort_perm update_le l), Hs.
  apply stable_sort_perm.
Qed.

Lemma sort_updates_unique l l' :
  l ≡ₚ l' → (∀ x y, x ∈ l → y ∈ l → x.1 = y.1 → x = y) → (∀ x, x ∈ l → is_Some x.1) →
  sort_updates l = sort_updates l'.
Proof.
  intros Hp Hk Hsome. unfold sort_updates.
  assert (Hin : ∀ x, x ∈ stable_sort update_le l → x ∈ l) by (intros x; by rewrite stable_sort_perm).
  assert (Hin' : ∀ x, x ∈ stable_sort update_le l' → x ∈ l)
    by (intros x; by rewrite stable_sort_perm, Hp).
  apply (StronglySorted_unique_strong update_le).
  - intros x y Hx%Hin Hy%Hin' Hxy Hyx. apply Hk; [done..|].
    destruct (Hsome x Hx) as [k Ek], (Hsome y Hy) as [k' Ek']. unfold update_le in *. rewrite Ek, Ek' in *.
    f_equal. by apply key_leb_antisym.
  - apply stable_sort_sorted; apply _.
  - apply stable_sort_sorted; apply _.
  - by rewrite !stable_sort_perm.
Qed.

Lemma node_update_inj conf t pool nodes x y :
  genesis_spec conf t (Genesis.get_account conf t) pool nodes →
  x ∈ nodes → y ∈ nodes → get_validator_key x.2 = get_validator_key y.2 → x = y.
Proof.
  intros Hg Hx Hy Hk. pose proof (gs_validator_keys _ _ _ _ _ Hg) as Hnd.
  rewrite <- list_fmap_compose in Hnd.
  apply list_elem_of_lookup in Hx as [i Hi], Hy as [j Hj].
  assert (i = j) as <-; [|congruence].
  eapply NoDup_lookup; [exact Hnd | by rewrite list_lookup_fmap, Hi |]. rewrite list_lookup_fmap, Hj. simpl.
  f_equal. unfold get_validator_key in Hk. destruct (consensus_pubkey x.2), (consensus_pubkey y.2). simpl in Hk. congruence.
Qed.

(** *** The handler *)

(** The application that a genesis request leaves. *)
Record chain_started (self : ChainNodeApp) (req : RequestInitChain) (conf : InitConfig) (t : Timespec)
    (nodes : list (StakedStateAddress * CouncilNode)) (self' : ChainNodeApp) (s : ChainNodeState) : Prop := {
  cs_state : last_state self' = Some s;
  cs_hash : last_apphash s = genesis_app_hash self;
  cs_params : params_of s = genesis_params_of conf;
  cs_time : block_time s = t;
  cs_inv : block_inv self' s (genesis_accmap conf t);
  cs_supply : supply s (genesis_accmap conf t) + get_rewards_monetary_expansion_cap (params_of s) = MAX_COIN;
  cs_stored : node_state_ok s → stored_state (storage self') = Some s;
  cs_validators : init_validators req ≡ₚ node_update conf <$> nodes;
  cs_powers a p : voting_power self' !! a = Some p ↔ p = node_power conf a ∧ a ∈ nodes.*1;
  cs_index p a node : council_nodes_by_power (validators s) !! (p, a) = Some node
    ↔ p = node_power conf a ∧ (a, node) ∈ nodes;
  cs_node a node : (a, node) ∈ nodes →
    ∃ acct, genesis_accmap conf t !! to_stake_key a = Some acct ∧ council_node acct = Some node
      ∧ is_jailed acct = false ∧ get_required_council_node_stake (params_of s) ≤ bonded acct
      ∧ coin_ok (bonded acct) ∧ node_power conf a = bonded acct / MAX_COIN_DECIMALS;
  cs_distinct : NoDup nodes.*1;
  cs_frame : self' = {| storage := storage self'; accounts := accounts self';
    delivered_txs := delivered_txs self;
    uncommitted_account_root_hash := account_root (top_level s);
    genesis_app_hash := genesis_app_hash self; app_chain_hex_id := app_chain_hex_id self;
    last_state := Some s; voting_power := voting_power self';
    power_changed_in_block := power_changed_in_block self; new_nodes_in_block := new_nodes_in_block self;
    tx_validator := tx_validator self; rewards_pool_updated := rewards_pool_updated self;
    tx_query_address := tx_query_address self |};
  cs_kept k : k ≠ (COL_NODE_INFO, LAST_STATE_KEY) → k.1 ≠ COL_APP_HASHS → k.1 ≠ COL_APP_STATES →
    k ≠ (COL_EXTRA, bstr "init_chain_consensus_params") →
    db_view (storage self') !! k = db_view (storage self) !! k;
}.

Lemma genesis_store (s : ChainNodeState) (params : option ConsensusParams) (inittx : DBTransaction) (b : bool) (v : dbmap) :
  check_and_store_consensus_params params [] = Some inittx →
  let v' := apply_ops v (store_valid_genesis_state s inittx b) in
  v' !! (COL_NODE_INFO, LAST_STATE_KEY) = Some (enc node_state_codec s)
  ∧ ∀ k, k ≠ (COL_NODE_INFO, LAST_STATE_KEY) → k.1 ≠ COL_APP_HASHS → k.1 ≠ COL_APP_STATES →
      k ≠ (COL_EXTRA, bstr "init_chain_consensus_params") → v' !! k = v !! k.
Proof.
  intros Hc. assert (Hi : inittx = [] ∨ ∃ bytes, inittx = [Put COL_EXTRA (bstr "init_chain_consensus_params") bytes]).
  { unfold check_and_store_consensus_params in Hc. destruct params as [cp|]; [|injection Hc as <-; by left].
    destruct (params_write_to_bytes cp); [|done]. simpl in Hc. injection Hc as <-. right. eauto. }
  unfold store_valid_genesis_state, apply_ops. split.
  - rewrite !foldl_app. destruct b; cbn [foldl apply_op];
      rewrite ?lookup_insert_ne by done; by rewrite lookup_insert_eq.
  - intros [c k] H1' H2' H3' H4'. simpl in *. rewrite !foldl_app.
    assert (E : ∀ v', foldl apply_op v' inittx !! (c, k) = v' !! (c, k)).
    { intros v'. destruct Hi as [->|[bytes ->]]; [done|]. cbn [foldl apply_op]. by rewrite lookup_insert_ne by congruence. }
    destruct b; cbn [foldl apply_op]; rewrite ?lookup_insert_ne by congruence; apply E.
Qed.

Lemma genesis_accounts_nonempty conf t pool nodes :
  genesis_spec conf t (Genesis.get_account conf t) pool nodes → Genesis.get_account conf t ≠ [].
Proof.
  intros Hg E. pose proof (gs_some_validator _ _ _ _ _ Hg) as Hn. destruct nodes as [|[a n] l]; [done|].
  destruct (proj1 (gs_validators _ _ _ _ _ Hg a n) ltac:(by left)) as (s & Hs & _). rewrite E in Hs.
  by apply not_elem_of_nil in Hs.
Qed.

(** The genesis accounts are those of the configuration. *)
Lemma validate_accounts conf t accs pool nodes :
  validate_config_get_genesis conf t = Some (Ok (accs, pool, nodes)) → accs = Genesis.get_account conf t.
Proof.
  unfold validate_config_get_genesis. intros Hv.
  destruct (validate_rewards _) as [[]|]; cbn [map_err run_bind] in Hv; [|done].
  case_decide; [done|]. destruct (negb _); [done|].
  match type of Hv with run_bind ?m _ = _ => destruct m as [[q|]|] end; cbn [run_bind] in Hv; [|done|done].
  destruct (sum_coins _); [|done]. destruct (coin_add _ _); [|done]. case_decide; [done|].
  destruct (_ <=? _); [done|]. destruct (collect _); cbn [run_bind] in Hv; [|done]. by injection Hv as <- _ _.
Qed.

Lemma genesis_nodes_added conf t pool nodes self :
  bootable conf → genesis_spec conf t (Genesis.get_account conf t) pool nodes → voting_power self = ∅ →
  ∃ g, add_nodes conf (get_block_signing_window (genesis_params_of conf)) (no_nodes self) nodes = Some g
    ∧ nodes_inv conf (get_block_signing_window (genesis_params_of conf)) ∅ g nodes.
Proof.
  intros Hb Hg Hv. rewrite <- Hv. apply (add_nodes_spec conf _ (voting_power self) nodes (no_nodes self) []).
  - apply Forall_forall. intros [a n] Hin.
    by destruct (genesis_node _ _ _ _ _ _ Hb Hg Hin) as (_ & _ & _ & _ & _ & _ & _ & ?).
  - apply Hg.
  - apply no_nodes_inv.
Qed.

Lemma init_chain_started self req conf t self' :
  init_config_from_slice (app_state_bytes req) = Some conf → init_time req = Some t → is_i64 t →
  bootable conf → voting_power self = ∅ → init_chain_handler self req = Some self' →
  ∃ nodes s, chain_started self req conf t nodes self' s.
Proof.
  intros Hconf Htime Hi64 Hb Hvp Hi. unfold init_chain_handler in Hi. rewrite Hconf, Htime in Hi.
  cbn [mbind option_bind] in Hi. unfold u64_try_from_i64 in Hi.
  destruct (Z.leb_spec 0 t) as [Ht0|]; [|done]. cbn [mbind option_bind] in Hi.
  destruct (validate_config_get_genesis conf t) as [[[[accs pool] nodes]|]|] eqn:Ev; [|done|done].
  cbn [mbind option_bind ok] in Hi. pose proof (validate_accounts _ _ _ _ _ Ev) as ->.
  assert (Ht : is_u64 t) by ints.
  assert (Hg : genesis_spec conf t (Genesis.get_account conf t) pool nodes).
  { apply genesis_ok; [|done]. intros a e He. by destruct (conf_distribution _ (boot_config _ Hb) _ _ He) as (_ & _ & ?). }
  rewrite db_get_view in Hi. cbn [mbind option_bind ok] in Hi.
  destruct (db_view (storage self) !! _) as [stored|]; [|done]. cbn [mbind option_bind] in Hi.
  case_decide; [done|].
  destruct (compute_accounts_root_holds (accounts self) (Genesis.get_account conf t)) as (root & trie & Er & Hh & _);
    [by eapply genesis_accounts_nonempty | by apply genesis_keys | by apply genesis_accounts_ok, Ht; apply Hb |].
  rewrite Er in Hi. cbn [mbind option_bind] in Hi. case_decide as Hash; [done|].
  cbn [ok] in Hi.
  destruct (check_and_store_consensus_params _ _) as [inittx|] eqn:Ec; [|done]. cbn [mbind option_bind] in Hi.
  destruct (genesis_nodes_added conf t pool nodes self Hb Hg Hvp) as (g & Eg & Hn).
  unfold genesis_params_of in Eg. rewrite Eg in Hi. cbn [mbind option_bind] in Hi.
  case_decide as Hsort; [done|]. apply sort_updates_perm in Hsort. rewrite (ni_updates _ _ _ _ _ Hn) in Hsort.
  match type of Hi with context [db_write _ ?ops] => destruct (db_write_view (storage self) ops) as (db & Ew & Hdb) end.
  rewrite Ew in Hi. cbn [mbind option_bind ok] in Hi. injection Hi as <-.
  match type of Hdb with context [store_valid_genesis_state ?st _ _] => set (s := st) in * end.
  exists nodes, s. destruct (genesis_store s _ _ (bool_decide (is_Some (tx_query_address self))) (db_view (storage self)) Ec)
    as [Hlast Hkeep].
  assert (Hinv : block_inv (set_storage (set_last_state (set_accounts (set_voting_power self (nodes_powers g)) root trie) s)
            db (delivered_txs self)) s (genesis_accmap conf t)).
  { eapply (genesis_block_inv conf t (compute_app_hash merkle_empty root pool (genesis_params_of conf)) root nodes pool g);
      done. }
  split; try done.
  - unfold supply. rewrite genesis_accmap_total by done. pose proof (gs_supply _ _ _ _ _ Hg).
    unfold pool_of, params_of. simpl. rewrite (gs_pool _ _ _ _ _ Hg). simpl.
    unfold get_rewards_monetary_expansion_cap, coin_zero. simpl. lia.
  - intros Hok. unfold stored_state. simpl. rewrite Hdb, Hlast. cbn [mbind option_bind].
    apply (decode_ok node_state_ok); [apply node_state_codec_ok | done].
  - intros a p. simpl. rewrite (ni_powers _ _ _ _ _ Hn). case_decide; naive_solver.
  - apply (ni_index _ _ _ _ _ Hn).
  - intros a node Hin. destruct (genesis_node _ _ _ _ _ _ Hb Hg Hin) as (acct & ? & ? & ? & ? & ? & ? & _).
    exists acct. by split_and!.
  - apply Hg.
  - intros k ? ? ? ?. simpl. rewrite Hdb. by apply Hkeep.
Qed.

(** What the handler compares. *)
Record init_agrees (self : ChainNodeApp) (req : RequestInitChain) (conf : InitConfig) (t : Timespec)
    (pool : RewardsPoolState) (nodes : list (StakedStateAddress * CouncilNode)) : Prop := {
  ia_time : 0 ≤ t;
  ia_config : validate_config_get_genesis conf t = Some (Ok (Genesis.get_account conf t, pool, nodes));
  ia_chain : db_view (storage self) !! (COL_EXTRA, CHAIN_ID_KEY) = Some (init_chain_id req);
  ia_hash root trie : compute_accounts_root (accounts self) (Genesis.get_account conf t) = Some (root, trie) →
    genesis_app_hash self = compute_app_hash merkle_empty root pool (genesis_params_of conf);
  ia_consensus cp : consensus_params req = Some cp → is_Some (params_write_to_bytes cp);
  ia_validators : init_validators req ≡ₚ node_update conf <$> nodes;
}.

Lemma init_chain_total self req conf t pool nodes :
  init_config_from_slice (app_state_bytes req) = Some conf → init_time req = Some t → is_i64 t →
  bootable conf → voting_power self = ∅ → init_agrees self req conf t pool nodes →
  is_Some (init_chain_handler self req).
Proof.
  intros Hconf Htime Hi64 Hb Hvp [Ht0 Ev Hc Hash Hcp Hval]. assert (Ht : is_u64 t) by ints.
  assert (Hg : genesis_spec conf t (Genesis.get_account conf t) pool nodes).
  { apply genesis_ok; [|done]. intros a e He. by destruct (conf_distribution _ (boot_config _ Hb) _ _ He) as (_ & _ & ?). }
  unfold init_chain_handler. rewrite Hconf, Htime. cbn [mbind option_bind]. unfold u64_try_from_i64.
  destruct (Z.leb_spec 0 t); [|lia]. cbn [mbind option_bind]. rewrite Ev. cbn [mbind option_bind ok].
  rewrite db_get_view, Hc. cbn [mbind option_bind ok]. rewrite decide_False by congruence.
  destruct (compute_accounts_root_holds (accounts self) (Genesis.get_account conf t)) as (root & trie & Er & _ & _);
    [by eapply genesis_accounts_nonempty | by apply genesis_keys | by apply genesis_accounts_ok, Ht; apply Hb |].
  rewrite Er. cbn [mbind option_bind]. pose proof (Hash _ _ Er) as Eh.
  unfold genesis_params_of in Eh. rewrite decide_False by congruence.
  assert (∃ inittx, check_and_store_consensus_params (consensus_params req) [] = Some inittx) as [inittx ->].
  { unfold check_and_store_consensus_params. destruct (consensus_params req) as [cp|]; [|by eexists].
    destruct (Hcp cp eq_refl) as [bytes ->]. by eexists. }
  cbn [mbind option_bind]. destruct (genesis_nodes_added conf t pool nodes self Hb Hg Hvp) as (g & Eg & Hn).
  unfold genesis_params_of in Eg. rewrite Eg. cbn [mbind option_bind].
  rewrite decide_False.
  - match goal with |- context [db_write _ ?ops] => destruct (db_write_view (storage self) ops) as (db & Ew & Hdb) end.
    rewrite Ew. by eexists.
  - intros Hs. apply Hs. rewrite (ni_updates _ _ _ _ _ Hn). apply sort_updates_unique.
    + by symmetry.
    + intros x y (e & -> & He)%list_elem_of_fmap (e' & -> & He')%list_elem_of_fmap [= Hk].
      f_equal. by eapply node_update_inj.
    + intros x (e & -> & He)%list_elem_of_fmap. by eexists.
Qed.

(** ** Restart *)

(** The committed index agrees with the committed accounts. *)
Definition index_agrees (s : ChainNodeState) (m : accmap) : Prop :=
  Forall (λ e : (Z * StakedStateAddress) * CouncilNode,
    ∃ acct, m !! to_stake_key e.1.2 = Some acct ∧ council_node acct = Some e.2
      ∧ expected_power s acct = Some e.1.1)
    (top_nodes (get_max_validators (params_of s)) (council_nodes_by_power (validators s))).

Lemma check_mapping_spec accs s m l v :
  holds accs (account_root (top_level s)) m →
  Forall (λ e : (Z * StakedStateAddress) * CouncilNode,
    ∃ acct, m !! to_stake_key e.1.2 = Some acct ∧ council_node acct = Some e.2
      ∧ expected_power s acct = Some e.1.1) l ↔ is_Some (check_mapping accs s l v).
Proof.
  intros Hh. revert v. induction l as [|[[p a] node] l IH]; intros v; [split; [by eexists | constructor]|].
  rewrite Forall_cons. cbn [check_mapping fst snd].
  rewrite (get_account_holds _ _ _ _ Hh). destruct (m !! to_stake_key a) as [acct|] eqn:Ea; simpl.
  2: { split; [by intros [(? & ? & _) _] | by intros [? ?]]. }
  destruct (council_node acct) as [node'|] eqn:En; simpl.
  2: { split; [intros [(? & [= <-] & ? & _) _]; congruence | by intros [? ?]]. }
  destruct (expected_power s acct) as [vp|] eqn:Ev; simpl.
  2: { split; [intros [(? & [= <-] & _ & ?) _]; congruence | by intros [? ?]]. }
  destruct (Z.eqb_spec p vp) as [->|Hne]; simpl.
  2: { split; [intros [(? & [= <-] & _ & ?) _]; congruence | by intros [? ?]]. }
  case_decide as Hd; [subst node'|].
  - rewrite <- IH. split; [by intros [_ ?] | intros ?; split; [by exists acct | done]].
  - split; [intros [(? & [= <-] & ? & _) _]; congruence | by intros [? ?]].
Qed.

Lemma check_mapping_powers accs s l v v' :
  check_mapping accs s l v = Some v' → NoDup ((λ e, e.1.2) <$> l) →
  ∀ a p, v' !! a = Some p ↔ (∃ node, ((p, a), node) ∈ l) ∨ (a ∉ (λ e, e.1.2) <$> l) ∧ v !! a = Some p.
Proof.
  revert v. induction l as [|[[q b] node] l IH]; intros v Hc Hnd a p.
  { injection Hc as <-. set_solver. }
  cbn [check_mapping] in Hc. destruct (Storage.get_account _ _ _) as [acct|]; [|done]. cbn [mbind option_bind ok] in Hc.
  destruct (council_node acct) as [node'|]; [|done]. cbn [mbind option_bind] in Hc.
  destruct (expected_power s acct) as [vp|]; [|done]. cbn [mbind option_bind] in Hc.
  destruct (Z.eqb_spec q vp) as [->|]; [|done]. cbn [negb] in Hc. case_decide; [|done].
  rewrite fmap_cons in *. apply NoDup_cons in Hnd as [Hn Hnd]. simpl in Hn.
  rewrite (IH _ Hc Hnd a p). rewrite not_elem_of_cons. simpl. destruct (decide (a = b)) as [->|Hne].
  - rewrite lookup_insert_eq. split.
    + intros [[n Hin]|[_ [= ->]]]; left; [exists n; by right | exists node; by left].
    + intros [[n [[= -> _]|Hin]%elem_of_cons]|[[? _] _]]; [right; done | | done].
      destruct Hn. apply list_elem_of_fmap. by exists ((p, b), n).
  - rewrite lookup_insert_ne by done. set_solver.
Qed.

Lemma agreeing_addresses s m : index_agrees s m →
  NoDup ((λ e : (Z * StakedStateAddress) * CouncilNode, e.1.2)
    <$> top_nodes (get_max_validators (params_of s)) (council_nodes_by_power (validators s))).
Proof.
  intros Hi. unfold index_agrees in Hi. rewrite Forall_forall in Hi. apply NoDup_fmap_2_strong.
  - intros [[p a] n] [[p' a'] n'] Hx Hy E. simpl in E. subst a'.
    destruct (Hi _ Hx) as (acct & Ha & Hn & Hp), (Hi _ Hy) as (acct' & Ha' & Hn' & Hp'). simpl in *.
    rewrite Ha in Ha'. injection Ha' as <-. congruence.
  - unfold top_nodes. eapply sublist_NoDup; [|apply sublist_take].
    rewrite reverse_Permutation. eapply NoDup_fmap_1, NoDup_btree_iter.
Qed.

(** What a start finds in the store. *)
Record committed (db : Db) (accs : AccountStorage) (gah chain_id : str) (h : H256) (hex_id : Z)
    (s : ChainNodeState) (m : accmap) : Prop := {
  cm_hash : hex_decode gah = Some h;
  cm_hash_len : length h = 32%nat;
  cm_id : chain_hex_id_of chain_id = Some hex_id;
  cm_state : stored_state db = Some s;
  cm_genesis : db_view db !! (COL_NODE_INFO, GENESIS_APP_HASH_KEY) = Some h;
  cm_chain : db_view db !! (COL_EXTRA, CHAIN_ID_KEY) = Some chain_id;
  cm_holds : holds accs (account_root (top_level s)) m;
}.

(** The application that is restored, with the given powers. *)
Definition restored (db : Db) (accs : AccountStorage) (h : H256) (hex_id : Z) (s : ChainNodeState)
    (v : Proxy) (q : option str) (powers : gmap StakedStateAddress Z) : ChainNodeApp :=
  {| storage := db; accounts := accs; delivered_txs := [];
     uncommitted_account_root_hash := account_root (top_level s);
     genesis_app_hash := h; app_chain_hex_id := hex_id; last_state := Some s; voting_power := powers;
     power_changed_in_block := ∅; new_nodes_in_block := ∅; tx_validator := v;
     rewards_pool_updated := false; tx_query_address := q |}.

Lemma restart_spec db accs gah chain_id h hex_id s m proxy proxy' u q :
  committed db accs gah chain_id h hex_id s m →
  process_request proxy (CheckChain hex_id (Some (last_apphash s))) = Some (RespCheckChain (Ok u), proxy') →
  new_with_storage proxy gah chain_id db accs q
  = powers ← get_validator_mapping accs s; Some (restored db accs h hex_id s proxy' q powers).
Proof.
  intros [Hh Hl Hid Hs Hg Hc _] He. unfold new_with_storage, check_enclave, copy_hash.
  rewrite Hh. cbn [mbind option_bind]. rewrite Hl, Hid. cbn [Nat.eqb mbind option_bind].
  unfold stored_state in Hs. rewrite db_get_view. cbn [mbind option_bind ok].
  destruct (db_view db !! (COL_NODE_INFO, LAST_STATE_KEY)) as [bytes|]; [|done]. cbn [mbind option_bind] in Hs.
  rewrite Hs. cbn [mbind option_bind]. rewrite He. cbn [mbind option_bind].
  unfold restore_from_storage, copy_hash. rewrite !db_get_view, Hg, Hc. cbn [mbind option_bind ok].
  rewrite Hl. cbn [Nat.eqb mbind option_bind]. rewrite !decide_False by (intros Hne; by apply Hne).
  rewrite Hid. cbn [mbind option_bind]. by destruct (get_validator_mapping accs s).
Qed.

Lemma mapping_agrees accs s m :
  holds accs (account_root (top_level s)) m →
  (index_agrees s m ↔ is_Some (get_validator_mapping accs s))
  ∧ ∀ powers, get_validator_mapping accs s = Some powers → ∀ a p, powers !! a = Some p
      ↔ ∃ node, ((p, a), node) ∈ top_nodes (get_max_validators (params_of s)) (council_nodes_by_power (validators s)).
Proof.
  intros Hh. assert (Hag : index_agrees s m ↔ is_Some (get_validator_mapping accs s))
    by exact (check_mapping_spec accs s m _ ∅ Hh).
  split; [done|]. intros powers Hm a p.
  assert (Hi : index_agrees s m) by (apply Hag; by eexists).
  rewrite (check_mapping_powers _ _ _ _ _ Hm (agreeing_addresses s m Hi) a p), lookup_empty. naive_solver.
Qed.

Lemma agreeing_power s m a p q n n' :
  index_agrees s m →
  ((p, a), n) ∈ top_nodes (get_max_validators (params_of s)) (council_nodes_by_power (validators s)) →
  ((q, a), n') ∈ top_nodes (get_max_validators (params_of s)) (council_nodes_by_power (validators s)) →
  p = q.
Proof.
  unfold index_agrees. rewrite Forall_forall. intros Hi Hx Hy.
  destruct (Hi _ Hx) as (acct & Ha & _ & Hp), (Hi _ Hy) as (acct' & Ha' & _ & Hp'). simpl in *.
  rewrite Ha in Ha'. injection Ha' as <-. congruence.
Qed.

Lemma commit_frame self s self' app_hash :
  last_state self = Some s → commit_handler self = Some (self', app_hash) →
  last_state self' = Some (committed_state self s app_hash)
  ∧ voting_power self' = voting_power self
  ∧ power_changed_in_block self' = power_changed_in_block self.
Proof.
  intros Hs Hc. unfold commit_handler in Hc. rewrite Hs in Hc. cbn [mbind option_bind] in Hc.
  destruct (merkle_new _) as [tree|]; [|done]. cbn [mbind option_bind] in Hc.
  destruct (process_txs _ _ _) as [inittx|]; [|done]. cbn [mbind option_bind] in Hc.
  destruct (unwrap _) as [base_fee|]; [|done]. cbn [mbind option_bind] in Hc.
  destruct (process_request _ _) as [[[] v]|]; try done. cbn [mbind option_bind] in Hc.
  case_match; [|done]. destruct (unwrap (db_write _ _)) as [db|]; [|done]. by injection Hc as <- <-.
Qed.

(** The powers of a node whose block ended with changes and was committed. *)
Lemma committed_powers self0 s0 height self1 resp self2 app_hash s2 :
  last_state self0 = Some s0 → power_changed_in_block self0 ≠ ∅ →
  set_inv (voting_power self0) (power_changed_in_block self0) (new_nodes_in_block self0)
    (council_nodes_by_power (validators s0)) →
  end_block_handler self0 height = Some (self1, resp) →
  commit_handler self1 = Some (self2, app_hash) → last_state self2 = Some s2 →
  (∀ a p, voting_power self2 !! a = Some p → 0 < p ∧ ∃ n, ((p, a), n)
     ∈ top_nodes (get_max_validators (params_of s2)) (council_nodes_by_power (validators s2)))
  ∧ power_changed_in_block self2 = ∅.
Proof.
  intros Hs0 Hne Hinv He Hc Hs2. unfold end_block_handler in He.
  destruct (block_filter_events self0) as [[ev v]|]; [|done]. cbn [mbind option_bind] in He.
  rewrite decide_False in He by done. simpl in He. rewrite Hs0 in He. simpl in He.
  destruct (get_validator_updates _ _ _ _) as [[[s1 vp] us]|] eqn:Eu; [|done].
  simpl in He. injection He as <- _.
  assert (Ep : params_of s1 = params_of s0).
  { unfold get_validator_updates in Eu. destruct (index_powers _ _ _ _); [|done]. simpl in Eu.
    destruct (remove_validators _ _ _) as [[]|]; [|done]. simpl in Eu. by injection Eu as <- _ _. }
  apply (commit_frame _ (with_block_height s1 height)) in Hc as (Hl & -> & ->); [|done]. rewrite Hs2 in Hl. injection Hl as ->.
  split; [|done]. intros a p Ha.
  destruct (updates_voting _ _ _ _ _ _ _ _ _ Hinv Eu Ha) as [Hpos Hn]. split; [done|].
  rewrite <- Ep in Hn. exact Hn.
Qed.

(** *** Restart after genesis *)

Lemma started_index_agrees self req conf t nodes self' s :
  chain_started self req conf t nodes self' s → index_agrees s (genesis_accmap conf t).
Proof.
  intros Hcs. apply Forall_forall. intros [[p a] node] Hin%elem_of_top.
  apply (cs_index _ _ _ _ _ _ _ Hcs) in Hin as [-> Hin].
  destruct (cs_node _ _ _ _ _ _ _ Hcs _ _ Hin) as (acct & Ha & Hn & Hj & Hreq & Hc & Hp).
  exists acct. split; [done|]. split; [done|]. unfold expected_power. rewrite Hj. simpl.
  destruct (Z.ltb_spec (bonded acct) (get_required_council_node_stake (params_of s))); [lia|].
  rewrite Hp. apply (vote_power_from_coin_ok _ Hc).
Qed.

Lemma started_all_top self req conf t nodes self' s e :
  chain_started self req conf t nodes self' s →
  Z.of_nat (length nodes) ≤ get_max_validators (params_of s) →
  e ∈ top_nodes (get_max_validators (params_of s)) (council_nodes_by_power (validators s))
  ↔ council_nodes_by_power (validators s) !! e.1 = Some e.2.
Proof.
  intros Hcs Hle. split; [apply elem_of_top|]. intros He. unfold top_nodes.
  assert (Hlen : (length (btree_iter (council_nodes_by_power (validators s))) ≤ length nodes)%nat).
  { rewrite <- (length_fmap (λ e : (Z * StakedStateAddress) * CouncilNode, (e.1.2, e.2))).
    apply submseteq_length, NoDup_submseteq.
    - apply NoDup_fmap_2_strong; [|eapply NoDup_fmap_1, NoDup_btree_iter].
      intros [[p a] n] [[p' a'] n'] Hx%elem_of_btree_iter Hy%elem_of_btree_iter [= -> ->].
      apply (cs_index _ _ _ _ _ _ _ Hcs) in Hx as [-> _], Hy as [-> _]. done.
    - intros x (e' & -> & Hx)%list_elem_of_fmap. destruct e' as [[p a] n]. apply elem_of_btree_iter in Hx.
      by apply (cs_index _ _ _ _ _ _ _ Hcs) in Hx as [_ ?]. }
  rewrite take_ge by (rewrite length_reverse; lia). apply elem_of_reverse. destruct e. by apply elem_of_btree_iter.
Qed.

Lemma started_mapping self req conf t nodes self' s powers :
  chain_started self req conf t nodes self' s →
  Z.of_nat (length nodes) ≤ get_max_validators (params_of s) →
  get_validator_mapping (accounts self') s = Some powers → powers = voting_power self'.
Proof.
  intros Hcs Hle Hm. pose proof (cs_inv _ _ _ _ _ _ _ Hcs) as Hinv.
  assert (Hh : holds (accounts self') (account_root (top_level s)) (genesis_accmap conf t)).
  { rewrite <- (inv_root _ _ _ Hinv). apply Hinv. }
  apply map_eq. intros a. apply option_eq. intros p. rewrite (proj2 (mapping_agrees _ _ _ Hh) _ Hm).
  rewrite (cs_powers _ _ _ _ _ _ _ Hcs). setoid_rewrite (started_all_top _ _ _ _ _ _ _ _ Hcs Hle). cbn [fst snd].
  setoid_rewrite (cs_index _ _ _ _ _ _ _ Hcs). split.
  - intros (node & -> & Hin). split; [done|]. apply list_elem_of_fmap. by exists (a, node).
  - intros [-> ([a' node] & -> & Hin)%list_elem_of_fmap]. by exists node.
Qed.

(** A start on a store without a state. *)
Lemma fresh_start proxy gah chain_id db accs q self :
  new_with_storage proxy gah chain_id db accs q = Some self →
  db_view db !! (COL_NODE_INFO, LAST_STATE_KEY) = None →
  ∃ h hex_id v db', hex_decode gah = Some h ∧ length h = 32%nat ∧ chain_hex_id_of chain_id = Some hex_id
    ∧ self = {| storage := db'; accounts := accs; delivered_txs := [];
                uncommitted_account_root_hash := replicate 32 Byte.x00; genesis_app_hash := h;
                app_chain_hex_id := hex_id; last_state := None; voting_power := ∅;
                power_changed_in_block := ∅; new_nodes_in_block := ∅; tx_validator := v;
                rewards_pool_updated := false; tx_query_address := q |}
    ∧ db_view db' !! (COL_NODE_INFO, GENESIS_APP_HASH_KEY) = Some h
    ∧ db_view db' !! (COL_EXTRA, CHAIN_ID_KEY) = Some chain_id.
Proof.
  intros Hn Hno. unfold new_with_storage, copy_hash in Hn.
  destruct (hex_decode gah) as [h|]; [|done]. cbn [mbind option_bind] in Hn.
  destruct (Nat.eqb_spec (length h) 32); [|done]. cbn [mbind option_bind] in Hn.
  destruct (chain_hex_id_of chain_id) as [hex_id|]; [|done]. cbn [mbind option_bind] in Hn.
  rewrite db_get_view, Hno in Hn. cbn [mbind option_bind ok] in Hn.
  destruct (check_enclave _ _ _) as [v|]; [|done]. cbn [mbind option_bind] in Hn.
  match type of Hn with context [db_write _ ?ops] => destruct (db_write_view db ops) as (db' & Ew & Hdb) end.
  rewrite Ew in Hn. cbn [mbind option_bind ok] in Hn. injection Hn as <-.
  exists h, hex_id, v, db'. split_and!; try done; rewrite Hdb; unfold apply_ops; cbn [foldl apply_op].
  - by rewrite lookup_insert_ne, lookup_insert_eq.
  - by rewrite lookup_insert_eq.
Qed.
End genesis.

(** ** Properties *)

Section properties.
Context `{Hashes, Secp256k1, BitVecLaws, KeyValueDBLaws, ScaleLaws, StarlingLaws, Hex, VarInt, GenesisLib,
          FixedLib, SerdeJson, !EnclaveProxy, !EnclaveContract}.

(** The store after genesis is that of a commit. *)
Lemma started_committed proxy gah chain_id db accs q self req conf t nodes self' s :
  new_with_storage proxy gah chain_id db accs q = Some self →
  db_view db !! (COL_NODE_INFO, LAST_STATE_KEY) = None →
  chain_started self req conf t nodes self' s → (∀ s, last_state self' = Some s → node_state_ok s) →
  committed (storage self') (accounts self') gah chain_id (genesis_app_hash self) (app_chain_hex_id self) s
    (genesis_accmap conf t).
Proof.
  intros Hnew Hno Hcs Hok.
  destruct (fresh_start _ _ _ _ _ _ _ Hnew Hno) as (h & hex_id & v & db' & Hh & Hl & Hid & Eself & Hg & Hc).
  pose proof (cs_inv _ _ _ _ _ _ _ Hcs) as Hinv. split; try (by rewrite Eself).
  - apply Hcs. by apply Hok, Hcs.
  - rewrite (cs_kept _ _ _ _ _ _ _ Hcs), Eself by done. exact Hg.
  - rewrite (cs_kept _ _ _ _ _ _ _ Hcs), Eself by done. exact Hc.
  - rewrite <- (inv_root _ _ _ Hinv). apply Hinv.
Qed.

(** C7. Genesis.  From an accepted configuration that can boot, [InitChain] returns when
    the chain id, the application hash, the consensus parameters and the validators of
    the request agree with it, and whenever it returns: the state it leaves satisfies
    the invariant between blocks and the one of transaction processing; the accounts
    with the coins still to be minted are the whole supply; the application hash is the
    expected one; the state can be read back from the store; and the voting powers are
    those of the validators that Tendermint was given. *)
Theorem init_chain_sound self req conf t :
  init_config_from_slice (app_state_bytes req) = Some conf → init_time req = Some t → is_i64 t →
  bootable conf → voting_power self = ∅ →
  (∀ pool nodes, init_agrees self req conf t pool nodes → is_Some (init_chain_handler self req))
  ∧ ∀ self', init_chain_handler self req = Some self' →
      ∃ nodes s, chain_started self req conf t nodes self' s
        ∧ (proxy_inv (tx_validator self) → is_u8 (app_chain_hex_id self) →
           tx_inv self' s (genesis_accmap conf t)).
Proof.
  intros Hconf Htime Hi64 Hb Hv. split.
  { intros pool nodes Ha. by eapply init_chain_total. }
  intros self' Hi. destruct (init_chain_started _ _ _ _ _ Hconf Htime Hi64 Hb Hv Hi) as (nodes & s & Hcs).
  exists nodes, s. split; [done|]. intros Hpi Hid. pose proof (cs_inv _ _ _ _ _ _ _ Hcs) as Hinv.
  pose proof (cs_frame _ _ _ _ _ _ _ Hcs) as Hf. split; [apply Hinv|]. split; [apply Hinv|].
  unfold info_typed. rewrite Hf. simpl. rewrite (cs_time _ _ _ _ _ _ _ Hcs), (cs_params _ _ _ _ _ _ _ Hcs).
  destruct (conf_params _ (boot_config _ Hb)) as (_&_&?&_).
  split_and!; [|done|done|done]. unfold init_chain_handler in Hi. rewrite Hconf, Htime in Hi.
  cbn [mbind option_bind] in Hi. unfold u64_try_from_i64 in Hi. destruct (Z.leb_spec 0 t); [ints | done].
Qed.

(** C8. Restart.  With the state, the genesis hash and the chain id of the last commit in
    the store and an enclave at the same block, a start returns exactly when the
    committed index of the validators agrees with the committed accounts; then the
    application continues from the committed state, with the voting powers of the top
    of the index, and nothing uncommitted. *)
Theorem restart_restores db accs gah chain_id h hex_id s m proxy proxy' u q :
  committed db accs gah chain_id h hex_id s m →
  process_request proxy (CheckChain hex_id (Some (last_apphash s))) = Some (RespCheckChain (Ok u), proxy') →
  (index_agrees s m ↔ is_Some (new_with_storage proxy gah chain_id db accs q))
  ∧ ∀ self, new_with_storage proxy gah chain_id db accs q = Some self →
      ∃ powers, self = restored db accs h hex_id s proxy' q powers
        ∧ ∀ a p, powers !! a = Some p
            ↔ ∃ node, ((p, a), node) ∈ top_nodes (get_max_validators (params_of s))
                                         (council_nodes_by_power (validators s)).
Proof.
  intros Hc He. rewrite (restart_spec _ _ _ _ _ _ _ _ _ _ _ _ Hc He).
  destruct (mapping_agrees _ _ _ (cm_holds _ _ _ _ _ _ _ _ Hc)) as [Hag Hpow]. split.
  - rewrite Hag. destruct (get_validator_mapping accs s); simpl; [by split; eexists | done].
  - intros self Hs. destruct (get_validator_mapping accs s) as [powers|]; [|done].
    injection Hs as <-. exists powers. split; [done|]. by apply Hpow.
Qed.

(** C9. A node that is stopped after genesis and started again is the node that was
    stopped: with no more validators than seats, starting on an empty store, handling
    [InitChain] and starting again on what that left gives the same application. *)
Theorem genesis_restart_roundtrip proxy gah chain_id db accs q self req conf t self' proxy' proxy'' u :
  new_with_storage proxy gah chain_id db accs q = Some self →
  db_view db !! (COL_NODE_INFO, LAST_STATE_KEY) = None →
  init_config_from_slice (app_state_bytes req) = Some conf → init_time req = Some t → is_i64 t →
  bootable conf → Z.of_nat (length (init_validators req)) ≤ max_validators (init_network_params conf) →
  init_chain_handler self req = Some self' → (∀ s, last_state self' = Some s → node_state_ok s) →
  process_request proxy' (CheckChain (app_chain_hex_id self) (Some (genesis_app_hash self)))
    = Some (RespCheckChain (Ok u), proxy'') →
  new_with_storage proxy' gah chain_id (storage self') (accounts self') q = Some (set_validator self' proxy'').
Proof.
  intros Hnew Hno Hconf Htime Hi64 Hb Hmax Hi Hok He.
  destruct (fresh_start _ _ _ _ _ _ _ Hnew Hno) as (h & hex_id & v & db' & Hh & Hl & Hid & Eself & Hg & Hc).
  assert (Hv : voting_power self = ∅) by by rewrite Eself.
  destruct (init_chain_started _ _ _ _ _ Hconf Htime Hi64 Hb Hv Hi) as (nodes & s & Hcs).
  pose proof (cs_frame _ _ _ _ _ _ _ Hcs) as Hf.
  pose proof (started_committed _ _ _ _ _ _ _ _ _ _ _ _ _ Hnew Hno Hcs Hok) as Hcm.
  rewrite <- (cs_hash _ _ _ _ _ _ _ Hcs) in He.
  rewrite (restart_spec _ _ _ _ _ _ _ _ _ _ _ q Hcm He).
  destruct (proj1 (proj1 (mapping_agrees _ _ _ (cm_holds _ _ _ _ _ _ _ _ Hcm)))
    (started_index_agrees _ _ _ _ _ _ _ Hcs)) as [powers Hm].
  rewrite Hm. cbn [mbind option_bind].
  assert (Hcount : Z.of_nat (length nodes) ≤ get_max_validators (params_of s)).
  { rewrite (cs_params _ _ _ _ _ _ _ Hcs), <- (length_fmap (node_update conf)).
    by rewrite <- (cs_validators _ _ _ _ _ _ _ Hcs). }
  rewrite (started_mapping _ _ _ _ _ _ _ _ Hcs Hcount Hm). f_equal. rewrite Hf, Eself. done.
Qed.
End properties.

(** C20. A restart changes the node.  A block in which powers changed ends and is
    committed; the index then has, among its first nodes, one that is left without
    power, and agrees with the accounts.  The node that keeps running has no voting power
    for it.  A start on the same store, with an enclave at the same block, succeeds with
    the same state, and has a voting power of zero for it.  When a later transaction touches the account of that node, free and
    with enough stake again, the running node ignores it, and the restarted one
    records a change of power, which the next end of block reports to Tendermint. *)
Theorem restart_diverges
    `{Hashes, Secp256k1, BitVecLaws, KeyValueDBLaws, ScaleLaws, StarlingLaws, Hex, VarInt,
      GenesisLib, !EnclaveProxy}
    self0 s0 height self1 resp self2 app_hash s2 gah chain_id h hex_id m proxy proxy' u q node
    account min_power power :
  last_state self0 = Some s0 → power_changed_in_block self0 ≠ ∅ →
  set_inv (voting_power self0) (power_changed_in_block self0) (new_nodes_in_block self0)
    (council_nodes_by_power (validators s0)) →
  end_block_handler self0 height = Some (self1, resp) →
  commit_handler self1 = Some (self2, app_hash) → last_state self2 = Some s2 →
  committed (storage self2) (accounts self2) gah chain_id h hex_id s2 m → index_agrees s2 m →
  process_request proxy (CheckChain hex_id (Some (last_apphash s2))) = Some (RespCheckChain (Ok u), proxy') →
  ((0, address account), node)
    ∈ top_nodes (get_max_validators (params_of s2)) (council_nodes_by_power (validators s2)) →
  is_jailed account = false →
  vote_power_from_coin (get_required_council_node_stake (params_of s2)) = Some min_power →
  vote_power_from_coin (bonded account) = Some power → 0 < min_power ≤ power →
  deliver_power self2 (Some account) = Some self2
  ∧ ∃ self3, new_with_storage proxy gah chain_id (storage self2) (accounts self2) q = Some self3
    ∧ last_state self3 = last_state self2
    ∧ deliver_power self3 (Some account)
      = Some (set_power_changed self3 {[ address account := power ]}).
Proof.
  intros Hs0 Hne Hinv He Hc Hs2 Hcm Hag Hen Hin Hj Hmin Hp Hlt. split.
  - destruct (committed_powers _ _ _ _ _ _ _ _ Hs0 Hne Hinv He Hc Hs2) as [Hpow Hch].
    unfold deliver_power. rewrite Hch, lookup_empty, decide_False; [done|].
    intros [[p Hpa]|[? ?]]; [|done]. destruct (Hpow _ _ Hpa) as [Hpos [n Hn]].
    pose proof (agreeing_power _ _ _ _ _ _ _ Hag Hin Hn). lia.
  - rewrite (restart_spec _ _ _ _ _ _ _ _ _ _ _ _ Hcm Hen).
    destruct (mapping_agrees _ _ _ (cm_holds _ _ _ _ _ _ _ _ Hcm)) as [Hmap Hpow].
    apply Hmap in Hag as [powers Ep]. rewrite Ep. cbn [mbind option_bind].
    eexists. split; [done|]. split; [done|].
    assert (Ha : powers !! address account = Some 0) by (apply (Hpow _ Ep); by exists node).
    unfold deliver_power, restored. rewrite decide_True by (left; simpl; rewrite Ha; by eexists).
    rewrite Hj. cbn [last_state mbind option_bind]. rewrite Hmin. cbn [mbind option_bind].
    rewrite Hp. cbn [voting_power mbind option_bind]. rewrite Ha. cbn [default from_option].
    destruct (Z.ltb_spec 0 power); [|lia]. destruct (Z.leb_spec min_power power); [|lia].
    cbn [andb power_changed_in_block]. unfold Datatypes.id, vote_power_zero.
    destruct (Z.ltb_spec 0 power); [done | lia].
Qed.

(** ** Witnesses *)

Module GenesisExample.
Import AppExample.
#[export] Existing Instance fixed_ref.
#[export] Instance json_none : SerdeJson := {| json_distribution _ := [] |}.
#[export] Instance var_int_raw : VarInt := {| i64_encode_var := λ z, enc u64_codec (as_u64 z) |}.
#[export] Instance reject_keeps : EnclaveContract.
Proof. refine {| enclave_open := λ _, None; proxy_inv := λ _, True |}; by intros. Defined.
#[export] Instance genesis_lib : GenesisLib := {|
  init_config_from_slice := λ _, Some config_example;
  ConsensusParams := (); params_write_to_bytes := λ _, Some [] |}.

(** The trie has 32 older roots, so that the next one has 32 bytes. *)
Definition trie : AccountStorage := replicate 32 (∅ : triemap).
Definition app_hash : H256 :=
  compute_app_hash merkle_empty (replicate 32 Byte.x00) (rewards_pool_new 5 14500000000000000)
    (GenesisParams params_example).
Definition chain_id : str := bstr "test-chain-ab".
Definition request : RequestInitChain :=
  {| app_state_bytes := []; init_time := Some 5; init_chain_id := chain_id; consensus_params := Some tt;
     init_validators := [(Some (bstr "ed25519", replicate 32 Byte.x07), 60000000000)] |}.
Definition fresh : option ChainNodeApp :=
  new_with_storage tt (hex_encode app_hash) chain_id (∅ : dbmap) trie None.

Lemma example_bootable : bootable config_example.
Proof.
  split.
  - split.
    + exact params_example_ok.
    + apply map_Forall_insert_2; [|apply map_Forall_singleton]; (split; [reflexivity|]; split; [exact I|]; simpl; ints).
    + apply map_Forall_singleton. split; [split; [vm_compute; discriminate | reflexivity]|]. by split.
  - reflexivity.
  - vm_compute. discriminate.
  - intros a b Ha Hb. simpl in Ha, Hb. rewrite lookup_insert_is_Some, lookup_singleton_is_Some in Ha, Hb.
    destruct Ha as [<-|[_ <-]], Hb as [<-|[_ <-]]; done.
Qed.
End GenesisExample.

Section witnesses.
Import AppExample GenesisExample.

(** The application at a first start and after the request. *)
Definition first_start : option (ChainNodeApp * ChainNodeApp) :=
  self ← fresh; self' ← init_chain_handler self request; Some (self, self').

Definition first_node : CouncilNode :=
  council_node_new_with_details (bstr "node") None (Ed25519 (replicate 32 Byte.x07)).
Definition first_validator : list byte := validator_address_from (consensus_pubkey first_node).
Definition first_state : ChainNodeState :=
  chain_node_state_genesis app_hash 5 (replicate 32 Byte.x00) (rewards_pool_new 5 14500000000000000)
    (GenesisParams params_example)
    {| council_nodes_by_power := {[ (60000000000, addr Byte.x01) := first_node ]};
       staking_addresses := {[ first_validator := addr Byte.x01 ]};
       validator_punishment := {| validator_liveness := {[ first_validator := liveness_new 100 ]};
                                  slashing_schedule := ∅ |} |}.

Lemma first_state_ok : node_state_ok first_state.
Proof.
  assert (Ha : address_ok (addr Byte.x01)) by reflexivity.
  assert (Hv : array_ok 20 first_validator) by reflexivity.
  split; [simpl; ints|]. split; [reflexivity|]. split; [simpl; ints|].
  split; [split; [vm_compute; discriminate | apply map_Forall_empty]|].
  split; [|split; [simpl; ints|]; split; [reflexivity|]; split; [|exact params_example_ok]].
  - split; [|split].
    + split; [vm_compute; discriminate|]. apply map_Forall_singleton. split; [split; [simpl; ints | exact Ha]|].
      split; [split; [vm_compute; discriminate | reflexivity]|]. by split.
    + split; [vm_compute; discriminate|]. apply map_Forall_singleton. by split.
    + split; (split; [vm_compute; discriminate|]); [|apply map_Forall_empty].
      apply map_Forall_singleton. split; [exact Hv | vm_compute; discriminate].
  - unfold rewards_pool_ok. simpl. ints.
Qed.

#[local] Instance liveness_eq_dec : EqDecision LivenessTracker.
Proof. solve_decision. Defined.

(** The state but for the maps, and whether the maps are those of [first_state]. *)
Definition state_view (s : ChainNodeState) : Z * H256 * Timespec * Timespec * ChainState * list bool :=
  (state_block_height s, last_apphash s, block_time s, genesis_time s, top_level s,
   [bool_decide (proposer_stats s = ∅);
    bool_decide (council_nodes_by_power (validators s) = council_nodes_by_power (validators first_state));
    bool_decide (staking_addresses (validators s) = staking_addresses (validators first_state));
    bool_decide (validator_liveness (validator_punishment (validators s))
                 = validator_liveness (validator_punishment (validators first_state)));
    bool_decide (slashing_schedule (validator_punishment (validators s)) = ∅)]).

Lemma state_view_inj (s : ChainNodeState) : state_view s = state_view first_state → s = first_state.
Proof.
  intros E. assert (Ev : (state_view first_state).2 = replicate 5 true).
  { unfold state_view. cbn [snd replicate]. rewrite !bool_decide_eq_true_2; done. }
  unfold state_view in E. apply pair_eq in E as [E El].
  change ((state_view s).2 = (state_view first_state).2) in El. rewrite Ev in El.
  unfold state_view in El. cbn [snd replicate] in El. injection El as E1 E2 E3 E4 E5.
  apply bool_decide_eq_true in E1, E2, E3, E4, E5.
  destruct s as [? ? ? ? [? ? [? ?]] ? ?]. simpl in E1, E2, E3, E4, E5. subst.
  injection E as -> -> -> -> ->. reflexivity.
Qed.

Lemma first_start_ok :
  ∃ self self', fresh = Some self ∧ init_chain_handler self request = Some self'
    ∧ voting_power self = ∅ ∧ app_chain_hex_id self = 171 ∧ genesis_app_hash self = app_hash
    ∧ last_state self' = Some first_state.
Proof.
  assert (E : (λ p, (voting_power p.1, app_chain_hex_id p.1, genesis_app_hash p.1,
                     state_view <$> last_state p.2)) <$> first_start
              = Some (∅, 171, app_hash, Some (state_view first_state))) by (vm_compute; reflexivity).
  unfold first_start in E. destruct fresh as [self|]; [|discriminate E]. cbn [mbind option_bind] in E.
  destruct (init_chain_handler self request) as [self'|] eqn:Ei; [|discriminate E].
  cbn [mbind option_bind fmap option_fmap option_map fst snd] in E. apply Some_inj in E.
  apply pair_eq in E as [E E4]. apply pair_eq in E as [E E3]. apply pair_eq in E as [E1 E2].
  exists self, self'. split; [reflexivity|]. split_and!; try assumption.
  destruct (last_state self') as [s|]; [|discriminate E4]. apply Some_inj in E4.
  f_equal. by apply state_view_inj.
Qed.

Lemma init_chain_sound_witness :
  ∃ self self' s, fresh = Some self ∧ init_chain_handler self request = Some self'
    ∧ last_state self' = Some s ∧ block_inv self' s (genesis_accmap config_example 5)
    ∧ tx_inv self' s (genesis_accmap config_example 5).
Proof.
  destruct first_start_ok as (self & self' & Hf & Hi & Hv & Hid & _).
  destruct (init_chain_sound self request config_example 5 eq_refl eq_refl ltac:(ints) example_bootable Hv)
    as [_ Hs].
  destruct (Hs self' Hi) as (nodes & s & Hcs & Htx). exists self, self', s.
  split; [exact Hf|]. split; [exact Hi|]. split; [apply Hcs|]. split; [apply Hcs|].
  apply Htx; [exact I|]. rewrite Hid. vm_compute. split; discriminate.
Defined.

Lemma genesis_restart_roundtrip_witness :
  ∃ self self', fresh = Some self ∧ init_chain_handler self request = Some self'
    ∧ new_with_storage tt (hex_encode app_hash) chain_id (storage self') (accounts self') None
      = Some (set_validator self' tt).
Proof.
  destruct first_start_ok as (self & self' & Hf & Hi & Hv & Hid & Hh & Hl).
  exists self, self'. split; [exact Hf|]. split; [exact Hi|].
  refine (genesis_restart_roundtrip _ _ _ _ _ _ self request config_example 5 self' _ _ tt Hf eq_refl
    eq_refl eq_refl _ example_bootable _ Hi _ _).
  - ints.
  - vm_compute. discriminate.
  - intros s Hs. rewrite Hl in Hs. apply Some_inj in Hs. rewrite <- Hs. exact first_state_ok.
  - reflexivity.
Defined.

Lemma restart_restores_witness :
  ∃ self self', fresh = Some self ∧ init_chain_handler self request = Some self'
    ∧ (index_agrees first_state (genesis_accmap config_example 5)
       ↔ is_Some (new_with_storage tt (hex_encode app_hash) chain_id (storage self') (accounts self') None)).
Proof.
  destruct first_start_ok as (self & self' & Hf & Hi & Hv & Hid & Hh & Hl).
  exists self, self'. split; [exact Hf|]. split; [exact Hi|].
  destruct (init_chain_started self request config_example 5 self' eq_refl eq_refl ltac:(ints)
    example_bootable Hv Hi) as (nodes & s & Hcs).
  assert (Es : s = first_state) by (apply Some_inj; rewrite <- Hl; symmetry; apply Hcs).
  assert (Hok : ∀ s, last_state self' = Some s → node_state_ok s).
  { intros s' Hs. rewrite Hl in Hs. apply Some_inj in Hs. rewrite <- Hs. exact first_state_ok. }
  subst s.
  refine (proj1 (restart_restores _ _ _ _ _ _ _ _ _ tt tt None
    (started_committed _ _ _ _ _ _ _ _ _ _ _ _ _ Hf eq_refl Hcs Hok) _)). reflexivity.
Defined.

(** A validator left with too little stake: its power is taken at the end of the
    block. *)
Definition leaver : StakedState := validator Byte.x01 1000000000000000000.
Definition left_accounts : list StakedState := [leaver; validator Byte.x02 7000000000000000000].
Definition left_trie : AccountStorage := trie ++ trie_of left_accounts.
Definition left_powers : gmap StakedStateAddress Z :=
  <[addr Byte.x01 := 60000000000]> {[ addr Byte.x02 := 70000000000 ]}.
Definition left_nodes : gmap (Z * StakedStateAddress) CouncilNode :=
  <[(60000000000, addr Byte.x01) := node Byte.x01]> {[ (70000000000, addr Byte.x02) := node Byte.x02 ]}.
Definition left_state : ChainNodeState :=
  chain_node_state_genesis app_hash 5 (replicate 32 Byte.x00) (rewards_pool_new 5 14500000000000000)
    (GenesisParams params_example)
    {| council_nodes_by_power := left_nodes; staking_addresses := ∅;
       validator_punishment := {| validator_liveness := ∅; slashing_schedule := ∅ |} |}.
Definition left_app : ChainNodeApp :=
  {| storage := (<[(COL_NODE_INFO, GENESIS_APP_HASH_KEY) := app_hash]>
                   {[ (COL_EXTRA, CHAIN_ID_KEY) := chain_id ]} : dbmap);
     accounts := left_trie; delivered_txs := [];
     uncommitted_account_root_hash := replicate 32 Byte.x00; genesis_app_hash := app_hash;
     app_chain_hex_id := 171; last_state := Some left_state; voting_power := left_powers;
     power_changed_in_block := {[ addr Byte.x01 := 0 ]}; new_nodes_in_block := ∅; tx_validator := tt;
     rewards_pool_updated := false; tx_query_address := None |}.

Lemma left_inv : set_inv left_powers {[ addr Byte.x01 := 0 ]} ∅ left_nodes.
Proof.
  assert (Hn : ∀ p a n, left_nodes !! (p, a) = Some n →
    (p, a) = (60000000000, addr Byte.x01) ∨ (p, a) = (70000000000, addr Byte.x02)).
  { unfold left_nodes. intros p a n [[E _]|[_ [E _]%lookup_singleton_Some]]%lookup_insert_Some; auto. }
  split.
  - intros p q a [n Ha] [n' Ha']. apply Hn in Ha, Ha'. destruct Ha as [[= -> ->]|[= -> ->]], Ha' as [E|E];
      injection E; intros; congruence.
  - intros p a [n Ha]. apply Hn in Ha as [[= -> ->]|[= -> ->]]; lia.
  - unfold left_powers. intros a p [[<- <-]|[_ [<- <-]%lookup_singleton_Some]]%lookup_insert_Some;
      (split; [lia|]); refine (bool_decide_unpack _ _); vm_compute; exact I.
  - intros a q [<- <-]%lookup_singleton_Some. split; [lia | done].
Qed.

#[local] Instance schedule_eq_dec : EqDecision SlashingSchedule.
Proof. solve_decision. Defined.
#[local] Instance vpunishment_eq_dec : EqDecision ValidatorPunishment.
Proof. solve_decision. Defined.
#[local] Instance validators_eq_dec : EqDecision ValidatorState.
Proof. solve_decision. Defined.
#[local] Instance fee_eq_dec : EqDecision LinearFee.
Proof. solve_decision. Defined.
#[local] Instance jailing_eq_dec : EqDecision JailingParameters.
Proof. solve_decision. Defined.
#[local] Instance slashing_eq_dec : EqDecision SlashingParameters.
Proof. solve_decision. Defined.
#[local] Instance rewards_eq_dec : EqDecision RewardsParameters.
Proof. solve_decision. Defined.
#[local] Instance init_params_eq_dec : EqDecision InitNetworkParameters.
Proof. solve_decision. Defined.
#[local] Instance params_eq_dec : EqDecision NetworkParameters.
Proof. solve_decision. Defined.
#[local] Instance pool_eq_dec : EqDecision RewardsPoolState.
Proof. solve_decision. Defined.
#[local] Instance chain_state_eq_dec : EqDecision ChainState.
Proof. solve_decision. Defined.
#[local] Instance node_state_eq_dec : EqDecision ChainNodeState.
Proof. solve_decision. Defined.

(** What the block leaves in the store and in the index. *)
Definition left_check (self2 : ChainNodeApp) (s2 : ChainNodeState) : bool :=
  bool_decide (stored_state (storage self2) = Some s2)
  && bool_decide (db_view (storage self2) !! (COL_NODE_INFO, GENESIS_APP_HASH_KEY) = Some app_hash)
  && bool_decide (db_view (storage self2) !! (COL_EXTRA, CHAIN_ID_KEY) = Some chain_id)
  && bool_decide (accounts self2 = left_trie)
  && bool_decide (account_root (top_level s2) = replicate 32 Byte.x00)
  && bool_decide (top_nodes (get_max_validators (params_of s2)) (council_nodes_by_power (validators s2))
       = [((70000000000, addr Byte.x02), node Byte.x02); ((0, addr Byte.x01), node Byte.x01)])
  && bool_decide (network_params (top_level s2) = GenesisParams params_example).

Lemma left_run :
  match end_block_handler left_app 3 with
  | Some (self1, _) =>
      match commit_handler self1 with
      | Some (self2, _) => match last_state self2 with Some s2 => left_check self2 s2 | None => false end
      | None => false
      end
  | None => false
  end = true.
Proof. vm_cast_no_check (@eq_refl bool true). Qed.

Lemma left_accounts_ok : Forall staked_state_ok left_accounts.
Proof. repeat constructor; unfold leaver, validator, new_init_bonded; staked_ok. Qed.

Lemma left_holds : holds left_trie (replicate 32 Byte.x00) (accmap_of left_accounts).
Proof. split; [reflexivity | apply accmap_of_ok, left_accounts_ok]. Qed.

(** A deposit brought the validator back to enough stake. *)
Definition returned : StakedState := validator Byte.x01 6000000000000000000.

Lemma restart_diverges_witness :
  ∃ self1 resp self2 h self3, end_block_handler left_app 3 = Some (self1, resp)
    ∧ commit_handler self1 = Some (self2, h)
    ∧ new_with_storage tt (hex_encode app_hash) chain_id (storage self2) (accounts self2) None = Some self3
    ∧ deliver_power self2 (Some returned) = Some self2
    ∧ deliver_power self3 (Some returned)
      = Some (set_power_changed self3 {[ addr Byte.x01 := 60000000000 ]}).
Proof.
  pose proof left_run as E.
  destruct (end_block_handler left_app 3) as [[self1 resp]|] eqn:E1; [|discriminate E].
  destruct (commit_handler self1) as [[self2 h]|] eqn:E2; [|discriminate E].
  destruct (last_state self2) as [s2|] eqn:E3; [|discriminate E]. unfold left_check in E.
  apply andb_true_iff in E as [E Hpar%bool_decide_eq_true].
  apply andb_true_iff in E as [E Htop%bool_decide_eq_true].
  apply andb_true_iff in E as [E Hroot%bool_decide_eq_true].
  apply andb_true_iff in E as [E Hacc%bool_decide_eq_true].
  apply andb_true_iff in E as [E Hch%bool_decide_eq_true].
  apply andb_true_iff in E as [Hst%bool_decide_eq_true Hgen%bool_decide_eq_true].
  assert (Hcm : committed (storage self2) (accounts self2) (hex_encode app_hash) chain_id app_hash 171 s2
                  (accmap_of left_accounts)).
  { split; [vm_compute; reflexivity | reflexivity | reflexivity | exact Hst | exact Hgen | exact Hch |].
    rewrite Hacc, Hroot. exact left_holds. }
  assert (Hag : index_agrees s2 (accmap_of left_accounts)).
  { assert (Ep : ∀ a, expected_power s2 a = expected_power left_state a).
    { intros a. unfold expected_power, params_of. rewrite Hpar. reflexivity. }
    unfold index_agrees. rewrite Htop.
    repeat constructor; eexists; (split; [vm_compute; reflexivity|];
      split; [reflexivity|]; rewrite Ep; vm_compute; reflexivity). }
  destruct (restart_diverges left_app left_state 3 self1 resp self2 h s2 (hex_encode app_hash) chain_id
    app_hash 171 (accmap_of left_accounts) tt tt tt None (node Byte.x01) returned 50000000000 60000000000)
    as (Hrun & self3 & Hnew & _ & Hre).
  - reflexivity.
  - discriminate.
  - exact left_inv.
  - exact E1.
  - exact E2.
  - exact E3.
  - exact Hcm.
  - exact Hag.
  - reflexivity.
  - rewrite Htop. right. left.
  - reflexivity.
  - unfold params_of. rewrite Hpar. reflexivity.
  - reflexivity.
  - split; [reflexivity | discriminate].
  - exists self1, resp, self2, h, self3. split; [reflexivity|]. split; [exact E2|]. split; [exact Hnew|].
    split; [exact Hrun | exact Hre].
Defined.
End witnesses.
