(* ===== verification/Client.v ===== *)
(** * Client: keys, errors, transactions and multi-signature addresses of the client

    [client-common]: [error.rs] (an error is its kind; the messages and sources are
    for the reader of a log), [transaction.rs], the keys of [key/] over the interface
    of the [secp256k1] crate, and [multi_sig_address.rs], the tree of the combined
    keys of all groups of co-signers whose root is an address.  The theorems say
    which groups of keys have a proof for the address, and that the proof is what
    the validation of a witness asks for. *)

From stdpp Require Import base tactics option list sorting.
From Stdlib Require Import ZArith Lia.
From S2P Require Import Prelude Text Codec Coin Crypto Merkle Params Account TxTypes Validation.

(** ** Errors *)

Module Kind.
Inductive ErrorKind :=
  | InitializationError
  | ConnectionError
  | StorageError
  | RngError
  | EncryptionError
  | DecryptionError
  | SerializationError
  | DeserializationError
  | InvalidInput
  | IllegalInput
  | PermissionDenied
  | IoError
  | TendermintRpcError
  | MultiSigError
  | InternalError
  | ValidationError
  | VerifyError.
End Kind.
Abbreviation ErrorKind := Kind.ErrorKind (only parsing).

(** [chain]: the error of a call is replaced by one of the client. *)
Definition chain_err {E A} (e : ErrorKind) (r : result E A) : result ErrorKind A :=
  match r with Ok a => Ok a | Err _ => Err e end.
Definition chain_none {A} (e : ErrorKind) (o : option A) : result ErrorKind A :=
  match o with Some a => Ok a | None => Err e end.

Lemma chain_err_Ok {E A} e (r : result E A) a : chain_err e r = Ok a ↔ r = Ok a.
Proof. destruct r; simpl; split; intros [= ->]; done. Qed.
Lemma chain_none_Ok {A} e (o : option A) a : chain_none e o = Ok a ↔ o = Some a.
Proof. destruct o; simpl; split; intros [= ->]; done. Qed.

(** ** Keys *)

(** What the client uses of [secp256k1] beyond [Secp256k1]: secret keys, signing,
    combining keys, and the order of keys. *)
Class ClientKeys `{Secp256k1} := {
  PrivateKey : Type;
  #[global] PrivateKey_eq_dec :: EqDecision PrivateKey;
  sk_serialize : PrivateKey → list byte;
  sk_from_slice : list byte → result SecpError PrivateKey;
  pk_from_secret_key : PrivateKey → PublicKey;
  schnorr_sign_with : H256 → PrivateKey → SchnorrSignature;
  sign_recoverable : H256 → PrivateKey → RecoverableSignature;
  pubkey_combine : list PublicKey → result SecpError (PublicKey * H256);
  #[global] pk_ord :: OrdKey PublicKey;
}.

(** A signature verifies under the key of its signer, who is recovered from it. *)
Class ClientKeysLaws `{ClientKeys} : Prop := {
  schnorr_verify_sign msg sk :
    schnorr_verify msg (schnorr_sign_with msg sk) (pk_from_secret_key sk) = Ok ();
  recover_sign msg sk : recover msg (sign_recoverable msg sk) = Ok (pk_from_secret_key sk);
  ecdsa_verify_sign msg sk :
    ecdsa_verify msg (sign_recoverable msg sk) (pk_from_secret_key sk) = Ok ();
  sk_from_serialize sk : sk_from_slice (sk_serialize sk) = Ok sk;
  sk_serialize_length sk : length (sk_serialize sk) = 32%nat;
  pk_from_uncompressed pk : pk_from_slice (pk_serialize_uncompressed pk) = Ok pk;
  pk_uncompressed_length pk : length (pk_serialize_uncompressed pk) = 65%nat;
}.

(** [sort] of a vector of keys. *)
Definition key_le {K} `{OrdKey K} (a b : K) : Prop := key_leb a b = true.
#[global] Instance key_le_dec {K} `{OrdKey K} (a b : K) : Decision (key_le a b).
Proof. unfold key_le. apply _. Defined.
#[global] Instance key_le_total {K} `{OrdKey K} : Total (key_le (K := K)).
Proof. intros a b. apply key_leb_total. Qed.
#[global] Instance key_le_trans {K} `{OrdKey K} : Transitive (key_le (K := K)).
Proof. intros a b c. apply key_leb_trans. Qed.
#[global] Instance key_le_anti_symm {K} `{OrdKey K} : AntiSymm (=) (key_le (K := K)).
Proof. intros a b. apply key_leb_antisym. Qed.

Definition sort_keys {K} `{OrdKey K} (l : list K) : list K := merge_sort key_le l.

Section client.
Context `{Hashes, Scale, ClientKeys}.

(** [PrivateKey::sign] and [PrivateKey::schnorr_sign] of a digest. *)
Definition private_key_sign (sk : PrivateKey) (bytes : list byte) : result ErrorKind RecoverableSignature :=
  message ← chain_err Kind.DeserializationError (message_from_slice bytes);
  Ok (sign_recoverable message sk).

Definition private_key_schnorr_sign (sk : PrivateKey) (bytes : list byte) :
  result ErrorKind SchnorrSignature :=
  message ← chain_err Kind.DeserializationError (message_from_slice bytes);
  Ok (schnorr_sign_with message sk).

(** [PublicKey::combine]. *)
Definition public_key_combine (public_keys : list PublicKey) : result ErrorKind (PublicKey * H256) :=
  chain_err Kind.InvalidInput (pubkey_combine public_keys).

Definition combine_to_raw_pubkey (public_keys : list PublicKey) : result ErrorKind H264 :=
  match public_keys with
  | [pk] => Ok (pk_serialize pk)
  | _ => '(pk, _) ← public_key_combine public_keys; Ok (pk_serialize pk)
  end.

(** [PublicKey] as bytes of its uncompressed form. *)
Definition public_key_codec : codec PublicKey :=
  Codec (λ pk, enc bytes_codec (pk_serialize_uncompressed pk))
    (bs ⇐ dec bytes_codec;
     match pk_from_slice bs with
     | Ok pk => dret pk
     | Err _ => dfail
     end).

(** [PrivateKey] as the bytes of its secret. *)
Definition private_key_codec : codec PrivateKey :=
  Codec (λ sk, enc bytes_codec (sk_serialize sk))
    (bs ⇐ dec bytes_codec;
     match sk_from_slice bs with
     | Ok sk => dret sk
     | Err _ => dfail
     end).

(** ** Transactions *)

Inductive Transaction :=
  | TransferTransaction (tx : Tx)
  | DepositStakeTransaction (tx : DepositBondTx)
  | UnbondStakeTransaction (tx : UnbondTx)
  | WithdrawUnbondedStakeTransaction (tx : WithdrawUnbondedTx).

Definition transaction_inputs (t : Transaction) : list TxoPointer :=
  match t with
  | TransferTransaction tx => inputs tx
  | DepositStakeTransaction tx => deposit_inputs tx
  | _ => []
  end.

Definition transaction_outputs (t : Transaction) : list TxOut :=
  match t with
  | TransferTransaction tx => outputs tx
  | WithdrawUnbondedStakeTransaction tx => withdraw_outputs tx
  | _ => []
  end.

Definition client_transaction_id (t : Transaction) : TxId :=
  match t with
  | TransferTransaction tx => transaction_id tx_codec tx
  | DepositStakeTransaction tx => transaction_id deposit_codec tx
  | UnbondStakeTransaction tx => transaction_id unbond_codec tx
  | WithdrawUnbondedStakeTransaction tx => transaction_id withdraw_codec tx
  end.

Inductive SignedTransaction :=
  | SignedTransfer (tx : Tx) (witness : TxWitness)
  | SignedDeposit (tx : DepositBondTx) (witness : TxWitness)
  | SignedWithdraw (tx : WithdrawUnbondedTx) (account : StakedState) (witness : StakedStateOpWitness).

Definition signed_transaction_id (t : SignedTransaction) : TxId :=
  match t with
  | SignedTransfer tx _ => transaction_id tx_codec tx
  | SignedDeposit tx _ => transaction_id deposit_codec tx
  | SignedWithdraw tx _ _ => transaction_id withdraw_codec tx
  end.

(** ** Multi-signature addresses *)

Record MultiSigAddress := {
  ms_m : Z;
  ms_n : Z;
  self_public_key : PublicKey;
  merkle_tree : MerkleTree;
}.

(** [Itertools::combinations]: the sublists of a length, in the order of their
    positions. *)
Fixpoint combinations {A} (l : list A) (k : nat) : list (list A) :=
  match k, l with
  | O, _ => [[]]
  | S _, [] => []
  | S k', x :: l => (cons x <$> combinations l k') ++ combinations l k
  end.

Definition public_key_combinations (public_keys : list PublicKey) (required_signers : nat) :
  result ErrorKind (list H264) :=
  match public_keys with
  | [] => Err Kind.InvalidInput
  | _ :: _ =>
      if (length public_keys <? required_signers)%nat then Err Kind.InvalidInput
      else if (required_signers =? 0)%nat then Err Kind.InvalidInput
      else
        combined ← mapM (λ combination, combine_to_raw_pubkey (sort_keys combination))
                     (combinations public_keys required_signers);
        Ok (sort_keys combined)
  end.

Definition multi_sig_new (public_keys : list PublicKey) (self_public_key : PublicKey)
    (required_signers : nat) : run ErrorKind MultiSigAddress :=
  let total_signers := length public_keys in
  if (total_signers <? required_signers)%nat || (total_signers =? 0)%nat || (required_signers =? 0)%nat
     || negb (bool_decide (self_public_key ∈ public_keys))
  then Some (Err Kind.InvalidInput)
  else
    combined ?← Some (public_key_combinations public_keys required_signers);
    t ← merkle_new combined;
    Some (Ok {| ms_m := Z.of_nat required_signers; ms_n := Z.of_nat total_signers;
                self_public_key := self_public_key; merkle_tree := t |}).

Definition ms_root_hash (self : MultiSigAddress) : H256 := root_hash (merkle_tree self).
Definition to_extended_addr (self : MultiSigAddress) : ExtendedAddr := OrTree (ms_root_hash self).
Definition ms_required_signers (self : MultiSigAddress) : nat := Z.to_nat (ms_m self).

Definition ms_generate_proof (self : MultiSigAddress) (public_keys : list PublicKey) :
  run ErrorKind (option Proof_) :=
  if negb (length public_keys =? ms_required_signers self)%nat then Some (Err Kind.InvalidInput)
  else
    raw_pubkey ?← Some (combine_to_raw_pubkey (sort_keys public_keys));
    proof ← generate_proof (merkle_tree self) raw_pubkey;
    Some (Ok proof).

(** ** Groups of co-signers *)

(** The key under which a group signs. *)
Definition group_key (group : list PublicKey) : result ErrorKind PublicKey :=
  match group with
  | [pk] => Ok pk
  | _ => fst <$> public_key_combine group
  end.

Lemma combine_group_key group : combine_to_raw_pubkey group = pk_serialize <$> group_key group.
Proof.
  unfold combine_to_raw_pubkey, group_key. destruct group as [|pk [|pk' group]]; [|done|];
    by destruct (public_key_combine _) as [[? ?]|].
Qed.

Lemma public_key_codec_ok `{!ScaleLaws, !ClientKeysLaws} : codec_ok (λ _, True) public_key_codec.
Proof.
  intros pk rest _. cbn [enc dec public_key_codec]. rewrite (dbind_ok (vec_ok any_byte)); eauto using bytes_codec_ok.
  - by rewrite pk_from_uncompressed.
  - split; [rewrite pk_uncompressed_length; ints | by apply Forall_true].
Qed.

Lemma private_key_codec_ok `{!ScaleLaws, !ClientKeysLaws} : codec_ok (λ _, True) private_key_codec.
Proof.
  intros sk rest _. cbn [enc dec private_key_codec]. rewrite (dbind_ok (vec_ok any_byte)); eauto using bytes_codec_ok.
  - by rewrite sk_from_serialize.
  - split; [rewrite sk_serialize_length; ints | by apply Forall_true].
Qed.
End client.
#[export] Hint Resolve public_key_codec_ok private_key_codec_ok : codec.

Lemma sort_keys_perm {K} `{OrdKey K} (l : list K) : sort_keys l ≡ₚ l.
Proof. apply merge_sort_Permutation. Qed.

Lemma sort_keys_eq {K} `{OrdKey K} (l l' : list K) : l ≡ₚ l' → sort_keys l = sort_keys l'.
Proof.
  intros Hp. apply (StronglySorted_unique key_le).
  - apply (StronglySorted_merge_sort _).
  - apply (StronglySorted_merge_sort _).
  - by rewrite !sort_keys_perm.
Qed.

Lemma elem_of_combinations {A} (l : list A) k c :
  c ∈ combinations l k ↔ c `sublist_of` l ∧ length c = k.
Proof.
  revert k c. induction l as [|x l IH]; intros [|k] c; simpl.
  - rewrite list_elem_of_singleton. split; [by intros -> | by intros [->%sublist_nil_r _]].
  - split; [by intros ?%not_elem_of_nil | by intros [->%sublist_nil_r ?]].
  - rewrite list_elem_of_singleton. split; [intros ->; split; [apply sublist_nil_l | done]|].
    intros [_ ?]. by apply nil_length_inv.
  - rewrite elem_of_app, list_elem_of_fmap. setoid_rewrite IH. split.
    + intros [(d & -> & Hs & <-)|[Hs <-]]; (split; [|done]); by constructor.
    + intros [Hs Hl]. apply sublist_cons_r in Hs as [Hs|(d & -> & Hs)]; [by right|].
      left. exists d. simpl in Hl. split; [done|]. split; [done | lia].
Qed.

Lemma mapM_Ok {E A B} (f : A → result E B) l ys :
  mapM f l = Ok ys ↔ Forall2 (λ x y, f x = Ok y) l ys.
Proof.
  split.
  - revert ys. induction l as [|x l IH]; intros ys Hm; simpl in Hm; [by injection Hm as <-|].
    destruct (f x) as [y|] eqn:Ef; [|done]. simpl in Hm. destruct (mapM f l) as [ys'|]; [|done].
    injection Hm as <-. constructor; [done | by apply IH].
  - induction 1 as [|x y l ys Hx Hf IH]; simpl; [done|]. rewrite Hx. simpl. by rewrite IH.
Qed.

Lemma Forall2_elem_l {A B} (P : A → B → Prop) l ys x :
  Forall2 P l ys → x ∈ l → ∃ y, y ∈ ys ∧ P x y.
Proof.
  intros Hf. induction Hf as [|a b l ys Hab Hf IH]; [by intros ?%not_elem_of_nil|].
  intros [->|Hx]%elem_of_cons; [exists b; split; [left | done]|].
  destruct (IH Hx) as (y & Hy & ?). exists y. split; [by right | done].
Qed.

Section multi_sig.
Context `{Hashes, Scale, ClientKeys}.

(** The leaves of the tree of an address are the keys of the groups. *)
Lemma multi_sig_leaves keys self k a :
  multi_sig_new keys self k = Some (Ok a) →
  ∃ combined, merkle_new combined = Some (merkle_tree a) ∧ ms_required_signers a = k ∧ combined ≠ []
    ∧ (∀ group, group ⊆+ keys → length group = k →
         ∃ pk, group_key (sort_keys group) = Ok pk ∧ pk_serialize pk ∈ combined)
    ∧ (∀ raw, raw ∈ combined →
         ∃ group pk, group ⊆+ keys ∧ length group = k ∧ group_key (sort_keys group) = Ok pk
           ∧ raw = pk_serialize pk).
Proof.
  unfold multi_sig_new. destruct (_ || _) eqn:Eb; [done|]. intros Hn.
  apply orb_false_iff in Eb as [Eb _]. apply orb_false_iff in Eb as [Eb Ek].
  apply orb_false_iff in Eb as [Eb E0]. apply Nat.ltb_ge in Eb. apply Nat.eqb_neq in E0, Ek.
  destruct (public_key_combinations keys k) as [combined|] eqn:Ec; [|done]. cbn [run_bind] in Hn.
  destruct (merkle_new combined) as [t|] eqn:Et; [|done]. cbn [mbind option_bind] in Hn. injection Hn as <-.
  unfold public_key_combinations in Ec. destruct keys as [|key keys]; [done|].
  rewrite (proj2 (Nat.ltb_ge _ _)), (proj2 (Nat.eqb_neq _ _)) in Ec by done.
  destruct (mapM _ _) as [raws|] eqn:Em; [|done]. simpl in Ec. injection Ec as <-.
  apply mapM_Ok in Em. exists (sort_keys raws). simpl. unfold ms_required_signers. simpl.
  assert (Hin : ∀ group, group ⊆+ key :: keys → length group = k →
    ∃ pk, group_key (sort_keys group) = Ok pk ∧ pk_serialize pk ∈ sort_keys raws).
  { intros group Hg Hl. apply submseteq_sublist_r in Hg as (sub & Hp & Hs).
    destruct (Forall2_elem_l _ _ _ sub Em) as (raw & Hr & Hraw).
    { apply elem_of_combinations. split; [done | by rewrite <- (Permutation_length Hp)]. }
    rewrite <- (sort_keys_eq _ _ Hp), combine_group_key in Hraw.
    destruct (group_key _) as [pk|]; [|done]. injection Hraw as <-.
    exists pk. by rewrite sort_keys_perm. }
  split; [done|]. split; [by rewrite Nat2Z.id|]. split; [|split; [done|]].
  - destruct (Hin (take k (key :: keys))) as (pk & _ & Hpk); [by apply sublist_submseteq, sublist_take| |].
    + rewrite length_take. lia.
    + intros E. rewrite E in Hpk. by apply not_elem_of_nil in Hpk.
  - intros raw. rewrite sort_keys_perm. intros Hr. apply Forall2_flip in Em.
    destruct (Forall2_elem_l _ _ _ raw Em Hr) as (group & Hg & Hraw).
    apply elem_of_combinations in Hg as [Hs Hl]. simpl in Hraw. rewrite combine_group_key in Hraw.
    destruct (group_key (sort_keys group)) as [pk|] eqn:Eg; [|done]. injection Hraw as <-.
    exists group, pk. by split_and!; [apply sublist_submseteq|..].
Qed.

Lemma multi_sig_new_total keys self k : is_Some (multi_sig_new keys self k).
Proof.
  unfold multi_sig_new. destruct (_ || _); [by eexists|].
  destruct (public_key_combinations keys k) as [combined|] eqn:Ec; cbn [run_bind]; [|by eexists].
  destruct combined as [|v vs]; [by eexists|].
  destruct (merkle_new_Some (v :: vs)) as (t & -> & _); [done|]. by eexists.
Qed.

(** A path is only found for a value whose leaf hash is one of the tree's. *)
Lemma generate_path_leaf t v p :
  tree_ok t → generate_path t v = Some p →
  ∃ u, u ∈ leaves t ∧ node_type_hash v LeafType = node_type_hash u LeafType.
Proof.
  intros Ht. revert p. induction Ht as [u|l r Hl IHl Hr IHr]; intros p Hp; simpl in Hp.
  - case_decide; [|done]. exists u. split; [simpl; left | done].
  - setoid_rewrite elem_of_app. destruct (generate_path l v) as [pl|].
    + destruct (IHl pl eq_refl) as (u & ? & ?). exists u. by split; [left|].
    + destruct (generate_path r v) as [pr|]; [|done].
      destruct (IHr pr eq_refl) as (u & ? & ?). exists u. by split; [right|].
Qed.

Context `{!Secp256k1Laws}.

(** A proof of a raw key makes the witness check a signature of that key. *)
Lemma verify_with_proof (txid : TxId) sig proof root pk :
  length txid = 32%nat → proof_verify proof root = Some true → value proof = pk_serialize pk →
  verify_tx_address (TreeSig sig proof) txid (OrTree root) = Some (schnorr_verify txid sig pk).
Proof.
  intros Hl Hp Hv. unfold verify_tx_address, message_from_slice. rewrite Hl, Nat.eqb_refl.
  cbn [run_bind]. rewrite Hp. cbn [mbind option_bind negb]. rewrite Hv, pk_from_serialize. done.
Qed.

(** A group of the required size has a proof for its combined key. *)
Lemma multi_sig_group_proof keys self k a group :
  multi_sig_new keys self k = Some (Ok a) → group ⊆+ keys → length group = k →
  ∃ pk proof, group_key (sort_keys group) = Ok pk
    ∧ ms_generate_proof a group = Some (Ok (Some proof))
    ∧ ∀ txid sig, length txid = 32%nat →
        verify_tx_address (TreeSig sig proof) txid (to_extended_addr a)
        = Some (schnorr_verify txid sig pk).
Proof.
  intros Ha Hg Hl. destruct (multi_sig_leaves _ _ _ _ Ha) as (combined & Ht & Hk & Hne & Hin & Hout).
  destruct (Hin group Hg Hl) as (pk & Epk & Hpk).
  destruct (proof_for _ _ Hpk) as (mt & proof & Hmt & Hgen & Hval & Hver).
  rewrite Ht in Hmt. injection Hmt as <-. exists pk, proof. split; [done|].
  unfold ms_generate_proof. rewrite Hl, Hk, Nat.eqb_refl, combine_group_key, Epk.
  cbn [negb result_fmap fmap run_bind]. rewrite Hgen. split; [done|].
  intros txid sig Htx. by apply verify_with_proof.
Qed.

(** Multi-signature addresses.  Creating an address never panics.  Every group of
    co-signers of the required size has a proof, in whatever order its keys are given,
    and with it the validation of a witness asks exactly for a signature under the
    group's combined key.  A proof for any other keys needs a collision of the hash. *)
Theorem multi_sig_groups keys self k :
  is_Some (multi_sig_new keys self k)
  ∧ ∀ a, multi_sig_new keys self k = Some (Ok a) →
    (∀ group, group ⊆+ keys → length group = k →
       ∃ pk proof, group_key (sort_keys group) = Ok pk
         ∧ ms_generate_proof a group = Some (Ok (Some proof))
         ∧ ∀ txid sig, length txid = 32%nat →
             verify_tx_address (TreeSig sig proof) txid (to_extended_addr a)
             = Some (schnorr_verify txid sig pk))
    ∧ (∀ others pk proof, ms_generate_proof a others = Some (Ok (Some proof)) →
         group_key (sort_keys others) = Ok pk →
         ∃ group pk', group ⊆+ keys ∧ length group = k ∧ group_key (sort_keys group) = Ok pk'
           ∧ (pk = pk' ∨ collision [leaf_input (pk_serialize pk)] [leaf_input (pk_serialize pk')])).
Proof.
  split.
  - apply multi_sig_new_total.
  - intros a Ha. split; [intros group Hg Hl; by eapply multi_sig_group_proof|].
    destruct (multi_sig_leaves _ _ _ _ Ha) as (combined & Ht & Hk & Hne & Hin & Hout).
    intros others pk proof Hp Epk. unfold ms_generate_proof in Hp.
      destruct (negb _); [done|]. rewrite combine_group_key, Epk in Hp. cbn [result_fmap fmap run_bind] in Hp.
      unfold generate_proof in Hp. destruct (generate_path _ _) as [path|] eqn:Ep; [|done].
      destruct (merkle_new_Some combined Hne) as (mt & Hn & _ & _ & _ & Hok & Hls).
      rewrite Ht in Hn. injection Hn as <-. destruct (generate_path_leaf _ _ _ Hok Ep) as (u & Hu & Eu).
      rewrite Hls in Hu. destruct (Hout u Hu) as (group & pk' & Hg & Hl & Eg & ->).
      exists group, pk'. split_and!; try done.
      destruct (hash256_inv [leaf_input (pk_serialize pk)] [leaf_input (pk_serialize pk')] _ _
        ltac:(by left) ltac:(by left) Eu) as [E|]; [left | by right].
      injection E as E. apply (f_equal pk_from_slice) in E. rewrite !pk_from_serialize in E. by injection E.
Qed.
End multi_sig.

(** ** Example *)

Module ClientExample.
#[export] Existing Instance Ref.hashes.
#[export] Existing Instance Ref.secp.
#[export] Existing Instance Ref.secp_laws.
#[export] Existing Instance scale_ref.
#[export] Existing Instance scale_ref_laws.

(** A secret key is its public key; a group has the key of its first member. *)
#[export] Instance byte_ord : OrdKey byte.
Proof.
  refine {| key_leb a b := byte_to_Z a <=? byte_to_Z b |}; intros a b; [lia | intros; lia |].
  intros ? ?. rewrite <- (byte_of_to_Z a), <- (byte_of_to_Z b). f_equal. lia.
Defined.
#[export] Instance keys_ref : ClientKeys := {|
  PrivateKey := byte; sk_serialize := Ref.padded 31; sk_from_slice := Ref.unpad 31;
  pk_from_secret_key := λ b, b; schnorr_sign_with := λ _ b, b;
  sign_recoverable := λ _ b, b;
  pubkey_combine := λ l, match l with b :: _ => Ok (b, replicate 32 Byte.x00) | [] => Err InvalidPublicKey end;
  pk_ord := byte_ord |}.
#[export] Instance keys_ref_laws : ClientKeysLaws.
Proof. split; intros; simpl; try done; try by rewrite decide_True. all: apply Ref.unpad_padded. Qed.

Definition signers : list PublicKey := [Byte.x09; Byte.x04; Byte.x06].
End ClientExample.

Section example.
Import ClientExample.

Lemma multi_sig_groups_witness :
  ∃ a pk proof, multi_sig_new signers Byte.x04 2 = Some (Ok a)
    ∧ group_key (sort_keys [Byte.x06; Byte.x09]) = Ok pk
    ∧ ms_generate_proof a [Byte.x06; Byte.x09] = Some (Ok (Some proof))
    ∧ verify_tx_address (TreeSig pk proof) (replicate 32 Byte.x00) (to_extended_addr a) = Some (Ok ()).
Proof.
  destruct (multi_sig_groups signers Byte.x04 2) as [[[a|e] Ha] Hs]; [|discriminate Ha].
  destruct (proj1 (Hs a Ha) [Byte.x06; Byte.x09]) as (pk & proof & Hg & Hp & Hv).
  - apply submseteq_sublist_r. exists [Byte.x09; Byte.x06]. split; [by constructor|].
    repeat constructor.
  - reflexivity.
  - exists a, pk, proof. split; [exact Ha|]. split; [exact Hg|]. split; [exact Hp|].
    rewrite (Hv (replicate 32 Byte.x00) pk eq_refl). simpl. by rewrite decide_True.
Defined.
End example.
