(* ===== verification/WalletFee.v ===== *)
(** * WalletFee: the fee of a transfer between the wallet and the chain

    The wallet estimates the fee from a mock of the transaction, with the witnesses of
    [dummy_signer.rs] and a payload padded to whole blocks; the chain computes it from
    the encrypted transaction, whose payload is 16 bytes longer than the plain one
    ([obfuscate.rs]).  For addresses of a single key the estimate is enough, so that
    what the wallet builds and the enclave encrypts passes the fee check of the chain;
    for addresses of more keys it can fall short. *)

From stdpp Require Import base tactics option list.
From Stdlib Require Import ZArith Lia.
From S2P Require Import Prelude Text Codec Milli Coin Crypto Merkle Params Account TxTypes Validation BitVec Filter EnclaveProtocol EnclaveCodec Enclave ServerContract Client WalletBuilder.

Section sizes.
Context `{Hashes, Secp256k1, ScaleLaws, !ScaleSizes, !Secp256k1Laws}.

Lemma path_node_size n : path_node_ok n → length (enc path_node_codec n) = 65%nat.
Proof.
  intros [Hh Hc]. cbn [enc path_node_codec]. rewrite !length_app, !array_size by done.
  by destruct (hash_side n).
Qed.

Lemma in_witness_size sig proof :
  proof_ok proof →
  length (enc tx_in_witness_codec (TreeSig sig proof))
  = (130 + compact_size (Z.of_nat (length (nodes (path proof)))) + 65 * length (nodes (path proof)))%nat.
Proof.
  intros (Hl & [_ Hn] & Hv). cbn [enc tx_in_witness_codec proof_codec path_codec].
  cbn [length]. rewrite !length_app, !array_size, vec_size by (done || apply schnorr_serialize_length).
  rewrite (sum_sizes_const _ 65); [lia|]. eapply Forall_impl; [exact Hn|]. apply path_node_size.
Qed.

Lemma plain_transfer_size tx (w : TxWitness) k :
  Forall (λ x, length (enc tx_in_witness_codec x) = k) w →
  length (enc plain_tx_aux_codec (PlainTransferTx tx w))
  = (1 + length (enc tx_codec tx) + compact_size (Z.of_nat (length w)) + k * length w)%nat.
Proof.
  intros Hw. cbn [enc plain_tx_aux_codec tx_witness_codec]. cbn [length].
  rewrite length_app, vec_size, (sum_sizes_const _ k) by done. lia.
Qed.

(** What the encryption leaves of a payload but for the ciphertext. *)
Definition envelope_ok (p : TxObfuscated) : Prop :=
  is_i64 (key_from p) ∧ array_ok 12 (init_vector p) ∧ array_ok 32 (txid p).

Lemma outputs_u16 n : is_u16 (as_u16 n).
Proof. unfold as_u16, is_u16. pose proof (Z.mod_pos_bound n (U16_MAX + 1) ltac:(done)). lia. Qed.

Lemma transfer_aux_size ins n p :
  is_u16 n → envelope_ok p →
  length (enc tx_aux_codec (EnclaveTx (TransferTx ins n p)))
  = (56 + length (enc (vec_codec txo_pointer_codec) ins)
     + (compact_size (Z.of_nat (length (txpayload p))) + length (txpayload p)))%nat.
Proof.
  intros Hn (Hk & Hv & Hi). cbn [enc tx_aux_codec tx_enclave_aux_codec obfuscated_codec]. cbn [length].
  rewrite !length_app, u16_size, i64_size, !array_size, bytes_size by done. lia.
Qed.

(** The witness of the dummy signer has a path of one node. *)
Lemma dummy_witness_size w : dummy_sign_tx 2 = Some w → length (enc tx_in_witness_codec w) = 196%nat.
Proof.
  unfold dummy_sign_tx, mock_merkletree. set (raw := replicate 33 Byte.x00).
  assert (Ht : merkle_new (replicate 2 raw)
    = Some {| tree := tree_node (tree_leaf raw) (tree_leaf raw); len := 2; height := 1 |}) by reflexivity.
  rewrite Ht. cbn [mbind option_bind]. unfold generate_proof, root_hash. cbn [tree generate_path tree_node tree_leaf].
  rewrite decide_True by done. cbn [path_hash push_node nodes app rev reverse].
  case_decide; [|done]. cbn [mbind option_bind].
  destruct (unwrap _) as [sig|]; [|done]. cbn [mbind option_bind]. intros [= <-].
  rewrite in_witness_size; [reflexivity|]. split_and!; [apply blake2s_length| |reflexivity].
  split; [simpl; ints|]. constructor; [|constructor]. split; apply blake2s_length.
Qed.

(** A witness with a path without nodes is 65 bytes shorter, so that the mock is not
    smaller than the transaction it stands for. *)
Lemma mock_covers tx (w : TxWitness) dummy p :
  dummy_sign_tx 2 = Some dummy → w ≠ [] →
  Forall (λ x, length (enc tx_in_witness_codec x) = 131%nat) w →
  envelope_ok p → length (txpayload p) = (length (enc plain_tx_aux_codec (PlainTransferTx tx w)) + 16)%nat →
  (length (enc tx_aux_codec (EnclaveTx (TransferTx (inputs tx) (as_u16 (Z.of_nat (length (outputs tx)))) p)))
   ≤ length (enc tx_aux_codec (mock_txaux_for_tx tx (replicate (length w) dummy))))%nat.
Proof.
  intros Hd Hne Hw Hp Hl. apply dummy_witness_size in Hd. unfold mock_txaux_for_tx.
  assert (Hu : is_u16 (as_u16 (Z.of_nat (length (outputs tx))))) by apply outputs_u16.
  rewrite (transfer_aux_size _ _ p) by done.
  rewrite transfer_aux_size; [|done|split_and!; [simpl; ints | reflexivity..]].
  cbn [txpayload]. rewrite Hl. unfold pad_payload. rewrite length_replicate.
  rewrite (plain_transfer_size tx w 131) by done.
  rewrite (plain_transfer_size tx (replicate (length w) dummy) 196) by by apply Forall_replicate.
  rewrite length_replicate.
  set (a := (1 + length (enc tx_codec tx) + compact_size (Z.of_nat (length w)))%nat).
  assert (0 < length w)%nat by (destruct w; [done | simpl; lia]).
  pose proof (Nat.mod_upper_bound (a + 196 * length w) 16 ltac:(lia)).
  set (m := ((a + 196 * length w) mod 16)%nat) in *.
  assert (Hle : (a + 131 * length w + 16 ≤ a + 196 * length w + 16 - m)%nat) by lia.
  pose proof (compact_size_mono (Z.of_nat (a + 131 * length w + 16)) (Z.of_nat (a + 196 * length w + 16 - m)) ltac:(lia)).
  lia.
Qed.

Lemma mock_short tx (w : TxWitness) dummy p :
  dummy_sign_tx 2 = Some dummy →
  Forall (λ x, 196 ≤ length (enc tx_in_witness_codec x))%nat w →
  (length (enc plain_tx_aux_codec (PlainTransferTx tx (replicate (length w) dummy))) mod 16 ≠ 0)%nat →
  envelope_ok p → length (txpayload p) = (length (enc plain_tx_aux_codec (PlainTransferTx tx w)) + 16)%nat →
  (length (enc tx_aux_codec (mock_txaux_for_tx tx (replicate (length w) dummy)))
   < length (enc tx_aux_codec (EnclaveTx (TransferTx (inputs tx) (as_u16 (Z.of_nat (length (outputs tx)))) p))))%nat.
Proof.
  intros Hd Hw Hm Hp Hl. apply dummy_witness_size in Hd. unfold mock_txaux_for_tx.
  assert (Hu : is_u16 (as_u16 (Z.of_nat (length (outputs tx))))) by apply outputs_u16.
  rewrite (transfer_aux_size _ _ p) by done.
  rewrite transfer_aux_size; [|done|split_and!; [simpl; ints | reflexivity..]].
  cbn [txpayload]. unfold pad_payload. rewrite length_replicate.
  set (d := length (enc plain_tx_aux_codec (PlainTransferTx tx (replicate (length w) dummy)))) in *.
  assert (Hdw : (d ≤ length (enc plain_tx_aux_codec (PlainTransferTx tx w)))%nat).
  { unfold d. rewrite (plain_transfer_size tx (replicate (length w) dummy) 196) by by apply Forall_replicate.
    rewrite length_replicate. cbn [enc plain_tx_aux_codec tx_witness_codec]. cbn [length].
    rewrite length_app, vec_size. pose proof (sum_sizes_ge _ 196 w Hw). lia. }
  pose proof (compact_size_mono (Z.of_nat (d + 16 - d mod 16)) (Z.of_nat (length (txpayload p))) ltac:(lia)).
  lia.
Qed.
End sizes.

(** ** The fee check of the chain *)

Section fee.
Context `{Hashes, ClientKeys, ScaleLaws, !ScaleSizes, !Secp256k1Laws, !ClientKeysLaws,
          BitVecLib, SgxLaws, AeadLaws, EnclaveBuild}.

(** The wallet's service lets the enclave encrypt a transfer. *)
Definition encrypts_by_enclave (encrypt_tx : Obfuscation) : Prop :=
  ∀ tx w txaux, encrypt_tx (SignedTransfer tx w) = Some (Ok txaux) →
    ∃ e p e', encrypt e {| to_payload := enc plain_tx_aux_codec (PlainTransferTx tx w);
                           to_txid := transaction_id tx_codec tx |} = Some (p, e')
      ∧ txaux = EnclaveTx (TransferTx (inputs tx) (as_u16 (Z.of_nat (length (outputs tx)))) p).

(** Where the linear fee does not overflow. *)
Definition fee_fits (alg : LinearFee) (sz : Z) : Prop :=
  is_u64 (constant alg) ∧ is_u64 (coefficient alg) ∧ sz * 1000 ≤ U64_MAX
  ∧ constant alg + coefficient alg * sz ≤ U64_MAX.

Lemma estimate_mono alg sz sz' f :
  fee_fits alg sz' → 0 ≤ sz ≤ sz' → Coin.estimate alg sz' = Ok f → ∃ f', Coin.estimate alg sz = Ok f' ∧ 0 ≤ f' ≤ f.
Proof.
  intros (Hconst & Hcoef & Hm & Hb) Hs Hf.
  assert (Hle : coefficient alg * sz ≤ coefficient alg * sz') by (unfold is_u64 in *; nia).
  assert (0 ≤ coefficient alg * sz) by (unfold is_u64 in *; nia).
  rewrite fee_millis_exact in Hf |- * by (done || lia). apply coin_new_ok in Hf as [-> Hf].
  pose proof (to_integral_ceil (constant alg + coefficient alg * sz) ltac:(ints)).
  pose proof (to_integral_ceil (constant alg + coefficient alg * sz') ltac:(ints)).
  eexists. split; [apply coin_new_ok; split; [done|]|]; ints.
Qed.

Lemma encrypt_envelope e payload i p e' :
  length i = 32%nat → encrypt e {| to_payload := payload; to_txid := i |} = Some (p, e') →
  envelope_ok p ∧ txid p = i ∧ length (txpayload p) = (length payload + 16)%nat.
Proof.
  intros Hi. unfold encrypt. destruct (fill_bytes (rng e) 12) as [iv r] eqn:Ef. cbn [to_txid to_payload].
  destruct (aead_encrypt _ _ _ _) as [c|] eqn:Ec; [|done]. cbn [mbind option_bind]. intros [= <- <-].
  split; [|split; [done | by apply aead_length in Ec]]. split_and!; [simpl; ints| |done].
  pose proof (fill_bytes_length (rng e) 12) as Hl. by rewrite Ef in Hl.
Qed.

Lemma enclave_envelope e tx w p e' :
  encrypt e {| to_payload := enc plain_tx_aux_codec (PlainTransferTx tx w);
               to_txid := transaction_id tx_codec tx |} = Some (p, e') →
  envelope_ok p ∧ length (txpayload p) = (length (enc plain_tx_aux_codec (PlainTransferTx tx w)) + 16)%nat.
Proof. intros (? & _ & ?)%encrypt_envelope; [done | apply transaction_id_length]. Qed.

(** With at least one unit per byte the fee grows with every byte. *)
Lemma estimate_strict alg sz sz' f f' :
  fee_fits alg sz' → 1000 ≤ coefficient alg → 0 ≤ sz < sz' →
  Coin.estimate alg sz = Ok f → Coin.estimate alg sz' = Ok f' → f < f'.
Proof.
  intros (Hconst & Hcoef & Hm & Hb) Hc Hs Hf Hf'.
  assert (Hle : coefficient alg * sz + 1000 ≤ coefficient alg * sz') by (unfold is_u64 in *; nia).
  assert (0 ≤ coefficient alg * sz) by (unfold is_u64 in *; nia).
  rewrite fee_millis_exact in Hf, Hf' by (done || lia).
  apply coin_new_ok in Hf as [-> _]. apply coin_new_ok in Hf' as [-> _].
  pose proof (to_integral_ceil (constant alg + coefficient alg * sz) ltac:(ints)).
  pose proof (to_integral_ceil (constant alg + coefficient alg * sz') ltac:(ints)). lia.
Qed.

(** The estimate can fall short.  It is made for addresses of two keys and a payload
    padded to whole blocks; the encryption does not pad but adds 16 bytes.  For a
    transfer whose witnesses prove a key of an address of two or more, and whose plain
    form is not a whole number of blocks, a fee of at least one unit per byte is
    higher for the encrypted transaction than the estimate. *)
Theorem estimate_falls_short alg tx (w : TxWitness) dummy e p e' est fee :
  dummy_sign_tx 2 = Some dummy →
  Forall (λ x, 196 ≤ length (enc tx_in_witness_codec x))%nat w →
  (length (enc plain_tx_aux_codec (PlainTransferTx tx (replicate (length w) dummy))) mod 16 ≠ 0)%nat →
  encrypt e {| to_payload := enc plain_tx_aux_codec (PlainTransferTx tx w);
               to_txid := transaction_id tx_codec tx |} = Some (p, e') →
  let txaux := EnclaveTx (TransferTx (inputs tx) (as_u16 (Z.of_nat (length (outputs tx)))) p) in
  fee_fits alg (Z.of_nat (length (enc tx_aux_codec txaux))) → 1000 ≤ coefficient alg →
  calculate_for_txaux alg (mock_txaux_for_tx tx (replicate (length w) dummy)) = Ok est →
  calculate_for_txaux alg txaux = Ok fee → est < fee.
Proof.
  intros Hd Hw Hm Henc txaux Hfit Hc Hest Hfee. destruct (enclave_envelope _ _ _ _ _ Henc) as [Hp Hl].
  eapply estimate_strict; [exact Hfit | exact Hc | | exact Hest | exact Hfee]. split; [lia|].
  apply inj_lt. unfold txaux. by apply mock_short.
Qed.

Context (alg : LinearFee) (l : UnspentTransactions) (outs : list TxOut) (ret : ExtendedAddr)
        (attrs : TxAttributes).
Hypothesis dummy_signature : is_Some (unwrap (schnorr_from_default (replicate 64 Byte.x00))).
Hypothesis l_ok : values_ok l.
Hypothesis l_nodup : NoDup l.*1.
Hypothesis outs_coins : Forall (λ o, coin_ok (out_value o)) outs.
Hypothesis outs_positive : Forall (λ o, 0 < out_value o) outs.
Hypothesis outs_some : outs ≠ [].

(** The size of the mock from which the fee of a builder is estimated. *)
Definition mock_size (b : RawBuilder (F := LinearFee)) : Z :=
  match schnorr_sign_inputs_len 2 (inputs_len b) with
  | Some w => Z.of_nat (length (enc tx_aux_codec (mock_txaux_for_tx (to_tx b) w)))
  | None => 0
  end.

Lemma built_fee_covers b sel change fees sk s e p e' :
  built alg l outs ret attrs b sel change fees → fee_fits alg (mock_size b) →
  key_pair_signer_new sk (pk_from_secret_key sk) = Some (Ok s) →
  let w := replicate (length sel) (key_pair_witness s (builder_tx_id b)) in
  encrypt e {| to_payload := enc plain_tx_aux_codec (PlainTransferTx (to_tx b) w);
               to_txid := transaction_id tx_codec (to_tx b) |} = Some (p, e') →
  ∃ fee, calculate_for_txaux alg (EnclaveTx (TransferTx (inputs (to_tx b))
           (as_u16 (Z.of_nat (length (outputs (to_tx b))))) p)) = Ok fee
    ∧ coin_ok fee ∧ fee ≤ fees.
Proof.
  intros (Eb & (Hne & _) & Hf & est & He & Hle) Hfit Hs w Henc.
  destruct (key_pair_signer_spec sk) as (s' & Hs' & _ & Hnodes & Hproof & _).
  rewrite Hs in Hs'. injection Hs' as <-. destruct (enclave_envelope _ _ _ _ _ Henc) as [Hp Hl].
  assert (Hlen : inputs_len b = length sel) by (rewrite Eb; apply length_fmap).
  unfold mock_size, schnorr_sign_inputs_len in Hfit. unfold estimate_fee, schnorr_sign_inputs_len in He.
  destruct (dummy_sign_tx 2) as [dummy|] eqn:Ed; [|done]. cbn [mbind option_bind] in Hfit, He.
  rewrite Hlen in Hfit, He.
  assert (Hfa : fee_algorithm b = alg) by by rewrite Eb. rewrite Hfa in He.
  destruct (calculate_for alg _) as [f|] eqn:Ec; [|done]. cbn [chain_err run_bind] in He. injection He as He.
  unfold fee_to_coin in He. subst f.
  assert (Hw : Forall (λ x, length (enc tx_in_witness_codec x) = 131%nat) w).
  { apply Forall_replicate. unfold key_pair_witness. rewrite in_witness_size.
    - by rewrite Hnodes.
    - done. }
  assert (Hnil : w ≠ []) by (unfold w; destruct sel; [done | by intros ?]).
  pose proof (mock_covers (to_tx b) w dummy p Ed Hnil Hw Hp Hl) as Hsize.
  unfold w in Hsize. rewrite length_replicate in Hsize.
  destruct (estimate_mono alg _ _ est Hfit (conj (Nat2Z.is_nonneg _) (inj_le _ _ Hsize)) Ec) as (fee & Hfee & Hr).
  exists fee. split; [exact Hfee|]. pose proof (calculate_for_coin alg _ _ Ec). ints.
Qed.

(** C21. The wallet's fee.  For a wallet of a single key whose transfers the enclave
    encrypts: the fee that the chain computes for the encrypted transaction exists and
    is not higher than what the transfer pays, so that the validation of the plain
    transfer with that minimal fee succeeds; and the enclave can open the payload. *)
Theorem wallet_transfer_pays sk s encrypt_tx b txaux :
  key_pair_signer_new sk (pk_from_secret_key sk) = Some (Ok s) →
  Forall (λ u, out_address u.2 = extended_addr s) l → encrypts_by_enclave encrypt_tx →
  select_and_build alg l outs ret attrs = Some (Ok b) → fee_fits alg (mock_size b) →
  build_transfer_tx alg (key_pair_signer s) encrypt_tx l outs ret attrs = Some (Ok txaux) →
  ∃ w p fee min_fee, txaux = EnclaveTx (TransferTx (inputs (to_tx b))
                       (as_u16 (Z.of_nat (length (outputs (to_tx b))))) p)
    ∧ aead_decrypt MOCK_KEY (init_vector p) (txid p) (txpayload p)
      = Some (enc plain_tx_aux_codec (PlainTransferTx (to_tx b) w))
    ∧ calculate_for_txaux alg txaux = Ok min_fee ∧ min_fee ≤ fee
    ∧ ∀ info tins, outs_ok tins → Forall2 (refers info) (utxo <$> iter_inputs b) tins →
        info_chain_hex_id info = chain_hex_id attrs → min_fee_computed info = min_fee →
        verify_transfer (to_tx b) w info tins = Some (Ok fee).
Proof.
  intros Hs Haddr Henc Hsb Hfit Hbuild.
  destruct (key_pair_build alg l outs ret attrs dummy_signature l_ok l_nodup outs_coins outs_positive
    outs_some sk s encrypt_tx Hs Haddr)
    as [(e & He & _)|(b' & sel & change & fees & Hb & Hsb' & Esel & He & Hv)]; [by rewrite Hbuild in He|].
  rewrite Hsb in Hsb'. injection Hsb' as <-. cbv zeta in He, Hv. rewrite Hbuild in He. symmetry in He.
  destruct (Henc _ _ _ He) as (en & p & en' & Hen & ->).
  destruct (built_fee_covers b sel change fees sk s en p en' Hb Hfit Hs Hen) as (fee & Hfee & Hcoin & Hle).
  exists (replicate (length sel) (key_pair_witness s (builder_tx_id b))), p, fees, fee.
  split; [done|]. split; [|split; [done|]; split; [done|]].
  - unfold encrypt in Hen. destruct (fill_bytes _ _) as [iv r]. cbn [to_txid to_payload] in Hen.
    destruct (aead_encrypt _ _ _ _) as [c|] eqn:Ec; [|done]. cbn [mbind option_bind] in Hen.
    injection Hen as <- _. by apply aead_decrypt_encrypt in Ec.
  - intros info tins Ho Ht Hid Hmin. rewrite Esel in Ht. apply Hv; try done; by rewrite Hmin.
Qed.
End fee.

(** ** Examples *)

Section examples.
Import ClientExample WalletExample ServerExample.
#[local] Existing Instance scale_ref_sizes.

Definition enclave_example : Enclave := {| block_filter := filter_default; rng := tt |}.
(** A service that asks the enclave. *)
Definition sealed_by_enclave (t : SignedTransaction) : run ErrorKind TxAux :=
  match t with
  | SignedTransfer tx w =>
      '(p, _) ← encrypt enclave_example {| to_payload := enc plain_tx_aux_codec (PlainTransferTx tx w);
                                           to_txid := transaction_id tx_codec tx |};
      Some (Ok (EnclaveTx (TransferTx (inputs tx) (as_u16 (Z.of_nat (length (outputs tx)))) p)))
  | _ => Some (Err Kind.InvalidInput)
  end.

Lemma asks_enclave : encrypts_by_enclave sealed_by_enclave.
Proof.
  intros tx w txaux Ha. unfold sealed_by_enclave in Ha. destruct (encrypt _ _) as [[p e']|] eqn:Ee; [|done].
  cbn [mbind option_bind] in Ha. injection Ha as <-. by exists enclave_example, p, e'.
Qed.

Lemma wallet_transfer_pays_witness :
  ∃ (b : RawBuilder (F := LinearFee)) w txaux fee min_fee,
    build_transfer_tx fee_alg (key_pair_signer signer) sealed_by_enclave coins payments (addr_of Byte.x05) attrs
    = Some (Ok txaux)
    ∧ calculate_for_txaux fee_alg txaux = Ok min_fee
    ∧ verify_transfer (to_tx b) w
        {| min_fee_computed := min_fee; info_chain_hex_id := 171; previous_block_time := 1000;
           info_unbonding_period := 60 |} [Transfer earlier] = Some (Ok fee).
Proof.
  assert (Eb : match select_and_build fee_alg coins payments (addr_of Byte.x05) attrs with
               | Some (Ok b) => (mock_size b <=? 100000) && bool_decide (utxo <$> iter_inputs b = coins)
               | _ => false end = true) by (vm_compute; reflexivity).
  assert (Et : match build_transfer_tx fee_alg (key_pair_signer signer) sealed_by_enclave coins payments
                 (addr_of Byte.x05) attrs with Some (Ok _) => true | _ => false end = true)
    by (vm_compute; reflexivity).
  destruct (select_and_build fee_alg coins payments (addr_of Byte.x05) attrs) as [[b|]|] eqn:Hb;
    [|discriminate Eb|discriminate Eb].
  destruct (build_transfer_tx fee_alg (key_pair_signer signer) sealed_by_enclave coins payments
    (addr_of Byte.x05) attrs) as [[txaux|]|] eqn:Ht; [|discriminate Et|discriminate Et].
  apply andb_true_iff in Eb as [Hsz Hin]. apply Z.leb_le in Hsz. apply bool_decide_eq_true in Hin.
  destruct (wallet_transfer_pays fee_alg coins payments (addr_of Byte.x05) attrs dummy_ok coins_ok coins_nodup
    payments_coins payments_positive ltac:(done) secret signer sealed_by_enclave b txaux signer_new
    ltac:(constructor; [reflexivity | constructor]) asks_enclave Hb) as (w & p & fee & min_fee & _ & _ & Hf & _ & Hv).
  - unfold fee_fits, fee_alg. cbn [constant coefficient]. ints.
  - exact Ht.
  - exists b, w, txaux, fee, min_fee. split; [reflexivity|]. split; [exact Hf|].
    apply Hv; [exact earlier_ok | rewrite Hin; exact coins_refer | reflexivity | reflexivity].
Defined.

Definition shared_tx : Tx := Validation.Example.spend_tx.
Definition shared_witness : TxWitness := Validation.Example.witness.

(** An address of three keys. *)
Lemma estimate_falls_short_witness :
  ∃ dummy p e' est fee, dummy_sign_tx 2 = Some dummy
    ∧ encrypt enclave_example {| to_payload := enc plain_tx_aux_codec (PlainTransferTx shared_tx shared_witness);
                                 to_txid := transaction_id tx_codec shared_tx |} = Some (p, e')
    ∧ calculate_for_txaux fee_alg (mock_txaux_for_tx shared_tx [dummy]) = Ok est
    ∧ calculate_for_txaux fee_alg (EnclaveTx (TransferTx (inputs shared_tx) 1 p)) = Ok fee
    ∧ est < fee.
Proof.
  assert (E : (dummy ← dummy_sign_tx 2;
     '(p, _) ← encrypt enclave_example {| to_payload := enc plain_tx_aux_codec (PlainTransferTx shared_tx shared_witness);
                                          to_txid := transaction_id tx_codec shared_tx |};
     Some (Nat.modulo (length (enc plain_tx_aux_codec (PlainTransferTx shared_tx [dummy]))) 16,
           calculate_for_txaux fee_alg (mock_txaux_for_tx shared_tx [dummy]),
           calculate_for_txaux fee_alg (EnclaveTx (TransferTx (inputs shared_tx) 1 p)),
           Z.of_nat (length (enc tx_aux_codec (EnclaveTx (TransferTx (inputs shared_tx) 1 p))))))
    = Some (6%nat, Ok 478, Ok 567, 452)) by (vm_compute; reflexivity).
  destruct (dummy_sign_tx 2) as [dummy|] eqn:Ed; [|discriminate E]. cbn [mbind option_bind] in E.
  destruct (encrypt enclave_example _) as [[p e']|] eqn:Ee; [|discriminate E]. cbn [mbind option_bind] in E.
  apply Some_inj in E. apply pair_eq in E as [E E4]. apply pair_eq in E as [E E3]. apply pair_eq in E as [E1 E2].
  exists dummy, p, e', 478, 567. split; [reflexivity|]. split; [reflexivity|]. split; [exact E2|]. split; [exact E3|].
  apply (estimate_falls_short fee_alg shared_tx shared_witness dummy enclave_example p e' 478 567 Ed).
  - constructor; [|constructor]. apply Nat.leb_le. vm_compute. reflexivity.
  - change (replicate (length shared_witness) dummy) with [dummy]. rewrite E1. discriminate.
  - exact Ee.
  - change (as_u16 (Z.of_nat (length (outputs shared_tx)))) with 1. rewrite E4.
    unfold fee_fits, fee_alg. cbn [constant coefficient]. ints.
  - unfold fee_alg. cbn [coefficient]. lia.
  - exact E2.
  - exact E3.
Defined.
End examples.
