(* ===== verification/WalletSync.v ===== *)
(** * WalletSync: the state of a wallet and its synchronisation with blocks

    [client-core]: [types/transaction_change.rs], the wallet and its state of
    [wallet_service.rs] and [wallet_state_service.rs], with the memento by which a
    batch of blocks changes the state, and [wallet/syncer_logic.rs], which computes
    the memento from the blocks.

    The theorems: when no transaction of a batch spends an output of the same batch,
    the balance of the wallet stays the sum of its unspent outputs, these stay what
    the chain still lets the wallet spend, and nothing panics; when one does, the
    balance is wrong from then on. *)

From stdpp Require Import base tactics option list gmap strings sorting.
From Stdlib Require Import ZArith Lia.
From S2P Require Import Prelude Text Codec Coin Crypto Merkle Params Account TxTypes Validation BitVec Filter Client.

(** [Time] of the [tendermint] crate, with its text form. *)
Class TimeLib := {
  Time : Type;
  to_rfc3339 : Time → str;
  time_from_str : str → option Time;
  time_from_to t : time_from_str (to_rfc3339 t) = Some t;
  rfc3339_ok t : string_ok (to_rfc3339 t);
}.

Section wallet.
Context `{Hashes, Scale, Hex, BitVecLib, ClientKeys, TimeLib}.

(** ** The wallet *)

(** A [BTreeSet] of keys is the sorted list of its elements. *)
Fixpoint set_insert {K} `{OrdKey K} `{EqDecision K} (k : K) (l : list K) : list K :=
  match l with
  | [] => [k]
  | x :: l' => if decide (k = x) then l
               else if key_leb k x then k :: l else x :: set_insert k l'
  end.

Record Wallet := {
  wallet_view_key : PublicKey;
  wallet_public_keys : list PublicKey;
  wallet_staking_keys : list PublicKey;
  root_hashes : list H256;
}.

Definition wallet_new (view_key : PublicKey) : Wallet :=
  {| wallet_view_key := view_key; wallet_public_keys := []; wallet_staking_keys := []; root_hashes := [] |}.

Definition wallet_staking_addresses (self : Wallet) : list StakedStateAddress :=
  foldl (flip set_insert) [] ((λ pk, BasicRedeem (redeem_address_from_pk pk)) <$> wallet_staking_keys self).

Definition transfer_addresses (self : Wallet) : list ExtendedAddr := OrTree <$> root_hashes self.

Definition find_staking_key (self : Wallet) (redeem_address : RedeemAddress) : option PublicKey :=
  snd <$> list_find (λ pk, redeem_address_from_pk pk = redeem_address) (wallet_staking_keys self).

Definition find_root_hash (self : Wallet) (address : ExtendedAddr) : option H256 :=
  match address with
  | OrTree root_hash => snd <$> list_find (λ h, h = root_hash) (root_hashes self)
  end.

(** ** Changes *)

Record TransactionInput := {
  pointer : TxoPointer;
  in_output : option TxOut;
}.

Inductive TransactionType :=
  | TypeTransfer
  | TypeWithdraw
  | TypeUnbond
  | TypeDeposit.

Inductive BalanceChange :=
  | Incoming (value : Coin)
  | Outgoing (value fee : Coin)
  | NoChange.

Record TransactionChange := {
  change_id : TxId;
  change_inputs : list TransactionInput;
  change_outputs : list TxOut;
  balance_change : BalanceChange;
  transaction_type : TransactionType;
  change_height : Z;
  change_time : Time;
}.

Definition transaction_type_of (t : Transaction) : TransactionType :=
  match t with
  | TransferTransaction _ => TypeTransfer
  | WithdrawUnbondedStakeTransaction _ => TypeWithdraw
  | UnbondStakeTransaction _ => TypeUnbond
  | DepositStakeTransaction _ => TypeDeposit
  end.

(** [Coin + BalanceChange]. *)
Definition add_balance_change (self : Coin) (other : BalanceChange) : result ErrorKind Coin :=
  match other with
  | Incoming value => chain_err Kind.IllegalInput (coin_add self value)
  | Outgoing value fee =>
      new_value ← chain_err Kind.IllegalInput (coin_sub self value);
      chain_err Kind.IllegalInput (coin_sub new_value fee)
  | NoChange => Ok self
  end.

(** ** The state *)

Record WalletState := {
  unspent_transactions : gmap TxoPointer TxOut;
  transaction_history : gmap TxId TransactionChange;
  balance : Coin;
}.

Definition wallet_state_default : WalletState :=
  {| unspent_transactions := ∅; transaction_history := ∅; balance := coin_zero |}.

Definition get_transaction_change (self : WalletState) (i : TxId) : option TransactionChange :=
  transaction_history self !! i.

Definition get_output (self : WalletState) (input : TxoPointer) : result ErrorKind (option TxOut) :=
  match get_transaction_change self (id input) with
  | Some change =>
      match change_outputs change !! Z.to_nat (index input) with
      | Some output => Ok (Some output)
      | None => Err Kind.InvalidInput
      end
  | None => Ok None
  end.

Inductive MementoOperation :=
  | AddTransactionChange (i : TxId) (change : TransactionChange)
  | AddUnspentTransaction (input : TxoPointer) (output : TxOut)
  | RemoveUnspentTransaction (input : TxoPointer).

Definition apply_memento_operation (self : WalletState) (operation : MementoOperation) :
  result ErrorKind WalletState :=
  match operation with
  | AddTransactionChange i change =>
      if decide (is_Some (transaction_history self !! i)) then Ok self
      else
        balance ← add_balance_change (balance self) (balance_change change);
        Ok {| unspent_transactions := unspent_transactions self;
              transaction_history := <[i := change]> (transaction_history self); balance := balance |}
  | AddUnspentTransaction input output =>
      Ok {| unspent_transactions := <[input := output]> (unspent_transactions self);
            transaction_history := transaction_history self; balance := balance self |}
  | RemoveUnspentTransaction input =>
      Ok {| unspent_transactions := delete input (unspent_transactions self);
            transaction_history := transaction_history self; balance := balance self |}
  end.

Fixpoint apply_memento (self : WalletState) (memento : list MementoOperation) :
  result ErrorKind WalletState :=
  match memento with
  | [] => Ok self
  | operation :: memento => self ← apply_memento_operation self operation; apply_memento self memento
  end.

(** ** From blocks to a memento *)

Inductive SyncerLogicError :=
  | TotalInputOutOfBound (txid : str)
  | TotalOutputOutOfBound (txid : str)
  | InputIndexInvalid (txid : str) (ix : TxoIndex)
  | InputFromMultipleWallets (txid : str)
  | OutputGreaterThanInput (txid : str).

Fixpoint decorate_inputs (wallet_state : WalletState) (raw_inputs : list TxoPointer) (i : TxId) :
  result SyncerLogicError (list TransactionInput) :=
  match raw_inputs with
  | [] => Ok []
  | raw_input :: raw_inputs =>
      match get_output wallet_state raw_input with
      | Err _ => Err (InputIndexInvalid (hex_encode i) (index raw_input))
      | Ok output =>
          rest ← decorate_inputs wallet_state raw_inputs i;
          Ok ({| pointer := raw_input; in_output := output |} :: rest)
      end
  end.

Definition sum_outputs (outs : list TxOut) : CoinResult := sum_coins (out_value <$> outs).

Definition is_our_address (wallet : Wallet) (addr : ExtendedAddr) : Prop := addr ∈ transfer_addresses wallet.
#[global] Instance is_our_address_dec wallet addr : Decision (is_our_address wallet addr).
Proof. unfold is_our_address. apply _. Defined.

Definition our_output (wallet : Wallet) (input : TransactionInput) : option TxOut :=
  output ← in_output input;
  if decide (is_our_address wallet (out_address output)) then Some output else None.

(** [map_err]. *)
Definition or_else {E E' A} (r : result E A) (e : E') : result E' A :=
  match r with Ok a => Ok a | Err _ => Err e end.

Definition calculate_balance_change (wallet : Wallet) (i : TxId) (ins : list TransactionInput)
    (outs : list TxOut) : run SyncerLogicError BalanceChange :=
  let spent_outputs := mapM (our_output wallet) ins in
  total_output ?← Some (or_else (sum_outputs outs) (TotalOutputOutOfBound (hex_encode i)));
  total_output_ours ?← Some (or_else
    (sum_outputs (filter (λ o, is_our_address wallet (out_address o)) outs)) (TotalOutputOutOfBound (hex_encode i)));
  match spent_outputs with
  | Some ((_ :: _) as spent_outputs) =>
      total_input ?← Some (or_else (sum_outputs spent_outputs) (TotalInputOutOfBound (hex_encode i)));
      fee ?← Some (or_else (coin_sub total_input total_output) (OutputGreaterThanInput (hex_encode i)));
      value ← unwrap (coin_sub total_output total_output_ours);
      Some (Ok (Outgoing value fee))
  | _ =>
      if existsb (λ input, bool_decide (is_Some (our_output wallet input))) ins
      then Some (Err (InputFromMultipleWallets (hex_encode i)))
      else Some (Ok (if total_output_ours =? coin_zero then NoChange else Incoming total_output_ours))
  end.

(** What a change adds to the memento. *)
Definition on_transaction_change (wallet : Wallet) (memento : list MementoOperation)
    (change : TransactionChange) : list MementoOperation :=
  memento
  ++ ((λ input, RemoveUnspentTransaction (pointer input)) <$> change_inputs change)
  ++ omap (λ p : nat * TxOut,
        if decide (is_our_address wallet (out_address p.2))
        then Some (AddUnspentTransaction (txo_pointer_new (change_id change) (Z.of_nat p.1)) p.2)
        else None) (imap pair (change_outputs change))
  ++ [AddTransactionChange (change_id change) change].

Definition handle_transaction (wallet : Wallet) (wallet_state : WalletState)
    (memento : list MementoOperation) (transaction : Transaction) (block_height : Z) (block_time : Time) :
  run SyncerLogicError (list MementoOperation) :=
  let i := client_transaction_id transaction in
  let outs := transaction_outputs transaction in
  ins ?← Some (decorate_inputs wallet_state (transaction_inputs transaction) i);
  balance_change ?← calculate_balance_change wallet i ins outs;
  Some (Ok (on_transaction_change wallet memento
    {| change_id := i; change_inputs := ins; change_outputs := outs; balance_change := balance_change;
       transaction_type := transaction_type_of transaction; change_height := block_height;
       change_time := block_time |})).

Record FilteredBlock := {
  fb_height : Z;
  fb_app_hash : str;
  fb_time : Time;
  valid_transaction_ids : list TxId;
  fb_block_filter : BlockFilter;
  enclave_transaction_ids : list TxId;
  staking_transactions : list Transaction;
}.

Fixpoint handle_transactions (wallet : Wallet) (wallet_state : WalletState)
    (memento : list MementoOperation) (l : list Transaction) (block_height : Z) (block_time : Time) :
  run SyncerLogicError (list MementoOperation) :=
  match l with
  | [] => Some (Ok memento)
  | transaction :: l =>
      memento ?← handle_transaction wallet wallet_state memento transaction block_height block_time;
      handle_transactions wallet wallet_state memento l block_height block_time
  end.

(** The transactions of a block that the loop handles, in its order. *)
Definition block_transactions (enclave_transactions : gmap TxId Transaction) (block : FilteredBlock) :
  list Transaction :=
  filter (λ tx, client_transaction_id tx ∈ valid_transaction_ids block) (staking_transactions block)
  ++ omap (λ i, enclave_transactions !! i) (enclave_transaction_ids block).

Fixpoint handle_blocks_loop (wallet : Wallet) (wallet_state : WalletState)
    (memento : list MementoOperation) (blocks : list FilteredBlock)
    (enclave_transactions : gmap TxId Transaction) : run SyncerLogicError (list MementoOperation) :=
  match blocks with
  | [] => Some (Ok memento)
  | block :: blocks =>
      memento ?← handle_transactions wallet wallet_state memento
                   (block_transactions enclave_transactions block) (fb_height block) (fb_time block);
      handle_blocks_loop wallet wallet_state memento blocks enclave_transactions
  end.

(** [collect] into a [HashMap]: a later entry replaces an earlier one. *)
Definition by_id (l : list Transaction) : gmap TxId Transaction :=
  list_to_map (reverse ((λ tx, (client_transaction_id tx, tx)) <$> l)).

Definition handle_blocks (wallet : Wallet) (wallet_state : WalletState) (blocks : list FilteredBlock)
    (enclave_transactions : list Transaction) : run SyncerLogicError (list MementoOperation) :=
  handle_blocks_loop wallet wallet_state [] blocks (by_id enclave_transactions).

(** ** The reference: one transaction at a time *)

(** The outputs of a transaction that belong to the wallet, from index [j]. *)
Fixpoint received (wallet : Wallet) (i : TxId) (j : nat) (outs : list TxOut) : list (TxoPointer * TxOut) :=
  match outs with
  | [] => []
  | o :: outs =>
      (if decide (is_our_address wallet (out_address o)) then [(txo_pointer_new i (Z.of_nat j), o)] else [])
      ++ received wallet i (S j) outs
  end.

Definition spend_all (u : gmap TxoPointer TxOut) (ps : list TxoPointer) : gmap TxoPointer TxOut :=
  foldl (λ u p, delete p u) u ps.
Definition receive_all (u : gmap TxoPointer TxOut) (l : list (TxoPointer * TxOut)) : gmap TxoPointer TxOut :=
  foldl (λ u x, <[x.1 := x.2]> u) u l.

Definition ledger_step (wallet : Wallet) (u : gmap TxoPointer TxOut) (tx : Transaction) :
  gmap TxoPointer TxOut :=
  receive_all (spend_all u (transaction_inputs tx))
    (received wallet (client_transaction_id tx) 0 (transaction_outputs tx)).

(** What a wallet that follows the chain [txs] can spend. *)
Definition utxos (wallet : Wallet) (txs : list Transaction) : gmap TxoPointer TxOut :=
  foldl (ledger_step wallet) ∅ txs.

Definition wealth (u : gmap TxoPointer TxOut) : Z := map_sum out_value u.

(** The state of a wallet is the one of the chain [txs]. *)
Record refines (wallet : Wallet) (txs : list Transaction) (s : WalletState) : Prop := {
  refines_unspent : unspent_transactions s = utxos wallet txs;
  refines_history : change_outputs <$> transaction_history s = transaction_outputs <$> by_id txs;
  refines_balance : balance s = wealth (utxos wallet txs);
  refines_coin : balance s ≤ MAX_COIN;
}.

(** A pointer to an output of a transaction. *)
Definition output_of (tx : Transaction) (p : TxoPointer) (o : TxOut) : Prop :=
  ∃ k : nat, transaction_outputs tx !! k = Some o
    ∧ p = txo_pointer_new (client_transaction_id tx) (Z.of_nat k).

Record tx_ok (tx : Transaction) : Prop := {
  tx_ok_values : Forall (λ o, coin_ok (out_value o)) (transaction_outputs tx);
  tx_ok_total : sum_by out_value (transaction_outputs tx) ≤ MAX_COIN;
  tx_ok_length : Z.of_nat (length (transaction_outputs tx)) ≤ U16_MAX + 1;
  tx_ok_inputs : NoDup (transaction_inputs tx);
}.

(** The transactions of a chain, in order: identifiers are unique and appear in no
    input before their transaction, what an input refers to exists, and is spent once. *)
Inductive valid_chain : list Transaction → Prop :=
  | valid_nil : valid_chain []
  | valid_snoc txs tx :
      valid_chain txs → tx_ok tx →
      client_transaction_id tx ∉ client_transaction_id <$> txs →
      (∀ tx' p, tx' ∈ txs ++ [tx] → p ∈ transaction_inputs tx' → id p ≠ client_transaction_id tx) →
      (∀ tx' p, tx' ∈ txs → p ∈ transaction_inputs tx → id p = client_transaction_id tx' →
        ∃ o, output_of tx' p o) →
      (∀ tx' p, tx' ∈ txs → p ∈ transaction_inputs tx → p ∉ transaction_inputs tx') →
      valid_chain (txs ++ [tx]).

(** *** Lists of pointers *)

Lemma spend_all_lookup u ps p :
  spend_all u ps !! p = if decide (p ∈ ps) then None else u !! p.
Proof.
  revert u. induction ps as [|q ps IH]; intros u; [by rewrite decide_False by set_solver|].
  change (spend_all u (q :: ps)) with (spend_all (delete q u) ps). rewrite IH. destruct (decide (p = q)) as [->|Hne].
  - rewrite lookup_delete_eq. rewrite (decide_True (P := q ∈ q :: ps)) by set_solver. by case_decide.
  - rewrite lookup_delete_ne by done. do 2 case_decide; set_solver.
Qed.

Lemma Forall2_impl_elem {A B} (P Q : A → B → Prop) l k :
  Forall2 P l k → (∀ x y, x ∈ l → P x y → Q x y) → Forall2 Q l k.
Proof. induction 1; intros HPQ; constructor; [apply HPQ | apply IHForall2]; set_solver. Qed.

Lemma spend_all_wealth u ps os :
  NoDup ps → Forall2 (λ p o, u !! p = Some o) ps os →
  wealth u = sum_by out_value os + wealth (spend_all u ps).
Proof.
  intros Hnd Hf. revert u Hnd Hf. revert os.
  induction ps as [|p ps IH]; intros os u Hnd Hf; inversion Hf as [|? o ? os' Hp Hf']; subst; [done|].
  apply NoDup_cons in Hnd as [Hn Hnd]. rewrite sum_by_cons. unfold wealth.
  rewrite (map_sum_delete _ u p o Hp). change (map_sum out_value (delete p u)) with (wealth (delete p u)).
  rewrite (IH os' (delete p u) Hnd); [unfold wealth; simpl; lia|].
  apply (Forall2_impl_elem _ _ _ _ Hf'). intros q o' Hq Hqo.
  by rewrite lookup_delete_ne by (intros ->; done).
Qed.

Lemma receive_all_lookup u l p :
  NoDup l.*1 →
  receive_all u l !! p = match (list_to_map l : gmap TxoPointer TxOut) !! p with
                         | Some o => Some o | None => u !! p end.
Proof.
  revert u. induction l as [|[q o] l IH]; intros u Hnd; simpl; [done|].
  apply NoDup_cons in Hnd as [Hn Hnd]. rewrite IH by done.
  destruct (decide (p = q)) as [->|Hne].
  - rewrite !lookup_insert_eq. by rewrite (not_elem_of_list_to_map_1 l q).
  - by rewrite !lookup_insert_ne.
Qed.

Lemma receive_all_wealth u l :
  NoDup l.*1 → (∀ p, p ∈ l.*1 → u !! p = None) →
  wealth (receive_all u l) = wealth u + sum_by out_value l.*2.
Proof.
  revert u. induction l as [|[q o] l IH]; intros u Hnd Hf; [by rewrite Z.add_0_r|].
  apply NoDup_cons in Hnd as [Hn Hnd]. rewrite fmap_cons, sum_by_cons.
  change (receive_all u ((q, o) :: l)) with (receive_all (<[q := o]> u) l). rewrite IH; [|done|].
  - unfold wealth. rewrite map_sum_insert_fresh by (apply Hf; set_solver). simpl. lia.
  - intros p Hp. rewrite lookup_insert_ne by (intros ->; done). apply Hf. set_solver.
Qed.

Lemma received_snd wallet i j outs :
  (received wallet i j outs).*2 = filter (λ o, is_our_address wallet (out_address o)) outs.
Proof.
  revert j. induction outs as [|o outs IH]; intros j; [done|]. rewrite filter_cons. simpl.
  rewrite fmap_app, IH. by case_decide.
Qed.

Lemma elem_of_received wallet i j outs p o :
  (p, o) ∈ received wallet i j outs
  ↔ ∃ k, outs !! k = Some o ∧ is_our_address wallet (out_address o)
         ∧ p = txo_pointer_new i (Z.of_nat (j + k)).
Proof.
  revert j. induction outs as [|o' outs IH]; intros j; simpl; [set_solver|].
  rewrite elem_of_app, IH. split.
  - intros [Hd | (k & Hk & Ho & ->)].
    + case_decide; [|set_solver]. apply list_elem_of_singleton in Hd as [= -> ->].
      exists 0%nat. by rewrite Nat.add_0_r.
    + exists (S k). by rewrite Nat.add_succ_r.
  - intros ([|k] & Hk & Ho & ->).
    + left. injection Hk as ->. rewrite decide_True, Nat.add_0_r by done. set_solver.
    + right. exists k. by rewrite Nat.add_succ_r.
Qed.

Lemma txo_pointer_new_inj i j k :
  Z.of_nat j ≤ U16_MAX → Z.of_nat k ≤ U16_MAX →
  txo_pointer_new i (Z.of_nat j) = txo_pointer_new i (Z.of_nat k) → j = k.
Proof. intros Hj Hk [= E]. rewrite !as_u16_small in E by ints. lia. Qed.

Lemma received_nodup wallet i j outs :
  Z.of_nat (j + length outs) ≤ U16_MAX + 1 → NoDup (received wallet i j outs).*1.
Proof.
  revert j. induction outs as [|o outs IH]; intros j Hj; simpl in *; [constructor|].
  rewrite fmap_app. apply NoDup_app. split_and!; [case_decide; repeat constructor; set_solver | | apply IH; lia].
  intros p Hp Hq. case_decide; [|set_solver]. apply list_elem_of_singleton in Hp as ->.
  apply list_elem_of_fmap in Hq as ([p' o'] & E & (k & Hk & _ & ->)%elem_of_received). simpl in E.
  apply lookup_lt_Some in Hk. apply txo_pointer_new_inj in E; lia.
Qed.

(** *** The ledger of a valid chain *)

Lemma utxos_snoc wallet txs tx : utxos wallet (txs ++ [tx]) = ledger_step wallet (utxos wallet txs) tx.
Proof. unfold utxos. by rewrite foldl_app. Qed.

Lemma received_lookup wallet tx p o :
  tx_ok tx →
  (list_to_map (received wallet (client_transaction_id tx) 0 (transaction_outputs tx))
     : gmap TxoPointer TxOut) !! p = Some o
  ↔ output_of tx p o ∧ is_our_address wallet (out_address o).
Proof.
  intros Htx. rewrite <- elem_of_list_to_map by (apply received_nodup; apply tx_ok_length in Htx; lia).
  rewrite elem_of_received. unfold output_of. naive_solver.
Qed.

Lemma ledger_step_lookup wallet u tx p o :
  tx_ok tx → (∀ q, id q = client_transaction_id tx → u !! q = None) →
  ledger_step wallet u tx !! p = Some o
  ↔ (output_of tx p o ∧ is_our_address wallet (out_address o))
    ∨ (u !! p = Some o ∧ p ∉ transaction_inputs tx).
Proof.
  intros Htx Hu. unfold ledger_step.
  rewrite receive_all_lookup by (apply received_nodup; apply tx_ok_length in Htx; lia).
  rewrite <- (received_lookup wallet tx p o Htx), spend_all_lookup.
  destruct (list_to_map _ !! p) as [o'|] eqn:E.
  - split; [by left|]. intros [?|[Hp _]]; [done|].
    apply received_lookup in E as [(k & _ & ->) _]; [|done]. by rewrite Hu in Hp.
  - case_decide; naive_solver.
Qed.

Lemma valid_chain_ok txs tx : valid_chain txs → tx ∈ txs → tx_ok tx.
Proof. induction 1; [set_solver|]. intros [?| ->%list_elem_of_singleton]%elem_of_app; auto. Qed.

Lemma valid_chain_nodup txs : valid_chain txs → NoDup (client_transaction_id <$> txs).
Proof.
  induction 1 as [|txs tx Hv IH Htx Hf _ _ _]; [constructor|].
  rewrite fmap_app. apply NoDup_app. split_and!; [done | set_solver | repeat constructor; set_solver].
Qed.

Lemma valid_chain_prefix txs txs' : valid_chain (txs ++ txs') → valid_chain txs.
Proof.
  induction txs' as [|tx txs' IH] using rev_ind; [by rewrite app_nil_r|].
  rewrite app_assoc. inversion 1 as [E|? ? Hv _ _ _ _ _ E]; [by destruct (txs ++ txs')|].
  apply app_inj_tail in E as [-> ->]. by apply IH.
Qed.

(** What can be spent is exactly what the chain has paid to the wallet and no
    transaction of the chain has spent. *)
Lemma utxos_spec wallet txs :
  valid_chain txs → ∀ p o, utxos wallet txs !! p = Some o
  ↔ (∃ tx, tx ∈ txs ∧ output_of tx p o ∧ is_our_address wallet (out_address o))
    ∧ (∀ tx, tx ∈ txs → p ∉ transaction_inputs tx).
Proof.
  induction 1 as [|txs tx Hv IH Htx Hf Hid Hr Hs]; intros p o; [split; [done | set_solver]|].
  rewrite utxos_snoc, ledger_step_lookup; [|done|].
  - rewrite IH. split.
    + intros [[Ho Ha] | [[(tx' & Hin & Ho & Ha) Hn] Hp]].
      * split; [exists tx; set_solver|]. intros tx' Hin Hp. apply (Hid tx' p Hin Hp).
        destruct Ho as (k & _ & ->). done.
      * split; [exists tx'; set_solver|].
        intros tx'' [?| ->%list_elem_of_singleton]%elem_of_app; auto.
    + intros [(tx' & [Hin| ->%list_elem_of_singleton]%elem_of_app & Ho & Ha) Hn]; [|by left].
      right. split; [split; [eauto | intros; apply Hn; set_solver] | apply Hn; set_solver].
  - intros q Hq. apply eq_None_not_Some. intros [o' Ho]. apply IH in Ho as [(tx' & Hin & (k & _ & ->) & _) _].
    apply Hf. rewrite <- Hq. simpl. apply list_elem_of_fmap. eauto.
Qed.

Lemma output_of_unique txs t1 t2 p o1 o2 :
  valid_chain txs → t1 ∈ txs → t2 ∈ txs → output_of t1 p o1 → output_of t2 p o2 → o1 = o2.
Proof.
  intros Hv Hin1 Hin2 (k1 & Hk1 & ->) (k2 & Hk2 & E). assert (t1 = t2) as <-.
  { apply (f_equal id) in E. simpl in E. apply list_elem_of_lookup in Hin1 as [j1 Hj1], Hin2 as [j2 Hj2].
    assert (j1 = j2) as <-; [|congruence].
    apply (NoDup_lookup (client_transaction_id <$> txs) j1 j2 (client_transaction_id t1)).
    - by apply valid_chain_nodup.
    - by rewrite list_lookup_fmap, Hj1.
    - by rewrite list_lookup_fmap, Hj2, E. }
  pose proof (tx_ok_length _ (valid_chain_ok _ _ Hv Hin1)).
  apply txo_pointer_new_inj in E as ->; [congruence | |];
    apply lookup_lt_Some in Hk1, Hk2; lia.
Qed.

Lemma by_id_snoc txs tx : by_id (txs ++ [tx]) = <[client_transaction_id tx := tx]> (by_id txs).
Proof. unfold by_id. by rewrite fmap_app, reverse_app. Qed.

Lemma by_id_lookup txs :
  NoDup (client_transaction_id <$> txs) →
  ∀ i tx, by_id txs !! i = Some tx ↔ tx ∈ txs ∧ client_transaction_id tx = i.
Proof.
  intros Hnd i tx. unfold by_id. rewrite <- elem_of_list_to_map.
  - rewrite elem_of_reverse, list_elem_of_fmap. naive_solver.
  - rewrite reverse_Permutation, <- list_fmap_compose. done.
Qed.

(** *** Applying a memento *)

Lemma apply_memento_app s m m' :
  apply_memento s (m ++ m') = (s' ← apply_memento s m; apply_memento s' m').
Proof.
  revert s. induction m as [|op m IH]; intros s; simpl; [done|].
  destruct (apply_memento_operation s op); simpl; [apply IH | done].
Qed.

Definition with_unspent (s : WalletState) (u : gmap TxoPointer TxOut) : WalletState :=
  {| unspent_transactions := u; transaction_history := transaction_history s; balance := balance s |}.

Lemma apply_removes s (ps : list TransactionInput) :
  apply_memento s ((λ input, RemoveUnspentTransaction (pointer input)) <$> ps)
  = Ok (with_unspent s (spend_all (unspent_transactions s) (pointer <$> ps))).
Proof. revert s. induction ps as [|p ps IH]; intros s; simpl; [by destruct s|]. by rewrite IH. Qed.

Lemma apply_adds s (l : list (TxoPointer * TxOut)) :
  apply_memento s ((λ x, AddUnspentTransaction x.1 x.2) <$> l)
  = Ok (with_unspent s (receive_all (unspent_transactions s) l)).
Proof. revert s. induction l as [|[p o] l IH]; intros s; simpl; [by destruct s|]. by rewrite IH. Qed.

Lemma adds_received wallet i j outs :
  omap (λ p : nat * TxOut,
          if decide (is_our_address wallet (out_address p.2))
          then Some (AddUnspentTransaction (txo_pointer_new i (Z.of_nat p.1)) p.2) else None)
       (imap (λ k o, ((j + k)%nat, o)) outs)
  = (λ x, AddUnspentTransaction x.1 x.2) <$> received wallet i j outs.
Proof.
  revert j. induction outs as [|o outs IH]; intros j; [done|]. simpl. rewrite Nat.add_0_r, fmap_app, <- IH.
  rewrite (imap_ext _ (λ k o, ((S j + k)%nat, o)) outs) by (intros; simpl; by rewrite Nat.add_succ_r). by case_decide.
Qed.

(** The state after a transaction whose change is new to the history. *)
Lemma apply_change wallet s change :
  transaction_history s !! change_id change = None →
  apply_memento s (on_transaction_change wallet [] change)
  = (b ← add_balance_change (balance s) (balance_change change);
     Ok {| unspent_transactions :=
             receive_all (spend_all (unspent_transactions s) (pointer <$> change_inputs change))
               (received wallet (change_id change) 0 (change_outputs change));
           transaction_history := <[change_id change := change]> (transaction_history s);
           balance := b |}).
Proof.
  intros Hf. unfold on_transaction_change. rewrite app_nil_l, apply_memento_app, apply_removes. cbn [mbind result_bind].
  pose proof (adds_received wallet (change_id change) 0 (change_outputs change)) as Ha.
  change (imap _ _) with (imap pair (change_outputs change)) in Ha. rewrite Ha, apply_memento_app, apply_adds.
  simpl. rewrite decide_False by (rewrite Hf; by intros []). by destruct (add_balance_change _ _).
Qed.

Lemma on_transaction_change_app wallet m change :
  on_transaction_change wallet m change = m ++ on_transaction_change wallet [] change.
Proof. done. Qed.

(** *** The change of a transaction *)

Lemma sum_outputs_exact outs :
  Forall (λ o, coin_ok (out_value o)) outs → sum_by out_value outs ≤ MAX_COIN →
  sum_outputs outs = Ok (sum_by out_value outs).
Proof.
  intros Ho Hm. unfold sum_outputs. apply sum_coins_ok; [by apply Forall_fmap|]. split; [|done].
  clear Ho Hm. induction outs as [|o outs IH]; [done|]. by rewrite fmap_cons, !sum_by_cons, <- IH.
Qed.

Lemma coin_sub_exact a b : 0 ≤ b ≤ a → a ≤ MAX_COIN → coin_sub a b = Ok (a - b).
Proof. intros. apply coin_sub_ok; unfold coin_ok; lia. Qed.

Lemma mapM_fmap_eq {A B C} (f : A → option C) (g : B → option C) l k :
  f <$> l = g <$> k → mapM f l = mapM g k.
Proof.
  revert k. induction l as [|x l IH]; intros [|y k]; try done. rewrite !fmap_cons. intros [= Ex E].
  simpl. by rewrite Ex, (IH k E).
Qed.

(** The inputs of a transaction are of one wallet, and a wallet does not pay more than
    it spends. *)
Definition one_wallet (u : gmap TxoPointer TxOut) (tx : Transaction) : Prop :=
  Forall (λ p, u !! p = None) (transaction_inputs tx)
  ∨ (Forall (λ p, is_Some (u !! p)) (transaction_inputs tx)
     ∧ sum_by out_value (transaction_outputs tx) ≤ wealth u - wealth (spend_all u (transaction_inputs tx))).

Lemma spend_all_none u ps : Forall (λ p, u !! p = None) ps → spend_all u ps = u.
Proof. induction 1 as [|p ps Hp _ IH]; [done|]. simpl. by rewrite delete_id. Qed.

Section batch.
Context (wallet : Wallet) (txs earlier : list Transaction) (tx : Transaction).
Context (Hv : valid_chain (txs ++ earlier ++ [tx])).

Let u := utxos wallet (txs ++ earlier).

Lemma utxos_values : map_Forall (λ _ o, coin_ok (out_value o)) u.
Proof.
  rewrite app_assoc in Hv. intros p o Hp. pose proof (valid_chain_prefix _ _ Hv) as Hd.
  apply utxos_spec in Hp as [(tx' & Hin & (k & Hk & _) & _) _]; [|done].
  exact (Forall_lookup_1 _ _ _ _ (tx_ok_values tx' (valid_chain_ok _ _ Hd Hin)) Hk).
Qed.

Lemma utxos_fresh q : id q = client_transaction_id tx → u !! q = None.
Proof.
  rewrite app_assoc in Hv. intros Hq. pose proof (valid_chain_prefix _ _ Hv) as Hd.
  apply eq_None_not_Some. intros [o Ho]. apply utxos_spec in Ho as [(tx' & Hin & (k & _ & ->) & _) _]; [|done].
  pose proof (valid_chain_nodup _ Hv) as Hnd. rewrite fmap_app in Hnd. apply NoDup_app in Hnd as (_ & Hnd & _).
  apply (Hnd (client_transaction_id tx')); [apply list_elem_of_fmap; eauto|].
  simpl in Hq. rewrite Hq. simpl. set_solver.
Qed.

Lemma batch_tx_ok : tx_ok tx.
Proof. apply (valid_chain_ok _ _ Hv). set_solver. Qed.

Definition sum_ours (outs : list TxOut) : Z :=
  sum_by out_value (filter (λ o, is_our_address wallet (out_address o)) outs).

Lemma ledger_step_wealth :
  wealth (ledger_step wallet u tx)
  = wealth (spend_all u (transaction_inputs tx)) + sum_ours (transaction_outputs tx).
Proof.
  unfold ledger_step. rewrite receive_all_wealth, received_snd; [done | |].
  - apply received_nodup. pose proof (tx_ok_length _ batch_tx_ok). lia.
  - intros p Hp. rewrite spend_all_lookup. case_decide; [done|]. apply utxos_fresh.
    apply list_elem_of_fmap in Hp as ([p' o] & -> & (k & _ & _ & ->)%elem_of_received). done.
Qed.

Lemma sum_ours_range : 0 ≤ sum_ours (transaction_outputs tx) ≤ sum_by out_value (transaction_outputs tx).
Proof.
  pose proof (tx_ok_values _ batch_tx_ok) as Ho. unfold sum_ours.
  induction Ho as [|o outs Hc Ho IH]; [done|]. rewrite filter_cons, sum_by_cons. unfold coin_ok in Hc.
  case_decide; rewrite ?sum_by_cons; lia.
Qed.

Lemma totals_ok i :
  or_else (E' := SyncerLogicError) (sum_outputs (transaction_outputs tx)) i
    = Ok (sum_by out_value (transaction_outputs tx))
  ∧ or_else (E' := SyncerLogicError)
      (sum_outputs (filter (λ o, is_our_address wallet (out_address o)) (transaction_outputs tx))) i
    = Ok (sum_ours (transaction_outputs tx)).
Proof.
  pose proof (tx_ok_values _ batch_tx_ok) as Ho. pose proof (tx_ok_total _ batch_tx_ok) as Ht.
  pose proof sum_ours_range as Hr. unfold sum_ours in *. split.
  - by rewrite sum_outputs_exact.
  - assert (Hf : Forall (λ o, coin_ok (out_value o))
                   (filter (λ o, is_our_address wallet (out_address o)) (transaction_outputs tx))).
    { apply Forall_forall. intros o [_ Hin]%list_elem_of_filter. exact (proj1 (Forall_forall _ _) Ho o Hin). }
    rewrite sum_outputs_exact by (done || lia). done.
Qed.

(** A transaction with no input that the wallet knows as its own. *)
Lemma incoming_change ins b :
  Forall (λ x, our_output wallet x = None) ins → b + sum_ours (transaction_outputs tx) ≤ MAX_COIN →
  ∃ c, calculate_balance_change wallet (client_transaction_id tx) ins (transaction_outputs tx) = Some (Ok c)
    ∧ add_balance_change b c = Ok (b + sum_ours (transaction_outputs tx)).
Proof.
  intros Hn Hb. unfold calculate_balance_change.
  rewrite (proj1 (totals_ok _)). cbn [run_bind]. rewrite (proj2 (totals_ok _)). cbn [run_bind].
  assert (existsb (λ input, bool_decide (is_Some (our_output wallet input))) ins = false) as ->.
  { apply not_true_iff_false. intros (input & Hin & Hs)%existsb_exists.
    apply bool_decide_eq_true in Hs as [o Eo]. apply list_elem_of_In in Hin.
    apply (proj1 (Forall_forall _ _) Hn) in Hin. congruence. }
  assert (mapM (our_output wallet) ins = None ∨ mapM (our_output wallet) ins = Some []) as [-> | ->].
  { destruct Hn as [|p ps Hp _]; [by right | left; simpl; by rewrite Hp]. }
  all: eexists; (split; [done|]);
    destruct (Z.eqb_spec (sum_ours (transaction_outputs tx)) coin_zero) as [->|_]; simpl;
    [unfold coin_zero; f_equal; lia | by apply chain_err_Ok, coin_add_ok].
Qed.

(** A transaction that spends outputs of the wallet: its change, added to the worth of
    what could be spent before it, is the worth of what can be spent after it. *)
Lemma outgoing_change ins :
  our_output wallet <$> ins = (λ p, u !! p) <$> transaction_inputs tx → transaction_inputs tx ≠ [] →
  Forall (λ p, is_Some (u !! p)) (transaction_inputs tx) →
  sum_by out_value (transaction_outputs tx) ≤ wealth u - wealth (spend_all u (transaction_inputs tx)) →
  wealth u ≤ MAX_COIN →
  ∃ c, calculate_balance_change wallet (client_transaction_id tx) ins (transaction_outputs tx) = Some (Ok c)
    ∧ add_balance_change (wealth u) c = Ok (wealth (ledger_step wallet u tx)).
Proof.
  intros Ho Hne Hs Hc Hu. unfold calculate_balance_change. rewrite (mapM_fmap_eq _ _ _ _ Ho).
  pose proof sum_ours_range as Hr. pose proof ledger_step_wealth as Hl.
  rewrite (proj1 (totals_ok _)). cbn [run_bind]. rewrite (proj2 (totals_ok _)). cbn [run_bind].
  destruct (mapM_is_Some_2 (λ p, u !! p) (transaction_inputs tx) Hs) as [os Eos]. rewrite Eos.
  apply mapM_Some_1 in Eos as Hf.
  assert (Hos : Forall (λ o, coin_ok (out_value o)) os).
  { apply Forall_forall. intros o Hin. apply list_elem_of_lookup in Hin as [k Hk].
    destruct (Forall2_lookup_r _ _ _ _ _ Hf Hk) as (p & _ & Hp). by apply (utxos_values p). }
  pose proof (spend_all_wealth u _ os (tx_ok_inputs _ batch_tx_ok) Hf) as Hsw.
  assert (Hge : 0 ≤ wealth (spend_all u (transaction_inputs tx))).
  { apply map_sum_nonneg. intros p o Hp. rewrite spend_all_lookup in Hp. case_decide; [done|].
    by apply utxos_values in Hp as [? _]. }
  destruct os as [|o os]; [by apply Forall2_nil_inv_r in Hf|].
  rewrite sum_outputs_exact by (done || lia). cbn [or_else run_bind].
  rewrite coin_sub_exact by lia. cbn [or_else run_bind]. rewrite coin_sub_exact by lia.
  eexists. split; [done|]. cbn [add_balance_change]. rewrite coin_sub_exact by lia.
  cbn [chain_err mbind result_bind]. rewrite coin_sub_exact by lia.
  cbn [chain_err]. f_equal. lia.
Qed.

(** The part of [refines] that does not depend on the balance. *)
Definition tracks (l : list Transaction) (s : WalletState) : Prop :=
  unspent_transactions s = utxos wallet l
  ∧ change_outputs <$> transaction_history s = transaction_outputs <$> by_id l.

Lemma handled s0 ins c m s b block_height block_time :
  decorate_inputs s0 (transaction_inputs tx) (client_transaction_id tx) = Ok ins →
  pointer <$> ins = transaction_inputs tx →
  calculate_balance_change wallet (client_transaction_id tx) ins (transaction_outputs tx) = Some (Ok c) →
  apply_memento s0 m = Ok s → tracks (txs ++ earlier) s → add_balance_change (balance s) c = Ok b →
  ∃ m' s', handle_transaction wallet s0 m tx block_height block_time = Some (Ok m')
    ∧ apply_memento s0 m' = Ok s' ∧ tracks (txs ++ earlier ++ [tx]) s' ∧ balance s' = b.
Proof.
  intros Ei Hp Ec Hm [Hun Hh] Hb. unfold handle_transaction. rewrite Ei. cbn [run_bind].
  rewrite Ec. cbn [run_bind]. rewrite on_transaction_change_app.
  eexists _, _. split; [done|]. rewrite apply_memento_app, Hm. cbn [mbind result_bind].
  rewrite apply_change; cbn [change_id change_inputs change_outputs balance_change].
  - rewrite Hb. cbn [mbind result_bind]. split; [done|]. rewrite app_assoc.
    split; [|done]. split; cbn [unspent_transactions transaction_history].
    + by rewrite Hp, Hun, utxos_snoc.
    + by rewrite fmap_insert, Hh, by_id_snoc, fmap_insert.
  - pose proof (f_equal (lookup (client_transaction_id tx)) Hh) as Hl. rewrite !lookup_fmap in Hl.
    destruct (transaction_history s !! _); [|done]. destruct (by_id _ !! _) as [tx'|] eqn:E; [|done].
    rewrite app_assoc in Hv. pose proof (valid_chain_nodup _ Hv) as Hnd. rewrite fmap_app in Hnd.
    apply NoDup_app in Hnd as (Hnd & Hx & _). apply by_id_lookup in E as [Hin E]; [|done].
    destruct (Hx (client_transaction_id tx)); [rewrite <- E; by apply list_elem_of_fmap_2 | set_solver].
Qed.

Context (s0 : WalletState) (Hs0 : refines wallet txs s0).
(** No input refers to a transaction of the batch. *)
Context (Hbatch : ∀ p, p ∈ transaction_inputs tx → id p ∉ client_transaction_id <$> earlier).

Lemma known_output p :
  p ∈ transaction_inputs tx →
  ∃ out, get_output s0 p = Ok out ∧ our_output wallet {| pointer := p; in_output := out |} = u !! p.
Proof.
  intros Hp. rewrite app_assoc in Hv. inversion Hv as [E|txs' tx' Hd Htx _ _ Hr Hsp E]; [by destruct (txs ++ earlier)|].
  apply app_inj_tail in E as [-> ->].
  pose proof (valid_chain_prefix _ _ Hd) as Ht.
  unfold get_output, get_transaction_change.
  pose proof (f_equal (lookup (id p)) (refines_history _ _ _ Hs0)) as Hh. rewrite !lookup_fmap in Hh.
  destruct (by_id txs !! id p) as [tx'|] eqn:Ei.
  - apply by_id_lookup in Ei as [Hin Hi]; [|by apply valid_chain_nodup].
    destruct (Hr tx' p ltac:(set_solver) Hp (eq_sym Hi)) as (o & k & Hk & ->).
    destruct (transaction_history s0 !! _) as [c|]; [|done]. injection Hh as ->. simpl.
    pose proof (tx_ok_length _ (valid_chain_ok _ _ Ht Hin)). pose proof (lookup_lt_Some _ _ _ Hk).
    rewrite as_u16_small, Nat2Z.id, Hk by ints. eexists. split; [done|]. unfold our_output. simpl.
    symmetry. case_decide as Ha.
    + apply utxos_spec; [done|]. split; [|intros; by apply Hsp].
      exists tx'. split_and!; [set_solver | by exists k | done].
    + apply eq_None_not_Some. intros [o' Ho]. apply utxos_spec in Ho as [(t2 & Hin2 & (k2 & Hk2 & E) & Ha2) _]; [|done].
      assert (o = o') as ->; [|done].
      eapply (output_of_unique _ tx' t2); [exact Hd | set_solver | done | by exists k | by exists k2].
  - destruct (transaction_history s0 !! _); [done|]. eexists. split; [done|]. symmetry.
    apply eq_None_not_Some. intros [o Ho]. apply utxos_spec in Ho as [(t2 & Hin2 & (k2 & Hk2 & ->) & _) _]; [|done].
    apply elem_of_app in Hin2 as [Hin2|Hin2].
    + assert (by_id txs !! client_transaction_id t2 = Some t2); [|simpl in *; congruence].
      apply by_id_lookup; [by apply valid_chain_nodup | done].
    + apply (Hbatch _ Hp). simpl. apply list_elem_of_fmap. eauto.
Qed.

Lemma decorated ps i :
  ps ⊆ transaction_inputs tx →
  ∃ ins, decorate_inputs s0 ps i = Ok ins ∧ pointer <$> ins = ps
    ∧ our_output wallet <$> ins = (λ p, u !! p) <$> ps.
Proof.
  induction ps as [|p ps IH]; intros Hsub; [by exists []|].
  destruct (known_output p ltac:(set_solver)) as (out & Eo & Ho).
  destruct IH as (ins & Ei & Hp & Hi); [set_solver|].
  exists ({| pointer := p; in_output := out |} :: ins). split_and!.
  - simpl. by rewrite Eo, Ei.
  - by rewrite fmap_cons, Hp.
  - by rewrite !fmap_cons, Hi, Ho.
Qed.

Lemma handle_step m s block_height block_time :
  apply_memento s0 m = Ok s → refines wallet (txs ++ earlier) s → one_wallet u tx →
  wealth (ledger_step wallet u tx) ≤ MAX_COIN →
  ∃ m' s', handle_transaction wallet s0 m tx block_height block_time = Some (Ok m')
    ∧ apply_memento s0 m' = Ok s' ∧ refines wallet (txs ++ earlier ++ [tx]) s'.
Proof.
  intros Hm [Hun Hh Hb Hc] Hw Hu'.
  destruct (decorated (transaction_inputs tx) (client_transaction_id tx) ltac:(done)) as (ins & Ei & Hp & Ho).
  assert (∃ c, calculate_balance_change wallet (client_transaction_id tx) ins (transaction_outputs tx)
               = Some (Ok c)
             ∧ add_balance_change (balance s) c = Ok (wealth (ledger_step wallet u tx))) as (c & Ec & Ha).
  { rewrite Hb. destruct (decide (Forall (λ p, u !! p = None) (transaction_inputs tx))) as [Hn|Hn].
    - rewrite ledger_step_wealth, spend_all_none in * by done. apply incoming_change; [|done].
      assert (Hx : Forall (λ o, o = None) (our_output wallet <$> ins)) by (rewrite Ho; by apply Forall_fmap).
      by apply Forall_fmap in Hx.
    - destruct Hw as [|[Hs Hle]]; [done|].
      apply outgoing_change; try done; [intros E; apply Hn; rewrite E; constructor | unfold u; congruence]. }
  destruct (handled s0 ins c m s _ block_height block_time Ei Hp Ec Hm (conj Hun Hh) Ha) as (m' & s' & E & Hm' & [] & Hb').
  exists m', s'. split_and!; [done..|]. split; [done | done | | by rewrite Hb'].
  by rewrite Hb', app_assoc, utxos_snoc.
Qed.
End batch.

(** *** The loops *)

(** Every transaction of a batch spends outputs of one wallet, none that the batch
    itself creates, and leaves a worth that a coin can hold. *)
Definition batch_ok (wallet : Wallet) (txs batch : list Transaction) : Prop :=
  ∀ b1 tx b2, batch = b1 ++ tx :: b2 →
    (∀ p, p ∈ transaction_inputs tx → id p ∉ client_transaction_id <$> b1)
    ∧ one_wallet (utxos wallet (txs ++ b1)) tx
    ∧ wealth (utxos wallet (txs ++ b1 ++ [tx])) ≤ MAX_COIN.

(** What the loops keep: the memento so far leads to the state of the chain so far. *)
Definition follows (wallet : Wallet) (s0 : WalletState) (txs : list Transaction)
    (r : run SyncerLogicError (list MementoOperation)) : Prop :=
  ∃ m s, r = Some (Ok m) ∧ apply_memento s0 m = Ok s ∧ refines wallet txs s.

Lemma handle_transactions_follows wallet s0 txs l earlier rest m block_height block_time :
  refines wallet txs s0 → valid_chain (txs ++ earlier ++ l ++ rest) →
  batch_ok wallet txs (earlier ++ l ++ rest) →
  follows wallet s0 (txs ++ earlier) (Some (Ok m)) →
  follows wallet s0 (txs ++ earlier ++ l) (handle_transactions wallet s0 m l block_height block_time).
Proof.
  intros Hs0. revert earlier m. induction l as [|tx l IH]; intros earlier m Hv Hb Hm.
  { by rewrite app_nil_r. }
  destruct Hm as (m0 & s & [= <-] & Hm & Hs). destruct (Hb earlier tx (l ++ rest) eq_refl) as (Hbt & Hw & Hu).
  destruct (handle_step wallet txs earlier tx) with (s0 := s0) (m := m) (s := s) (block_height := block_height)
    (block_time := block_time) as (m' & s' & E & Hm' & Hs'); try done.
  { apply (valid_chain_prefix _ (l ++ rest)). by rewrite <- !app_assoc. }
  { by rewrite <- utxos_snoc, <- app_assoc. }
  simpl. rewrite E. cbn [run_bind]. replace (txs ++ earlier ++ tx :: l) with (txs ++ (earlier ++ [tx]) ++ l)
    by by rewrite <- !app_assoc.
  apply IH; [by rewrite <- !app_assoc in * | by rewrite <- !app_assoc in * |]. by exists m', s'.
Qed.

Lemma handle_blocks_follows wallet s0 txs blocks enclave_transactions earlier m :
  let batch := blocks ≫= block_transactions enclave_transactions in
  refines wallet txs s0 → valid_chain (txs ++ earlier ++ batch) → batch_ok wallet txs (earlier ++ batch) →
  follows wallet s0 (txs ++ earlier) (Some (Ok m)) →
  follows wallet s0 (txs ++ earlier ++ batch) (handle_blocks_loop wallet s0 m blocks enclave_transactions).
Proof.
  intros batch Hs0. revert earlier m. subst batch.
  induction blocks as [|b blocks IH]; intros earlier m Hv Hb Hm; simpl in *; [by rewrite app_nil_r|].
  destruct (handle_transactions_follows wallet s0 txs (block_transactions enclave_transactions b) earlier
    (blocks ≫= block_transactions enclave_transactions) m (fb_height b) (fb_time b) Hs0 Hv Hb Hm)
    as (m' & s' & E & Hm').
  rewrite E. cbn [run_bind].
  rewrite (app_assoc earlier). apply IH; [by rewrite <- !app_assoc in * | by rewrite <- !app_assoc in * |].
  by exists m', s'.
Qed.

Lemma handle_transactions_app wallet s0 m l l' block_height block_time :
  handle_transactions wallet s0 m (l ++ l') block_height block_time
  = (m' ?← handle_transactions wallet s0 m l block_height block_time;
     handle_transactions wallet s0 m' l' block_height block_time).
Proof.
  revert m. induction l as [|tx l IH]; intros m; simpl; [done|].
  destruct (handle_transaction _ _ _ _ _ _) as [[m'|]|]; simpl; [apply IH | done..].
Qed.

(** Inputs that refer to transactions that are not in the history stay undecorated. *)
Lemma undecorated s0 ps i :
  Forall (λ p, transaction_history s0 !! id p = None) ps →
  ∃ ins, decorate_inputs s0 ps i = Ok ins ∧ pointer <$> ins = ps
    ∧ Forall (λ x, in_output x = None) ins.
Proof.
  induction 1 as [|p ps Hp _ (ins & E & Hi & Hn)]; [by exists []|].
  exists ({| pointer := p; in_output := None |} :: ins). split_and!.
  - simpl. unfold get_output, get_transaction_change. by rewrite Hp, E.
  - by rewrite fmap_cons, Hi.
  - by constructor.
Qed.

Lemma history_fresh wallet txs s i :
  refines wallet txs s → valid_chain txs → i ∉ client_transaction_id <$> txs →
  transaction_history s !! i = None.
Proof.
  intros Hs Hv Hi. pose proof (f_equal (lookup i) (refines_history _ _ _ Hs)) as Hl. rewrite !lookup_fmap in Hl.
  destruct (transaction_history s !! i); [|done]. destruct (by_id txs !! i) as [tx|] eqn:E; [|done].
  apply by_id_lookup in E as [Hin <-]; [|by apply valid_chain_nodup].
  destruct Hi. by apply list_elem_of_fmap_2.
Qed.
End wallet.

(** ** The theorems *)

Section claims.
Context `{Hashes, Scale, Hex, BitVecLib, ClientKeys, TimeLib}.

(** C22. Synchronisation.  When the state of a wallet is the one of a chain and a batch
    of blocks extends the chain, without spending what the batch itself creates, the
    memento of the batch exists and applies, and gives the state of the longer chain:
    the unspent outputs are exactly those paid to the wallet and spent by nobody, and
    the balance is their sum. *)
Theorem sync_batch_sound wallet txs s blocks enclave_transactions :
  let batch := blocks ≫= block_transactions (by_id enclave_transactions) in
  refines wallet txs s → valid_chain (txs ++ batch) → batch_ok wallet txs batch →
  ∃ memento s', handle_blocks wallet s blocks enclave_transactions = Some (Ok memento)
    ∧ apply_memento s memento = Ok s' ∧ refines wallet (txs ++ batch) s'
    ∧ balance s' = map_sum out_value (unspent_transactions s')
    ∧ ∀ p o, unspent_transactions s' !! p = Some o
        ↔ (∃ tx, tx ∈ txs ++ batch ∧ output_of tx p o ∧ is_our_address wallet (out_address o))
          ∧ (∀ tx, tx ∈ txs ++ batch → p ∉ transaction_inputs tx).
Proof.
  intros batch Hs Hv Hb.
  destruct (handle_blocks_follows wallet s txs blocks (by_id enclave_transactions) [] [] Hs Hv Hb)
    as (m & s' & E & Hm & Hs').
  { exists [], s. by rewrite app_nil_r. }
  exists m, s'. destruct (Hs') as [Hu _ Hbal _]. rewrite Hu, Hbal. split_and!; [done..|].
  by apply utxos_spec.
Qed.

(** Spending within a batch.  When the last transaction of a block spends only
    outputs that earlier transactions of the same block pay to the wallet, the spent
    outputs are removed, but the balance still counts them. *)
Theorem same_batch_spend_overstates wallet txs s block enclave_transactions earlier tx :
  refines wallet txs s → valid_chain (txs ++ earlier ++ [tx]) → batch_ok wallet txs earlier →
  block_transactions (by_id enclave_transactions) block = earlier ++ [tx] →
  Forall (λ p, id p ∈ client_transaction_id <$> earlier) (transaction_inputs tx) →
  wealth (utxos wallet (txs ++ earlier)) + sum_ours wallet (transaction_outputs tx) ≤ MAX_COIN →
  ∃ memento s', handle_blocks wallet s [block] enclave_transactions = Some (Ok memento)
    ∧ apply_memento s memento = Ok s'
    ∧ unspent_transactions s' = utxos wallet (txs ++ earlier ++ [tx])
    ∧ balance s' = wealth (unspent_transactions s')
                   + (wealth (utxos wallet (txs ++ earlier))
                      - wealth (spend_all (utxos wallet (txs ++ earlier)) (transaction_inputs tx))).
Proof.
  intros Hs Hv Hb Eb Hin Hmax. assert (Hve : valid_chain (txs ++ earlier)).
  { apply (valid_chain_prefix _ [tx]). by rewrite <- app_assoc. }
  destruct (handle_transactions_follows wallet s txs earlier [] [] [] (fb_height block) (fb_time block) Hs)
    as (m & s1 & E & Hm & Hs1); [by rewrite app_nil_r | by rewrite app_nil_r | exists [], s; by rewrite app_nil_r |].
  destruct (undecorated s (transaction_inputs tx) (client_transaction_id tx)) as (ins & Ei & Hp & Hn).
  { apply (Forall_impl _ _ _ Hin). intros p Hi. apply (history_fresh wallet txs); [done| |].
    - by apply (valid_chain_prefix _ earlier).
    - intros Hc. pose proof (valid_chain_nodup _ Hve) as Hnd. rewrite fmap_app in Hnd.
      apply NoDup_app in Hnd as (_ & Hnd & _). exact (Hnd _ Hc Hi). }
  destruct (incoming_change wallet txs earlier tx Hv ins (balance s1)) as (c & Ec & Ha).
  { apply (Forall_impl _ _ _ Hn). intros x Hx. unfold our_output. by rewrite Hx. }
  { by rewrite (refines_balance _ _ _ Hs1). }
  destruct (handled wallet txs earlier tx Hv s ins c m s1 _ (fb_height block) (fb_time block) Ei Hp Ec Hm
              (conj (refines_unspent _ _ _ Hs1) (refines_history _ _ _ Hs1)) Ha)
    as (m' & s' & E' & Hm' & [Hu' _] & Hb').
  exists m', s'. unfold handle_blocks. simpl. rewrite Eb, handle_transactions_app. simpl in E. rewrite E.
  simpl. rewrite E'. split_and!; [done..|].
  rewrite Hb', Hu', app_assoc, utxos_snoc, (ledger_step_wealth wallet txs earlier tx Hv).
  rewrite (refines_balance _ _ _ Hs1). simpl. lia.
Qed.
End claims.

(** ** Witnesses *)

Module SyncExample.
Export ClientExample.
#[export] Existing Instance Ref.hex.
#[export] Existing Instance bit_vec_ref.

#[export] Instance time_ref : TimeLib.
Proof.
  refine {| Time := unit; to_rfc3339 _ := bstr "now"; time_from_str _ := Some tt |}; [by intros [] | intros _].
  split; [split; [vm_compute; discriminate | by repeat constructor] | reflexivity].
Defined.

Definition mine : H256 := replicate 32 Byte.x05.
Definition theirs : H256 := replicate 32 Byte.x09.
Definition wallet : Wallet :=
  {| wallet_view_key := (Byte.x07 : PublicKey); wallet_public_keys := []; wallet_staking_keys := [];
     root_hashes := [mine] |}.
Definition withdrawal : Transaction :=
  WithdrawUnbondedStakeTransaction
    {| withdraw_nonce := 1; withdraw_outputs := [tx_out_new (OrTree theirs) 12; tx_out_new (OrTree mine) 30];
       withdraw_attributes := tx_attributes_new 171 |}.
Definition payment : Transaction :=
  TransferTransaction
    {| inputs := [txo_pointer_new (client_transaction_id withdrawal) 1];
       outputs := [tx_out_new (OrTree mine) 20; tx_out_new (OrTree theirs) 9];
       attributes := tx_attributes_new 171 |}.
Definition block_of (l : list Transaction) : FilteredBlock :=
  {| fb_height := 7; fb_app_hash := []; fb_time := tt; valid_transaction_ids := client_transaction_id <$> l;
     fb_block_filter := filter_default; enclave_transaction_ids := client_transaction_id <$> l; staking_transactions := [] |}.

Lemma distinct : client_transaction_id withdrawal ≠ client_transaction_id payment.
Proof.
  apply (bool_decide_eq_false (client_transaction_id withdrawal = client_transaction_id payment)).
  vm_compute. reflexivity.
Qed.

Lemma chain_one : valid_chain [withdrawal].
Proof.
  apply (valid_snoc [] withdrawal valid_nil).
  - split; [repeat constructor; discriminate | vm_compute; discriminate | vm_compute; discriminate | constructor].
  - by intros []%not_elem_of_nil.
  - by intros tx p ->%list_elem_of_singleton []%not_elem_of_nil.
  - by intros tx p []%not_elem_of_nil.
  - by intros tx p []%not_elem_of_nil.
Qed.

Lemma chain_two : valid_chain [withdrawal; payment].
Proof.
  pose proof distinct as Hd.
  apply (valid_snoc [withdrawal] payment chain_one).
  - split; [repeat constructor; discriminate | vm_compute; discriminate | vm_compute; discriminate|].
    by apply NoDup_singleton.
  - intros E%list_elem_of_singleton. by apply Hd.
  - intros tx p [->|[->|[]%not_elem_of_nil]%elem_of_cons]%elem_of_cons Hp; [by apply not_elem_of_nil in Hp|].
    by apply list_elem_of_singleton in Hp as ->.
  - intros tx p ->%list_elem_of_singleton ->%list_elem_of_singleton _.
    by exists (tx_out_new (OrTree mine) 30), 1%nat.
  - by intros tx p ->%list_elem_of_singleton _ []%not_elem_of_nil.
Qed.

Lemma start : refines wallet [] wallet_state_default.
Proof. split; [done.. | vm_compute; discriminate]. Qed.
End SyncExample.

Module Example.
Import SyncExample.

Lemma payment_batch : batch_ok wallet [withdrawal] [payment].
Proof.
  intros [|? [|? ?]] tx b2 [= <- <-]. split_and!.
  - set_solver.
  - right. split.
    + repeat constructor. vm_compute. eexists. reflexivity.
    + apply Z.leb_le. vm_compute. reflexivity.
  - apply Z.leb_le. vm_compute. reflexivity.
Qed.

Lemma withdrawal_batch : batch_ok wallet [] [withdrawal].
Proof.
  intros [|? [|? ?]] tx b2 [= <- <-]. split_and!.
  - set_solver.
  - left. constructor.
  - apply Z.leb_le. vm_compute. reflexivity.
Qed.

Lemma sync_batch_sound_witness :
  ∃ s memento s', refines wallet [withdrawal] s
    ∧ handle_blocks wallet s [block_of []; block_of [payment]] [payment] = Some (Ok memento)
    ∧ apply_memento s memento = Ok s' ∧ balance s = 30 ∧ balance s' = 20
    ∧ unspent_transactions s' !! txo_pointer_new (client_transaction_id payment) 0
      = Some (tx_out_new (OrTree mine) 20).
Proof.
  destruct (sync_batch_sound wallet [] wallet_state_default [block_of [withdrawal]] [withdrawal] start
              chain_one withdrawal_batch) as (m & s & Em & Es & Hs & _).
  assert (Eb : [block_of []; block_of [payment]] ≫= block_transactions (by_id [payment]) = [payment])
    by (vm_compute; reflexivity).
  destruct (sync_batch_sound wallet [withdrawal] s [block_of []; block_of [payment]] [payment])
    as (m' & s' & Em' & Es' & Hs' & _).
  { exact Hs. } { rewrite Eb. exact chain_two. } { rewrite Eb. exact payment_batch. }
  rewrite Eb in Hs'. exists s, m', s'. split_and!; [exact Hs | exact Em' | exact Es' | | |].
  - rewrite (refines_balance _ _ _ Hs). vm_compute. reflexivity.
  - rewrite (refines_balance _ _ _ Hs'). vm_compute. reflexivity.
  - rewrite (refines_unspent _ _ _ Hs'). vm_compute. reflexivity.
Defined.

Lemma same_batch_spend_overstates_witness :
  ∃ memento s', handle_blocks wallet wallet_state_default [block_of [withdrawal; payment]] [withdrawal; payment]
                = Some (Ok memento)
    ∧ apply_memento wallet_state_default memento = Ok s'
    ∧ balance s' = 50 ∧ map_sum out_value (unspent_transactions s') = 20.
Proof.
  destruct (same_batch_spend_overstates wallet [] wallet_state_default (block_of [withdrawal; payment])
              [withdrawal; payment] [withdrawal] payment start chain_two withdrawal_batch)
    as (m & s' & Em & Es & Hu & Hb).
  { vm_compute. reflexivity. }
  { repeat constructor. }
  { apply Z.leb_le. vm_compute. reflexivity. }
  exists m, s'. rewrite Hu in *. split_and!; [exact Em | exact Es | | vm_compute; reflexivity].
  rewrite Hb. vm_compute. reflexivity.
Defined.
End Example.
