(* ===== verification/ClientStorage.v ===== *)
(** * ClientStorage: the key-value storage of the client and its encrypted layer

    [client-common/src/storage.rs] with the memory storage of
    [storage/memory_storage.rs].  The trait [Storage] is the class [Store], what an
    implementation promises is [StoreLaws], and the memory storage is an instance.
    The encrypted layer is defined on the class.

    The theorems: the memory storage keeps the laws; what is stored under a passphrase
    is read back under it and nothing else changes, and an access under a passphrase
    that does not open the stored value is refused and changes nothing. *)

From stdpp Require Import base tactics option list gmap strings.
From Stdlib Require Import ZArith Lia.
From S2P Require Import Prelude Text Codec Crypto Client.

(** The random numbers of the operating system. *)
Class OsRng := {
  Entropy : Type;
  os_fill : Entropy → nat → list byte * Entropy;
  os_fill_length e n : length (os_fill e n).1 = n;
}.

(** ** Stateful code that can fail *)

(** [None] is a panic; an error keeps the changes made before it. *)
Definition sem (T A : Type) : Type := T → option (result ErrorKind A * T).

#[global] Instance sem_bind {T} : MBind (sem T) := λ A B k m s,
  match m s with
  | Some (Ok a, s') => k a s'
  | Some (Err e, s') => Some (Err e, s')
  | None => None
  end.
#[global] Instance sem_ret {T} : MRet (sem T) := λ A a s, Some (Ok a, s).

Definition throw {T A} (e : ErrorKind) : sem T A := λ s, Some (Err e, s).
Definition panic {T A} : sem T A := λ _, None.
(** Code without state. *)
Definition pure_run {T A} (r : run ErrorKind A) : sem T A := λ s,
  match r with Some x => Some (x, s) | None => None end.
Definition pure_res {T A} (r : result ErrorKind A) : sem T A := λ s, Some (r, s).

Section storage.
Context `{OsRng}.

(** The storage and the source of randomness. *)
Record World (S : Type) := MkWorld { disk : S; entropy : Entropy }.
#[global] Arguments MkWorld {S} _ _.
#[global] Arguments disk {S} _.
#[global] Arguments entropy {S} _.

Definition io (S A : Type) : Type := sem (World S) A.

(** Code that only draws randomness. *)
Definition with_entropy {S A} (m : sem Entropy A) : io S A := λ w,
  match m (entropy w) with
  | Some (r, e) => Some (r, MkWorld (disk w) e)
  | None => None
  end.

(** ** The trait [Storage] *)

Class Store (S : Type) := {
  store_clear : list byte → io S unit;
  store_get : list byte → list byte → io S (option (list byte));
  store_set : list byte → list byte → list byte → io S (option (list byte));
  store_delete : list byte → list byte → io S (option (list byte));
  store_update : list byte → list byte → (option (list byte) → sem Entropy (option (list byte))) →
    io S (option (list byte));
  store_keys : list byte → io S (list (list byte));
  store_contains_key : list byte → list byte → io S bool;
  store_keyspaces : io S (list (list byte));
}.

(** The new storage differs from the old one in one keyspace. *)
Definition differs_in {S} (view : S → list byte → gmap (list byte) (list byte)) (d d' : S)
    (keyspace : list byte) (m : gmap (list byte) (list byte)) : Prop :=
  view d' keyspace = m ∧ ∀ other, other ≠ keyspace → view d' other = view d other.

Class StoreLaws (S : Type) `{Store S} := {
  store_view : S → list byte → gmap (list byte) (list byte);
  clear_law keyspace w : ∃ d, store_clear keyspace w = Some (Ok tt, MkWorld d (entropy w))
    ∧ differs_in store_view (disk w) d keyspace ∅;
  get_law keyspace key w :
    store_get keyspace key w = Some (Ok (store_view (disk w) keyspace !! key), w);
  set_law keyspace key value w : ∃ d,
    store_set keyspace key value w
      = Some (Ok (store_view (disk w) keyspace !! key), MkWorld d (entropy w))
    ∧ differs_in store_view (disk w) d keyspace (<[key := value]> (store_view (disk w) keyspace));
  delete_law keyspace key w : ∃ d,
    store_delete keyspace key w
      = Some (Ok (store_view (disk w) keyspace !! key), MkWorld d (entropy w))
    ∧ differs_in store_view (disk w) d keyspace (delete key (store_view (disk w) keyspace));
  update_law keyspace key f w :
    match f (store_view (disk w) keyspace !! key) (entropy w) with
    | None => store_update keyspace key f w = None
    | Some (Err e, r) => ∃ d, store_update keyspace key f w = Some (Err e, MkWorld d r)
        ∧ ∀ other, store_view d other = store_view (disk w) other
    | Some (Ok next, r) => ∃ d,
        store_update keyspace key f w = Some (Ok (store_view (disk w) keyspace !! key), MkWorld d r)
        ∧ differs_in store_view (disk w) d keyspace
            (partial_alter (λ _, next) key (store_view (disk w) keyspace))
    end;
  keys_law keyspace w : ∃ l, store_keys keyspace w = Some (Ok l, w)
    ∧ ∀ key, key ∈ l ↔ is_Some (store_view (disk w) keyspace !! key);
  contains_law keyspace key w :
    store_contains_key keyspace key w
    = Some (Ok (bool_decide (is_Some (store_view (disk w) keyspace !! key))), w);
}.

(** ** The memory storage *)

Abbreviation MemoryStorage := (gmap (list byte) (gmap (list byte) (list byte))) (only parsing).

Definition memory_clear (keyspace : list byte) : io MemoryStorage unit := λ w,
  Some (Ok tt, MkWorld (alter (λ _, ∅) keyspace (disk w)) (entropy w)).

Definition memory_get (keyspace key : list byte) : io MemoryStorage (option (list byte)) := λ w,
  Some (Ok (space ← disk w !! keyspace; space !! key), w).

(** The keyspace, after adding it when it is missing. *)
Definition memory_space (memory : MemoryStorage) (keyspace : list byte) :
  MemoryStorage * gmap (list byte) (list byte) :=
  match memory !! keyspace with
  | Some space => (memory, space)
  | None => (<[keyspace := ∅]> memory, ∅)
  end.

Definition memory_set (keyspace key value : list byte) : io MemoryStorage (option (list byte)) := λ w,
  let '(memory, space) := memory_space (disk w) keyspace in
  Some (Ok (space !! key), MkWorld (<[keyspace := <[key := value]> space]> memory) (entropy w)).

Definition memory_delete (keyspace key : list byte) : io MemoryStorage (option (list byte)) := λ w,
  Some (Ok (space ← disk w !! keyspace; space !! key),
        MkWorld (alter (delete key) keyspace (disk w)) (entropy w)).

Definition memory_fetch_and_update (keyspace key : list byte)
    (f : option (list byte) → sem Entropy (option (list byte))) : io MemoryStorage (option (list byte)) := λ w,
  let '(memory, space) := memory_space (disk w) keyspace in
  match f (space !! key) (entropy w) with
  | None => None
  | Some (Err e, r) => Some (Err e, MkWorld memory r)
  | Some (Ok None, r) => Some (Ok (space !! key), MkWorld (<[keyspace := delete key space]> memory) r)
  | Some (Ok (Some next), r) =>
      Some (Ok (space !! key), MkWorld (<[keyspace := <[key := next]> space]> memory) r)
  end.

(** The order of the keys of a [HashMap] is not specified. *)
Definition memory_keys (keyspace : list byte) : io MemoryStorage (list (list byte)) := λ w,
  Some (Ok (match disk w !! keyspace with Some space => (map_to_list space).*1 | None => [] end), w).

Definition memory_contains_key (keyspace key : list byte) : io MemoryStorage bool := λ w,
  Some (Ok (match disk w !! keyspace with
            | Some space => bool_decide (is_Some (space !! key)) | None => false end), w).

Definition memory_keyspaces : io MemoryStorage (list (list byte)) := λ w,
  Some (Ok (map_to_list (disk w)).*1, w).

#[global] Instance memory_store : Store MemoryStorage := {|
  store_clear := memory_clear; store_get := memory_get; store_set := memory_set;
  store_delete := memory_delete; store_update := memory_fetch_and_update; store_keys := memory_keys;
  store_contains_key := memory_contains_key; store_keyspaces := memory_keyspaces |}.

Definition memory_view (m : MemoryStorage) (keyspace : list byte) : gmap (list byte) (list byte) :=
  default ∅ (m !! keyspace).

(** An access to a keyspace, seen through the view. *)
Lemma memory_space_spec m keyspace :
  ∃ m', memory_space m keyspace = (m', memory_view m keyspace)
    ∧ ∀ other, memory_view m' other = memory_view m other.
Proof.
  unfold memory_space, memory_view. destruct (m !! keyspace) as [space|] eqn:E; eexists; (split; [done|]); [done|].
  intros other. destruct (decide (other = keyspace)) as [->|Hne].
  - by rewrite lookup_insert_eq, E.
  - by rewrite lookup_insert_ne.
Qed.

Lemma memory_view_insert m m' keyspace space :
  (∀ other, memory_view m' other = memory_view m other) →
  differs_in memory_view m (<[keyspace := space]> m') keyspace space.
Proof.
  intros Hm. unfold memory_view in *. split; [by rewrite lookup_insert_eq|].
  intros other Hne. by rewrite lookup_insert_ne.
Qed.

Lemma memory_view_alter m keyspace f :
  f ∅ = ∅ → differs_in memory_view m (alter f keyspace m) keyspace (f (memory_view m keyspace)).
Proof.
  intros Hf. unfold memory_view. split.
  - rewrite lookup_alter_eq. by destruct (m !! keyspace).
  - intros other Hne. by rewrite lookup_alter_ne.
Qed.

#[global] Instance memory_laws : StoreLaws MemoryStorage.
Proof.
  refine {| store_view := memory_view |}.
  - intros ks w. eexists. split; [done|]. by apply (memory_view_alter (disk w) ks (λ _, ∅)).
  - intros ks k w. unfold store_get, memory_store, memory_get, memory_view. by destruct (disk w !! ks).
  - intros ks k v w. cbn. unfold memory_set. destruct (memory_space_spec (disk w) ks) as (m' & -> & Hm).
    eexists. split; [done | by apply memory_view_insert].
  - intros ks k w. cbn. unfold memory_delete. eexists. split.
    + unfold memory_view. by destruct (disk w !! ks).
    + apply (memory_view_alter (disk w) ks (delete k)), delete_empty.
  - intros ks k f w. cbn. unfold memory_fetch_and_update.
    destruct (memory_space_spec (disk w) ks) as (m' & -> & Hm).
    destruct (f _ _) as [[[[next|]|e] r]|]; [| | |done].
    + eexists. split; [done | by apply memory_view_insert].
    + eexists. split; [done | by apply memory_view_insert].
    + eexists. by split.
  - intros ks w. eexists. split; [done|]. intros k. unfold memory_view. destruct (disk w !! ks) as [space|]; simpl.
    + rewrite list_elem_of_fmap. split.
      * intros ([k' v] & -> & Hin%elem_of_map_to_list). by exists v.
      * intros [v Hv]. exists (k, v). by rewrite elem_of_map_to_list.
    + rewrite lookup_empty. split; [by intros ?%not_elem_of_nil | by intros []].
  - intros ks k w. cbn. unfold memory_contains_key, memory_view. by destruct (disk w !! ks).
Defined.
End storage.

(** ** The encrypted layer *)

Section secure.
Context `{OsRng, Hashes, Aead}.

Definition NONCE_SIZE : nat := 12.

(** The key of the cipher. *)
Definition get_algo (passphrase : str) : list byte := blake2s passphrase.

Definition encrypt_bytes (key : list byte) (passphrase : str) (bytes : list byte) :
  sem Entropy (list byte) := λ e,
  let '(nonce, e) := os_fill e NONCE_SIZE in
  match aead_encrypt (get_algo passphrase) nonce key bytes with
  | Some c => Some (Ok (nonce ++ c), e)
  | None => Some (Err Kind.EncryptionError, e)
  end.

(** The slices panic on fewer bytes than a nonce. *)
Definition decrypt_bytes (key : list byte) (passphrase : str) (bytes : list byte) :
  run ErrorKind (list byte) :=
  if decide (length bytes < NONCE_SIZE)%nat then None
  else match aead_decrypt (get_algo passphrase) (take NONCE_SIZE bytes) key (drop NONCE_SIZE bytes) with
       | Some msg => Some (Ok msg)
       | None => Some (Err Kind.DecryptionError)
       end.

(** [Option::map(decrypt).transpose()]. *)
Definition decrypt_option (key : list byte) (passphrase : str) (o : option (list byte)) :
  run ErrorKind (option (list byte)) :=
  match o with
  | Some bytes => msg ?← decrypt_bytes key passphrase bytes; Some (Ok (Some msg))
  | None => Some (Ok None)
  end.

Context {S : Type} `{!Store S}.

Definition get_secure (keyspace key : list byte) (passphrase : str) : io S (option (list byte)) :=
  value ← store_get keyspace key;
  pure_run (decrypt_option key passphrase value).

Definition set_secure (keyspace key value : list byte) (passphrase : str) : io S (option (list byte)) :=
  old_value ← get_secure keyspace key passphrase;
  cipher ← with_entropy (encrypt_bytes key passphrase value);
  _ ← store_set keyspace key cipher;
  mret old_value.

(** The closure of [fetch_and_update_secure]. *)
Definition secure_update (key : list byte) (passphrase : str)
    (f : option (list byte) → run ErrorKind (option (list byte))) (current : option (list byte)) :
  sem Entropy (option (list byte)) :=
  opened ← (pure_run (match decrypt_option key passphrase current with
                      | Some r => Some (chain_err Kind.DecryptionError r)
                      | None => None
                      end) : sem Entropy (option (list byte)));
  next ← pure_run (f opened);
  match next with
  | Some next => cipher ← encrypt_bytes key passphrase next; mret (Some cipher)
  | None => mret None
  end.

Definition fetch_and_update_secure (keyspace key : list byte) (passphrase : str)
    (f : option (list byte) → run ErrorKind (option (list byte))) : io S (option (list byte)) :=
  store_update keyspace key (secure_update key passphrase f).

(** [load], [save] and their encrypted forms. *)
Definition decode_or_err {A} (c : codec A) (o : option (list byte)) : result ErrorKind (option A) :=
  match o with
  | Some bytes => chain_none Kind.DeserializationError (Some <$> decode c bytes)
  | None => Ok None
  end.

Definition store_load {A} (c : codec A) (keyspace key : list byte) : io S (option A) :=
  o ← store_get keyspace key; pure_res (decode_or_err c o).
Definition store_save {A} (c : codec A) (keyspace key : list byte) (value : A) : io S unit :=
  _ ← store_set keyspace key (enc c value); mret tt.
Definition load_secure {A} (c : codec A) (keyspace key : list byte) (passphrase : str) : io S (option A) :=
  o ← get_secure keyspace key passphrase; pure_res (decode_or_err c o).
Definition save_secure {A} (c : codec A) (keyspace key : list byte) (passphrase : str) (value : A) :
  io S unit :=
  _ ← set_secure keyspace key (enc c value) passphrase; mret tt.

(** ** What the encrypted layer promises *)

Context `{!AeadLaws, !StoreLaws S}.

(** What a key holds, read under a passphrase. *)
Definition reads (d : S) (keyspace key : list byte) (passphrase : str) (o : option (list byte)) : Prop :=
  decrypt_option key passphrase (store_view d keyspace !! key) = Some (Ok o).

(** Nothing but one key has changed. *)
Definition same_but (d d' : S) (keyspace key : list byte) : Prop :=
  ∀ ks k, (ks, k) ≠ (keyspace, key) → store_view d' ks !! k = store_view d ks !! k.

Lemma reads_same_but d d' keyspace key ks k passphrase o :
  same_but d d' keyspace key → (ks, k) ≠ (keyspace, key) →
  reads d ks k passphrase o → reads d' ks k passphrase o.
Proof. intros Hs Hne. unfold reads. by rewrite (Hs ks k Hne). Qed.

Lemma encrypt_any key passphrase bytes e :
  ∃ r e', encrypt_bytes key passphrase bytes e = Some (r, e')
    ∧ (∀ c, r = Ok c → decrypt_bytes key passphrase c = Some (Ok bytes) ∧ (NONCE_SIZE ≤ length c)%nat)
    ∧ (Z.of_nat (length bytes) ≤ U32_MAX → ∃ c, r = Ok c).
Proof.
  unfold encrypt_bytes. pose proof (os_fill_length e NONCE_SIZE) as Hn.
  destruct (os_fill e NONCE_SIZE) as [nonce e']. cbn [fst] in Hn.
  destruct (aead_encrypt (get_algo passphrase) nonce key bytes) as [c|] eqn:Ec.
  - eexists _, _. split; [done|]. split; [|by eexists]. intros c' [= <-]. unfold decrypt_bytes.
    rewrite length_app, Hn, decide_False by lia. rewrite take_app_length', drop_app_length' by done.
    rewrite (aead_decrypt_encrypt _ _ _ _ _ Ec). split; [done | lia].
  - eexists _, _. split; [done|]. split; [done|]. intros Hl.
    destruct (aead_encrypt_total (get_algo passphrase) nonce key bytes Hl). congruence.
Qed.

Lemma get_secure_eq keyspace key passphrase w :
  get_secure keyspace key passphrase w
  = pure_run (decrypt_option key passphrase (store_view (disk w) keyspace !! key)) w.
Proof. unfold get_secure, mbind, sem_bind. by rewrite get_law. Qed.

Lemma get_secure_reads keyspace key passphrase w o :
  reads (disk w) keyspace key passphrase o → get_secure keyspace key passphrase w = Some (Ok o, w).
Proof. intros Hr. by rewrite get_secure_eq, Hr. Qed.

(** Setting a value: it is stored, or the encryption fails and nothing changes. *)
Lemma set_secure_any keyspace key passphrase value w old :
  reads (disk w) keyspace key passphrase old →
  ∃ r w', set_secure keyspace key value passphrase w = Some (r, w')
    ∧ match r with
      | Ok o => o = old ∧ reads (disk w') keyspace key passphrase (Some value)
          ∧ same_but (disk w) (disk w') keyspace key
          ∧ ∀ passphrase', is_Some (decrypt_option key passphrase' (store_view (disk w') keyspace !! key))
      | Err _ => disk w' = disk w
      end
    ∧ (Z.of_nat (length value) ≤ U32_MAX → r = Ok old).
Proof.
  intros Hr. unfold set_secure. unfold mbind at 1, sem_bind at 1. rewrite (get_secure_reads _ _ _ _ _ Hr).
  destruct (encrypt_any key passphrase value (entropy w)) as ([c|err] & e' & Ec & Hd & Ht);
    unfold mbind, sem_bind, with_entropy; rewrite Ec; cbn [disk entropy].
  - destruct (Hd c eq_refl) as [Hdc Hn].
    destruct (set_law keyspace key c (MkWorld (disk w) e')) as (d & -> & Hk & Ho).
    eexists _, _. split; [done|]. cbn [disk entropy] in *. split; [|done]. split_and!; [done| | |].
    + unfold reads. rewrite Hk, lookup_insert_eq. cbn [decrypt_option]. by rewrite Hdc.
    + intros ks k Hne. destruct (decide (ks = keyspace)) as [->|Hks]; [|by rewrite Ho].
      rewrite Hk, lookup_insert_ne; [done|]. intros <-. done.
    + intros passphrase'. rewrite Hk, lookup_insert_eq. cbn [decrypt_option]. unfold decrypt_bytes.
      rewrite decide_False by lia. destruct (aead_decrypt _ _ _ _); by eexists.
  - eexists _, _. split; [done|]. split; [done|]. intros Hl. by destruct (Ht Hl).
Qed.

Lemma set_secure_reads keyspace key passphrase value w old :
  reads (disk w) keyspace key passphrase old → Z.of_nat (length value) ≤ U32_MAX →
  ∃ w', set_secure keyspace key value passphrase w = Some (Ok old, w')
    ∧ reads (disk w') keyspace key passphrase (Some value) ∧ same_but (disk w) (disk w') keyspace key
    ∧ ∀ passphrase', is_Some (decrypt_option key passphrase' (store_view (disk w') keyspace !! key)).
Proof.
  intros Hr Hl. destruct (set_secure_any keyspace key passphrase value w old Hr) as (r & w' & Es & Hm & Ht).
  rewrite (Ht Hl) in *. exists w'. by destruct Hm as (_ & ? & ? & ?).
Qed.

Lemma update_secure_any keyspace key passphrase f w old value :
  reads (disk w) keyspace key passphrase old → f old = Some (Ok (Some value)) →
  ∃ r w', fetch_and_update_secure keyspace key passphrase f w = Some (r, w')
    ∧ match r with
      | Ok o => reads (disk w') keyspace key passphrase (Some value) ∧ same_but (disk w) (disk w') keyspace key
          ∧ o = store_view (disk w) keyspace !! key
      | Err _ => ∀ other, store_view (disk w') other = store_view (disk w) other
      end
    ∧ (Z.of_nat (length value) ≤ U32_MAX → ∃ o, r = Ok o).
Proof.
  intros Hr Hf. unfold fetch_and_update_secure.
  destruct (encrypt_any key passphrase value (entropy w)) as (rc & e' & Ec & Hd & Ht).
  pose proof (update_law keyspace key (secure_update key passphrase f) w) as Hu.
  assert (Hc : secure_update key passphrase f (store_view (disk w) keyspace !! key) (entropy w)
               = Some (match rc with Ok c => Ok (Some c) | Err err => Err err end, e')).
  { unfold secure_update. rewrite Hr. unfold mbind, sem_bind, pure_run. cbn [chain_err]. rewrite Hf, Ec.
    by destruct rc. }
  rewrite Hc in Hu. destruct rc as [c|err].
  - destruct (Hd c eq_refl) as [Hdc _]. destruct Hu as (d & Hu & Hk & Ho). rewrite Hu.
    eexists _, _. split; [done|]. cbn [disk entropy] in *. split; [|by eexists]. split_and!; [| |done].
    + unfold reads. rewrite Hk, lookup_partial_alter_eq. cbn [decrypt_option]. by rewrite Hdc.
    + intros ks k Hne. destruct (decide (ks = keyspace)) as [->|Hks]; [|by rewrite Ho].
      rewrite Hk, lookup_partial_alter_ne; [done|]. intros <-. done.
  - destruct Hu as (d & Hu & Ho). rewrite Hu. eexists _, _. split; [done|]. split; [done|].
    intros Hl. by destruct (Ht Hl).
Qed.

(** A closure that fails, and a passphrase that does not open the value. *)
Lemma update_secure_fails keyspace key passphrase f w e :
  (∃ old, reads (disk w) keyspace key passphrase old ∧ f old = Some (Err e))
  ∨ (∃ e', decrypt_option key passphrase (store_view (disk w) keyspace !! key) = Some (Err e')
           ∧ e = Kind.DecryptionError) →
  ∃ d, fetch_and_update_secure keyspace key passphrase f w = Some (Err e, MkWorld d (entropy w))
    ∧ ∀ other, store_view d other = store_view (disk w) other.
Proof.
  intros Hf. unfold fetch_and_update_secure.
  pose proof (update_law keyspace key (secure_update key passphrase f) w) as Hu.
  assert (Hc : secure_update key passphrase f (store_view (disk w) keyspace !! key) (entropy w)
               = Some (Err e, entropy w)).
  { unfold secure_update, mbind, sem_bind, pure_run. destruct Hf as [(old & Hr & Ef) | (e' & Hr & ->)].
    - rewrite Hr. cbn [chain_err]. by rewrite Ef.
    - by rewrite Hr. }
  by rewrite Hc in Hu.
Qed.

Lemma decrypt_option_err key passphrase o e :
  decrypt_option key passphrase o = Some (Err e) → e = Kind.DecryptionError.
Proof.
  destruct o as [bytes|]; cbn [decrypt_option]; [|done]. unfold decrypt_bytes. case_decide; [done|].
  destruct (aead_decrypt _ _ _ _); cbn; congruence.
Qed.

(** C23. The encrypted storage.  A value that is set under the passphrase of its key is
    read back under it, and no other key changes; an update whose function fails
    changes nothing.  An access under another passphrase either opens the value with the
    other passphrase's key, or is refused with a decryption error, whatever it is, and
    changes nothing. *)
Theorem secure_store_sound keyspace key passphrase value w old :
  reads (disk w) keyspace key passphrase old → Z.of_nat (length value) ≤ U32_MAX →
  ∃ w', set_secure keyspace key value passphrase w = Some (Ok old, w')
    ∧ get_secure keyspace key passphrase w' = Some (Ok (Some value), w')
    ∧ same_but (disk w) (disk w') keyspace key
    ∧ (∀ f e, f (Some value) = Some (Err e) →
        ∃ d, fetch_and_update_secure keyspace key passphrase f w' = Some (Err e, MkWorld d (entropy w'))
          ∧ ∀ other, store_view d other = store_view (disk w') other)
    ∧ ∀ passphrase',
        (∃ opened, reads (disk w') keyspace key passphrase' opened)
        ∨ (get_secure keyspace key passphrase' w' = Some (Err Kind.DecryptionError, w')
           ∧ (∀ v, set_secure keyspace key v passphrase' w' = Some (Err Kind.DecryptionError, w'))
           ∧ ∀ f, ∃ d, fetch_and_update_secure keyspace key passphrase' f w'
                       = Some (Err Kind.DecryptionError, MkWorld d (entropy w'))
               ∧ ∀ other, store_view d other = store_view (disk w') other).
Proof.
  intros Hr Hl. destruct (set_secure_reads _ _ _ _ _ _ Hr Hl) as (w' & Es & Hr' & Hsame & Hp).
  exists w'. split_and!; [done | by apply get_secure_reads | done | |].
  - intros f e Hf. apply update_secure_fails. eauto.
  - intros passphrase'. destruct (Hp passphrase') as [[o|e] Ho]; [left; by exists o | right].
    pose proof (decrypt_option_err _ _ _ _ Ho) as ->.
    assert (Eg : get_secure keyspace key passphrase' w' = Some (Err Kind.DecryptionError, w'))
      by by rewrite get_secure_eq, Ho.
    split_and!; [done | |].
    + intros v. unfold set_secure, mbind, sem_bind. by rewrite Eg.
    + intros f. apply update_secure_fails. eauto.
Qed.
End secure.

(** ** Witness *)

Module StorageExample.
#[export] Existing Instances Ref.hashes Ref.aead Ref.aead_laws.
#[export] Instance rng_ref : OsRng := {|
  Entropy := unit; os_fill := λ _ n, (replicate n Byte.x07, tt);
  os_fill_length := λ _ n, length_replicate n Byte.x07 |}.

Definition fresh : World (gmap (list byte) (gmap (list byte) (list byte))) := MkWorld ∅ tt.
End StorageExample.

Section example.
Import StorageExample.

Lemma secure_store_sound_witness :
  ∃ w', set_secure (bstr "core_wallet") (bstr "name") [Byte.x01] (bstr "secret") fresh = Some (Ok None, w')
    ∧ get_secure (bstr "core_wallet") (bstr "name") (bstr "secret") w' = Some (Ok (Some [Byte.x01]), w')
    ∧ get_secure (bstr "core_wallet") (bstr "name") (bstr "wrong") w'
      = Some (Err Kind.DecryptionError, w').
Proof.
  destruct (secure_store_sound (bstr "core_wallet") (bstr "name") (bstr "secret") [Byte.x01] fresh None)
    as (w' & Es & Eg & _ & _ & Hp).
  { vm_compute. reflexivity. }
  { vm_compute. discriminate. }
  exists w'. split; [exact Es|]. split; [exact Eg|].
  destruct (Hp (bstr "wrong")) as [[opened Ho] | (Eg' & _)]; [|exact Eg'].
  exfalso. assert (Ew : w' = match set_secure (bstr "core_wallet") (bstr "name") [Byte.x01] (bstr "secret") fresh with
                        | Some (_, w) => w | None => fresh end) by by rewrite Es.
  rewrite Ew in Ho. vm_compute in Ho. discriminate Ho.
Defined.
End example.
