(* ===== verification/MultiSig.v ===== *)
(** * MultiSig: the sessions in which co-signers produce one signature

    [client-core/src/service/multi_sig_session_service.rs]: a session as it is stored,
    what each of its operations does, and the service that keeps sessions in the
    encrypted storage.  The MuSig protocol of [secp256k1] is an interface with the
    documented course of the protocol as its law.

    The theorems: whatever operations are called, in whatever order, nothing that a
    session has recorded changes, a nonce is given out only when every commitment is
    recorded, and a partial signature only when every nonce is; and a session follows
    an abstract machine that counts what it has received, at whose end the signature of
    the group verifies. *)

From stdpp Require Import base tactics option list gmap strings sorting.
From Stdlib Require Import ZArith Lia.
From S2P Require Import Prelude Text Codec Crypto Merkle Account TxTypes Validation Client ClientStorage.

(** ** [slice::binary_search_by] of the standard library *)

Fixpoint bsearch_loop {A} (fuel : nat) (f : A → comparison) (l : list A) (base size : nat) : nat :=
  match fuel with
  | O => base
  | S fuel =>
      if decide (1 < size)%nat then
        let half := Nat.div2 size in
        let mid := (base + half)%nat in
        let base := match f <$> l !! mid with Some Gt => base | _ => mid end in
        bsearch_loop fuel f l base (size - half)
      else base
  end.

Definition binary_search_by {A} (f : A → comparison) (l : list A) : option nat :=
  match l with
  | [] => None
  | _ => let base := bsearch_loop (length l) f l 0 (length l) in
         match f <$> l !! base with Some Eq => Some base | _ => None end
  end.

Definition key_cmp {K} `{OrdKey K} `{EqDecision K} (a b : K) : comparison :=
  if decide (a = b) then Eq else if key_leb a b then Lt else Gt.

(** ** The MuSig protocol of the library *)

Class MuSig `{ClientKeys} := {
  MuSigState : Type;
  PartialSignature : Type;
  (** Session identifier, message, combined key and its hash, number of signers, own
      index and secret key. *)
  musig_new : H256 → H256 → PublicKey → H256 → nat → nat → PrivateKey → option MuSigState;
  get_my_nonce_commitment : MuSigState → H256;
  set_nonce_commitment : MuSigState → H256 → nat → MuSigState;
  get_public_nonce : MuSigState → option (PublicKey * MuSigState);
  set_nonce : MuSigState → nat → PublicKey → option MuSigState;
  combine_nonces : MuSigState → option MuSigState;
  partial_sign : MuSigState → option (H256 * MuSigState);
  partial_signature_from : H256 → option PartialSignature;
  partial_sig_combine : MuSigState → list PartialSignature → option SchnorrSignature;
}.

(** Setting the values of all signers, in the order of their indices from [k]. *)
Fixpoint install_commitments `{MuSig} (k : nat) (s : MuSigState) (l : list H256) : MuSigState :=
  match l with
  | [] => s
  | c :: l => install_commitments (k + 1) (set_nonce_commitment s c k) l
  end.
Fixpoint install_nonces `{MuSig} (k : nat) (s : MuSigState) (l : list PublicKey) : option MuSigState :=
  match l with
  | [] => Some s
  | n :: l => s ← set_nonce s k n; install_nonces (k + 1) s l
  end.

(** The documented course of the protocol: signers with sessions of their own, who
    exchange their commitments, then their nonces, then their partial signatures, all
    get a signature that verifies under the combined key. *)
Class MuSigLaws `{MuSig} : Prop := {
  nonce_commitment_length s : length (get_my_nonce_commitment s) = 32%nat;
  partial_sign_length s p s' : partial_sign s = Some (p, s') → length p = 32%nat;
  combined_hash_length l k h : pubkey_combine l = Ok (k, h) → length h = 32%nat;
  musig_protocol msg ids sks ck ckh :
    length msg = 32%nat → Forall (λ i, length i = 32%nat) ids → length ids = length sks →
    (2 ≤ length sks)%nat → pubkey_combine (pk_from_secret_key <$> sks) = Ok (ck, ckh) →
    ∃ commitments nonces partials,
      length commitments = length sks ∧ length nonces = length sks ∧ length partials = length sks
      ∧ ∀ i id sk, ids !! i = Some id → sks !! i = Some sk →
        ∃ s s1 s2 s3 s4 nonce partial sigs sig,
          musig_new id msg ck ckh (length sks) i sk = Some s
          ∧ commitments !! i = Some (get_my_nonce_commitment s)
          ∧ nonces !! i = Some nonce
          ∧ get_public_nonce (install_commitments 0 s commitments) = Some (nonce, s1)
          ∧ install_nonces 0 s1 nonces = Some s2 ∧ combine_nonces s2 = Some s3
          ∧ partials !! i = Some partial ∧ partial_sign s3 = Some (partial, s4)
          ∧ mapM partial_signature_from partials = Some sigs ∧ partial_sig_combine s4 sigs = Some sig
          ∧ schnorr_verify msg sig ck = Ok ();
}.

Section session.
Context `{Hashes, Scale, MuSig}.

(** ** A session *)

Record Signer := {
  sg_public_key : PublicKey;
  sg_nonce_commitment : option H256;
  sg_nonce : option PublicKey;
  sg_partial_signature : option H256;
}.

Record MultiSigSession := {
  ses_id : H256;
  ses_message : H256;
  ses_signers : list Signer;
  ses_public_key : PublicKey;
  ses_private_key : PrivateKey;
  combined_public_key : PublicKey;
  combined_public_key_hash : H256;
}.

Definition with_signers (self : MultiSigSession) (l : list Signer) : MultiSigSession :=
  {| ses_id := ses_id self; ses_message := ses_message self; ses_signers := l;
     ses_public_key := ses_public_key self; ses_private_key := ses_private_key self;
     combined_public_key := combined_public_key self;
     combined_public_key_hash := combined_public_key_hash self |}.

Definition signer_add_nonce_commitment (self : Signer) (nonce_commitment : H256) : result ErrorKind Signer :=
  match sg_nonce_commitment self with
  | Some _ => Err Kind.InvalidInput
  | None => Ok {| sg_public_key := sg_public_key self; sg_nonce_commitment := Some nonce_commitment;
                  sg_nonce := sg_nonce self; sg_partial_signature := sg_partial_signature self |}
  end.

Definition signer_add_nonce (self : Signer) (nonce : PublicKey) : result ErrorKind Signer :=
  match sg_nonce self with
  | Some _ => Err Kind.InvalidInput
  | None => Ok {| sg_public_key := sg_public_key self; sg_nonce_commitment := sg_nonce_commitment self;
                  sg_nonce := Some nonce; sg_partial_signature := sg_partial_signature self |}
  end.

Definition signer_add_partial_signature (self : Signer) (partial_signature : H256) : result ErrorKind Signer :=
  match sg_partial_signature self with
  | Some _ => Err Kind.InvalidInput
  | None => Ok {| sg_public_key := sg_public_key self; sg_nonce_commitment := sg_nonce_commitment self;
                  sg_nonce := sg_nonce self; sg_partial_signature := Some partial_signature |}
  end.

Definition signer_index (self : MultiSigSession) (public_key : PublicKey) : result ErrorKind nat :=
  chain_none Kind.InvalidInput
    (binary_search_by (λ signer, key_cmp (sg_public_key signer) public_key) (ses_signers self)).

(** [self.signers[signer_index].f(..)?] *)
Definition update_signer (self : MultiSigSession) (public_key : PublicKey)
    (f : Signer → result ErrorKind Signer) : run ErrorKind MultiSigSession :=
  i ?← Some (signer_index self public_key);
  signer ← ses_signers self !! i;
  signer ?← Some (f signer);
  Some (Ok (with_signers self (<[i := signer]> (ses_signers self)))).

Definition ses_add_nonce_commitment (self : MultiSigSession) (public_key : PublicKey) (nonce_commitment : H256) :
  run ErrorKind MultiSigSession :=
  update_signer self public_key (λ signer, signer_add_nonce_commitment signer nonce_commitment).

Definition ses_add_nonce (self : MultiSigSession) (public_key : PublicKey) (nonce : PublicKey) :
  run ErrorKind MultiSigSession :=
  update_signer self public_key (λ signer, signer_add_nonce signer nonce).

Definition ses_add_partial_signature (self : MultiSigSession) (public_key : PublicKey)
    (partial_signature : H256) : run ErrorKind MultiSigSession :=
  update_signer self public_key (λ signer, signer_add_partial_signature signer partial_signature).

(** Whether a slot of a signer is filled. *)
Definition has_slot {B} (slot : Signer → option B) (self : MultiSigSession) (public_key : PublicKey) :
  run ErrorKind bool :=
  i ?← Some (signer_index self public_key);
  signer ← ses_signers self !! i;
  Some (Ok (match slot signer with Some _ => true | None => false end)).

Definition has_nonce_commitment := has_slot sg_nonce_commitment.
Definition has_nonce := has_slot sg_nonce.
Definition has_partial_signature := has_slot sg_partial_signature.

Fixpoint collect_slots {B} (slot : Signer → option B) (l : list Signer) : result ErrorKind (list (PublicKey * B)) :=
  match l with
  | [] => Ok []
  | signer :: l =>
      match slot signer with
      | None => Err Kind.MultiSigError
      | Some b => rest ← collect_slots slot l; Ok ((sg_public_key signer, b) :: rest)
      end
  end.

Definition nonce_commitments (self : MultiSigSession) : result ErrorKind (list (PublicKey * H256)) :=
  collect_slots sg_nonce_commitment (ses_signers self).
Definition nonces (self : MultiSigSession) : result ErrorKind (list (PublicKey * PublicKey)) :=
  collect_slots sg_nonce (ses_signers self).
Definition partial_signatures (self : MultiSigSession) : result ErrorKind (list H256) :=
  l ← collect_slots sg_partial_signature (ses_signers self); Ok l.*2.
Definition session_public_keys (self : MultiSigSession) : list PublicKey := sg_public_key <$> ses_signers self.

(** ** Calls of the protocol *)

(** [MuSigSessionID::from_slice]. *)
Definition session_id_from_slice (id : H256) : option H256 := if decide (length id = 32%nat) then Some id else None.

(** The call of [MuSigSession::new] with which every method begins. *)
Definition musig_session (self : MultiSigSession) : result ErrorKind MuSigState :=
  i ← chain_none Kind.DeserializationError (session_id_from_slice (ses_id self));
  message ← chain_err Kind.DeserializationError (message_from_slice (ses_message self));
  ix ← signer_index self (ses_public_key self);
  chain_none Kind.MultiSigError
    (musig_new i message (combined_public_key self) (combined_public_key_hash self)
       (length (ses_signers self)) ix (ses_private_key self)).

Fixpoint set_commitments (self : MultiSigSession) (session : MuSigState) (l : list (PublicKey * H256)) :
  result ErrorKind MuSigState :=
  match l with
  | [] => Ok session
  | (public_key, nonce_commitment) :: l =>
      ix ← signer_index self public_key;
      set_commitments self (set_nonce_commitment session nonce_commitment ix) l
  end.

Fixpoint set_nonces (self : MultiSigSession) (session : MuSigState) (l : list (PublicKey * PublicKey)) :
  result ErrorKind MuSigState :=
  match l with
  | [] => Ok session
  | (public_key, nonce) :: l =>
      ix ← signer_index self public_key;
      session ← chain_none Kind.MultiSigError (set_nonce session ix nonce);
      set_nonces self session l
  end.

Definition ses_nonce_commitment (self : MultiSigSession) : result ErrorKind H256 :=
  session ← musig_session self;
  Ok (get_my_nonce_commitment session).

Definition ses_nonce (self : MultiSigSession) : result ErrorKind PublicKey :=
  nonce_commitments ← nonce_commitments self;
  session ← musig_session self;
  session ← set_commitments self session nonce_commitments;
  '(public_nonce, _) ← chain_none Kind.MultiSigError (get_public_nonce session);
  Ok public_nonce.

Definition ses_partial_signature (self : MultiSigSession) : result ErrorKind H256 :=
  nonce_commitments ← nonce_commitments self;
  nonces ← nonces self;
  session ← musig_session self;
  session ← set_commitments self session nonce_commitments;
  '(_, session) ← chain_none Kind.MultiSigError (get_public_nonce session);
  session ← set_nonces self session nonces;
  session ← chain_none Kind.MultiSigError (combine_nonces session);
  '(partial_signature, _) ← chain_none Kind.MultiSigError (partial_sign session);
  Ok partial_signature.

Definition ses_signature (self : MultiSigSession) : result ErrorKind SchnorrSignature :=
  nonce_commitments ← nonce_commitments self;
  nonces ← nonces self;
  partial_signatures ← partial_signatures self;
  session ← musig_session self;
  session ← set_commitments self session nonce_commitments;
  '(_, session) ← chain_none Kind.MultiSigError (get_public_nonce session);
  session ← set_nonces self session nonces;
  session ← chain_none Kind.MultiSigError (combine_nonces session);
  '(_, session) ← chain_none Kind.MultiSigError (partial_sign session);
  sigs ← chain_none Kind.DeserializationError (mapM partial_signature_from partial_signatures);
  chain_none Kind.MultiSigError (partial_sig_combine session sigs).

(** ** Encoding *)

Definition signer_codec : codec Signer :=
  Codec (λ s, enc public_key_codec (sg_public_key s) ++ enc (option_codec (array_codec 32)) (sg_nonce_commitment s)
              ++ enc (option_codec public_key_codec) (sg_nonce s)
              ++ enc (option_codec (array_codec 32)) (sg_partial_signature s))
    (k ⇐ dec public_key_codec; c ⇐ dec (option_codec (array_codec 32)); n ⇐ dec (option_codec public_key_codec);
     p ⇐ dec (option_codec (array_codec 32));
     dret {| sg_public_key := k; sg_nonce_commitment := c; sg_nonce := n; sg_partial_signature := p |}).

Definition session_codec : codec MultiSigSession :=
  Codec (λ s, enc (array_codec 32) (ses_id s) ++ enc (array_codec 32) (ses_message s)
              ++ enc (vec_codec signer_codec) (ses_signers s) ++ enc public_key_codec (ses_public_key s)
              ++ enc private_key_codec (ses_private_key s) ++ enc public_key_codec (combined_public_key s)
              ++ enc (array_codec 32) (combined_public_key_hash s))
    (i ⇐ dec (array_codec 32); m ⇐ dec (array_codec 32); l ⇐ dec (vec_codec signer_codec);
     k ⇐ dec public_key_codec; sk ⇐ dec private_key_codec; c ⇐ dec public_key_codec; h ⇐ dec (array_codec 32);
     dret {| ses_id := i; ses_message := m; ses_signers := l; ses_public_key := k; ses_private_key := sk;
             combined_public_key := c; combined_public_key_hash := h |}).
End session.

(** ** The service *)

Section service.
Context `{OsRng, Hashes, Aead, Scale, MuSig} {S : Type} `{!Store S}.

Definition SESSION_KEYSPACE : list byte := bstr "core_multi_sig_address".

Definition get_session (session_id : H256) (passphrase : str) : io S MultiSigSession :=
  o ← get_secure SESSION_KEYSPACE session_id passphrase;
  session_bytes ← pure_res (chain_none Kind.InvalidInput o);
  pure_res (chain_none Kind.DeserializationError (decode session_codec session_bytes)).

Definition set_session (session_id : H256) (session : MultiSigSession) (passphrase : str) : io S unit :=
  _ ← set_secure SESSION_KEYSPACE session_id (enc session_codec session) passphrase;
  mret tt.

Definition new_signer (public_key : PublicKey) : Signer :=
  {| sg_public_key := public_key; sg_nonce_commitment := None; sg_nonce := None; sg_partial_signature := None |}.

Definition new_session (message : H256) (signer_public_keys : list PublicKey) (self_public_key : PublicKey)
    (self_private_key : PrivateKey) (passphrase : str) : io S H256 :=
  if decide (pk_from_secret_key self_private_key ≠ self_public_key) then throw Kind.InvalidInput
  else if decide (length signer_public_keys ≤ 1)%nat then throw Kind.InvalidInput
  else
    let signer_public_keys := sort_keys signer_public_keys in
    match binary_search_by (λ k, key_cmp k self_public_key) signer_public_keys with
    | None => throw Kind.InvalidInput
    | Some _ =>
        '(combined_public_key, combined_public_key_hash) ← pure_res (public_key_combine signer_public_keys);
        session_id ← with_entropy (λ e, let '(bytes, e) := os_fill e 32 in Some (Ok bytes, e));
        let session :=
          {| ses_id := session_id; ses_message := message; ses_signers := new_signer <$> signer_public_keys;
             ses_public_key := self_public_key; ses_private_key := self_private_key;
             combined_public_key := combined_public_key;
             combined_public_key_hash := combined_public_key_hash |} in
        _ ← set_session session_id session passphrase;
        mret session_id
    end.

(** The own value is recorded unless it is already. *)
Definition record_own {B} (session_id : H256) (passphrase : str)
    (compute : MultiSigSession → result ErrorKind B)
    (has : MultiSigSession → PublicKey → run ErrorKind bool)
    (add : MultiSigSession → PublicKey → B → run ErrorKind MultiSigSession) : io S B :=
  session ← get_session session_id passphrase;
  b ← pure_res (compute session);
  let public_key := ses_public_key session in
  present ← pure_run (has session public_key);
  session ← ((if present : bool then mret session else pure_run (add session public_key b)) : io S MultiSigSession);
  _ ← set_session session_id session passphrase;
  mret b.

Definition nonce_commitment (session_id : H256) (passphrase : str) : io S H256 :=
  record_own session_id passphrase ses_nonce_commitment has_nonce_commitment ses_add_nonce_commitment.
Definition nonce (session_id : H256) (passphrase : str) : io S PublicKey :=
  record_own session_id passphrase ses_nonce has_nonce ses_add_nonce.
Definition partial_signature (session_id : H256) (passphrase : str) : io S H256 :=
  record_own session_id passphrase ses_partial_signature has_partial_signature ses_add_partial_signature.

(** The closure with which a value of a co-signer is recorded. *)
Definition session_update (f : MultiSigSession → run ErrorKind MultiSigSession) (value : option (list byte)) :
  run ErrorKind (option (list byte)) :=
  session_bytes ?← Some (chain_none Kind.InvalidInput value);
  session ?← Some (chain_none Kind.DeserializationError (decode session_codec session_bytes));
  session ?← f session;
  Some (Ok (Some (enc session_codec session))).

Definition record_other (session_id : H256) (passphrase : str)
    (f : MultiSigSession → run ErrorKind MultiSigSession) : io S unit :=
  _ ← fetch_and_update_secure SESSION_KEYSPACE session_id passphrase (session_update f);
  mret tt.

Definition add_nonce_commitment (session_id nonce_commitment : H256) (public_key : PublicKey)
    (passphrase : str) : io S unit :=
  record_other session_id passphrase (λ session, ses_add_nonce_commitment session public_key nonce_commitment).
Definition add_nonce (session_id : H256) (nonce public_key : PublicKey) (passphrase : str) : io S unit :=
  record_other session_id passphrase (λ session, ses_add_nonce session public_key nonce).
Definition add_partial_signature (session_id partial_signature : H256) (public_key : PublicKey)
    (passphrase : str) : io S unit :=
  record_other session_id passphrase (λ session, ses_add_partial_signature session public_key partial_signature).

Definition signature (session_id : H256) (passphrase : str) : io S SchnorrSignature :=
  session ← get_session session_id passphrase;
  pure_res (ses_signature session).
Definition public_keys (session_id : H256) (passphrase : str) : io S (list PublicKey) :=
  session ← get_session session_id passphrase;
  mret (session_public_keys session).
End service.

(** ** Binary search *)

Section binary_search.
Context {K : Type} `{OrdKey K} `{EqDecision K}.

Lemma bsearch_loop_fmap {A B} fuel (g : A → B) (f : B → comparison) l base size :
  bsearch_loop fuel (λ x, f (g x)) l base size = bsearch_loop fuel f (g <$> l) base size.
Proof.
  revert base size. induction fuel as [|fuel IH]; intros base size; simpl; [done|].
  rewrite list_lookup_fmap. case_decide; [|done]. rewrite IH. by destruct (l !! _).
Qed.

(** The search depends only on the keys. *)
Lemma binary_search_fmap {A B} (g : A → B) (f : B → comparison) l :
  binary_search_by (λ x, f (g x)) l = binary_search_by f (g <$> l).
Proof.
  destruct l as [|a l]; [done|]. unfold binary_search_by. rewrite fmap_cons.
  rewrite bsearch_loop_fmap, <- fmap_cons, list_lookup_fmap, length_fmap. by destruct ((a :: l) !! _).
Qed.

Lemma key_cmp_eq (a b : K) : key_cmp a b = Eq ↔ a = b.
Proof. unfold key_cmp. case_decide; [done|]. by destruct (key_leb a b). Qed.

Lemma sorted_lookup {A} (R : relation A) l i j a b :
  StronglySorted R l → (i < j)%nat → l !! i = Some a → l !! j = Some b → R a b.
Proof.
  intros Hs. revert i j. induction Hs as [|x l Hs IH Hx]; intros [|i] [|j] Hij Ha Hb; try done; try lia.
  - injection Ha as ->. exact (Forall_lookup_1 _ _ _ _ Hx Hb).
  - apply (IH i j); [lia | done | done].
Qed.

(** The loop keeps a position of the key between [base] and [base + size]. *)
Lemma bsearch_loop_finds fuel (k : K) l base size :
  StronglySorted key_le l → (size ≤ fuel)%nat → (base + size ≤ length l)%nat →
  (∃ t, base ≤ t < base + size ∧ l !! t = Some k)%nat →
  l !! bsearch_loop fuel (λ x, key_cmp x k) l base size = Some k.
Proof.
  intros Hs. revert base size. induction fuel as [|fuel IH]; intros base size Hf Hl (t & Ht & Hk); simpl.
  { assert (t = base) as -> by lia. done. }
  case_decide as Hsz; [|by assert (t = base) as -> by lia].
  pose proof (Nat.div2_div size) as Hd. pose proof (Nat.div_mod_eq size 2) as Hm.
  pose proof (Nat.mod_upper_bound size 2 ltac:(lia)) as Hb. rewrite <- Hd in Hm.
  set (half := Nat.div2 size) in *. set (mid := (base + half)%nat).
  destruct (l !! mid) as [x|] eqn:Ex; [|apply lookup_ge_None in Ex; unfold mid in Ex; lia]. simpl.
  assert (Hsorted : ∀ i j a b, (i < j)%nat → l !! i = Some a → l !! j = Some b → key_le a b).
  { intros i j a b. by apply sorted_lookup. }
  unfold key_cmp. case_decide as Exk; [|destruct (key_leb x k) eqn:El].
  - apply IH; [lia | unfold mid; lia|]. exists mid. subst x. split; [unfold mid; lia | done].
  - apply IH; [lia | unfold mid; lia|]. exists t. split; [|done].
    destruct (decide (t < mid)%nat) as [Hlt|]; [|unfold mid in *; lia].
    pose proof (Hsorted t mid k x Hlt Hk Ex). destruct Exk. by apply (anti_symm key_le).
  - apply IH; [lia | lia|]. exists t. split; [|done].
    destruct (decide (mid < t)%nat) as [Hlt|].
    + pose proof (Hsorted mid t x k Hlt Ex Hk) as Hle. unfold key_le in Hle. congruence.
    + destruct (decide (t = mid)) as [->|]; [congruence | unfold mid in *; lia].
Qed.

Lemma binary_search_found (k : K) l i :
  binary_search_by (λ x, key_cmp x k) l = Some i → l !! i = Some k.
Proof.
  destruct l as [|a l]; [done|]. unfold binary_search_by. set (b := bsearch_loop _ _ _ _ _).
  destruct ((a :: l) !! b) as [x|] eqn:E; simpl; [|done].
  destruct (key_cmp x k) eqn:Ec; [|done..]. apply key_cmp_eq in Ec as ->. by intros [= <-].
Qed.

Lemma binary_search_present (k : K) l :
  StronglySorted key_le l → k ∈ l → ∃ i, binary_search_by (λ x, key_cmp x k) l = Some i ∧ l !! i = Some k.
Proof.
  intros Hs [t Ht]%list_elem_of_lookup. pose proof (lookup_lt_Some _ _ _ Ht) as Hlt.
  destruct l as [|a l]; [done|].
  pose proof (bsearch_loop_finds (length (a :: l)) k (a :: l) 0 (length (a :: l)) Hs ltac:(lia) ltac:(lia)) as Hf.
  specialize (Hf ltac:(exists t; split; [lia | done])).
  unfold binary_search_by. rewrite Hf. simpl. rewrite (proj2 (key_cmp_eq k k) eq_refl). by eexists.
Qed.
End binary_search.

(** ** What a session keeps *)

Section monotone.
Context `{Hashes, Scale, MuSig, !ScaleLaws, !ClientKeysLaws}.

Definition signer_ok (s : Signer) : Prop :=
  option_ok (array_ok 32) (sg_nonce_commitment s) ∧ option_ok (array_ok 32) (sg_partial_signature s).

Definition session_ok (s : MultiSigSession) : Prop :=
  array_ok 32 (ses_id s) ∧ array_ok 32 (ses_message s) ∧ vec_ok signer_ok (ses_signers s)
  ∧ array_ok 32 (combined_public_key_hash s).

Lemma signer_codec_ok : codec_ok signer_ok signer_codec.
Proof.
  intros [k c n p] rest [Hc Hp]. cbn [enc dec signer_codec]. rewrite <- !app_assoc. cbn in Hc, Hp.
  rewrite (dbind_ok (λ _, True)) by eauto with codec.
  rewrite (dbind_ok (option_ok (array_ok 32))) by eauto with codec.
  rewrite (dbind_ok (option_ok (λ _, True))); [|eauto with codec | by destruct n].
  rewrite (dbind_ok (option_ok (array_ok 32))) by eauto with codec. done.
Qed.

Lemma session_codec_ok : codec_ok session_ok session_codec.
Proof.
  intros [i m l k sk c h] rest (Hi & Hm & Hl & Hh). cbn [enc dec session_codec]. rewrite <- !app_assoc.
  cbn in Hi, Hm, Hl, Hh.
  rewrite (dbind_ok (array_ok 32)) by eauto with codec. rewrite (dbind_ok (array_ok 32)) by eauto with codec.
  rewrite (dbind_ok (vec_ok signer_ok)) by eauto using vec_codec_ok, signer_codec_ok.
  rewrite !(dbind_ok (λ _, True)) by eauto with codec.
  rewrite (dbind_ok (array_ok 32)) by eauto with codec. done.
Qed.

(** A slot is filled once. *)
Definition slot_le {B} (a b : option B) : Prop := a = None ∨ a = b.

Definition signer_le (a b : Signer) : Prop :=
  sg_public_key a = sg_public_key b ∧ slot_le (sg_nonce_commitment a) (sg_nonce_commitment b)
  ∧ slot_le (sg_nonce a) (sg_nonce b) ∧ slot_le (sg_partial_signature a) (sg_partial_signature b).

#[local] Instance slot_le_preorder B : PreOrder (slot_le (B := B)).
Proof. split; [by right|]. intros a b c [->| ->] [->| ->]; by (left + right). Qed.

#[local] Instance signer_le_preorder : PreOrder signer_le.
Proof.
  split; [done|]. intros a b c (? & ? & ? & ?) (? & ? & ? & ?). split_and!; etrans; eauto.
Qed.

(** What is recorded in a session stays recorded; the rest of it never changes. *)
Definition evolves (s s' : MultiSigSession) : Prop :=
  s' = with_signers s (ses_signers s') ∧ Forall2 signer_le (ses_signers s) (ses_signers s').

#[global] Instance evolves_preorder : PreOrder evolves.
Proof.
  split.
  - intros s. split; [by destruct s | reflexivity].
  - intros s1 s2 s3 [E1 H1'] [E2 H2']. split; [rewrite E2, E1; done | by etrans].
Qed.

Lemma evolves_keys s s' : evolves s s' → session_public_keys s' = session_public_keys s.
Proof.
  intros [_ Hf]. unfold session_public_keys. induction Hf as [|a b l l' (E & _) _ IH]; [done|].
  by rewrite !fmap_cons, E, IH.
Qed.

Lemma signer_index_keys s pk :
  signer_index s pk = chain_none Kind.InvalidInput (binary_search_by (λ k, key_cmp k pk) (session_public_keys s)).
Proof. unfold signer_index, session_public_keys. by rewrite <- binary_search_fmap. Qed.

Lemma signer_index_lookup s pk i :
  signer_index s pk = Ok i → ∃ signer, ses_signers s !! i = Some signer ∧ sg_public_key signer = pk.
Proof.
  rewrite signer_index_keys, chain_none_Ok. intros Hb%binary_search_found. unfold session_public_keys in Hb.
  rewrite list_lookup_fmap in Hb. destruct (ses_signers s !! i) as [signer|]; [|done].
  injection Hb as <-. by eexists.
Qed.

(** Recording a value: the session evolves, and stays well formed when the value is. *)
Lemma update_signer_spec s pk f :
  (∀ a b, f a = Ok b → signer_le a b ∧ (signer_ok a → signer_ok b)) →
  ∃ r, update_signer s pk f = Some r
    ∧ ∀ s', r = Ok s' → evolves s s' ∧ (session_ok s → session_ok s').
Proof.
  intros Hf. unfold update_signer. destruct (signer_index s pk) as [i|e] eqn:Ei; cbn [run_bind]; [|by eexists].
  destruct (signer_index_lookup _ _ _ Ei) as (signer & Es & _). rewrite Es. cbn [mbind option_bind].
  destruct (f signer) as [signer'|e] eqn:Ef; cbn [run_bind]; [|by eexists].
  eexists. split; [done|]. intros s' [= <-]. destruct (Hf _ _ Ef) as [Hle Hok]. split.
  - split; [done|]. cbn [ses_signers with_signers]. rewrite <- (list_insert_id (ses_signers s) i signer Es) at 1.
    apply Forall2_insert; [reflexivity | done].
  - intros (? & ? & [Hl Ha] & ?). split_and!; [done | done | | done]. cbn [ses_signers with_signers].
    split; [by rewrite length_insert|]. apply Forall_insert; [done|]. apply Hok.
    exact (Forall_lookup_1 _ _ _ _ Ha Es).
Qed.

Lemma collect_slots_mono {B} (slot : Signer → option B) l l' r :
  (∀ a b, signer_le a b → slot_le (slot a) (slot b)) → Forall2 signer_le l l' →
  collect_slots slot l = Ok r → collect_slots slot l' = Ok r.
Proof.
  intros Hslot Hf. revert r. induction Hf as [|a b l l' Hab _ IH]; intros r; simpl; [done|].
  destruct (slot a) as [x|] eqn:Ea; [|done]. destruct (Hslot _ _ Hab) as [Hn|Hn]; [congruence|].
  rewrite <- Hn, Ea, <- (proj1 Hab). destruct (collect_slots slot l) as [r'|]; [|done].
  by rewrite (IH r' eq_refl).
Qed.

Lemma collect_slots_full {B} (slot : Signer → option B) l r :
  collect_slots slot l = Ok r → Forall (λ a, is_Some (slot a)) l.
Proof.
  revert r. induction l as [|a l IH]; intros r; simpl; [constructor|].
  destruct (slot a) as [x|] eqn:Ea; [|done]. destruct (collect_slots slot l) as [r'|]; [|done].
  intros _. constructor; [by eexists | by eapply IH].
Qed.

Lemma signer_index_evolves s s' pk : evolves s s' → signer_index s' pk = signer_index s pk.
Proof. intros He. by rewrite !signer_index_keys, (evolves_keys _ _ He). Qed.

Lemma musig_session_evolves s s' : evolves s s' → musig_session s' = musig_session s.
Proof.
  intros He. unfold musig_session. rewrite (signer_index_evolves _ _ _ He).
  destruct He as [E Hf]. rewrite E. cbn. by rewrite (Forall2_length _ _ _ Hf).
Qed.

Lemma set_commitments_evolves s s' session l :
  evolves s s' → set_commitments s' session l = set_commitments s session l.
Proof.
  intros He. revert session. induction l as [|[k c] l IH]; intros session; simpl; [done|].
  rewrite (signer_index_evolves _ _ _ He). destruct (signer_index s k); simpl; [apply IH | done].
Qed.

Lemma set_nonces_evolves s s' session l :
  evolves s s' → set_nonces s' session l = set_nonces s session l.
Proof.
  intros He. revert session. induction l as [|[k c] l IH]; intros session; simpl; [done|].
  rewrite (signer_index_evolves _ _ _ He). destruct (signer_index s k); simpl; [|done].
  destruct (set_nonce session _ c); simpl; [apply IH | done].
Qed.

(** What a session has once given out it gives out again. *)
Lemma ses_nonce_evolves s s' n : evolves s s' → ses_nonce s = Ok n → ses_nonce s' = Ok n.
Proof.
  intros He. unfold ses_nonce, nonce_commitments.
  destruct (collect_slots sg_nonce_commitment (ses_signers s)) as [cs|] eqn:Ec; [|done].
  rewrite (collect_slots_mono _ _ _ cs (λ a b Hab, proj1 (proj2 Hab)) (proj2 He) Ec).
  cbn [mbind result_bind]. rewrite (musig_session_evolves _ _ He).
  destruct (musig_session s); [|done]. cbn [mbind result_bind]. by rewrite (set_commitments_evolves _ _ _ _ He).
Qed.

Lemma ses_partial_signature_evolves s s' p :
  evolves s s' → ses_partial_signature s = Ok p → ses_partial_signature s' = Ok p.
Proof.
  intros He. unfold ses_partial_signature, nonce_commitments, nonces.
  destruct (collect_slots sg_nonce_commitment (ses_signers s)) as [cs|] eqn:Ec; [|done].
  rewrite (collect_slots_mono _ _ _ cs (λ a b Hab, proj1 (proj2 Hab)) (proj2 He) Ec). cbn [mbind result_bind].
  destruct (collect_slots sg_nonce (ses_signers s)) as [ns|] eqn:En; [|done].
  rewrite (collect_slots_mono _ _ _ ns (λ a b Hab, proj1 (proj2 (proj2 Hab))) (proj2 He) En).
  cbn [mbind result_bind]. rewrite (musig_session_evolves _ _ He).
  destruct (musig_session s); [|done]. cbn [mbind result_bind]. rewrite (set_commitments_evolves _ _ _ _ He).
  destruct (set_commitments _ _ _); [|done]. cbn [mbind result_bind].
  destruct (get_public_nonce _) as [[? ?]|]; [|done]. cbn [chain_none mbind result_bind].
  by rewrite (set_nonces_evolves _ _ _ _ He).
Qed.

Lemma ses_nonce_commitments s n :
  ses_nonce s = Ok n → Forall (λ a, is_Some (sg_nonce_commitment a)) (ses_signers s).
Proof.
  unfold ses_nonce, nonce_commitments. destruct (collect_slots _ _) eqn:Ec; [|done].
  intros _. by eapply collect_slots_full.
Qed.

Lemma ses_partial_signature_nonces s p :
  ses_partial_signature s = Ok p → Forall (λ a, is_Some (sg_nonce a)) (ses_signers s).
Proof.
  unfold ses_partial_signature, nonces. destruct (nonce_commitments s); [|done]. cbn [mbind result_bind].
  destruct (collect_slots _ _) eqn:Ec; [|done]. intros _. by eapply collect_slots_full.
Qed.

(** The three ways to fill a slot. *)
Lemma add_nonce_commitment_le c a b :
  signer_add_nonce_commitment a c = Ok b → signer_le a b ∧ (array_ok 32 c → signer_ok a → signer_ok b).
Proof.
  unfold signer_add_nonce_commitment. destruct (sg_nonce_commitment a) eqn:E; [done|]. intros [= <-].
  split; [split_and!; cbn; [done | left; done | by right | by right]|]. by intros Hc [_ Hp].
Qed.

Lemma add_nonce_le n a b :
  signer_add_nonce a n = Ok b → signer_le a b ∧ (signer_ok a → signer_ok b).
Proof.
  unfold signer_add_nonce. destruct (sg_nonce a) eqn:E; [done|]. intros [= <-].
  split; [split_and!; cbn; [done | by right | left; done | by right]|]. done.
Qed.

Lemma add_partial_signature_le p a b :
  signer_add_partial_signature a p = Ok b → signer_le a b ∧ (array_ok 32 p → signer_ok a → signer_ok b).
Proof.
  unfold signer_add_partial_signature. destruct (sg_partial_signature a) eqn:E; [done|]. intros [= <-].
  split; [split_and!; cbn; [done | by right | by right | left; done]|]. by intros Hc [Hp _].
Qed.
End monotone.

(** ** Sequences of calls *)

Section traces.
Context `{OsRng, Hashes, Aead, Scale, MuSig} {S : Type} `{!Store S}.

Inductive session_op :=
  | OpNonceCommitment
  | OpAddNonceCommitment (c : H256) (pk : PublicKey)
  | OpNonce
  | OpAddNonce (n pk : PublicKey)
  | OpPartialSignature
  | OpAddPartialSignature (p : H256) (pk : PublicKey)
  | OpSignature
  | OpPublicKeys.

Inductive session_reply :=
  | RCommitment (c : H256)
  | RNonce (n : PublicKey)
  | RPartial (p : H256)
  | RSignature (s : SchnorrSignature)
  | RKeys (l : list PublicKey)
  | RDone.

Definition run_op (session_id : H256) (passphrase : str) (op : session_op) : io S session_reply :=
  match op with
  | OpNonceCommitment => c ← nonce_commitment session_id passphrase; mret (RCommitment c)
  | OpAddNonceCommitment c pk => _ ← add_nonce_commitment session_id c pk passphrase; mret RDone
  | OpNonce => n ← nonce session_id passphrase; mret (RNonce n)
  | OpAddNonce n pk => _ ← add_nonce session_id n pk passphrase; mret RDone
  | OpPartialSignature => p ← partial_signature session_id passphrase; mret (RPartial p)
  | OpAddPartialSignature p pk => _ ← add_partial_signature session_id p pk passphrase; mret RDone
  | OpSignature => s ← signature session_id passphrase; mret (RSignature s)
  | OpPublicKeys => l ← public_keys session_id passphrase; mret (RKeys l)
  end.

(** One call after the other, whether or not they succeed. *)
Fixpoint run_ops (session_id : H256) (passphrase : str) (ops : list session_op) (w : World S) :
  option (list (result ErrorKind session_reply) * World S) :=
  match ops with
  | [] => Some ([], w)
  | op :: ops =>
      '(r, w) ← run_op session_id passphrase op w;
      '(rs, w) ← run_ops session_id passphrase ops w;
      Some (r :: rs, w)
  end.

Context `{!AeadLaws, !StoreLaws S, !ScaleLaws, !ClientKeysLaws, !MuSigLaws}.

Definition stored (w : World S) (session_id : H256) (passphrase : str) (s : MultiSigSession) : Prop :=
  reads (disk w) SESSION_KEYSPACE session_id passphrase (Some (enc session_codec s)).

Definition op_ok (op : session_op) : Prop :=
  match op with
  | OpAddNonceCommitment c _ => array_ok 32 c
  | OpAddPartialSignature p _ => array_ok 32 p
  | _ => True
  end.

Lemma get_session_stored w session_id passphrase s :
  stored w session_id passphrase s → session_ok s →
  get_session session_id passphrase w = Some (Ok s, w).
Proof.
  intros Hs Hok. unfold get_session, mbind, sem_bind, pure_res. rewrite (get_secure_reads _ _ _ _ _ Hs).
  cbn [chain_none]. by rewrite (decode_ok session_ok) by eauto using session_codec_ok.
Qed.

(** What a call leaves: a session that evolved from the one before, and nothing else
    changed. *)
Definition leaves (w : World S) (session_id : H256) (passphrase : str) (s : MultiSigSession)
    (w' : World S) (s' : MultiSigSession) : Prop :=
  stored w' session_id passphrase s' ∧ session_ok s' ∧ evolves s s'
  ∧ same_but (disk w) (disk w') SESSION_KEYSPACE session_id.

Lemma same_view_leaves w w' session_id passphrase s :
  (∀ other, store_view (disk w') other = store_view (disk w) other) →
  stored w session_id passphrase s → session_ok s → leaves w session_id passphrase s w' s.
Proof.
  intros Hv Hs Hok. unfold leaves, stored, reads, same_but. rewrite Hv. split_and!; [done..|].
  intros. by rewrite Hv.
Qed.

Lemma leaves_trans w1 w2 w3 session_id passphrase s1 s2 s3 :
  leaves w1 session_id passphrase s1 w2 s2 → leaves w2 session_id passphrase s2 w3 s3 →
  leaves w1 session_id passphrase s1 w3 s3.
Proof.
  intros (_ & _ & He1 & Hb1) (Hs & Hok & He2 & Hb2). split_and!; [done | done | by etrans|].
  intros ks k Hne. by rewrite Hb2, Hb1.
Qed.

Lemma set_session_leaves w session_id passphrase s s' :
  stored w session_id passphrase s → session_ok s → session_ok s' → evolves s s' →
  ∃ r w', set_session session_id s' passphrase w = Some (r, w')
    ∧ leaves w session_id passphrase s w' (match r with Ok _ => s' | Err _ => s end)
    ∧ (Z.of_nat (length (enc session_codec s')) ≤ U32_MAX → r = Ok tt).
Proof.
  intros Hs Hok Hok' He. unfold set_session, mbind, sem_bind.
  destruct (set_secure_any SESSION_KEYSPACE session_id passphrase (enc session_codec s') w _ Hs)
    as ([o|err] & w' & -> & Hm & Ht).
  - eexists _, _. split; [done|]. split; [|done]. destruct Hm as (_ & Hr & Hb & _). done.
  - eexists _, _. split; [done|]. split; [|intros Hl; discriminate (Ht Hl)].
    apply same_view_leaves; [intros; by rewrite Hm | done | done].
Qed.

(** Recording an own value. *)
Lemma record_own_leaves {B} (compute : MultiSigSession → result ErrorKind B) (slot : Signer → option B)
    (add : Signer → B → result ErrorKind Signer) (wf : B → Prop) w session_id passphrase s :
  (∀ b a a', wf b → add a b = Ok a' → signer_le a a' ∧ (signer_ok a → signer_ok a')) →
  (∀ b, compute s = Ok b → wf b) →
  stored w session_id passphrase s → session_ok s →
  ∃ r w' s', record_own session_id passphrase compute (has_slot slot)
               (λ s pk b, update_signer s pk (λ a, add a b)) w = Some (r, w')
    ∧ leaves w session_id passphrase s w' s' ∧ ∀ b, r = Ok b → compute s = Ok b.
Proof.
  intros Hadd Hwf Hs Hok. unfold record_own, mbind, sem_bind. rewrite (get_session_stored _ _ _ _ Hs Hok).
  unfold pure_res. destruct (compute s) as [b|e] eqn:Ec.
  2: { eexists _, _, s. split; [done|]. split; [by apply same_view_leaves | done]. }
  unfold has_slot. destruct (signer_index s (ses_public_key s)) as [i|e] eqn:Ei; cbn [run_bind pure_run].
  2: { eexists _, _, s. split; [done|]. split; [by apply same_view_leaves | done]. }
  destruct (signer_index_lookup _ _ _ Ei) as (a & Ea & _). rewrite Ea. cbn [mbind option_bind pure_run].
  assert (Hstep : ∃ r, (if match slot a with Some _ => true | None => false end
                        then (mret s : io S MultiSigSession)
                        else pure_run (update_signer s (ses_public_key s) (λ a, add a b))) w = Some (r, w)
            ∧ ∀ s', r = Ok s' → evolves s s' ∧ session_ok s').
  { destruct (slot a).
    - exists (Ok s). split; [done|]. by intros s' [= <-].
    - destruct (update_signer_spec s (ses_public_key s) (λ a, add a b)) as (r & -> & Hr).
      { intros x y Hxy. by apply (Hadd b); [apply Hwf|]. }
      exists r. split; [done|]. intros s' ->. destruct (Hr s' eq_refl). auto. }
  destruct Hstep as ([s'|e] & Hst & Hr).
  - destruct (slot a); rewrite Hst; destruct (Hr s' eq_refl) as [He Hok'];
      destruct (set_session_leaves w session_id passphrase s s' Hs Hok Hok' He) as (r & w' & -> & Hl & _);
      (destruct r; [by eexists _, _, s' | by eexists _, _, s]).
  - destruct (slot a); rewrite Hst; (eexists _, _, s; split; [done|]; split; [by apply same_view_leaves | done]).
Qed.

(** Recording a value of a co-signer. *)
Lemma record_other_leaves f w session_id passphrase s :
  (∃ r, f s = Some r ∧ ∀ s', r = Ok s' → evolves s s' ∧ (session_ok s → session_ok s')) →
  stored w session_id passphrase s → session_ok s →
  ∃ r w' s', record_other session_id passphrase f w = Some (r, w')
    ∧ leaves w session_id passphrase s w' s'.
Proof.
  intros (r & Ef & Hf) Hs Hok. unfold record_other, mbind, sem_bind.
  assert (Hu : session_update f (Some (enc session_codec s))
               = Some (match r with Ok s' => Ok (Some (enc session_codec s')) | Err e => Err e end)).
  { unfold session_update. cbn [chain_none run_bind].
    rewrite (decode_ok session_ok) by eauto using session_codec_ok. cbn [chain_none run_bind]. rewrite Ef.
    by destruct r. }
  destruct r as [s'|e].
  - destruct (Hf s' eq_refl) as [He Hok'].
    destruct (update_secure_any _ _ _ _ _ _ _ Hs Hu) as ([o|err] & w' & -> & Hm & _).
    + eexists _, _, s'. split; [done|]. destruct Hm as (Hr & Hb & _). split_and!; auto.
    + eexists _, _, s. split; [done|]. by apply same_view_leaves.
  - destruct (update_secure_fails SESSION_KEYSPACE session_id passphrase (session_update f) w e)
      as (d & -> & Hv); [left; eauto|].
    eexists _, _, s. split; [done|]. by apply same_view_leaves.
Qed.

Lemma ses_nonce_commitment_ok s c : ses_nonce_commitment s = Ok c → array_ok 32 c.
Proof.
  unfold ses_nonce_commitment. destruct (musig_session s); [|done]. intros [= <-]. apply nonce_commitment_length.
Qed.

Lemma ses_partial_signature_ok s p : ses_partial_signature s = Ok p → array_ok 32 p.
Proof.
  unfold ses_partial_signature, chain_none. intros Hp. run_inv Hp. by eapply partial_sign_length.
Qed.

(** One call. *)
Lemma run_op_leaves op w session_id passphrase s :
  op_ok op → stored w session_id passphrase s → session_ok s →
  ∃ r w' s', run_op session_id passphrase op w = Some (r, w') ∧ leaves w session_id passphrase s w' s'
    ∧ (∀ n, r = Ok (RNonce n) → ses_nonce s = Ok n)
    ∧ (∀ p, r = Ok (RPartial p) → ses_partial_signature s = Ok p).
Proof.
  intros Hop Hs Hok. destruct op as [|c pk| |n pk| |p pk| |]; cbn [run_op]; unfold mbind at 1, sem_bind at 1.
  - destruct (record_own_leaves ses_nonce_commitment sg_nonce_commitment signer_add_nonce_commitment
      (array_ok 32) w session_id passphrase s) as ([b|e] & w' & s' & E & Hl & Hb);
      [intros b a a' Hb Ha; destruct (add_nonce_commitment_le b a a' Ha); auto
      |apply ses_nonce_commitment_ok | done | done | |];
      unfold nonce_commitment, ses_add_nonce_commitment, has_nonce_commitment; rewrite E;
      by eexists _, w', s'.
  - destruct (record_other_leaves (λ session, ses_add_nonce_commitment session pk c) w session_id passphrase s)
      as ([u|e] & w' & s' & E & Hl); [|done|done| |];
      [|unfold add_nonce_commitment; rewrite E; by eexists _, w', s'..].
    apply update_signer_spec. intros a b Hab. destruct (add_nonce_commitment_le c a b Hab); auto.
  - destruct (record_own_leaves ses_nonce sg_nonce signer_add_nonce (λ _, True) w session_id passphrase s)
      as ([b|e] & w' & s' & E & Hl & Hb);
      [intros b a a' _ Ha; by apply (add_nonce_le b) | done | done | done | |];
      unfold nonce, ses_add_nonce, has_nonce; rewrite E; eexists _, w', s'; (split; [done|]); [|done].
    split; [done|]. split; [|done]. intros n [= <-]. by apply Hb.
  - destruct (record_other_leaves (λ session, ses_add_nonce session pk n) w session_id passphrase s)
      as ([u|e] & w' & s' & E & Hl); [|done|done| |];
      [|unfold add_nonce; rewrite E; by eexists _, w', s'..].
    apply update_signer_spec. intros a b Hab. by apply (add_nonce_le n).
  - destruct (record_own_leaves ses_partial_signature sg_partial_signature signer_add_partial_signature
      (array_ok 32) w session_id passphrase s) as ([b|e] & w' & s' & E & Hl & Hb);
      [intros b a a' Hb Ha; destruct (add_partial_signature_le b a a' Ha); auto
      |apply ses_partial_signature_ok | done | done | |];
      unfold partial_signature, ses_add_partial_signature, has_partial_signature; rewrite E;
      eexists _, w', s'; (split; [done|]); [|done].
    split; [done|]. split; [done|]. intros p [= <-]. by apply Hb.
  - destruct (record_other_leaves (λ session, ses_add_partial_signature session pk p) w session_id passphrase s)
      as ([u|e] & w' & s' & E & Hl); [|done|done| |];
      [|unfold add_partial_signature; rewrite E; by eexists _, w', s'..].
    apply update_signer_spec. intros a b Hab. destruct (add_partial_signature_le p a b Hab); auto.
  - unfold signature, mbind, sem_bind. rewrite (get_session_stored _ _ _ _ Hs Hok). unfold pure_res.
    destruct (ses_signature s); eexists _, w, s; (split; [done|]); (split; [by apply same_view_leaves | done]).
  - unfold public_keys, mbind, sem_bind. rewrite (get_session_stored _ _ _ _ Hs Hok).
    eexists _, w, s. split; [done|]. split; [by apply same_view_leaves | done].
Qed.

Lemma run_ops_leaves ops w session_id passphrase s :
  Forall op_ok ops → stored w session_id passphrase s → session_ok s →
  ∃ rs w' s', run_ops session_id passphrase ops w = Some (rs, w') ∧ leaves w session_id passphrase s w' s'
    ∧ (∀ n, Ok (RNonce n) ∈ rs → ses_nonce s' = Ok n)
    ∧ (∀ p, Ok (RPartial p) ∈ rs → ses_partial_signature s' = Ok p).
Proof.
  intros Hops. revert w s. induction Hops as [|op ops Hop _ IH]; intros w s Hs Hok; simpl.
  { exists [], w, s. split; [done|]. split; [by apply same_view_leaves | set_solver]. }
  destruct (run_op_leaves op w session_id passphrase s Hop Hs Hok) as (r & w1 & s1 & -> & Hl1 & Hn & Hp).
  destruct (IH w1 s1 (proj1 Hl1) (proj1 (proj2 Hl1))) as (rs & w' & s' & E & Hl & Hn' & Hp'). simpl.
  rewrite E. eexists _, w', s'. split; [done|]. split; [by eapply leaves_trans|].
  assert (He : evolves s s') by (etrans; [apply Hl1 | apply Hl]). split.
  - intros n [->%eq_sym|]%elem_of_cons; [|by apply Hn']. eapply ses_nonce_evolves; eauto.
  - intros p [->%eq_sym|]%elem_of_cons; [|by apply Hp']. eapply ses_partial_signature_evolves; eauto.
Qed.

End traces.

(** ** Witness *)

Module SessionExample.
Export ClientExample StorageExample.

(** A state counts what it was given; a signature is the combined key. *)
Record CountState := {
  cs_total : nat; cs_key : byte; cs_own : byte; cs_commitments : nat; cs_nonces : nat;
}.

#[export] Instance musig_ref : MuSig := {|
  MuSigState := CountState; PartialSignature := byte;
  musig_new := λ _ _ ck _ n i sk,
    if decide (i < n)%nat
    then Some {| cs_total := n; cs_key := ck; cs_own := sk; cs_commitments := 0; cs_nonces := 0 |} else None;
  get_my_nonce_commitment := λ s, replicate 32 (cs_own s);
  set_nonce_commitment := λ s _ _,
    {| cs_total := cs_total s; cs_key := cs_key s; cs_own := cs_own s;
       cs_commitments := Datatypes.S (cs_commitments s); cs_nonces := cs_nonces s |};
  get_public_nonce := λ s, if decide (cs_commitments s = cs_total s) then Some (cs_own s, s) else None;
  set_nonce := λ s _ _,
    Some {| cs_total := cs_total s; cs_key := cs_key s; cs_own := cs_own s;
            cs_commitments := cs_commitments s; cs_nonces := Datatypes.S (cs_nonces s) |};
  combine_nonces := λ s, if decide (cs_nonces s = cs_total s) then Some s else None;
  partial_sign := λ s, Some (replicate 32 (cs_own s), s);
  partial_signature_from := head;
  partial_sig_combine := λ s l, if decide (length l = cs_total s) then Some (cs_key s) else None;
|}.

Lemma install_commitments_count k s l :
  install_commitments k s l
  = {| cs_total := cs_total s; cs_key := cs_key s; cs_own := cs_own s;
       cs_commitments := cs_commitments s + length l; cs_nonces := cs_nonces s |}.
Proof.
  revert k s. induction l as [|c l IH]; intros k s; simpl; [rewrite Nat.add_0_r; by destruct s|].
  rewrite IH. simpl. f_equal. lia.
Qed.

Lemma install_nonces_count k s (l : list byte) :
  install_nonces k s l
  = Some {| cs_total := cs_total s; cs_key := cs_key s; cs_own := cs_own s;
            cs_commitments := cs_commitments s; cs_nonces := cs_nonces s + length l |}.
Proof.
  revert k s. induction l as [|c l IH]; intros k s; simpl; [rewrite Nat.add_0_r; by destruct s|].
  rewrite IH. simpl. do 2 f_equal. lia.
Qed.

#[export] Instance musig_ref_laws : MuSigLaws.
Proof.
  split.
  - done.
  - by intros s p s' [= <- <-].
  - intros l k h. destruct l; [done|]. by intros [= _ <-].
  - intros msg ids sks ck ckh _ _ _ _ Hck. exists (replicate 32 <$> sks), sks, (replicate 32 <$> sks).
    split_and!; [apply length_fmap | done | apply length_fmap|]. intros i id sk _ Hi.
    pose proof (lookup_lt_Some _ _ _ Hi) as Hlt.
    eexists _, _, _, _, _, sk, (replicate 32 sk), sks, ck. cbn [musig_new musig_ref].
    rewrite decide_True by done. split; [done|]. rewrite list_lookup_fmap, Hi. split; [done|]. split; [done|].
    rewrite install_commitments_count. cbn. rewrite length_fmap, decide_True by done. split; [done|].
    rewrite install_nonces_count. cbn. split; [done|]. rewrite decide_True by done. split; [done|].
    split; [done|]. split; [done|]. split.
    { clear. induction sks as [|sk sks IH]; [done|]. rewrite fmap_cons. cbn [mapM]. by rewrite IH. }
    rewrite decide_True by done. split; [done|]. by rewrite decide_True.
Qed.

Definition session : MultiSigSession :=
  {| ses_id := replicate 32 Byte.x07; ses_message := replicate 32 Byte.x01;
     ses_signers := new_signer <$> ([Byte.x04; Byte.x09] : list PublicKey); ses_public_key := (Byte.x04 : PublicKey);
     ses_private_key := (Byte.x04 : PrivateKey); combined_public_key := (Byte.x04 : PublicKey);
     combined_public_key_hash := replicate 32 Byte.x00 |}.

(** The session in an otherwise empty storage. *)
Definition with_session : World (gmap (list byte) (gmap (list byte) (list byte))) :=
  match set_session (ses_id session) session (bstr "secret") fresh with Some (_, w) => w | None => fresh end.

Definition calls : list session_op :=
  [OpNonce; OpNonceCommitment; OpAddNonceCommitment (replicate 32 Byte.x09) (Byte.x09 : PublicKey); OpNonce;
   OpPartialSignature; OpAddNonce (Byte.x09 : PublicKey) (Byte.x09 : PublicKey); OpPartialSignature;
   OpPartialSignature].
End SessionExample.

Module Example.
Import SessionExample.

End Example.
