(* ===== verification/CoSign.v ===== *)
(** * CoSign: co-signers who follow the protocol spend from their address

    The sessions of [MultiSig] against an abstract machine: a signer's progress is the
    set of co-signers whose commitment, nonce and partial signature it has.  The theorem
    takes a group of signers from the creation of their sessions to a signature that the
    chain accepts for their address. *)

From stdpp Require Import base tactics option list gmap sets fin_sets strings sorting.
From Stdlib Require Import ZArith Lia.
From S2P Require Import Prelude Text Codec Crypto Merkle Account TxTypes Validation Client ClientStorage MultiSig.

(** ** The abstract machine *)

Record progress := {
  got_commitments : gset nat;
  got_nonces : gset nat;
  got_partials : gset nat;
}.

Definition no_progress : progress := {| got_commitments := ∅; got_nonces := ∅; got_partials := ∅ |}.

Inductive move :=
  | Commit
  | TakeCommitment (j : nat)
  | Reveal
  | TakeNonce (j : nat)
  | Sign
  | TakePartial (j : nat).

(** Every one of [n] signers. *)
Definition full (n : nat) (X : gset nat) : Prop := set_seq 0 n ⊆ X.
#[global] Instance full_dec n X : Decision (full n X).
Proof. unfold full. apply _. Defined.

Definition add_commitment (j : nat) (st : progress) : progress :=
  {| got_commitments := {[j]} ∪ got_commitments st; got_nonces := got_nonces st; got_partials := got_partials st |}.
Definition add_nonce_of (j : nat) (st : progress) : progress :=
  {| got_commitments := got_commitments st; got_nonces := {[j]} ∪ got_nonces st; got_partials := got_partials st |}.
Definition add_partial (j : nat) (st : progress) : progress :=
  {| got_commitments := got_commitments st; got_nonces := got_nonces st; got_partials := {[j]} ∪ got_partials st |}.

(** A move of signer [i] of [n]. *)
Definition make_move (n i : nat) (st : progress) (m : move) : result ErrorKind progress :=
  match m with
  | Commit => Ok (add_commitment i st)
  | TakeCommitment j =>
      if decide (j ∈ got_commitments st) then Err Kind.InvalidInput else Ok (add_commitment j st)
  | Reveal => if decide (full n (got_commitments st)) then Ok (add_nonce_of i st) else Err Kind.MultiSigError
  | TakeNonce j => if decide (j ∈ got_nonces st) then Err Kind.InvalidInput else Ok (add_nonce_of j st)
  | Sign => if decide (full n (got_commitments st) ∧ full n (got_nonces st))
            then Ok (add_partial i st) else Err Kind.MultiSigError
  | TakePartial j => if decide (j ∈ got_partials st) then Err Kind.InvalidInput else Ok (add_partial j st)
  end.

(** A failed move leaves the progress as it is. *)
Fixpoint make_moves (n i : nat) (st : progress) (ms : list move) : list (result ErrorKind unit) * progress :=
  match ms with
  | [] => ([], st)
  | m :: ms =>
      match make_move n i st m with
      | Ok st' => let '(rs, st'') := make_moves n i st' ms in (Ok tt :: rs, st'')
      | Err e => let '(rs, st'') := make_moves n i st ms in (Err e :: rs, st'')
      end
  end.

(** ** The loops of a session *)

Definition slot_of {B} (X : gset nat) (l : list B) (j : nat) : option B := if decide (j ∈ X) then l !! j else None.

Section loops.
Context `{Hashes, Scale, MuSig}.

Lemma collect_from {B} (slot : Signer → option B) (g : nat → PublicKey → Signer) X (vs : list B) l k :
  (∀ j pk, sg_public_key (g j pk) = pk ∧ slot (g j pk) = slot_of X vs j) → length vs = (k + length l)%nat →
  collect_slots slot (imap (λ j, g (k + j)%nat) l)
  = if decide (set_seq k (length l) ⊆ X) then Ok (zip l (drop k vs)) else Err Kind.MultiSigError.
Proof.
  intros Hg. revert k. induction l as [|pk l IH]; intros k Hl; simpl in *; [by rewrite decide_True by set_solver|].
  destruct (Hg (k + 0)%nat pk) as [-> ->]. rewrite Nat.add_0_r. unfold slot_of.
  rewrite (imap_ext _ (λ j, g (1 + k + j)%nat) l) by (intros; simpl; by rewrite Nat.add_succ_r).
  rewrite (IH (1 + k)%nat) by lia.
  destruct (lookup_lt_is_Some_2 vs k ltac:(lia)) as [v Hv]. rewrite (drop_S _ _ _ Hv).
  destruct (decide (k ∈ X)) as [Hk|Hk].
  - rewrite Hv. destruct (decide (set_seq (1 + k) (length l) ⊆ X)) as [Hs|Hs].
    + rewrite decide_True by set_solver. done.
    + rewrite decide_False by set_solver. done.
  - rewrite decide_False by set_solver. done.
Qed.

Lemma set_commitments_from s session l vs k :
  (∀ j pk, l !! j = Some pk → signer_index s pk = Ok (k + j)%nat) → length vs = length l →
  set_commitments s session (zip l vs) = Ok (install_commitments k session vs).
Proof.
  revert session vs k. induction l as [|pk l IH]; intros session [|v vs] k Hi Hl; try done. simpl.
  rewrite (Hi 0%nat pk eq_refl), Nat.add_0_r. cbn [mbind result_bind]. apply IH; [|simpl in Hl; lia].
  intros j pk' Hj. rewrite (Hi (Datatypes.S j) pk' Hj). f_equal. lia.
Qed.

Lemma set_nonces_from s session l vs k session' :
  (∀ j pk, l !! j = Some pk → signer_index s pk = Ok (k + j)%nat) → length vs = length l →
  install_nonces k session vs = Some session' → set_nonces s session (zip l vs) = Ok session'.
Proof.
  revert session vs k. induction l as [|pk l IH]; intros session [|v vs] k Hi Hl; try done; simpl.
  { by intros [= ->]. }
  rewrite (Hi 0%nat pk eq_refl), Nat.add_0_r. cbn [mbind result_bind].
  destruct (set_nonce session k v) as [session1|]; [|done]. cbn [mbind result_bind option_bind chain_none].
  intros Hx. apply (IH session1 vs (k + 1)%nat); [|simpl in Hl; lia | done].
  intros j pk' Hj. rewrite (Hi (Datatypes.S j) pk' Hj). f_equal. lia.
Qed.
End loops.

(** ** Calls that succeed *)

Section calls.
Context `{OsRng, Hashes, Aead, Scale, MuSig} {S : Type} `{!Store S}.
Context `{!AeadLaws, !StoreLaws S, !ScaleLaws, !ClientKeysLaws}.

Lemma set_session_stored w session_id passphrase old s :
  reads (disk w) SESSION_KEYSPACE session_id passphrase old →
  Z.of_nat (length (enc session_codec s)) ≤ U32_MAX →
  ∃ w', set_session session_id s passphrase w = Some (Ok tt, w') ∧ stored w' session_id passphrase s.
Proof.
  intros Hr Hl. unfold set_session, mbind, sem_bind.
  destruct (set_secure_reads SESSION_KEYSPACE session_id passphrase _ w old Hr Hl) as (w' & -> & Hr' & _).
  by exists w'.
Qed.

Lemma record_own_value {B} (compute : MultiSigSession → result ErrorKind B) has add w session_id passphrase s b s' :
  stored w session_id passphrase s → session_ok s → compute s = Ok b →
  (has s (ses_public_key s) = Some (Ok true) ∧ s' = s
   ∨ has s (ses_public_key s) = Some (Ok false) ∧ add s (ses_public_key s) b = Some (Ok s')) →
  Z.of_nat (length (enc session_codec s')) ≤ U32_MAX →
  ∃ w', record_own session_id passphrase compute has add w = Some (Ok b, w') ∧ stored w' session_id passphrase s'.
Proof.
  intros Hs Hok Ec Hh Hl. unfold record_own, mbind, sem_bind. rewrite (get_session_stored _ _ _ _ Hs Hok).
  unfold pure_res. rewrite Ec. destruct (set_session_stored w session_id passphrase _ s' Hs Hl) as (w' & E & Hs').
  exists w'. destruct Hh as [[-> ->] | [-> Ha]]; unfold pure_run, mret, sem_ret; [|rewrite Ha]; by rewrite E.
Qed.

Lemma record_own_error {B} (compute : MultiSigSession → result ErrorKind B) has add w session_id passphrase s e :
  stored w session_id passphrase s → session_ok s → compute s = Err e →
  record_own session_id passphrase compute has add w = Some (Err e, w).
Proof.
  intros Hs Hok Ec. unfold record_own, mbind, sem_bind. rewrite (get_session_stored _ _ _ _ Hs Hok).
  unfold pure_res. by rewrite Ec.
Qed.

Lemma record_other_value f w session_id passphrase s r :
  stored w session_id passphrase s → session_ok s → f s = Some r →
  (∀ s', r = Ok s' → Z.of_nat (length (enc session_codec s')) ≤ U32_MAX) →
  ∃ w', record_other session_id passphrase f w = Some (match r with Ok _ => Ok tt | Err e => Err e end, w')
    ∧ stored w' session_id passphrase (match r with Ok s' => s' | Err _ => s end).
Proof.
  intros Hs Hok Ef Hl. unfold record_other, mbind, sem_bind.
  assert (Hu : session_update f (Some (enc session_codec s))
               = Some (match r with Ok s' => Ok (Some (enc session_codec s')) | Err e => Err e end)).
  { unfold session_update. cbn [chain_none run_bind].
    rewrite (decode_ok session_ok) by eauto using session_codec_ok. cbn [chain_none run_bind]. rewrite Ef.
    by destruct r. }
  destruct r as [s'|e].
  - destruct (update_secure_any _ _ _ _ _ _ _ Hs Hu) as (r & w' & -> & Hm & Ht).
    destruct (Ht (Hl s' eq_refl)) as [o ->]. exists w'. by destruct Hm.
  - destruct (update_secure_fails SESSION_KEYSPACE session_id passphrase (session_update f) w e)
      as (d & -> & Hv); [left; eauto|].
    eexists. split; [done|]. unfold stored, reads. cbn [disk]. by rewrite Hv.
Qed.
End calls.

(** ** A group *)

Section group.
Context `{OsRng, Hashes, Aead, Scale, MuSig} {S : Type} `{!Store S}.
Context `{!AeadLaws, !StoreLaws S, !ScaleLaws, !ScaleSizes, !ClientKeysLaws, !MuSigLaws}.
Context (msg : H256) (sks : list PrivateKey) (ck : PublicKey) (ckh : H256).
(** What the signers give out. *)
Context (cs : list H256) (ns : list PublicKey) (ps : list H256).

Let pks := pk_from_secret_key <$> sks.
Let n := length sks.

Definition honest_signer (st : progress) (j : nat) (pk : PublicKey) : Signer :=
  {| sg_public_key := pk; sg_nonce_commitment := slot_of (got_commitments st) cs j;
     sg_nonce := slot_of (got_nonces st) ns j; sg_partial_signature := slot_of (got_partials st) ps j |}.

Definition honest_session (id : H256) (sk : PrivateKey) (st : progress) : MultiSigSession :=
  {| ses_id := id; ses_message := msg; ses_signers := imap (honest_signer st) pks;
     ses_public_key := pk_from_secret_key sk; ses_private_key := sk; combined_public_key := ck;
     combined_public_key_hash := ckh |}.

Context (Hmsg : length msg = 32%nat) (Hckh : length ckh = 32%nat).
Context (Hsorted : StronglySorted key_le pks) (Hnodup : NoDup pks).
Context (Hcs : length cs = n) (Hns : length ns = n) (Hps : length ps = n).
Context (Hcs32 : Forall (λ c, length c = 32%nat) cs) (Hps32 : Forall (λ c, length c = 32%nat) ps).
Context (Hn : Z.of_nat n ≤ 1000000).

Lemma length_pks : length pks = n.
Proof. apply length_fmap. Qed.

Lemma honest_keys id sk st : session_public_keys (honest_session id sk st) = pks.
Proof.
  unfold session_public_keys, honest_session. cbn [ses_signers]. rewrite fmap_imap.
  apply list_eq. intros j. rewrite list_lookup_imap. by destruct (pks !! j).
Qed.

Lemma honest_index id sk st j pk :
  pks !! j = Some pk → signer_index (honest_session id sk st) pk = Ok j.
Proof.
  intros Hj. rewrite signer_index_keys, honest_keys. apply chain_none_Ok.
  destruct (binary_search_present pk pks Hsorted) as (j' & -> & Hj'); [by eapply list_elem_of_lookup_2|].
  f_equal. by eapply NoDup_lookup.
Qed.

Lemma slot_ok X (l : list H256) j : Forall (λ c, length c = 32%nat) l → option_ok (array_ok 32) (slot_of X l j).
Proof.
  intros Hl. unfold slot_of. case_decide; [|done]. destruct (l !! j) eqn:E; [|done]. simpl.
  exact (Forall_lookup_1 _ _ _ _ Hl E).
Qed.

Lemma honest_ok id sk st : length id = 32%nat → session_ok (honest_session id sk st).
Proof.
  intros Hid. split_and!; [done | done | | done]. cbn [ses_signers honest_session]. split.
  - rewrite length_imap, length_pks. ints.
  - apply Forall_lookup. intros j s Hj. rewrite list_lookup_imap in Hj. destruct (pks !! j); [|done].
    injection Hj as <-. split; by apply slot_ok.
Qed.

(** *** The size of a session *)

Lemma public_key_size pk : (length (enc public_key_codec pk) ≤ 70)%nat.
Proof.
  cbn [enc public_key_codec]. rewrite bytes_size, pk_uncompressed_length. vm_compute. lia.
Qed.

Lemma option_size {A} (c : codec A) (o : option A) k :
  (∀ a, o = Some a → length (enc c a) ≤ k)%nat → (length (enc (option_codec c) o) ≤ k + 1)%nat.
Proof.
  intros Hk. rewrite option_codec_enc. destruct o as [a|]; simpl; [specialize (Hk a eq_refl) |]; lia.
Qed.

Lemma signer_size s : signer_ok s → (length (enc signer_codec s) ≤ 300)%nat.
Proof.
  intros [Hc Hp]. cbn [enc signer_codec]. rewrite !length_app.
  pose proof (public_key_size (sg_public_key s)).
  assert (length (enc (option_codec (array_codec 32)) (sg_nonce_commitment s)) ≤ 32 + 1)%nat.
  { apply option_size. intros a Ea. rewrite Ea in Hc. by rewrite array_size. }
  assert (length (enc (option_codec public_key_codec) (sg_nonce s)) ≤ 70 + 1)%nat.
  { apply option_size. intros. apply public_key_size. }
  assert (length (enc (option_codec (array_codec 32)) (sg_partial_signature s)) ≤ 32 + 1)%nat.
  { apply option_size. intros a Ea. rewrite Ea in Hp. by rewrite array_size. }
  lia.
Qed.

Lemma session_size s :
  session_ok s → Z.of_nat (length (ses_signers s)) ≤ 1000000 →
  Z.of_nat (length (enc session_codec s)) ≤ U32_MAX.
Proof.
  intros (Hi & Hm & [_ Hs] & Hh) Hl. cbn [enc session_codec]. rewrite !length_app, !array_size by done.
  rewrite vec_size. pose proof (public_key_size (ses_public_key s)).
  pose proof (public_key_size (combined_public_key s)).
  assert (length (enc private_key_codec (ses_private_key s)) ≤ 40)%nat.
  { cbn [enc private_key_codec]. rewrite bytes_size, sk_serialize_length. vm_compute. lia. }
  assert (Hz : (sum_sizes (λ a, length (enc signer_codec a)) (ses_signers s) ≤ 300 * length (ses_signers s))%nat).
  { apply sum_sizes_le. eapply Forall_impl; [exact Hs|]. apply signer_size. }
  assert (compact_size (Z.of_nat (length (ses_signers s))) ≤ 5)%nat by (unfold compact_size; repeat case_match; lia).
  unfold U32_MAX. lia.
Qed.

Lemma honest_size id sk st :
  length id = 32%nat → Z.of_nat (length (enc session_codec (honest_session id sk st))) ≤ U32_MAX.
Proof.
  intros Hid. apply session_size; [by apply honest_ok|]. cbn [ses_signers honest_session].
  by rewrite length_imap, length_pks.
Qed.

(** *** What the session computes *)

Lemma collect_honest {B} (slot : Signer → option B) st X (vs : list B) :
  (∀ j pk, slot (honest_signer st j pk) = slot_of X vs j) → length vs = n →
  collect_slots slot (imap (honest_signer st) pks)
  = if decide (full n X) then Ok (zip pks vs) else Err Kind.MultiSigError.
Proof.
  intros Hg Hl. unfold full. rewrite <- length_pks in Hl |- *.
  apply (collect_from slot (honest_signer st) X vs pks 0); [|done].
  intros j pk. split; [done | apply Hg].
Qed.

(** The signer [i] with its session identifier, and the course of the protocol for it. *)
Context (i : nat) (id : H256) (sk : PrivateKey) (s s1 s2 s3 s4 : MuSigState).
Context (c : H256) (nonce : PublicKey) (p : H256) (sigs : list PartialSignature) (sig : SchnorrSignature).
Context (Hid : length id = 32%nat) (Hsk : sks !! i = Some sk).
Context (Hnew : musig_new id msg ck ckh n i sk = Some s) (Hc : cs !! i = Some c).
Context (Hmine : get_my_nonce_commitment s = c).
Context (Hnonce : ns !! i = Some nonce) (Hpub : get_public_nonce (install_commitments 0 s cs) = Some (nonce, s1)).
Context (Hinst : install_nonces 0 s1 ns = Some s2) (Hcomb : combine_nonces s2 = Some s3).
Context (Hp : ps !! i = Some p) (Hsign : partial_sign s3 = Some (p, s4)).
Context (Hsigs : mapM partial_signature_from ps = Some sigs) (Hsig : partial_sig_combine s4 sigs = Some sig).

Let hs := honest_session id sk.

Lemma own_key : pks !! i = Some (pk_from_secret_key sk).
Proof. unfold pks. by rewrite list_lookup_fmap, Hsk. Qed.

Lemma honest_musig st : musig_session (hs st) = Ok s.
Proof.
  unfold musig_session, hs. cbn [honest_session ses_id ses_message ses_public_key].
  change (signer_index _ (pk_from_secret_key sk)) with
    (signer_index (honest_session id sk st) (pk_from_secret_key sk)).
  rewrite (honest_index id sk st i _ own_key).
  unfold session_id_from_slice, message_from_slice. rewrite decide_True, Hmsg by done.
  cbn. rewrite length_imap, length_pks. fold n. by rewrite Hnew.
Qed.

Lemma honest_commitments st session :
  set_commitments (hs st) session (zip pks cs) = Ok (install_commitments 0 session cs).
Proof. apply set_commitments_from; [apply honest_index | by rewrite length_pks]. Qed.

Lemma honest_nonces st : set_nonces (hs st) s1 (zip pks ns) = Ok s2.
Proof. apply (set_nonces_from _ _ _ _ 0); [apply honest_index | by rewrite length_pks | done]. Qed.

Lemma honest_nonce_commitment st : ses_nonce_commitment (hs st) = Ok c.
Proof. unfold ses_nonce_commitment. rewrite honest_musig. by rewrite <- Hmine. Qed.

Lemma collect_commitments st :
  nonce_commitments (hs st)
  = if decide (full n (got_commitments st)) then Ok (zip pks cs) else Err Kind.MultiSigError.
Proof. by apply collect_honest. Qed.

Lemma collect_nonces st :
  nonces (hs st) = if decide (full n (got_nonces st)) then Ok (zip pks ns) else Err Kind.MultiSigError.
Proof. by apply collect_honest. Qed.

Lemma collect_partials st :
  partial_signatures (hs st) = if decide (full n (got_partials st)) then Ok ps else Err Kind.MultiSigError.
Proof.
  unfold partial_signatures, hs. cbn [ses_signers honest_session].
  rewrite (collect_honest sg_partial_signature st (got_partials st) ps) by done.
  case_decide; [|done]. cbn [mbind result_bind]. by rewrite snd_zip by (rewrite length_pks; lia).
Qed.

Lemma honest_nonce st :
  ses_nonce (hs st) = if decide (full n (got_commitments st)) then Ok nonce else Err Kind.MultiSigError.
Proof.
  unfold ses_nonce. rewrite collect_commitments. case_decide; [|done]. cbn [mbind result_bind].
  rewrite honest_musig. cbn [mbind result_bind]. rewrite honest_commitments. cbn [mbind result_bind].
  by rewrite Hpub.
Qed.

Lemma honest_partial st :
  ses_partial_signature (hs st)
  = if decide (full n (got_commitments st) ∧ full n (got_nonces st)) then Ok p else Err Kind.MultiSigError.
Proof.
  unfold ses_partial_signature. rewrite collect_commitments.
  destruct (decide (full n (got_commitments st))) as [Hf|Hf]; [|by rewrite decide_False by tauto].
  cbn [mbind result_bind]. rewrite collect_nonces.
  destruct (decide (full n (got_nonces st))) as [Hf'|Hf']; [|by rewrite decide_False by tauto].
  rewrite decide_True by tauto. cbn [mbind result_bind].
  rewrite honest_musig. cbn [mbind result_bind]. rewrite honest_commitments. cbn [mbind result_bind].
  rewrite Hpub. cbn [chain_none mbind result_bind]. rewrite honest_nonces. cbn [mbind result_bind].
  rewrite Hcomb. cbn [chain_none mbind result_bind]. by rewrite Hsign.
Qed.

Lemma honest_signature st :
  full n (got_commitments st) → full n (got_nonces st) → full n (got_partials st) → ses_signature (hs st) = Ok sig.
Proof.
  intros Hf1 Hf2 Hf3. unfold ses_signature. rewrite collect_commitments, decide_True by done.
  cbn [mbind result_bind]. rewrite collect_nonces, decide_True by done. cbn [mbind result_bind].
  rewrite collect_partials, decide_True by done. cbn [mbind result_bind].
  rewrite honest_musig. cbn [mbind result_bind]. rewrite honest_commitments. cbn [mbind result_bind].
  rewrite Hpub. cbn [chain_none mbind result_bind]. rewrite honest_nonces. cbn [mbind result_bind].
  rewrite Hcomb. cbn [chain_none mbind result_bind]. rewrite Hsign. cbn [chain_none mbind result_bind].
  rewrite Hsigs. cbn [chain_none mbind result_bind]. by rewrite Hsig.
Qed.

(** *** Filling a slot *)

Lemma honest_update st st' j pk f :
  pks !! j = Some pk → f (honest_signer st j pk) = Ok (honest_signer st' j pk) →
  (∀ k pk', k ≠ j → honest_signer st' k pk' = honest_signer st k pk') →
  update_signer (hs st) pk f = Some (Ok (hs st')).
Proof.
  intros Hj Hf Ho. unfold update_signer, hs. rewrite (honest_index id sk st j pk Hj). cbn [run_bind ses_signers honest_session].
  rewrite list_lookup_imap, Hj. cbn [fmap option_fmap option_map mbind option_bind]. rewrite Hf. cbn [run_bind].
  do 2 f_equal. unfold with_signers, honest_session. cbn. f_equal. apply list_eq. intros k.
  rewrite list_lookup_imap. destruct (decide (k = j)) as [->|Hk].
  - rewrite list_lookup_insert_eq; [by rewrite Hj|]. rewrite length_imap. by eapply lookup_lt_Some.
  - rewrite list_lookup_insert_ne, list_lookup_imap by done. destruct (pks !! k); [|done]. simpl. by rewrite Ho.
Qed.

Lemma honest_update_err st j pk f e :
  pks !! j = Some pk → f (honest_signer st j pk) = Err e → update_signer (hs st) pk f = Some (Err e).
Proof.
  intros Hj Hf. unfold update_signer, hs. rewrite (honest_index id sk st j pk Hj). cbn [run_bind ses_signers honest_session].
  rewrite list_lookup_imap, Hj. cbn [fmap option_fmap option_map mbind option_bind]. by rewrite Hf.
Qed.

Lemma slot_of_ne {B} X (l : list B) j k : k ≠ j → slot_of ({[j]} ∪ X) l k = slot_of X l k.
Proof. intros. unfold slot_of. do 2 case_decide; set_solver. Qed.

Lemma slot_of_in {B} X (l : list B) j : slot_of ({[j]} ∪ X) l j = l !! j.
Proof. unfold slot_of. by rewrite decide_True by set_solver. Qed.

Lemma has_honest {B} (slot : Signer → option B) X (vs : list B) st :
  (∀ j pk, slot (honest_signer st j pk) = slot_of X vs j) → is_Some (vs !! i) →
  has_slot slot (hs st) (pk_from_secret_key sk) = Some (Ok (bool_decide (i ∈ X))).
Proof.
  intros Hg [v Hv]. unfold has_slot, hs. rewrite (honest_index id sk st i _ own_key).
  cbn [run_bind ses_signers honest_session]. rewrite list_lookup_imap, own_key.
  cbn [fmap option_fmap option_map mbind option_bind]. rewrite Hg. unfold slot_of.
  case_decide; [rewrite Hv, bool_decide_eq_true_2 | rewrite bool_decide_eq_false_2]; done.
Qed.

Lemma take_commitment st j pk v :
  pks !! j = Some pk → cs !! j = Some v →
  ses_add_nonce_commitment (hs st) pk v
  = Some (if decide (j ∈ got_commitments st) then Err Kind.InvalidInput else Ok (hs (add_commitment j st))).
Proof.
  intros Hj Hvj. unfold ses_add_nonce_commitment. case_decide as Hin.
  - apply (honest_update_err st j); [done|]. unfold signer_add_nonce_commitment. cbn. unfold slot_of.
    by rewrite decide_True, Hvj.
  - apply (honest_update st _ j); [done| |].
    + unfold signer_add_nonce_commitment, honest_signer. cbn. rewrite slot_of_in, Hvj.
      unfold slot_of at 1. by rewrite decide_False.
    + intros k pk' Hk. unfold honest_signer. cbn. by rewrite slot_of_ne.
Qed.

Lemma take_nonce st j pk v :
  pks !! j = Some pk → ns !! j = Some v →
  ses_add_nonce (hs st) pk v
  = Some (if decide (j ∈ got_nonces st) then Err Kind.InvalidInput else Ok (hs (add_nonce_of j st))).
Proof.
  intros Hj Hvj. unfold ses_add_nonce. case_decide as Hin.
  - apply (honest_update_err st j); [done|]. unfold signer_add_nonce. cbn. unfold slot_of.
    by rewrite decide_True, Hvj.
  - apply (honest_update st _ j); [done| |].
    + unfold signer_add_nonce, honest_signer. cbn. rewrite slot_of_in, Hvj.
      unfold slot_of at 1. by rewrite decide_False.
    + intros k pk' Hk. unfold honest_signer. cbn. by rewrite slot_of_ne.
Qed.

Lemma take_partial st j pk v :
  pks !! j = Some pk → ps !! j = Some v →
  ses_add_partial_signature (hs st) pk v
  = Some (if decide (j ∈ got_partials st) then Err Kind.InvalidInput else Ok (hs (add_partial j st))).
Proof.
  intros Hj Hvj. unfold ses_add_partial_signature. case_decide as Hin.
  - apply (honest_update_err st j); [done|]. unfold signer_add_partial_signature. cbn. unfold slot_of.
    by rewrite decide_True, Hvj.
  - apply (honest_update st _ j); [done| |].
    + unfold signer_add_partial_signature, honest_signer. cbn. rewrite slot_of_in, Hvj.
      unfold slot_of at 1. by rewrite decide_False.
    + intros k pk' Hk. unfold honest_signer. cbn. by rewrite slot_of_ne.
Qed.

(** *** The service follows the machine *)

(** The call of a move, with the value that the co-signer gave out. *)
Definition call_of (m : move) : option session_op :=
  match m with
  | Commit => Some OpNonceCommitment
  | TakeCommitment j => c ← cs !! j; pk ← pks !! j; Some (OpAddNonceCommitment c pk)
  | Reveal => Some OpNonce
  | TakeNonce j => x ← ns !! j; pk ← pks !! j; Some (OpAddNonce x pk)
  | Sign => Some OpPartialSignature
  | TakePartial j => x ← ps !! j; pk ← pks !! j; Some (OpAddPartialSignature x pk)
  end.

(** The reply to a move of signer [k] that succeeds. *)
Definition reply_of (k : nat) (m : move) : option session_reply :=
  match m with
  | Commit => RCommitment <$> cs !! k
  | Reveal => RNonce <$> ns !! k
  | Sign => RPartial <$> ps !! k
  | _ => Some RDone
  end.

Lemma own_slot {B} (slot : Signer → option B) X (vs : list B) (add : nat → progress → progress)
    (f : B → Signer → result ErrorKind Signer) st v pk :
  (∀ j k, slot (honest_signer st j k) = slot_of X vs j) → vs !! i = Some v →
  (i ∈ X → add i st = st) →
  update_signer (hs st) pk (f v) = Some (if decide (i ∈ X) then Err Kind.InvalidInput else Ok (hs (add i st))) →
  pk = pk_from_secret_key sk →
  has_slot slot (hs st) pk = Some (Ok true) ∧ hs (add i st) = hs st
  ∨ has_slot slot (hs st) pk = Some (Ok false) ∧ update_signer (hs st) pk (f v) = Some (Ok (hs (add i st))).
Proof.
  intros Hg Hv Ha Hu ->. rewrite (has_honest slot X vs st Hg) by by eexists. rewrite Hu.
  case_decide; [left; rewrite bool_decide_eq_true_2, Ha | right; rewrite bool_decide_eq_false_2]; done.
Qed.

(** A move follows the machine when its call does what the machine says. *)
Definition follows (st : progress) (w : World S) (passphrase : str) (op : session_op) (m : move)
    (rep : session_reply) : Prop :=
  ∃ w', run_op id passphrase op w
        = Some (match make_move n i st m with Ok _ => Ok rep | Err e => Err e end, w')
    ∧ stored w' id passphrase (hs (match make_move n i st m with Ok st' => st' | Err _ => st end)).

Lemma own_moves st w passphrase :
  stored w id passphrase (hs st) →
  follows st w passphrase OpNonceCommitment Commit (RCommitment c)
  ∧ follows st w passphrase OpNonce Reveal (RNonce nonce)
  ∧ follows st w passphrase OpPartialSignature Sign (RPartial p).
Proof.
  intros Hs. pose proof (honest_ok id sk st Hid) as Hok.
  assert (Hsize := λ st, honest_size id sk st Hid). fold hs in Hok, Hsize.
  unfold follows. cbn [make_move run_op]. unfold mbind, sem_bind. split_and!.
  - unfold nonce_commitment.
    destruct (record_own_value ses_nonce_commitment has_nonce_commitment ses_add_nonce_commitment w id passphrase
      (hs st) c (hs (add_commitment i st)) Hs Hok (honest_nonce_commitment st)) as (w' & -> & Hs'); [|done|by exists w'].
    apply (own_slot _ (got_commitments st) cs add_commitment (λ v a, signer_add_nonce_commitment a v)); try done.
    + intros Hin. destruct st. unfold add_commitment. cbn in *. f_equal. set_solver.
    + by apply take_commitment; [apply own_key|].
  - pose proof (honest_nonce st) as Ev. unfold MultiSig.nonce. case_decide as Hf.
    + destruct (record_own_value ses_nonce has_nonce ses_add_nonce w id passphrase
        (hs st) nonce (hs (add_nonce_of i st)) Hs Hok Ev) as (w' & -> & Hs'); [|done|by exists w'].
      apply (own_slot _ (got_nonces st) ns add_nonce_of (λ v a, signer_add_nonce a v)); try done.
      * intros Hin. destruct st. unfold add_nonce_of. cbn in *. f_equal. set_solver.
      * by apply take_nonce; [apply own_key|].
    + rewrite (record_own_error _ _ _ _ _ _ _ _ Hs Hok Ev). by exists w.
  - pose proof (honest_partial st) as Ev. unfold partial_signature. case_decide as Hf.
    + destruct (record_own_value ses_partial_signature has_partial_signature ses_add_partial_signature w id passphrase
        (hs st) p (hs (add_partial i st)) Hs Hok Ev) as (w' & -> & Hs'); [|done|by exists w'].
      apply (own_slot _ (got_partials st) ps add_partial (λ v a, signer_add_partial_signature a v)); try done.
      * intros Hin. destruct st. unfold add_partial. cbn in *. f_equal. set_solver.
      * by apply take_partial; [apply own_key|].
    + rewrite (record_own_error _ _ _ _ _ _ _ _ Hs Hok Ev). by exists w.
Qed.

Lemma take_moves st w passphrase j pk :
  stored w id passphrase (hs st) → pks !! j = Some pk →
  (∀ v, cs !! j = Some v → follows st w passphrase (OpAddNonceCommitment v pk) (TakeCommitment j) RDone)
  ∧ (∀ v, ns !! j = Some v → follows st w passphrase (OpAddNonce v pk) (TakeNonce j) RDone)
  ∧ (∀ v, ps !! j = Some v → follows st w passphrase (OpAddPartialSignature v pk) (TakePartial j) RDone).
Proof.
  intros Hs Epk. pose proof (honest_ok id sk st Hid) as Hok.
  assert (Hsize := λ st, honest_size id sk st Hid). fold hs in Hok, Hsize.
  unfold follows. cbn [make_move run_op]. unfold mbind, sem_bind.
  split_and!; intros v Ev; [unfold add_nonce_commitment | unfold add_nonce | unfold add_partial_signature].
  - destruct (record_other_value (λ s, ses_add_nonce_commitment s pk v) w id passphrase (hs st) _ Hs Hok
      (take_commitment st j pk v Epk Ev)) as (w' & -> & Hs'); [|exists w'; by case_decide].
    intros s'. case_decide; [done|]. by intros [= <-].
  - destruct (record_other_value (λ s, ses_add_nonce s pk v) w id passphrase (hs st) _ Hs Hok
      (take_nonce st j pk v Epk Ev)) as (w' & -> & Hs'); [|exists w'; by case_decide].
    intros s'. case_decide; [done|]. by intros [= <-].
  - destruct (record_other_value (λ s, ses_add_partial_signature s pk v) w id passphrase (hs st) _ Hs Hok
      (take_partial st j pk v Epk Ev)) as (w' & -> & Hs'); [|exists w'; by case_decide].
    intros s'. case_decide; [done|]. by intros [= <-].
Qed.

Lemma run_move m st op rep w passphrase :
  call_of m = Some op → reply_of i m = Some rep → stored w id passphrase (hs st) →
  follows st w passphrase op m rep.
Proof.
  intros Hop Hrep Hs. pose proof (own_moves st w passphrase Hs) as (H1' & H2' & H3').
  destruct m as [|j| |j| |j]; cbn [call_of reply_of] in *.
  - rewrite Hc in Hrep. injection Hop as <-. by injection Hrep as <-.
  - destruct (cs !! j) eqn:Ev; [|done]. destruct (pks !! j) eqn:Epk; [|done]. injection Hop as <-. injection Hrep as <-.
    exact (proj1 (take_moves st w passphrase j _ Hs Epk) _ Ev).
  - rewrite Hnonce in Hrep. injection Hop as <-. by injection Hrep as <-.
  - destruct (ns !! j) eqn:Ev; [|done]. destruct (pks !! j) eqn:Epk; [|done]. injection Hop as <-. injection Hrep as <-.
    exact (proj1 (proj2 (take_moves st w passphrase j _ Hs Epk)) _ Ev).
  - rewrite Hp in Hrep. injection Hop as <-. by injection Hrep as <-.
  - destruct (ps !! j) eqn:Ev; [|done]. destruct (pks !! j) eqn:Epk; [|done]. injection Hop as <-. injection Hrep as <-.
    exact (proj2 (proj2 (take_moves st w passphrase j _ Hs Epk)) _ Ev).
Qed.

(** The replies that the machine predicts. *)
Definition predicted (rs : list (result ErrorKind unit)) (reps : list session_reply) :
  list (result ErrorKind session_reply) :=
  zip_with (λ r rep, match r with Ok _ => Ok rep | Err e => Err e end) rs reps.

Lemma run_moves ms st ops reps w passphrase :
  mapM call_of ms = Some ops → mapM (reply_of i) ms = Some reps → stored w id passphrase (hs st) →
  ∃ w', run_ops id passphrase ops w = Some (predicted (make_moves n i st ms).1 reps, w')
    ∧ stored w' id passphrase (hs (make_moves n i st ms).2).
Proof.
  revert st ops reps w. induction ms as [|m ms IH]; intros st ops reps w Hops Hreps Hs; simpl in *.
  { injection Hops as <-. injection Hreps as <-. by exists w. }
  destruct (call_of m) as [op|] eqn:Eop; [|done]. destruct (reply_of i m) as [rep|] eqn:Erep; [|done].
  destruct (mapM call_of ms) as [ops'|]; [|done]. destruct (mapM (reply_of i) ms) as [reps'|]; [|done].
  injection Hops as <-. injection Hreps as <-. simpl. destruct (run_move m st op rep w passphrase Eop Erep Hs) as (w1 & -> & Hs1). simpl.
  destruct (make_move n i st m) as [st'|e].
  - destruct (IH st' ops' reps' w1 eq_refl eq_refl Hs1) as (w' & -> & Hs'). exists w'.
    by destruct (make_moves n i st' ms).
  - destruct (IH st ops' reps' w1 eq_refl eq_refl Hs1) as (w' & -> & Hs'). exists w'.
    by destruct (make_moves n i st ms).
Qed.
End group.

Section co_sign.
Context `{OsRng, Hashes, Aead, Scale, MuSig} {S : Type} `{!Store S}.
Context `{!AeadLaws, !StoreLaws S, !ScaleLaws, !ScaleSizes, !ClientKeysLaws, !MuSigLaws, !Secp256k1Laws}.

Lemma sort_keys_sorted (l : list PublicKey) : StronglySorted key_le (sort_keys l).
Proof. apply StronglySorted_merge_sort; apply _. Qed.

Lemma new_session_stored msg keys sks sk ck ckh i (cs : list H256) ns (ps : list H256) passphrase (w : World S) :
  let id := (os_fill (entropy w) 32).1 in
  let session := honest_session msg sks ck ckh cs ns ps id sk no_progress in
  pk_from_secret_key <$> sks = sort_keys keys → (2 ≤ length sks)%nat → sks !! i = Some sk →
  pubkey_combine (sort_keys keys) = Ok (ck, ckh) → Z.of_nat (length (enc session_codec session)) ≤ U32_MAX →
  (∃ old, reads (disk w) SESSION_KEYSPACE id passphrase old) →
  ∃ w', new_session msg keys (pk_from_secret_key sk) sk passphrase w = Some (Ok id, w')
    ∧ stored w' id passphrase session.
Proof.
  intros id session Hkeys H2' Hi Hck Hsize [old Hr]. unfold new_session. rewrite decide_False by (by intros []).
  assert (Hlen : length keys = length sks).
  { rewrite <- (sort_keys_perm keys), <- Hkeys. apply length_fmap. }
  rewrite decide_False by lia.
  assert (Hin : pk_from_secret_key sk ∈ sort_keys keys).
  { rewrite <- Hkeys. apply list_elem_of_fmap_2. by eapply list_elem_of_lookup_2. }
  destruct (binary_search_present _ _ (sort_keys_sorted keys) Hin) as (j & -> & _).
  unfold public_key_combine. rewrite Hck. unfold mbind, sem_bind, pure_res, with_entropy. cbn [chain_err].
  subst id. destruct (os_fill (entropy w) 32) as [id e] eqn:Ee. cbn [fst] in *.
  assert (Es : {| ses_id := id; ses_message := msg; ses_signers := new_signer <$> sort_keys keys;
                  ses_public_key := pk_from_secret_key sk; ses_private_key := sk; combined_public_key := ck;
                  combined_public_key_hash := ckh |} = session).
  { unfold session, honest_session. f_equal. rewrite Hkeys. apply list_eq. intros k.
    rewrite list_lookup_fmap, list_lookup_imap. by destruct (sort_keys keys !! k). }
  rewrite Es. destruct (set_session_stored (MkWorld (disk w) e) id passphrase old session Hr Hsize) as (w' & -> & Hs).
  by exists w'.
Qed.

(** C24. Co-signers spend from their address.  For a group of signers with distinct keys
    there are commitments, nonces and partial signatures, one for each signer, such that
    every signer who creates a session and then makes any moves, in any order, taking
    from the others what they gave out, follows the abstract machine: the service's
    replies are the predicted ones, errors included.  Once a signer has everything, its
    service returns a signature that verifies under the group's combined key, and with
    the group's proof the chain accepts it for an address of which they are enough
    signers. *)
Theorem co_signers_sign msg keys sks ids ck ckh :
  length msg = 32%nat → NoDup keys → (2 ≤ length sks)%nat → Z.of_nat (length sks) ≤ 1000000 →
  pk_from_secret_key <$> sks = sort_keys keys → pubkey_combine (sort_keys keys) = Ok (ck, ckh) →
  length ids = length sks → Forall (λ i, length i = 32%nat) ids →
  ∃ cs ns ps, length cs = length sks ∧ length ns = length sks ∧ length ps = length sks
  ∧ ∀ i sk passphrase (w : World S),
    sks !! i = Some sk → ids !! i = Some (os_fill (entropy w) 32).1 →
    (∃ old, reads (disk w) SESSION_KEYSPACE (os_fill (entropy w) 32).1 passphrase old) →
    ∃ id w0, new_session msg keys (pk_from_secret_key sk) sk passphrase w = Some (Ok id, w0)
    ∧ ∀ ms ops reps, mapM (call_of sks cs ns ps) ms = Some ops → mapM (reply_of cs ns ps i) ms = Some reps →
      let '(rs, st) := make_moves (length sks) i no_progress ms in
      ∃ w', run_ops id passphrase ops w0 = Some (predicted rs reps, w')
      ∧ (full (length sks) (got_commitments st) → full (length sks) (got_nonces st) →
         full (length sks) (got_partials st) →
         ∃ sig, signature id passphrase w' = Some (Ok sig, w') ∧ schnorr_verify msg sig ck = Ok ()
         ∧ ∀ all self a, multi_sig_new all self (length keys) = Some (Ok a) → keys ⊆+ all →
           ∃ proof, ms_generate_proof a keys = Some (Ok (Some proof))
             ∧ verify_tx_address (TreeSig sig proof) msg (to_extended_addr a) = Some (Ok ())).
Proof.
  intros Hmsg Hnd H2' Hn Hkeys Hck Hids Hids32.
  destruct (musig_protocol msg ids sks ck ckh Hmsg Hids32 Hids H2') as (cs & ns & ps & Hcs & Hns & Hps & Hrun).
  { by rewrite Hkeys. }
  assert (H32 : Forall (λ c, length c = 32%nat) cs ∧ Forall (λ c, length c = 32%nat) ps).
  { split; apply Forall_lookup; intros k x Hk; pose proof (lookup_lt_Some _ _ _ Hk);
      destruct (lookup_lt_is_Some_2 ids k ltac:(lia)) as [id Eid];
      destruct (lookup_lt_is_Some_2 sks k ltac:(lia)) as [sk Esk];
      destruct (Hrun k id sk Eid Esk) as (s & s1 & s2 & s3 & s4 & nonce & p & sigs & sig & E1 & E2 & E3 & E4 & E5
        & E6 & E7 & E8 & _).
    - rewrite E2 in Hk. injection Hk as <-. apply nonce_commitment_length.
    - rewrite E7 in Hk. injection Hk as <-. by eapply partial_sign_length. }
  destruct H32 as [Hcs32 Hps32].
  exists cs, ns, ps. do 3 (split; [done|]). intros i sk passphrase w Hi Hid Hr.
  destruct (Hrun i _ sk Hid Hi) as (s & s1 & s2 & s3 & s4 & nonce & p & sigs & sig & E1 & E2 & E3 & E4 & E5 & E6
    & E7 & E8 & E9 & E10 & E11).
  pose proof (os_fill_length (entropy w) 32) as Hid32. set (id := (os_fill (entropy w) 32).1) in *.
  assert (Hckh : length ckh = 32%nat) by by eapply combined_hash_length.
  assert (Hsorted : StronglySorted key_le (pk_from_secret_key <$> sks)) by (rewrite Hkeys; apply sort_keys_sorted).
  assert (Hnd' : NoDup (pk_from_secret_key <$> sks)) by by rewrite Hkeys, sort_keys_perm.
  destruct (new_session_stored msg keys sks sk ck ckh i cs ns ps passphrase w Hkeys H2' Hi Hck) as (w0 & E0 & Hs0);
    [by apply honest_size | done|].
  exists id, w0. split; [done|]. intros ms ops reps Hops Hreps.
  destruct (run_moves msg sks ck ckh cs ns ps) with (i := i) (id := id) (sk := sk) (s := s) (s1 := s1) (s2 := s2)
    (s3 := s3) (s4 := s4) (nonce := nonce) (p := p) (sigs := sigs) (sig := sig) (c := get_my_nonce_commitment s)
    (ms := ms) (st := no_progress) (ops := ops) (reps := reps) (w := w0) (passphrase := passphrase)
    as (w' & Er & Hs'); try done.
  destruct (make_moves (length sks) i no_progress ms) as [rs st]. exists w'. split; [done|]. intros Hf1 Hf2 Hf3.
  exists sig. cbn [snd] in Hs'. split_and!.
  - unfold signature, mbind, sem_bind. rewrite (get_session_stored _ _ _ _ Hs') by by apply honest_ok.
    unfold pure_res. by erewrite honest_signature.
  - done.
  - intros all self a Ha Hsub. destruct (multi_sig_group_proof _ _ _ _ keys Ha Hsub eq_refl)
      as (pk & proof & Epk & Ep & Hver).
    exists proof. split; [done|]. rewrite (Hver msg sig Hmsg). f_equal.
    assert (Eck : group_key (sort_keys keys) = Ok ck).
    { unfold group_key, public_key_combine. rewrite Hck.
      assert (length (sort_keys keys) = length sks) by (rewrite <- Hkeys; apply length_fmap).
      destruct (sort_keys keys) as [|k1 [|k2 ks]]; simpl in *; [lia.. | done]. }
    congruence.
Qed.
End co_sign.

Module Example.
Import SessionExample.
#[local] Existing Instance scale_ref_sizes.

(** Two signers who share an address; the first one's moves. *)
Definition group_keys : list PublicKey := [Byte.x09; Byte.x04].
Definition group_secrets : list PrivateKey := [Byte.x04; Byte.x09].
Definition group_combined : PublicKey := Byte.x04.
Definition first_secret : PrivateKey := Byte.x04.
Definition group_message : H256 := replicate 32 Byte.x01.
Definition first_moves : list move :=
  [Commit; Reveal; TakeCommitment 1; Reveal; TakeNonce 1; TakeNonce 1; Sign; TakePartial 1].

Lemma co_signers_sign_witness :
  ∃ id w0 ops w' rs sig,
    new_session group_message group_keys (pk_from_secret_key first_secret) first_secret (bstr "secret") fresh
    = Some (Ok id, w0)
    ∧ length ops = 8%nat ∧ run_ops id (bstr "secret") ops w0 = Some (rs, w')
    ∧ rs !! 1%nat = Some (Err Kind.MultiSigError) ∧ rs !! 5%nat = Some (Err Kind.InvalidInput)
    ∧ signature id (bstr "secret") w' = Some (Ok sig, w')
    ∧ schnorr_verify group_message sig group_combined = Ok ().
Proof.
  destruct (co_signers_sign (S := gmap (list byte) (gmap (list byte) (list byte)))
              group_message group_keys group_secrets [replicate 32 Byte.x07; replicate 32 Byte.x07]
              group_combined (replicate 32 Byte.x00))
    as (cs & ns & ps & Hcs & Hns & Hps & Hall);
    [done | repeat constructor; set_solver | simpl; lia | simpl; lia | by vm_compute | by vm_compute | done
    | repeat constructor |].
  destruct cs as [|c1 [|c2 [|]]], ns as [|n1 [|n2 [|]]], ps as [|p1 [|p2 [|]]]; try done.
  destruct (Hall 0%nat first_secret (bstr "secret") fresh eq_refl eq_refl) as (id & w0 & E0 & Hrun).
  { exists None. vm_compute. reflexivity. }
  specialize (Hrun first_moves _ _ eq_refl eq_refl).
  destruct (make_moves (length group_secrets) 0 no_progress first_moves) as [rs st] eqn:Em.
  pose proof (f_equal fst Em) as Ers. pose proof (f_equal snd Em) as Est. cbn [fst snd] in Ers, Est.
  destruct Hrun as (w' & Er & Hsig).
  destruct Hsig as (sig & Es & Hv & _); [rewrite <- Est; refine (bool_decide_unpack _ _); vm_compute; exact I..|].
  eexists id, w0, _, w', _, sig. split; [exact E0|]. split; [|split; [exact Er|]]; [done|].
  split; [|split; [|split; [exact Es | exact Hv]]]; rewrite <- Ers; vm_compute; reflexivity.
Defined.
End Example.
