(* ===== verification/HdWallet.v ===== *)
(** * HdWallet: hierarchical deterministic keys

    [client-core]: the key indices, chain paths and extended keys of [hd_wallet], the
    seed of [hd_seed.rs] and the service of [hd_key_service.rs] that derives the keys of
    a wallet.  The message authentication code and the arithmetic of keys are
    interfaces.

    The theorems: deriving a public key is deriving the private one, along any path of
    normal indices; and the keys that a wallet derives are a function of its mnemonic
    and of the kinds of the addresses it was asked for, so that a wallet restored from
    the mnemonic, under any name and passphrase and on any storage, has the same keys. *)

From stdpp Require Import base tactics option list gmap strings.
From Stdlib Require Import ZArith Lia.
From S2P Require Import Prelude Text Codec Crypto Client ClientStorage.

(** What the code uses of [ring] and [secp256k1] beyond [ClientKeys], and of [bip39]: a
    mnemonic has a phrase; new keys and mnemonics are drawn from the random numbers. *)
Class HdCrypto `{ClientKeys} `{OsRng} := {
  sk_new : Entropy → PrivateKey * Entropy;
  hmac_sha512 : list byte → list byte → list byte;
  sk_add_assign : PrivateKey → list byte → result SecpError PrivateKey;
  pk_add_exp_assign : PublicKey → list byte → result SecpError PublicKey;
  Mnemonic : Type;
  mnemonic_new : Entropy → Mnemonic * Entropy;
  mnemonic_from_phrase : str → option Mnemonic;
  mnemonic_phrase : Mnemonic → str;
  mnemonic_seed : Mnemonic → list byte;
}.

(** The public key of a sum is the sum of the public keys; a seed has 64 bytes. *)
Class HdCryptoLaws `{HdCrypto} : Prop := {
  hmac_sha512_length key data : length (hmac_sha512 key data) = 64%nat;
  pk_add_exp_assign_spec a b :
    pk_add_exp_assign (pk_from_secret_key b) (sk_serialize a)
    = pk_from_secret_key <$> sk_add_assign a (sk_serialize b);
  mnemonic_seed_length m : length (mnemonic_seed m) = 64%nat;
  mnemonic_from_to m : mnemonic_from_phrase (mnemonic_phrase m) = Some m;
}.

(** ** Indices and paths *)

Definition HARDENED_KEY_START_INDEX : Z := 2147483648.

Inductive KeyIndex :=
  | Normal (i : Z)
  | Hardened (i : Z).
#[global] Instance KeyIndex_eq_dec : EqDecision KeyIndex.
Proof. solve_decision. Defined.

Definition raw_index (self : KeyIndex) : Z := match self with Normal i | Hardened i => i end.

Definition normalize_index (self : KeyIndex) : Z :=
  match self with Normal i => i | Hardened i => i - HARDENED_KEY_START_INDEX end.

Definition key_index_is_valid (self : KeyIndex) : bool :=
  match self with
  | Normal i => i <? HARDENED_KEY_START_INDEX
  | Hardened i => HARDENED_KEY_START_INDEX <=? i
  end.

Definition hardened_from_normalize_index (i : Z) : KeyIndex :=
  if i <? HARDENED_KEY_START_INDEX then Hardened (HARDENED_KEY_START_INDEX + i) else Hardened i.

Definition from_index (i : Z) : KeyIndex :=
  if i <? HARDENED_KEY_START_INDEX then Normal i else Hardened i.

Inductive ChainPathError :=
  | PathInvalid
  | PathBlank
  | PathKeyIndexOutOfRange.

Inductive SubPath :=
  | Root
  | Child (index : KeyIndex).

Definition MASTER_SYMBOL : str := bstr "m".
Definition SEPARATOR : byte := Byte.x2f.
Definition HARDENED_SYMBOLS : list byte := [Byte.x48; Byte.x27].

(** [str::split_terminator]. *)
Definition split_terminator (c : byte) (s : str) : list str :=
  let parts := split_on c s in
  match last parts with
  | Some [] => take (length parts - 1) parts
  | _ => parts
  end.

(** [str::parse::<u32>]. *)
Definition parse_u32 (s : str) : option Z :=
  n ← parse_u64 s; if n <=? U32_MAX then Some n else None.

(** The slice of the last byte panics inside a character. *)
Definition sub_path (s : str) : run ChainPathError SubPath :=
  if decide (s = MASTER_SYMBOL) then Some (Ok Root)
  else match last s with
       | None => Some (Err PathBlank)
       | Some last_char =>
           if in_range 0x80 0xbf last_char then None
           else if decide (last_char ∈ HARDENED_SYMBOLS) then
             Some (index ← ok_or (parse_u32 (take (length s - 1) s)) PathInvalid;
                   Ok (Child (hardened_from_normalize_index index)))
           else Some (index ← ok_or (parse_u32 s) PathInvalid; Ok (Child (from_index index)))
       end.

(** ** Extended keys *)

Inductive HdError :=
  | KeyIndexOutOfRange
  | ChainPath (e : ChainPathError)
  | Secp (e : SecpError).

Definition u32_to_be_bytes (i : Z) : list byte :=
  byte_of_Z <$> [i / 16777216; i / 65536 mod 256; i / 256 mod 256; i mod 256].

Section keys.
Context `{HdCrypto}.

Record ExtendedPrivKey := { ext_private_key : PrivateKey; priv_chain_code : list byte }.
Record ExtendedPubKey := { ext_public_key : PublicKey; pub_chain_code : list byte }.

(** [split_at] of the middle. *)
Definition split_half (sig_bytes : list byte) : list byte * list byte :=
  let mid := (length sig_bytes / 2)%nat in (take mid sig_bytes, drop mid sig_bytes).

Definition with_seed (seed : list byte) : result HdError ExtendedPrivKey :=
  let '(key, chain_code) := split_half (hmac_sha512 (bstr "Bitcoin seed") seed) in
  private_key ← map_err Secp (sk_from_slice key);
  Ok {| ext_private_key := private_key; priv_chain_code := chain_code |}.

Definition sign_hardended_key (self : ExtendedPrivKey) (index : Z) : list byte :=
  hmac_sha512 (priv_chain_code self) (Byte.x00 :: sk_serialize (ext_private_key self) ++ u32_to_be_bytes index).

Definition sign_normal_key (self : ExtendedPrivKey) (index : Z) : list byte :=
  hmac_sha512 (priv_chain_code self)
    (pk_serialize (pk_from_secret_key (ext_private_key self)) ++ u32_to_be_bytes index).

Definition derive_private_key (self : ExtendedPrivKey) (key_index : KeyIndex) :
  result HdError ExtendedPrivKey :=
  if negb (key_index_is_valid key_index) then Err KeyIndexOutOfRange
  else
    let sig_bytes := match key_index with
                     | Hardened index => sign_hardended_key self index
                     | Normal index => sign_normal_key self index
                     end in
    let '(key, chain_code) := split_half sig_bytes in
    private_key ← map_err Secp (sk_from_slice key);
    private_key ← map_err Secp (sk_add_assign private_key (sk_serialize (ext_private_key self)));
    Ok {| ext_private_key := private_key; priv_chain_code := chain_code |}.

Definition derive_public_key (self : ExtendedPubKey) (key_index : KeyIndex) : result HdError ExtendedPubKey :=
  if negb (key_index_is_valid key_index) then Err KeyIndexOutOfRange
  else match key_index with
       | Hardened _ => Err KeyIndexOutOfRange
       | Normal index =>
           let sig_bytes := hmac_sha512 (pub_chain_code self)
                              (pk_serialize (ext_public_key self) ++ u32_to_be_bytes index) in
           let '(key, chain_code) := split_half sig_bytes in
           private_key ← map_err Secp (sk_from_slice key);
           public_key ← map_err Secp (pk_add_exp_assign (ext_public_key self) (sk_serialize private_key));
           Ok {| ext_public_key := public_key; pub_chain_code := chain_code |}
       end.

Definition from_private_key (extended_key : ExtendedPrivKey) : ExtendedPubKey :=
  {| ext_public_key := pk_from_secret_key (ext_private_key extended_key);
     pub_chain_code := priv_chain_code extended_key |}.

Definition ext_priv_serialize (self : ExtendedPrivKey) : list byte :=
  sk_serialize (ext_private_key self) ++ priv_chain_code self.

(** The slices panic on fewer bytes than a key. *)
Definition ext_priv_deserialize (data : list byte) : run HdError ExtendedPrivKey :=
  if decide (length data < 32)%nat then None
  else Some (private_key ← map_err Secp (sk_from_slice (take 32 data));
             Ok {| ext_private_key := private_key; priv_chain_code := drop 32 data |}).

Definition ext_pub_serialize (self : ExtendedPubKey) : list byte :=
  pk_serialize (ext_public_key self) ++ pub_chain_code self.

Definition ext_pub_deserialize (data : list byte) : run HdError ExtendedPubKey :=
  if decide (length data < 33)%nat then None
  else Some (public_key ← map_err Secp (pk_from_slice (take 33 data));
             Ok {| ext_public_key := public_key; pub_chain_code := drop 33 data |}).

(** ** Key chains *)

Record Derivation := {
  depth : Z;
  parent_key : option ExtendedPrivKey;
  key_index : option KeyIndex;
}.

Definition derivation_master : Derivation := {| depth := 0; parent_key := None; key_index := None |}.

(** The loop over the path after its root. *)
Fixpoint chain_loop (key : ExtendedPrivKey) (d : Derivation) (path : list str) :
  run HdError (ExtendedPrivKey * Derivation) :=
  match path with
  | [] => Some (Ok (key, d))
  | s :: path =>
      sub ?← match sub_path s with Some r => Some (map_err ChainPath r) | None => None end;
      match sub with
      | Child child_key_index =>
          child_key ?← Some (derive_private_key key child_key_index);
          chain_loop child_key {| depth := as_u8 (depth d + 1); parent_key := Some key;
                                  key_index := Some child_key_index |} path
      | Root => Some (Err (ChainPath PathInvalid))
      end
  end.

Definition chain_derive (master_key : ExtendedPrivKey) (chain_path : str) :
  run HdError (ExtendedPrivKey * Derivation) :=
  match split_terminator SEPARATOR chain_path with
  | [] => Some (Err (ChainPath PathInvalid))
  | s :: path =>
      match sub_path s with
      | Some (Ok Root) => chain_loop master_key derivation_master path
      | Some _ => Some (Err (ChainPath PathInvalid))
      | None => None
      end
  end.

(** ** Seeds *)

Inductive AddressType := Transfer | Staking.
#[global] Instance AddressType_eq_dec : EqDecision AddressType.
Proof. solve_decision. Defined.

Inductive Network := Mainnet | Testnet | Devnet.

Definition get_bip44_coin_type_from_network (network : Network) : Z :=
  match network with Mainnet => 394 | Testnet => 1 | Devnet => 1 end.

Definition account_of (address_type : AddressType) : Z :=
  match address_type with Transfer => 0 | Staking => 1 end.

(** The path of [format!("m/44'/{}'/{}'/0/{}", coin_type, account, index)]. *)
Definition key_path (coin_type : Z) (address_type : AddressType) (index : Z) : str :=
  bstr "m/44'/" ++ u64_to_string coin_type ++ bstr "'/" ++ u64_to_string (account_of address_type)
  ++ bstr "'/0/" ++ u64_to_string index.

Definition derive_key_pair (seed : list byte) (network : Network) (address_type : AddressType) (index : Z) :
  run ErrorKind (PublicKey * PrivateKey) :=
  let coin_type := get_bip44_coin_type_from_network network in
  master ?← Some (chain_err Kind.InternalError (with_seed seed));
  derived ?← match chain_derive master (key_path coin_type address_type index) with
             | Some r => Some (chain_err Kind.InternalError r)
             | None => None
             end;
  let private_key := ext_private_key derived.1 in
  Some (Ok (pk_from_secret_key private_key, private_key)).
End keys.

(** ** The service *)

Record HdKey := { staking_index : Z; transfer_index : Z; hd_seed : list byte }.

Section service.
Context `{Hashes, Aead, Scale, HdCrypto} {S : Type} `{!Store S} (network : Network).

Definition hd_key_codec : codec HdKey :=
  Codec (λ k, enc u32_codec (staking_index k) ++ enc u32_codec (transfer_index k) ++ enc bytes_codec (hd_seed k))
    (s ⇐ dec u32_codec; t ⇐ dec u32_codec; b ⇐ dec bytes_codec;
     dret {| staking_index := s; transfer_index := t; hd_seed := b |}).

Definition HD_KEYSPACE : list byte := bstr "core_hd_key".

Definition has_wallet (name : str) : io S bool := store_contains_key HD_KEYSPACE name.

Definition add_mnemonic (name : str) (mnemonic : Mnemonic) (passphrase : str) : io S unit :=
  present ← store_get HD_KEYSPACE name;
  match present with
  | Some _ => throw Kind.InvalidInput
  | None =>
      let hd_key := {| staking_index := 0; transfer_index := 0; hd_seed := mnemonic_seed mnemonic |} in
      _ ← set_secure HD_KEYSPACE name (enc hd_key_codec hd_key) passphrase;
      mret tt
  end.

(** [+= 1] on a [u32]. *)
Definition increment (i : Z) : Z := (i + 1) mod (U32_MAX + 1).

Definition increment_index (address_type : AddressType) (hd_key : HdKey) : HdKey :=
  match address_type with
  | Staking => {| staking_index := increment (staking_index hd_key);
                  transfer_index := transfer_index hd_key; hd_seed := hd_seed hd_key |}
  | Transfer => {| staking_index := staking_index hd_key;
                   transfer_index := increment (transfer_index hd_key); hd_seed := hd_seed hd_key |}
  end.

Definition index_of (address_type : AddressType) (hd_key : HdKey) : Z :=
  match address_type with Transfer => transfer_index hd_key | Staking => staking_index hd_key end.

Definition increment_bytes (address_type : AddressType) (bytes : option (list byte)) :
  run ErrorKind (option (list byte)) :=
  hd_key_bytes ?← Some (chain_none Kind.InvalidInput bytes);
  hd_key ?← Some (chain_none Kind.DeserializationError (decode hd_key_codec hd_key_bytes));
  Some (Ok (Some (enc hd_key_codec (increment_index address_type hd_key)))).

(** The update returns what the key held before it. *)
Definition generate_keypair (name passphrase : str) (address_type : AddressType) :
  io S (PublicKey * PrivateKey) :=
  bytes ← fetch_and_update_secure HD_KEYSPACE name passphrase (increment_bytes address_type);
  bytes ← pure_res (chain_none Kind.InvalidInput bytes);
  hd_key_bytes ← pure_run (decrypt_bytes name passphrase bytes);
  hd_key ← pure_res (chain_none Kind.DeserializationError (decode hd_key_codec hd_key_bytes));
  pure_run (derive_key_pair (hd_seed hd_key) network address_type (index_of address_type hd_key)).

Definition hd_clear : io S unit := store_clear HD_KEYSPACE.
End service.

(** ** Paths *)

Lemma split_on_app c s t : c ∉ s → split_on c (s ++ c :: t) = s :: split_on c t.
Proof.
  induction s as [|b s IH]; intros Hs; simpl; [by rewrite decide_True|].
  apply not_elem_of_cons in Hs as [Hb Hs]. rewrite decide_False by done. by rewrite IH.
Qed.

(** A key index as it is written, and a path of them. *)
Definition index_string (k : KeyIndex) : str :=
  match k with
  | Normal i => u64_to_string i
  | Hardened i => u64_to_string (i - HARDENED_KEY_START_INDEX) ++ bstr "'"
  end.

Definition path_string (l : list KeyIndex) : str :=
  MASTER_SYMBOL ++ concat ((λ k, SEPARATOR :: index_string k) <$> l).

Definition key_index_ok (k : KeyIndex) : Prop :=
  match k with
  | Normal i => 0 ≤ i < HARDENED_KEY_START_INDEX
  | Hardened i => HARDENED_KEY_START_INDEX ≤ i ≤ U32_MAX
  end.

Lemma not_in_digits b n : 0 ≤ n → digit_value b = None → b ∉ u64_to_string n.
Proof.
  intros Hn Hb Hin. pose proof (print_digits_chars 20 n Hn) as Hd. rewrite Forall_forall in Hd.
  destruct (Hd b Hin) as (d & Hd' & ->). by rewrite digit_value_digit in Hb.
Qed.

Lemma last_digit n : 0 ≤ n → ∃ d, 0 ≤ d ≤ 9 ∧ last (u64_to_string n) = Some (digit d).
Proof.
  intros Hn. pose proof (print_digits_chars 20 n Hn) as Hd. fold (u64_to_string n) in Hd.
  destruct (last (u64_to_string n)) as [b|] eqn:E.
  - rewrite Forall_forall in Hd. destruct (Hd b) as (d & ? & ->); [|by exists d].
    by apply last_Some_elem_of in E.
  - apply last_None in E. by destruct (print_digits_nonempty 20 n).
Qed.

Lemma sub_path_index k : key_index_ok k → sub_path (index_string k) = Some (Ok (Child k)).
Proof.
  intros Hk. unfold sub_path. rewrite decide_False.
  2:{ intros E. assert (Hin : Byte.x6d ∈ index_string k) by (rewrite E; by left). revert Hin.
      unfold key_index_ok, HARDENED_KEY_START_INDEX in *.
      destruct k as [i|i]; cbn [index_string] in *; [apply not_in_digits; [lia | done]|].
      rewrite elem_of_app. intros [Hin|Hin]; [|set_solver].
      by apply not_in_digits in Hin; [|unfold HARDENED_KEY_START_INDEX; lia|]. }
  destruct k as [i|i]; cbn [index_string key_index_ok] in *; unfold HARDENED_KEY_START_INDEX in *.
  - destruct (last_digit i ltac:(lia)) as (d & Hd & ->).
    assert (Hr : in_range 0x80 0xbf (digit d) = false).
    { unfold in_range, digit. rewrite byte_to_of_Z by ints. lia. }
    rewrite Hr, decide_False.
    + unfold parse_u32. rewrite parse_u64_to_string by ints. simpl.
      destruct (Z.leb_spec i U32_MAX); [|ints]. simpl. unfold from_index, HARDENED_KEY_START_INDEX.
      destruct (Z.ltb_spec i 2147483648); [done | lia].
    + intros Hin. assert (digit_value (digit d) = None); [|by rewrite digit_value_digit in *].
      unfold HARDENED_SYMBOLS in Hin. rewrite !elem_of_cons, elem_of_nil in Hin. by destruct Hin as [->|[->|[]]].
  - change (bstr "'") with [Byte.x27]. rewrite last_snoc. change (in_range 0x80 0xbf Byte.x27) with false. cbn match.
    rewrite decide_True by set_solver. rewrite length_app, Nat.add_sub, take_app_length.
    unfold HARDENED_KEY_START_INDEX.
    unfold parse_u32. rewrite parse_u64_to_string by ints. simpl.
    destruct (Z.leb_spec (i - 2147483648) U32_MAX); [|ints]. simpl.
    unfold hardened_from_normalize_index, HARDENED_KEY_START_INDEX.
    destruct (Z.ltb_spec (i - 2147483648) 2147483648); [do 4 f_equal; lia | ints].
Qed.

Lemma index_string_clean k : key_index_ok k → (SEPARATOR ∉ index_string k) ∧ index_string k ≠ [].
Proof.
  unfold key_index_ok, HARDENED_KEY_START_INDEX. destruct k as [i|i]; cbn [index_string]; intros Hk; split.
  - apply not_in_digits; [lia | done].
  - by apply print_digits_nonempty.
  - rewrite elem_of_app. intros [Hin|Hin]; [by apply not_in_digits in Hin; [|unfold HARDENED_KEY_START_INDEX; lia|]|]. set_solver.
  - by intros [_ ?]%app_eq_nil.
Qed.

Lemma split_path l :
  Forall key_index_ok l → split_terminator SEPARATOR (path_string l) = MASTER_SYMBOL :: (index_string <$> l).
Proof.
  intros Hl. assert (Hs : ∀ s, SEPARATOR ∉ s →
    split_on SEPARATOR (s ++ concat ((λ k, SEPARATOR :: index_string k) <$> l)) = s :: (index_string <$> l)).
  { induction Hl as [|k l Hk Hl IH]; intros s Hs; simpl.
    - rewrite app_nil_r. by apply split_on_none.
    - destruct (index_string_clean k Hk). rewrite split_on_app by done. f_equal. by apply IH. }
  unfold split_terminator, path_string. rewrite Hs by set_solver.
  destruct (decide (l = [])) as [->|Hne]; [done|].
  destruct (last (MASTER_SYMBOL :: (index_string <$> l))) as [[|b s]|] eqn:E; [|done|done].
  exfalso. rewrite last_cons, fmap_last in E. destruct (last l) as [k|] eqn:Ek; simpl in E; [|done].
  injection E as E. apply last_Some_elem_of in Ek. rewrite Forall_forall in Hl.
  by destruct (index_string_clean k (Hl k Ek)).
Qed.

Lemma key_path_string coin_type address_type index :
  key_path coin_type address_type index
  = path_string [Hardened (HARDENED_KEY_START_INDEX + 44); Hardened (HARDENED_KEY_START_INDEX + coin_type);
                 Hardened (HARDENED_KEY_START_INDEX + account_of address_type); Normal 0; Normal index].
Proof.
  unfold key_path, path_string. cbn [fmap list_fmap concat index_string].
  rewrite !Z.add_simpl_l. rewrite !app_nil_r. change (u64_to_string 44) with (bstr "44").
  change (u64_to_string 0) with (bstr "0"). change (bstr "m/44'/") with (MASTER_SYMBOL ++ SEPARATOR :: bstr "44" ++ bstr "'" ++ [SEPARATOR]).
  change (bstr "'/0/") with (bstr "'" ++ SEPARATOR :: bstr "0" ++ [SEPARATOR]).
  change (bstr "'/") with (bstr "'" ++ [SEPARATOR]).
  repeat (rewrite <- ?app_assoc, <- ?app_comm_cons; cbn [app]). done.
Qed.

Section derivation.
Context `{HdCrypto}.

(** Deriving along a list of indices. *)
Fixpoint derive_along (key : ExtendedPrivKey) (d : Derivation) (l : list KeyIndex) :
  result HdError (ExtendedPrivKey * Derivation) :=
  match l with
  | [] => Ok (key, d)
  | k :: l =>
      child ← derive_private_key key k;
      derive_along child {| depth := as_u8 (depth d + 1); parent_key := Some key; key_index := Some k |} l
  end.

Lemma chain_loop_strings key d l :
  Forall key_index_ok l → chain_loop key d (index_string <$> l) = Some (derive_along key d l).
Proof.
  intros Hl. revert key d. induction Hl as [|k l Hk Hl IH]; intros key d; simpl; [done|].
  rewrite sub_path_index by done. simpl. destruct (derive_private_key key k); simpl; [apply IH | done].
Qed.

Lemma chain_derive_path master l :
  Forall key_index_ok l → chain_derive master (path_string l) = Some (derive_along master derivation_master l).
Proof.
  intros Hl. unfold chain_derive. rewrite split_path by done. cbn match.
  change (sub_path MASTER_SYMBOL) with (Some (Ok Root : result ChainPathError SubPath)). cbn match.
  by apply chain_loop_strings.
Qed.

(** Public keys along a list of normal indices. *)
Fixpoint derive_public_along (key : ExtendedPubKey) (l : list Z) : result HdError ExtendedPubKey :=
  match l with
  | [] => Ok key
  | i :: l => child ← derive_public_key key (Normal i); derive_public_along child l
  end.

Lemma derive_public_agrees `{!HdCryptoLaws} key i :
  derive_public_key (from_private_key key) (Normal i) = from_private_key <$> derive_private_key key (Normal i).
Proof.
  unfold derive_public_key, derive_private_key. destruct (negb _); [done|].
  unfold sign_normal_key, from_private_key at 1 2 3. cbn [pub_chain_code ext_public_key].
  destruct (split_half _) as [k c]. destruct (sk_from_slice k) as [t|e]; [|done]. simpl.
  rewrite pk_add_exp_assign_spec. by destruct (sk_add_assign t _).
Qed.
End derivation.

(** Public derivation.  Along any path of normal indices, deriving the public key of
    an extended key gives the public key of what is derived from the extended key, or
    the same error; a hardened index is refused.  The text of a path is read as the
    indices it was written from, whatever they are, so that deriving along the text is
    deriving along the indices. *)
Theorem public_derivation_agrees `{HdCryptoLaws} key :
  (∀ l d, derive_public_along (from_private_key key) l
          = (λ p, from_private_key p.1) <$> derive_along key d (Normal <$> l))
  ∧ (∀ i, derive_public_key (from_private_key key) (Hardened i) = Err KeyIndexOutOfRange)
  ∧ (∀ l, Forall key_index_ok l →
       chain_derive key (path_string l) = Some (derive_along key derivation_master l)).
Proof.
  split_and!.
  - intros l. revert key. induction l as [|i l IH]; intros key d; simpl; [done|].
    rewrite derive_public_agrees. destruct (derive_private_key key (Normal i)); simpl; [apply IH | done].
  - intros i. unfold derive_public_key. by destruct (negb _).
  - apply chain_derive_path.
Qed.

(** ** The keys of a wallet *)

Lemma split_on_Forall (P : byte → Prop) c s : Forall P s → Forall (Forall P) (split_on c s).
Proof.
  induction 1 as [|b s Hb Hs IH]; simpl; [by repeat constructor|]. case_decide; [by constructor|].
  destruct (split_on c s) as [|p ps]; [by repeat constructor|]. apply Forall_cons in IH as [? ?]. by repeat constructor.
Qed.

Definition ascii (b : byte) : Prop := in_range 0x80 0xbf b = false.

Lemma sub_path_ascii s : Forall ascii s → is_Some (sub_path s).
Proof.
  intros Hs. unfold sub_path. case_decide; [done|]. destruct (last s) as [b|] eqn:E; [|done].
  apply last_Some_elem_of in E. rewrite Forall_forall in Hs. rewrite (Hs b E). by case_decide.
Qed.

Lemma ascii_digits n : 0 ≤ n → Forall ascii (u64_to_string n).
Proof.
  intros Hn. eapply Forall_impl; [by apply print_digits_chars|]. intros b (d & Hd & ->).
  unfold ascii, in_range, digit. rewrite byte_to_of_Z by ints. lia.
Qed.

Section wallet_keys.
Context `{Hashes, Aead, Scale, HdCrypto} {S : Type} `{!Store S} (network : Network).
Context `{!AeadLaws, !StoreLaws S, !ScaleLaws, !ScaleSizes, !HdCryptoLaws}.

Lemma chain_derive_total master path : Forall ascii path → is_Some (chain_derive master path).
Proof.
  intros Hp. unfold chain_derive.
  assert (Hs : Forall (Forall ascii) (split_terminator SEPARATOR path)).
  { pose proof (split_on_Forall _ SEPARATOR _ Hp). unfold split_terminator. repeat case_match; auto using Forall_take. }
  destruct (split_terminator SEPARATOR path) as [|s l]; [done|]. apply Forall_cons in Hs as [Hs Hl].
  destruct (sub_path_ascii s Hs) as [[[|k]|e] ->]; try done. revert master. generalize derivation_master.
  induction Hl as [|s' l Hs' Hl IH]; intros d master; simpl; [done|].
  destruct (sub_path_ascii s' Hs') as [[[|k]|e] ->]; simpl; try done.
  destruct (derive_private_key master k); simpl; [apply IH | done].
Qed.

Lemma derive_key_pair_total seed address_type index :
  0 ≤ index → is_Some (derive_key_pair seed network address_type index).
Proof.
  intros Hi. unfold derive_key_pair. destruct (with_seed seed) as [master|]; [|done]. cbn [chain_err run_bind].
  destruct (chain_derive_total master (key_path (get_bip44_coin_type_from_network network) address_type index))
    as [[r|e] ->]; [|done|done].
  assert (0 ≤ get_bip44_coin_type_from_network network) by by destruct network.
  assert (0 ≤ account_of address_type) by by destruct address_type.
  unfold key_path. rewrite !Forall_app. split_and!; try (by apply ascii_digits); by repeat constructor.
Qed.

Definition hd_key_ok (k : HdKey) : Prop :=
  is_u32 (staking_index k) ∧ is_u32 (transfer_index k) ∧ length (hd_seed k) = 64%nat.

Lemma hd_key_codec_ok : codec_ok hd_key_ok hd_key_codec.
Proof.
  intros [s t b] rest (Hs & Ht & Hb). cbn [enc dec hd_key_codec staking_index transfer_index hd_seed] in *.
  rewrite <- !app_assoc. do 2 dec_step. rewrite (dbind_ok (vec_ok any_byte)); [done | auto with codec |].
  apply vec_ok_any. rewrite Hb. ints.
Qed.

Lemma hd_key_size k : hd_key_ok k → Z.of_nat (length (enc hd_key_codec k)) ≤ U32_MAX.
Proof.
  intros (Hs & Ht & Hb). cbn [enc hd_key_codec]. rewrite !length_app, !u32_size, bytes_size, Hb by done. by vm_compute.
Qed.

Definition hd_stored (w : World S) (name passphrase : str) (k : HdKey) : Prop :=
  reads (disk w) HD_KEYSPACE name passphrase (Some (enc hd_key_codec k)).

Lemma increment_index_ok address_type k : hd_key_ok k → hd_key_ok (increment_index address_type k).
Proof.
  intros (Hs & Ht & Hb). assert (Hm : ∀ i, is_u32 (increment i)).
  { intros i. unfold increment. pose proof (Z.mod_pos_bound (i + 1) (U32_MAX + 1) ltac:(done)). split; lia. }
  destruct address_type; split_and!; done || apply Hm.
Qed.

(** One call derives at the current index and moves to the next one. *)
Lemma generate_keypair_step w name passphrase address_type k :
  hd_stored w name passphrase k → hd_key_ok k →
  ∃ r w', derive_key_pair (hd_seed k) network address_type (index_of address_type k) = Some r
    ∧ generate_keypair network name passphrase address_type w = Some (r, w')
    ∧ hd_stored w' name passphrase (increment_index address_type k)
    ∧ same_but (disk w) (disk w') HD_KEYSPACE name.
Proof.
  intros Hst Hk. destruct (derive_key_pair_total (hd_seed k) address_type (index_of address_type k)) as [r Hr].
  { destruct Hk as ([] & [] & _). by destruct address_type. }
  assert (Hf : increment_bytes address_type (Some (enc hd_key_codec k))
               = Some (Ok (Some (enc hd_key_codec (increment_index address_type k))))).
  { unfold increment_bytes. cbn [chain_none run_bind]. by rewrite (decode_ok hd_key_ok) by eauto using hd_key_codec_ok. }
  destruct (update_secure_any _ _ _ _ _ _ _ Hst Hf) as (o & w' & Eu & Hm & Ho).
  destruct (Ho (hd_key_size _ (increment_index_ok _ _ Hk))) as [bytes ->]. destruct Hm as (Hr' & Hsame & Eb).
  exists r, w'. split; [done|]. split; [|done]. unfold generate_keypair, mbind, sem_bind. rewrite Eu.
  unfold hd_stored, reads in Hst. rewrite <- Eb in Hst. destruct bytes as [bytes|]; [|done].
  cbn [decrypt_option] in Hst. unfold pure_res, pure_run. cbn [chain_none].
  destruct (decrypt_bytes name passphrase bytes) as [[msg|]|]; [|done|done]. cbn [run_bind] in Hst.
  assert (msg = enc hd_key_codec k) as -> by congruence.
  rewrite (decode_ok hd_key_ok) by eauto using hd_key_codec_ok. cbn [chain_none]. by rewrite Hr.
Qed.

(** A wallet that asks for keys of these kinds, one after the other. *)
Fixpoint generate_all (name passphrase : str) (ts : list AddressType) (w : World S) :
  option (list (result ErrorKind (PublicKey * PrivateKey)) * World S) :=
  match ts with
  | [] => Some ([], w)
  | t :: ts =>
      '(r, w) ← generate_keypair network name passphrase t w;
      '(rs, w) ← generate_all name passphrase ts w;
      Some (r :: rs, w)
  end.

Definition count (t : AddressType) (ts : list AddressType) : Z := Z.of_nat (length (filter (t =.) ts)).

Lemma generate_all_spec name passphrase ts w k :
  hd_stored w name passphrase k → hd_key_ok k →
  staking_index k + Z.of_nat (length ts) ≤ U32_MAX → transfer_index k + Z.of_nat (length ts) ≤ U32_MAX →
  ∃ rs w', generate_all name passphrase ts w = Some (rs, w') ∧ length rs = length ts
    ∧ same_but (disk w) (disk w') HD_KEYSPACE name ∧ is_Some (store_view (disk w') HD_KEYSPACE !! name)
    ∧ ∀ j t, ts !! j = Some t → ∃ r, rs !! j = Some r
        ∧ derive_key_pair (hd_seed k) network t (index_of t k + count t (take j ts)) = Some r.
Proof.
  revert w k. induction ts as [|t ts IH]; intros w k Hst Hk Hs Ht; cbn [generate_all length] in *.
  { exists [], w. split_and!; try done. unfold hd_stored, reads in Hst. by destruct (_ !! name). }
  destruct (generate_keypair_step w name passphrase t k Hst Hk) as (r & w1 & Hr & -> & Hst1 & Hs1).
  assert (Hinc : index_of t (increment_index t k) = index_of t k + 1
    ∧ (∀ t', t' ≠ t → index_of t' (increment_index t k) = index_of t' k) ∧ hd_seed (increment_index t k) = hd_seed k).
  { destruct Hk as ([] & [] & _). unfold increment_index, increment.
    destruct t; cbn; (split; [apply Z.mod_small; lia|]); (split; [|done]); by intros []. }
  destruct Hinc as (Hi & Hne & Hseed).
  assert (Hb : ∀ t', index_of t' (increment_index t k) + Z.of_nat (length ts) ≤ U32_MAX).
  { intros t'. destruct (decide (t' = t)) as [->|Hd]; [rewrite Hi; destruct t; cbn; lia|].
    rewrite Hne by done. destruct t'; cbn; lia. }
  destruct (IH w1 (increment_index t k) Hst1 (increment_index_ok t k Hk) (Hb Staking) (Hb Transfer))
    as (rs & w2 & E2 & Hl & Hs2 & Hp & Hall). cbn [mbind option_bind]. rewrite E2.
  exists (r :: rs), w2. split_and!; [done | simpl; lia | | done |].
  - intros ks key Hd. by rewrite Hs2, Hs1.
  - intros [|j] t' Hj; cbn [lookup list_lookup take] in *.
    + injection Hj as <-. exists r. split; [done|]. by rewrite Z.add_0_r.
    + destruct (Hall j t' Hj) as (r' & Hr' & Hd). exists r'. split; [done|]. rewrite Hseed in Hd. rewrite <- Hd.
      f_equal. unfold count. rewrite filter_cons. destruct (decide (t' = t)) as [->|Hd'].
      * rewrite Hi. cbn [length]. lia.
      * by rewrite Hne.
Qed.

(** A restored wallet has its keys.  Once a mnemonic is added under a name, the keys
    that are generated, for any sequence of kinds of addresses, are those derived from
    the mnemonic's seed at the index that counts the earlier addresses of the kind: they
    do not depend on the name, the passphrase, the storage or the random numbers.  No
    index is used twice, nothing else in the storage changes, and the mnemonic of the
    name cannot be replaced. *)
Theorem restored_wallet_keys mnemonic name passphrase (w w1 : World S) ts :
  add_mnemonic name mnemonic passphrase w = Some (Ok tt, w1) → Z.of_nat (length ts) ≤ U32_MAX →
  ∃ rs w2, generate_all name passphrase ts w1 = Some (rs, w2) ∧ length rs = length ts
    ∧ (∀ j t, ts !! j = Some t → ∃ r, rs !! j = Some r
         ∧ derive_key_pair (mnemonic_seed mnemonic) network t (count t (take j ts)) = Some r)
    ∧ same_but (disk w) (disk w2) HD_KEYSPACE name
    ∧ ∀ mnemonic' passphrase', add_mnemonic name mnemonic' passphrase' w2 = Some (Err Kind.InvalidInput, w2).
Proof.
  set (k := {| staking_index := 0; transfer_index := 0; hd_seed := mnemonic_seed mnemonic |}).
  assert (Hk : hd_key_ok k) by (split_and!; [done | done | apply mnemonic_seed_length]).
  unfold add_mnemonic at 1, mbind, sem_bind. rewrite get_law.
  destruct (store_view (disk w) HD_KEYSPACE !! name) eqn:Ev; [done|]. fold k. intros Hset Hlen.
  destruct (set_secure_reads HD_KEYSPACE name passphrase (enc hd_key_codec k) w None) as (w' & Es & Hr & Hs1 & _);
    [unfold reads; by rewrite Ev | by apply hd_key_size|].
  rewrite Es in Hset. injection Hset as <-.
  destruct (generate_all_spec name passphrase ts w' k Hr Hk) as (rs & w2 & E2 & Hl & Hs2 & [v Hv] & Hall);
    [subst k; cbn; lia..|].
  exists rs, w2. split_and!; [done | done | | |].
  - intros j t Hj. destruct (Hall j t Hj) as (r & Hrj & Hd). exists r. split; [done|]. by destruct t.
  - intros ks key Hd. by rewrite Hs2, Hs1.
  - intros mnemonic' passphrase'. unfold add_mnemonic, mbind, sem_bind. by rewrite get_law, Hv.
Qed.
End wallet_keys.

(** ** Example *)

Module HdExample.
Export ClientExample StorageExample.
#[export] Existing Instance scale_ref_sizes.

(** Keys are added as numbers; a code has the sum of its message in its first byte. *)
Definition byte_add (a b : byte) : byte := byte_of_Z (as_u8 (byte_to_Z a + byte_to_Z b)).
#[export] Instance hd_ref : @HdCrypto Ref.secp keys_ref rng_ref := {|
  sk_new := λ e, (Byte.x05, e);
  hmac_sha512 := λ _ data, Ref.padded 31 (foldr byte_add Byte.x01 data) ++ replicate 32 Byte.x02;
  sk_add_assign := λ a bs, byte_add a <$> Ref.unpad 31 bs;
  pk_add_exp_assign := λ a bs, byte_add a <$> Ref.unpad 31 bs;
  Mnemonic := byte; mnemonic_new := λ e, (Byte.x03, e);
  mnemonic_from_phrase := head; mnemonic_phrase := λ b, [b]; mnemonic_seed := λ b, replicate 64 b |}.

Lemma byte_add_comm a b : byte_add a b = byte_add b a.
Proof. unfold byte_add. by rewrite Z.add_comm. Qed.

#[export] Instance hd_ref_laws : HdCryptoLaws.
Proof.
  split.
  - intros key data. cbn [hmac_sha512 hd_ref]. by rewrite length_app, length_replicate.
  - intros a b. cbn [pk_add_exp_assign sk_add_assign hd_ref sk_serialize keys_ref pk_from_secret_key].
    rewrite !Ref.unpad_padded. cbn [fmap result_fmap]. by rewrite byte_add_comm.
  - done.
  - done.
Qed.

Definition master : ExtendedPrivKey := {| ext_private_key := Byte.x05 : PrivateKey; priv_chain_code := [Byte.x06] |}.

Lemma public_derivation_agrees_witness :
  derive_public_along (from_private_key master) [7; 8]
  = (λ p, from_private_key p.1) <$> derive_along master derivation_master [Normal 7; Normal 8]
  ∧ chain_derive master (bstr "m/44'/7") = Some (derive_along master derivation_master
      [Hardened 2147483692; Normal 7]).
Proof.
  destruct (public_derivation_agrees master) as (Hp & _ & Ht). split.
  - exact (Hp [7; 8] derivation_master).
  - apply (Ht [Hardened 2147483692; Normal 7]). by repeat constructor.
Defined.

Definition words : @Mnemonic _ _ _ hd_ref := Byte.x03.
Definition added : World (gmap (list byte) (gmap (list byte) (list byte))) :=
  match add_mnemonic (bstr "hd") words (bstr "secret") fresh with Some (_, w) => w | None => fresh end.

Lemma restored_wallet_keys_witness :
  ∃ rs w2 r, generate_all Devnet (bstr "hd") (bstr "secret") [Transfer; Staking; Transfer] added = Some (rs, w2)
    ∧ rs !! 2%nat = Some r
    ∧ derive_key_pair (mnemonic_seed words) Devnet Transfer 1 = Some r.
Proof.
  destruct (restored_wallet_keys Devnet words (bstr "hd") (bstr "secret") fresh added
              [Transfer; Staking; Transfer]) as (rs & w2 & E & _ & Hall & _).
  - assert (E : fst <$> add_mnemonic (bstr "hd") words (bstr "secret") fresh = Some (Ok tt))
      by (vm_compute; reflexivity).
    unfold added. destruct (add_mnemonic (bstr "hd") words (bstr "secret") fresh) as [[r w]|]; [|discriminate E].
    injection E as ->. reflexivity.
  - by vm_compute.
  - destruct (Hall 2%nat Transfer eq_refl) as (r & Hr & Hd). exists rs, w2, r.
    split; [exact E|]. split; [exact Hr | exact Hd].
Defined.
End HdExample.
