(* ===== verification/Services.v ===== *)
(** * Services: keys, addresses and wallets in the encrypted storage

    [client-core/src/service]: [key_service.rs], [root_hash_service.rs] and
    [wallet_service.rs] over the encrypted storage of [ClientStorage], with the encodings
    of wallets and of multi-signature addresses.  A small logic of total correctness for
    stateful code carries the proofs about the services and their clients. *)

From stdpp Require Import base tactics option list gmap sorting strings.
From Stdlib Require Import ZArith Lia.
From S2P Require Import Prelude Text Codec Milli Coin Crypto Merkle Account TxTypes TreeCodec Client WalletSync ClientStorage.

(** ** Encodings *)

Section codecs.
Context `{Hashes, Scale, ClientKeys}.

(** A [BTreeSet] is the vector of its elements in order; decoding collects them. *)
Definition set_codec {K} `{OrdKey K} `{EqDecision K} (c : codec K) : codec (list K) :=
  Codec (enc (vec_codec c)) (l ⇐ dec (vec_codec c); dret (foldl (flip set_insert) [] l)).

Definition wallet_codec : codec Wallet :=
  Codec (λ w, enc public_key_codec (wallet_view_key w) ++ enc (set_codec public_key_codec) (wallet_public_keys w)
              ++ enc (set_codec public_key_codec) (wallet_staking_keys w)
              ++ enc (set_codec (array_codec 32)) (root_hashes w))
    (v ⇐ dec public_key_codec; p ⇐ dec (set_codec public_key_codec); s ⇐ dec (set_codec public_key_codec);
     h ⇐ dec (set_codec (array_codec 32));
     dret {| wallet_view_key := v; wallet_public_keys := p; wallet_staking_keys := s; root_hashes := h |}).

Definition multi_sig_address_codec : codec MultiSigAddress :=
  Codec (λ a, enc u64_codec (ms_m a) ++ enc u64_codec (ms_n a) ++ enc public_key_codec (self_public_key a)
              ++ enc (merkle_tree_codec 33) (merkle_tree a))
    (m ⇐ dec u64_codec; n ⇐ dec u64_codec; k ⇐ dec public_key_codec; t ⇐ dec (merkle_tree_codec 33);
     dret {| ms_m := m; ms_n := n; self_public_key := k; merkle_tree := t |}).
End codecs.

Section services.
Context `{OsRng, Hashes, Aead, Scale, ClientKeys} {S : Type} `{!Store S}.

(** ** The key service *)

Definition KEY_KEYSPACE : list byte := bstr "core_key".

Definition add_keypair (private_key : PrivateKey) (public_key : PublicKey) (passphrase : str) : io S unit :=
  _ ← set_secure KEY_KEYSPACE (pk_serialize_uncompressed public_key) (sk_serialize private_key) passphrase;
  mret tt.

Definition get_private_key (public_key : PublicKey) (passphrase : str) : io S (option PrivateKey) :=
  private_key_bytes ← get_secure KEY_KEYSPACE (pk_serialize_uncompressed public_key) passphrase;
  match private_key_bytes with
  | Some bytes => private_key ← pure_res (chain_err Kind.DeserializationError (sk_from_slice bytes));
                  mret (Some private_key)
  | None => mret None
  end.

Definition key_clear : io S unit := store_clear KEY_KEYSPACE.

(** ** The root hash service *)

Definition ROOT_KEYSPACE : list byte := bstr "core_root_hash".

Definition new_root_hash (public_keys : list PublicKey) (self_public_key : PublicKey) (required_signers : nat)
    (passphrase : str) : io S (H256 * MultiSigAddress) :=
  multi_sig_address ← pure_run (multi_sig_new public_keys self_public_key required_signers);
  let root_hash := ms_root_hash multi_sig_address in
  _ ← set_secure ROOT_KEYSPACE root_hash (enc multi_sig_address_codec multi_sig_address) passphrase;
  mret (root_hash, multi_sig_address).

Definition get_multi_sig_address_from_root_hash (root_hash : H256) (passphrase : str) : io S MultiSigAddress :=
  o ← get_secure ROOT_KEYSPACE root_hash passphrase;
  address_bytes ← pure_res (chain_none Kind.InvalidInput o);
  pure_res (chain_none Kind.DeserializationError (decode multi_sig_address_codec address_bytes)).

Definition rh_generate_proof (root_hash : H256) (public_keys : list PublicKey) (passphrase : str) : io S Proof_ :=
  address ← get_multi_sig_address_from_root_hash root_hash passphrase;
  proof ← pure_run (ms_generate_proof address public_keys);
  pure_res (chain_none Kind.InvalidInput proof).

Definition rh_required_signers (root_hash : H256) (passphrase : str) : io S nat :=
  address ← get_multi_sig_address_from_root_hash root_hash passphrase;
  mret (ms_required_signers address).

Definition rh_public_key (root_hash : H256) (passphrase : str) : io S PublicKey :=
  address ← get_multi_sig_address_from_root_hash root_hash passphrase;
  mret (self_public_key address).

Definition root_hash_clear : io S unit := store_clear ROOT_KEYSPACE.

(** ** The wallet service *)

Definition WALLET_KEYSPACE : list byte := bstr "core_wallet".

Definition load_wallet (name passphrase : str) : io S (option Wallet) :=
  load_secure wallet_codec WALLET_KEYSPACE name passphrase.
Definition save_wallet (name passphrase : str) (wallet : Wallet) : io S unit :=
  save_secure wallet_codec WALLET_KEYSPACE name passphrase wallet.

Definition get_wallet (name passphrase : str) : io S Wallet :=
  o ← load_wallet name passphrase;
  pure_res (chain_none Kind.InvalidInput o).

Definition ws_find_staking_key (name passphrase : str) (redeem_address : RedeemAddress) : io S (option PublicKey) :=
  wallet ← get_wallet name passphrase; mret (find_staking_key wallet redeem_address).
Definition ws_find_root_hash (name passphrase : str) (address : ExtendedAddr) : io S (option H256) :=
  wallet ← get_wallet name passphrase; mret (find_root_hash wallet address).

Definition create_wallet (name passphrase : str) (view_key : PublicKey) : io S unit :=
  present ← store_contains_key WALLET_KEYSPACE name;
  if present : bool then throw Kind.InvalidInput else save_wallet name passphrase (wallet_new view_key).

Definition ws_view_key (name passphrase : str) : io S PublicKey :=
  wallet ← get_wallet name passphrase; mret (wallet_view_key wallet).
Definition ws_public_keys (name passphrase : str) : io S (list PublicKey) :=
  wallet ← get_wallet name passphrase; mret (wallet_public_keys wallet).
Definition ws_staking_keys (name passphrase : str) : io S (list PublicKey) :=
  wallet ← get_wallet name passphrase; mret (wallet_staking_keys wallet).
Definition ws_root_hashes (name passphrase : str) : io S (list H256) :=
  wallet ← get_wallet name passphrase; mret (root_hashes wallet).
Definition ws_staking_addresses (name passphrase : str) : io S (list StakedStateAddress) :=
  wallet ← get_wallet name passphrase; mret (wallet_staking_addresses wallet).
Definition ws_transfer_addresses (name passphrase : str) : io S (list ExtendedAddr) :=
  wallet ← get_wallet name passphrase; mret (transfer_addresses wallet).

Definition wallet_update (f : Wallet → Wallet) (value : option (list byte)) : run ErrorKind (option (list byte)) :=
  wallet_bytes ?← Some (chain_none Kind.InvalidInput value);
  wallet ?← Some (chain_none Kind.DeserializationError (decode wallet_codec wallet_bytes));
  Some (Ok (Some (enc wallet_codec (f wallet)))).

Definition modify_wallet (name passphrase : str) (f : Wallet → Wallet) : io S unit :=
  _ ← fetch_and_update_secure WALLET_KEYSPACE name passphrase (wallet_update f);
  mret tt.

Definition insert_public_key (public_key : PublicKey) (wallet : Wallet) : Wallet :=
  {| wallet_view_key := wallet_view_key wallet;
     wallet_public_keys := set_insert public_key (wallet_public_keys wallet);
     wallet_staking_keys := wallet_staking_keys wallet; root_hashes := root_hashes wallet |}.
Definition insert_staking_key (staking_key : PublicKey) (wallet : Wallet) : Wallet :=
  {| wallet_view_key := wallet_view_key wallet; wallet_public_keys := wallet_public_keys wallet;
     wallet_staking_keys := set_insert staking_key (wallet_staking_keys wallet);
     root_hashes := root_hashes wallet |}.
Definition insert_root_hash (root_hash : H256) (wallet : Wallet) : Wallet :=
  {| wallet_view_key := wallet_view_key wallet; wallet_public_keys := wallet_public_keys wallet;
     wallet_staking_keys := wallet_staking_keys wallet; root_hashes := set_insert root_hash (root_hashes wallet) |}.

Definition add_public_key (name passphrase : str) (public_key : PublicKey) : io S unit :=
  modify_wallet name passphrase (insert_public_key public_key).
Definition add_staking_key (name passphrase : str) (staking_key : PublicKey) : io S unit :=
  modify_wallet name passphrase (insert_staking_key staking_key).
Definition add_root_hash (name passphrase : str) (root_hash : H256) : io S unit :=
  modify_wallet name passphrase (insert_root_hash root_hash).

(** The names must be texts. *)
Definition wallet_names : io S (list str) :=
  keys ← store_keys WALLET_KEYSPACE;
  if forallb utf8_valid keys then mret keys else throw Kind.DeserializationError.

Definition wallet_clear : io S unit := store_clear WALLET_KEYSPACE.
End services.

(** ** Total correctness *)

Section logic.
Context `{OsRng} {S : Type}.

(** The code returns, and what it returns and leaves satisfies [Q]. *)
Definition wp {A} (m : io S A) (w : World S) (Q : result ErrorKind A → World S → Prop) : Prop :=
  ∃ r w', m w = Some (r, w') ∧ Q r w'.

Lemma wp_mono {A} (m : io S A) w (P Q : result ErrorKind A → World S → Prop) :
  wp m w P → (∀ r w', P r w' → Q r w') → wp m w Q.
Proof. intros (r & w' & E & HP) HPQ. exists r, w'. auto. Qed.

Lemma wp_ret {A} (a : A) w (Q : result ErrorKind A → World S → Prop) : Q (Ok a) w → wp (mret a) w Q.
Proof. intros HQ. by exists (Ok a), w. Qed.

Lemma wp_throw {A} e w (Q : result ErrorKind A → World S → Prop) : Q (Err e) w → wp (throw e) w Q.
Proof. intros HQ. by exists (Err e), w. Qed.

Lemma wp_pure {A} r w (Q : result ErrorKind A → World S → Prop) : Q r w → wp (pure_res r) w Q.
Proof. intros HQ. by exists r, w. Qed.

Lemma wp_run {A} r w (Q : result ErrorKind A → World S → Prop) : Q r w → wp (pure_run (Some r)) w Q.
Proof. intros HQ. by exists r, w. Qed.

Lemma wp_bind {A B} (m : io S A) (k : A → io S B) w Q :
  wp m w (λ r w', match r with Ok a => wp (k a) w' Q | Err e => Q (Err e) w' end) → wp (m ≫= k) w Q.
Proof.
  intros (r & w' & E & Hk). unfold wp, mbind, sem_bind. rewrite E. destruct r as [a|e]; [done|].
  by exists (Err e), w'.
Qed.

Lemma wp_eq {A} (m : io S A) w r w' (Q : result ErrorKind A → World S → Prop) :
  wp m w Q → m w = Some (r, w') → Q r w'.
Proof. intros (r1 & w1 & E1 & HQ) E. by rewrite E1 in E; injection E as <- <-. Qed.
End logic.

Ltac wp_step := first [apply wp_ret | apply wp_throw | apply wp_pure | apply wp_bind].

Section secure_logic.
Context `{OsRng, Hashes, Aead} {S : Type} `{!Store S, !AeadLaws, !StoreLaws S}.

(** Reading the key does not panic, whatever the passphrase. *)
Definition openable (d : S) (keyspace key : list byte) : Prop :=
  ∀ passphrase, is_Some (decrypt_option key passphrase (store_view d keyspace !! key)).

Definition same_view (d d' : S) : Prop := ∀ keyspace, store_view d' keyspace = store_view d keyspace.

Lemma same_but_view d d' keyspace key : same_view d d' → same_but d d' keyspace key.
Proof. intros Hv ks k _. by rewrite Hv. Qed.

Lemma reads_view d d' keyspace key passphrase o :
  same_view d d' → reads d keyspace key passphrase o → reads d' keyspace key passphrase o.
Proof. intros Hv. unfold reads. by rewrite Hv. Qed.

Lemma openable_view d d' keyspace key : same_view d d' → openable d keyspace key → openable d' keyspace key.
Proof. intros Hv Ho passphrase. by rewrite Hv. Qed.

Lemma openable_any d keyspace key passphrase r :
  decrypt_option key passphrase (store_view d keyspace !! key) = Some r → openable d keyspace key.
Proof.
  intros E passphrase'. destruct (store_view d keyspace !! key) as [bytes|]; [|done]. cbn [decrypt_option] in *.
  unfold decrypt_bytes in *. case_decide; [done|]. clear E. by destruct (aead_decrypt _ _ _ _).
Qed.

Lemma wp_get keyspace key passphrase w Q :
  openable (disk w) keyspace key →
  (∀ o, reads (disk w) keyspace key passphrase o → Q (Ok o) w) → Q (Err Kind.DecryptionError) w →
  wp (get_secure keyspace key passphrase) w Q.
Proof.
  intros Ho Hok Herr. destruct (Ho passphrase) as [[o|e] E]; unfold wp; rewrite get_secure_eq, E; eexists _, _;
    (split; [done|]); [by apply Hok|]. by rewrite (decrypt_option_err _ _ _ _ E).
Qed.

Lemma wp_get_reads keyspace key passphrase w o Q :
  reads (disk w) keyspace key passphrase o → Q (Ok o) w → wp (get_secure keyspace key passphrase) w Q.
Proof. intros Hr HQ. unfold wp. rewrite (get_secure_reads _ _ _ _ _ Hr). eauto. Qed.

(** A write happens as a whole or not at all. *)
Definition written (d d' : S) (keyspace key : list byte) (passphrase : str) (value : list byte) : Prop :=
  reads d' keyspace key passphrase (Some value) ∧ same_but d d' keyspace key.

Lemma wp_set keyspace key value passphrase w Q :
  openable (disk w) keyspace key →
  (∀ old w', reads (disk w) keyspace key passphrase old → written (disk w) (disk w') keyspace key passphrase value →
    Q (Ok old) w') →
  (∀ e w', disk w' = disk w → Q (Err e) w') →
  wp (set_secure keyspace key value passphrase) w Q.
Proof.
  intros Ho Hok Herr. destruct (Ho passphrase) as [[old|e] E].
  - destruct (set_secure_any keyspace key passphrase value w old E) as (r & w' & Es & Hm & _).
    exists r, w'. split; [done|]. destruct r as [o|e]; [|by apply Herr].
    destruct Hm as (-> & Hr & Hs & _). by apply Hok.
  - exists (Err e), w. split; [|by apply Herr]. unfold set_secure, mbind, sem_bind. by rewrite get_secure_eq, E.
Qed.

Lemma wp_update keyspace key passphrase f w Q :
  openable (disk w) keyspace key →
  (∀ old, reads (disk w) keyspace key passphrase old →
     (∃ e, f old = Some (Err e)) ∨ (∃ value, f old = Some (Ok (Some value)))) →
  (∀ old value w', reads (disk w) keyspace key passphrase old → f old = Some (Ok (Some value)) →
    written (disk w) (disk w') keyspace key passphrase value → Q (Ok (store_view (disk w) keyspace !! key)) w') →
  (∀ e w', same_view (disk w) (disk w') → Q (Err e) w') →
  wp (fetch_and_update_secure keyspace key passphrase f) w Q.
Proof.
  intros Ho Hf Hok Herr. destruct (Ho passphrase) as [[old|e] E].
  - destruct (Hf old E) as [[e He]|[value Hv]].
    + destruct (update_secure_fails keyspace key passphrase f w e) as (d & Eu & Hd); [left; eauto|].
      eexists _, _. split; [done|]. by apply Herr.
    + destruct (update_secure_any _ _ _ _ _ _ _ E Hv) as (r & w' & Eu & Hm & _). exists r, w'. split; [done|].
      destruct r as [o|e]; [|by apply Herr]. destruct Hm as (Hr & Hs & ->). by apply (Hok old value).
  - destruct (update_secure_fails keyspace key passphrase f w Kind.DecryptionError) as (d & Eu & Hd); [right; eauto|].
    eexists _, _. split; [done|]. by apply Herr.
Qed.

Lemma written_openable d d' keyspace key passphrase value ks k :
  written d d' keyspace key passphrase value → openable d ks k → openable d' ks k.
Proof.
  intros [Hr Hs] Ho. destruct (decide ((ks, k) = (keyspace, key))) as [[= -> ->]|Hne].
  - by eapply openable_any.
  - intros p. rewrite (Hs ks k Hne). apply Ho.
Qed.
End secure_logic.

(** ** Sets and encodings *)

Section set_lemmas.
Context {K : Type} `{OrdKey K} `{EqDecision K}.

Definition set_ok (l : list K) : Prop := StronglySorted key_le l ∧ NoDup l.

Lemma elem_of_set_insert k x l : x ∈ set_insert k l ↔ x = k ∨ x ∈ l.
Proof.
  induction l as [|y l IH]; simpl; [set_solver|]. case_decide as Hk; [subst; set_solver|].
  destruct (key_leb k y); [set_solver|]. rewrite !elem_of_cons, IH. set_solver.
Qed.

Lemma set_insert_ok k l : set_ok l → set_ok (set_insert k l).
Proof.
  intros [Hs Hn]. induction Hs as [|y l Hs IH Hy]; simpl; [by repeat constructor; set_solver|].
  apply NoDup_cons in Hn as [Hny Hn]. destruct (IH Hn) as [IHs IHn]. case_decide as Hk; [by repeat constructor|].
  rewrite Forall_forall in Hy. destruct (key_leb k y) eqn:Ek.
  - split.
    + repeat constructor; auto; apply Forall_forall; [done|]. intros z Hz. transitivity y; auto.
    + constructor; [|by constructor]. intros [->|Hin]%elem_of_cons; [done|].
      apply Hk, (anti_symm key_le); [done | auto].
  - split.
    + constructor; [done|]. apply Forall_forall. intros z [->|Hz]%elem_of_set_insert; [|auto].
      destruct (total key_le y k) as [?|Hle]; [done|]. unfold key_le in Hle. congruence.
    + constructor; [|done]. rewrite elem_of_set_insert. intros [->|?]; done.
Qed.

(** Collecting the elements of a set in order gives the set. *)
Lemma set_insert_last k l : Forall (λ x, key_le x k ∧ x ≠ k) l → set_insert k l = l ++ [k].
Proof.
  induction 1 as [|x l [Hle Hne] Hl IH]; simpl; [done|]. rewrite decide_False by done.
  destruct (key_leb k x) eqn:Ek; [|by rewrite IH]. destruct Hne. by apply (anti_symm key_le).
Qed.

Lemma set_collect l : set_ok l → foldl (flip set_insert) [] l = l.
Proof.
  induction l as [|k l IH] using rev_ind; [done|]. intros [Hs Hn]. rewrite foldl_snoc.
  apply StronglySorted_app in Hs as (Hall & Hs & _). apply NoDup_app in Hn as (Hn & Hd & _).
  rewrite IH by done. cbn [flip]. apply set_insert_last. apply Forall_forall. intros x Hx. split.
  - apply (Hall x k Hx). by left.
  - intros ->. apply (Hd k Hx). by left.
Qed.
End set_lemmas.

Section codec_lemmas.
Context `{Hashes, Scale, ClientKeys} `{!ScaleLaws, !ClientKeysLaws}.

Lemma set_codec_ok {K} `{OrdKey K} `{EqDecision K} (wf : K → Prop) (c : codec K) :
  codec_ok wf c → codec_ok (λ l, vec_ok wf l ∧ set_ok l) (set_codec c).
Proof.
  intros Hc l rest [Hv Hs]. cbn [enc dec set_codec]. rewrite (dbind_ok (vec_ok wf)) by (done || by apply vec_codec_ok).
  by rewrite set_collect.
Qed.

Definition wallet_ok (w : Wallet) : Prop :=
  set_ok (wallet_public_keys w) ∧ set_ok (wallet_staking_keys w) ∧ set_ok (root_hashes w)
  ∧ Forall (array_ok 32) (root_hashes w).

(** The sets fit the length of a vector. *)
Definition wallet_fits (w : Wallet) : Prop :=
  Z.of_nat (length (wallet_public_keys w)) ≤ U32_MAX ∧ Z.of_nat (length (wallet_staking_keys w)) ≤ U32_MAX
  ∧ Z.of_nat (length (root_hashes w)) ≤ U32_MAX.

Lemma wallet_codec_ok : codec_ok (λ w, wallet_ok w ∧ wallet_fits w) wallet_codec.
Proof.
  intros [v p s h] rest [(Hp & Hs & Hh & Hf) (Lp & Ls & Lh)].
  cbn [enc dec wallet_codec wallet_view_key wallet_public_keys wallet_staking_keys root_hashes] in *.
  rewrite <- !app_assoc. dec_step.
  assert (Hk : ∀ l : list PublicKey, Forall (λ _, True) l) by (intros; by apply Forall_true).
  rewrite !(dbind_ok _ _ _ _ _ (set_codec_ok (λ _, True) public_key_codec public_key_codec_ok)) by done.
  by rewrite (dbind_ok _ _ _ _ _ (set_codec_ok (array_ok 32) (array_codec 32) (array_codec_ok 32))).
Qed.

Definition multi_sig_sized (a : MultiSigAddress) : Prop :=
  is_u64 (ms_m a) ∧ is_u64 (ms_n a) ∧ merkle_tree_sized 33 (merkle_tree a).

Lemma multi_sig_codec_ok : codec_ok multi_sig_sized multi_sig_address_codec.
Proof.
  intros [m n k t] rest (Hm & Hn & Ht).
  cbn [enc dec multi_sig_address_codec ms_m ms_n self_public_key merkle_tree] in *.
  rewrite <- !app_assoc. do 3 dec_step.
  by rewrite (dbind_ok _ _ _ _ _ (merkle_tree_codec_ok 33)).
Qed.

Lemma length_combinations {A} (l : list A) k :
  Z.of_nat (length (combinations l k)) ≤ 2 ^ Z.of_nat (length l).
Proof.
  revert k. induction l as [|x l IH]; intros [|k]; cbn [combinations length]; try done.
  - pose proof (Z.pow_pos_nonneg 2 (Z.of_nat (S (length l)))). lia.
  - rewrite length_app, length_fmap, Nat2Z.inj_add, Nat2Z.inj_succ, Z.pow_succ_r by lia.
    pose proof (IH k). pose proof (IH (S k)). lia.
Qed.

(** An address of up to 60 keys has a tree whose size is a [u64]. *)
Lemma multi_sig_new_sized `{!Secp256k1Laws} keys self k a :
  multi_sig_new keys self k = Some (Ok a) → (length keys ≤ 60)%nat → multi_sig_sized a.
Proof.
  unfold multi_sig_new. destruct (_ || _) eqn:Eb; [done|]. intros Ha Hl.
  apply orb_false_iff in Eb as [Eb _]. apply orb_false_iff in Eb as [Eb _].
  apply orb_false_iff in Eb as [Eb _]. apply Nat.ltb_ge in Eb.
  destruct (public_key_combinations keys k) as [combined|] eqn:Ec; [|done]. cbn [run_bind] in Ha.
  destruct (merkle_new combined) as [t|] eqn:Et; [|done]. cbn [mbind option_bind] in Ha. injection Ha as <-.
  assert (Hc : Z.of_nat (length combined) ≤ 2 ^ Z.of_nat (length keys) ∧ Forall (array_ok 33) combined).
  { unfold public_key_combinations in Ec. destruct keys as [|key keys]; [done|].
    destruct (_ <? _)%nat; [done|]. destruct (_ =? _)%nat; [done|].
    destruct (mapM _ _) as [raws|] eqn:Em; [|done]. cbn [mbind result_bind] in Ec. injection Ec as <-.
    apply mapM_Ok in Em. rewrite sort_keys_perm. split.
    - rewrite <- (Forall2_length _ _ _ Em). apply length_combinations.
    - apply Forall_forall. intros raw Hr. apply Forall2_flip in Em.
      destruct (Forall2_elem_l _ _ _ raw Em Hr) as (group & _ & Hg). simpl in Hg. rewrite combine_group_key in Hg.
      destruct (group_key (sort_keys group)) as [pk|]; [|done]. injection Hg as <-. apply pk_serialize_length. }
  destruct Hc as [Hlen Hsz].
  assert (Hp : 2 ^ Z.of_nat (length keys) ≤ 2 ^ 60) by (apply Z.pow_le_mono_r; lia).
  split_and!; cbn [ms_m ms_n merkle_tree]; [split; ints.. |].
  eapply merkle_new_sized; [done | done|]. change (2 ^ 60) with 1152921504606846976 in Hp. ints.
Qed.
End codec_lemmas.
