(* ===== verification/WalletStore.v ===== *)
(** * WalletStore: the state of a wallet in the encrypted storage

    [client-core/src/service/wallet_state_service.rs] with the encodings of
    [types/transaction_change.rs]: the balance, the history and the unspent outputs of
    [WalletSync] are kept under the wallet's name; a memento is applied as a whole. *)

From stdpp Require Import base tactics option list gmap strings.
From Stdlib Require Import ZArith Lia.
From S2P Require Import Prelude Text Codec Coin Crypto Merkle Account TxTypes BitVec Filter Client WalletBuilder WalletSync ClientStorage Services.

#[global] Instance TxoPointer_ord : OrdKey TxoPointer.
Proof.
  refine {| key_leb p q := key_leb (id p, index p) (id q, index q) |}.
  - intros p q. apply key_leb_total.
  - intros p q r. apply key_leb_trans.
  - intros [i j] [k l] Hp Hq. pose proof (key_leb_antisym _ _ Hp Hq) as E. by injection E as -> ->.
Defined.

(** ** Encodings *)

Section codecs.
Context `{Hashes, Scale, Hex, BitVecLib, ClientKeys, TimeLib}.

Definition transaction_input_codec : codec TransactionInput :=
  Codec (λ i, enc txo_pointer_codec (pointer i) ++ enc (option_codec tx_out_codec) (in_output i))
    (p ⇐ dec txo_pointer_codec; o ⇐ dec (option_codec tx_out_codec); dret {| pointer := p; in_output := o |}).

Definition transaction_type_codec : codec TransactionType :=
  Codec (λ t, [match t with
               | TypeTransfer => Byte.x00
               | TypeWithdraw => Byte.x01
               | TypeUnbond => Byte.x02
               | TypeDeposit => Byte.x03
               end])
    (tag ⇐ read_byte;
     match tag with
     | Byte.x00 => dret TypeTransfer
     | Byte.x01 => dret TypeWithdraw
     | Byte.x02 => dret TypeUnbond
     | Byte.x03 => dret TypeDeposit
     | _ => dfail
     end).

Definition balance_change_codec : codec BalanceChange :=
  Codec (λ b, match b with
              | Incoming value => Byte.x00 :: enc coin_codec value
              | Outgoing value fee => Byte.x01 :: enc coin_codec value ++ enc coin_codec fee
              | NoChange => [Byte.x02]
              end)
    (tag ⇐ read_byte;
     match tag with
     | Byte.x00 => v ⇐ dec coin_codec; dret (Incoming v)
     | Byte.x01 => v ⇐ dec coin_codec; f ⇐ dec coin_codec; dret (Outgoing v f)
     | Byte.x02 => dret NoChange
     | _ => dfail
     end).

(** The time is written as its text. *)
Definition transaction_change_codec : codec TransactionChange :=
  Codec (λ c, enc (array_codec 32) (change_id c) ++ enc (vec_codec transaction_input_codec) (change_inputs c)
              ++ enc (vec_codec tx_out_codec) (change_outputs c) ++ enc balance_change_codec (balance_change c)
              ++ enc transaction_type_codec (transaction_type c) ++ enc u64_codec (change_height c)
              ++ enc string_codec (to_rfc3339 (change_time c)))
    (i ⇐ dec (array_codec 32); ins ⇐ dec (vec_codec transaction_input_codec); outs ⇐ dec (vec_codec tx_out_codec);
     b ⇐ dec balance_change_codec; t ⇐ dec transaction_type_codec; h ⇐ dec u64_codec; s ⇐ dec string_codec;
     match time_from_str s with
     | Some time => dret {| change_id := i; change_inputs := ins; change_outputs := outs; balance_change := b;
                            transaction_type := t; change_height := h; change_time := time |}
     | None => dfail
     end).

Definition wallet_state_codec : codec WalletState :=
  Codec (λ s, enc (btree_codec txo_pointer_codec tx_out_codec) (unspent_transactions s)
              ++ enc (btree_codec (array_codec 32) transaction_change_codec) (transaction_history s)
              ++ enc coin_codec (balance s))
    (u ⇐ dec (btree_codec txo_pointer_codec tx_out_codec);
     h ⇐ dec (btree_codec (array_codec 32) transaction_change_codec); b ⇐ dec coin_codec;
     dret {| unspent_transactions := u; transaction_history := h; balance := b |}).
End codecs.

(** ** The service *)

Section service.
Context `{OsRng, Hashes, Aead, Scale, Hex, BitVecLib, ClientKeys, TimeLib} {S : Type} `{!Store S}.

Definition STATE_KEYSPACE : list byte := bstr "core_wallet_state".

Definition load_wallet_state (name passphrase : str) : io S (option WalletState) :=
  load_secure wallet_state_codec STATE_KEYSPACE name passphrase.
Definition save_wallet_state (name passphrase : str) (state : WalletState) : io S unit :=
  save_secure wallet_state_codec STATE_KEYSPACE name passphrase state.

Definition get_wallet_state (name passphrase : str) : io S WalletState :=
  o ← load_wallet_state name passphrase; mret (default wallet_state_default o).

Definition has_unspent_transactions (name passphrase : str) (inputs : list TxoPointer) : io S bool :=
  state ← get_wallet_state name passphrase;
  mret (forallb (λ input, bool_decide (is_Some (unspent_transactions state !! input))) inputs).

Definition get_unspent_transactions (name passphrase : str) : io S (gmap TxoPointer TxOut) :=
  state ← get_wallet_state name passphrase; mret (unspent_transactions state).
Definition get_transaction_history (name passphrase : str) : io S (gmap TxId TransactionChange) :=
  state ← get_wallet_state name passphrase; mret (transaction_history state).
Definition ss_get_transaction_change (name passphrase : str) (i : TxId) : io S (option TransactionChange) :=
  state ← get_wallet_state name passphrase; mret (get_transaction_change state i).
Definition ss_get_output (name passphrase : str) (input : TxoPointer) : io S (option TxOut) :=
  state ← get_wallet_state name passphrase; pure_res (get_output state input).
Definition get_balance (name passphrase : str) : io S Coin :=
  state ← get_wallet_state name passphrase; mret (balance state).

Definition parse_wallet_state (bytes : option (list byte)) : result ErrorKind WalletState :=
  o ← decode_or_err wallet_state_codec bytes; Ok (default wallet_state_default o).

Definition state_update (f : WalletState → result ErrorKind WalletState) (bytes : option (list byte)) :
  run ErrorKind (option (list byte)) :=
  state ?← Some (parse_wallet_state bytes);
  state ?← Some (f state);
  Some (Ok (Some (enc wallet_state_codec state))).

Definition modify_state (name passphrase : str) (f : WalletState → result ErrorKind WalletState) : io S unit :=
  _ ← fetch_and_update_secure STATE_KEYSPACE name passphrase (state_update f);
  mret tt.

Definition ss_apply_memento (name passphrase : str) (memento : list MementoOperation) : io S unit :=
  modify_state name passphrase (λ state, apply_memento state memento).

(** The state that was stored is read again; the [unwrap] panics if it is gone. *)
Definition modify_wallet_state (name passphrase : str) (f : WalletState → result ErrorKind WalletState) :
  io S WalletState :=
  _ ← fetch_and_update_secure STATE_KEYSPACE name passphrase (state_update f);
  o ← load_wallet_state name passphrase;
  match o with
  | Some state => mret state
  | None => panic
  end.

Definition ss_delete_wallet_state (name passphrase : str) : io S unit :=
  _ ← get_wallet_state name passphrase;
  _ ← store_delete STATE_KEYSPACE name;
  mret tt.

Definition delete_wallet_state (name : str) : io S unit := _ ← store_delete STATE_KEYSPACE name; mret tt.
Definition state_clear : io S unit := store_clear STATE_KEYSPACE.
End service.

(** ** Round trip *)

Section round_trip.
Context `{Hashes, Scale, Hex, BitVecLib, ClientKeys, TimeLib} `{!ScaleLaws}.

Definition balance_change_ok (b : BalanceChange) : Prop :=
  match b with
  | Incoming value => coin_ok value
  | Outgoing value fee => coin_ok value ∧ coin_ok fee
  | NoChange => True
  end.

Definition transaction_change_ok (c : TransactionChange) : Prop :=
  array_ok 32 (change_id c)
  ∧ vec_ok (λ i, txo_ok (pointer i) ∧ option_ok out_ok (in_output i)) (change_inputs c)
  ∧ vec_ok out_ok (change_outputs c) ∧ balance_change_ok (balance_change c) ∧ is_u64 (change_height c).

Definition wallet_state_ok (s : WalletState) : Prop :=
  btree_ok txo_ok out_ok (unspent_transactions s)
  ∧ btree_ok (array_ok 32) transaction_change_ok (transaction_history s) ∧ coin_ok (balance s).

Lemma transaction_input_codec_ok :
  codec_ok (λ i, txo_ok (pointer i) ∧ option_ok out_ok (in_output i)) transaction_input_codec.
Proof.
  intros [p o] rest [Hp Ho]. cbn [enc dec transaction_input_codec pointer in_output] in *. rewrite <- app_assoc.
  rewrite (dbind_ok _ _ _ _ _ txo_pointer_codec_ok) by done.
  by rewrite (dbind_ok _ _ _ _ _ (option_codec_ok _ _ tx_out_codec_ok)).
Qed.

Lemma balance_change_codec_ok : codec_ok balance_change_ok balance_change_codec.
Proof.
  intros [v|v f|] rest Hb; cbn [enc dec balance_change_codec balance_change_ok] in *; rewrite <- ?app_comm_cons, dbind_read_byte.
  - by dec_step.
  - destruct Hb. rewrite <- app_assoc. by do 2 dec_step.
  - done.
Qed.

Lemma transaction_type_codec_ok : codec_ok (λ _, True) transaction_type_codec.
Proof. by intros [] rest _. Qed.

Lemma transaction_change_codec_ok : codec_ok transaction_change_ok transaction_change_codec.
Proof.
  intros [i ins outs b t h time] rest (Hi & Hins & Houts & Hb & Hh).
  cbn [enc dec transaction_change_codec change_id change_inputs change_outputs balance_change transaction_type
       change_height change_time] in *.
  rewrite <- !app_assoc. dec_step.
  rewrite (dbind_ok _ _ _ _ _ (vec_codec_ok _ _ transaction_input_codec_ok)) by done.
  rewrite (dbind_ok _ _ _ _ _ (vec_codec_ok _ _ tx_out_codec_ok)) by done.
  rewrite (dbind_ok _ _ _ _ _ balance_change_codec_ok), (dbind_ok _ _ _ _ _ transaction_type_codec_ok) by done.
  dec_step. rewrite (dbind_ok _ _ _ _ _ string_codec_ok) by apply rfc3339_ok. by rewrite time_from_to.
Qed.

Lemma wallet_state_codec_ok : codec_ok wallet_state_ok wallet_state_codec.
Proof.
  intros [u h b] rest (Hu & Hh & Hb).
  cbn [enc dec wallet_state_codec unspent_transactions transaction_history balance] in *. rewrite <- !app_assoc.
  rewrite (dbind_ok _ _ _ _ _ (btree_codec_ok _ _ _ _ txo_pointer_codec_ok tx_out_codec_ok)) by done.
  rewrite (dbind_ok _ _ _ _ _ (btree_codec_ok _ _ _ _ (array_codec_ok 32) transaction_change_codec_ok)) by done.
  by dec_step.
Qed.
End round_trip.

Section recorded.
Context `{OsRng, Hashes, Aead, Scale, Hex, BitVecLib, ClientKeys, TimeLib} {S : Type} `{!Store S}.
Context `{!AeadLaws, !StoreLaws S, !ScaleLaws}.

(** The recorded state of a wallet; a wallet that was not synchronised has none. *)
Definition state_at (d : S) p (name : str) (state : WalletState) : Prop :=
  reads d STATE_KEYSPACE name p (Some (enc wallet_state_codec state)) ∧ wallet_state_ok state
  ∨ reads d STATE_KEYSPACE name p None ∧ state = wallet_state_default.

Lemma get_wallet_state_at p name state (w : World S) :
  state_at (disk w) p name state → get_wallet_state name p w = Some (Ok state, w).
Proof.
  unfold get_wallet_state, load_wallet_state, load_secure, mbind, sem_bind.
  intros [[Hr Hok]|[Hr ->]]; rewrite (get_secure_reads _ _ _ _ _ Hr); [|done].
  unfold pure_res, decode_or_err. by rewrite (decode_ok _ _ _ wallet_state_codec_ok).
Qed.

Lemma state_at_ok d p name state : state_at d p name state → wallet_state_ok state.
Proof. intros [[_ Hok]|[_ ->]]; [done|]. split_and!; try done. Qed.

Lemma state_at_parse d p name state :
  state_at d p name state → ∃ o, reads d STATE_KEYSPACE name p o ∧ parse_wallet_state o = Ok state.
Proof.
  intros [[Hr Hok]|[Hr ->]]; [|by exists None]. eexists. split; [exact Hr|]. unfold parse_wallet_state, decode_or_err.
  by rewrite (decode_ok _ _ _ wallet_state_codec_ok).
Qed.

(** What fits into the encrypted storage. *)
Definition storable (s : WalletState) : Prop :=
  wallet_state_ok s ∧ Z.of_nat (length (enc wallet_state_codec s)) ≤ U32_MAX.

Lemma modify_state_at name p f state state' (w : World S) :
  state_at (disk w) p name state → f state = Ok state' → storable state' →
  ∃ w', modify_wallet_state name p f w = Some (Ok state', w')
    ∧ reads (disk w') STATE_KEYSPACE name p (Some (enc wallet_state_codec state'))
    ∧ same_but (disk w) (disk w') STATE_KEYSPACE name.
Proof.
  intros (o & Hr & Hp)%state_at_parse Hf [Hok Hl].
  assert (Hu : state_update f o = Some (Ok (Some (enc wallet_state_codec state')))).
  { unfold state_update. rewrite Hp. cbn [run_bind]. rewrite Hf. done. }
  destruct (update_secure_any _ _ _ _ _ _ _ Hr Hu) as (r & w' & Eu & Hm & Ho). destruct (Ho Hl) as [bytes ->].
  destruct Hm as (Hr' & Hs & _). exists w'. split; [|done]. unfold modify_wallet_state, mbind, sem_bind. rewrite Eu.
  unfold load_wallet_state, load_secure, mbind, sem_bind. rewrite (get_secure_reads _ _ _ _ _ Hr').
  unfold pure_res, decode_or_err. by rewrite (decode_ok _ _ _ wallet_state_codec_ok).
Qed.
End recorded.
