(* ===== verification/WalletClient.v ===== *)
(** * WalletClient: the wallet over its services

    [client-core]: [signer/wallet_signer.rs], which signs with the keys of the storage,
    and [wallet/default_wallet_client.rs], which composes the services of [Services],
    [HdWallet], [WalletStore] and [MultiSig] with the builder of [WalletBuilder].

    The theorems: whatever operations are done on the wallets of a storage, every
    address that a wallet lists keeps its keys, so that the wallet signs for it and the
    chain accepts the signature; a transfer that the wallet creates from its recorded
    outputs is accepted by the chain; and a failed creation can take away a wallet's
    ability to make addresses. *)

From stdpp Require Import base tactics option list gmap sorting strings.
From Stdlib Require Import ZArith Lia.
From S2P Require Import Prelude Text Codec Milli Coin Crypto Merkle Params Account TxTypes Validation BitVec Filter TreeCodec.
From S2P Require Import Client WalletBuilder WalletSync ClientStorage MultiSig HdWallet Services WalletStore.

Inductive WalletKind := Basic | HD.

Section client.
Context `{Hashes, Aead, Scale, Hex, BitVecLib, TimeLib, HdCrypto} `{!MuSig} {S : Type} `{!Store S}.

(** ** The signer of a wallet *)

Definition wallet_sign_condition (name passphrase : str) (signing_addr : ExtendedAddr) : io S SignCondition :=
  maybe_root_hash ← ws_find_root_hash name passphrase signing_addr;
  mret (match maybe_root_hash with None => Impossible | Some _ => SingleSignUnlock end).

Definition schnorr_sign_with_root_hash (passphrase : str) (message : list byte) (root_hash : H256) :
  io S TxInWitness :=
  required ← rh_required_signers root_hash passphrase;
  if decide (required ≠ 1%nat) then throw Kind.IllegalInput
  else
    public_key ← rh_public_key root_hash passphrase;
    private_key ← get_private_key public_key passphrase;
    private_key ← pure_res (chain_none Kind.InvalidInput private_key);
    proof ← rh_generate_proof root_hash [public_key] passphrase;
    sig ← pure_res (private_key_schnorr_sign private_key message);
    mret (TreeSig sig proof).

Definition wallet_schnorr_sign (name passphrase : str) (message : list byte) (signing_addr : ExtendedAddr) :
  io S TxInWitness :=
  root_hash ← ws_find_root_hash name passphrase signing_addr;
  root_hash ← pure_res (chain_none Kind.InvalidInput root_hash);
  schnorr_sign_with_root_hash passphrase message root_hash.

(** Code that reads the storage and does not change it. *)
Definition reading {A} (f : World S → run ErrorKind A) : io S A := λ w, pure_run (f w) w.

Definition create_signer (name passphrase : str) (w : World S) : WalletBuilder.Signer := {|
  schnorr_sign_condition := λ signing_addr, fst <$> wallet_sign_condition name passphrase signing_addr w;
  schnorr_sign := λ message signing_addr, fst <$> wallet_schnorr_sign name passphrase message signing_addr w |}.

(** ** Creating wallets and addresses *)

Context (network : Network).

(** [PrivateKey::new]. *)
Definition private_key_new : io S PrivateKey :=
  with_entropy (λ e, let '(private_key, e) := sk_new e in Some (Ok private_key, e)).

Definition mnemonic_new_io : io S Mnemonic :=
  with_entropy (λ e, let '(mnemonic, e) := mnemonic_new e in Some (Ok mnemonic, e)).

Definition restore_wallet (name passphrase : str) (mnemonic : Mnemonic) : io S unit :=
  _ ← add_mnemonic name mnemonic passphrase;
  '(public_key, private_key) ← generate_keypair network name passphrase Transfer;
  _ ← add_keypair private_key public_key passphrase;
  create_wallet name passphrase public_key.

Definition new_wallet (name passphrase : str) (wallet_kind : WalletKind) : io S (option Mnemonic) :=
  match wallet_kind with
  | Basic =>
      private_key ← private_key_new;
      let view_key := pk_from_secret_key private_key in
      _ ← add_keypair private_key view_key passphrase;
      _ ← create_wallet name passphrase view_key;
      mret None
  | HD =>
      mnemonic ← mnemonic_new_io;
      _ ← restore_wallet name passphrase mnemonic;
      mret (Some mnemonic)
  end.

(** A key of the HD wallet, or a random one. *)
Definition next_keypair (name passphrase : str) (address_type : result ErrorKind AddressType) :
  io S (PublicKey * PrivateKey) :=
  hd ← has_wallet name;
  if hd : bool then
    address_type ← pure_res address_type;
    generate_keypair network name passphrase address_type
  else
    private_key ← private_key_new;
    mret (pk_from_secret_key private_key, private_key).

Definition new_public_key (name passphrase : str) (address_type : option AddressType) : io S PublicKey :=
  '(public_key, private_key) ← next_keypair name passphrase (chain_none Kind.InvalidInput address_type);
  _ ← add_keypair private_key public_key passphrase;
  _ ← add_public_key name passphrase public_key;
  mret public_key.

Definition new_staking_address (name passphrase : str) : io S StakedStateAddress :=
  '(staking_key, private_key) ← next_keypair name passphrase (Ok Staking);
  _ ← add_keypair private_key staking_key passphrase;
  _ ← add_staking_key name passphrase staking_key;
  mret (BasicRedeem (redeem_address_from_pk staking_key)).

Definition new_multisig_transfer_address (name passphrase : str) (public_keys : list PublicKey)
    (self_public_key : PublicKey) (m : nat) : io S ExtendedAddr :=
  owned ← get_private_key self_public_key passphrase;
  _ ← pure_res (chain_none Kind.InvalidInput owned);
  if decide (self_public_key ∉ public_keys) then throw Kind.InvalidInput
  else
    '(root_hash, multi_sig_address) ← new_root_hash public_keys self_public_key m passphrase;
    _ ← add_root_hash name passphrase root_hash;
    mret (to_extended_addr multi_sig_address).

Definition new_transfer_address (name passphrase : str) : io S ExtendedAddr :=
  '(public_key, private_key) ← next_keypair name passphrase (Ok Transfer);
  _ ← add_keypair private_key public_key passphrase;
  new_multisig_transfer_address name passphrase [public_key] public_key 1.

Definition client_generate_proof (name passphrase : str) (address : ExtendedAddr) (public_keys : list PublicKey) :
  io S Proof_ :=
  _ ← ws_view_key name passphrase;
  match address with OrTree address => rh_generate_proof address public_keys passphrase end.

Definition required_cosigners (name passphrase : str) (root_hash : H256) : io S nat :=
  _ ← ws_view_key name passphrase;
  rh_required_signers root_hash passphrase.

(** ** The state of a wallet *)

Definition client_balance (name passphrase : str) : io S Coin :=
  _ ← ws_view_key name passphrase; get_balance name passphrase.

Definition later_first (a b : TransactionChange) : Prop := change_height b ≤ change_height a.
#[global] Instance later_first_dec a b : Decision (later_first a b).
Proof. unfold later_first. apply _. Defined.

Definition history (name passphrase : str) : io S (list TransactionChange) :=
  _ ← ws_view_key name passphrase;
  history_map ← get_transaction_history name passphrase;
  let changes := List.filter (λ change, match balance_change change with NoChange => false | _ => true end)
                   (btree_iter history_map).*2 in
  mret (stable_sort later_first changes).

Definition client_unspent_transactions (name passphrase : str) : io S UnspentTransactions :=
  _ ← ws_view_key name passphrase;
  unspent ← get_unspent_transactions name passphrase;
  mret (btree_iter unspent).

Definition client_has_unspent_transactions (name passphrase : str) (inputs : list TxoPointer) : io S bool :=
  _ ← ws_view_key name passphrase; has_unspent_transactions name passphrase inputs.

Definition client_output (name passphrase : str) (input : TxoPointer) : io S TxOut :=
  _ ← ws_view_key name passphrase;
  o ← ss_get_output name passphrase input;
  pure_res (chain_none Kind.InvalidInput o).

(** ** Transactions *)

Context {F : Type} `{!FeeAlgorithm F} (alg : F) (encrypt : Obfuscation).

Definition create_transaction (name passphrase : str) (outputs : list TxOut) (attributes : TxAttributes)
    (input_selection_strategy : option InputSelectionStrategy) (return_address : ExtendedAddr) : io S TxAux :=
  unspent ← client_unspent_transactions name passphrase;
  let unspent := apply_all unspent
    (strategy_operations (default SelectHighestValueFirst input_selection_strategy)) in
  reading (λ w, build_transfer_tx alg (create_signer name passphrase w) encrypt unspent outputs return_address
                  attributes).

Definition broadcast_transaction {R} (broadcast : list byte → result ErrorKind R) (tx_aux : TxAux) :
  result ErrorKind R :=
  broadcast (enc tx_aux_codec tx_aux).

(** ** Multi-signatures *)

Definition schnorr_signature (name passphrase : str) (message : H256) (public_key : PublicKey) :
  io S SchnorrSignature :=
  _ ← ws_transfer_addresses name passphrase;
  private_key ← get_private_key public_key passphrase;
  private_key ← pure_res (chain_none Kind.InvalidInput private_key);
  pure_res (private_key_schnorr_sign private_key message).

Definition new_multi_sig_session (name passphrase : str) (message : H256) (signer_public_keys : list PublicKey)
    (self_public_key : PublicKey) : io S H256 :=
  _ ← ws_transfer_addresses name passphrase;
  self_private_key ← get_private_key self_public_key passphrase;
  self_private_key ← pure_res (chain_none Kind.InvalidInput self_private_key);
  new_session message signer_public_keys self_public_key self_private_key passphrase.

Definition multi_sig_transaction (name : str) (session_id : H256) (passphrase : str) (unsigned_transaction : Tx) :
  io S TxAux :=
  match inputs unsigned_transaction with
  | [input] =>
      output_to_spend ← client_output name passphrase input;
      root_hash ← ws_find_root_hash name passphrase (out_address output_to_spend);
      root_hash ← pure_res (chain_none Kind.IllegalInput root_hash);
      public_keys ← MultiSig.public_keys session_id passphrase;
      proof ← rh_generate_proof root_hash public_keys passphrase;
      signature ← MultiSig.signature session_id passphrase;
      pure_run (encrypt (SignedTransfer unsigned_transaction [TreeSig signature proof]))
  | _ => throw Kind.InvalidInput
  end.
End client.

(** ** What the storage keeps for its wallets *)

Section kept.
Context `{Hashes, Aead, Scale, Hex, BitVecLib, TimeLib, HdCrypto} {S : Type} `{!Store S}.
Context `{!AeadLaws, !StoreLaws S, !ScaleLaws, !ClientKeysLaws, !Secp256k1Laws, !HdCryptoLaws}.
Implicit Types (d : S) (p : str).

(** The storage has the private key. *)
Definition owned d p (pk : PublicKey) : Prop :=
  ∃ sk, reads d KEY_KEYSPACE (pk_serialize_uncompressed pk) p (Some (sk_serialize sk))
    ∧ pk = pk_from_secret_key sk.

(** The storage has the address of [k] signers of a root hash, and the key of its owner. *)
Definition address_at d p (k : nat) (h : H256) : Prop :=
  ∃ keys a, multi_sig_new keys (self_public_key a) k = Some (Ok a) ∧ ms_root_hash a = h
    ∧ multi_sig_sized a ∧ reads d ROOT_KEYSPACE h p (Some (enc multi_sig_address_codec a))
    ∧ owned d p (self_public_key a).
Definition has_address d p (h : H256) : Prop := ∃ k, address_at d p k h.

Definition wallet_size (x : Wallet) : Z :=
  Z.of_nat (length (wallet_public_keys x)) + Z.of_nat (length (wallet_staking_keys x))
  + Z.of_nat (length (root_hashes x)).

(** A wallet of the storage, with everything it lists. *)
Record wallet_at d p (name : str) (x : Wallet) : Prop := {
  at_stored : reads d WALLET_KEYSPACE name p (Some (enc wallet_codec x));
  at_ok : wallet_ok x;
  at_fits : wallet_size x ≤ U32_MAX;
  at_view : owned d p (wallet_view_key x);
  at_public : Forall (owned d p) (wallet_public_keys x);
  at_staking : Forall (owned d p) (wallet_staking_keys x);
  at_hashes : Forall (has_address d p) (root_hashes x);
}.

Definition wallet_le (x y : Wallet) : Prop :=
  wallet_view_key y = wallet_view_key x ∧ wallet_public_keys x ⊆ wallet_public_keys y
  ∧ wallet_staking_keys x ⊆ wallet_staking_keys y ∧ root_hashes x ⊆ root_hashes y.

(** The encrypted keyspaces that wallets use. *)
Definition secure_keyspaces : list (list byte) := [KEY_KEYSPACE; ROOT_KEYSPACE; WALLET_KEYSPACE; HD_KEYSPACE].
Definition intact d : Prop := ∀ ks k, ks ∈ secure_keyspaces → openable d ks k.

(** Every private key is stored under its public key. *)
Definition keys_match d p : Prop := ∀ pk bytes,
  reads d KEY_KEYSPACE (pk_serialize_uncompressed pk) p (Some bytes) →
  ∃ sk, bytes = sk_serialize sk ∧ pk = pk_from_secret_key sk.

(** The root hashes that other addresses than those of one signer are made for. *)
Context (shared : H256 → Prop).

(** [d'] keeps what [d] has under the passphrase; a wallet lists at most [n] more. *)
Record keeps p (n : Z) d d' : Prop := {
  keeps_intact : intact d → intact d';
  keeps_match : keys_match d p → keys_match d' p;
  keeps_owned pk : owned d p pk → owned d' p pk;
  keeps_address h : has_address d p h → has_address d' p h;
  keeps_single h : ¬ shared h → address_at d p 1 h → address_at d' p 1 h;
  keeps_wallet name x : wallet_at d p name x → wallet_size x + n ≤ U32_MAX →
    ∃ y, wallet_at d' p name y ∧ wallet_le x y ∧ wallet_size y ≤ wallet_size x + n;
}.

Lemma wallet_le_refl x : wallet_le x x.
Proof. by split_and!. Qed.
Lemma wallet_le_trans x y z : wallet_le x y → wallet_le y z → wallet_le x z.
Proof. intros (? & ? & ? & ?) (? & ? & ? & ?). split_and!; [congruence | set_solver..]. Qed.

Lemma wallet_at_mono d d' p name x :
  reads d' WALLET_KEYSPACE name p (Some (enc wallet_codec x)) →
  (∀ pk, owned d p pk → owned d' p pk) → (∀ h, has_address d p h → has_address d' p h) →
  wallet_at d p name x → wallet_at d' p name x.
Proof. intros Hr Ho Ha [? ? ? ? ? ? ?]. split; eauto using Forall_impl. Qed.

Lemma address_mono d d' p k h :
  (∀ pk, owned d p pk → owned d' p pk) →
  (∀ v, reads d ROOT_KEYSPACE h p v → reads d' ROOT_KEYSPACE h p v) → address_at d p k h → address_at d' p k h.
Proof. intros Ho Hr (keys & a & ? & ? & ? & ? & ?). exists keys, a. split_and!; auto. Qed.

Lemma keep_refl p d : keeps p 0 d d.
Proof. split; auto. intros name x Hx _. exists x. split; [done|]. split; [apply wallet_le_refl | lia]. Qed.

Lemma keep_trans p n m d d' d'' : 0 ≤ n → 0 ≤ m → keeps p n d d' → keeps p m d' d'' → keeps p (n + m) d d''.
Proof.
  intros Hn Hm [Hi1 Hm1 Ho1 Ha1 Hs1 Hw1] [Hi2 Hm2 Ho2 Ha2 Hs2 Hw2]. split; auto. intros name x Hx Hs.
  destruct (Hw1 name x Hx) as (y & Hy & Hle1 & Hz1); [lia|].
  destruct (Hw2 name y Hy) as (z & Hz & Hle2 & Hz2); [lia|].
  exists z. split; [done|]. split; [by eapply wallet_le_trans | lia].
Qed.

Lemma keeps_le p n m d d' : n ≤ m → keeps p n d d' → keeps p m d d'.
Proof.
  intros Hn [Hi Hm Ho Ha Hsg Hw]. split; auto. intros name x Hx Hs.
  destruct (Hw name x Hx) as (y & Hy & Hle & Hz); [lia|]. exists y. split; [done|]. split; [done | lia].
Qed.

Lemma keeps_then p n d d' d'' : keeps p 0 d d' → 0 ≤ n → keeps p n d' d'' → keeps p n d d''.
Proof. intros Hd Hn Hk. by apply (keep_trans p 0 n d d' d''). Qed.

Lemma keeps_view p d d' : same_view d d' → keeps p 0 d d'.
Proof.
  intros Hv. assert (Ho : ∀ pk, owned d p pk → owned d' p pk).
  { intros pk (sk & Hr & E). exists sk. eauto using reads_view. }
  assert (Hk : ∀ k h, address_at d p k h → address_at d' p k h).
  { intros k h. apply address_mono; eauto using reads_view. }
  assert (Ha : ∀ h, has_address d p h → has_address d' p h) by (intros h [k ?]; exists k; auto).
  split; auto.
  - intros Hi ks k Hks. eauto using openable_view.
  - intros Hm pk bytes Hr. apply (Hm pk). unfold reads in *. by rewrite <- Hv.
  - intros name x Hx _. exists x. split; [|split; [apply wallet_le_refl | lia]].
    eapply wallet_at_mono; eauto using reads_view, at_stored.
Qed.

Lemma keeps_eq p d d' : d' = d → keeps p 0 d d'.
Proof. intros ->. apply keep_refl. Qed.

(** A write to a key changes nothing that is kept elsewhere. *)
Lemma written_reads d d' ks k p v ks' k' p' o :
  written d d' ks k p v → (ks', k') ≠ (ks, k) → reads d ks' k' p' o → reads d' ks' k' p' o.
Proof. intros [_ Hs]. by apply reads_same_but. Qed.

Lemma written_owned d d' ks k p p' v pk :
  written d d' ks k p' v → ks ≠ KEY_KEYSPACE → owned d p pk → owned d' p pk.
Proof. intros Hw Hne (sk & Hr & E). exists sk. split; [|done]. eapply written_reads; [done | congruence | done]. Qed.

Lemma written_keeps_owned d d' p sk pk :
  written d d' KEY_KEYSPACE (pk_serialize_uncompressed (pk_from_secret_key sk)) p (sk_serialize sk) →
  owned d p pk → owned d' p pk.
Proof.
  intros Hw (sk' & Hr & ->).
  destruct (decide (pk_from_secret_key sk' = pk_from_secret_key sk)) as [E|Hne].
  - rewrite E. exists sk. split; [apply Hw | done].
  - exists sk'. split; [|done]. eapply written_reads; [done | | done].
    intros [= Es]. apply (f_equal pk_from_slice) in Es. rewrite !pk_from_uncompressed in Es. congruence.
Qed.

Lemma written_intact d d' ks k p v : written d d' ks k p v → intact d → intact d'.
Proof. intros Hw Hi ks' k' Hk. eapply written_openable; eauto. Qed.

Lemma written_match d d' ks k p p' v :
  written d d' ks k p' v → ks ≠ KEY_KEYSPACE → keys_match d p → keys_match d' p.
Proof. intros [_ Hs] Hne Hm pk bytes Hr. apply (Hm pk). unfold reads in *. rewrite <- Hs; [done | congruence]. Qed.

Lemma written_key_match d d' p sk :
  written d d' KEY_KEYSPACE (pk_serialize_uncompressed (pk_from_secret_key sk)) p (sk_serialize sk) →
  keys_match d p → keys_match d' p.
Proof.
  intros [Hr Hs] Hm pk bytes Hb.
  destruct (decide (pk = pk_from_secret_key sk)) as [->|Hne].
  - exists sk. split; [|done]. unfold reads in *. congruence.
  - apply (Hm pk). unfold reads in *. rewrite <- Hs; [done|]. intros [= Es].
    apply (f_equal pk_from_slice) in Es. rewrite !pk_from_uncompressed in Es. congruence.
Qed.

Lemma keyspaces_differ :
  KEY_KEYSPACE ≠ ROOT_KEYSPACE ∧ KEY_KEYSPACE ≠ WALLET_KEYSPACE ∧ ROOT_KEYSPACE ≠ WALLET_KEYSPACE
  ∧ HD_KEYSPACE ≠ KEY_KEYSPACE ∧ HD_KEYSPACE ≠ ROOT_KEYSPACE ∧ HD_KEYSPACE ≠ WALLET_KEYSPACE.
Proof. by split_and!. Qed.

Lemma written_key_keeps d d' p sk :
  written d d' KEY_KEYSPACE (pk_serialize_uncompressed (pk_from_secret_key sk)) p (sk_serialize sk) →
  keeps p 0 d d' ∧ owned d' p (pk_from_secret_key sk).
Proof.
  intros Hw. destruct keyspaces_differ as (Hkr & Hkw & _). split.
  - assert (Ho : ∀ pk, owned d p pk → owned d' p pk) by (intros pk; by eapply written_keeps_owned).
    assert (Hk : ∀ k h, address_at d p k h → address_at d' p k h).
    { intros k h. apply address_mono; [done|]. intros v. eapply written_reads; [done|]. congruence. }
    assert (Ha : ∀ h, has_address d p h → has_address d' p h) by (intros h [k ?]; exists k; auto).
    split; [by eapply written_intact | by eapply written_key_match | done | done | auto|]. intros name x Hx _.
    exists x. split; [|split; [apply wallet_le_refl | lia]]. eapply wallet_at_mono; [|done..].
    eapply written_reads; [done | congruence | by apply at_stored].
  - exists sk. split; [apply Hw | done].
Qed.

Lemma written_root_keeps d d' p keys k a :
  multi_sig_new keys (self_public_key a) k = Some (Ok a) → multi_sig_sized a → owned d p (self_public_key a) →
  (k ≠ 1%nat → shared (ms_root_hash a)) →
  written d d' ROOT_KEYSPACE (ms_root_hash a) p (enc multi_sig_address_codec a) →
  keeps p 0 d d' ∧ address_at d' p k (ms_root_hash a).
Proof.
  intros Ha Hsz Hown Hk Hw. destruct keyspaces_differ as (Hkr & _ & Hrw & _).
  assert (Ho : ∀ pk, owned d p pk → owned d' p pk) by (intros pk; eapply written_owned; [exact Hw | congruence]).
  assert (Hnew : address_at d' p k (ms_root_hash a)).
  { exists keys, a. split_and!; try done; [apply Hw | by apply Ho]. }
  split; [|done].
  assert (Hel : ∀ k' h, h ≠ ms_root_hash a → address_at d p k' h → address_at d' p k' h).
  { intros k' h Hne. apply address_mono; [done|]. intros v. eapply written_reads; [done|]. congruence. }
  assert (Had : ∀ h, has_address d p h → has_address d' p h).
  { intros h [k' Hh]. destruct (decide (h = ms_root_hash a)) as [->|Hne]; [by exists k | exists k'; auto]. }
  split; [by eapply written_intact | eapply written_match; [done | congruence] | done | done | |].
  - intros h Hs Hh. destruct (decide (h = ms_root_hash a)) as [->|Hne]; [|auto].
    destruct (decide (k = 1%nat)) as [->|Hk1]; [done | by destruct (Hs (Hk Hk1))].
  - intros name x Hx _. exists x. split; [|split; [apply wallet_le_refl | lia]]. eapply wallet_at_mono; [|done..].
    eapply written_reads; [done | congruence | by apply at_stored].
Qed.

Lemma written_hd_keeps d d' p p' name v : written d d' HD_KEYSPACE name p' v → keeps p 0 d d'.
Proof.
  intros Hw. destruct keyspaces_differ as (_ & _ & _ & Hhk & Hhr & Hhw).
  assert (Ho : ∀ pk, owned d p pk → owned d' p pk) by (intros pk; eapply written_owned; [exact Hw | congruence]).
  assert (Hk : ∀ k h, address_at d p k h → address_at d' p k h).
  { intros k h. apply address_mono; [done|]. intros o. eapply written_reads; [done|]. congruence. }
  assert (Had : ∀ h, has_address d p h → has_address d' p h) by (intros h [k ?]; exists k; auto).
  split; [by eapply written_intact | eapply written_match; [done | congruence] | done | done | auto|]. intros name' x Hx _.
  exists x. split; [|split; [apply wallet_le_refl | lia]]. eapply wallet_at_mono; [|done..].
  eapply written_reads; [done | congruence | by apply at_stored].
Qed.

(** A write of a wallet: the new one lists what the old one did, and only what is kept. *)
Lemma written_wallet_keeps d d' p name y n :
  written d d' WALLET_KEYSPACE name p (enc wallet_codec y) → 0 ≤ n →
  (∀ x, wallet_at d p name x → wallet_size x + n ≤ U32_MAX →
     wallet_ok y ∧ wallet_le x y ∧ wallet_size y ≤ wallet_size x + n
     ∧ Forall (owned d p) (wallet_public_keys y) ∧ Forall (owned d p) (wallet_staking_keys y)
     ∧ Forall (has_address d p) (root_hashes y)) →
  keeps p n d d'.
Proof.
  intros Hw Hn Hy. destruct keyspaces_differ as (_ & Hkw & Hrw & _).
  assert (Ho : ∀ pk, owned d p pk → owned d' p pk) by (intros pk; eapply written_owned; [exact Hw | congruence]).
  assert (Hk : ∀ k h, address_at d p k h → address_at d' p k h).
  { intros k h. apply address_mono; [done|]. intros o. eapply written_reads; [done|]. congruence. }
  assert (Had : ∀ h, has_address d p h → has_address d' p h) by (intros h [k ?]; exists k; auto).
  split; [by eapply written_intact | eapply written_match; [done | congruence] | done | done | auto|]. intros name' x Hx Hs.
  destruct (decide (name' = name)) as [->|Hne].
  - destruct (Hy x Hx Hs) as (Hok & Hle & Hsz & Hp & Hst & Hh). exists y. split; [|done].
    pose proof Hle as (Ev & _). split; eauto using Forall_impl; [apply Hw | lia |].
    rewrite Ev. eapply Ho, at_view, Hx.
  - exists x. split; [|split; [apply wallet_le_refl | lia]]. eapply wallet_at_mono; [|done..].
    eapply written_reads; [done | congruence | by apply at_stored].
Qed.

Lemma wallet_fits_size x : wallet_size x ≤ U32_MAX → wallet_fits x.
Proof. unfold wallet_size, wallet_fits. lia. Qed.

(** ** The services *)

Implicit Types (w : World S).

Lemma intact_open d ks k : intact d → ks ∈ secure_keyspaces → openable d ks k.
Proof. intros Hi. apply Hi. Qed.

Lemma wp_add_keypair p sk w Q :
  intact (disk w) →
  (∀ r w', keeps p 0 (disk w) (disk w') → (r = Ok tt → owned (disk w') p (pk_from_secret_key sk)) → Q r w') →
  wp (add_keypair sk (pk_from_secret_key sk) p) w Q.
Proof.
  intros Hi HQ. unfold add_keypair. apply wp_bind, wp_set.
  - apply Hi. set_solver.
  - intros old w' _ Hw. apply written_key_keeps in Hw as [Hk Ho]. by apply wp_ret, HQ.
  - intros e w' E. apply HQ; [by apply keeps_eq | done].
Qed.

Lemma wp_get_private_key p pk w Q :
  intact (disk w) → keys_match (disk w) p →
  (∀ sk, pk = pk_from_secret_key sk → owned (disk w) p pk → Q (Ok (Some sk)) w) →
  Q (Ok None) w → (∀ e, Q (Err e) w) → wp (get_private_key pk p) w Q.
Proof.
  intros Hi Hm Hsome Hnone Herr. unfold get_private_key. apply wp_bind, wp_get; [apply Hi; set_solver| |apply Herr].
  intros [bytes|] Hr; [|by apply wp_ret]. destruct (Hm pk bytes Hr) as (sk & -> & E).
  apply wp_bind, wp_pure. rewrite sk_from_serialize. apply wp_ret, Hsome; [done|]. by exists sk.
Qed.

Lemma get_private_key_owned p pk w :
  owned (disk w) p pk → ∃ sk, get_private_key pk p w = Some (Ok (Some sk), w) ∧ pk = pk_from_secret_key sk.
Proof.
  intros (sk & Hr & E). exists sk. split; [|done]. unfold get_private_key, mbind, sem_bind.
  rewrite (get_secure_reads _ _ _ _ _ Hr). unfold pure_res. by rewrite sk_from_serialize.
Qed.

(** A change of a wallet that lists [n] more, all of them kept. *)
Definition good_insert d p (n : Z) (f : Wallet → Wallet) : Prop := ∀ name x,
  wallet_at d p name x → wallet_size x + n ≤ U32_MAX →
  wallet_ok (f x) ∧ wallet_le x (f x) ∧ wallet_size (f x) ≤ wallet_size x + n
  ∧ Forall (owned d p) (wallet_public_keys (f x)) ∧ Forall (owned d p) (wallet_staking_keys (f x))
  ∧ Forall (has_address d p) (root_hashes (f x)).

Lemma length_set_insert {K} `{OrdKey K} `{EqDecision K} (k : K) l :
  Z.of_nat (length (set_insert k l)) ≤ Z.of_nat (length l) + 1.
Proof. induction l as [|x l IH]; simpl; [lia|]. case_decide; [simpl; lia|]. destruct (key_leb k x); simpl; lia. Qed.

Lemma set_insert_subset {K} `{OrdKey K} `{EqDecision K} (k : K) l : l ⊆ set_insert k l.
Proof. intros x Hx. apply elem_of_set_insert. by right. Qed.

Lemma Forall_set_insert {K} `{OrdKey K} `{EqDecision K} (P : K → Prop) k l :
  P k → Forall P l → Forall P (set_insert k l).
Proof. rewrite !Forall_forall. intros Hk Hl x [->|Hx]%elem_of_set_insert; auto. Qed.

Ltac good_insert_solver :=
  unfold wallet_ok, wallet_le, wallet_size; cbn; split_and!;
  first [done | lia | by apply set_insert_ok | by apply set_insert_subset | by apply Forall_set_insert].

Lemma insert_public_key_good d p pk : owned d p pk → good_insert d p 1 (insert_public_key pk).
Proof.
  intros Ho name x [_ (Hp & Hs & Hh & H32) _ _ Hpo Hso Hao] _. pose proof (length_set_insert pk (wallet_public_keys x)).
  by good_insert_solver.
Qed.

Lemma insert_staking_key_good d p pk : owned d p pk → good_insert d p 1 (insert_staking_key pk).
Proof.
  intros Ho name x [_ (Hp & Hs & Hh & H32) _ _ Hpo Hso Hao] _. pose proof (length_set_insert pk (wallet_staking_keys x)).
  by good_insert_solver.
Qed.

Lemma root_hash_length keys self k a : multi_sig_new keys self k = Some (Ok a) → array_ok 32 (ms_root_hash a).
Proof.
  intros Ha. destruct (multi_sig_leaves _ _ _ _ Ha) as (combined & Ht & _ & Hne & _).
  destruct (merkle_new_Some combined Hne) as (mt & E & _ & _ & _ & Hok & _).
  assert (mt = merkle_tree a) as -> by congruence. by apply tree_hash_ok.
Qed.

Lemma insert_root_hash_good d p h : has_address d p h → good_insert d p 1 (insert_root_hash h).
Proof.
  intros Ho name x [_ (Hp & Hs & Hh & H32) _ _ Hpo Hso Hao] _. pose proof (length_set_insert h (root_hashes x)).
  assert (array_ok 32 h) by (destruct Ho as (k & keys & a & Ha & <- & _); by eapply root_hash_length).
  by good_insert_solver.
Qed.

(** What an update of a wallet writes. *)
Lemma wallet_update_some f old value :
  wallet_update f old = Some (Ok (Some value)) →
  ∃ bytes x, old = Some bytes ∧ decode wallet_codec bytes = Some x ∧ value = enc wallet_codec (f x).
Proof.
  unfold wallet_update. destruct old as [bytes|]; cbn [chain_none run_bind]; [|done].
  destruct (decode wallet_codec bytes) as [x|] eqn:E; cbn [chain_none run_bind]; [|done].
  intros [= <-]. eauto.
Qed.

Lemma wallet_at_decodes d p name x bytes :
  wallet_at d p name x → reads d WALLET_KEYSPACE name p (Some bytes) → decode wallet_codec bytes = Some x.
Proof.
  intros [Hr Hok Hfit _ _ _ _] Hb. unfold reads in *. rewrite Hr in Hb. injection Hb as <-.
  apply (decode_ok _ _ _ wallet_codec_ok). auto using wallet_fits_size.
Qed.

Lemma wp_modify_wallet p name f n w Q :
  intact (disk w) → 0 ≤ n → good_insert (disk w) p n f →
  (∀ r w', keeps p n (disk w) (disk w') →
     (r = Ok tt → ∀ x, wallet_at (disk w) p name x → wallet_size x + n ≤ U32_MAX →
        wallet_at (disk w') p name (f x)) → Q r w') →
  wp (modify_wallet name p f) w Q.
Proof.
  intros Hi Hn Hf HQ. unfold modify_wallet. apply wp_bind, wp_update; [apply Hi; set_solver| | |].
  - intros old _. unfold wallet_update. destruct old as [bytes|]; cbn [chain_none run_bind]; [|left; eauto].
    destruct (decode wallet_codec bytes); cbn [chain_none run_bind]; [right; eauto | left; eauto].
  - intros old value w' Ho (bytes & x & -> & Ed & ->)%wallet_update_some Hw.
    assert (Hx : ∀ x', wallet_at (disk w) p name x' → x' = x).
    { intros x' Hx'. pose proof (wallet_at_decodes _ _ _ _ _ Hx' Ho). congruence. }
    assert (K : keeps p n (disk w) (disk w')).
    { apply (written_wallet_keeps _ _ _ _ _ _ Hw Hn). intros x' Hx'. destruct (Hx x' Hx'). by apply (Hf name). }
    apply wp_ret, HQ; [done|]. intros _ x' Hx' Hs. pose proof (Hx x' Hx') as ->.
    destruct (keeps_wallet _ _ _ _ K name x Hx' Hs) as (y & Hy & _ & _).
    destruct (Hf name x Hx' Hs) as (Hok & _ & Hz & _).
    pose proof (wallet_at_decodes _ _ _ _ _ Hy (proj1 Hw)) as Ey.
    rewrite (decode_ok _ _ _ wallet_codec_ok) in Ey by (split; [done | apply wallet_fits_size; lia]). congruence.
  - intros e w' Hv. apply HQ; [|done]. apply (keeps_le p 0); [done|]. by apply keeps_view.
Qed.

Lemma multi_sig_new_self keys self k a :
  multi_sig_new keys self k = Some (Ok a) → self_public_key a = self ∧ self ∈ keys.
Proof.
  unfold multi_sig_new. destruct (_ || _) eqn:Eb; [done|]. apply orb_false_iff in Eb as [_ Eb].
  apply negb_false_iff, bool_decide_eq_true in Eb.
  destruct (public_key_combinations keys k); cbn [run_bind]; [|done].
  destruct (merkle_new _); cbn [mbind option_bind]; [|done]. by intros [= <-].
Qed.

Lemma wp_new_root_hash p keys self k w Q :
  intact (disk w) → owned (disk w) p self → (length keys ≤ 60)%nat →
  (∀ a, k ≠ 1%nat → multi_sig_new keys self k = Some (Ok a) → shared (ms_root_hash a)) →
  (∀ a w', keeps p 0 (disk w) (disk w') → address_at (disk w') p k (ms_root_hash a) →
     Q (Ok (ms_root_hash a, a)) w') →
  (∀ e w', disk w' = disk w → Q (Err e) w') →
  wp (new_root_hash keys self k p) w Q.
Proof.
  intros Hi Ho Hl Hs HQ Herr. unfold new_root_hash. apply wp_bind.
  destruct (multi_sig_new_total keys self k) as [[a|e] Ea]; rewrite Ea; apply wp_run; [|by apply Herr].
  assert (self_public_key a = self) as Es by by apply (multi_sig_new_self _ _ _ _ Ea). apply wp_bind, wp_set.
  - apply Hi. set_solver.
  - intros old w' _ Hw. apply wp_ret. assert (Hs' : k ≠ 1%nat → shared (ms_root_hash a)) by auto. rewrite <- Es in Ea, Ho.
    destruct (written_root_keeps _ _ _ _ _ _ Ea (multi_sig_new_sized _ _ _ _ Ea Hl) Ho Hs' Hw). by apply HQ.
  - intros e w' E. by apply Herr.
Qed.

Lemma wallet_at_name d p name x : wallet_at d p name x → is_Some (store_view d WALLET_KEYSPACE !! name).
Proof. intros [Hr _ _ _ _ _ _]. unfold reads in Hr. by destruct (store_view _ _ !! name). Qed.

Lemma wallet_new_at d p name vk :
  reads d WALLET_KEYSPACE name p (Some (enc wallet_codec (wallet_new vk))) → owned d p vk →
  wallet_at d p name (wallet_new vk).
Proof. intros Hr Ho. split; try done; cbn; auto. repeat split; cbn; constructor. Qed.

(** Only a new name becomes a wallet. *)
Lemma wp_create_wallet p name vk w Q :
  intact (disk w) → owned (disk w) p vk →
  (∀ r w', keeps p 0 (disk w) (disk w') → (r = Ok tt → wallet_at (disk w') p name (wallet_new vk)) → Q r w') →
  wp (create_wallet name p vk) w Q.
Proof.
  intros Hi Ho HQ. unfold create_wallet. apply wp_bind. unfold wp at 1. rewrite contains_law. eexists _, _. split; [done|].
  cbn beta iota. case_bool_decide as Hc; [apply wp_throw, HQ; [apply keep_refl | done]|].
  unfold save_wallet. apply wp_bind, wp_set; [apply Hi; set_solver| |].
  - intros old w' _ Hw. apply wp_ret, HQ.
    + apply (written_wallet_keeps _ _ _ _ _ _ Hw); [done|]. intros x Hx%wallet_at_name. done.
    + intros _. destruct keyspaces_differ as (_ & Hkw & _).
      apply wallet_new_at; [apply Hw|]. eapply written_owned; [done | congruence | done].
  - intros e w' E. apply HQ; [by apply keeps_eq | done].
Qed.

Lemma wp_add_mnemonic p name m w Q :
  intact (disk w) → (∀ r w', keeps p 0 (disk w) (disk w') → Q r w') → wp (add_mnemonic name m p) w Q.
Proof.
  intros Hi HQ. unfold add_mnemonic. apply wp_bind. unfold wp at 1. rewrite get_law. eexists _, _. split; [done|].
  cbn beta iota. destruct (_ !! name); [apply wp_throw, HQ, keep_refl|]. apply wp_bind, wp_set.
  - apply Hi. set_solver.
  - intros old w' _ Hw. apply wp_ret, HQ. by eapply written_hd_keeps.
  - intros e w' E. by apply HQ, keeps_eq.
Qed.

Lemma hd_index_range bytes (k : HdKey) t : decode hd_key_codec bytes = Some k → 0 ≤ index_of t k.
Proof.
  unfold decode. cbn [dec hd_key_codec]. unfold dbind, dret.
  destruct (dec u32_codec bytes) as [[a rest]|] eqn:Ea; [|done]. destruct (u32_codec_typed _ _ _ Ea).
  destruct (dec u32_codec rest) as [[b rest']|] eqn:Eb; [|done]. destruct (u32_codec_typed _ _ _ Eb).
  destruct (dec bytes_codec rest') as [[c rest'']|]; [|done]. cbn. intros [= <-]. by destruct t.
Qed.

Lemma derive_key_pair_matches network seed t i pk sk :
  derive_key_pair seed network t i = Some (Ok (pk, sk)) → pk = pk_from_secret_key sk.
Proof.
  unfold derive_key_pair. destruct (with_seed seed); cbn [chain_err run_bind]; [|done].
  destruct (chain_derive _ _) as [[r|e]|]; cbn [chain_err run_bind]; congruence.
Qed.

Ltac keeps_chain :=
  repeat match goal with
  | H : keeps _ _ ?d ?d' |- keeps _ _ ?d ?d' => eapply keeps_le; [|exact H]; lia
  | H : keeps _ 0 ?d ?e |- keeps _ _ ?d ?d' => apply (keeps_then _ _ _ _ _ H); [lia|]
  end.

Section derivation.
Context (network : Network).

Lemma increment_bytes_total t old :
  (∃ e, increment_bytes t old = Some (Err e)) ∨ (∃ v, increment_bytes t old = Some (Ok (Some v))).
Proof.
  unfold increment_bytes. destruct old as [bytes|]; cbn [chain_none run_bind]; [|left; eauto].
  destruct (decode hd_key_codec bytes); cbn [chain_none run_bind]; [right | left]; eauto.
Qed.

Lemma wp_generate_keypair p name t w Q :
  intact (disk w) →
  (∀ r w', keeps p 0 (disk w) (disk w') →
     (∀ pk sk, r = Ok (pk, sk) → pk = pk_from_secret_key sk) → Q r w') →
  wp (generate_keypair network name p t) w Q.
Proof.
  intros Hi HQ. unfold generate_keypair.
  apply wp_bind, wp_update; [apply Hi; set_solver | intros; apply increment_bytes_total | |].
  - intros old value w' Hr _ Hw%(written_hd_keeps _ _ p). unfold reads in Hr.
    destruct (store_view (disk w) HD_KEYSPACE !! name) as [bytes|]; apply wp_bind, wp_pure; cbn [chain_none]; [|by apply HQ].
    cbn [decrypt_option] in Hr. destruct (decrypt_bytes name p bytes) as [[msg|e]|]; [|done|done].
    apply wp_bind, wp_run. apply wp_bind, wp_pure.
    destruct (decode hd_key_codec msg) as [k|] eqn:Ek; cbn [chain_none]; [|by apply HQ].
    destruct (derive_key_pair_total network (hd_seed k) t (index_of t k)) as [r Er]; [by eapply hd_index_range|].
    rewrite Er. apply wp_run, HQ; [done|]. intros pk sk ->. by eapply derive_key_pair_matches.
  - intros e w' Hv. apply HQ; [by apply keeps_view | done].
Qed.

Lemma wp_with_entropy {A} (f : Entropy → option (result ErrorKind A * Entropy)) w r e Q :
  f (entropy w) = Some (r, e) → Q r (MkWorld (disk w) e) → wp (with_entropy f) w Q.
Proof. intros E HQ. unfold wp, with_entropy. rewrite E. eauto. Qed.

Lemma wp_next_keypair p name t w Q :
  intact (disk w) →
  (∀ r w', keeps p 0 (disk w) (disk w') →
     (∀ pk sk, r = Ok (pk, sk) → pk = pk_from_secret_key sk) → Q r w') →
  wp (next_keypair network name p t) w Q.
Proof.
  intros Hi HQ. unfold next_keypair, has_wallet. apply wp_bind. unfold wp at 1. rewrite contains_law.
  eexists _, _. split; [done|]. cbn beta iota. case_bool_decide.
  - apply wp_bind, wp_pure. destruct t as [t|e]; [by apply wp_generate_keypair|]. apply HQ; [apply keep_refl | done].
  - apply wp_bind. unfold private_key_new. destruct (sk_new (entropy w)) as [sk e] eqn:E.
    eapply wp_with_entropy; [by rewrite E|]. apply wp_ret, HQ; [apply keep_refl|]. by intros pk sk' [= <- <-].
Qed.

(** ** The operations of the client *)

(** What an operation on a wallet leaves: it keeps what the storage has, and the wallet
    lists the result, as its one new entry at most. *)
Definition issued {A} p (name : str) (lists : A → Wallet → Prop) (also : A → S → Prop) (d : S)
    (r : result ErrorKind A) (w' : World S) : Prop :=
  keeps p 1 d (disk w')
  ∧ ∀ a, r = Ok a → also a (disk w')
    ∧ ∀ x, wallet_at d p name x → wallet_size x + 1 ≤ U32_MAX →
        ∃ y, wallet_at (disk w') p name y ∧ wallet_size y ≤ wallet_size x + 1 ∧ lists a y.

Definition issues {A} p (name : str) (m : io S A) (lists : A → Wallet → Prop) (also : A → S → Prop) : Prop :=
  ∀ w, intact (disk w) → keys_match (disk w) p → wp m w (issued p name lists also (disk w)).

Lemma issued_err {A} p name (lists : A → Wallet → Prop) also d e w' :
  keeps p 0 d (disk w') → issued p name lists also d (Err e) w'.
Proof. intros K. split; [by keeps_chain | done]. Qed.

Lemma issued_after {A} p name (lists : A → Wallet → Prop) also d d' r w' :
  keeps p 0 d d' → issued p name lists also d' r w' → issued p name lists also d r w'.
Proof.
  intros K1 [K2 Hr]. split; [by keeps_chain|]. intros b Hb. destruct (Hr b Hb) as [Ha Hx]. split; [done|].
  intros x Hx0 Hz. destruct (keeps_wallet _ _ _ _ K1 name x Hx0) as (x1 & Hx1 & _ & Hz1); [lia|].
  destruct (Hx x1 Hx1) as (y & Hy & Hzy & Hly); [lia|]. exists y. split; [done|]. split; [lia | done].
Qed.

(** The last step of an operation: the wallet lists what the storage has. *)
Lemma wallet_issues {A} p name (f : Wallet → Wallet) (a : A) (lists : A → Wallet → Prop) also w :
  intact (disk w) → good_insert (disk w) p 1 f → (∀ x, lists a (f x)) →
  (∀ d', keeps p 1 (disk w) d' → also a d') →
  wp (_ ← modify_wallet name p f; mret a) w (issued p name lists also (disk w)).
Proof.
  intros Hi Hg Hl Ha. apply wp_bind, (wp_modify_wallet _ _ _ 1); [done | lia | done |].
  intros [[]|e] w3 K3 Hat; [apply wp_ret|]; (split; [by keeps_chain|]); [|done].
  intros a' [= <-]. split; [by apply Ha|]. intros x Hx Hs. destruct (Hg name x Hx) as (_ & _ & Hz & _); [lia|].
  exists (f x). split; [by apply Hat | split; [lia | done]].
Qed.

(** A key pair is made and stored before the rest of the operation. *)
Lemma key_pair_issues {A} p name t (k : PublicKey → io S A) (lists : A → Wallet → Prop) also w :
  intact (disk w) → keys_match (disk w) p →
  (∀ pk w', intact (disk w') → keys_match (disk w') p → owned (disk w') p pk →
     wp (k pk) w' (issued p name lists also (disk w'))) →
  wp ('(pk, sk) ← next_keypair network name p t; _ ← add_keypair sk pk p; k pk) w
    (issued p name lists also (disk w)).
Proof.
  intros Hi Hm Hk. apply wp_bind, wp_next_keypair; [done|].
  intros [[pk sk]|e] w1 K1 Hpk; [|by apply issued_err]. rewrite (Hpk pk sk eq_refl).
  pose proof (keeps_intact _ _ _ _ K1 Hi). apply wp_bind, wp_add_keypair; [done|].
  intros [[]|e] w2 K2 Ho; [|apply issued_err; by keeps_chain].
  eapply wp_mono; [apply (Hk _ w2); [by eapply keeps_intact | by eauto using keeps_match | by apply Ho]|].
  intros r w3. apply issued_after. by keeps_chain.
Qed.

Definition lists_key (pk : PublicKey) (x : Wallet) : Prop := pk ∈ wallet_public_keys x.
Definition lists_staking (a : StakedStateAddress) (x : Wallet) : Prop :=
  ∃ pk, pk ∈ wallet_staking_keys x ∧ a = BasicRedeem (redeem_address_from_pk pk).
Definition lists_address (a : ExtendedAddr) (x : Wallet) : Prop :=
  match a with OrTree h => h ∈ root_hashes x end.
Definition single_at p (a : ExtendedAddr) (d : S) : Prop :=
  match a with OrTree h => ¬ shared h → address_at d p 1 h end.

Lemma new_public_key_issues p name t :
  issues p name (new_public_key network name p t) lists_key (λ _ _, True).
Proof.
  intros w Hi Hm. apply key_pair_issues; [done | done|]. intros pk w' Hi' _ Ho.
  apply wallet_issues; [done | by apply insert_public_key_good | | done].
  intros x. apply elem_of_set_insert. by left.
Qed.

Lemma new_staking_address_issues p name :
  issues p name (new_staking_address network name p) lists_staking (λ _ _, True).
Proof.
  intros w Hi Hm. apply (key_pair_issues p name (Ok Staking)
    (λ pk, _ ← add_staking_key name p pk; mret (BasicRedeem (redeem_address_from_pk pk)))); [done | done|].
  intros pk w' Hi' _ Ho. apply wallet_issues; [done | by apply insert_staking_key_good | | done].
  intros x. eexists. split; [apply elem_of_set_insert; by left | done].
Qed.

Lemma new_multisig_issues p name keys self m :
  (length keys ≤ 60)%nat →
  (∀ a, m ≠ 1%nat → multi_sig_new keys self m = Some (Ok a) → shared (ms_root_hash a)) →
  issues p name (new_multisig_transfer_address name p keys self m) lists_address
    (λ a d, m = 1%nat → single_at p a d).
Proof.
  intros Hl Hs w Hi Hm. unfold new_multisig_transfer_address.
  assert (K0 : keeps p 0 (disk w) (disk w)) by apply keep_refl.
  apply wp_bind, wp_get_private_key; [done | done | | |by intros e; apply issued_err]; cycle 1.
  { apply wp_bind, wp_pure. by apply issued_err. }
  intros sk _ Ho. apply wp_bind, wp_pure. cbn [chain_none]. case_decide; [by apply wp_throw, issued_err|].
  apply wp_bind, wp_new_root_hash; [done | done | done | done | |intros e w' E; apply issued_err; by rewrite E].
  intros a w1 K1 Ha. eapply wp_mono; [|intros r w2; by apply issued_after].
  apply wallet_issues; [by eapply keeps_intact | apply insert_root_hash_good; by exists m | |].
  - intros x. apply elem_of_set_insert. by left.
  - intros d' K2 -> Hns. eapply keeps_single; eauto.
Qed.

Lemma new_transfer_address_issues p name :
  issues p name (new_transfer_address network name p) lists_address (single_at p).
Proof.
  intros w Hi Hm. apply (key_pair_issues p name (Ok Transfer)
    (λ pk, new_multisig_transfer_address name p [pk] pk 1)); [done | done|].
  intros pk w' Hi' Hm' _. eapply wp_mono; [apply new_multisig_issues; [cbn; lia | done | done | done]|].
  intros r w2 [K Hr]. split; [done|]. intros a Ea. destruct (Hr a Ea) as [Hs Hx]. auto.
Qed.

(** ** Creating a wallet *)

Definition creates {A} p (name : str) (m : io S A) : Prop :=
  ∀ w, intact (disk w) → keys_match (disk w) p →
  wp m w (λ r w', keeps p 0 (disk w) (disk w')
    ∧ ∀ a, r = Ok a → ∃ x, wallet_at (disk w') p name x ∧ wallet_size x = 0).

Lemma add_create p name sk w0 w :
  keeps p 0 (disk w0) (disk w) → intact (disk w) →
  wp (_ ← add_keypair sk (pk_from_secret_key sk) p; create_wallet name p (pk_from_secret_key sk)) w
    (λ r w', keeps p 0 (disk w0) (disk w')
      ∧ (∀ a, r = Ok a → ∃ x, wallet_at (disk w') p name x ∧ wallet_size x = 0)).
Proof.
  intros K0 Hi. apply wp_bind, wp_add_keypair; [done|].
  intros [[]|e] w1 K1 Ho; [|split; [by keeps_chain | done]].
  apply wp_create_wallet; [by eapply keeps_intact | by apply Ho|]. intros r w2 K2 Hx.
  split; [by keeps_chain|]. intros [] ->. eexists. by split; [apply Hx|].
Qed.

Lemma wp_assoc {A B C} (m : io S A) (k : A → io S B) (l : B → io S C) w Q :
  wp ((m ≫= k) ≫= l) w Q → wp (m ≫= λ a, k a ≫= l) w Q.
Proof.
  intros (r & w' & E & HQ). exists r, w'. split; [|done]. unfold mbind, sem_bind in *. by destruct (m w) as [[[]?]|].
Qed.

Lemma restore_wallet_creates p name m : creates p name (restore_wallet network name p m).
Proof.
  intros w Hi Hm. unfold restore_wallet. apply wp_bind, wp_add_mnemonic; [done|].
  intros [[]|e] w1 K1; [|done]. apply wp_bind, wp_generate_keypair; [by eapply keeps_intact|].
  intros [[pk sk]|e] w2 K2 Hpk; [|split; [by keeps_chain | done]]. rewrite (Hpk pk sk eq_refl).
  apply add_create; [by keeps_chain|]. by eauto using keeps_intact.
Qed.

Lemma new_wallet_creates p name kind : creates p name (new_wallet network name p kind).
Proof.
  intros w Hi Hm. unfold new_wallet. destruct kind.
  - apply wp_bind. unfold private_key_new. destruct (sk_new (entropy w)) as [sk e] eqn:E.
    eapply wp_with_entropy; [by rewrite E|]. cbn zeta.
    apply wp_assoc, wp_bind. eapply wp_mono; [apply (add_create p name sk w); [apply keep_refl | done]|].
    cbn beta. intros [[]|e'] w' [K Hx]; [apply wp_ret|]; (split; [done|]); [|done]. intros _ _. by apply (Hx ()).
  - apply wp_bind. unfold mnemonic_new_io. destruct (mnemonic_new (entropy w)) as [m e] eqn:E.
    eapply wp_with_entropy; [by rewrite E|]. apply wp_bind.
    eapply wp_mono; [by apply (restore_wallet_creates p name m (MkWorld (disk w) e))|].
    cbn beta. intros [[]|e'] w' [K Hx]; [apply wp_ret|]; (split; [done|]); [|done]. intros _ _. by apply (Hx ()).
Qed.
End derivation.

(** ** Signing *)

Lemma get_wallet_at p name x w : wallet_at (disk w) p name x → get_wallet name p w = Some (Ok x, w).
Proof.
  intros Hx. pose proof (wallet_at_decodes _ _ _ _ _ Hx (at_stored _ _ _ _ Hx)) as Ed.
  unfold get_wallet, load_wallet, load_secure, mbind, sem_bind.
  rewrite (get_secure_reads _ _ _ _ _ (at_stored _ _ _ _ Hx)). unfold pure_res, decode_or_err. by rewrite Ed.
Qed.

Lemma find_listed_hash x h : h ∈ root_hashes x → find_root_hash x (OrTree h) = Some h.
Proof.
  intros Hh. unfold find_root_hash. destruct (list_find_elem_of (λ h', h' = h) _ _ Hh eq_refl) as [[i h'] E].
  rewrite E. by apply list_find_Some in E as (_ & -> & _).
Qed.

Lemma find_listed p name x h w :
  wallet_at (disk w) p name x → h ∈ root_hashes x → ws_find_root_hash name p (OrTree h) w = Some (Ok (Some h), w).
Proof.
  intros Hx Hh. unfold ws_find_root_hash, mbind, sem_bind. rewrite (get_wallet_at _ _ _ _ Hx).
  by rewrite (find_listed_hash _ _ Hh).
Qed.

Lemma stored_address p keys k a w :
  multi_sig_new keys (self_public_key a) k = Some (Ok a) → multi_sig_sized a →
  reads (disk w) ROOT_KEYSPACE (ms_root_hash a) p (Some (enc multi_sig_address_codec a)) →
  get_multi_sig_address_from_root_hash (ms_root_hash a) p w = Some (Ok a, w).
Proof.
  intros _ Hs Hr. unfold get_multi_sig_address_from_root_hash, mbind, sem_bind.
  rewrite (get_secure_reads _ _ _ _ _ Hr). unfold pure_res. cbn [chain_none].
  by rewrite (decode_ok _ _ _ multi_sig_codec_ok).
Qed.

(** The witness of a one-signer address: its owner's signature and proof. *)
Lemma single_signs p h w :
  address_at (disk w) p 1 h →
  ∃ sk proof, ∀ txid, length txid = 32%nat →
    schnorr_sign_with_root_hash p txid h w = Some (Ok (TreeSig (schnorr_sign_with txid sk) proof), w)
    ∧ verify_tx_address (TreeSig (schnorr_sign_with txid sk) proof) txid (OrTree h) = Some (Ok ()).
Proof.
  intros (keys & a & Ha & <- & Hs & Hr & Ho). destruct (get_private_key_owned _ _ _ Ho) as (sk & Esk & Epk).
  destruct (multi_sig_new_self _ _ _ _ Ha) as [_ Hin].
  destruct (multi_sig_group_proof _ _ _ _ [self_public_key a] Ha) as (pk & proof & Eg & Ep & Hv); [|done|].
  { by apply singleton_submseteq_l. }
  assert (sort_keys [self_public_key a] = [self_public_key a]) as Es
    by (apply Permutation_singleton_r, sort_keys_perm).
  rewrite Es in Eg. injection Eg as <-. exists sk, proof. intros txid Hl. split.
  - pose proof (multi_sig_leaves _ _ _ _ Ha) as (_ & _ & Ek & _). pose proof (stored_address _ _ _ _ _ Ha Hs Hr) as Hg.
    unfold schnorr_sign_with_root_hash, rh_required_signers, rh_public_key, rh_generate_proof, mbind, sem_bind.
    rewrite Hg. cbn [mret sem_ret]. rewrite Ek, decide_False by (intros []; done). rewrite Hg. cbn [mret sem_ret].
    rewrite Esk. unfold pure_res at 1. cbn [chain_none]. rewrite Hg, Ep. unfold pure_run, pure_res. cbn [chain_none].
    unfold private_key_schnorr_sign, message_from_slice. by rewrite Hl, Nat.eqb_refl.
  - unfold to_extended_addr in Hv. rewrite Hv by done. rewrite Epk. by rewrite schnorr_verify_sign.
Qed.

(** ** Sequences of operations *)

Section trace.
Context (network : Network) (p : str).

(** The calls of the client that change a wallet. *)
Inductive WalletOp :=
  | NewWallet (name : str) (wallet_kind : WalletKind)
  | RestoreWallet (name : str) (mnemonic : Mnemonic)
  | NewPublicKey (name : str) (address_type : option AddressType)
  | NewStakingAddress (name : str)
  | NewTransferAddress (name : str)
  | NewMultiSigAddress (name : str) (public_keys : list PublicKey) (self : PublicKey) (m : nat).

Inductive OpValue :=
  | Created
  | GotKey (public_key : PublicKey)
  | GotStaking (address : StakedStateAddress)
  | GotAddress (address : ExtendedAddr).

Definition run_op (op : WalletOp) : io S OpValue :=
  match op with
  | NewWallet name kind => _ ← new_wallet network name p kind; mret Created
  | RestoreWallet name mnemonic => _ ← restore_wallet network name p mnemonic; mret Created
  | NewPublicKey name t => pk ← new_public_key network name p t; mret (GotKey pk)
  | NewStakingAddress name => a ← new_staking_address network name p; mret (GotStaking a)
  | NewTransferAddress name => a ← new_transfer_address network name p; mret (GotAddress a)
  | NewMultiSigAddress name keys self m =>
      a ← new_multisig_transfer_address name p keys self m; mret (GotAddress a)
  end.

(** The calls one after the other, whether they succeed or fail. *)
Fixpoint run_ops (ops : list WalletOp) (w : World S) : option (list (result ErrorKind OpValue) * World S) :=
  match ops with
  | [] => Some ([], w)
  | op :: ops =>
      '(r, w) ← run_op op w;
      '(rs, w) ← run_ops ops w;
      Some (r :: rs, w)
  end.

Definition op_name (op : WalletOp) : str :=
  match op with
  | NewWallet name _ | RestoreWallet name _ | NewPublicKey name _ | NewStakingAddress name
  | NewTransferAddress name | NewMultiSigAddress name _ _ _ => name
  end.

Definition creating (op : WalletOp) : Prop :=
  match op with NewWallet _ _ | RestoreWallet _ _ => True | _ => False end.

(** The call makes an address of one signer. *)
Definition one_signer (op : WalletOp) : Prop :=
  match op with NewTransferAddress _ => True | NewMultiSigAddress _ _ _ m => m = 1%nat | _ => False end.

Definition op_fits (op : WalletOp) : Prop :=
  match op with
  | NewMultiSigAddress _ keys self m =>
      (length keys ≤ 60)%nat
      ∧ ∀ a, m ≠ 1%nat → multi_sig_new keys self m = Some (Ok a) → shared (ms_root_hash a)
  | _ => True
  end.

Definition lists_value (v : OpValue) (x : Wallet) : Prop :=
  match v with
  | Created => True
  | GotKey pk => lists_key pk x
  | GotStaking a => lists_staking a x
  | GotAddress a => lists_address a x
  end.

Definition single_value (v : OpValue) (d : S) : Prop :=
  match v with GotAddress a => single_at p a d | _ => True end.

Lemma issues_map {A B} name (m : io S A) (f : A → B) lists also lists' also' :
  issues p name m lists also → (∀ a x, lists a x → lists' (f a) x) → (∀ a d, also a d → also' (f a) d) →
  issues p name (a ← m; mret (f a)) lists' also'.
Proof.
  intros Hm Hl Ha w Hi Hk. apply wp_bind. eapply wp_mono; [by apply Hm|].
  intros [a|e] w' [K Hr]; [apply wp_ret|by split]. split; [done|]. intros b [= <-].
  destruct (Hr a eq_refl) as [Hal Hx]. split; [by apply Ha|]. intros x Hx0 Hz.
  destruct (Hx x Hx0 Hz) as (y & ? & ? & ?). exists y. auto.
Qed.

Lemma run_op_issues op :
  op_fits op → ¬ creating op →
  issues p (op_name op) (run_op op) lists_value (λ v d, one_signer op → single_value v d).
Proof.
  intros Hf Hc. destruct op as [n k|n m|n t|n|n|n keys self m]; cbn in *; try by destruct Hc.
  - by eapply issues_map; [apply new_public_key_issues|..].
  - by eapply issues_map; [apply new_staking_address_issues|..].
  - eapply issues_map; [apply new_transfer_address_issues|..]; by cbn.
  - destruct Hf as [Hl Hs]. eapply issues_map; [by apply new_multisig_issues|..]; by cbn.
Qed.

Lemma run_op_creates op : creating op → creates p (op_name op) (run_op op).
Proof.
  intros Hc w Hi Hm. destruct op as [n k|n m|n t|n|n|n keys self m]; try by destruct Hc.
  - apply wp_bind. eapply wp_mono; [by apply (new_wallet_creates network p n k w)|].
    intros [a|e] w' [K Hx]; [apply wp_ret|by split]. split; [done|]. intros _ _. by apply (Hx a).
  - apply wp_bind. eapply wp_mono; [by apply (restore_wallet_creates network p n m w)|].
    intros [a|e] w' [K Hx]; [apply wp_ret|by split]. split; [done|]. intros _ _. by apply (Hx a).
Qed.

Lemma creating_dec op : creating op ∨ ¬ creating op.
Proof. destruct op; cbn; auto. Qed.

Lemma run_op_keeps op w :
  op_fits op → intact (disk w) → keys_match (disk w) p →
  ∃ r w', run_op op w = Some (r, w') ∧ keeps p 1 (disk w) (disk w')
    ∧ (creating op → ∀ v, r = Ok v → ∃ x, wallet_at (disk w') p (op_name op) x ∧ wallet_size x = 0)
    ∧ (¬ creating op → issued p (op_name op) lists_value (λ v d, one_signer op → single_value v d) (disk w) r w').
Proof.
  intros Hf Hi Hm. destruct (creating_dec op) as [Hc|Hc].
  - destruct (run_op_creates op Hc w Hi Hm) as (r & w' & E & K & Hx). exists r, w'. split; [done|].
    split; [by keeps_chain|]. split; [intros _; exact Hx | by intros ?].
  - destruct (run_op_issues op Hf Hc w Hi Hm) as (r & w' & E & Hr). exists r, w'. split; [done|].
    split; [apply Hr|]. by split.
Qed.

Lemma lists_value_le v x y : wallet_le x y → lists_value v x → lists_value v y.
Proof.
  intros (_ & Hp & Hs & Hh). destruct v as [|pk|a|[h]]; cbn; auto.
  - apply Hp.
  - intros (pk & Hpk & E). exists pk. auto.
Qed.

Lemma single_value_keeps v n d d' : keeps p n d d' → single_value v d → single_value v d'.
Proof. intros K. destruct v as [|pk|a|[h]]; cbn; auto. intros Hs Hn. eapply keeps_single; eauto. Qed.

(** A value that a call returned, in the storage [d] after later calls. *)
Definition value_kept (op : WalletOp) (v : OpValue) (d : S) : Prop :=
  (∃ y, wallet_at d p (op_name op) y ∧ lists_value v y) ∧ (one_signer op → single_value v d).

Lemma run_ops_keeps ops w :
  Forall op_fits ops → intact (disk w) → keys_match (disk w) p →
  ∃ rs w', run_ops ops w = Some (rs, w') ∧ length rs = length ops
    ∧ keeps p (Z.of_nat (length ops)) (disk w) (disk w')
    ∧ (∀ j op v x, ops !! j = Some op → rs !! j = Some (Ok v) → ¬ creating op →
         wallet_at (disk w) p (op_name op) x → wallet_size x + Z.of_nat (length ops) ≤ U32_MAX →
         value_kept op v (disk w'))
    ∧ (∀ i j op op' v v', ops !! i = Some op' → rs !! i = Some (Ok v') → creating op' → (i < j)%nat →
         ops !! j = Some op → rs !! j = Some (Ok v) → ¬ creating op → op_name op = op_name op' →
         Z.of_nat (length ops) ≤ U32_MAX → value_kept op v (disk w')).
Proof.
  revert w. induction ops as [|o ops IH]; intros w Hf Hi Hm.
  { exists [], w. split_and!; try done. apply keep_refl. }
  apply Forall_cons in Hf as [Hfo Hf]. destruct (run_op_keeps o w Hfo Hi Hm) as (r & w1 & E1 & K1 & Hc & Hn).
  destruct (IH w1 Hf (keeps_intact _ _ _ _ K1 Hi) (keeps_match _ _ _ _ K1 Hm)) as (rs & w2 & E2 & Hlen & K2 & Hj & Hij).
  exists (r :: rs), w2. cbn [run_ops length]. rewrite E1. cbn [mbind option_bind]. rewrite E2. cbn [mbind option_bind].
  assert (K : keeps p (Z.of_nat (Datatypes.S (length ops))) (disk w) (disk w2)).
  { rewrite Nat2Z.inj_succ, <- Z.add_1_l. by apply (keep_trans p _ _ _ (disk w1)); [lia|lia|..]. }
  split_and!; [done | cbn; lia | done | |].
  - intros [|j] op v x Hop Hr Hcr Hx Hs; cbn in Hop, Hr.
    + injection Hop as ->. injection Hr as ->. destruct (Hn Hcr) as [_ Hr]. destruct (Hr v eq_refl) as [Hsv Hxl].
      destruct (Hxl x Hx) as (y & Hy & Hzy & Hly); [lia|].
      destruct (keeps_wallet _ _ _ _ K2 _ y Hy) as (z & Hz & Hle & _); [lia|].
      split; [exists z; split; [done | by eapply lists_value_le]|]. intros H1s. by apply (single_value_keeps _ _ _ _ K2), Hsv.
    + destruct (keeps_wallet _ _ _ _ K1 _ x Hx) as (y & Hy & _ & Hzy); [lia|].
      eapply (Hj j); eauto. lia.
  - intros [|i] [|j] op op' v v' Hop' Hr' Hcr' Hlt Hop Hr Hcr En Hs; cbn in *; try lia.
    + injection Hop' as ->. injection Hr' as ->. destruct (Hc Hcr' v' eq_refl) as (x & Hx & Hz).
      rewrite <- En in Hx. eapply (Hj j); eauto. lia.
    + eapply (Hij i j); eauto; lia.
Qed.
End trace.
End kept.

(** ** What a wallet has given out *)

Section given_out.
Context `{Hashes, Aead, Scale, Hex, BitVecLib, TimeLib, HdCrypto} {S : Type} `{!Store S}.
Context `{!AeadLaws, !StoreLaws S, !ScaleLaws, !ClientKeysLaws, !Secp256k1Laws, !HdCryptoLaws}.

(** More keys than this would have more combinations than a [u64] counts. *)
Definition op_small (op : WalletOp) : Prop :=
  match op with NewMultiSigAddress _ keys _ _ => (length keys ≤ 60)%nat | _ => True end.

(** One of the calls makes an address of several signers with this root hash. *)
Definition shares (ops : list WalletOp) (h : H256) : Prop :=
  ∃ name keys self m a, NewMultiSigAddress name keys self m ∈ ops ∧ m ≠ 1%nat
    ∧ multi_sig_new keys self m = Some (Ok a) ∧ ms_root_hash a = h.

Lemma op_small_fits ops : Forall op_small ops → Forall (op_fits (shares ops)) ops.
Proof.
  rewrite !Forall_forall. intros Hs op Hop. pose proof (Hs op Hop). destruct op; try done. split; [done|].
  intros a Hm Ha. by eexists _, _, _, _, a.
Qed.

Lemma create_signer_signs p name x h (w : World S) :
  wallet_at (disk w) p name x → h ∈ root_hashes x → address_at (disk w) p 1 h →
  ∃ g, can_sign (create_signer name p w) g (OrTree h).
Proof.
  intros Hx Hh Ha. destruct (single_signs _ _ _ Ha) as (sk & proof & Hw).
  exists (λ txid _, TreeSig (schnorr_sign_with txid sk) proof). split.
  - cbn [schnorr_sign_condition create_signer]. unfold wallet_sign_condition, mbind, sem_bind.
    by rewrite (find_listed _ _ _ _ _ Hx Hh).
  - intros txid Hl. destruct (Hw txid Hl) as [Es Hv]. split; [|done].
    cbn [schnorr_sign create_signer]. unfold wallet_schnorr_sign, mbind, sem_bind.
    rewrite (find_listed _ _ _ _ _ Hx Hh). unfold pure_res. cbn [chain_none]. by rewrite Es.
Qed.

Lemma staking_key_found p name x a (w : World S) :
  wallet_at (disk w) p name x → lists_staking (BasicRedeem a) x →
  ∃ pk sk, ws_find_staking_key name p a w = Some (Ok (Some pk), w)
    ∧ get_private_key pk p w = Some (Ok (Some sk), w)
    ∧ pk = pk_from_secret_key sk ∧ redeem_address_from_pk pk = a.
Proof.
  intros Hx (pk & Hpk & E). assert (redeem_address_from_pk pk = a) as E' by congruence.
  unfold ws_find_staking_key, mbind, sem_bind. rewrite (get_wallet_at _ _ _ _ Hx). unfold find_staking_key.
  destruct (list_find_elem_of (λ key, redeem_address_from_pk key = a) _ _ Hpk E') as [[i pk'] Ef].
  rewrite Ef. apply list_find_Some in Ef as (Hi & E'' & _).
  pose proof (at_staking _ _ _ _ Hx) as Hs. rewrite Forall_forall in Hs.
  destruct (get_private_key_owned p pk' w (Hs pk' (list_elem_of_lookup_2 _ _ _ Hi))) as (sk & Esk & Epk).
  by exists pk', sk.
Qed.

(** C26. What a wallet has given out stays usable.  From a storage whose encrypted values
    are whole, any calls of the client that create wallets, keys and addresses, whether
    each succeeds or fails, run to the end.  Every address that a call gave out for one
    signer, in a wallet that an earlier call had created, is then one that the wallet
    signs for, with a witness that the chain accepts, unless a call made an address of
    several signers with the same root hash; and every staking address is found with its
    private key. *)
Theorem given_out_usable network p ops (w : World S) :
  intact (disk w) → keys_match (disk w) p → Forall op_small ops → Z.of_nat (length ops) ≤ U32_MAX →
  ∃ rs w', run_ops network p ops w = Some (rs, w') ∧ length rs = length ops
    ∧ ∀ i j create op created v, ops !! i = Some create → creating create → rs !! i = Some (Ok created) →
        (i < j)%nat → ops !! j = Some op → ¬ creating op → op_name op = op_name create → rs !! j = Some (Ok v) →
        (∀ h, v = GotAddress (OrTree h) → one_signer op → ¬ shares ops h →
           ∃ g, can_sign (create_signer (op_name op) p w') g (OrTree h))
        ∧ (∀ a, v = GotStaking (BasicRedeem a) →
           ∃ pk sk, ws_find_staking_key (op_name op) p a w' = Some (Ok (Some pk), w')
             ∧ get_private_key pk p w' = Some (Ok (Some sk), w')
             ∧ pk = pk_from_secret_key sk ∧ redeem_address_from_pk pk = a).
Proof.
  intros Hi Hm Hs Hl.
  destruct (run_ops_keeps (shares ops) network p ops w (op_small_fits _ Hs) Hi Hm) as (rs & w' & E & Hlen & _ & _ & Hij).
  exists rs, w'. split; [done|]. split; [done|]. intros i j create op created v Hc Hcr Hri Hlt Hop Hn En Hr.
  destruct (Hij i j op create v created) as [(y & Hy & Hv) Hone]; try done. split.
  - intros h -> Ho Hsh. eapply create_signer_signs; [done | done | by apply Hone].
  - intros a ->. by eapply staking_key_found.
Qed.

(** ** Transfers *)

(** An output to an address of one signer that the wallet lists. *)
Definition spendable (d : S) p (x : Wallet) (out : TxOut) : Prop :=
  match out_address out with OrTree h => h ∈ root_hashes x ∧ address_at d p 1 h end.

Lemma can_sign_all signer (g0 : TxId → ExtendedAddr → TxInWitness) (l : list ExtendedAddr) :
  Forall (λ a, ∃ g, can_sign signer g a) l → ∃ g, Forall (can_sign signer g) l.
Proof.
  induction 1 as [|a l [g Hg] Hl [g' Hg']]; [by exists g0|].
  exists (λ txid a', if decide (a' = a) then g txid a' else g' txid a').
  apply Forall_forall. intros c Hc. rewrite Forall_forall in Hg'. unfold can_sign. destruct (decide (c = a)) as [->|Hne].
  - destruct Hg as [? Hg]. by split.
  - apply Hg'. by apply elem_of_cons in Hc as [?|?].
Qed.

Lemma apply_all_perm l ops : apply_all l ops ≡ₚ l.
Proof.
  revert l. induction ops as [|[[|]] ops IH]; intros l; [done|..]; cbn; unfold apply_all in IH; rewrite IH;
    apply stable_sort_perm.
Qed.

Section transfer.
Context {F : Type} `{!FeeAlgorithm F} (alg : F) (encrypt : Obfuscation).

Lemma create_transaction_builds name p x state outs attrs strategy ret (w : World S) :
  wallet_at (disk w) p name x → state_at (disk w) p name state →
  create_transaction alg encrypt name p outs attrs strategy ret w
  = (λ r, (r, w)) <$> build_transfer_tx alg (create_signer name p w) encrypt
      (apply_all (btree_iter (unspent_transactions state)) (strategy_operations (default SelectHighestValueFirst strategy)))
      outs ret attrs.
Proof.
  intros Hx Hs. unfold create_transaction, client_unspent_transactions, ws_view_key, get_unspent_transactions.
  unfold mbind, sem_bind. rewrite (get_wallet_at _ _ _ _ Hx). cbn [mret sem_ret].
  rewrite (get_wallet_state_at _ _ _ _ Hs). cbn [mret sem_ret]. unfold reading, pure_run.
  by destruct (build_transfer_tx _ _ _ _ _ _ _).
Qed.

Lemma signer_for name p x (l : list (TxoPointer * TxOut)) (w : World S) :
  wallet_at (disk w) p name x → Forall (λ u, spendable (disk w) p x u.2) l →
  ∃ g, Forall (λ u, can_sign (create_signer name p w) g (out_address u.2)) l.
Proof.
  intros Hx Hl. destruct (at_view _ _ _ _ Hx) as (sk & _). destruct (key_pair_signer_spec sk) as (s & _).
  destruct (can_sign_all (create_signer name p w) (λ txid _, key_pair_witness s txid) ((λ u, out_address u.2) <$> l))
    as [g Hg]; [|exists g; rewrite Forall_fmap in Hg; exact Hg].
  apply Forall_fmap. eapply Forall_impl; [exact Hl|]. intros [i out]. unfold spendable. cbn [snd compose].
  destruct (out_address out) as [h]. intros [Hh Ha]. by eapply create_signer_signs.
Qed.
End transfer.

(** C27. Transfers of a wallet.  When a wallet's recorded outputs are to addresses of one
    signer that it lists, creating a transfer from them either fails for one of the named
    reasons, or signs and hands over a transfer of a prefix of the recorded outputs, in
    the order of the strategy; the chain accepts it with exactly the fee it leaves
    whenever the minimal fee is not higher and the spent outputs are as recorded.  The
    storage is not changed. *)
Theorem wallet_transfer_accepted {F : Type} `{!FeeAlgorithm F} (alg : F) encrypt name p x state outs attrs strategy ret
    (w : World S) (l := apply_all (btree_iter (unspent_transactions state))
                          (strategy_operations (default SelectHighestValueFirst strategy))) :
  is_Some (unwrap (schnorr_from_default (replicate 64 Byte.x00))) →
  wallet_at (disk w) p name x → state_at (disk w) p name state →
  map_Forall (λ _, spendable (disk w) p x) (unspent_transactions state) →
  Forall (λ o, coin_ok (out_value o) ∧ 0 < out_value o) outs → outs ≠ [] →
  (∃ e, create_transaction alg encrypt name p outs attrs strategy ret w = Some (Err e, w)
        ∧ build_error alg l outs ret attrs e)
  ∨ (∃ b sel change fees wit, built alg l outs ret attrs b sel change fees
       ∧ create_transaction alg encrypt name p outs attrs strategy ret w
         = (λ r, (r, w)) <$> encrypt (SignedTransfer (to_tx b) wit)
       ∧ ∀ info tins, outs_ok tins → Forall2 (refers info) sel tins →
           info_chain_hex_id info = chain_hex_id attrs →
           coin_ok (min_fee_computed info) → min_fee_computed info ≤ fees →
           verify_transfer (to_tx b) wit info tins = Some (Ok fees)).
Proof.
  intros Hd Hx Hs Hsp Ho Hne. apply Forall_and in Ho as [Hoc Hop].
  assert (Hperm : l ≡ₚ map_to_list (unspent_transactions state)) by (unfold l; by rewrite apply_all_perm, btree_iter_perm).
  pose proof (state_at_ok _ _ _ _ Hs) as ([_ Hu] & _).
  assert (Hall : ∀ u, u ∈ l → unspent_transactions state !! u.1 = Some u.2).
  { intros [i out]. rewrite Hperm. apply elem_of_map_to_list. }
  rewrite (create_transaction_builds alg encrypt _ _ _ _ _ _ _ _ _ Hx Hs). fold l.
  destruct (signer_for name p x l w Hx) as [g Hg].
  { apply Forall_forall. intros u Hul. eapply Hsp, Hall, Hul. }
  destruct (signer_build alg l outs ret attrs Hd) with (signer := create_signer name p w) (g := g) (encrypt := encrypt)
    as [(e & -> & He)|(b & sel & change & fees & Hb & _ & _ & -> & Hv)]; try done.
  - apply Forall_forall. intros u Hul. destruct (Hu _ _ (Hall u Hul)) as [_ (_ & Hc & _)]. done.
  - rewrite Hperm. apply NoDup_fst_map_to_list.
  - left. by exists e.
  - right. by eexists b, sel, change, fees, _.
Qed.

(** ** A creation that fails *)

Section failed_creation.
Context `{!ScaleSizes} (network : Network).

Lemma hd_key_stays d d' ks k p v name o :
  written d d' ks k p v → ks ≠ HD_KEYSPACE → store_view d HD_KEYSPACE !! name = o →
  store_view d' HD_KEYSPACE !! name = o.
Proof. intros [_ Hs] Hne <-. apply Hs. congruence. Qed.

(** Creating from a mnemonic under a name that has a wallet fails, after its key was
    stored. *)
Lemma restore_fails name q m (w : World S) :
  intact (disk w) → is_Some (store_view (disk w) WALLET_KEYSPACE !! name) →
  store_view (disk w) HD_KEYSPACE !! name = None →
  ∃ e w', restore_wallet network name q m w = Some (Err e, w')
    ∧ (∀ k, store_view (disk w') WALLET_KEYSPACE !! k = store_view (disk w) WALLET_KEYSPACE !! k)
    ∧ is_Some (store_view (disk w') HD_KEYSPACE !! name).
Proof.
  intros Hi Hn Hhd. set (k := {| staking_index := 0; transfer_index := 0; hd_seed := mnemonic_seed m |}).
  assert (Hk : hd_key_ok k) by (split_and!; [done | done | apply mnemonic_seed_length]).
  destruct keyspaces_differ as (_ & Hkw & _ & Hhk & _ & Hhw).
  destruct (set_secure_reads HD_KEYSPACE name q (enc hd_key_codec k) w None) as (w1 & Es & Hr1 & Hs1 & _);
    [unfold reads; by rewrite Hhd | by apply hd_key_size|].
  assert (Ea : add_mnemonic name m q w = Some (Ok tt, w1)).
  { unfold add_mnemonic, mbind, sem_bind. rewrite get_law, Hhd. fold k. by rewrite Es. }
  destruct (generate_keypair_step network w1 name q Transfer k Hr1 Hk) as (r & w2 & Ed & Eg & Hr2 & Hs2).
  assert (Hw2 : ∀ j, store_view (disk w2) WALLET_KEYSPACE !! j = store_view (disk w) WALLET_KEYSPACE !! j)
    by (intros j; rewrite Hs2 by congruence; rewrite Hs1 by congruence; done).
  assert (Hh2 : is_Some (store_view (disk w2) HD_KEYSPACE !! name)).
  { unfold hd_stored, reads in Hr2. by destruct (store_view (disk w2) HD_KEYSPACE !! name). }
  enough (Hwp : wp (restore_wallet network name q m) w (λ r w', (∃ e, r = Err e)
    ∧ (∀ k, store_view (disk w') WALLET_KEYSPACE !! k = store_view (disk w) WALLET_KEYSPACE !! k)
    ∧ is_Some (store_view (disk w') HD_KEYSPACE !! name))).
  { destruct Hwp as (? & w' & E & (e & ->) & ? & ?). by exists e, w'. }
  unfold restore_wallet. apply wp_bind. exists (Ok tt), w1. split; [done|]. apply wp_bind. exists r, w2. split; [done|].
  destruct r as [[pk sk]|e]; [|by eauto]. apply wp_bind, wp_bind, wp_set.
  - eapply (written_intact _ _ HD_KEYSPACE name q); [by split| |set_solver].
    by eapply (written_intact _ _ HD_KEYSPACE name q); [by split|].
  - intros old w3 _ Hw3. apply wp_ret. unfold create_wallet. apply wp_bind. unfold wp at 1. rewrite contains_law.
    eexists _, _. split; [done|]. cbn beta iota.
    assert (Hw3' : ∀ j, store_view (disk w3) WALLET_KEYSPACE !! j = store_view (disk w) WALLET_KEYSPACE !! j)
      by (intros j; rewrite <- Hw2; apply Hw3; congruence).
    rewrite bool_decide_true by by rewrite Hw3'. apply wp_throw. split; [eauto|]. split; [done|].
    by rewrite (hd_key_stays _ _ _ _ _ _ name _ Hw3 ltac:(congruence) eq_refl).
  - intros e w' E. rewrite E. eauto.
Qed.

Lemma hd_blocks {A} name p t (k : PublicKey * PrivateKey → io S A) (w : World S) :
  decrypt_option name p (store_view (disk w) HD_KEYSPACE !! name) = Some (Err Kind.DecryptionError) →
  ∃ w', (next_keypair network name p (Ok t) ≫= k) w = Some (Err Kind.DecryptionError, w').
Proof.
  intros Hd. unfold next_keypair, has_wallet, mbind at 1, sem_bind, mbind, sem_bind. rewrite contains_law.
  rewrite bool_decide_true by by destruct (_ !! name). unfold pure_res, generate_keypair, mbind, sem_bind.
  destruct (update_secure_fails HD_KEYSPACE name p (increment_bytes t) w Kind.DecryptionError) as (d & -> & _);
    [right; eauto|]. eauto.
Qed.

(** A creation that fails takes a wallet over.  Restoring a wallet from a mnemonic
    under the name of an existing wallet that has no mnemonic fails, and the wallet is
    not changed, but the mnemonic's key stays in the storage under the name.  From then
    on, with every passphrase that does not open that key, the wallet makes no new
    transfer or staking address any more. *)
Theorem failed_restore_blocks name q m (w : World S) :
  intact (disk w) → is_Some (store_view (disk w) WALLET_KEYSPACE !! name) →
  store_view (disk w) HD_KEYSPACE !! name = None →
  ∃ e w', restore_wallet network name q m w = Some (Err e, w')
    ∧ (∀ k, store_view (disk w') WALLET_KEYSPACE !! k = store_view (disk w) WALLET_KEYSPACE !! k)
    ∧ has_wallet name w = Some (Ok false, w) ∧ has_wallet name w' = Some (Ok true, w')
    ∧ ∀ p, decrypt_option name p (store_view (disk w') HD_KEYSPACE !! name) = Some (Err Kind.DecryptionError) →
        (∃ w'', new_transfer_address network name p w' = Some (Err Kind.DecryptionError, w''))
        ∧ (∃ w'', new_staking_address network name p w' = Some (Err Kind.DecryptionError, w'')).
Proof.
  intros Hi Hn Hhd. destruct (restore_fails name q m w Hi Hn Hhd) as (e & w' & E & Hw & Hh).
  exists e, w'. unfold has_wallet. rewrite !contains_law, Hhd. rewrite (bool_decide_true _ Hh).
  split_and!; try done. intros p Hp. split; by apply hd_blocks.
Qed.
End failed_creation.
End given_out.

(** ** Example *)

Module Example.
Export HdExample.
Import WalletExample SyncExample.

Definition pass : str := bstr "secret".
Definition wallet : str := bstr "wallet".
Definition calls : list WalletOp :=
  [NewWallet wallet Basic; NewStakingAddress wallet; NewTransferAddress wallet; NewPublicKey wallet None].

Lemma fresh_intact : intact (disk fresh).
Proof. intros ks k _ q. exists (Ok None). reflexivity. Qed.
Lemma fresh_match : keys_match (disk fresh) pass.
Proof. intros pk bytes Hr. discriminate Hr. Qed.

(** The kinds of the results. *)
Definition shape (r : result ErrorKind OpValue) : Z :=
  match r with
  | Ok Created => 0 | Ok (GotKey _) => 1 | Ok (GotStaking _) => 2 | Ok (GotAddress (OrTree _)) => 3
  | Err _ => 4
  end.
Lemma calls_succeed : option_map (λ x, shape <$> x.1) (run_ops Devnet pass calls fresh) = Some [0; 2; 3; 1].
Proof. vm_cast_no_check (@eq_refl (option (list Z)) (Some [0; 2; 3; 1])). Qed.

Lemma given_out_usable_witness :
  ∃ rs w' h, run_ops Devnet pass calls fresh = Some (rs, w')
    ∧ rs !! 2%nat = Some (Ok (GotAddress (OrTree h)))
    ∧ ∃ g, can_sign (create_signer wallet pass w') g (OrTree h).
Proof.
  destruct (given_out_usable Devnet pass calls fresh fresh_intact fresh_match) as (rs & w' & E & _ & Hall).
  { repeat constructor. }
  { vm_compute. discriminate. }
  pose proof calls_succeed as Es. rewrite E in Es. cbn [option_map fst] in Es.
  destruct rs as [|r0 [|r1 [|r2 rs]]]; try discriminate Es.
  destruct r0 as [[| | |[]]|]; try discriminate Es. destruct r2 as [[| | |[h]]|]; try discriminate Es.
  eexists _, w', h. split; [exact E|]. split; [reflexivity|].
  destruct (Hall 0%nat 2%nat (NewWallet wallet Basic) (NewTransferAddress wallet) Created (GotAddress (OrTree h))
    eq_refl I eq_refl ltac:(lia) eq_refl (λ F, F) eq_refl eq_refl) as [Hs _].
  apply (Hs h eq_refl I). intros (n & keys & self & m & a & Hin & _).
  unfold calls in Hin. rewrite !elem_of_cons in Hin. destruct Hin as [Hin|[Hin|[Hin|[Hin|Hin]]]]; try discriminate Hin.
  inversion Hin.
Defined.

(** A basic wallet under its name, and a second creation with another passphrase. *)
Definition created : World (gmap (list byte) (gmap (list byte) (list byte))) :=
  match run_ops Devnet pass [NewWallet wallet Basic; NewTransferAddress wallet] fresh with
  | Some (_, w) => w | None => fresh
  end.
Definition other : str := bstr "other".

Lemma created_intact : intact (disk created).
Proof.
  destruct (run_ops_keeps (λ _, False) Devnet pass [NewWallet wallet Basic; NewTransferAddress wallet] fresh)
    as (rs & w & E & _ & K & _); [repeat constructor | apply fresh_intact | apply fresh_match|].
  unfold created. rewrite E. exact (keeps_intact _ _ _ _ _ K fresh_intact).
Qed.
Lemma created_wallet : bool_decide (is_Some (store_view (disk created) WALLET_KEYSPACE !! wallet)) = true.
Proof. vm_cast_no_check (@eq_refl bool true). Qed.
Lemma created_basic : store_view (disk created) HD_KEYSPACE !! wallet = None.
Proof. vm_cast_no_check (@eq_refl (option (list byte)) None). Qed.
Lemma other_key :
  match restore_wallet Devnet wallet other words created with
  | Some (_, w') => decrypt_option wallet pass (store_view (disk w') HD_KEYSPACE !! wallet)
  | None => None
  end = Some (Err Kind.DecryptionError).
Proof. vm_cast_no_check (@eq_refl (run ErrorKind (option (list byte))) (Some (Err Kind.DecryptionError))). Qed.

Lemma failed_restore_blocks_witness :
  ∃ e w' w'', restore_wallet Devnet wallet other words created = Some (Err e, w')
    ∧ new_transfer_address Devnet wallet pass w' = Some (Err Kind.DecryptionError, w'').
Proof.
  destruct (failed_restore_blocks Devnet wallet other words created created_intact
    (bool_decide_eq_true_1 _ created_wallet) created_basic) as (e & w' & E & _ & _ & _ & Hb).
  pose proof other_key as Hk. rewrite E in Hk. destruct (Hb pass Hk) as [[w'' Et] _].
  exists e, w', w''. split; [exact E | exact Et].
Defined.

(** The wallet has recorded an output to its address. *)
Definition recorded : WalletState :=
  {| unspent_transactions := {[ txo_pointer_new (transaction_id tx_codec earlier) 1 := tx_out_new (addr_of Byte.x05) 1000000 ]};
     transaction_history := ∅; balance := 1000000 |}.
Definition synced : World (gmap (list byte) (gmap (list byte) (list byte))) :=
  match save_wallet_state wallet pass recorded created with Some (_, w) => w | None => created end.
Definition h5 : H256 := node_type_hash (pk_serialize (Byte.x05 : PublicKey)) LeafType.
Definition five : PublicKey := Byte.x05.
Definition the_wallet : Wallet :=
  {| wallet_view_key := five; wallet_public_keys := []; wallet_staking_keys := []; root_hashes := [h5] |}.
Definition the_address : run ErrorKind MultiSigAddress := multi_sig_new [five] five 1.

Lemma owns_five : owned (disk synced) pass five.
Proof.
  exists secret. split; [|reflexivity].
  vm_cast_no_check (@eq_refl (run ErrorKind (option (list byte))) (Some (Ok (Some (sk_serialize secret))))).
Qed.

Lemma address_five : address_at (disk synced) pass 1 h5.
Proof.
  assert (E : ∃ a, the_address = Some (Ok a) ∧ ms_root_hash a = h5
    ∧ reads (disk synced) ROOT_KEYSPACE h5 pass (Some (enc multi_sig_address_codec a))).
  { eexists. split; [vm_compute; reflexivity|].
    split; [vm_cast_no_check (@eq_refl H256 h5) |].
    vm_compute. reflexivity. }
  destruct E as (a & Ea & Eh & Er). destruct (multi_sig_new_self _ _ _ _ Ea) as [Es _].
  exists [five], a. rewrite Es. split; [exact Ea|]. split; [exact Eh|].
  split; [|split; [exact Er | exact owns_five]]. refine (multi_sig_new_sized _ _ _ _ Ea _). cbn. lia.
Qed.

Lemma wallet_synced : wallet_at (disk synced) pass wallet the_wallet.
Proof.
  split.
  - vm_cast_no_check (@eq_refl (run ErrorKind (option (list byte))) (Some (Ok (Some (enc wallet_codec the_wallet))))).
  - split; [split; constructor|]. split; [split; constructor|].
    split; [split; [repeat constructor | apply NoDup_singleton] | repeat constructor].
  - vm_compute. discriminate.
  - exact owns_five.
  - constructor.
  - constructor.
  - constructor; [exists 1%nat; exact address_five | constructor].
Qed.

Lemma state_synced : state_at (disk synced) pass wallet recorded.
Proof.
  left. split.
  - vm_cast_no_check (@eq_refl (run ErrorKind (option (list byte))) (Some (Ok (Some (enc wallet_state_codec recorded))))).
  - split; [|split; [split; [vm_compute; discriminate | apply map_Forall_empty] | vm_compute; split; discriminate]].
    split; [vm_compute; discriminate|]. apply map_Forall_singleton. split; [split; [reflexivity | vm_compute; split; discriminate]|].
    split; [reflexivity|]. split; [vm_compute; split; discriminate | exact I].
Qed.

Lemma creates_one :
  match create_transaction fee_alg echo wallet pass payments attrs None (addr_of Byte.x05) synced with
  | Some (Ok _, _) => true | _ => false
  end = true.
Proof. vm_cast_no_check (@eq_refl bool true). Qed.

Lemma recorded_coins :
  apply_all (btree_iter (unspent_transactions recorded)) (strategy_operations SelectHighestValueFirst) = coins.
Proof. vm_cast_no_check (@eq_refl (list (TxoPointer * TxOut)) coins). Qed.

Lemma wallet_transfer_accepted_witness :
  ∃ b sel change fees wit,
    built fee_alg coins payments (addr_of Byte.x05) attrs b sel change fees
    ∧ create_transaction fee_alg echo wallet pass payments attrs None (addr_of Byte.x05) synced
      = Some (Ok (mock_txaux_for_tx (to_tx b) wit), synced)
    ∧ verify_transfer (to_tx b) wit info [TxTypes.Transfer earlier] = Some (Ok fees).
Proof.
  destruct (wallet_transfer_accepted fee_alg echo wallet pass the_wallet recorded payments attrs None (addr_of Byte.x05)
    synced dummy_ok wallet_synced state_synced) as [(e & He & _)|(b & sel & change & fees & wit & Hb & Hc & Hv)].
  - apply map_Forall_singleton. split; [by left | exact address_five].
  - apply Forall_and. split; [exact payments_coins | exact payments_positive].
  - discriminate.
  - exfalso. pose proof creates_one as Eb. rewrite He in Eb. discriminate Eb.
  - cbn [default] in Hb. change (default _ None) with SelectHighestValueFirst in Hb. rewrite recorded_coins in Hb.
    exists b, sel, change, fees, wit. split; [exact Hb|]. split; [exact Hc|].
    destruct Hb as (_ & (Hne & Hp & _) & Hf & _). apply (coins_prefix sel Hne) in Hp. subst sel.
    apply Hv; [exact earlier_ok | exact coins_refer | reflexivity | vm_compute; split; discriminate | apply Hf].
Defined.
End Example.
