(* ===== verification/Rpc.v ===== *)
(** * Rpc: what a client reads from the node over Tendermint

    [client-common]: the blocks, results and queries of [tendermint/types.rs] and
    [tendermint/types/block_results.rs], the lite client's trusted state of
    [tendermint/lite.rs] and the trait of [tendermint/client.rs] as a record of its
    calls; and the text form of a staking address of [chain-core/src/init/address.rs],
    which the client parses.  The blocks and headers of the [tendermint] crate have the
    fields that the client reads.

    The theorem: from the results of a block that the node of [DeliverTx] executed, the
    client reads exactly the identifiers, accounts and filter of what the node
    accepted. *)

From stdpp Require Import base tactics option list gmap strings.
From Stdlib Require Import ZArith Lia.
From S2P Require Import Prelude Text Codec Coin Crypto Merkle Params Account TxTypes Validation BitVec Events Filter.
From S2P Require Import Punishment Genesis Storage EnclaveProtocol AppState Slashing DeliverTx EndBlock Client WalletSync.

(** ** Staking addresses as text *)

Inductive ErrorAddress :=
  | InvalidLength (len : nat)
  | InvalidHexLength (s : str)
  | UnexpectedHexEncoding.

Definition redeem_try_from (data : list byte) : result ErrorAddress RedeemAddress :=
  if decide (length data ≠ REDEEM_ADDRESS_BYTES) then Err (InvalidLength (length data)) else Ok data.

Definition hex_prefixed (s : str) : bool := bool_decide (take 2 s = bstr "0x").

Definition redeem_from_str `{Hex} (s : str) : result ErrorAddress RedeemAddress :=
  if decide (length s ≠ (REDEEM_ADDRESS_BYTES * 2)%nat ∧ hex_prefixed s = false)
  then Err (InvalidHexLength s)
  else
    let value := if hex_prefixed s then drop 2 s else s in
    match hex_decode value with
    | None => Err UnexpectedHexEncoding
    | Some bytes => redeem_try_from bytes
    end.

Lemma redeem_from_to_string `{Hex} (a : RedeemAddress) :
  length a = REDEEM_ADDRESS_BYTES → redeem_from_str (address_to_string (BasicRedeem a)) = Ok a.
Proof.
  intros Ha. unfold redeem_from_str, address_to_string.
  assert (hex_prefixed (bstr "0x" ++ hex_encode a) = true) as -> by by apply bool_decide_eq_true.
  rewrite decide_False by (intros [_ ?]; done).
  change (drop 2 (bstr "0x" ++ hex_encode a)) with (hex_encode a). rewrite hex_decode_encode.
  unfold redeem_try_from. by rewrite decide_False by naive_solver.
Qed.

(** ** Block results *)

Record Attribute := { attr_key : str; attr_value : str }.
Record RpcEvent := { event_type : str; rpc_attributes : list Attribute }.
Record RpcDeliverTx := { deliver_events : list RpcEvent }.
Record RpcEndBlock := { end_events : list RpcEvent }.
Record Results := { deliver_tx_results : option (list RpcDeliverTx); end_block_results : option RpcEndBlock }.
Record BlockResults := { results_height : Z; results : Results }.

Section block_results.
Context `{Hashes, Secp256k1, BitVecLib, Hex, Base64}.

Definition from_base64 (s : str) : result ErrorKind (list byte) :=
  chain_none Kind.DeserializationError (base64_decode s).

Fixpoint find_event_attribute_by_key (attributes : list Attribute) (target_key : TendermintEventKey) :
  result ErrorKind (option Attribute) :=
  match attributes with
  | [] => Ok None
  | attribute :: attributes =>
      key ← from_base64 (attr_key attribute);
      if decide (key = event_key_to_vec target_key) then Ok (Some attribute)
      else find_event_attribute_by_key attributes target_key
  end.

Definition find_tx_id_from_event_attributes (attributes : list Attribute) : result ErrorKind (option TxId) :=
  maybe_attribute ← find_event_attribute_by_key attributes TxIdKey;
  match maybe_attribute with
  | None => Ok None
  | Some attribute =>
      tx_id ← from_base64 (attr_value attribute);
      tx_id ← chain_none Kind.DeserializationError (hex_decode tx_id);
      if decide (length tx_id ≠ 32%nat) then Err Kind.DeserializationError else Ok (Some tx_id)
  end.

Definition find_account_from_event_attributes (attributes : list Attribute) :
  result ErrorKind (option StakedStateAddress) :=
  maybe_attribute ← find_event_attribute_by_key attributes AccountKey;
  match maybe_attribute with
  | None => Ok None
  | Some attribute =>
      account ← from_base64 (attr_value attribute);
      if utf8_valid account then
        redeem_address ← chain_err Kind.DeserializationError (redeem_from_str account);
        Ok (Some (BasicRedeem redeem_address))
      else Err Kind.DeserializationError
  end.

(** The two loops of [transaction_ids]. *)
Fixpoint event_ids (events : list RpcEvent) (transactions : list TxId) : result ErrorKind (list TxId) :=
  match events with
  | [] => Ok transactions
  | event :: events =>
      if decide (event_type event = event_type_to_string ValidTransactions) then
        tx_id ← find_tx_id_from_event_attributes (rpc_attributes event);
        event_ids events (match tx_id with Some id => transactions ++ [id] | None => transactions end)
      else event_ids events transactions
  end.
Fixpoint deliver_ids (l : list RpcDeliverTx) (transactions : list TxId) : result ErrorKind (list TxId) :=
  match l with
  | [] => Ok transactions
  | transaction :: l =>
      transactions ← event_ids (deliver_events transaction) transactions;
      deliver_ids l transactions
  end.

Definition transaction_ids (self : BlockResults) : result ErrorKind (list TxId) :=
  match deliver_tx_results (results self) with
  | None => Ok []
  | Some deliver_tx => deliver_ids deliver_tx []
  end.

(** The two loops of [contains_account], which end at the first match. *)
Fixpoint events_contain (events : list RpcEvent) (target_account : StakedStateAddress) : result ErrorKind bool :=
  match events with
  | [] => Ok false
  | event :: events =>
      if decide (event_type event ≠ event_type_to_string ValidTransactions)
      then events_contain events target_account
      else
        found ← find_account_from_event_attributes (rpc_attributes event);
        match found with
        | None => events_contain events target_account
        | Some address => if decide (address = target_account) then Ok true
                          else events_contain events target_account
        end
  end.
Fixpoint deliver_contain (l : list RpcDeliverTx) (target_account : StakedStateAddress) : result ErrorKind bool :=
  match l with
  | [] => Ok false
  | transaction :: l =>
      found ← events_contain (deliver_events transaction) target_account;
      if found : bool then Ok true else deliver_contain l target_account
  end.

Definition contains_account (self : BlockResults) (target_account : StakedStateAddress) : result ErrorKind bool :=
  match deliver_tx_results (results self) with
  | None => Ok false
  | Some deliver_tx => deliver_contain deliver_tx target_account
  end.

(** The first filter event; one without attributes is a panic. *)
Fixpoint events_filter (events : list RpcEvent) : run ErrorKind BlockFilter :=
  match events with
  | [] => Some (Ok filter_default)
  | event :: events =>
      if decide (event_type event = event_type_to_string BlockFilterEvent) then
        attribute ← rpc_attributes event !! 0%nat;
        decoded ?← Some (from_base64 (attr_value attribute));
        Some (chain_err Kind.DeserializationError (filter_try_from decoded))
      else events_filter events
  end.

Definition block_filter (self : BlockResults) : run ErrorKind BlockFilter :=
  match end_block_results (results self) with
  | None => Some (Ok filter_default)
  | Some end_block => events_filter (end_events end_block)
  end.
End block_results.

(** ** Blocks and queries *)

(** The [tendermint] crate: validators and headers as the lite client keeps them, with
    the JSON form of its state, and the text of a hash. *)
Class TendermintLib := {
  ValidatorInfo : Type;
  ValidatorSet : Type;
  LiteHeader : Type;
  validator_set_new : list ValidatorInfo → ValidatorSet;
  trusted_to_json : option LiteHeader * ValidatorSet → str;
  trusted_from_json : str → option (option LiteHeader * ValidatorSet);
  trusted_from_to t : trusted_from_json (trusted_to_json t) = Some t;
  hash_to_string : list byte → str;
}.

Record TrustedState `{TendermintLib} := { lite_header : option LiteHeader; lite_validators : ValidatorSet }.

Section blocks.
Context `{Hashes, Secp256k1, Scale, TimeLib, TendermintLib, Base64}.

Definition trusted_genesis (genesis_validators : list ValidatorInfo) : TrustedState :=
  {| lite_header := None; lite_validators := validator_set_new genesis_validators |}.

Definition trusted_state_codec : codec TrustedState :=
  Codec (λ t, enc string_codec (trusted_to_json (lite_header t, lite_validators t)))
    (s ⇐ dec string_codec;
     match trusted_from_json s with
     | Some (h, v) => dret {| lite_header := h; lite_validators := v |}
     | None => dfail
     end).

Record Header := { header_height : Z; header_time : Time; header_app_hash : option (list byte) }.
Record Block := { header : Header; block_data : list (list byte) }.

Definition decode_block_tx (raw : list byte) : result ErrorKind TxAux :=
  chain_none Kind.DeserializationError (decode tx_aux_codec raw).

(** The [filter_map] and [collect] of both methods: the first error is the result. *)
Fixpoint collect_txs {A} (f : TxAux → option A) (data : list (list byte)) : result ErrorKind (list A) :=
  match data with
  | [] => Ok []
  | raw :: data =>
      tx_aux ← decode_block_tx raw;
      rest ← collect_txs f data;
      Ok (match f tx_aux with Some a => a :: rest | None => rest end)
  end.

Definition staking_transaction (tx_aux : TxAux) : option Transaction :=
  match tx_aux with
  | EnclaveTx (DepositStakeTx tx _) => Some (DepositStakeTransaction tx)
  | UnbondStakeTx tx _ => Some (UnbondStakeTransaction tx)
  | _ => None
  end.
Definition enclave_transaction_id (tx_aux : TxAux) : option TxId :=
  match tx_aux with
  | EnclaveTx (WithdrawUnbondedStakeTx _ _ _) | EnclaveTx (TransferTx _ _ _) => Some (tx_id tx_aux)
  | _ => None
  end.

Definition block_staking_transactions (self : Block) : result ErrorKind (list Transaction) :=
  collect_txs staking_transaction (block_data self).
Definition block_enclave_transaction_ids (self : Block) : result ErrorKind (list TxId) :=
  collect_txs enclave_transaction_id (block_data self).

Record AbciQuery := { query_value : option str }.

Definition query_bytes (self : AbciQuery) : result ErrorKind (list byte) :=
  match query_value self with
  | None => Ok []
  | Some value => from_base64 value
  end.

Record Status := { latest_block_height : Z; latest_app_hash : option (list byte); latest_block_time : Time }.

(** The trait [Client]: the calls of the node's interface. *)
Record Client := {
  client_genesis_validators : result ErrorKind (list ValidatorInfo);
  client_status : result ErrorKind Status;
  client_block : Z → result ErrorKind Block;
  client_block_results : Z → result ErrorKind BlockResults;
  client_block_results_batch : list Z → result ErrorKind (list BlockResults);
  client_block_batch_verified : TrustedState → list Z → result ErrorKind (list Block * TrustedState);
  client_broadcast_transaction : list byte → result ErrorKind ();
  client_query : str → list byte → result ErrorKind AbciQuery;
  client_query_state_batch : list Z → result ErrorKind (list ChainState);
}.
End blocks.

(** ** What the node reports *)

Section reported.
Context `{Hashes, Secp256k1, BitVecLaws, KeyValueDBLaws, ScaleLaws, StarlingLaws, Hex, Base64,
          !EnclaveProxy, !EnclaveContract}.

(** Tendermint gives the attributes of an event in base 64. *)
Definition attribute_reports (kv : KVPair) (a : Attribute) : Prop :=
  base64_decode (attr_key a) = Some (kv_key kv) ∧ base64_decode (attr_value a) = Some (kv_value kv).
Definition event_reports (e : Event) (r : RpcEvent) : Prop :=
  event_type r = field_type e ∧ Forall2 attribute_reports (event_attributes e) (rpc_attributes r).

(** The results of a block, as the node answered its transactions and its end. *)
Definition results_report (responses : list ResponseTx) (end_block : list Event) (r : BlockResults) : Prop :=
  match deliver_tx_results (results r) with
  | None => responses = []
  | Some l => Forall2 (λ p d, Forall2 event_reports (resp_events p) (deliver_events d)) responses l
  end
  ∧ match end_block_results (results r) with
    | None => end_block = []
    | Some e => Forall2 event_reports end_block (end_events e)
    end.

Fixpoint deliver_responses (self : ChainNodeApp) (txs : list (list byte)) :
  option (ChainNodeApp * list ResponseTx) :=
  match txs with
  | [] => Some (self, [])
  | tx :: txs =>
      '(self, r) ← deliver_tx self tx;
      '(self, rs) ← deliver_responses self txs;
      Some (self, r :: rs)
  end.

(** The account of an accepted transaction: the one it names, or whose key signed it. *)
Definition touches (t : TxAux) (acc : option StakedState) : Prop :=
  match t with
  | EnclaveTx (TransferTx _ _ _) => acc = None
  | EnclaveTx (DepositStakeTx tx _) => ∃ a, acc = Some a ∧ staked_key a = to_stake_key (to_staked_account tx)
  | EnclaveTx (WithdrawUnbondedStakeTx _ w payload) => ∃ a addr, acc = Some a
      ∧ verify_tx_recover_address w (txid payload) = Ok addr ∧ staked_key a = to_stake_key addr
  | UnbondStakeTx tx _ => ∃ a, acc = Some a ∧ address a = from_staked_account tx
  | UnjailStakeTx tx _ => ∃ a, acc = Some a ∧ address a = unjail_address tx
  | NodeJoinTx tx _ => ∃ a, acc = Some a ∧ address a = join_address tx
  end.

Lemma unbond_address a v fee from a' : unbond a v fee from = Some a' → address a' = address a.
Proof.
  unfold unbond. destruct (unwrap _) as [b|]; cbn [mbind option_bind]; [|done].
  destruct (unwrap _); cbn [mbind option_bind]; [|done]. by intros [= <-].
Qed.

Lemma signed_key m w i a : accmap_ok m → signed_by m w i a →
  ∃ addr, verify_tx_recover_address w i = Ok addr ∧ staked_key a = to_stake_key addr.
Proof. intros Hm (addr & E & Ha). destruct (staked_key_lookup m addr a Hm Ha) as [? _]. eauto. Qed.

Lemma accepted_touches self s m min_fee t fee acc spent created :
  tx_inv self s m → tx_accepted self s m min_fee t fee acc spent created → touches t acc.
Proof.
  intros (_ & [_ Hm] & _) (Hmv & _). destruct t as [[ins n p|tx p|n w p]|tx w|tx w|tx w]; cbn [touches].
  - by destruct Hmv.
  - by destruct Hmv as (_ & _ & _ & _ & ?).
  - destruct Hmv as (_ & a & tx & Hs & _ & _ & _ & _ & _ & ->). destruct (signed_key _ _ _ _ Hm Hs) as (addr & E & Hk).
    by exists (withdraw a), addr.
  - destruct Hmv as (_ & _ & _ & a & a' & _ & (_ & _ & Ea & _) & Hu & ->). exists a'.
    by rewrite (unbond_address _ _ _ _ _ Hu).
  - destruct Hmv as (_ & _ & _ & a & _ & (_ & _ & Ea & _) & ->). by exists (unjail a).
  - destruct Hmv as (_ & _ & _ & a & _ & (_ & _ & _ & Ea & _) & ->). by exists (join_node a (node_meta tx)).
Qed.

(** What an answered transaction was: refused, or accepted with these parts. *)
Abbreviation verdict := (option (Fee * option StakedState * TxAux)) (only parsing).
Definition verdict_events (v : verdict) : list Event :=
  match v with Some (fee, acc, t) => [valid_tx_event fee acc t] | None => [] end.
Definition verdict_ok (v : verdict) : Prop :=
  match v with
  | Some (fee, acc, t) => tx_aux_ok t ∧ touches t acc ∧ (∀ a, acc = Some a → staked_state_ok a)
  | None => True
  end.
Definition accepted_txs (vs : list verdict) : list TxAux := (λ v, v.2) <$> omap Datatypes.id vs.

Lemma deliver_verdict self s m tx self' r :
  tx_inv self s m → params_ok (params_of s) → deliver_tx self tx = Some (self', r) →
  ∃ v s' m', verdict_ok v ∧ resp_events r = verdict_events v
    ∧ delivered_txs self' = delivered_txs self ++ accepted_txs [v]
    ∧ tx_inv self' s' m' ∧ params_of s' = params_of s.
Proof.
  intros Hinv Hp Hd.
  destruct (validate_tx_req self tx) as [[[code self1] mtx]|] eqn:Hv; [|by unfold deliver_tx in Hd; rewrite Hv in Hd].
  pose proof (validate_tx_req_cases _ _ _ _ _ _ _ Hinv Hv) as [(v & -> & Hpv) Hc].
  destruct mtx as [[t [fee acc]]|].
  - destruct Hc as (-> & _ & Hty & min_fee & spent & created & _ & Hacc).
    destruct (deliver_tx_spec _ _ _ _ _ _ _ _ _ _ _ Hinv Hp Hv Hacc Hty) as [Hpanic Hok].
    destruct (decide (period_bonus (pool_of s) + fee ≤ MAX_COIN)) as [Hle|Hgt]; [|rewrite Hpanic in Hd by lia; done].
    destruct (Hok Hle) as (self2 & s' & Ed & Hdel). rewrite Ed in Hd. injection Hd as <- <-.
    exists (Some (fee, acc, t)), s', (accounts_after m acc). split; [|split; [done|]].
    + split; [done|]. split; [by eapply accepted_touches|]. intros a ->. by destruct Hacc as (_ & (Hsok & _) & _).
    + split; [apply Hdel|]. split; [by eapply delivered_inv|]. by destruct Hdel as (_ & -> & _).
  - unfold deliver_tx in Hd. rewrite Hv in Hd. injection Hd as <- <-.
    exists None, s, m. split_and!; try done; [|by apply refused_inv]. cbn. by rewrite app_nil_r.
Qed.

Lemma deliver_verdicts txs self s m self' rs :
  tx_inv self s m → params_ok (params_of s) → deliver_responses self txs = Some (self', rs) →
  ∃ vs, Forall verdict_ok vs ∧ Forall2 (λ v r, resp_events r = verdict_events v) vs rs
    ∧ delivered_txs self' = delivered_txs self ++ accepted_txs vs.
Proof.
  revert self s m rs. induction txs as [|tx txs IH]; intros self s m rs Hinv Hp Hd; cbn [deliver_responses] in Hd.
  { injection Hd as <- <-. exists []. split_and!; [done | constructor | cbn; by rewrite app_nil_r]. }
  destruct (deliver_tx self tx) as [[self1 r]|] eqn:E; [|done]. cbn in Hd.
  destruct (deliver_verdict _ _ _ _ _ _ Hinv Hp E) as (v & s1 & m1 & Hv & Hr & Edl & Hinv1 & Ep).
  destruct (deliver_responses self1 txs) as [[self2 rs']|] eqn:E2; [|done]. cbn in Hd. injection Hd as <- <-.
  destruct (IH self1 s1 m1 rs' Hinv1 ltac:(by rewrite Ep) E2) as (vs & Hvs & Hf & Edl').
  exists (v :: vs). split_and!; [by constructor | by constructor|]. rewrite Edl', Edl, <- app_assoc. f_equal.
  unfold accepted_txs. cbn. by destruct v.
Qed.

(** *** Reading an event *)

Lemma find_reported kvs l k :
  Forall2 attribute_reports kvs l →
  match snd <$> list_find (λ kv, kv_key kv = event_key_to_vec k) kvs with
  | Some kv => ∃ a, find_event_attribute_by_key l k = Ok (Some a) ∧ from_base64 (attr_value a) = Ok (kv_value kv)
  | None => find_event_attribute_by_key l k = Ok None
  end.
Proof.
  induction 1 as [|kv a kvs l [Hk Hv] _ IH]; [done|]. cbn [list_find find_event_attribute_by_key].
  assert (from_base64 (attr_key a) = Ok (kv_key kv)) as -> by (unfold from_base64; by rewrite Hk).
  cbn [mbind result_bind]. case_decide; cbn [fmap option_fmap option_map snd].
  - exists a. split; [done|]. unfold from_base64. by rewrite Hv.
  - destruct (list_find _ kvs) as [[i kv']|]; cbn [fmap option_fmap option_map snd prod_map fst] in *; exact IH.
Qed.

Lemma tx_id_length t : tx_aux_ok t → length (tx_id t) = 32%nat.
Proof.
  intros Ht. destruct t as [[ins n p|tx p|n w p]|tx w|tx w|tx w]; cbn [tx_id enclave_tx_id]; try apply blake2s_length.
  - by destruct Ht as (_ & _ & _ & _ & _ & ?).
  - by destruct Ht as (_ & _ & _ & _ & ?).
Qed.

Lemma read_tx_id fee acc t l :
  tx_aux_ok t → Forall2 attribute_reports (event_attributes (valid_tx_event fee acc t)) l →
  find_tx_id_from_event_attributes l = Ok (Some (tx_id t)).
Proof.
  intros Ht Hl. pose proof (find_reported _ _ TxIdKey Hl) as Hf. unfold find_tx_id_from_event_attributes.
  assert (snd <$> list_find (λ kv, kv_key kv = event_key_to_vec TxIdKey) (event_attributes (valid_tx_event fee acc t))
    = Some (kvpair TxIdKey (hex_encode (tx_id t)))) as Ef by by destruct acc.
  rewrite Ef in Hf. destruct Hf as (a & -> & Ev). cbn [mbind result_bind]. rewrite Ev. cbn [mbind result_bind kv_value kvpair].
  rewrite hex_decode_encode. cbn [chain_none mbind result_bind]. rewrite decide_False; [done|]. rewrite tx_id_length by done. lia.
Qed.

Lemma read_account fee acc t l :
  (∀ a, acc = Some a → staked_state_ok a) →
  Forall2 attribute_reports (event_attributes (valid_tx_event fee acc t)) l →
  find_account_from_event_attributes l = Ok (address <$> acc).
Proof.
  intros Ha Hl. pose proof (find_reported _ _ AccountKey Hl) as Hf. unfold find_account_from_event_attributes.
  destruct acc as [a|].
  - assert (snd <$> list_find (λ kv, kv_key kv = event_key_to_vec AccountKey) (event_attributes (valid_tx_event fee (Some a) t))
      = Some (account_kvpair (address a))) as Ef by done.
    rewrite Ef in Hf. destruct Hf as (at_ & -> & Ev). cbn [mbind result_bind]. rewrite Ev. cbn [mbind result_bind].
    destruct (Ha a eq_refl) as (_ & _ & _ & _ & Haddr & _). destruct (address a) as [raw] eqn:Eaddr.
    cbn [kv_value account_kvpair kvpair].
    assert (utf8_valid (address_to_string (BasicRedeem raw)) = true) as ->.
    { apply utf8_ascii, Forall_app. split; [by repeat constructor | apply hex_encode_ascii]. }
    rewrite redeem_from_to_string by exact Haddr. cbn [chain_err mbind result_bind fmap option_fmap option_map].
    by rewrite Eaddr.
  - assert (snd <$> list_find (λ kv, kv_key kv = event_key_to_vec AccountKey) (event_attributes (valid_tx_event fee None t))
      = None) as Ef by done.
    rewrite Ef in Hf. by rewrite Hf.
Qed.

(** *** Reading the results *)

Definition verdict_reports (v : verdict) (d : RpcDeliverTx) : Prop :=
  Forall2 event_reports (verdict_events v) (deliver_events d).

Lemma verdict_event v d :
  verdict_reports v d →
  match v with
  | None => deliver_events d = []
  | Some (fee, acc, t) => ∃ e, deliver_events d = [e] ∧ event_type e = event_type_to_string ValidTransactions
      ∧ Forall2 attribute_reports (event_attributes (valid_tx_event fee acc t)) (rpc_attributes e)
  end.
Proof.
  unfold verdict_reports. destruct v as [[[fee acc] t]|]; cbn [verdict_events].
  - intros (e & l & [He Ha] & Hl & ->)%Forall2_cons_inv_l. apply Forall2_nil_inv_l in Hl as ->. by exists e.
  - by intros ->%Forall2_nil_inv_l.
Qed.

Lemma read_ids vs l acc :
  Forall verdict_ok vs → Forall2 verdict_reports vs l →
  deliver_ids l acc = Ok (acc ++ (tx_id <$> accepted_txs vs)).
Proof.
  intros Hok Hl. revert acc. induction Hl as [|v d vs l Hd Hl IH]; intros acc; [by rewrite app_nil_r|].
  apply Forall_cons in Hok as [Hv Hok]. cbn [deliver_ids]. apply verdict_event in Hd.
  destruct v as [[[fee a] t]|].
  - destruct Hd as (e & -> & He & Ha). destruct Hv as (Ht & _). cbn [event_ids]. rewrite decide_True by done.
    rewrite (read_tx_id _ _ _ _ Ht Ha). cbn [mbind result_bind]. rewrite IH by done. by rewrite <- app_assoc.
  - rewrite Hd. cbn [event_ids mbind result_bind]. by rewrite IH.
Qed.

Definition verdict_account (v : verdict) : option StakedStateAddress :=
  match v with Some (_, acc, _) => address <$> acc | None => None end.

Lemma read_accounts vs l a :
  Forall verdict_ok vs → Forall2 verdict_reports vs l →
  deliver_contain l a = Ok (bool_decide (Some a ∈ verdict_account <$> vs)).
Proof.
  intros Hok Hl. induction Hl as [|v d vs l Hd Hl IH]; [done|].
  apply Forall_cons in Hok as [Hv Hok]. cbn [deliver_contain]. apply verdict_event in Hd.
  assert (events_contain (deliver_events d) a = Ok (bool_decide (verdict_account v = Some a))) as ->.
  { destruct v as [[[fee acc] t]|]; [|by rewrite Hd]. destruct Hd as (e & -> & He & Ha). destruct Hv as (_ & _ & Hs).
    cbn [events_contain]. rewrite decide_False by tauto. rewrite (read_account _ _ _ _ Hs Ha).
    cbn [mbind result_bind verdict_account]. destruct acc as [a'|]; cbn [fmap option_fmap option_map]; [|done].
    destruct (decide (address a' = a)) as [E|E]; [rewrite bool_decide_true by congruence; done | rewrite bool_decide_false by congruence; done]. }
  cbn [mbind result_bind]. destruct (decide (verdict_account v = Some a)) as [E|E].
  - rewrite !bool_decide_true; [done | rewrite fmap_cons, E; by left | done].
  - rewrite (bool_decide_false _ E), (IH Hok). f_equal. apply bool_decide_ext. rewrite fmap_cons, elem_of_cons. split; [by right|].
    by intros [E'|?]; [destruct E|].
Qed.

Lemma read_filter raw l :
  Forall2 event_reports [filter_event raw] l → length raw = 256%nat →
  events_filter l = Some (Ok (filter_from raw)).
Proof.
  intros (e & l' & [He Ha] & _ & ->)%Forall2_cons_inv_l Hraw.
  cbn [events_filter]. rewrite decide_True by exact He.
  apply Forall2_cons_inv_l in Ha as (a & l'' & [_ Hv] & _ & ->). cbn [lookup list_lookup mbind option_bind].
  unfold from_base64. rewrite Hv. cbn [chain_none run_bind kv_value].
  assert (bloom_data (bloom (filter_from raw)) = raw) as Eb.
  { unfold bloom_data. cbn [bloom filter_from bloom_from bloom_bits]. by rewrite to_bytes_bits, bits_from_bytes, bytes_of_bits_of_bytes. }
  rewrite Eb. unfold filter_try_from, bloom_try_from. by rewrite Hraw.
Qed.

Lemma reports_verdicts vs rs l :
  Forall2 (λ v r, resp_events r = verdict_events v) vs rs →
  Forall2 (λ p d, Forall2 event_reports (resp_events p) (deliver_events d)) rs l →
  Forall2 verdict_reports vs l.
Proof.
  intros Hv. revert l. induction Hv as [|v r vs rs E Hv IH]; intros l Hl.
  - apply Forall2_nil_inv_l in Hl as ->. constructor.
  - apply Forall2_cons_inv_l in Hl as (d & l' & Hd & Hl & ->). constructor; [|by apply IH].
    unfold verdict_reports. by rewrite <- E.
Qed.

(** The addresses of the accounts. *)
Definition named (accs : list (option StakedState)) : list StakedStateAddress := address <$> omap Datatypes.id accs.

Lemma verdicts_touch vs :
  Forall verdict_ok vs →
  ∃ accs, Forall2 touches (accepted_txs vs) accs
    ∧ ∀ a : StakedStateAddress, Some a ∈ (verdict_account <$> vs : list _) ↔ a ∈ named accs.
Proof.
  induction 1 as [|v vs Hv _ (accs & Ht & Ha)]; [exists []; split; [exact (List.Forall2_nil _) | intros a; set_solver]|].
  destruct v as [[[fee acc] t]|].
  - exists (acc :: accs). split; [exact (List.Forall2_cons _ _ (proj1 (proj2 Hv)) Ht)|]. intros a. rewrite fmap_cons, elem_of_cons, Ha.
    unfold named. cbn [omap list_omap verdict_account]. destruct acc as [b|]; cbn [fmap option_fmap option_map Datatypes.id].
    + rewrite fmap_cons, elem_of_cons. naive_solver.
    + naive_solver.
  - exists accs. split; [done|]. intros a. rewrite fmap_cons, elem_of_cons, <- Ha. split; [by intros [?|?] | by right].
Qed.

(** C29. What a client reads from a block.  When the node answers the transactions of a
    block and its end, and the interface reports the answers, the client reads from the
    results the identifiers of exactly the accepted transactions, in order; it finds a
    staking address exactly when an accepted transaction names it or is signed with its
    key; and it gets the filter of the block, or the empty one when there is none. *)
Theorem client_reads_block txs self s m self' rs end_block r :
  tx_inv self s m → params_ok (params_of s) → delivered_txs self = [] →
  deliver_responses self txs = Some (self', rs) → results_report rs end_block r →
  transaction_ids r = Ok (tx_id <$> delivered_txs self')
  ∧ (∃ accs, Forall2 touches (delivered_txs self') accs
       ∧ ∀ a, contains_account r a = Ok (bool_decide (a ∈ named accs)))
  ∧ (end_block = [] → block_filter r = Some (Ok filter_default))
  ∧ (∀ raw, end_block = [filter_event raw] → length raw = 256%nat → block_filter r = Some (Ok (filter_from raw))).
Proof.
  intros Hinv Hp Hno Hd [Hr He]. destruct (deliver_verdicts _ _ _ _ _ _ Hinv Hp Hd) as (vs & Hvs & Hrs & ->).
  rewrite Hno. cbn [app]. unfold transaction_ids, contains_account, block_filter.
  destruct (verdicts_touch vs Hvs) as (accs & Ht & Ha).
  split; [|split; [exists accs; split; [done|]|]].
  - destruct (deliver_tx_results (results r)) as [l|]; [by rewrite (read_ids vs) by eauto using reports_verdicts|].
    subst rs. by apply Forall2_nil_inv_r in Hrs as ->.
  - intros a. destruct (deliver_tx_results (results r)) as [l|].
    + rewrite (read_accounts vs) by eauto using reports_verdicts. f_equal. by apply bool_decide_ext.
    + subst rs. apply Forall2_nil_inv_r in Hrs as ->. f_equal. symmetry. apply bool_decide_eq_false. rewrite <- Ha. set_solver.
  - destruct (end_block_results (results r)) as [e|]; split.
    + intros ->. by apply Forall2_nil_inv_l in He as ->.
    + intros raw ->. by apply read_filter.
    + done.
    + intros raw Er. by rewrite Er in He.
Qed.
End reported.

(** ** Example *)

Module RpcExample.
Import AppExample.
#[export] Existing Instance Ref.base64.
#[export] Instance reject_contract : EnclaveContract.
Proof. refine {| enclave_open := λ _, None; proxy_inv := λ _, True |}; by intros. Defined.

(** The answers of the node in base 64. *)
Definition report_event (e : Event) : RpcEvent :=
  {| event_type := field_type e;
     rpc_attributes := (λ kv, {| attr_key := base64_encode (kv_key kv); attr_value := base64_encode (kv_value kv) |})
                         <$> event_attributes e |}.
Definition report (rs : list ResponseTx) (end_block : list Event) : BlockResults :=
  {| results_height := 7;
     results := {| deliver_tx_results := Some ((λ r, {| deliver_events := report_event <$> resp_events r |}) <$> rs);
                   end_block_results := Some {| end_events := report_event <$> end_block |} |} |}.

Lemma report_event_reports (l : list Event) : Forall2 event_reports l (report_event <$> l).
Proof.
  apply Forall2_fmap_r, Forall_Forall2_diag, Forall_forall. intros e _. split; [reflexivity|].
  apply Forall2_fmap_r, Forall_Forall2_diag, Forall_forall. intros kv _. split; apply base64_decode_encode.
Qed.
Lemma report_reports rs end_block : results_report rs end_block (report rs end_block).
Proof.
  split; [|apply report_event_reports]. cbn. apply Forall2_fmap_r, Forall_Forall2_diag, Forall_forall. intros r _.
  apply report_event_reports.
Qed.

(** A block with an accepted unbonding and bytes that are refused. *)
Lemma accepts_one :
  match deliver_responses (app staker) [unbond_bytes; []] with
  | Some (self', _) => (length (delivered_txs self') =? 1)%nat
  | None => false
  end = true.
Proof. vm_cast_no_check (@eq_refl bool true). Qed.

Lemma client_reads_block_witness :
  ∃ self' rs t, deliver_responses (app staker) [unbond_bytes; []] = Some (self', rs)
    ∧ delivered_txs self' = [t] ∧ transaction_ids (report rs []) = Ok [tx_id t]
    ∧ block_filter (report rs []) = Some (Ok filter_default).
Proof.
  pose proof accepts_one as Ea.
  destruct (deliver_responses (app staker) [unbond_bytes; []]) as [[self' rs]|] eqn:E; [|discriminate Ea].
  destruct (client_reads_block [unbond_bytes; []] (app staker) (state staker) (accmap_of staker) self' rs [] (report rs [])
    staker_inv staker_params_ok eq_refl E (report_reports rs [])) as (Hids & _ & Hf & _).
  destruct (delivered_txs self') as [|t [|]] eqn:Ed; [discriminate Ea | | discriminate Ea].
  exists self', rs, t. split; [reflexivity|]. split; [exact Ed|]. split; [exact Hids | exact (Hf eq_refl)].
Defined.
End RpcExample.
