(* ===== verification/Address.v ===== *)
(** * Address: the network of a process and addresses as text

    Models [src/chain-core/src/init/network.rs], the network that a process is set to once,
    and the bech32 text of addresses in [src/chain-core/src/init/address.rs] and
    [src/chain-core/src/tx/data/address.rs].  The [bech32] crate is the class [Bech32] of
    [Crypto].

    The theorem: the text of a transfer address is read back on its network and refused on
    the others, the hexadecimal text of a staking address is read back on every network, and
    the parser of transfer addresses refuses the latter but panics on a bech32 text of the
    network whose payload has not 32 bytes. *)

From stdpp Require Import base tactics option list gmap strings.
From Stdlib Require Import ZArith Lia.
From S2P Require Import Prelude Text Codec Crypto Account TxTypes Slashing Client HdWallet Rpc.

(** ** The network *)

#[global] Instance Network_eq_dec : EqDecision Network.
Proof. solve_decision. Defined.

Section network.
Context `{Hex}.

Definition TESTNET_CHAIN_ID : str := bstr "testnet-thaler-crypto-com-chain-42".
Definition MAINNET_CHAIN_ID : str := bstr "mainnet-crypto-com-chain-2A".

(** The static variables, and whether their [Once] has run. *)
Record ChosenNetwork := {
  chosen_network : Network;
  chosen_network_id : Z;
  network_called : bool;
  network_id_called : bool;
}.
Definition not_chosen : ChosenNetwork :=
  {| chosen_network := Devnet; chosen_network_id := 0; network_called := false; network_id_called := false |}.

Definition init_network (c : ChosenNetwork) (network : Network) : ChosenNetwork :=
  if network_called c then c
  else {| chosen_network := network; chosen_network_id := chosen_network_id c;
          network_called := true; network_id_called := network_id_called c |}.
Definition init_network_id (c : ChosenNetwork) (i : Z) : ChosenNetwork :=
  if network_id_called c then c
  else {| chosen_network := chosen_network c; chosen_network_id := i;
          network_called := network_called c; network_id_called := true |}.

Definition network_of (chain_id : str) : Network :=
  if decide (chain_id = MAINNET_CHAIN_ID) then Mainnet
  else if decide (chain_id = TESTNET_CHAIN_ID) then Testnet else Devnet.

(** The last two characters; a cut inside a character panics. *)
Definition last_two (chain_id : str) : option str :=
  let s := drop (length chain_id - 2) chain_id in
  match s with
  | b :: _ => if in_range 0x80 0xbf b then None else Some s
  | [] => Some s
  end.

Definition init_chain_id (c : ChosenNetwork) (chain_id : str) : option ChosenNetwork :=
  if (length chain_id <? 6)%nat then None
  else
    hexstring ← last_two chain_id;
    hexvalue ← hex_decode hexstring;
    match hexvalue with
    | [b] =>
        let c := init_network_id c (byte_to_Z b) in
        if chosen_network_id c =? byte_to_Z b then Some (init_network c (network_of chain_id)) else None
    | _ => None
    end.

Definition get_bech32_human_part_from_network (network : Network) : str :=
  match network with
  | Mainnet => bstr "cro"
  | Testnet => bstr "tcro"
  | Devnet => bstr "dcro"
  end.
Definition get_bech32_human_part (c : ChosenNetwork) : str := get_bech32_human_part_from_network (chosen_network c).
Definition get_bip44_coin_type (c : ChosenNetwork) : Z := get_bip44_coin_type_from_network (chosen_network c).
End network.

(** ** Addresses as text *)

Inductive CroAddressError := Bech32Error | InvalidNetwork | ConvertError.

Section text.
Context `{Bech32}.

Definition extended_to_cro (self : ExtendedAddr) (network : Network) : run CroAddressError str :=
  match self with
  | OrTree hash =>
      encoded ← bech32_encode (get_bech32_human_part_from_network network) (to_base32 hash);
      Some (Ok encoded)
  end.

(** [copy_from_slice] panics unless there are 32 bytes. *)
Definition extended_from_cro (encoded_addr : str) (network : Network) : run CroAddressError ExtendedAddr :=
  let hrp := get_bech32_human_part_from_network network in
  if decide (take (length hrp) encoded_addr = hrp) then
    match bech32_decode encoded_addr with
    | None => Some (Err Bech32Error)
    | Some (_, data) =>
        match from_base32 data with
        | None => Some (Err ConvertError)
        | Some hash => if decide (length hash = 32%nat) then Some (Ok (OrTree hash)) else None
        end
    end
  else Some (Err InvalidNetwork).

Definition redeem_to_cro (self : RedeemAddress) (network : Network) : run CroAddressError str :=
  encoded ← bech32_encode (get_bech32_human_part_from_network network) (to_base32 self);
  Some (Ok encoded).

Definition redeem_from_cro (encoded : str) (network : Network) : result CroAddressError RedeemAddress :=
  match bech32_decode encoded with
  | None => Err Bech32Error
  | Some (human_part, u5_bytes) =>
      if decide (human_part ≠ get_bech32_human_part_from_network network) then Err InvalidNetwork
      else
        match from_base32 u5_bytes with
        | None => Err ConvertError
        | Some bytes => match redeem_try_from bytes with Ok a => Ok a | Err _ => Err ConvertError end
        end
  end.

(** [Display] and [FromStr] of transfer addresses use the network of the process. *)
Definition extended_to_string (c : ChosenNetwork) (self : ExtendedAddr) : option str :=
  s ← extended_to_cro self (chosen_network c); unwrap s.
Definition extended_from_str (c : ChosenNetwork) (s : str) : run CroAddressError ExtendedAddr :=
  r ← extended_from_cro s (chosen_network c);
  Some (match r with Ok a => Ok a | Err _ => Err ConvertError end).
End text.

(** ** Round trips and refusals *)

Section theorems.
Context `{Hex, Bech32}.

Lemma human_part_ok n : hrp_ok (get_bech32_human_part_from_network n).
Proof. destruct n; (split; [done|]); by repeat constructor. Qed.

(** The text of some bytes on a network. *)
Lemma text_of n bs : ∃ s,
  bech32_encode (get_bech32_human_part_from_network n) (to_base32 bs) = Some (get_bech32_human_part_from_network n ++ s)
  ∧ bech32_decode (get_bech32_human_part_from_network n ++ s) = Some (get_bech32_human_part_from_network n, to_base32 bs).
Proof. apply bech32_encode_ok, human_part_ok. Qed.

Lemma human_part_prefix n n' s :
  take (length (get_bech32_human_part_from_network n')) (get_bech32_human_part_from_network n ++ s)
  = get_bech32_human_part_from_network n' ↔ n' = n.
Proof. destruct n, n'; split; intros E; (done || discriminate E). Qed.

Lemma human_part_inj n n' :
  get_bech32_human_part_from_network n = get_bech32_human_part_from_network n' → n = n'.
Proof. destruct n, n'; intros E; (done || discriminate E). Qed.

(** The first successful choice of a network is kept by the later ones. *)
Lemma init_chain_id_once c0 c1 c2 id1 id2 :
  network_called c0 = false → network_id_called c0 = false →
  init_chain_id c0 id1 = Some c1 → init_chain_id c1 id2 = Some c2 →
  c2 = c1 ∧ chosen_network c1 = network_of id1.
Proof.
  unfold init_chain_id. intros Hn Hi H1 H2.
  destruct (length id1 <? 6)%nat; [done|]. destruct (last_two id1) as [l1|]; [|done]. cbn in H1.
  destruct (hex_decode l1) as [[|b1 []]|]; try done. cbn in H1. unfold init_network_id in H1. rewrite Hi in H1. cbn in H1.
  rewrite Z.eqb_refl in H1. unfold init_network in H1. cbn in H1. rewrite Hn in H1. injection H1 as <-.
  destruct (length id2 <? 6)%nat; [done|]. destruct (last_two id2) as [l2|]; [|done]. cbn in H2.
  destruct (hex_decode l2) as [[|b2 []]|]; try done. cbn in H2. destruct (_ =? _); [|done]. by injection H2 as <-.
Qed.

(** A bech32 text of the network with another payload than 32 bytes. *)
Lemma wrong_payload_panics s n human data payload :
  take (length (get_bech32_human_part_from_network n)) s = get_bech32_human_part_from_network n →
  bech32_decode s = Some (human, data) → from_base32 data = Some payload → length payload ≠ 32%nat →
  extended_from_cro s n = None.
Proof. intros Hp Hd Hb Hl. unfold extended_from_cro. by rewrite decide_True, Hd, Hb, decide_False. Qed.

(** C40. Addresses as text.  A process that was set to a chain identifier, however often it is
    set again afterwards, writes and reads transfer addresses on the network of the first:
    the text of an address is read back, and refused on every other network.  The text of a
    staking address is its bytes in hexadecimal: it is read back on every network, and the
    parser of transfer addresses refuses it with an error.  That parser panics on every
    bech32 text with the prefix of the network whose payload has not 32 bytes, among them
    the bech32 form of a staking address, which the parser of that form reads back. *)
Theorem address_texts c0 c1 c2 id1 id2 root (a : RedeemAddress) :
  network_called c0 = false → network_id_called c0 = false →
  init_chain_id c0 id1 = Some c1 → init_chain_id c1 id2 = Some c2 →
  length root = 32%nat → length a = REDEEM_ADDRESS_BYTES →
  (∃ s, extended_to_string c2 (OrTree root) = Some s ∧ extended_from_str c2 s = Some (Ok (OrTree root))
     ∧ ∀ n, extended_from_cro s n = Some (if decide (n = network_of id1) then Ok (OrTree root) else Err InvalidNetwork))
  ∧ (redeem_from_str (address_to_string (BasicRedeem a)) = Ok a
     ∧ extended_from_str c2 (address_to_string (BasicRedeem a)) = Some (Err ConvertError))
  ∧ (∀ s human data payload,
       take (length (get_bech32_human_part c2)) s = get_bech32_human_part c2 →
       bech32_decode s = Some (human, data) → from_base32 data = Some payload → length payload ≠ 32%nat →
       extended_from_str c2 s = None)
  ∧ (∃ s, redeem_to_cro a (chosen_network c2) = Some (Ok s)
       ∧ (∀ n, redeem_from_cro s n = if decide (n = network_of id1) then Ok a else Err InvalidNetwork)
       ∧ extended_from_str c2 s = None).
Proof.
  intros Hn Hi H1 H2 Hr Ha. destruct (init_chain_id_once _ _ _ _ _ Hn Hi H1 H2) as [-> Hc].
  unfold get_bech32_human_part, extended_to_string, extended_from_str. rewrite Hc. clear -Hr Ha.
  generalize (network_of id1) as m. intros m. split; [|split; [|split]].
  - destruct (text_of m root) as (s & He & Hd). exists (get_bech32_human_part_from_network m ++ s).
    assert (Hall : ∀ n, extended_from_cro (get_bech32_human_part_from_network m ++ s) n
      = Some (if decide (n = m) then Ok (OrTree root) else Err InvalidNetwork)).
    { intros n. unfold extended_from_cro. destruct (decide (n = m)) as [->|Hne].
      - rewrite decide_True by by apply human_part_prefix. by rewrite Hd, from_to_base32, decide_True.
      - by rewrite decide_False by by rewrite human_part_prefix. }
    split; [|split; [|done]].
    + cbn [extended_to_cro]. by rewrite He.
    + rewrite Hall, decide_True by done. done.
  - split; [by apply redeem_from_to_string|]. unfold extended_from_cro. rewrite decide_False; [done|].
    unfold address_to_string. destruct m; discriminate.
  - intros s human data payload Hp Hd Hb Hl. by rewrite (wrong_payload_panics s m human data payload).
  - destruct (text_of m a) as (s & He & Hd). exists (get_bech32_human_part_from_network m ++ s). split; [|split].
    + unfold redeem_to_cro. by rewrite He.
    + intros n. unfold redeem_from_cro. rewrite Hd. destruct (decide (n = m)) as [->|Hne].
      * rewrite decide_False by naive_solver. rewrite from_to_base32. unfold redeem_try_from.
        by rewrite decide_False by naive_solver.
      * rewrite decide_True; [done|]. intros E. by apply Hne, human_part_inj.
    + rewrite (wrong_payload_panics _ m (get_bech32_human_part_from_network m) (to_base32 a) a); try done.
      * by apply human_part_prefix.
      * apply from_to_base32.
      * by rewrite Ha.
Qed.
End theorems.

(** ** A development chain *)

Module AddressExample.
#[local] Existing Instance Ref.hex.
#[local] Existing Instance Ref.bech32.

Definition dev_id : str := bstr "dev-chain-y3m1e6-ab".
Definition chosen : option ChosenNetwork := init_chain_id not_chosen dev_id.
Definition chosen_again : bool :=
  match chosen with Some c => bool_decide (is_Some (init_chain_id c dev_id)) | None => false end.
Lemma chosen_again_true : chosen_again = true.
Proof. vm_cast_no_check (@eq_refl bool true). Qed.

Lemma address_texts_witness : ∃ c s,
  init_chain_id not_chosen dev_id = Some c
  ∧ redeem_from_str (address_to_string (BasicRedeem (replicate 20 Byte.x07))) = Ok (replicate 20 Byte.x07)
  ∧ redeem_to_cro (replicate 20 Byte.x07) Devnet = Some (Ok s) ∧ extended_from_str c s = None.
Proof.
  pose proof chosen_again_true as Hb. unfold chosen_again, chosen in Hb.
  destruct (init_chain_id not_chosen dev_id) as [c1|] eqn:E1; [|discriminate Hb].
  apply bool_decide_eq_true in Hb as [c2 E2].
  destruct (address_texts not_chosen c1 c2 dev_id dev_id (replicate 32 Byte.x01) (replicate 20 Byte.x07)
    eq_refl eq_refl E1 E2 eq_refl eq_refl) as (_ & [Hx _] & _ & s & Hs & _ & Hp).
  destruct (init_chain_id_once not_chosen c1 c2 dev_id dev_id eq_refl eq_refl E1 E2) as [-> Hn].
  exists c1, s. split; [reflexivity|]. split; [exact Hx|]. rewrite Hn in Hs. split; [exact Hs | exact Hp].
Defined.
End AddressExample.
