(* ===== verification/Syncer.v ===== *)
(** * Syncer: following the chain

    [client-core]: the synchronisation state of [service/sync_state_service.rs] and
    [wallet/syncer.rs], which fetches the blocks of the node in chunks, checks them,
    filters them for the wallet and hands them to the logic of [WalletSync].  Progress
    reports are not modelled.

    The theorems: when the node serves its blocks and the enclave decrypts, the stored
    state of the wallet ends as the one of the chain; but a block with bytes that do not
    decode stops the synchronisation, a deposit to somebody else's account is not seen,
    and a transfer that the chain refused is taken for a payment. *)

From stdpp Require Import base tactics option list list_numbers gmap strings.
From Stdlib Require Import ZArith Lia.
From S2P Require Import Prelude Text Codec Coin Crypto Merkle Params Account TxTypes Validation BitVec Events Filter.
From S2P Require Import Genesis AppState DeliverTx EndBlock Client WalletSync ClientStorage Services WalletStore Rpc.

(** [Itertools::chunks]. *)
Fixpoint chunks_fuel {A} (fuel n : nat) (l : list A) : list (list A) :=
  match fuel, l with
  | S fuel, _ :: _ => take n l :: chunks_fuel fuel n (drop n l)
  | _, _ => []
  end.
Definition chunks {A} (n : nat) (l : list A) : list (list A) := chunks_fuel (length l) n l.

Section syncer.
Context `{OsRng, Hashes, Aead, Scale, Hex, BitVecLib, ClientKeys, TimeLib, TendermintLib, Base64}.
Context {S : Type} `{!Store S}.

(** ** The synchronisation state *)

Record SyncState := {
  sync_block_height : Z;
  sync_app_hash : str;
  trusted_state : TrustedState;
}.

Definition sync_genesis (genesis_validators : list ValidatorInfo) : SyncState :=
  {| sync_block_height := 0; sync_app_hash := []; trusted_state := trusted_genesis genesis_validators |}.

Definition sync_state_codec : codec SyncState :=
  Codec (λ s, enc u64_codec (sync_block_height s) ++ enc string_codec (sync_app_hash s)
              ++ enc trusted_state_codec (trusted_state s))
    (h ⇐ dec u64_codec; a ⇐ dec string_codec; t ⇐ dec trusted_state_codec;
     dret {| sync_block_height := h; sync_app_hash := a; trusted_state := t |}).

Definition SYNC_KEYSPACE : list byte := bstr "core_wallet_sync".

Definition load_sync_state (name : str) : io S (option SyncState) := store_load sync_state_codec SYNC_KEYSPACE name.
Definition save_sync_state (name : str) (state : SyncState) : io S unit :=
  store_save sync_state_codec SYNC_KEYSPACE name state.
Definition delete_sync_state (name : str) : io S unit := _ ← store_delete SYNC_KEYSPACE name; mret tt.

Definition save_global_state (name : str) (state : SyncState) : io S unit :=
  _ ← store_set SYNC_KEYSPACE name (enc sync_state_codec state); mret tt.
Definition delete_global_state (name : str) : io S unit := _ ← store_delete SYNC_KEYSPACE name; mret tt.
Definition sync_clear : io S unit := store_clear SYNC_KEYSPACE.
Definition get_global_state (name : str) : io S (option SyncState) :=
  o ← store_get SYNC_KEYSPACE name;
  match o with
  | Some bytes => s ← pure_res (chain_none Kind.DeserializationError (decode sync_state_codec bytes)); mret (Some s)
  | None => mret None
  end.

(** ** Blocks for a wallet *)

(** All deposits and unbondings of a block that names one of the wallet's accounts. *)
Fixpoint filter_staking_transactions (block_results : BlockResults) (staking_addresses : list StakedStateAddress)
    (block : Block) : result ErrorKind (list Transaction) :=
  match staking_addresses with
  | [] => Ok []
  | staking_address :: staking_addresses =>
      found ← contains_account block_results staking_address;
      if found : bool then block_staking_transactions block
      else filter_staking_transactions block_results staking_addresses block
  end.

Definition from_block (wallet : Wallet) (block : Block) (block_result : BlockResults) :
  run ErrorKind FilteredBlock :=
  app_hash ?← Some (chain_none Kind.TendermintRpcError (header_app_hash (header block)));
  valid_transaction_ids ?← Some (transaction_ids block_result);
  block_filter ?← block_filter block_result;
  staking_transactions ?← Some (filter_staking_transactions block_result (wallet_staking_addresses wallet) block);
  ours ← check_view_key block_filter (wallet_view_key wallet);
  enclave_transaction_ids ?← Some (if ours : bool then block_enclave_transaction_ids block else Ok []);
  Some (Ok {| fb_height := header_height (header block); fb_app_hash := hash_to_string app_hash;
              fb_time := header_time (header block); valid_transaction_ids := valid_transaction_ids;
              fb_block_filter := block_filter; enclave_transaction_ids := enclave_transaction_ids;
              staking_transactions := staking_transactions |}).

(** ** The syncer of a wallet *)

Record WalletSyncer := {
  env_client : Client;
  enable_fast_forward : bool;
  batch_size : nat;
  decrypt_tx : list TxId → result ErrorKind (list Transaction);
  env_name : str;
  env_passphrase : str;
}.

Definition reset_state (self : WalletSyncer) : io S unit :=
  _ ← delete_sync_state (env_name self);
  delete_wallet_state (env_name self).

Definition load_view_key (name passphrase : str) : io S PrivateKey :=
  o ← load_wallet name passphrase;
  wallet ← pure_res (chain_none Kind.InvalidInput o);
  key ← get_private_key (wallet_view_key wallet) passphrase;
  pure_res (chain_none Kind.InvalidInput key).

(** What is kept in memory while blocks are handled. *)
Record WalletSyncerImpl := {
  impl_wallet : Wallet;
  impl_sync_state : SyncState;
  impl_wallet_state : WalletState;
}.

Context (env : WalletSyncer).

Definition syncer_new : io S WalletSyncerImpl :=
  o ← load_wallet (env_name env) (env_passphrase env);
  wallet ← pure_res (chain_none Kind.InvalidInput o);
  sync_state ← load_sync_state (env_name env);
  sync_state ← match sync_state with
               | Some sync_state => mret sync_state
               | None =>
                   validators ← pure_res (client_genesis_validators (env_client env));
                   mret (sync_genesis validators)
               end;
  wallet_state ← load_wallet_state (env_name env) (env_passphrase env);
  mret {| impl_wallet := wallet; impl_sync_state := sync_state;
          impl_wallet_state := default wallet_state_default wallet_state |}.

Definition set_sync_state (self : WalletSyncerImpl) (s : SyncState) : WalletSyncerImpl :=
  {| impl_wallet := impl_wallet self; impl_sync_state := s; impl_wallet_state := impl_wallet_state self |}.

Definition save (self : WalletSyncerImpl) (memento : list MementoOperation) : io S WalletSyncerImpl :=
  _ ← save_sync_state (env_name env) (impl_sync_state self);
  state ← modify_wallet_state (env_name env) (env_passphrase env) (λ state, apply_memento state memento);
  mret {| impl_wallet := impl_wallet self; impl_sync_state := impl_sync_state self; impl_wallet_state := state |}.

(** Blocks [blocks ++ \[block\]], of which there is at least one. *)
Definition handle_batch (self : WalletSyncerImpl) (blocks : list FilteredBlock) (block : FilteredBlock) :
  io S WalletSyncerImpl :=
  let blocks := blocks ++ [block] in
  let enclave_txids := blocks ≫= enclave_transaction_ids in
  enclave_txs ← pure_res (decrypt_tx env enclave_txids);
  memento ← pure_run (match handle_blocks (impl_wallet self) (impl_wallet_state self) blocks enclave_txs with
                      | Some r => Some (chain_err Kind.InvalidInput r)
                      | None => None
                      end);
  let sync_state := {| sync_block_height := fb_height block; sync_app_hash := fb_app_hash block;
                       trusted_state := trusted_state (impl_sync_state self) |} in
  save (set_sync_state self sync_state) memento.

(** [fast_forward_status] and [fast_forward_block]. *)
Definition fast_forward_status (self : WalletSyncerImpl) (status : Status) : run ErrorKind (option FilteredBlock) :=
  current_app_hash ?← Some (chain_none Kind.TendermintRpcError (latest_app_hash status));
  if decide (hash_to_string current_app_hash = sync_app_hash (impl_sync_state self)) then
    let current_block_height := latest_block_height status in
    block ?← Some (client_block (env_client env) current_block_height);
    block_result ?← Some (client_block_results (env_client env) current_block_height);
    block ?← from_block (impl_wallet self) block block_result;
    Some (Ok (Some block))
  else Some (Ok None).

Definition fast_forward_block (self : WalletSyncerImpl) (block : Block) : run ErrorKind (option FilteredBlock) :=
  current_app_hash ?← Some (chain_none Kind.TendermintRpcError (header_app_hash (header block)));
  if decide (hash_to_string current_app_hash = sync_app_hash (impl_sync_state self)) then
    block_result ?← Some (client_block_results (env_client env) (header_height (header block)));
    block ?← from_block (impl_wallet self) block block_result;
    Some (Ok (Some block))
  else Some (Ok None).

(** The check that a block's header has the application hash of the state before it. *)
Definition check_app_hash (app_hash : option H256) (block : Block) : result ErrorKind () :=
  match app_hash with
  | None => Ok ()
  | Some app_hash =>
      header_app_hash ← chain_none Kind.VerifyError (header_app_hash (header block));
      if decide (app_hash ≠ header_app_hash) then Err Kind.VerifyError else Ok ()
  end.

(** The loop over a chunk: the filtered blocks, or [None] when the rest was fast forwarded. *)
Fixpoint sync_blocks (self : WalletSyncerImpl) (status : Status) (l : list (Block * BlockResults * ChainState))
    (app_hash : option H256) (batch : list FilteredBlock) : io S (option (list FilteredBlock)) :=
  match l with
  | [] => mret (Some batch)
  | (block, block_result, state) :: l =>
      _ ← pure_res (check_app_hash app_hash block);
      ids ← pure_res (chain_err Kind.VerifyError (transaction_ids block_result));
      app_hash ← pure_run (Ok <$> chain_state_app_hash state ids);
      forward ← (if enable_fast_forward env then pure_run (fast_forward_status self status) else mret None);
      match forward with
      | Some block => _ ← handle_batch self batch block; mret None
      | None =>
          block ← pure_run (from_block (impl_wallet self) block block_result);
          sync_blocks self status l (Some app_hash) (batch ++ [block])
      end
  end.

Fixpoint sync_chunks (self : WalletSyncerImpl) (status : Status) (l : list (list Z)) : io S unit :=
  match l with
  | [] => mret tt
  | range :: l =>
      forward ← (if enable_fast_forward env then pure_run (fast_forward_status self status) else mret None);
      match forward with
      | Some block => _ ← handle_batch self [] block; mret tt
      | None =>
          last_height ← pure_run (Ok <$> last range);
          block ← pure_res (client_block (env_client env) last_height);
          forward ← (if enable_fast_forward env then pure_run (fast_forward_block self block) else mret None);
          match forward with
          | Some block => self ← handle_batch self [] block; sync_chunks self status l
          | None =>
              '(blocks, trusted) ← pure_res (client_block_batch_verified (env_client env)
                                               (trusted_state (impl_sync_state self)) range);
              let self := set_sync_state self
                {| sync_block_height := sync_block_height (impl_sync_state self);
                   sync_app_hash := sync_app_hash (impl_sync_state self); trusted_state := trusted |} in
              block_results ← pure_res (client_block_results_batch (env_client env) range);
              states ← pure_res (client_query_state_batch (env_client env) range);
              batch ← sync_blocks self status (zip (zip blocks block_results) states) None [];
              match batch with
              | None => mret tt
              | Some batch =>
                  match last batch with
                  | Some block => self ← handle_batch self (removelast batch) block; sync_chunks self status l
                  | None => sync_chunks self status l
                  end
              end
          end
      end
  end.

(** The heights that are not synchronised yet, in chunks; chunks of no blocks are a panic. *)
Definition sync_impl (self : WalletSyncerImpl) : io S unit :=
  status ← pure_res (client_status (env_client env));
  let current_block_height := latest_block_height status in
  let first := as_u64 (sync_block_height (impl_sync_state self) + 1) in
  if decide (batch_size env = 0%nat) then panic
  else sync_chunks self status (chunks (batch_size env) (seqZ first (current_block_height - first + 1))).

Definition sync : io S unit :=
  self ← syncer_new; sync_impl self.
End syncer.

(** ** Chunks of heights *)

Lemma seqZ_take_drop (n : nat) a k :
  (0 < n)%nat → 0 < k →
  ∃ j, 0 < j ≤ k ∧ take n (seqZ a k) = seqZ a j ∧ drop n (seqZ a k) = seqZ (a + j) (k - j).
Proof.
  intros Hn Hk. destruct (decide (Z.of_nat n ≤ k)) as [Hle|Hgt].
  - exists (Z.of_nat n). split; [lia|]. replace k with (Z.of_nat n + (k - Z.of_nat n)) at 1 2 by lia.
    rewrite seqZ_app by lia. rewrite take_app_length', drop_app_length' by (rewrite length_seqZ; lia). done.
  - exists k. split; [lia|]. rewrite take_ge, drop_ge by (rewrite length_seqZ; lia). split; [done|].
    by replace (k - k) with 0 by lia.
Qed.

Lemma chunks_fuel_seqZ fuel n a k :
  (0 < n)%nat → (Z.to_nat k ≤ fuel)%nat →
  concat (chunks_fuel fuel n (seqZ a k)) = seqZ a k
  ∧ Forall (λ r, ∃ b j, 0 < j ∧ r = seqZ b j ∧ a ≤ b ∧ b + j ≤ a + k) (chunks_fuel fuel n (seqZ a k)).
Proof.
  intros Hn. revert a k. induction fuel as [|fuel IH]; intros a k Hf.
  { rewrite seqZ_nil by lia. by split. }
  destruct (decide (0 < k)) as [Hk|Hk]; [|rewrite seqZ_nil by lia; by split].
  rewrite (seqZ_cons a k) by done. cbn [chunks_fuel]. rewrite <- (seqZ_cons a k) by done.
  destruct (seqZ_take_drop n a k Hn Hk) as (j & Hj & -> & ->).
  destruct (IH (a + j) (k - j)) as [Hc Hall]; [lia|]. cbn [concat]. rewrite Hc. split.
  - rewrite <- seqZ_app by lia. f_equal. lia.
  - constructor; [exists a, j; split_and!; (done || lia)|]. eapply Forall_impl; [exact Hall|].
    intros r (b & i & ? & ? & ? & ?). exists b, i. split_and!; (done || lia).
Qed.

Lemma chunks_seqZ n a k :
  (0 < n)%nat →
  concat (chunks n (seqZ a k)) = seqZ a k
  ∧ Forall (λ r, ∃ b j, 0 < j ∧ r = seqZ b j ∧ a ≤ b ∧ b + j ≤ a + k) (chunks n (seqZ a k)).
Proof. intros Hn. apply chunks_fuel_seqZ; [done|]. rewrite length_seqZ. lia. Qed.

Lemma chunks_first n a k :
  (0 < n)%nat → 0 < k → ∃ j l, 0 < j ≤ k ∧ chunks n (seqZ a k) = seqZ a j :: l.
Proof.
  intros Hn Hk. destruct (seqZ_take_drop n a k Hn Hk) as (j & Hj & Ht & Hd). exists j.
  unfold chunks. rewrite length_seqZ. replace (Z.to_nat k) with (Datatypes.S (Z.to_nat (k - 1))) by lia.
  rewrite (seqZ_cons a k) by done. cbn [chunks_fuel]. rewrite <- (seqZ_cons a k) by done. rewrite Ht. by eexists.
Qed.

(** ** The synchronisation state round-trips *)

Section sync_state.
Context `{Scale, TendermintLib, !ScaleLaws}.

Definition trusted_ok (t : TrustedState) : Prop := string_ok (trusted_to_json (lite_header t, lite_validators t)).
Definition sync_state_ok (s : SyncState) : Prop :=
  is_u64 (sync_block_height s) ∧ string_ok (sync_app_hash s) ∧ trusted_ok (trusted_state s).

Lemma sync_state_codec_ok : codec_ok sync_state_ok sync_state_codec.
Proof.
  intros [h a [lh vs]] rest (Hh & Ha & Ht).
  cbn [enc dec sync_state_codec trusted_state_codec sync_block_height sync_app_hash trusted_state lite_header lite_validators] in *.
  rewrite <- !app_assoc. dec_step. rewrite (dbind_ok _ _ _ _ _ string_codec_ok) by done.
  unfold dbind at 1 2. rewrite (string_codec_ok _ _ Ht), trusted_from_to. done.
Qed.
End sync_state.

(** ** Following a chain *)

Section honest.
Context `{OsRng, Hashes, Aead, Scale, Hex, BitVecLib, ClientKeys, TimeLib, TendermintLib, Base64}.
Context {S : Type} `{!Store S, !AeadLaws, !StoreLaws S, !ScaleLaws}.

(** What the node has at a height, and what the wallet makes of it. *)
Context (blk : Z → Block) (res : Z → BlockResults) (st : Z → ChainState) (fb : Z → FilteredBlock).
Context (known : gmap TxId Transaction).

(** A node that serves the heights from [lo] to [hi], and whose headers have the hashes of
    its states. *)
Record serves (client : Client) (lo hi : Z) : Prop := {
  serves_status : ∃ status, client_status client = Ok status ∧ latest_block_height status = hi;
  serves_block h : lo ≤ h ≤ hi → client_block client h = Ok (blk h);
  serves_verified t hs : Forall (λ h, lo ≤ h ≤ hi) hs →
    ∃ t', client_block_batch_verified client t hs = Ok (blk <$> hs, t') ∧ trusted_ok t';
  serves_results hs : Forall (λ h, lo ≤ h ≤ hi) hs → client_block_results_batch client hs = Ok (res <$> hs);
  serves_states hs : Forall (λ h, lo ≤ h ≤ hi) hs → client_query_state_batch client hs = Ok (st <$> hs);
  serves_hash h : lo ≤ h ≤ hi → ∃ ids hash, transaction_ids (res h) = Ok ids
    ∧ chain_state_app_hash (st h) ids = Some hash
    ∧ (h < hi → header_app_hash (header (blk (h + 1))) = Some hash);
}.

Context (env : WalletSyncer) (wallet : Wallet) (lo hi : Z).
Hypothesis heights : 0 < lo ≤ hi + 1 ∧ hi < U64_MAX.
Hypothesis no_forward : enable_fast_forward env = false.
Hypothesis served : serves (env_client env) lo hi.
(** Every block can be filtered for the wallet. *)
Hypothesis filtered : ∀ h, lo ≤ h ≤ hi →
  from_block wallet (blk h) (res h) = Some (Ok (fb h)) ∧ fb_height (fb h) = h ∧ string_ok (fb_app_hash (fb h)).
(** The transactions that the wallet may view. *)
Hypothesis known_id : ∀ i tx, known !! i = Some tx → client_transaction_id tx = i.

(** The enclave decrypts what the wallet may view of some blocks. *)
Definition decrypts (blocks : list FilteredBlock) : Prop :=
  decrypt_tx env (blocks ≫= enclave_transaction_ids) = Ok (omap (λ i, known !! i) (blocks ≫= enclave_transaction_ids)).

Lemma seqZ_succ a (n : nat) : seqZ a (Z.of_nat (Datatypes.S n)) = a :: seqZ (a + 1) (Z.of_nat n).
Proof. rewrite seqZ_cons by lia. f_equal. f_equal; lia. Qed.

Lemma sync_blocks_honest (self : WalletSyncerImpl) status (n : nat) a app_hash batch (w : World S) :
  impl_wallet self = wallet → lo ≤ a → a + Z.of_nat n ≤ hi + 1 →
  (∀ h, app_hash = Some h → (0 < n)%nat → header_app_hash (header (blk a)) = Some h) →
  let hs := seqZ a (Z.of_nat n) in
  sync_blocks env self status (zip (zip (blk <$> hs) (res <$> hs)) (st <$> hs)) app_hash batch w
  = Some (Ok (Some (batch ++ (fb <$> hs))), w).
Proof.
  intros Hw. revert a app_hash batch. induction n as [|n IH]; intros a app_hash batch Ha Hn Hh hs; subst hs.
  { cbn. by rewrite app_nil_r. }
  rewrite seqZ_succ, !fmap_cons. cbn [zip zip_with sync_blocks].
  destruct (serves_hash _ _ _ served a ltac:(lia)) as (ids & hash & Hids & Hst & Hnext).
  destruct (filtered a ltac:(lia)) as [Hfb _].
  assert (check_app_hash app_hash (blk a) = Ok ()) as Hc.
  { unfold check_app_hash. destruct app_hash as [h|]; [|done]. rewrite (Hh h eq_refl ltac:(lia)).
    cbn [chain_none mbind result_bind]. by rewrite decide_False by tauto. }
  unfold mbind, sem_bind, pure_res, pure_run. rewrite Hc, Hids. cbn [chain_err]. rewrite Hst. cbn [fmap option_fmap option_map].
  rewrite no_forward. cbn [mret sem_ret]. rewrite Hw, Hfb.
  rewrite <- Hw in *. rewrite IH; [by rewrite <- app_assoc | lia | lia |]. intros h [= <-] Hn0. apply Hnext. lia.
Qed.

Lemma by_id_known ids i : i ∈ ids → by_id (omap (λ i, known !! i) ids) !! i = known !! i.
Proof.
  intros Hi. unfold by_id. destruct (known !! i) as [tx|] eqn:E.
  - apply elem_of_list_to_map_1'.
    + intros tx' Hin. rewrite elem_of_reverse in Hin. apply list_elem_of_fmap in Hin as (tx'' & [= Ei ->] & Hin).
      apply list_elem_of_omap in Hin as (j & _ & Ej). rewrite (known_id _ _ Ej) in Ei. congruence.
    + rewrite elem_of_reverse. apply list_elem_of_fmap. exists tx. rewrite (known_id _ _ E). split; [done|].
      apply list_elem_of_omap. by exists i.
  - apply not_elem_of_list_to_map_1. intros Hin. apply list_elem_of_fmap in Hin as ([j tx] & -> & Hin).
    rewrite elem_of_reverse in Hin. apply list_elem_of_fmap in Hin as (tx' & [= -> ->] & Hin).
    apply list_elem_of_omap in Hin as (j & _ & Ej). rewrite (known_id _ _ Ej) in E. cbn in E. congruence.
Qed.

Lemma block_transactions_known ids (b : FilteredBlock) :
  enclave_transaction_ids b ⊆ ids →
  block_transactions (by_id (omap (λ i, known !! i) ids)) b = block_transactions known b.
Proof.
  intros Hids. unfold block_transactions. f_equal. revert Hids. generalize (enclave_transaction_ids b) as l.
  induction l as [|i l IH]; intros Hl; [done|]. cbn [omap list_omap]. rewrite by_id_known by set_solver.
  rewrite IH by set_solver. done.
Qed.

Lemma batch_known (blocks : list FilteredBlock) :
  blocks ≫= block_transactions (by_id (omap (λ i, known !! i) (blocks ≫= enclave_transaction_ids)))
  = blocks ≫= block_transactions known.
Proof.
  assert (Hb : ∀ ids l, (l ≫= enclave_transaction_ids) ⊆ ids →
    l ≫= block_transactions (by_id (omap (λ i, known !! i) ids)) = l ≫= block_transactions known).
  { intros ids l. induction l as [|b l IH]; intros Hl; [done|]. cbn [mbind list_bind] in *.
    rewrite block_transactions_known by set_solver. by rewrite IH by set_solver. }
  by apply Hb.
Qed.

(** The storage has the wallet and its state, and the height it was recorded at. *)
Definition recorded (d : S) (s : WalletState) : Prop :=
  state_at d (env_passphrase env) (env_name env) s
  ∧ ∃ bytes, reads d WALLET_KEYSPACE (env_name env) (env_passphrase env) (Some bytes)
      ∧ decode wallet_codec bytes = Some wallet.
Definition recorded_height (d : S) (h : Z) : Prop := ∃ ss, sync_block_height ss = h ∧ sync_state_ok ss
  ∧ store_view d SYNC_KEYSPACE !! env_name env = Some (enc sync_state_codec ss).

Lemma save_honest (self : WalletSyncerImpl) memento s s' (w : World S) :
  recorded (disk w) s → apply_memento s memento = Ok s' → storable s' → sync_state_ok (impl_sync_state self) →
  ∃ w', save env self memento w = Some (Ok {| impl_wallet := impl_wallet self; impl_sync_state := impl_sync_state self;
                                              impl_wallet_state := s' |}, w')
    ∧ recorded (disk w') s' ∧ recorded_height (disk w') (sync_block_height (impl_sync_state self)).
Proof.
  intros (Hr & bytes & Hb & Hd') Hm Hst Hok. unfold save, save_sync_state, store_save.
  destruct (set_law SYNC_KEYSPACE (env_name env) (enc sync_state_codec (impl_sync_state self)) w) as (d & Es & Hd & Ho).
  assert (Hr' : state_at d (env_passphrase env) (env_name env) s) by (unfold state_at, reads in *; by rewrite Ho by done).
  assert (Hb' : reads d WALLET_KEYSPACE (env_name env) (env_passphrase env) (Some bytes))
    by (unfold reads in *; by rewrite Ho by done).
  destruct (modify_state_at (env_name env) (env_passphrase env) (λ state, apply_memento state memento) s s'
    (MkWorld d (entropy w)) Hr' Hm Hst) as (w' & Em & Hw & Hsame).
  exists w'. split; [|split].
  - unfold mbind, sem_bind. rewrite Es. cbn [mret sem_ret]. by rewrite Em.
  - split; [left; split; [done | apply Hst]|]. exists bytes. split; [|done].
    by apply (reads_same_but _ _ _ _ _ _ _ _ Hsame).
  - exists (impl_sync_state self). split; [done|]. split; [done|]. rewrite Hsame by by intros [= E _]. cbn [disk]. rewrite Hd.
    by rewrite lookup_insert_eq.
Qed.

(** The state that a batch leads to, as the syncer computes it. *)
Definition batch_state (s : WalletState) (blocks : list FilteredBlock) : option WalletState :=
  match handle_blocks wallet s blocks (omap (λ i, known !! i) (blocks ≫= enclave_transaction_ids)) with
  | Some (Ok memento) => match apply_memento s memento with Ok s' => Some s' | Err _ => None end
  | _ => None
  end.

Lemma handle_batch_honest (self : WalletSyncerImpl) blocks block txs s (w : World S)
    (batch := (blocks ++ [block]) ≫= block_transactions known) :
  trusted_ok (trusted_state (impl_sync_state self)) → is_u64 (fb_height block) → string_ok (fb_app_hash block) →
  impl_wallet self = wallet → impl_wallet_state self = s → recorded (disk w) s → refines wallet txs s →
  valid_chain (txs ++ batch) → batch_ok wallet txs batch → decrypts (blocks ++ [block]) →
  (∀ s', batch_state s (blocks ++ [block]) = Some s' → storable s') →
  ∃ self' w', handle_batch env self blocks block w = Some (Ok self', w')
    ∧ batch_state s (blocks ++ [block]) = Some (impl_wallet_state self')
    ∧ impl_wallet self' = wallet ∧ recorded (disk w') (impl_wallet_state self')
    ∧ refines wallet (txs ++ batch) (impl_wallet_state self') ∧ recorded_height (disk w') (fb_height block).
Proof.
  intros Ht Hh64 Ha Hw Hs Hr Href Hv Hb Hdec Hst.
  destruct (handle_blocks_follows wallet s txs (blocks ++ [block])
    (by_id (omap (λ i, known !! i) ((blocks ++ [block]) ≫= enclave_transaction_ids))) [] []) as (m & s' & E & Hm & Hs');
    rewrite ?batch_known; try done. { exists [], s. by rewrite app_nil_r. }
  rewrite batch_known in Hs'. fold batch in Hs'. cbn [app] in Hs'.
  assert (Hbs : batch_state s (blocks ++ [block]) = Some s') by (unfold batch_state, handle_blocks; by rewrite E, Hm).
  unfold handle_batch, mbind at 1, sem_bind at 1, pure_res at 1. rewrite Hdec.
  unfold mbind at 1, sem_bind at 1, pure_run at 1. rewrite Hw, Hs. unfold handle_blocks. rewrite E. cbn [chain_err].
  edestruct (save_honest (set_sync_state self {| sync_block_height := fb_height block; sync_app_hash := fb_app_hash block;
    trusted_state := trusted_state (impl_sync_state self) |}) m s s' w Hr Hm) as (w' & -> & Hr' & Hh); [by eauto | done |].
  eexists _, w'. split; [done|]. by split_and!.
Qed.

(** The transactions of a range of heights, and what every chunk has to satisfy: its
    transactions suit the wallet and are decrypted, and the state after it can be stored. *)
Definition range_transactions (range : list Z) : list Transaction := range ≫= block_transactions known ∘ fb.
Fixpoint chunks_ok (txs : list Transaction) (s : WalletState) (l : list (list Z)) : Prop :=
  match l with
  | [] => True
  | range :: l =>
      batch_ok wallet txs (range_transactions range) ∧ decrypts (fb <$> range)
      ∧ ∀ s', batch_state s (fb <$> range) = Some s' →
          storable s' ∧ chunks_ok (txs ++ range_transactions range) s' l
  end.

Lemma range_transactions_fmap range : (fb <$> range) ≫= block_transactions known = range_transactions range.
Proof. unfold range_transactions. induction range as [|h range IH]; [done|]. cbn. by f_equal. Qed.

Lemma handle_chunk_honest (self : WalletSyncerImpl) range status txs s (w : World S) b j :
  range = seqZ b j → 0 < j → lo ≤ b → b + j ≤ hi + 1 →
  impl_wallet self = wallet → impl_wallet_state self = s → recorded (disk w) s → refines wallet txs s →
  valid_chain (txs ++ range_transactions range) → batch_ok wallet txs (range_transactions range) →
  decrypts (fb <$> range) → (∀ s', batch_state s (fb <$> range) = Some s' → storable s') →
  ∃ self' w', (∀ l, sync_chunks env self status (range :: l) w = sync_chunks env self' status l w')
    ∧ batch_state s (fb <$> range) = Some (impl_wallet_state self')
    ∧ impl_wallet self' = wallet ∧ recorded (disk w') (impl_wallet_state self')
    ∧ refines wallet (txs ++ range_transactions range) (impl_wallet_state self') ∧ recorded_height (disk w') (b + j - 1).
Proof.
  intros Hrange Hj Hlo Hhi Hw Hs Hr Href Hv Hb Hdec Hst.
  assert (Hin : Forall (λ h, lo ≤ h ≤ hi) range).
  { apply Forall_forall. intros h. rewrite Hrange, elem_of_seqZ. lia. }
  assert (Hsnoc : range = seqZ b (j - 1) ++ [b + j - 1]).
  { rewrite Hrange. replace j with ((j - 1) + 1) at 1 by lia. rewrite seqZ_app by lia. f_equal.
    rewrite seqZ_cons by lia. rewrite seqZ_nil by lia. f_equal. lia. }
  destruct (serves_verified _ _ _ served (trusted_state (impl_sync_state self)) range Hin) as (t' & Ev & Ht).
  set (self1 := set_sync_state self {| sync_block_height := sync_block_height (impl_sync_state self);
    sync_app_hash := sync_app_hash (impl_sync_state self); trusted_state := t' |}).
  assert (Hf : fb <$> range = (fb <$> seqZ b (j - 1)) ++ [fb (b + j - 1)]) by (rewrite Hsnoc; by rewrite fmap_app).
  rewrite <- range_transactions_fmap, Hf in Hv, Hb. rewrite Hf in Hst, Hdec.
  destruct (filtered (b + j - 1) ltac:(lia)) as (_ & Hheight & Happ).
  destruct (handle_batch_honest self1 _ _ txs s w Ht ltac:(rewrite Hheight; unfold is_u64, U64_MAX in *; lia) Happ Hw Hs Hr Href Hv Hb Hdec Hst)
    as (self' & w' & Eb & Hbs & Hw' & Hr' & Href' & Hh).
  exists self', w'. rewrite <- Hf in Hbs, Href'. rewrite range_transactions_fmap in Href'.
  rewrite Hheight in Hh.
  split; [|done]. intros l. cbn [sync_chunks]. rewrite no_forward.
  unfold mbind, sem_bind. cbn [mret sem_ret]. unfold pure_run at 1. rewrite Hsnoc at 1. rewrite last_snoc.
  cbn [fmap option_fmap option_map]. unfold pure_res.
  rewrite (serves_block _ _ _ served) by lia. rewrite Ev.
  rewrite (serves_results _ _ _ served _ Hin), (serves_states _ _ _ served _ Hin).
  pose proof (sync_blocks_honest self1 status (Z.to_nat j) b None [] w Hw Hlo) as Esb.
  rewrite Z2Nat.id in Esb by lia. cbn zeta in Esb. rewrite <- Hrange in Esb. fold self1. rewrite Esb by (done || lia).
  cbn [app]. rewrite Hf, last_snoc, removelast_last. by rewrite Eb.
Qed.

Lemma sync_chunks_honest l (self : WalletSyncerImpl) status txs (w : World S) :
  Forall (λ r, ∃ b j, 0 < j ∧ r = seqZ b j ∧ lo ≤ b ∧ b + j ≤ hi + 1) l →
  impl_wallet self = wallet → recorded (disk w) (impl_wallet_state self) → refines wallet txs (impl_wallet_state self) →
  valid_chain (txs ++ range_transactions (concat l)) → chunks_ok txs (impl_wallet_state self) l →
  ∃ s' w', sync_chunks env self status l w = Some (Ok tt, w')
    ∧ recorded (disk w') s' ∧ refines wallet (txs ++ range_transactions (concat l)) s'
    ∧ (l = [] → w' = w) ∧ ∀ h, last (concat l) = Some h → recorded_height (disk w') h.
Proof.
  intros Hl. revert self txs w. induction Hl as [|r l (b & j & Hj & -> & Hlo & Hhi) Hl IH]; intros self txs w Hw Hr Hs Hv Hc.
  { exists (impl_wallet_state self), w. cbn. rewrite app_nil_r. by split_and!. }
  destruct Hc as (Hb & Hdec & Hst). unfold range_transactions in Hv. cbn [concat] in Hv. rewrite bind_app, app_assoc in Hv.
  fold (range_transactions (seqZ b j)) (range_transactions (concat l)) in Hv.
  destruct (handle_chunk_honest self (seqZ b j) status txs (impl_wallet_state self) w b j) as
    (self' & w' & E & Hbs & Hw' & Hr' & Hs' & Hh); try done.
  { by eapply valid_chain_prefix. } { intros s' Es. by apply Hst. }
  destruct (IH self' (txs ++ range_transactions (seqZ b j)) w') as (s' & w'' & E' & Hr'' & Hs'' & Hnil & Hh'); try done.
  { by apply Hst. }
  exists s', w''. rewrite E, E'. cbn [concat]. unfold range_transactions. rewrite bind_app, app_assoc.
  split_and!; [done..|]. intros h Hlast. rewrite last_app in Hlast.
  destruct (last (concat l)) as [h'|] eqn:El.
  - injection Hlast as ->. by apply Hh'.
  - destruct Hl as [|r l (b' & j' & Hj' & -> & _) _].
    + rewrite Hnil by done. replace j with ((j - 1) + 1) in Hlast by lia. rewrite seqZ_app, last_app in Hlast by lia.
      rewrite seqZ_cons, seqZ_nil in Hlast by lia. injection Hlast as <-. by replace (b + (j - 1)) with (b + j - 1) by lia.
    + apply last_None in El. rewrite seqZ_cons in El by done. done.
Qed.

(** A wallet that has followed the chain up to a height; one that never did has followed the
    empty chain. *)
Definition followed (d : S) (txs : list Transaction) (s : WalletState) (h : Z) : Prop :=
  recorded d s ∧ refines wallet txs s
  ∧ (recorded_height d h ∨ h = 0 ∧ store_view d SYNC_KEYSPACE !! env_name env = None).

Lemma syncer_new_followed txs s validators (w : World S) :
  followed (disk w) txs s (lo - 1) → client_genesis_validators (env_client env) = Ok validators →
  ∃ ss, sync_block_height ss = lo - 1 ∧ syncer_new env w = Some (Ok {| impl_wallet := wallet; impl_sync_state := ss;
                                                    impl_wallet_state := s |}, w).
Proof.
  intros ((Hr & bytes & Hb & Hd) & _ & Hh) Hg.
  unfold syncer_new, load_wallet, load_secure, load_sync_state, store_load, mbind, sem_bind.
  rewrite (get_secure_reads _ _ _ _ _ Hb). unfold pure_res, decode_or_err. rewrite Hd. cbn [chain_none fmap option_fmap option_map].
  rewrite get_law. pose proof (get_wallet_state_at _ _ _ _ Hr) as Es. unfold get_wallet_state, mbind, sem_bind in Es.
  destruct Hh as [(ss & Hss & Hok & ->)|[Hlo ->]].
  - rewrite (decode_ok _ _ _ sync_state_codec_ok) by done.
    cbn [chain_none fmap option_fmap option_map mret sem_ret] in *. exists ss. split; [done|].
    destruct (load_wallet_state _ _ w) as [[[o|] w']|]; [|done..]. injection Es as <- <-. done.
  - cbn [chain_none mret sem_ret] in *. rewrite Hg. cbn [mret sem_ret]. exists (sync_genesis validators). split; [done|].
    destruct (load_wallet_state _ _ w) as [[[o|] w']|]; [|done..]. injection Es as <- <-. done.
Qed.


(** *** Bytes that do not decode *)

Lemma collect_txs_undecodable {A} (f : TxAux → option A) data raw :
  raw ∈ data → decode tx_aux_codec raw = None → ∃ e, collect_txs f data = Err e.
Proof.
  intros Hin Hd. induction data as [|x data IH]; [by apply not_elem_of_nil in Hin|]. cbn [collect_txs].
  apply elem_of_cons in Hin as [->|Hin].
  - unfold decode_block_tx. rewrite Hd. cbn. by eexists.
  - destruct (decode_block_tx x); cbn; [|by eexists]. destruct (IH Hin) as [e ->]. cbn. by eexists.
Qed.

Lemma from_block_undecodable (block : Block) r raw a f :
  raw ∈ block_data block → decode tx_aux_codec raw = None → block_filter r = Some (Ok f) →
  a ∈ (wallet_staking_addresses wallet : list _) → contains_account r a = Ok true →
  ∃ e, from_block wallet block r = Some (Err e).
Proof.
  intros Hin Hd Hf Ha Hc. unfold from_block. destruct (header_app_hash (header block)); cbn; [|by eexists].
  destruct (transaction_ids r); cbn; [|by eexists]. rewrite Hf. cbn.
  assert (∃ e, filter_staking_transactions r (wallet_staking_addresses wallet) block = Err e) as [e ->]; [|cbn; by eexists].
  destruct (collect_txs_undecodable staking_transaction _ _ Hin Hd) as [e He].
  induction (wallet_staking_addresses wallet) as [|a' addrs IH]; [by apply not_elem_of_nil in Ha|].
  cbn [filter_staking_transactions]. destruct (contains_account r a') as [[]|] eqn:E; cbn; [by exists e | | by eexists].
  apply elem_of_cons in Ha as [->|Ha]; [congruence | by apply IH].
Qed.

(** Bytes that are no transaction stop a wallet.  Whoever proposes a block can put any
    bytes into it, and the node only refuses them.  But when a block that names a staking
    address of the wallet has bytes that do not decode, every synchronisation, in chunks of
    any size, ends with an error before that block and stores nothing, as long as the
    node serves its chain; the wallet sees no block from there on. *)
Theorem undecodable_bytes_stop_sync txs s validators raw a f (w : World S) :
  batch_size env ≠ 0%nat → followed (disk w) txs s (lo - 1) → client_genesis_validators (env_client env) = Ok validators →
  lo ≤ hi → raw ∈ block_data (blk lo) → decode tx_aux_codec raw = None → block_filter (res lo) = Some (Ok f) →
  a ∈ (wallet_staking_addresses wallet : list _) → contains_account (res lo) a = Ok true →
  ∃ e, sync env w = Some (Err e, w).
Proof.
  intros Hn Hfo Hg Hle Hraw Hdec Hf Ha Hc. destruct (syncer_new_followed _ _ _ _ Hfo Hg) as (ss & Hss & Enew).
  destruct (serves_status _ _ _ served) as (status & Est & Hhi).
  destruct (from_block_undecodable (blk lo) (res lo) raw a f Hraw Hdec Hf Ha Hc) as [e He]. exists e.
  unfold sync, mbind, sem_bind. rewrite Enew. unfold sync_impl, mbind, sem_bind, pure_res. rewrite Est, Hhi.
  rewrite decide_False by done. cbn [impl_sync_state]. rewrite Hss.
  replace (as_u64 (lo - 1 + 1)) with lo by (unfold as_u64; rewrite Z.mod_small; unfold U64_MAX in *; lia).
  destruct (chunks_first (batch_size env) lo (hi - lo + 1)) as (j & l & Hj & ->); [lia..|].
  assert (Hin : Forall (λ h, lo ≤ h ≤ hi) (seqZ lo j)) by (apply Forall_forall; intros h; rewrite elem_of_seqZ; lia).
  destruct (serves_verified _ _ _ served (trusted_state ss) _ Hin) as (t' & Ev & _).
  cbn [sync_chunks]. rewrite no_forward. unfold mbind, sem_bind. cbn [mret sem_ret].
  destruct (last (seqZ lo j)) as [h|] eqn:Elast; [|apply last_None in Elast; by rewrite seqZ_cons in Elast by lia].
  unfold pure_run at 1. cbn [fmap option_fmap option_map]. unfold pure_res.
  rewrite (serves_block _ _ _ served h) by (apply (last_Some_elem_of (seqZ lo j)), elem_of_seqZ in Elast; lia).
  cbn [impl_sync_state]. rewrite Ev, (serves_results _ _ _ served _ Hin), (serves_states _ _ _ served _ Hin).
  destruct (serves_hash _ _ _ served lo ltac:(lia)) as (ids & hash & Hids & Hst & _).
  rewrite seqZ_cons by lia. cbn [fmap list_fmap zip zip_with sync_blocks check_app_hash].
  unfold mbind, sem_bind, pure_res, pure_run. rewrite Hids. cbn [chain_err]. rewrite Hst. cbn [fmap option_fmap option_map].
  rewrite no_forward. cbn [mret sem_ret impl_wallet set_sync_state]. by rewrite He.
Qed.
End honest.

(** ** Witnesses *)

Module Example.
Import SyncExample StorageExample RpcExample.

#[export] Instance tendermint_ref : TendermintLib.
Proof.
  refine {| ValidatorInfo := unit; ValidatorSet := unit; LiteHeader := Empty_set; validator_set_new _ := tt;
            trusted_to_json _ := bstr "{}"; trusted_from_json _ := Some (None, tt); hash_to_string := hex_encode |}.
  intros [[[]|] []]. reflexivity.
Defined.

(** A node with two blocks: a withdrawal to the wallet, and nothing. *)
Definition withdrawal_aux : TxAux :=
  EnclaveTx (WithdrawUnbondedStakeTx 2 (BasicRedeemSig (Byte.x05 : RecoverableSignature))
    {| key_from := 0; init_vector := replicate 12 Byte.x00; txpayload := [];
       txid := client_transaction_id withdrawal |}).
Definition staker_address : StakedStateAddress := BasicRedeem (redeem_address_from_pk (Byte.x05 : PublicKey)).
Definition answer : ResponseTx :=
  {| resp_code := 0; resp_events := [valid_tx_event 1 (Some (new_init_bonded 1 1 staker_address None)) withdrawal_aux] |}.
Definition for_wallet : list byte :=
  default [] (f ← add_view_key filter_default (Byte.x07 : PublicKey); get_raw f).
Definition chain_state : ChainState := chain_state_example.
Definition res (h : Z) : BlockResults := if h =? 1 then report [answer] [filter_event for_wallet] else report [] [].
Definition hash_after (h : Z) : H256 :=
  match transaction_ids (res h) with
  | Ok ids => default [] (chain_state_app_hash chain_state ids)
  | Err _ => []
  end.
Definition block_with (h : Z) (data : list (list byte)) : Block :=
  {| header := {| header_height := h; header_time := tt; header_app_hash := Some (hash_after (h - 1)) |};
     block_data := data |}.
Definition blk (h : Z) : Block := block_with h (if h =? 1 then [enc tx_aux_codec withdrawal_aux] else []).
Definition node (blk : Z → Block) : Client := {|
  client_genesis_validators := Ok [];
  client_status := Ok {| latest_block_height := 2; latest_app_hash := None; latest_block_time := tt |};
  client_block h := Ok (blk h);
  client_block_results h := Ok (res h);
  client_block_results_batch hs := Ok (res <$> hs);
  client_block_batch_verified t hs := Ok (blk <$> hs, t);
  client_broadcast_transaction _ := Ok tt;
  client_query _ _ := Err Kind.InvalidInput;
  client_query_state_batch hs := Ok ((λ _, chain_state) <$> hs);
|}.
Definition known : gmap TxId Transaction := {[ client_transaction_id withdrawal := withdrawal ]}.
Definition env (blk : Z → Block) : WalletSyncer := {|
  env_client := node blk; enable_fast_forward := false; batch_size := 2;
  decrypt_tx ids := Ok (omap (λ i, known !! i) ids); env_name := bstr "wallet"; env_passphrase := bstr "secret" |}.

Definition filtered_of (wallet : Wallet) (h : Z) : FilteredBlock :=
  match from_block wallet (blk h) (res h) with Some (Ok b) => b | _ => block_of [] end.
Definition stored (wallet : Wallet) : World (gmap (list byte) (gmap (list byte) (list byte))) :=
  match save_secure wallet_codec WALLET_KEYSPACE (bstr "wallet") (bstr "secret") wallet fresh with
  | Some (_, w) => w
  | None => fresh
  end.

Lemma heights_two h : 1 ≤ h ≤ 2 → h = 1 ∨ h = 2.
Proof. lia. Qed.

Lemma hashes_two :
  forallb (λ h, match transaction_ids (res h) with
                | Ok ids => bool_decide (is_Some (chain_state_app_hash chain_state ids))
                | Err _ => false
                end) [1; 2] = true.
Proof. vm_cast_no_check (@eq_refl bool true). Qed.

Lemma node_serves blk :
  (∀ h, ∃ data, blk h = block_with h data) → serves blk res (λ _, chain_state) (node blk) 1 2.
Proof.
  intros Hb. split.
  - eexists. split; reflexivity.
  - reflexivity.
  - intros t hs _. exists t. split; [reflexivity|]. split; [split; [vm_compute; discriminate | by repeat constructor] | reflexivity].
  - reflexivity.
  - reflexivity.
  - intros h Hh. pose proof hashes_two as Ht. rewrite forallb_forall in Ht.
    specialize (Ht h ltac:(cbn; lia)). destruct (transaction_ids (res h)) as [ids|] eqn:E; [|discriminate Ht].
    apply bool_decide_eq_true in Ht as [hash Hs]. exists ids, hash. split; [reflexivity|]. split; [exact Hs|].
    intros _. destruct (Hb (h + 1)) as [data ->]. unfold block_with, hash_after. cbn [header header_app_hash].
    replace (h + 1 - 1) with h by lia. by rewrite E, Hs.
Qed.

Lemma filters_two :
  forallb (λ h, match from_block wallet (blk h) (res h) with
                | Some (Ok b) => (fb_height b =? h) && (Z.of_nat (length (fb_app_hash b)) <=? U32_MAX)
                                 && utf8_valid (fb_app_hash b)
                | _ => false
                end) [1; 2] = true.
Proof. vm_cast_no_check (@eq_refl bool true). Qed.

Lemma filtered_two h : 1 ≤ h ≤ 2 →
  from_block wallet (blk h) (res h) = Some (Ok (filtered_of wallet h)) ∧ fb_height (filtered_of wallet h) = h
  ∧ string_ok (fb_app_hash (filtered_of wallet h)).
Proof.
  intros Hh. pose proof filters_two as Hf. rewrite forallb_forall in Hf. specialize (Hf h ltac:(cbn; lia)).
  unfold filtered_of. destruct (from_block wallet (blk h) (res h)) as [[b|e]|]; [|discriminate Hf..].
  apply andb_true_iff in Hf as [[Hb Hl]%andb_true_iff Hu]. split; [reflexivity|]. split; [by apply Z.eqb_eq|].
  split; [split; [by apply Z.leb_le | by apply Forall_true] | exact Hu].
Qed.

Lemma known_ids i tx : known !! i = Some tx → client_transaction_id tx = i.
Proof. unfold known. intros [<- <-]%lookup_singleton_Some. reflexivity. Qed.

(** The state that the withdrawal leads to. *)
Definition after : WalletState :=
  {| unspent_transactions := {[ txo_pointer_new (client_transaction_id withdrawal) 1 := tx_out_new (OrTree mine) 30 ]};
     transaction_history := {[ client_transaction_id withdrawal :=
       {| change_id := client_transaction_id withdrawal; change_inputs := [];
          change_outputs := transaction_outputs withdrawal; balance_change := Incoming 30;
          transaction_type := TypeWithdraw; change_height := 1; change_time := tt |} ]};
     balance := 30 |}.

Lemma after_reached : batch_state known wallet wallet_state_default (filtered_of wallet <$> [1; 2]) = Some after.
Proof. vm_cast_no_check (@eq_refl (option WalletState) (Some after)). Qed.

Lemma after_storable : storable after.
Proof.
  split; [|apply Z.leb_le; vm_cast_no_check (@eq_refl bool true)]. split; [|split].
  - split; [vm_compute; discriminate|]. apply map_Forall_singleton. split; [split; [reflexivity | vm_compute; split; discriminate]|].
    split; [reflexivity|]. split; [vm_compute; split; discriminate | exact I].
  - split; [vm_compute; discriminate|]. apply map_Forall_singleton. split; [reflexivity|]. split; [reflexivity|].
    split; [split; [vm_compute; discriminate | constructor]|]. split; [|split; vm_compute; split; discriminate].
    split; [vm_compute; discriminate|].
    repeat constructor; try (vm_compute; discriminate).
  - vm_compute. split; discriminate.
Qed.

(** A wallet with a staking key. *)
Definition staker : Wallet :=
  {| wallet_view_key := (Byte.x07 : PublicKey); wallet_public_keys := []; wallet_staking_keys := [(Byte.x05 : PublicKey)];
     root_hashes := [mine] |}.

Lemma stored_followed blk w :
  w = wallet ∨ w = staker → followed (env blk) w (disk (stored w)) [] wallet_state_default (1 - 1).
Proof.
  assert (∀ w, reads (disk (stored w)) WALLET_KEYSPACE (bstr "wallet") (bstr "secret") (Some (enc wallet_codec w))
    → decode wallet_codec (enc wallet_codec w) = Some w → reads (disk (stored w)) STATE_KEYSPACE (bstr "wallet") (bstr "secret") None
    → store_view (disk (stored w)) SYNC_KEYSPACE !! bstr "wallet" = None
    → followed (env blk) w (disk (stored w)) [] wallet_state_default (1 - 1)) as Hall.
  { intros x Hr Hd Hs Hn. split; [split|split].
    - right. split; [exact Hs | reflexivity].
    - exists (enc wallet_codec x). split; assumption.
    - split; [done.. | vm_compute; discriminate].
    - right. split; [reflexivity | exact Hn]. }
  intros [-> | ->]; apply Hall.
  - vm_cast_no_check (@eq_refl (run ErrorKind (option (list byte))) (Some (Ok (Some (enc wallet_codec wallet))))).
  - vm_cast_no_check (@eq_refl (option Wallet) (Some wallet)).
  - vm_cast_no_check (@eq_refl (run ErrorKind (option (list byte))) (Some (Ok None))).
  - vm_cast_no_check (@eq_refl (option (list byte)) None).
  - vm_cast_no_check (@eq_refl (run ErrorKind (option (list byte))) (Some (Ok (Some (enc wallet_codec staker))))).
  - vm_cast_no_check (@eq_refl (option Wallet) (Some staker)).
  - vm_cast_no_check (@eq_refl (run ErrorKind (option (list byte))) (Some (Ok None))).
  - vm_cast_no_check (@eq_refl (option (list byte)) None).
Qed.


(** The first block has empty bytes as well. *)
Definition bad_blk (h : Z) : Block :=
  block_with h (if h =? 1 then [enc tx_aux_codec withdrawal_aux; []] else []).

Lemma undecodable_bytes_stop_sync_witness : ∃ e, sync (env bad_blk) (stored staker) = Some (Err e, stored staker).
Proof.
  apply (undecodable_bytes_stop_sync bad_blk res (λ _, chain_state) (env bad_blk) staker 1 2
    ltac:(vm_compute; repeat split; discriminate) eq_refl (node_serves bad_blk (λ h, ex_intro _ _ eq_refl))
    [] wallet_state_default [] [] staker_address (filter_from for_wallet) (stored staker) ltac:(discriminate)
    (stored_followed bad_blk staker (or_intror eq_refl)) eq_refl ltac:(lia)).
  - unfold bad_blk, block_with. cbn [block_data Z.eqb Pos.eqb]. right. left.
  - vm_compute. reflexivity.
  - vm_cast_no_check (@eq_refl (run ErrorKind BlockFilter) (Some (Ok (filter_from for_wallet)))).
  - unfold wallet_staking_addresses. cbn. left.
  - vm_cast_no_check (@eq_refl (result ErrorKind bool) (Ok true)).
Defined.
End Example.
