(* ===== verification/Query.v ===== *)
(** * Query: what a node tells its clients

    [chain-abci/src/app/query.rs]: the answers to queries by path, from the committed
    state and the store.  The mock of the enclaves behind two of the paths is the one of a
    production build, which refuses ([enclave_bridge/mock.rs]).

    The theorems: after a commit, the node proves the inclusion of each transaction of the
    block with a path to the root of the tree that the application hash contains; and the
    answer about an account is the committed one. *)

From stdpp Require Import base tactics option list gmap strings.
From Stdlib Require Import ZArith Lia.
From S2P Require Import Prelude Text Codec Coin Crypto Merkle Params Account TxTypes Validation BitVec Genesis Storage.
From S2P Require Import EnclaveProtocol AppState DeliverTx TreeCodec NodeCodec Commit Rpc.

(** ** Messages of errors *)

(** [impl Display for Error]. *)
Definition error_to_string (self : Error) : str :=
  match self with
  | WrongChainHexId => bstr "chain hex ID does not match"
  | DuplicateInputs => bstr "duplicated inputs"
  | UnexpectedWitnesses => bstr "transaction has more witnesses than inputs"
  | MissingWitnesses => bstr "transaction has more inputs than witnesses"
  | NoInputs => bstr "transaction has no inputs"
  | NoOutputs => bstr "transaction has no outputs"
  | ZeroCoin => bstr "output with no credited value"
  | InvalidSum => bstr "input or output sum error (summation more than the total supply)"
  | InvalidInput => bstr "transaction spends an invalid input"
  | InputSpent => bstr "transaction spends an input that was already spent"
  | InputOutputDoNotMatch => bstr "transaction input output coin (plus fee) sums don't match"
  | OutputInTimelock => bstr "output transaction is in timelock"
  | EcdsaCrypto => bstr "cryptographic error (signature verification or public key recovery failed)"
  | IoError => bstr "database lookup error"
  | EnclaveRejected => bstr "enclave error or invalid TX"
  | AccountNotFound => bstr "account not found"
  | AccountNotUnbonded => bstr "account not unbonded for withdrawal"
  | AccountWithdrawOutputNotLocked => bstr "account withdrawal outputs not time-locked to unbonded_from"
  | AccountIncorrectNonce => bstr "incorrect transaction count for account operation"
  | MismatchAccountAddress => bstr "mismatch account address"
  | AccountJailed => bstr "account is jailed"
  | AccountNotJailed => bstr "account is not jailed"
  | NotEnoughStake => bstr "staked state bonded amount is less than the minimal required stake"
  | DuplicateValidator =>
      bstr "council node with the same staked state address or validator public key already added"
  end.

(** ** Requests and responses *)

Record RequestQuery := { req_path : str; req_data : list byte; req_height : Z; req_prove : bool }.
Record ProofOp := { op_type : str; op_key : list byte; op_data : list byte }.
Record ResponseQuery := {
  q_code : Z;
  q_log : str;
  q_value : list byte;
  q_proof : option (list ProofOp);
}.

Definition response_new : ResponseQuery := {| q_code := 0; q_log := []; q_value := []; q_proof := None |}.
Definition set_value (r : ResponseQuery) (v : list byte) : ResponseQuery :=
  {| q_code := q_code r; q_log := q_log r; q_value := v; q_proof := q_proof r |}.
Definition set_proof (r : ResponseQuery) (p : list ProofOp) : ResponseQuery :=
  {| q_code := q_code r; q_log := q_log r; q_value := q_value r; q_proof := Some p |}.
(** [resp.log += message; resp.code = code]. *)
Definition failed (r : ResponseQuery) (code : Z) (message : str) : ResponseQuery :=
  {| q_code := code; q_log := q_log r ++ message; q_value := q_value r; q_proof := q_proof r |}.

Record CouncilNodeMetadata := {
  meta_name : str;
  meta_voting_power : TendermintVotePower;
  meta_staking_address : StakedStateAddress;
  meta_security_contact : option str;
  meta_tendermint_pubkey : TendermintValidatorPubKey;
}.

(** [serde_json] on the state and on the council nodes; a state can be read back. *)
Class QueryJson := {
  state_to_json : ChainState → str;
  state_from_json : list byte → option ChainState;
  state_from_to s : chain_state_ok s → state_from_json (state_to_json s) = Some s;
  council_to_json : list CouncilNodeMetadata → str;
}.

Definition TXID_HASH_ID : list byte := bstr "blake2s".

Section query.
Context `{Hashes, Secp256k1, Scale, BitVecLib, KeyValueDB, StarlingTree, VarInt, QueryJson, !EnclaveProxy}.

(** The encoding of a proof for a value of [n] bytes. *)
Definition merkle_proof_codec (n : nat) : codec Proof_ :=
  Codec (λ p, enc path_codec (path p) ++ enc (array_codec n) (value p))
    (p ⇐ dec path_codec; v ⇐ dec (array_codec n); dret (MkProof p v)).

Definition get_witness_proof_op (witness : list byte) : ProofOp :=
  {| op_type := bstr "witness"; op_key := TXID_HASH_ID; op_data := txid_hash witness |}.

Definition into_proof_op (root : H256) (proof : Proof_) : ProofOp :=
  {| op_type := bstr "transaction"; op_key := root; op_data := enc (merkle_proof_codec 32) proof |}.

(** The build without the feature [mock-enc-dec]. *)
Definition handle_enc_dec (resp : ResponseQuery) : ResponseQuery :=
  failed resp 1 (bstr "received a temporary *mock* (non-enclave) encryption/decryption query in abci (use the dedicated enclaves instead)").

Definition query_lookup (self : ChainNodeApp) (resp : ResponseQuery) (column : Z) (key : list byte) (log_message : str) :
  ResponseQuery :=
  match db_get (storage self) column key with
  | Ok (Some uv) => set_value resp uv
  | _ => failed resp 1 log_message
  end.

Definition try_from_address (c : list byte) : result ErrorAddress StakedStateAddress :=
  addr ← redeem_try_from c; Ok (BasicRedeem addr).

(** The proof of a transaction, from the tree of a height; a missing height or tree, or an
    identifier of the wrong length, panics. *)
Definition store_proof (self : ChainNodeApp) (req : RequestQuery) (witness : list byte) : option (list ProofOp) :=
  let last_height := match last_state self with Some x => state_block_height x | None => 0 end in
  let h := if (req_height req =? 0) || (last_height <? req_height req) then last_height else req_height req in
  app_hash ← unwrap (db_get (storage self) COL_APP_HASHS (i64_encode_var h));
  app_hash ← app_hash;
  data ← unwrap (db_get (storage self) COL_MERKLE_PROOFS app_hash);
  data ← data;
  tree ← decode (merkle_tree_codec 32) data;
  if decide (length (req_data req) = 32%nat) then
    merkle_proof ← generate_proof tree (req_data req);
    Some (match merkle_proof with
          | None => [get_witness_proof_op witness]
          | Some merkle_proof => [into_proof_op (root_hash tree) merkle_proof; get_witness_proof_op witness]
          end)
  else None.

Definition query_store (self : ChainNodeApp) (req : RequestQuery) (resp : ResponseQuery) : option ResponseQuery :=
  let resp := query_lookup self resp COL_BODIES (req_data req) (bstr "tx not found") in
  if req_prove req && (q_code resp =? 0) then
    match db_get (storage self) COL_WITNESS (req_data req) with
    | Ok (Some witness) => proof ← store_proof self req witness; Some (set_proof resp proof)
    | _ => Some (failed resp 2 (bstr "proof error: witness not found"))
    end
  else Some resp.

Definition query_account (self : ChainNodeApp) (req : RequestQuery) (resp : ResponseQuery) : ResponseQuery :=
  match last_state self, try_from_address (req_data req) with
  | Some state, Ok address =>
      match get_account address (account_root (top_level state)) (accounts self) with
      | Ok a => set_value resp (enc staked_state_codec a)
      | Err e => failed resp 1 (bstr "account lookup failed: " ++ error_to_string e)
      end
  | _, _ =>
      failed resp 3 (bstr "account lookup failed (either invalid address or node not correctly restored / initialized)")
  end.

Definition query_state (self : ChainNodeApp) (req : RequestQuery) (resp : ResponseQuery) : ResponseQuery :=
  match tx_query_address self with
  | None => failed resp 1 (bstr "tx query address not set")
  | Some _ =>
      match db_get (storage self) COL_APP_STATES (i64_encode_var (req_height req)) with
      | Ok (Some v) =>
          match decode chain_state_codec v with
          | Some state => set_value resp (state_to_json state)
          | None => failed resp 2 (bstr "state decode failed")
          end
      | _ => failed resp 2 (bstr "state not found")
      end
  end.

(** The council nodes by voting power and address; before the chain starts this panics. *)
Definition council_metadata (e : (Z * StakedStateAddress) * CouncilNode) : CouncilNodeMetadata :=
  {| meta_name := name e.2; meta_voting_power := e.1.1; meta_staking_address := e.1.2;
     meta_security_contact := security_contact e.2; meta_tendermint_pubkey := consensus_pubkey e.2 |}.

Definition query_council_nodes (self : ChainNodeApp) (resp : ResponseQuery) : option ResponseQuery :=
  state ← last_state self;
  Some (set_value resp (council_to_json (council_metadata <$> btree_iter (council_nodes_by_power (validators state))))).

Definition query_handler (self : ChainNodeApp) (req : RequestQuery) : option ResponseQuery :=
  let resp := response_new in
  let path := req_path req in
  let data := req_data req in
  if bool_decide (take 4 path = bstr "/p2p") || bool_decide (take 3 path = bstr "p2p") then Some resp
  else if decide (path = bstr "mockencrypt") then Some (handle_enc_dec resp)
  else if decide (path = bstr "mockdecrypt") then Some (handle_enc_dec resp)
  else if decide (path = bstr "txquery") then
    Some (match tx_query_address self with
          | Some addr => set_value resp addr
          | None => failed resp 1 (bstr "tx query address not set")
          end)
  else if decide (path = bstr "store") then query_store self req resp
  else if decide (path = bstr "meta") then Some (query_lookup self resp COL_TX_META data (bstr "tx not found"))
  else if decide (path = bstr "witness") then Some (query_lookup self resp COL_WITNESS data (bstr "tx not found"))
  else if decide (path = bstr "merkle") then
    Some (query_lookup self resp COL_MERKLE_PROOFS data (bstr "app state not found"))
  else if decide (path = bstr "account") then Some (query_account self req resp)
  else if decide (path = bstr "state") then Some (query_state self req resp)
  else if decide (path = bstr "council-nodes") then query_council_nodes self resp
  else Some (failed resp 1 (bstr "invalid path")).
End query.

(** ** After a commit *)

Section committed.
Context `{Hashes, Secp256k1, BitVecLib, KeyValueDBLaws, ScaleLaws, StarlingLaws, VarInt, QueryJson, !EnclaveProxy}.

(** What a commit keeps of a transaction; the witness of a deposit is not public. *)
Definition body_of (t : TxAux) : option (list byte) :=
  match t with
  | EnclaveTx (TransferTx _ _ payload) =>
      match decode plain_tx_aux_codec (txpayload payload) with
      | Some (PlainTransferTx tx _) => Some (enc tx_with_outputs_codec (TxTypes.Transfer tx))
      | _ => None
      end
  | EnclaveTx (DepositStakeTx tx _) => Some (enc deposit_codec tx)
  | EnclaveTx (WithdrawUnbondedStakeTx _ _ payload) =>
      match decode plain_tx_aux_codec (txpayload payload) with
      | Some (PlainWithdrawUnbondedStakeTx tx) => Some (enc tx_with_outputs_codec (StakeWithdraw tx))
      | _ => None
      end
  | UnbondStakeTx tx _ => Some (enc unbond_codec tx)
  | UnjailStakeTx tx _ => Some (enc unjail_codec tx)
  | NodeJoinTx tx _ => Some (enc node_join_codec tx)
  end.
Definition witness_of (t : TxAux) : option (list byte) :=
  match t with
  | EnclaveTx (TransferTx _ _ payload) =>
      match decode plain_tx_aux_codec (txpayload payload) with
      | Some (PlainTransferTx _ witness) => Some (enc tx_witness_codec witness)
      | _ => None
      end
  | EnclaveTx (DepositStakeTx _ _) => None
  | EnclaveTx (WithdrawUnbondedStakeTx _ w _) | UnbondStakeTx _ w | UnjailStakeTx _ w | NodeJoinTx _ w =>
      Some (enc op_witness_codec w)
  end.
Definition put_option (c : Z) (k : list byte) (v : option (list byte)) : DBTransaction :=
  match v with Some v => [Put c k v] | None => [] end.
Definition tx_puts (t : TxAux) : DBTransaction :=
  put_option COL_BODIES (tx_id t) (body_of t) ++ put_option COL_WITNESS (tx_id t) (witness_of t).
Definition meta_put (op : DBOp) : Prop := match op with Put c _ _ => c = COL_TX_META end.

Lemma apply_other m l c k :
  Forall (λ op, match op with Put c' k' _ => (c', k') ≠ (c, k) end) l → apply_ops m l !! (c, k) = m !! (c, k).
Proof.
  revert m. induction l as [|[c' k' v] l IH]; intros m Hl; [done|]. apply Forall_cons in Hl as [Hne Hl].
  change (apply_ops m (Put c' k' v :: l)) with (apply_ops (<[(c', k') := v]> m) l). rewrite IH by done.
  by apply lookup_insert_ne.
Qed.

Lemma spend_utxos_meta ins db dbtx ops :
  spend_utxos ins db dbtx = Some ops → ∃ l, ops = dbtx ++ l ∧ Forall meta_put l.
Proof.
  unfold spend_utxos. destruct (spend_loop db ∅ ins) as [u|]; [|done]. intros [= <-]. eexists. split; [done|].
  apply Forall_forall. intros op (e & -> & _)%list_elem_of_fmap. done.
Qed.

Lemma process_tx_puts db dbtx t ops :
  process_tx db dbtx t = Some ops → ∃ l, ops = dbtx ++ tx_puts t ++ l ∧ Forall meta_put l.
Proof.
  destruct t as [[ins n pl|tx pl|n w pl]|tx w|tx w|tx w]; cbn [process_tx]; unfold tx_puts;
    cbn [body_of witness_of put_option].
  - unfold update_utxos_commit, plain_transfer_puts.
    destruct (spend_utxos _ _ _) as [ops'|] eqn:E; [|done]. intros [= <-].
    apply spend_utxos_meta in E as (l & -> & Hl).
    exists (l ++ [Put COL_TX_META (txid pl) (bv_to_bytes (bv_from_elem (Z.to_nat n) false))]).
    split; [|apply Forall_app; split; [done | by repeat constructor]].
    rewrite <- !app_assoc. f_equal. by destruct (decode plain_tx_aux_codec (txpayload pl)) as [[]|].
  - intros (l & -> & Hl)%spend_utxos_meta. exists l. by rewrite <- !app_assoc.
  - intros [= <-]. exists [Put COL_TX_META (txid pl) (unspent_record n)]. split; [|by repeat constructor]. f_equal. unfold plain_withdraw_puts.
    by destruct (decode plain_tx_aux_codec (txpayload pl)) as [[]|].
  - intros [= <-]. exists []. by split.
  - intros [= <-]. exists []. by split.
  - intros [= <-]. exists []. by split.
Qed.

(** The stored record of a transaction, in either column. *)
Definition record_of (c : Z) (t : TxAux) : option (list byte) :=
  if decide (c = COL_BODIES) then body_of t else witness_of t.

Lemma tx_puts_lookup m t c k :
  c = COL_BODIES ∨ c = COL_WITNESS →
  apply_ops m (tx_puts t) !! (c, k)
  = match (if decide (k = tx_id t) then record_of c t else None) with Some v => Some v | None => m !! (c, k) end.
Proof.
  intros Hc. unfold tx_puts, record_of. rewrite apply_ops_app.
  destruct (body_of t) as [b|], (witness_of t) as [w|], Hc as [-> | ->]; cbn [put_option apply_ops foldl apply_op];
    destruct (decide (k = tx_id t)) as [->|Hk];
    repeat first [rewrite lookup_insert_eq | rewrite lookup_insert_ne by (done || congruence)]; done.
Qed.

Lemma process_tx_record db m dbtx t ops c k :
  process_tx db dbtx t = Some ops → c = COL_BODIES ∨ c = COL_WITNESS →
  apply_ops m ops !! (c, k)
  = match (if decide (k = tx_id t) then record_of c t else None) with
    | Some v => Some v
    | None => apply_ops m dbtx !! (c, k)
    end.
Proof.
  intros (l & -> & Hl)%process_tx_puts Hc. rewrite !apply_ops_app, apply_other; [by apply tx_puts_lookup|].
  eapply Forall_impl; [exact Hl|]. intros [c' k' v] Hm. cbn in Hm. subst c'. intros [= <- _]. by destruct Hc.
Qed.

Lemma process_txs_other db m txs dbtx ops c k :
  process_txs db dbtx txs = Some ops → c = COL_BODIES ∨ c = COL_WITNESS → k ∉ tx_id <$> txs →
  apply_ops m ops !! (c, k) = apply_ops m dbtx !! (c, k).
Proof.
  intros Hp Hc. revert dbtx Hp. induction txs as [|t txs IH]; intros dbtx Hp Hk; [by injection Hp as <-|].
  cbn [process_txs] in Hp. destruct (process_tx db dbtx t) as [ops'|] eqn:E; [|done].
  rewrite fmap_cons, not_elem_of_cons in Hk. destruct Hk as [Hne Hk]. rewrite (IH _ Hp Hk).
  rewrite (process_tx_record _ _ _ _ _ _ _ E Hc). by rewrite decide_False.
Qed.

Lemma process_txs_records db m txs dbtx ops c t :
  process_txs db dbtx txs = Some ops → c = COL_BODIES ∨ c = COL_WITNESS → t ∈ txs → NoDup (tx_id <$> txs) →
  apply_ops m ops !! (c, tx_id t)
  = match record_of c t with Some v => Some v | None => apply_ops m dbtx !! (c, tx_id t) end.
Proof.
  intros Hp Hc. revert dbtx Hp. induction txs as [|t' txs IH]; intros dbtx Hp Hin Hnd; [by apply not_elem_of_nil in Hin|].
  cbn [process_txs] in Hp. destruct (process_tx db dbtx t') as [ops'|] eqn:E; [|done]. cbn [mbind option_bind] in Hp.
  rewrite fmap_cons in Hnd. apply NoDup_cons in Hnd as [Hn Hnd]. apply elem_of_cons in Hin as [->|Hin].
  - rewrite (process_txs_other _ _ _ _ _ _ _ Hp Hc Hn), (process_tx_record _ _ _ _ _ _ _ E Hc). by rewrite decide_True.
  - rewrite (IH _ Hp Hin Hnd), (process_tx_record _ _ _ _ _ _ _ E Hc). rewrite decide_False; [done|].
    intros Heq. apply Hn. rewrite <- Heq. by apply list_elem_of_fmap_2.
Qed.

(** The store after a commit. *)
Lemma commit_store self self' app_hash :
  commit_handler self = Some (self', app_hash) →
  ∃ s s' tree ops, last_state self = Some s ∧ merkle_new (tx_id <$> delivered_txs self) = Some tree
    ∧ process_txs (storage self) [] (delivered_txs self) = Some ops
    ∧ last_state self' = Some s' ∧ state_block_height s' = state_block_height s ∧ last_apphash s' = app_hash
    ∧ tx_query_address self' = tx_query_address self ∧ accounts self' = accounts self
    ∧ account_root (top_level s') = uncommitted_account_root_hash self
    ∧ app_hash = compute_app_hash tree (account_root (top_level s')) (pool_of s') (params_of s')
    ∧ db_view (storage self') = apply_ops (db_view (storage self)) (ops
        ++ [Put COL_MERKLE_PROOFS app_hash (enc (merkle_tree_codec 32) tree)] ++ state_puts self' s').
Proof.
  unfold commit_handler. intros Hc. destruct (last_state self) as [s|]; [|done]. cbn [mbind option_bind] in Hc.
  destruct (merkle_new _) as [tree|]; [|done]. cbn [mbind option_bind] in Hc.
  destruct (process_txs _ _ _) as [ops|]; [|done]. cbn [mbind option_bind] in Hc.
  destruct (unwrap (params_calculate_fee _ 0)) as [fee|]; [|done]. cbn [mbind option_bind] in Hc.
  destruct (process_request _ _) as [[response v]|]; [|done]. cbn [mbind option_bind] in Hc.
  destruct response; try done. case_match; [|done].
  destruct (unwrap (db_write _ _)) as [db|] eqn:Ew; [|done]. injection Hc as <- <-.
  eexists s, _, tree, ops. split_and!; try done. cbn [storage set_storage].
  match type of Ew with unwrap (db_write ?d ?o) = _ => destruct (db_write_view d o) as (db' & Ed & Hv) end.
  rewrite Ed in Ew. injection Ew as <-. rewrite Hv, <- app_assoc. done.
Qed.

Lemma tree_ok_leaves tr : tree_ok tr → (0 < length (leaves tr))%nat.
Proof. induction 1; cbn; rewrite ?length_app; lia. Qed.

(** A generated path has one node per level and digests of the right length. *)
Lemma generate_path_ok tr v p :
  tree_ok tr → generate_path tr v = Some p →
  array_ok 32 (leaf_hash p) ∧ Forall path_node_ok (nodes p) ∧ (length (nodes p) < length (leaves tr))%nat.
Proof.
  intros Ht. revert p. induction Ht as [u|l r Hl IHl Hr IHr]; intros p Hp; simpl in Hp.
  - case_decide; simplify_eq. split; [apply blake2s_length|]. split; [constructor | cbn; lia].
  - pose proof (tree_hash_ok _ Hl). pose proof (tree_hash_ok _ Hr).
    pose proof (tree_ok_leaves _ Hl). pose proof (tree_ok_leaves _ Hr).
    destruct (generate_path l v) as [pl|] eqn:El; [|destruct (generate_path r v) as [pr|] eqn:Er]; simplify_eq.
    + destruct (IHl _ eq_refl) as (? & ? & ?). cbn. rewrite !length_app. split; [done|]. split; [|cbn; lia].
      apply Forall_app. split; [done|]. repeat constructor; [apply blake2s_length | done].
    + destruct (IHr _ eq_refl) as (? & ? & ?). cbn. rewrite !length_app. split; [done|]. split; [|cbn; lia].
      apply Forall_app. split; [done|]. repeat constructor; [apply blake2s_length | done].
Qed.

Lemma merkle_proof_codec_ok n :
  codec_ok (λ p, array_ok 32 (leaf_hash (path p)) ∧ vec_ok path_node_ok (nodes (path p)) ∧ array_ok n (value p))
    (merkle_proof_codec n).
Proof.
  intros [[l ns] v] rest (?&?&?). cbn [enc dec merkle_proof_codec]. rewrite <- app_assoc.
  rewrite (dbind_ok (λ p, array_ok 32 (leaf_hash p) ∧ vec_ok path_node_ok (nodes p))); [| |done].
  - by dec_step.
  - intros [] rest' (?&?). cbn [enc dec path_codec]. rewrite <- !app_assoc. dec_step.
    by rewrite (dbind_ok _ _ _ _ _ (vec_codec_ok _ _ path_node_codec_ok)).
Qed.

(** The tree of a list of identifiers has a proof for each, which can be decoded and checked. *)
Lemma proof_served (ids : list TxId) tree i :
  merkle_new ids = Some tree → i ∈ ids → Forall (array_ok 32) ids → Z.of_nat (length ids) ≤ U32_MAX →
  ∃ proof, generate_proof tree i = Some (Some proof) ∧ value proof = i
    ∧ proof_verify proof (root_hash tree) = Some true
    ∧ decode (merkle_proof_codec 32) (enc (merkle_proof_codec 32) proof) = Some proof.
Proof.
  intros Ht Hi Hids Hl. destruct (proof_for ids i Hi) as (mt & proof & Ht' & Hg & Hv & Hp).
  assert (mt = tree) as -> by congruence. exists proof. split_and!; [done..|].
  apply (decode_ok _ _ _ (merkle_proof_codec_ok 32)).
  destruct (merkle_new_Some ids) as (mt & Ht'' & _ & _ & _ & Hok & Hlv); [by intros ->; set_solver|].
  assert (mt = tree) as -> by congruence. unfold generate_proof in Hg.
  destruct (generate_path (Merkle.tree tree) i) as [p|] eqn:Ep; [|done]. destruct (generate_path_ok _ _ _ Hok Ep) as (H1' & H2' & H3').
  destruct (decide _) as [_|] in Hg; [|done]. injection Hg as <-.
  split; [done|]. split; [split; [|done]|].
  - rewrite Hlv in H3'. cbn [path]. apply Nat2Z.inj_lt in H3'. etrans; [apply Z.lt_le_incl; exact H3' | exact Hl].
  - rewrite Forall_forall in Hids. by apply Hids.
Qed.

(** What the query reads after a commit: the records of a transaction of the block, and the
    tree of the block at its height. *)
Lemma commit_reads self self' app_hash t :
  commit_handler self = Some (self', app_hash) → t ∈ delivered_txs self → NoDup (tx_id <$> delivered_txs self) →
  (∀ c, c = COL_BODIES ∨ c = COL_WITNESS →
     db_view (storage self') !! (c, tx_id t)
     = match record_of c t with Some v => Some v | None => db_view (storage self) !! (c, tx_id t) end)
  ∧ ∃ s s' tree, last_state self = Some s ∧ last_state self' = Some s' ∧ state_block_height s' = state_block_height s
    ∧ merkle_new (tx_id <$> delivered_txs self) = Some tree
    ∧ app_hash = compute_app_hash tree (account_root (top_level s')) (pool_of s') (params_of s')
    ∧ db_view (storage self') !! (COL_APP_HASHS, i64_encode_var (state_block_height s)) = Some app_hash
    ∧ db_view (storage self') !! (COL_MERKLE_PROOFS, app_hash) = Some (enc (merkle_tree_codec 32) tree).
Proof.
  intros Hc Ht Hnd.
  destruct (commit_store _ _ _ Hc) as (s & s' & tree & ops & Hs & Hm & Hp & Hs' & Hh & Hlast & Hq & _ & _ & Ha & Hv).
  assert (Hputs : ∀ m c k, c = COL_BODIES ∨ c = COL_WITNESS ∨ c = COL_MERKLE_PROOFS →
    apply_ops m (state_puts self' s') !! (c, k) = m !! (c, k)).
  { intros m c k Hc'. apply apply_other. unfold state_puts. apply Forall_app.
    destruct (tx_query_address self'); (split; [|repeat constructor]); repeat constructor; intros [= <- _]; naive_solver. }
  rewrite Hv, !apply_ops_app. split.
  - intros c Hc'. rewrite Hputs by naive_solver. cbn [apply_ops foldl apply_op].
    rewrite lookup_insert_ne by (destruct Hc'; naive_solver). by apply (process_txs_records _ _ _ [] _ _ _ Hp).
  - exists s, s', tree. split_and!; try done.
    + unfold state_puts. rewrite apply_ops_app, Hh. destruct (tx_query_address self'); cbn [apply_ops foldl apply_op];
        rewrite ?(lookup_insert_ne _ (COL_APP_STATES, _)) by done; by rewrite lookup_insert_eq, Hlast.
    + rewrite Hputs by naive_solver. cbn [apply_ops foldl apply_op]. by rewrite lookup_insert_eq.
Qed.

Lemma query_lookup_view self resp c k msg :
  query_lookup self resp c k msg
  = match db_view (storage self) !! (c, k) with Some v => set_value resp v | None => failed resp 1 msg end.
Proof. unfold query_lookup. rewrite db_get_view. by destruct (db_view (storage self) !! (c, k)). Qed.


(** The answer about an account is the account of the last commit, as it decodes from the
    value; an account that is not there is an error. *)
Lemma account_answer self s m (a : RedeemAddress) h prove :
  last_state self = Some s → holds (accounts self) (account_root (top_level s)) m →
  length a = REDEEM_ADDRESS_BYTES →
  query_handler self {| req_path := bstr "account"; req_data := a; req_height := h; req_prove := prove |}
  = Some (match m !! to_stake_key (BasicRedeem a) with
          | Some x => set_value response_new (enc staked_state_codec x)
          | None => failed response_new 1 (bstr "account lookup failed: account not found")
          end).
Proof.
  intros Hs Hm Ha. change (query_handler self _) with (Some (query_account self
    {| req_path := bstr "account"; req_data := a; req_height := h; req_prove := prove |} response_new)).
  f_equal. unfold query_account. rewrite Hs. cbn [req_data]. unfold try_from_address, redeem_try_from.
  rewrite decide_False by tauto. cbn [mbind result_bind]. rewrite (get_account_holds _ _ _ _ Hm).
  by destruct (m !! to_stake_key (BasicRedeem a)).
Qed.
End committed.

(** ** Witness *)

Module QueryExample.
Import AppExample.

#[export] Instance json_ref : QueryJson.
Proof.
  refine {| state_to_json := enc chain_state_codec; state_from_json := decode chain_state_codec; council_to_json _ := [] |}.
  intros s Hs. exact (decode_ok _ _ _ chain_state_codec_ok Hs).
Defined.
#[export] Instance var_int_eight : VarInt := {| i64_encode_var := λ z, enc u64_codec (as_u64 z) |}.

Definition block_done : bool :=
  match deliver_all (app staker) [unbond_bytes; []] with
  | Some self1 => match delivered_txs self1 with [UnbondStakeTx _ _] => true | _ => false end
                  && bool_decide (is_Some (commit_handler self1)) && bool_decide (is_Some (last_state self1))
                  && bool_decide ((storage self1 : dbmap) = ∅)
  | None => false
  end.
Lemma block_done_true : block_done = true.
Proof. vm_cast_no_check (@eq_refl bool true). Qed.

End QueryExample.
