(* ===== verification/NetworkOps.v ===== *)
(** * NetworkOps: staking with the keys of a wallet

    [client-network/src/network_ops/default_network_ops_client.rs]: the transactions that
    deposit, unbond and withdraw stake, free a jailed account and join the council, made
    from the account that the node reports and signed with the staking keys of a wallet.

    The theorems compose the client with the wallet's storage, the interface of the node
    and its query handler: what the client reads is the committed account; an unbonding,
    an unjailing or a join that it makes is checked against exactly that account and
    accepted under the conditions of the chain alone; a withdrawal of everything pays the
    fee of the chain; but one of less than everything pays the rest as a fee. *)

From stdpp Require Import base tactics option list gmap strings.
From Stdlib Require Import ZArith Lia.
From S2P Require Import Prelude Text Codec Milli Coin Crypto Merkle Params Account TxTypes Validation BitVec Genesis.
From S2P Require Import Storage EnclaveProtocol AppState DeliverTx Commit EnclaveCodec Enclave ServerContract Client WalletBuilder WalletFee WalletSync.
From S2P Require Import ClientStorage HdWallet Services WalletStore WalletClient Rpc Query.

(** [Time::duration_since(Time::unix_epoch())] in seconds; it fails before the epoch. *)
Class EpochTime `{TimeLib} := { since_epoch : Time → option Z }.

Section ops.
Context `{OsRng, Hashes, Aead, Scale, Hex, BitVecLib, ClientKeys, TimeLib, TendermintLib, Base64, !EpochTime}.
Context {S : Type} `{!Store S} {F : Type} `{!FeeAlgorithm F}.

Record NetworkOps := {
  net_client : Client;
  net_fee_algorithm : F;
  net_encrypt : Obfuscation;
}.

Context (self : NetworkOps).

(** ** The account of an address *)

Definition net_get_account (staked_state_address : list byte) : result ErrorKind StakedState :=
  q ← client_query (net_client self) (bstr "account") staked_state_address;
  bytes ← query_bytes q;
  chain_none Kind.DeserializationError (decode staked_state_codec bytes).

Definition get_staked_state_account (to_staked_account : StakedStateAddress) : result ErrorKind StakedState :=
  match to_staked_account with BasicRedeem a => net_get_account a end.

(** The key is looked up, but its absence is no error. *)
Definition get_staked_state (name passphrase : str) (address : StakedStateAddress) : io S StakedState :=
  _ ← match address with BasicRedeem redeem_address => ws_find_staking_key name passphrase redeem_address end;
  pure_res (get_staked_state_account address).

Definition net_calculate_fee (outputs : list TxOut) (attributes : TxAttributes) : run ErrorKind Coin :=
  tx_aux ← mock_txaux_for_withdraw
             {| withdraw_nonce := 0; withdraw_outputs := outputs; withdraw_attributes := attributes |};
  fee ?← Some (chain_err Kind.IllegalInput (calculate_for (net_fee_algorithm self) tx_aux));
  Some (Ok (fee_to_coin fee)).

Definition get_last_block_time : run ErrorKind Timespec :=
  status ?← Some (client_status (net_client self));
  seconds ← since_epoch (latest_block_time status);
  Some (Ok seconds).

(** The part that the operations on accounts share: the key of the address signs. *)
Definition sign_staking (name passphrase : str) (address : StakedStateAddress) (txid : TxId) :
  io S StakedStateOpWitness :=
  public_key ← match address with BasicRedeem a => ws_find_staking_key name passphrase a end;
  public_key ← pure_res (chain_none Kind.InvalidInput public_key);
  private_key ← get_private_key public_key passphrase;
  private_key ← pure_res (chain_none Kind.InvalidInput private_key);
  signature ← pure_res (private_key_sign private_key txid);
  mret (BasicRedeemSig signature).

(** ** The operations *)

Fixpoint collect_outputs (name passphrase : str) (inputs : list TxoPointer) : io S UnspentTransactions :=
  match inputs with
  | [] => mret []
  | txo_pointer :: inputs =>
      output ← client_output name passphrase txo_pointer;
      rest ← collect_outputs name passphrase inputs;
      mret ((txo_pointer, output) :: rest)
  end.

Definition create_deposit_bonded_stake_transaction (name passphrase : str) (inputs : list TxoPointer)
    (to_address : StakedStateAddress) (attributes : StakedStateOpAttributes) : io S TxAux :=
  present ← client_has_unspent_transactions name passphrase inputs;
  if negb present then throw Kind.InvalidInput
  else
    let transaction := {| deposit_inputs := inputs; to_staked_account := to_address; deposit_attributes := attributes |} in
    transactions ← collect_outputs name passphrase inputs;
    witness ← reading (λ w, schnorr_sign_transaction (create_signer name passphrase w)
                              (transaction_id deposit_codec transaction) transactions);
    _ ← pure_res (chain_err Kind.ValidationError (check_inputs_basic (deposit_inputs transaction) witness));
    pure_run (net_encrypt self (SignedDeposit transaction witness)).

Definition create_unbond_stake_transaction (name passphrase : str) (address : StakedStateAddress) (value : Coin)
    (attributes : StakedStateOpAttributes) : io S TxAux :=
  staked_state ← get_staked_state name passphrase address;
  _ ← pure_res (chain_err Kind.ValidationError (verify_unjailed staked_state));
  if bonded staked_state <? value then throw Kind.InvalidInput
  else
    let transaction := {| from_staked_account := address; unbond_nonce := nonce staked_state; unbond_value := value;
                          unbond_attributes := attributes |} in
    signature ← sign_staking name passphrase address (transaction_id unbond_codec transaction);
    mret (UnbondStakeTx transaction signature).

Definition create_withdraw_unbonded_stake_transaction (name passphrase : str) (from_address : StakedStateAddress)
    (outputs : list TxOut) (attributes : TxAttributes) : io S TxAux :=
  last_block_time ← pure_run get_last_block_time;
  staked_state ← get_staked_state name passphrase from_address;
  if last_block_time <? unbonded_from staked_state then throw Kind.ValidationError
  else
    _ ← pure_res (chain_err Kind.ValidationError (verify_unjailed staked_state));
    output_value ← pure_res (chain_err Kind.InvalidInput (sum_coins (out_value <$> outputs)));
    if unbonded staked_state <? output_value then throw Kind.InvalidInput
    else
      let transaction := {| withdraw_nonce := nonce staked_state; withdraw_outputs := outputs;
                            withdraw_attributes := attributes |} in
      signature ← sign_staking name passphrase from_address (transaction_id withdraw_codec transaction);
      pure_run (net_encrypt self (SignedWithdraw transaction staked_state signature)).

Definition create_unjail_transaction (name passphrase : str) (address : StakedStateAddress)
    (attributes : StakedStateOpAttributes) : io S TxAux :=
  staked_state ← get_staked_state name passphrase address;
  if negb (is_jailed staked_state) then throw Kind.IllegalInput
  else
    let transaction := {| unjail_nonce := nonce staked_state; unjail_address := address; unjail_attributes := attributes |} in
    signature ← sign_staking name passphrase address (transaction_id unjail_codec transaction);
    mret (UnjailStakeTx transaction signature).

Definition create_withdraw_all_unbonded_stake_transaction (name passphrase : str) (from_address : StakedStateAddress)
    (to_address : ExtendedAddr) (attributes : TxAttributes) : io S TxAux :=
  staked_state ← get_staked_state name passphrase from_address;
  _ ← pure_res (chain_err Kind.ValidationError (verify_unjailed staked_state));
  let temp_output := tx_out_new_with_timelock to_address coin_zero (unbonded_from staked_state) in
  fee ← pure_run (net_calculate_fee [temp_output] attributes);
  amount ← pure_res (chain_err Kind.IllegalInput (coin_sub (unbonded staked_state) fee));
  let outputs := [tx_out_new_with_timelock to_address amount (unbonded_from staked_state)] in
  _ ← pure_res (chain_err Kind.ValidationError (check_outputs_basic outputs));
  create_withdraw_unbonded_stake_transaction name passphrase from_address outputs attributes.

Definition create_node_join_transaction (name passphrase : str) (staking_account_address : StakedStateAddress)
    (attributes : StakedStateOpAttributes) (node_metadata : CouncilNode) : io S TxAux :=
  staked_state ← get_staked_state name passphrase staking_account_address;
  _ ← pure_res (chain_err Kind.ValidationError (verify_unjailed staked_state));
  let transaction := {| join_nonce := nonce staked_state; join_address := staking_account_address;
                        join_attributes := attributes; node_meta := node_metadata |} in
  signature ← sign_staking name passphrase staking_account_address (transaction_id node_join_codec transaction);
  mret (NodeJoinTx transaction signature).
End ops.

(** ** Sizes of withdrawals *)

Section sizes.
Context `{Hashes, ClientKeys, ScaleLaws, !ScaleSizes, !Secp256k1Laws}.

Lemma op_witness_size w : length (enc op_witness_codec w) = 66%nat.
Proof.
  destruct w as [sig]. cbn [enc op_witness_codec]. pose proof (recoverable_serialize_length sig) as Hl.
  destruct (recoverable_serialize_compact sig) as [rid raw]. cbn [snd] in Hl. cbn [length]. by rewrite array_size.
Qed.

Lemma withdraw_aux_size n w pl :
  is_u16 n → envelope_ok pl →
  length (enc tx_aux_codec (EnclaveTx (WithdrawUnbondedStakeTx n w pl)))
  = (122 + (compact_size (Z.of_nat (length (txpayload pl))) + length (txpayload pl)))%nat.
Proof.
  intros Hn (Hk & Hv & Hi). cbn [enc tx_aux_codec tx_enclave_aux_codec obfuscated_codec]. cbn [length].
  rewrite !length_app, u16_size, i64_size, !array_size, bytes_size, op_witness_size by done. lia.
Qed.

(** The size of a plain withdrawal does not depend on its nonce and value. *)
Lemma plain_withdraw_size n n' addr v v' t attrs :
  is_u64 n → is_u64 n' → coin_ok v → coin_ok v' →
  length (enc plain_tx_aux_codec (PlainWithdrawUnbondedStakeTx
    {| withdraw_nonce := n; withdraw_outputs := [tx_out_new_with_timelock addr v t]; withdraw_attributes := attrs |}))
  = length (enc plain_tx_aux_codec (PlainWithdrawUnbondedStakeTx
    {| withdraw_nonce := n'; withdraw_outputs := [tx_out_new_with_timelock addr v' t]; withdraw_attributes := attrs |})).
Proof.
  intros Hn Hn' Hv Hv'. cbn [enc plain_tx_aux_codec withdraw_codec withdraw_nonce withdraw_outputs withdraw_attributes].
  cbn [length]. rewrite !length_app, !u64_size, !vec_size by done. unfold sum_sizes. cbn [fmap list_fmap sum_list length].
  cbn [enc tx_out_codec out_address out_value valid_from tx_out_new_with_timelock coin_codec].
  rewrite !length_app, !u64_size by ints. done.
Qed.

(** The mock of a withdrawal against the encrypted one. *)
Lemma withdraw_mock_size tx w mock pl :
  mock_txaux_for_withdraw mock = Some w → envelope_ok pl →
  length (txpayload pl) = (length (enc plain_tx_aux_codec (PlainWithdrawUnbondedStakeTx tx)) + 16)%nat →
  let l := length (enc plain_tx_aux_codec (PlainWithdrawUnbondedStakeTx tx)) in
  length (enc plain_tx_aux_codec (PlainWithdrawUnbondedStakeTx mock)) = l →
  ∀ n sig, is_u16 n →
  let real := length (enc tx_aux_codec (EnclaveTx (WithdrawUnbondedStakeTx n sig pl))) in
  ((l mod 16 = 0 → length (enc tx_aux_codec w) = real) ∧ (l mod 16 ≠ 0 → length (enc tx_aux_codec w) < real))%nat.
Proof.
  intros Hm Hp Hl l Hmock n sig Hn real. unfold mock_txaux_for_withdraw in Hm.
  destruct (unwrap _) as [esig|]; [|done]. cbn [mbind option_bind] in Hm. injection Hm as <-.
  subst real. rewrite (withdraw_aux_size n sig pl) by done.
  rewrite withdraw_aux_size; [|apply outputs_u16 | split_and!; [simpl; ints | reflexivity | apply transaction_id_length]].
  cbn [txpayload]. unfold pad_payload. rewrite length_replicate, Hmock, Hl. fold l.
  pose proof (Nat.mod_upper_bound l 16 ltac:(lia)). split; intros Hmod.
  - rewrite Hmod. by replace (l + 16 - 0)%nat with (l + 16)%nat by lia.
  - pose proof (compact_size_mono (Z.of_nat (l + 16 - l mod 16)) (Z.of_nat (l + 16)) ltac:(lia)). lia.
Qed.
End sizes.

(** ** What the client makes is what the chain checks *)

Section composed.
Context `{OsRng, Hashes, Aead, ScaleLaws, Hex, ClientKeys, TimeLib, TendermintLib, Base64, !EpochTime}.
Context `{KeyValueDBLaws, BitVecLib, StarlingLaws, VarInt, QueryJson, !EnclaveProxy}.
Context {S : Type} `{!Store S, !AeadLaws, !StoreLaws S, !ClientKeysLaws, !Secp256k1Laws} {F : Type} `{!FeeAlgorithm F}.

(** The interface of a node: a query gets the node's value in base 64, or an error. *)
Definition answers (client : Client) (app : ChainNodeApp) : Prop := ∀ path data r,
  query_handler app {| req_path := path; req_data := data; req_height := 0; req_prove := false |} = Some r →
  client_query client path data
  = if q_code r =? 0 then Ok {| query_value := Some (base64_encode (q_value r)) |} else Err Kind.TendermintRpcError.

Context (self : NetworkOps (F := F)) (app : ChainNodeApp) (s : ChainNodeState) (m : gmap (list byte) StakedState).
Hypothesis node_answers : answers (net_client self) app.
Hypothesis node_state : last_state app = Some s.
Hypothesis node_accounts : holds (accounts app) (account_root (top_level s)) m.

Lemma redeem_address_length (pk : PublicKey) : length (redeem_address_from_pk pk) = REDEEM_ADDRESS_BYTES.
Proof. unfold redeem_address_from_pk. rewrite length_drop. unfold keccak256. by rewrite keccak_v256_length. Qed.

(** The client reads the committed account. *)
Lemma account_read a :
  length a = REDEEM_ADDRESS_BYTES →
  net_get_account self a
  = match m !! to_stake_key (BasicRedeem a) with Some x => Ok x | None => Err Kind.TendermintRpcError end.
Proof.
  intros Ha. unfold net_get_account. pose proof (account_answer app s m a 0 false node_state node_accounts Ha) as Hq.
  rewrite (node_answers _ _ _ Hq). destruct node_accounts as [_ Hok].
  destruct (m !! to_stake_key (BasicRedeem a)) as [x|] eqn:E; [|done].
  cbn [q_code set_value response_new Z.eqb mbind result_bind]. unfold query_bytes. cbn [query_value].
  unfold from_base64. rewrite base64_decode_encode. cbn [chain_none mbind result_bind q_value set_value].
  by rewrite (decode_ok _ _ _ staked_state_codec_ok) by by destruct (Hok _ _ E).
Qed.

(** A staking address of a wallet, and its account. *)
Context (name p : str) (x : Wallet) (a : RedeemAddress) (acct : StakedState).
Hypothesis listed : lists_staking (BasicRedeem a) x.
Hypothesis on_chain : m !! to_stake_key (BasicRedeem a) = Some acct.
Hypothesis its_address : address acct = BasicRedeem a.

Lemma listed_length : length a = REDEEM_ADDRESS_BYTES.
Proof. destruct listed as (pk & _ & [= ->]). apply redeem_address_length. Qed.

Lemma acct_ok : staked_state_ok acct.
Proof. destruct node_accounts as [_ Hok]. by destruct (Hok _ _ on_chain). Qed.

Lemma staked_state_read (w : World S) :
  wallet_at (disk w) p name x → get_staked_state self name p (BasicRedeem a) w = Some (Ok acct, w).
Proof.
  intros Hx. destruct (staking_key_found _ _ _ _ _ Hx listed) as (pk & sk & Ef & _).
  unfold get_staked_state, mbind, sem_bind. rewrite Ef. unfold pure_res, get_staked_state_account.
  by rewrite (account_read a listed_length), on_chain.
Qed.

Lemma staking_signed txid (w : World S) :
  wallet_at (disk w) p name x → length txid = 32%nat →
  ∃ sig, sign_staking name p (BasicRedeem a) txid w = Some (Ok sig, w)
    ∧ verify_tx_recover_address sig txid = Ok (BasicRedeem a).
Proof.
  intros Hx Hl. destruct (staking_key_found _ _ _ _ _ Hx listed) as (pk & sk & Ef & Eg & Epk & Ea).
  exists (BasicRedeemSig (sign_recoverable txid sk)). unfold sign_staking, mbind, sem_bind. rewrite Ef.
  unfold pure_res. cbn [chain_none]. rewrite Eg. cbn [chain_none]. unfold private_key_sign, verify_tx_recover_address.
  assert (message_from_slice txid = Ok txid) as -> by (unfold message_from_slice; by rewrite Hl).
  cbn [chain_err mbind result_bind]. split; [done|]. rewrite recover_sign. cbn [mbind result_bind].
  rewrite ecdsa_verify_sign. cbn [mbind result_bind]. by rewrite <- Epk, Ea.
Qed.

(** What the node makes of a transaction that changes an account. *)
Abbreviation accepted txaux info node_info :=
  (∃ r, verify_public_tx txaux info node_info (account_root (top_level s)) (accounts app) = Some (Ok r)).

Lemma unbond_checked value attrs info node_info (w : World S) :
  wallet_at (disk w) p name x → coin_ok value → coin_ok (min_fee_computed info) → unbonded acct + value ≤ MAX_COIN →
  let made := create_unbond_stake_transaction self name p (BasicRedeem a) value attrs w in
  (is_jailed acct = true ∨ bonded acct < value) ∧ (∃ e, made = Some (Err e, w))
  ∨ is_jailed acct = false ∧ value ≤ bonded acct
    ∧ ∃ txaux, made = Some (Ok txaux, w)
        ∧ (accepted txaux info node_info
           ↔ info_chain_hex_id info = op_chain_hex_id attrs ∧ value ≠ 0 ∧ value + min_fee_computed info ≤ bonded acct).
Proof.
  intros Hx Hv Hm Hmax made. subst made. unfold create_unbond_stake_transaction, mbind, sem_bind.
  rewrite (staked_state_read w Hx). unfold pure_res, verify_unjailed.
  destruct (is_jailed acct) eqn:Ej; [left; split; [by left | by eexists]|]. cbn [chain_err].
  destruct (Z.ltb_spec (bonded acct) value); [left; split; [by right | by eexists]|]. right. split; [done|]. split; [done|].
  set (tx := {| from_staked_account := _ |}).
  destruct (staking_signed (transaction_id unbond_codec tx) w Hx (transaction_id_length _ _)) as (sig & -> & Hr).
  eexists. split; [done|]. cbn [verify_public_tx]. rewrite Hr, (get_account_holds _ _ _ _ node_accounts), on_chain.
  cbn [ok_or run_bind]. pose proof (verify_unbonding_ok tx info acct) as Hok. split.
  - intros [r Hu]. apply Hok in Hu as [(_ & ? & _ & _ & ? & ?) _]; [done | apply acct_ok | done..].
  - intros (Hc & Hz & Hle). eexists. apply Hok; [apply acct_ok | done..|]. split; [|split; [done|]].
    + split_and!; (done || by rewrite its_address).
    + cbn. eexists. apply unbond_spec; [apply acct_ok | done | ints |]. split_and!; [reflexivity | cbn; lia | done].
Qed.

Lemma unjail_checked attrs info node_info (w : World S) :
  wallet_at (disk w) p name x →
  let made := create_unjail_transaction self name p (BasicRedeem a) attrs w in
  jailed_until acct = None ∧ (∃ e, made = Some (Err e, w))
  ∨ ∃ t txaux, jailed_until acct = Some t ∧ made = Some (Ok txaux, w)
      ∧ (accepted txaux info node_info
         ↔ info_chain_hex_id info = op_chain_hex_id attrs ∧ t ≤ previous_block_time info).
Proof.
  intros Hx made. subst made. unfold create_unjail_transaction, mbind, sem_bind.
  rewrite (staked_state_read w Hx). unfold is_jailed, jailed_until.
  destruct (punishment acct) as [pu|] eqn:Ej; cbn [negb fmap option_fmap option_map].
  2:{ left. split; [done | by eexists]. }
  right.
  set (tx := {| unjail_nonce := _ |}).
  destruct (staking_signed (transaction_id unjail_codec tx) w Hx (transaction_id_length _ _)) as (sig & -> & Hr).
  exists (punished_until pu). eexists. split; [done|]. split; [done|]. cbn [verify_public_tx].
  rewrite Hr, (get_account_holds _ _ _ _ node_accounts), on_chain. cbn [ok_or run_bind]. split.
  - intros [r [= Hu]]. apply verify_unjailing_ok in Hu as [(Hc & _ & _ & t' & Ht & Hle) _].
    split; [done|]. unfold jailed_until in Ht. rewrite Ej in Ht. by injection Ht as <-.
  - intros [Hc Hle]. eexists. f_equal. apply verify_unjailing_ok. split; [|done]. split_and!; try (done || by rewrite its_address).
    exists (punished_until pu). unfold jailed_until. by rewrite Ej.
Qed.

Lemma join_checked attrs node info node_info (w : World S) :
  wallet_at (disk w) p name x →
  let made := create_node_join_transaction self name p (BasicRedeem a) attrs node w in
  is_jailed acct = true ∧ (∃ e, made = Some (Err e, w))
  ∨ is_jailed acct = false
    ∧ ∃ txaux, made = Some (Ok txaux, w)
        ∧ (accepted txaux info node_info
           ↔ info_chain_hex_id info = op_chain_hex_id attrs ∧ minimal_stake node_info ≤ bonded acct
             ∧ validator_voting_power node_info !! BasicRedeem a = None
             ∧ tendermint_validator_addresses node_info !! validator_address_from (consensus_pubkey node) = None).
Proof.
  intros Hx made. subst made. unfold create_node_join_transaction, mbind, sem_bind.
  rewrite (staked_state_read w Hx). unfold pure_res, verify_unjailed.
  destruct (is_jailed acct) eqn:Ej; [left; split; [done | by eexists]|]. cbn [chain_err]. right. split; [done|].
  set (tx := {| join_nonce := _ |}).
  destruct (staking_signed (transaction_id node_join_codec tx) w Hx (transaction_id_length _ _)) as (sig & -> & Hr).
  eexists. split; [done|]. cbn [verify_public_tx].
  rewrite Hr, (get_account_holds _ _ _ _ node_accounts), on_chain. cbn [ok_or run_bind]. split.
  - intros [r [= Hu]]. by apply verify_node_join_ok in Hu as [(_ & ? & _ & _ & ? & ? & ?) _].
  - intros (Hc & Hs & Hv & Ht). eexists. f_equal. apply verify_node_join_ok. split; [|done]. split_and!; (done || by rewrite its_address).
Qed.

(** C31. The transactions that a client makes for a staking address of its wallet, from what
    the node answers, are signed for that account and carry its nonce, so that the node
    decides on their merits alone.  An unbonding is refused by the client for a jailed
    account or more than the bonded stake, and accepted by the node exactly when the chain
    matches, the amount is not zero and there is enough for the fee as well; an unjailing
    is made for jailed accounts only and accepted exactly when the chain matches and their
    time is over; a join is made for accounts that are not jailed and accepted exactly when
    the chain matches, the bonded stake reaches the minimum, the account is not a validator
    yet and the validator key is new.  The storage of the wallet does not change. *)
Theorem staking_operations_checked info node_info (w : World S) :
  wallet_at (disk w) p name x → coin_ok (min_fee_computed info) →
  (∀ value attrs, coin_ok value → unbonded acct + value ≤ MAX_COIN →
     let made := create_unbond_stake_transaction self name p (BasicRedeem a) value attrs w in
     (is_jailed acct = true ∨ bonded acct < value) ∧ (∃ e, made = Some (Err e, w))
     ∨ is_jailed acct = false ∧ value ≤ bonded acct
       ∧ ∃ txaux, made = Some (Ok txaux, w)
           ∧ (accepted txaux info node_info
              ↔ info_chain_hex_id info = op_chain_hex_id attrs ∧ value ≠ 0 ∧ value + min_fee_computed info ≤ bonded acct))
  ∧ (∀ attrs,
     let made := create_unjail_transaction self name p (BasicRedeem a) attrs w in
     jailed_until acct = None ∧ (∃ e, made = Some (Err e, w))
     ∨ ∃ t txaux, jailed_until acct = Some t ∧ made = Some (Ok txaux, w)
         ∧ (accepted txaux info node_info
            ↔ info_chain_hex_id info = op_chain_hex_id attrs ∧ t ≤ previous_block_time info))
  ∧ (∀ attrs node,
     let made := create_node_join_transaction self name p (BasicRedeem a) attrs node w in
     is_jailed acct = true ∧ (∃ e, made = Some (Err e, w))
     ∨ is_jailed acct = false
       ∧ ∃ txaux, made = Some (Ok txaux, w)
           ∧ (accepted txaux info node_info
              ↔ info_chain_hex_id info = op_chain_hex_id attrs ∧ minimal_stake node_info ≤ bonded acct
                ∧ validator_voting_power node_info !! BasicRedeem a = None
                ∧ tendermint_validator_addresses node_info !! validator_address_from (consensus_pubkey node) = None)).
Proof.
  intros Hx Hm. split_and!; intros.
  - by apply unbond_checked.
  - by apply unjail_checked.
  - by apply join_checked.
Qed.

(** ** Withdrawals *)

Context (status : Status) (now : Timespec).
Hypothesis its_status : client_status (net_client self) = Ok status.
Hypothesis its_time : since_epoch (latest_block_time status) = Some now.

Lemma withdraw_made outputs attrs (w : World S) :
  wallet_at (disk w) p name x → is_jailed acct = false → unbonded_from acct ≤ now →
  Forall (λ o, coin_ok (out_value o)) outputs → sum_by out_value outputs ≤ unbonded acct →
  let tx := {| withdraw_nonce := nonce acct; withdraw_outputs := outputs; withdraw_attributes := attrs |} in
  ∃ sig, verify_tx_recover_address sig (transaction_id withdraw_codec tx) = Ok (BasicRedeem a)
    ∧ create_withdraw_unbonded_stake_transaction self name p (BasicRedeem a) outputs attrs w
      = pure_run (net_encrypt self (SignedWithdraw tx acct sig)) w.
Proof.
  intros Hx Hj Ht Ho Hs tx.
  destruct (staking_signed (transaction_id withdraw_codec tx) w Hx (transaction_id_length _ _)) as (sig & Es & Hr).
  exists sig. split; [done|]. unfold create_withdraw_unbonded_stake_transaction, mbind, sem_bind, get_last_block_time.
  unfold pure_run at 1. rewrite its_status. cbn [run_bind]. rewrite its_time. cbn [mbind option_bind].
  rewrite (staked_state_read w Hx). destruct (Z.ltb_spec now (unbonded_from acct)); [lia|].
  unfold pure_res, verify_unjailed. rewrite Hj. cbn [chain_err].
  pose proof acct_ok as (_ & _ & Hu & _).
  rewrite (proj2 (sum_out_values _ (sum_by out_value outputs) Ho)) by (split; [done | ints]). cbn [chain_err].
  destruct (Z.ltb_spec (unbonded acct) (sum_by out_value outputs)); [lia|]. fold tx. by rewrite Es.
Qed.

(** A withdrawal takes everything.  For an account with unbonded stake that is free, the
    client makes a withdrawal to any outputs up to that stake, and whenever the outputs are
    locked as the chain wants and leave at least the minimal fee, the chain accepts it and
    empties the unbonded stake: whatever the outputs do not take is paid as a fee, however
    much it is; the client does not warn. *)
Theorem withdrawal_forfeits_rest outputs attrs info (w : World S) :
  wallet_at (disk w) p name x → is_jailed acct = false → unbonded_from acct ≤ now →
  outputs ≠ [] → Forall (λ o, coin_ok (out_value o) ∧ 0 < out_value o ∧ valid_from o = Some (unbonded_from acct)) outputs →
  coin_ok (min_fee_computed info) → sum_by out_value outputs + min_fee_computed info ≤ unbonded acct →
  info_chain_hex_id info = chain_hex_id attrs → unbonded_from acct ≤ previous_block_time info →
  ∃ tx sig, withdraw_outputs tx = outputs
    ∧ verify_tx_recover_address sig (transaction_id withdraw_codec tx) = Ok (BasicRedeem a)
    ∧ create_withdraw_unbonded_stake_transaction self name p (BasicRedeem a) outputs attrs w
      = pure_run (net_encrypt self (SignedWithdraw tx acct sig)) w
    ∧ verify_unbonded_withdraw tx info acct
      = Some (Ok (unbonded acct - sum_by out_value outputs, Some (withdraw acct)))
    ∧ unbonded (withdraw acct) = 0.
Proof.
  intros Hx Hj Ht Hne Hall Hm Hsum Hc Hp. apply Forall_and in Hall as [Ho Hall]. apply Forall_and in Hall as [Hpos Hlock].
  destruct (withdraw_made outputs attrs w Hx Hj Ht Ho) as (sig & Hr & Hmade); [ints|].
  eexists _, sig. split; [|split; [exact Hr|split; [exact Hmade|]]]; [done|]. split; [|done].
  apply verify_unbonded_withdraw_ok; [apply acct_ok | done | done |]. split; [|done]. split_and!; try done.
  exists (sum_by out_value outputs). unfold outputs_pay, pays_fee. cbn [withdraw_outputs]. split_and!; try done; lia.
Qed.
End composed.

(** ** Withdrawing everything *)

Section withdraw_all.
Context `{OsRng, Hashes, AeadLaws, ScaleLaws, !ScaleSizes, Hex, ClientKeys, TimeLib, TendermintLib, Base64, !EpochTime}.
Context `{KeyValueDBLaws, BitVecLib, StarlingLaws, VarInt, QueryJson, !EnclaveProxy, SgxLaws, EnclaveBuild}.
Context {S : Type} `{!Store S, !StoreLaws S, !ClientKeysLaws, !Secp256k1Laws}.

(** The service lets the enclave encrypt a withdrawal. *)
Definition withdraws_by_enclave (encrypt_tx : Obfuscation) : Prop :=
  ∀ tx acct sig txaux, encrypt_tx (SignedWithdraw tx acct sig) = Some (Ok txaux) →
    ∃ e pl e', encrypt e {| to_payload := enc plain_tx_aux_codec (PlainWithdrawUnbondedStakeTx tx);
                            to_txid := transaction_id withdraw_codec tx |} = Some (pl, e')
      ∧ txaux = EnclaveTx (WithdrawUnbondedStakeTx (as_u16 (Z.of_nat (length (withdraw_outputs tx)))) sig pl).

Context (self : NetworkOps (F := LinearFee)) (app : ChainNodeApp) (s : ChainNodeState) (m : gmap (list byte) StakedState).
Hypothesis node_answers : answers (net_client self) app.
Hypothesis node_state : last_state app = Some s.
Hypothesis node_accounts : holds (accounts app) (account_root (top_level s)) m.
Context (name p : str) (x : Wallet) (a : RedeemAddress) (acct : StakedState).
Hypothesis listed : lists_staking (BasicRedeem a) x.
Hypothesis on_chain : m !! to_stake_key (BasicRedeem a) = Some acct.
Hypothesis its_address : address acct = BasicRedeem a.
Context (status : Status) (now : Timespec).
Hypothesis its_status : client_status (net_client self) = Ok status.
Hypothesis its_time : since_epoch (latest_block_time status) = Some now.

Lemma withdraw_all_made to attrs (w w' : World S) txaux :
  wallet_at (disk w) p name x →
  create_withdraw_all_unbonded_stake_transaction self name p (BasicRedeem a) to attrs w = Some (Ok txaux, w') →
  let out v := tx_out_new_with_timelock to v (unbonded_from acct) in
  ∃ mock est sig, is_jailed acct = false
    ∧ mock_txaux_for_withdraw {| withdraw_nonce := 0; withdraw_outputs := [out 0]; withdraw_attributes := attrs |} = Some mock
    ∧ calculate_for_txaux (net_fee_algorithm self) mock = Ok est ∧ coin_ok est ∧ est < unbonded acct
    ∧ let tx := {| withdraw_nonce := nonce acct; withdraw_outputs := [out (unbonded acct - est)];
                   withdraw_attributes := attrs |} in
      verify_tx_recover_address sig (transaction_id withdraw_codec tx) = Ok (BasicRedeem a)
      ∧ net_encrypt self (SignedWithdraw tx acct sig) = Some (Ok txaux).
Proof.
  intros Hx Hmade out. unfold create_withdraw_all_unbonded_stake_transaction, mbind, sem_bind in Hmade.
  rewrite (staked_state_read self app s m node_answers node_state node_accounts name p x a acct listed on_chain its_address w Hx) in Hmade.
  unfold pure_res, verify_unjailed in Hmade. destruct (is_jailed acct) eqn:Ej; [done|]. cbn [chain_err] in Hmade.
  unfold pure_run at 1, net_calculate_fee in Hmade. fold (out coin_zero) in Hmade.
  destruct (mock_txaux_for_withdraw _) as [mock|] eqn:Em; [|done]. cbn [mbind option_bind] in Hmade.
  destruct (calculate_for (net_fee_algorithm self) mock) as [est|] eqn:Ee; [|done]. cbn [chain_err run_bind] in Hmade.
  pose proof (calculate_for_coin _ _ _ Ee) as Hest. pose proof (acct_ok app s m node_accounts a acct on_chain) as (_ & _ & Hu & _).
  unfold fee_to_coin in Hmade. destruct (coin_sub (unbonded acct) est) as [amount|] eqn:Ec; [|done]. cbn [chain_err] in Hmade.
  apply coin_sub_ok in Ec as [-> Hle]; [|done|ints].
  destruct (check_outputs_basic _) as [u|] eqn:Eo; [|done]. cbn [chain_err] in Hmade.
  apply check_outputs_basic_ok in Eo as [_ Hpos]. apply Forall_cons in Hpos as [Hpos _]. cbn in Hpos.
  destruct (decide (unbonded_from acct ≤ now)) as [Ht|Ht].
  2:{ exfalso. unfold create_withdraw_unbonded_stake_transaction, mbind, sem_bind, get_last_block_time in Hmade.
      unfold pure_run at 1 in Hmade. rewrite its_status in Hmade. cbn [run_bind] in Hmade. rewrite its_time in Hmade.
      cbn [mbind option_bind] in Hmade.
      rewrite (staked_state_read self app s m node_answers node_state node_accounts name p x a acct listed on_chain its_address w Hx) in Hmade.
      destruct (Z.ltb_spec now (unbonded_from acct)); [done | lia]. }
  destruct (withdraw_made self app s m node_answers node_state node_accounts name p x a acct listed on_chain its_address status now
    its_status its_time [out (unbonded acct - est)] attrs w Hx Ej Ht) as (sig & Hr & E).
  { apply Forall_singleton. cbn. ints. } { rewrite sum_by_cons, sum_by_nil. cbn. ints. }
  fold (out (unbonded acct - est)) in Hmade. rewrite E in Hmade. unfold pure_run in Hmade.
  destruct (net_encrypt _ _) as [r|] eqn:En; [|done]. injection Hmade as -> _.
  exists mock, est, sig. split_and!; try done. lia.
Qed.

(** C32. Withdrawing everything works by luck.  When the client withdraws the whole unbonded
    stake of an account, less the fee that it computes from a mock of the transaction, and
    the enclave encrypts the withdrawal, the payload opens to the withdrawal, it is signed
    for the account, and yet the chain, with the fee of the encrypted transaction as the
    minimum, accepts it exactly when the length of the plain payload is a multiple of
    sixteen: the mock pads the payload to whole blocks, but the cipher does not pad and
    adds a tag of sixteen bytes, so that otherwise the fee falls short. *)
Theorem withdraw_all_accepted_iff to attrs info (w w' : World S) txaux :
  wallet_at (disk w) p name x → withdraws_by_enclave (net_encrypt self) →
  fee_fits (net_fee_algorithm self) (Z.of_nat (length (enc tx_aux_codec txaux))) → 1000 ≤ coefficient (net_fee_algorithm self) →
  create_withdraw_all_unbonded_stake_transaction self name p (BasicRedeem a) to attrs w = Some (Ok txaux, w') →
  calculate_for_txaux (net_fee_algorithm self) txaux = Ok (min_fee_computed info) →
  info_chain_hex_id info = chain_hex_id attrs → unbonded_from acct ≤ previous_block_time info →
  ∃ est sig pl, coin_ok est ∧ est < unbonded acct ∧ txaux = EnclaveTx (WithdrawUnbondedStakeTx 1 sig pl)
    ∧ let tx := {| withdraw_nonce := nonce acct;
                   withdraw_outputs := [tx_out_new_with_timelock to (unbonded acct - est) (unbonded_from acct)];
                   withdraw_attributes := attrs |} in
    verify_tx_recover_address sig (txid pl) = Ok (BasicRedeem a)
    ∧ aead_decrypt MOCK_KEY (init_vector pl) (txid pl) (txpayload pl)
      = Some (enc plain_tx_aux_codec (PlainWithdrawUnbondedStakeTx tx))
    ∧ ((∃ r, verify_unbonded_withdraw tx info acct = Some (Ok r))
       ↔ (length (enc plain_tx_aux_codec (PlainWithdrawUnbondedStakeTx tx)) mod 16 = 0)%nat).
Proof.
  intros Hx Henc Hfit Hcoef Hmade Hmin Hc Hp.
  destruct (withdraw_all_made _ _ _ _ _ Hx Hmade) as (mock & est & sig & Hj & Em & Ee & Hest & Hlt & Hr & En).
  set (tx := {| withdraw_nonce := nonce acct |}) in *.
  pose proof (acct_ok app s m node_accounts a acct on_chain) as (Hn & _ & Hu & _).
  destruct (Henc _ _ _ _ En) as (e & pl & e' & Hen & ->). destruct (encrypt_envelope _ _ _ _ _ (transaction_id_length _ _) Hen)
    as (Hpl & Hid & Hlen). exists est, sig, pl. do 3 (split; [done|]). cbv zeta. fold tx.
  split; [by rewrite Hid|]. split.
  { unfold encrypt in Hen. destruct (fill_bytes _ _) as [iv r]. cbn [to_txid to_payload] in Hen.
    destruct (aead_encrypt _ _ _ _) as [c|] eqn:Ec; [|done]. cbn [mbind option_bind] in Hen.
    injection Hen as <- _. by apply aead_decrypt_encrypt in Ec. }
  pose proof (calculate_for_coin _ _ _ Hmin) as Hmf.
  assert (Hspec : (∃ r, verify_unbonded_withdraw tx info acct = Some (Ok r)) ↔ min_fee_computed info ≤ est).
  { assert (Hout : Forall (λ o, coin_ok (out_value o)) (withdraw_outputs tx)) by (apply Forall_singleton; cbn; ints).
    assert (Hsum : sum_by out_value (withdraw_outputs tx) = unbonded acct - est)
      by (cbn [tx withdraw_outputs]; rewrite sum_by_cons, sum_by_nil; cbn; lia).
    split.
    - intros [[fee a'] Hv]. apply verify_unbonded_withdraw_ok in Hv as [(_ & _ & _ & _ & _ & total & (_ & _ & Ht) & Hpay) _]; [|done..].
      destruct Hpay. lia.
    - intros Hle. exists (est, Some (withdraw acct)). apply verify_unbonded_withdraw_ok; [done..|]. split; [|done].
      split_and!; try done; [by apply Forall_singleton|]. exists (unbonded acct - est). split; [|split; lia].
      split_and!; [done | apply Forall_singleton; cbn; lia | done]. }
  rewrite Hspec. destruct (withdraw_mock_size tx mock _ pl Em Hpl Hlen
    (plain_withdraw_size 0 (nonce acct) to 0 (unbonded acct - est) (unbonded_from acct) attrs ltac:(ints) Hn ltac:(ints) ltac:(ints))
    1 sig ltac:(done)) as [Heq Hshort].
  split.
  - intros Hle. destruct (decide (length (enc plain_tx_aux_codec (PlainWithdrawUnbondedStakeTx tx)) mod 16 = 0)%nat) as [|Hne]; [done|].
    assert (est < min_fee_computed info); [|lia]. eapply estimate_strict; [exact Hfit | exact Hcoef | | exact Ee | exact Hmin].
    split; [lia|]. apply inj_lt, Hshort, Hne.
  - intros Hz. unfold calculate_for_txaux in Ee, Hmin. rewrite (Heq Hz) in Ee. 
    assert (E : Ok (E := CoinError) est = Ok (min_fee_computed info)) by (rewrite <- Ee; exact Hmin). injection E as ->. done.
Qed.
End withdraw_all.

(** ** Witnesses *)

Module NetworkExample.
Import HdExample AppExample SyncExample QueryExample RpcExample WalletExample ServerExample.

#[export] Instance tendermint_unit : TendermintLib.
Proof.
  refine {| ValidatorInfo := unit; ValidatorSet := unit; LiteHeader := Empty_set; validator_set_new _ := tt;
            trusted_to_json _ := bstr "{}"; trusted_from_json _ := Some (None, tt); hash_to_string := hex_encode |}.
  intros [[[]|] []]. reflexivity.
Defined.
#[export] Instance epoch_ref : EpochTime := {| since_epoch _ := Some 1000 |}.

(** A wallet with a staking key, and its account in the trie of a node. *)
Definition five : PublicKey := Byte.x05.
Definition its_redeem : RedeemAddress := redeem_address_from_pk five.
Definition its_account : StakedState :=
  {| nonce := 3; bonded := 5000; unbonded := 1000000; unbonded_from := 900; address := BasicRedeem its_redeem;
     punishment := None; council_node := None |}.
Definition the_app : ChainNodeApp := app [its_account].
Definition staking_wallet : Wallet :=
  {| wallet_view_key := five; wallet_public_keys := []; wallet_staking_keys := [five]; root_hashes := [] |}.
Definition pass : str := bstr "secret".
Definition the_name : str := bstr "wallet".
Definition stored : World (gmap (list byte) (gmap (list byte) (list byte))) :=
  match (_ ← add_keypair secret five pass; save_wallet the_name pass staking_wallet) fresh with
  | Some (_, w) => w
  | None => fresh
  end.

Definition the_status : Status := {| latest_block_height := 2; latest_app_hash := None; latest_block_time := tt |}.
Definition node_client : Client := {|
  client_genesis_validators := Ok [];
  client_status := Ok the_status;
  client_block _ := Err Kind.InvalidInput;
  client_block_results _ := Err Kind.InvalidInput;
  client_block_results_batch _ := Err Kind.InvalidInput;
  client_block_batch_verified _ _ := Err Kind.InvalidInput;
  client_broadcast_transaction _ := Ok tt;
  client_query path data :=
    match query_handler the_app {| req_path := path; req_data := data; req_height := 0; req_prove := false |} with
    | Some r => if q_code r =? 0 then Ok {| query_value := Some (base64_encode (q_value r)) |} else Err Kind.TendermintRpcError
    | None => Err Kind.ConnectionError
    end;
  client_query_state_batch _ := Err Kind.InvalidInput;
|}.

Definition seal_withdrawal (t : SignedTransaction) : run ErrorKind TxAux :=
  match t with
  | SignedWithdraw tx _ sig =>
      '(p, _) ← encrypt enclave_example {| to_payload := enc plain_tx_aux_codec (PlainWithdrawUnbondedStakeTx tx);
                                           to_txid := transaction_id withdraw_codec tx |};
      Some (Ok (EnclaveTx (WithdrawUnbondedStakeTx (as_u16 (Z.of_nat (length (withdraw_outputs tx)))) sig p)))
  | _ => Some (Err Kind.InvalidInput)
  end.
Definition ops : NetworkOps (F := LinearFee) :=
  {| net_client := node_client; net_fee_algorithm := fee_alg; net_encrypt := seal_withdrawal |}.
Definition chain_info (fee : Fee) : ChainInfo :=
  {| min_fee_computed := fee; info_chain_hex_id := 171; previous_block_time := 1000; info_unbonding_period := 60 |}.
Definition node_info : NodeInfo :=
  {| minimal_stake := 10; tendermint_validator_addresses := ∅; validator_voting_power := ∅ |}.

Lemma its_own_status : client_status (net_client ops) = Ok the_status.
Proof. reflexivity. Qed.

Lemma its_own_time : since_epoch (latest_block_time the_status) = Some 1000.
Proof. reflexivity. Qed.

Lemma the_node_answers : answers node_client the_app.
Proof. intros path data r Hq. cbn [client_query node_client]. by rewrite Hq. Qed.

Lemma the_node_holds : holds (accounts the_app) (account_root (top_level (state [its_account]))) (accmap_of [its_account]).
Proof. apply app_holds_example. apply Forall_singleton. vm_compute. repeat split; discriminate. Qed.

Lemma five_owned : owned (disk stored) pass five.
Proof.
  exists secret. split; [|reflexivity].
  vm_cast_no_check (@eq_refl (run ErrorKind (option (list byte))) (Some (Ok (Some (sk_serialize secret))))).
Qed.

Lemma wallet_stored : wallet_at (disk stored) pass the_name staking_wallet.
Proof.
  split.
  - vm_cast_no_check (@eq_refl (run ErrorKind (option (list byte))) (Some (Ok (Some (enc wallet_codec staking_wallet))))).
  - split; [split; constructor|]. split; [split; [repeat constructor | apply NoDup_singleton]|].
    split; [split; constructor | constructor].
  - vm_compute. discriminate.
  - exact five_owned.
  - constructor.
  - constructor; [exact five_owned | constructor].
  - constructor.
Qed.

Lemma five_listed : lists_staking (BasicRedeem its_redeem) staking_wallet.
Proof. exists five. split; [left | reflexivity]. Qed.

Lemma account_there : accmap_of [its_account] !! to_stake_key (BasicRedeem its_redeem) = Some its_account.
Proof. apply lookup_insert_eq. Qed.

Lemma staking_operations_checked_witness :
  ∃ txaux, create_unbond_stake_transaction ops the_name pass (BasicRedeem its_redeem) 100
             {| op_chain_hex_id := 171 |} stored = Some (Ok txaux, stored)
    ∧ ∃ r, verify_public_tx txaux (chain_info 5) node_info [] (accounts the_app) = Some (Ok r).
Proof.
  destruct (staking_operations_checked ops the_app (state [its_account]) (accmap_of [its_account]) the_node_answers eq_refl
    the_node_holds the_name pass staking_wallet its_redeem its_account five_listed account_there eq_refl
    (chain_info 5) node_info stored wallet_stored ltac:(split; vm_compute; discriminate)) as (Hu & _).
  destruct (Hu 100 {| op_chain_hex_id := 171 |}) as [[[Hj|Hb] _]|(_ & _ & txaux & Hmade & Hacc)].
  - split; vm_compute; discriminate.
  - vm_compute. discriminate.
  - discriminate Hj.
  - vm_compute in Hb. discriminate Hb.
  - exists txaux. split; [exact Hmade|]. apply Hacc. vm_compute. repeat split; discriminate.
Defined.

Definition part : list TxOut := [tx_out_new_with_timelock (OrTree mine) 400000 900].

Lemma withdrawal_forfeits_rest_witness :
  ∃ tx sig, withdraw_outputs tx = part
    ∧ create_withdraw_unbonded_stake_transaction ops the_name pass (BasicRedeem its_redeem) part attrs stored
      = pure_run (net_encrypt ops (SignedWithdraw tx its_account sig)) stored
    ∧ verify_unbonded_withdraw tx (chain_info 5) its_account = Some (Ok (600000, Some (withdraw its_account))).
Proof.
  destruct (withdrawal_forfeits_rest ops the_app (state [its_account]) (accmap_of [its_account]) the_node_answers eq_refl
    the_node_holds the_name pass staking_wallet its_redeem its_account five_listed account_there eq_refl
    the_status 1000 its_own_status its_own_time
    part attrs (chain_info 5) stored wallet_stored eq_refl ltac:(vm_compute; discriminate) ltac:(discriminate))
    as (tx & sig & Ho & _ & Hmade & Hv & _).
  - apply Forall_singleton. vm_compute. repeat split; discriminate.
  - split; vm_compute; discriminate.
  - vm_compute. discriminate.
  - reflexivity.
  - vm_compute. discriminate.
  - exists tx, sig. split; [exact Ho|]. split; [exact Hmade | exact Hv].
Defined.

Lemma seals_withdrawals : withdraws_by_enclave seal_withdrawal.
Proof.
  intros tx acct sig txaux Ha. unfold seal_withdrawal in Ha. destruct (encrypt _ _) as [[p e']|] eqn:Ee; [|done].
  cbn [mbind option_bind] in Ha. injection Ha as <-. by exists enclave_example, p, e'.
Qed.

Definition all_made : bool :=
  match create_withdraw_all_unbonded_stake_transaction ops the_name pass (BasicRedeem its_redeem) (OrTree mine) attrs stored with
  | Some (Ok txaux, _) =>
      match calculate_for_txaux fee_alg txaux with Ok _ => true | Err _ => false end
      && (length (enc tx_aux_codec txaux) <=? 1000)%nat
  | _ => false
  end.
Lemma all_made_true : all_made = true.
Proof. vm_cast_no_check (@eq_refl bool true). Qed.

(** A withdrawal without view keys is not a whole number of blocks. *)
Lemma plain_length tx :
  withdraw_nonce tx = 3 → (∃ v, coin_ok v ∧ withdraw_outputs tx = [tx_out_new_with_timelock (OrTree mine) v 900]) →
  withdraw_attributes tx = attrs →
  (length (enc plain_tx_aux_codec (PlainWithdrawUnbondedStakeTx tx)) mod 16 ≠ 0)%nat.
Proof.
  destruct tx as [n o at']. cbn [withdraw_nonce withdraw_outputs withdraw_attributes]. intros -> (v & Hv & ->) ->.
  rewrite (plain_withdraw_size 3 3 (OrTree mine) v 0 900 attrs) by (done || (split; vm_compute; discriminate)).
  vm_compute. discriminate.
Qed.

Lemma withdraw_all_accepted_iff_witness :
  ∃ txaux w' fee tx,
    create_withdraw_all_unbonded_stake_transaction ops the_name pass (BasicRedeem its_redeem) (OrTree mine) attrs stored
    = Some (Ok txaux, w')
    ∧ calculate_for_txaux fee_alg txaux = Ok fee
    ∧ withdraw_nonce tx = 3 ∧ withdraw_attributes tx = attrs
    ∧ ¬ ∃ r, verify_unbonded_withdraw tx (chain_info fee) its_account = Some (Ok r).
Proof.
  pose proof all_made_true as Ha. unfold all_made in Ha.
  destruct (create_withdraw_all_unbonded_stake_transaction _ _ _ _ _ _ _) as [[[txaux|] w']|] eqn:Em; [|discriminate Ha..].
  destruct (calculate_for_txaux fee_alg txaux) as [fee|] eqn:Ef; [|discriminate Ha]. apply andb_true_iff in Ha as [_ Hl].
  apply Nat.leb_le in Hl.
  destruct (withdraw_all_accepted_iff ops the_app (state [its_account]) (accmap_of [its_account]) the_node_answers eq_refl
    the_node_holds the_name pass staking_wallet its_redeem its_account five_listed account_there eq_refl
    the_status 1000 its_own_status its_own_time
    (OrTree mine) attrs (chain_info fee) stored w' txaux wallet_stored seals_withdrawals) as (est & sig & pl & He & Hlt & _ & _ & _ & Hiff).
  - unfold fee_fits. cbn [net_fee_algorithm ops fee_alg constant coefficient]. unfold is_u64, U64_MAX. lia.
  - vm_compute. discriminate.
  - exact Em.
  - exact Ef.
  - reflexivity.
  - vm_compute. discriminate.
  - eexists txaux, w', fee, _. split; [reflexivity|]. split; [exact Ef|]. split; [|split; [|rewrite Hiff]]; [reflexivity..|].
    apply plain_length; [reflexivity | | reflexivity]. exists (unbonded its_account - est). split; [|reflexivity].
    unfold coin_ok in *. change (unbonded its_account) with 1000000 in *. unfold MAX_COIN in *. lia.
Defined.
End NetworkExample.
