(* ===== verification/TxQuery.v ===== *)
(** * TxQuery: the transaction query enclave and the wallets that talk to it

    Models [src/chain-tx-enclave/tx-query/enclave/src/lib.rs], the calls out of the
    enclave in [src/chain-tx-enclave/tx-query/app/src/enclave_u/mod.rs], the signed
    decryption requests of [src/enclave-protocol/src/lib.rs], and the wallet's side,
    [src/client-core/src/cipher/default.rs].  Both ends of a connection are programs of
    type [session], trees of reads, writes and calls out; [trace] is what they can do
    with an arbitrary peer and an arbitrary host, [converse] runs a wallet against the
    enclave of a host that runs the validation server.  TLS gives each write of at most
    one record to one read; remote attestation is not modelled.

    The theorems: whatever the peer and the host do, a transaction leaves the enclave only
    for a view key it allows, whose owner signed the fresh challenge; what a wallet gets
    for identifiers that the server keeps; what a wallet gets for a transaction it wants
    encrypted. *)

From stdpp Require Import base tactics option list gmap strings.
From Stdlib Require Import ZArith Lia.
From S2P Require Import Prelude Text Codec Milli Coin Crypto Merkle Params Account TxTypes.
From S2P Require Import Validation BitVec Filter EnclaveProtocol EnclaveCodec Enclave EnclaveServer ServerContract.
From S2P Require Import Client WalletBuilder WalletFee Syncer.

(** ** Signatures *)

(** What the decryption requests use of [secp256k1]: signatures without recovery. *)
Class Ecdsa `{ClientKeys} := {
  Signature : Type;
  secp_sign : H256 → PrivateKey → Signature;
  secp_verify : H256 → Signature → PublicKey → result SecpError unit;
  signature_serialize_compact : Signature → H512;
  signature_from_compact : H512 → result SecpError Signature;
}.

Class EcdsaLaws `{Ecdsa} : Prop := {
  secp_verify_sign msg sk : secp_verify msg (secp_sign msg sk) (pk_from_secret_key sk) = Ok ();
  signature_from_serialize s : signature_from_compact (signature_serialize_compact s) = Ok s;
  signature_serialize_length s : length (signature_serialize_compact s) = 64%nat;
}.

(** ** Messages *)

Section messages.
Context `{Hashes, Scale, Ecdsa}.

Definition encryption_response_codec : codec (result Error TxEnclaveAux) :=
  result_codec error_codec tx_enclave_aux_codec.

Definition init_request_codec : codec TxQueryInitRequest :=
  Codec (λ r, match r with
              | QueryEncrypt request => Byte.x00 :: enc encryption_request_codec request
              | QueryDecryptChallenge => [Byte.x01]
              end)
    (tag ⇐ read_byte;
     if decide (tag = Byte.x00) then (r ⇐ dec encryption_request_codec; dret (QueryEncrypt r))
     else if decide (tag = Byte.x01) then dret QueryDecryptChallenge else dfail).

Definition init_response_codec : codec TxQueryInitResponse :=
  Codec (λ r, match r with
              | RespQueryEncrypt resp => Byte.x00 :: enc encryption_response_codec resp
              | RespQueryDecryptChallenge challenge => Byte.x01 :: enc (array_codec 32) challenge
              end)
    (tag ⇐ read_byte;
     if decide (tag = Byte.x00) then (r ⇐ dec encryption_response_codec; dret (RespQueryEncrypt r))
     else if decide (tag = Byte.x01) then (c ⇐ dec (array_codec 32); dret (RespQueryDecryptChallenge c))
     else dfail).

Definition body_codec : codec DecryptionRequestBody :=
  Codec (λ b, enc (vec_codec (array_codec 32)) (body_txs b) ++ enc (array_codec 33) (pk_serialize (body_view_key b))
              ++ enc (array_codec 32) (body_challenge b))
    (txs ⇐ dec (vec_codec (array_codec 32)); view_key_bytes ⇐ dec (array_codec 33);
     match pk_from_slice view_key_bytes with
     | Ok view_key => challenge ⇐ dec (array_codec 32);
                      dret {| body_txs := txs; body_view_key := view_key; body_challenge := challenge |}
     | Err _ => dfail
     end).

Record DecryptionRequest := { request_body : DecryptionRequestBody; view_key_sig : Signature }.

Definition decryption_request_codec : codec DecryptionRequest :=
  Codec (λ r, enc body_codec (request_body r) ++ enc (array_codec 64) (signature_serialize_compact (view_key_sig r)))
    (body ⇐ dec body_codec; view_sig_bytes ⇐ dec (array_codec 64);
     match signature_from_compact view_sig_bytes with
     | Ok sig => dret {| request_body := body; view_key_sig := sig |}
     | Err _ => dfail
     end).

Definition decryption_request_create (txs : list TxId) (challenge : H256) (view_secret_key : PrivateKey) :
  option DecryptionRequest :=
  let body := {| body_txs := txs; body_view_key := pk_from_secret_key view_secret_key; body_challenge := challenge |} in
  message ← unwrap (message_from_slice (txid_hash (enc body_codec body)));
  Some {| request_body := body; view_key_sig := secp_sign message view_secret_key |}.

Definition decryption_request_verify (self : DecryptionRequest) (challenge : H256) : option (result SecpError unit) :=
  if decide (body_challenge (request_body self) = challenge) then
    message ← unwrap (message_from_slice (txid_hash (enc body_codec (request_body self))));
    Some (secp_verify message (view_key_sig self) (body_view_key (request_body self)))
  else Some (Err InvalidMessage).

Definition decryption_response_codec : codec (list TxWithOutputs) := vec_codec tx_with_outputs_codec.
End messages.

(** ** Programs at the ends of a connection *)

Inductive session (R : Type) : Type :=
  | Ret (r : R)
  | Panic
  | Read (max : nat) (k : option (list byte) → session R)
  | ReadExact (n : nat) (k : option (list byte) → session R)
  | ReadToEnd (k : option (list byte) → session R)
  | Write (bytes : list byte) (k : bool → session R)
  | Flush (k : bool → session R)
  | Shutdown (k : session R)
  | Ocall (request : list byte) (response_len : nat) (k : sgx_status * sgx_status * list byte → session R).
Arguments Ret {R} r.
Arguments Panic {R}.
Arguments Read {R} max k.
Arguments ReadExact {R} n k.
Arguments ReadToEnd {R} k.
Arguments Write {R} bytes k.
Arguments Flush {R} k.
Arguments Shutdown {R} k.
Arguments Ocall {R} request response_len k.

Fixpoint session_bind {A B} (f : A → session B) (s : session A) : session B :=
  match s with
  | Ret a => f a
  | Panic => Panic
  | Read max k => Read max (λ r, session_bind f (k r))
  | ReadExact n k => ReadExact n (λ r, session_bind f (k r))
  | ReadToEnd k => ReadToEnd (λ r, session_bind f (k r))
  | Write bytes k => Write bytes (λ r, session_bind f (k r))
  | Flush k => Flush (λ r, session_bind f (k r))
  | Shutdown k => Shutdown (session_bind f k)
  | Ocall request len k => Ocall request len (λ r, session_bind f (k r))
  end.
#[global] Instance session_mbind : MBind session := λ A B, session_bind.
#[global] Instance session_mret : MRet session := λ A, Ret.

(** ** The enclave *)

Section query_enclave.
Context `{Hashes, Scale, Ecdsa, Sgx}.

(** The lengths given to the calls fit 32 bits: a request has at most 60 KB. *)
Definition process_decryption_request (body : DecryptionRequestBody) : session (option (list TxWithOutputs)) :=
  Ocall (enc enclave_request_codec (GetSealedTxData (body_txs body))) (length (body_txs body) * Z.to_nat 8000)
    (λ '(result, rt, inputs_buf),
      if decide (result = SGX_SUCCESS ∧ rt = SGX_SUCCESS) then
        match decode enclave_response_codec inputs_buf with
        | Some (RespGetSealedTxData (Some inputs)) =>
            Ret (check_unseal (Some (body_view_key body)) true (body_txs body) inputs)
        | _ => Ret None
        end
      else Ret None).

Definition fails (status : sgx_status) : session sgx_status := Shutdown (Ret status).

(** What follows the read of the signed request. *)
Definition answer_request (challenge : H256) (plain : option (list byte)) : session sgx_status :=
  match plain with
  | Some plain =>
      match decode decryption_request_codec plain with
      | Some dr =>
          match decryption_request_verify dr challenge with
          | None => Panic
          | Some (Err _) => fails SGX_ERROR_INVALID_PARAMETER
          | Some (Ok _) =>
              reply ← process_decryption_request (request_body dr);
              match reply with
              | Some reply => Write (enc decryption_response_codec reply) (λ _, Flush (λ _, Ret SGX_SUCCESS))
              | None => fails SGX_ERROR_INVALID_PARAMETER
              end
          end
      | None => fails SGX_ERROR_INVALID_PARAMETER
      end
  | None => fails SGX_ERROR_UNEXPECTED
  end.

Definition handle_decryption_request (r : Rng) : session sgx_status :=
  let challenge := (fill_bytes r 32).1 in
  Write (enc init_response_codec (RespQueryDecryptChallenge challenge)) (λ written,
  if negb written then fails SGX_ERROR_UNEXPECTED else
  Flush (λ _, Read (Z.to_nat ENCRYPTION_REQUEST_SIZE) (answer_request challenge))).

Definition get_sealed_request (r : Rng) (req : EncryptionRequest) (txid : TxId) : option SealedLog :=
  sealed_data ← ok (seal_data r txid (enc encryption_request_codec req)).1;
  to_raw_sealed_data sealed_data.

Definition construct_request (r : Rng) (req : EncryptionRequest) : option QueryEncryptRequest :=
  let '(txid, tx_inputs) :=
    match req with
    | EncTransferTx tx _ => (transaction_id tx_codec tx, Some (inputs tx))
    | EncDepositStake tx _ => (transaction_id deposit_codec tx, Some (deposit_inputs tx))
    | EncWithdrawStake tx _ _ => (transaction_id withdraw_codec tx, None)
    end in
  (λ sealed, {| query_txid := txid; query_sealed_enc_request := sealed; query_tx_inputs := tx_inputs |})
    <$> get_sealed_request r req txid.

(** The public transaction around an encrypted payload. *)
Definition public_tx (req : EncryptionRequest) (payload : TxObfuscated) : TxEnclaveAux :=
  match req with
  | EncTransferTx tx _ => TransferTx (inputs tx) (as_u16 (Z.of_nat (length (outputs tx)))) payload
  | EncDepositStake tx _ => DepositStakeTx tx payload
  | EncWithdrawStake tx _ witness =>
      WithdrawUnbondedStakeTx (as_u16 (Z.of_nat (length (withdraw_outputs tx)))) witness payload
  end.

Definition handle_encryption_request (r : Rng) (req : EncryptionRequest) : session sgx_status :=
  match construct_request r req with
  | None => fails SGX_ERROR_UNEXPECTED
  | Some qreq =>
      let req_enc := enc enclave_request_codec (EncryptTx qreq) in
      Ocall req_enc (length req_enc) (λ '(result, rt, result_buf),
      if decide (result ≠ SGX_SUCCESS) then Ret result
      else if decide (rt ≠ SGX_SUCCESS) then Ret rt
      else
        match decode enclave_response_codec result_buf with
        | Some (RespEncryptTx encresp) =>
            Write (enc encryption_response_codec (public_tx req <$> encresp)) (λ _,
            Flush (λ _, Ret SGX_SUCCESS))
        | _ => Ret SGX_ERROR_INVALID_PARAMETER
        end)
  end.

(** [SgxRng::new] and sealing draw from the generator [r]. *)
Definition run_server (r : Rng) : session sgx_status :=
  Read (Z.to_nat ENCRYPTION_REQUEST_SIZE) (λ plain,
  match plain with
  | Some plain =>
      match decode init_request_codec plain with
      | Some (QueryEncrypt req) => handle_encryption_request r req
      | Some QueryDecryptChallenge => handle_decryption_request r
      | None => fails SGX_ERROR_INVALID_PARAMETER
      end
  | None => fails SGX_ERROR_UNEXPECTED
  end).
End query_enclave.

(** ** The host and the wallet *)

Section network.
Context `{Hashes, Scale, Ecdsa, BitVecLib, Sgx, Aead, EnclaveBuild, Sled}.

(** A call out of the enclave: the request goes to the validation server, whose answer is
    copied into the buffer of the enclave when it fits. *)
Definition ocall_get_txs (server : TxValidationServer) (request : list byte) (response_len : nat) :
  option (sgx_status * list byte * TxValidationServer) :=
  '(msg, server) ← server_step server request;
  Some (if (response_len <? length msg)%nat then (SGX_ERROR_UNEXPECTED, replicate response_len Byte.x00, server)
        else (SGX_SUCCESS, msg ++ replicate (response_len - length msg) Byte.x00, server)).

Definition ocall_encrypt_request := ocall_get_txs.

(** The largest fragment of TLS. *)
Definition tls_fragment : nat := Z.to_nat 16384.
Definition records (bytes : list byte) : list (list byte) := chunks tls_fragment bytes.

(** The server's end runs until it waits for a record, or, when the other end sends
    nothing more, to its end: a read then fails, by the timeout or the end of the stream. *)
Fixpoint serve {A} (s : session A) (inbox : list (list byte)) (over : bool) (host : TxValidationServer)
    (out : list byte) : option (session A * list (list byte) * list byte * TxValidationServer) :=
  match s with
  | Ret _ | Panic => Some (s, inbox, out, host)
  | Read max k =>
      match inbox with
      | [] => if over then serve (k None) [] over host out else Some (s, [], out, host)
      | r :: rest =>
          serve (k (Some (take max r))) (if (max <? length r)%nat then drop max r :: rest else rest) over host out
      end
  | ReadExact _ k | ReadToEnd k => serve (k None) inbox over host out
  | Write bytes k => serve (k true) inbox over host (out ++ bytes)
  | Flush k => serve (k true) inbox over host out
  | Shutdown k => serve k inbox over host out
  | Ocall request len k =>
      '(rt, buf, host) ← ocall_get_txs host request len;
      serve (k (SGX_SUCCESS, rt, buf)) inbox over host out
  end.

(** The wallet's end, with the server's end, the records on their way to the server and
    the bytes on their way back. *)
Fixpoint converse {A B} (c : session A) (s : session B) (inbox : list (list byte)) (out : list byte)
    (host : TxValidationServer) : option (A * TxValidationServer) :=
  match c with
  | Ret r => '(_, _, _, host) ← serve s inbox true host out; Some (r, host)
  | Panic => None
  | Write bytes k => converse (k true) s (inbox ++ records bytes) out host
  | Flush k => converse (k true) s inbox out host
  | Shutdown k => converse k s inbox out host
  | ReadExact n k =>
      '(s, inbox, out, host) ← serve s inbox false host out;
      if (n <=? length out)%nat then converse (k (Some (take n out))) s inbox (drop n out) host
      else
        '(s, inbox, out, host) ← serve s inbox true host out;
        if (n <=? length out)%nat then converse (k (Some (take n out))) s inbox (drop n out) host
        else converse (k None) s inbox [] host
  | ReadToEnd k =>
      '(s, inbox, out, host) ← serve s inbox true host out;
      converse (k (Some out)) s inbox [] host
  | Read _ k => converse (k None) s inbox out host
  | Ocall _ _ k => None
  end.

(** The service that wallets connect to: the validation server of its host and the number
    of connections so far; the [n]th connection may be refused, and uses the generator
    [rng_at n]. *)
Record Tqe := { tqe_server : TxValidationServer; tqe_served : nat }.
Context (accepts : nat → bool) (rng_at : nat → Rng).

Definition connect {A} (c : session A) (t : Tqe) : option (option A * Tqe) :=
  if accepts (tqe_served t) then
    '(r, server) ← converse c (run_server (rng_at (tqe_served t))) [] [] (tqe_server t);
    Some (Some r, {| tqe_server := server; tqe_served := S (tqe_served t) |})
  else Some (None, {| tqe_server := tqe_server t; tqe_served := S (tqe_served t) |}).

(** ** The wallet's side *)

Definition tx_with_outputs_transaction (tx : TxWithOutputs) : Transaction :=
  match tx with
  | Transfer t => TransferTransaction t
  | StakeWithdraw t => WithdrawUnbondedStakeTransaction t
  end.

Definition or_fail {A} (k : session (result ErrorKind A)) (success : bool) : session (result ErrorKind A) :=
  if success then k else Ret (Err Kind.IoError).

(** The body of the loop of [decrypt] after the connection; an outer error leaves the
    loop. *)
Definition decrypt_attempt (transaction_ids : list TxId) (private_key : PrivateKey) :
  session (result ErrorKind (result ErrorKind (list Transaction))) :=
  Write (enc init_request_codec QueryDecryptChallenge) (or_fail (Flush (or_fail (
  ReadExact 33 (λ challenge,
  match challenge with
  | None => Ret (Err Kind.IoError)
  | Some challenge =>
      match decode init_response_codec challenge with
      | Some (RespQueryDecryptChallenge ch) =>
          match decryption_request_create transaction_ids ch private_key with
          | None => Panic
          | Some request =>
              Write (enc decryption_request_codec request) (or_fail (Flush (or_fail (
              ReadToEnd (λ plaintext,
              Ret (Ok (match plaintext with
                       | Some plaintext =>
                           match decode decryption_response_codec plaintext with
                           | Some txs => Ok (tx_with_outputs_transaction <$> txs)
                           | None => Err Kind.DeserializationError
                           end
                       | None => Err Kind.IoError
                       end)))))))
          end
      | _ => Ret (Err Kind.IoError)
      end
  end))))).

Fixpoint decrypt_attempts (more : nat) (transaction_ids : list TxId) (private_key : PrivateKey) (t : Tqe) :
  option (result ErrorKind (list Transaction) * Tqe) :=
  '(r, t) ← connect (decrypt_attempt transaction_ids private_key) t;
  match r with
  | None => Some (Err Kind.ConnectionError, t)
  | Some (Err e) => Some (Err e, t)
  | Some (Ok result) =>
      match more with
      | O => Some (result, t)
      | S more => if is_ok result then Some (result, t) else decrypt_attempts more transaction_ids private_key t
      end
  end.

Definition obfuscation_decrypt (transaction_ids : list TxId) (private_key : PrivateKey) (t : Tqe) :
  option (result ErrorKind (list Transaction) * Tqe) :=
  match transaction_ids with
  | [] => Some (Ok [], t)
  | _ => decrypt_attempts 2 transaction_ids private_key t
  end.

Definition request_of (transaction : SignedTransaction) : EncryptionRequest :=
  match transaction with
  | SignedTransfer tx witness => EncTransferTx tx witness
  | SignedDeposit tx witness => EncDepositStake tx witness
  | SignedWithdraw tx state witness => EncWithdrawStake tx state witness
  end.

Definition encrypt_session (transaction : SignedTransaction) : session (result ErrorKind TxAux) :=
  Write (enc init_request_codec (QueryEncrypt (request_of transaction))) (or_fail (Flush (or_fail (
  ReadToEnd (λ plaintext,
  Ret (match plaintext with
       | Some plaintext =>
           resp ← chain_none Kind.DeserializationError (decode encryption_response_codec plaintext);
           tx ← chain_err Kind.InvalidInput resp;
           Ok (EnclaveTx tx)
       | None => Err Kind.IoError
       end)))))).

Definition obfuscation_encrypt (transaction : SignedTransaction) (t : Tqe) : option (result ErrorKind TxAux * Tqe) :=
  '(r, t) ← connect (encrypt_session transaction) t;
  Some (match r with Some r => r | None => Err Kind.ConnectionError end, t).
End network.

(** ** What the enclave reveals *)

Inductive event :=
  | Received (bytes : option (list byte))
  | Sent (bytes : list byte)
  | Asked (request : list byte) (answer : sgx_status * sgx_status * list byte).

(** The events at one end, whatever the other end and the host do; the peer may stop at any
    point. *)
Inductive trace {R} : session R → list event → Prop :=
  | trace_stop s : trace s []
  | trace_read max k got t :
      from_option (λ bytes, length bytes ≤ max)%nat True got → trace (k got) t → trace (Read max k) (Received got :: t)
  | trace_read_exact n k got t :
      from_option (λ bytes, length bytes = n) True got → trace (k got) t → trace (ReadExact n k) (Received got :: t)
  | trace_read_to_end k got t : trace (k got) t → trace (ReadToEnd k) (Received got :: t)
  | trace_write bytes k success t : trace (k success) t → trace (Write bytes k) (Sent bytes :: t)
  | trace_flush k success t : trace (k success) t → trace (Flush k) t
  | trace_shutdown k t : trace k t → trace (Shutdown k) t
  | trace_ocall request len k answer t :
      length answer.2 = len → trace (k answer) t → trace (Ocall request len k) (Asked request answer :: t).

(** Everything that a program sends is related to the events before it. *)
Fixpoint sends {R} (P : list event → list byte → Prop) (past : list event) (s : session R) : Prop :=
  match s with
  | Ret _ | Panic => True
  | Read _ k | ReadExact _ k | ReadToEnd k => ∀ got, sends P (past ++ [Received got]) (k got)
  | Write bytes k => P past bytes ∧ ∀ success, sends P (past ++ [Sent bytes]) (k success)
  | Flush k => ∀ success, sends P past (k success)
  | Shutdown k => sends P past k
  | Ocall request _ k => ∀ answer, sends P (past ++ [Asked request answer]) (k answer)
  end.

Lemma trace_sends {R} P (s : session R) t : trace s t →
  ∀ past t1 bytes t2, sends P past s → t = t1 ++ Sent bytes :: t2 → P (past ++ t1) bytes.
Proof.
  induction 1 as [s|max k got t _ _ IH|n k got t _ _ IH|k got t _ IH|b k su t _ IH|k su t _ IH|k t _ IH|q len k ans t _ _ IH];
    intros past t1 bytes t2 Hs Ht; cbn [sends] in Hs; [by destruct t1| | | | |eauto..|].
  all: destruct t1 as [|e t1]; simplify_list_eq; try done.
  all: try (rewrite cons_middle, app_assoc; eapply IH; [|done]; apply Hs).
  rewrite ?app_nil_r. apply Hs.
Qed.

Section reveals.
Context `{Hashes, Scale, Ecdsa, Sgx}.

(** A request that opens a transaction: it came from the peer, and the owner of its view
    key signed it together with the challenge. *)
Definition signed_request (past : list event) (challenge : H256) (dr : DecryptionRequest) : Prop :=
  (∃ plain, Received (Some plain) ∈ past ∧ decode decryption_request_codec plain = Some dr)
  ∧ body_challenge (request_body dr) = challenge
  ∧ secp_verify (txid_hash (enc body_codec (request_body dr))) (view_key_sig dr) (body_view_key (request_body dr)) = Ok ().

Lemma verify_signed past challenge dr plain :
  Received (Some plain) ∈ past → decode decryption_request_codec plain = Some dr →
  decryption_request_verify dr challenge = Some (Ok ()) → signed_request past challenge dr.
Proof.
  intros Hp Hd Hv. split; [by exists plain|]. unfold decryption_request_verify in Hv.
  destruct (decide _) as [He|]; [|done]. split; [done|]. unfold message_from_slice in Hv.
  destruct (_ =? _)%nat; [|done]. cbn in Hv. by injection Hv.
Qed.

(** What the view key of a request may see of sealed data. *)
Definition viewable_for (body : DecryptionRequestBody) (tx : TxWithOutputs) : Prop :=
  body_view_key body ∈ view_key <$> tx_allowed_view tx
  ∧ ∃ i log, i ∈ body_txs body ∧ unseal_tx i log = Some tx.

Lemma is_allowed_view_spec l vk : is_allowed_view l (Some vk) true = true ↔ vk ∈ view_key <$> l.
Proof.
  cbn. rewrite existsb_exists, list_elem_of_fmap. split.
  - intros (x & Hx & He%bool_decide_eq_true). exists x. by rewrite list_elem_of_In.
  - intros (x & -> & Hx%list_elem_of_In). exists x. by rewrite bool_decide_eq_true.
Qed.

Lemma unsealed_viewable body inputs txs :
  check_unseal (Some (body_view_key body)) true (body_txs body) inputs = Some txs → Forall (viewable_for body) txs.
Proof.
  unfold check_unseal.
  assert (Hin : Forall (λ p, p.1 ∈ body_txs body) (zip (body_txs body) inputs)).
  { apply Forall_forall. intros [i l] Hi. by eapply elem_of_zip_l. }
  revert txs Hin. induction (zip _ _) as [|[i log] l IH]; intros txs Hin Hu; cbn [check_unseal_loop] in Hu; [by injection Hu as <-|].
  apply Forall_cons in Hin as [Hi Hin]. destruct (unseal_tx i log) as [tx|] eqn:Ex; [|done]. cbn [mbind option_bind] in Hu.
  destruct (check_unseal_loop _ _ l) as [rest|]; [|done]. specialize (IH _ Hin eq_refl).
  cbn [mbind option_bind] in Hu. destruct (is_allowed_view (tx_allowed_view tx) (Some (body_view_key body)) true) eqn:Ev;
    injection Hu as <-; [|done]. constructor; [|done].
  apply is_allowed_view_spec in Ev. split; [done|]. by exists i, log.
Qed.

(** The messages the enclave may send. *)
Definition may_send (challenge : H256) (past : list event) (bytes : list byte) : Prop :=
  bytes = enc init_response_codec (RespQueryDecryptChallenge challenge)
  ∨ (∃ plain req encresp, Received (Some plain) ∈ past
      ∧ decode init_request_codec plain = Some (QueryEncrypt req)
      ∧ bytes = enc encryption_response_codec (public_tx req <$> encresp)
      ∧ ∃ request answer, Asked request answer ∈ past
          ∧ decode enclave_response_codec answer.2 = Some (RespEncryptTx encresp))
  ∨ (∃ dr txs, signed_request past challenge dr ∧ bytes = enc decryption_response_codec txs
      ∧ Forall (viewable_for (request_body dr)) txs).

#[local] Ltac happened := cbn [app]; rewrite ?elem_of_app, ?elem_of_cons; tauto.

Lemma encryption_sends r req plain :
  decode init_request_codec plain = Some (QueryEncrypt req) →
  sends (may_send (fill_bytes r 32).1) [Received (Some plain)] (handle_encryption_request r req).
Proof.
  intros Hd. unfold handle_encryption_request. destruct (construct_request r req) as [qreq|]; [|done].
  intros [[result rt] buf]. destruct (decide _); [done|]. destruct (decide _); [done|].
  destruct (decode _ buf) as [[]|] eqn:Eb; try done. cbn [sends]. split; [|done]. right. left.
  eexists plain, req, _. split; [happened|]. split; [done|]. split; [done|]. eexists _, (result, rt, buf). split; [|exact Eb]. happened.
Qed.

Lemma decryption_sends r past : sends (may_send (fill_bytes r 32).1) past (handle_decryption_request r).
Proof.
  unfold handle_decryption_request. cbn [sends]. split; [by left|]. intros [|]; cbn [negb]; [|done]. intros _ [plain|]; [|done]. unfold answer_request.
  destruct (decode decryption_request_codec plain) as [dr|] eqn:Ed; [|done].
  destruct (decryption_request_verify _ _) as [[[]|]|] eqn:Ev; [|done..].
  intros [[result rt] buf]. cbn [process_decryption_request mbind session_mbind session_bind].
  destruct (decide _); [|done]. destruct (decode _ buf) as [[]|]; try done. destruct r0 as [inputs|]; [|done].
  cbn. destruct (check_unseal _ _ _ _) as [txs|] eqn:Eu; [|done]. cbn [sends]. split; [|done]. right. right. exists dr, txs.
  split; [|split; [done | by eapply unsealed_viewable]]. eapply verify_signed; [|done..]. happened.
Qed.

(** C33. The query enclave opens transactions only for those who may view them.  Whatever
    a peer sends and whatever the host answers, each message that the enclave sends is the
    challenge it drew for the connection, or the public form of a transaction that the peer
    itself sent with the payload that the host returned, or the reply to a decryption
    request received before, which names that very challenge and is signed by the owner of
    its view key; and every transaction of that reply was unsealed under one of the
    requested identifiers and lists that view key among those allowed. *)
Theorem query_enclave_reveals r t t1 bytes t2 :
  trace (run_server r) t → t = t1 ++ Sent bytes :: t2 → may_send (fill_bytes r 32).1 t1 bytes.
Proof.
  intros Ht Heq. apply (trace_sends (may_send (fill_bytes r 32).1) _ _ Ht [] t1 bytes t2); [|done].
  intros [plain|]; [|done]. cbn [app]. destruct (decode init_request_codec plain) as [[req|]|] eqn:Ed; [| |done].
  - by apply encryption_sends.
  - apply decryption_sends.
Qed.
End reveals.

(** ** What a wallet gets *)

(** A vector is its length and its elements, which are decoded one after the other. *)
Class ScaleVec `{Scale} : Prop := {
  vec_codec_dec {A} (c : codec A) l rest : Z.of_nat (length l) ≤ U32_MAX →
    dec (vec_codec c) (enc (vec_codec c) l ++ rest)
    = dec_many (dec c) (length l) (concat (enc c <$> l) ++ rest);
  vec_codec_nil {A} (c : codec A) : dec (vec_codec c) [] = None;
}.

Lemma decode_padded {A} (wf : A → Prop) (c : codec A) a rest :
  codec_ok wf c → wf a → decode c (enc c a ++ rest) = Some a.
Proof. intros Hc Ha. unfold decode. by rewrite Hc. Qed.

Section codecs.
Context `{Hashes, ScaleLaws, !ScaleVec, EcdsaLaws, !Secp256k1Laws}.

Definition body_ok (b : DecryptionRequestBody) : Prop := vec_ok (array_ok 32) (body_txs b) ∧ array_ok 32 (body_challenge b).

Lemma body_codec_ok : codec_ok body_ok body_codec.
Proof.
  intros [txs vk ch] rest [Ht Hc]. cbn [enc dec body_codec body_txs body_view_key body_challenge] in *.
  rewrite <- !app_assoc. dec_step. erewrite (dbind_ok (array_ok 33)) by (eauto with codec; apply pk_serialize_length).
  rewrite pk_from_serialize. by dec_step.
Qed.

Lemma decryption_request_codec_ok : codec_ok (λ r, body_ok (request_body r)) decryption_request_codec.
Proof.
  intros [body sig] rest Hb. cbn [enc dec decryption_request_codec request_body view_key_sig] in *. rewrite <- !app_assoc.
  rewrite (dbind_ok body_ok) by (done || apply body_codec_ok).
  erewrite (dbind_ok (array_ok 64)) by (eauto with codec; apply signature_serialize_length).
  by rewrite signature_from_serialize.
Qed.

Lemma body_message (body : DecryptionRequestBody) :
  unwrap (message_from_slice (txid_hash (enc body_codec body))) = Some (txid_hash (enc body_codec body)).
Proof.
  unfold message_from_slice. by replace (_ =? _)%nat with true by (symmetry; apply Nat.eqb_eq, blake2s_length).
Qed.

Lemma create_verifies ids ch sk : ∃ dr, decryption_request_create ids ch sk = Some dr
  ∧ request_body dr = {| body_txs := ids; body_view_key := pk_from_secret_key sk; body_challenge := ch |}
  ∧ decryption_request_verify dr ch = Some (Ok ()).
Proof.
  unfold decryption_request_create. rewrite body_message. cbn [mbind option_bind]. eexists. split; [done|]. split; [done|].
  unfold decryption_request_verify. cbn [request_body view_key_sig body_challenge body_view_key].
  rewrite decide_True, body_message by done. cbn [mbind option_bind]. by rewrite secp_verify_sign.
Qed.

(** The limit on the size of a transfer counts what follows it in a reply. *)
Fixpoint reply_fits (l : list TxWithOutputs) : bool :=
  match l with
  | [] => true
  | t :: l =>
      match t with
      | Transfer tx => len_of (enc tx_codec tx ++ concat (enc tx_with_outputs_codec <$> l)) <=? MAX_TX_SIZE
      | StakeWithdraw _ => true
      end && reply_fits l
  end.

Lemma with_outputs_dec t l : with_outputs_ok t →
  dec tx_with_outputs_codec (enc tx_with_outputs_codec t ++ concat (enc tx_with_outputs_codec <$> l))
  = if match t with
       | Transfer tx => len_of (enc tx_codec tx ++ concat (enc tx_with_outputs_codec <$> l)) <=? MAX_TX_SIZE
       | StakeWithdraw _ => true
       end then Some (t, concat (enc tx_with_outputs_codec <$> l)) else None.
Proof.
  destruct t as [tx|tx]; intros Ht; cbn [enc tx_with_outputs_codec] in *; set (rest := concat _); cbn [dec tx_with_outputs_codec app].
  - rewrite dbind_read_byte, decide_True by done. unfold dbind. destruct (Z.leb_spec (len_of (enc tx_codec tx ++ rest)) MAX_TX_SIZE).
    + by rewrite tx_codec_ok.
    + by rewrite tx_codec_too_large by lia.
  - rewrite dbind_read_byte, decide_False, decide_True by done. by dec_step.
Qed.

Lemma reply_dec l : Forall with_outputs_ok l → Z.of_nat (length l) ≤ U32_MAX →
  decode decryption_response_codec (enc decryption_response_codec l) = if reply_fits l then Some l else None.
Proof.
  intros Hl Hn. unfold decode, decryption_response_codec. rewrite <- (app_nil_r (enc _ l)), vec_codec_dec, app_nil_r by done.
  clear Hn. enough (E : dec_many (dec tx_with_outputs_codec) (length l) (concat (enc tx_with_outputs_codec <$> l))
    = if reply_fits l then Some (l, []) else None) by (rewrite E; by destruct (reply_fits l)).
  induction Hl as [|t l Ht Hl IH]; [done|]. cbn [length dec_many fmap list_fmap concat reply_fits].
  unfold dbind at 1. rewrite with_outputs_dec by done. destruct t; cbn [andb].
  - destruct (_ <=? _); [|done]. unfold dbind. rewrite IH. by destruct (reply_fits l).
  - unfold dbind. rewrite IH. by destruct (reply_fits l).
Qed.
End codecs.

Section wallet.
Context `{Hashes, ScaleLaws, !ScaleSizes, !ScaleVec, EcdsaLaws, !ClientKeysLaws, !Secp256k1Laws}.
Context `{BitVecLib, SgxLaws, AeadLaws, EnclaveBuild, SledLaws}.
Context (accepts : nat → bool) (rng_at : nat → Rng).

Lemma records_small (bytes : list byte) : bytes ≠ [] → (length bytes ≤ tls_fragment)%nat → records bytes = [bytes].
Proof.
  intros Hne Hl. unfold records, chunks. destruct bytes as [|b bytes]; [done|].
  change (length (b :: bytes)) with (S (length bytes)). cbn [chunks_fuel]. rewrite take_ge, drop_ge by done.
  by destruct (length bytes).
Qed.

Lemma serve_read {A} max (k : option (list byte) → session A) bytes over host out :
  (length bytes ≤ max)%nat → serve (Read max k) [bytes] over host out = serve (k (Some bytes)) [] over host out.
Proof. intros Hl. cbn [serve]. rewrite take_ge by done. by replace (_ <? _)%nat with false by (symmetry; apply Nat.ltb_ge, Hl). Qed.

Lemma buffer_fits (bytes : list byte) : (length bytes ≤ tls_fragment)%nat → (length bytes ≤ Z.to_nat ENCRYPTION_REQUEST_SIZE)%nat.
Proof. unfold tls_fragment, ENCRYPTION_REQUEST_SIZE. lia. Qed.

Lemma served_challenge r host :
  serve (run_server r) [[Byte.x01]] false host []
  = Some (Read (Z.to_nat ENCRYPTION_REQUEST_SIZE) (answer_request (fill_bytes r 32).1), [],
          enc init_response_codec (RespQueryDecryptChallenge (fill_bytes r 32).1), host).
Proof.
  unfold run_server. rewrite serve_read by (unfold ENCRYPTION_REQUEST_SIZE; cbn [length]; lia).
  replace (decode init_request_codec [Byte.x01]) with (Some QueryDecryptChallenge) by reflexivity.
  reflexivity.
Qed.

(** ** Decryption *)

Lemma decrypt_nonempty l sk t :
  l ≠ [] → obfuscation_decrypt accepts rng_at l sk t = decrypt_attempts accepts rng_at 2 l sk t.
Proof. by destruct l. Qed.

Section decryption.
Context (s : TxValidationServer) (ids : list TxId) (logs : list SealedLog) (txs : list TxWithOutputs).
Hypothesis ids_ok : Forall (array_ok 32) ids.
Hypothesis ids_few : (length ids ≤ 500)%nat.
Hypothesis ids_kept : lookup_txids (txdb s) ids = Some logs.
Hypothesis logs_open : Forall3 (λ i raw t, log_ok raw ∧ unseal_tx i raw = Some t) ids logs txs.

(** The transactions that a key may view. *)
Definition viewed_by (vk : PublicKey) : list TxWithOutputs :=
  filter (λ t, is_allowed_view (tx_allowed_view t) (Some vk) true = true) txs.

(** The sealed transactions fit into the buffer that the enclave allocates. *)
Definition buffer_holds : bool :=
  (length (enc enclave_response_codec (RespGetSealedTxData (Some logs))) <=? length ids * Z.to_nat 8000)%nat.

Lemma logs_length : length logs = length ids ∧ length txs = length ids.
Proof.
  pose proof logs_open as Hf. clear ids_ok ids_few ids_kept logs_open. induction Hf as [|???????? [IH1 IH2]]; [done|]. cbn [length]. by rewrite IH1, IH2.
Qed.

Lemma unsealed vk : check_unseal (Some vk) true ids logs = Some (viewed_by vk).
Proof.
  unfold check_unseal, viewed_by. pose proof logs_open as Hf. clear ids_ok ids_few ids_kept logs_open.
  induction Hf as [|i raw t ids' logs' txs' [_ Ht] _ IH]; [done|].
  cbn [zip zip_with check_unseal_loop]. rewrite Ht. cbn [mbind option_bind]. rewrite IH. cbn [mbind option_bind].
  rewrite filter_cons. by destruct (is_allowed_view _ _ _).
Qed.

Lemma viewed_ok vk : Forall with_outputs_ok (viewed_by vk) ∧ Z.of_nat (length (viewed_by vk)) ≤ U32_MAX.
Proof.
  split.
  - unfold viewed_by. apply Forall_forall. intros t [_ Ht]%list_elem_of_filter. revert t Ht. apply Forall_forall.
    pose proof logs_open as Hf. clear ids_ok ids_few ids_kept logs_open.
    induction Hf as [|i raw t ids' logs' txs' [_ Ht] _ IH]; constructor; [by eapply unseal_tx_ok | done].
  - pose proof (length_filter (λ t, is_allowed_view (tx_allowed_view t) (Some vk) true = true) txs).
    pose proof logs_length. unfold viewed_by. ints.
Qed.

Lemma ids_vec : vec_ok (array_ok 32) ids.
Proof. split; [ints | done]. Qed.

Lemma server_gives : server_step s (enc enclave_request_codec (GetSealedTxData ids))
  = Some (enc enclave_response_codec (RespGetSealedTxData (Some logs)), s).
Proof.
  unfold server_step, server_respond.
  replace (decode enclave_request_codec (enc enclave_request_codec (GetSealedTxData ids))) with (Some (GetSealedTxData ids)).
  - by rewrite ids_kept.
  - unfold decode. cbn [enc dec enclave_request_codec]. rewrite dbind_read_byte, !decide_False, decide_True by done.
    rewrite <- (app_nil_r (enc _ ids)). pose proof ids_vec. by dec_step.
Qed.

Lemma processed body over out :
  body_txs body = ids → ∀ B (f : option (list TxWithOutputs) → session B),
  serve (process_decryption_request body ≫= f) [] over s out
  = serve (f (if buffer_holds then Some (viewed_by (body_view_key body)) else None)) [] over s out.
Proof.
  intros Hb B f. unfold process_decryption_request. rewrite Hb. cbn [mbind session_mbind session_bind serve].
  unfold ocall_get_txs. rewrite server_gives. cbn [mbind option_bind]. unfold buffer_holds.
  destruct (Nat.ltb_spec (length ids * Z.to_nat 8000)
    (length (enc enclave_response_codec (RespGetSealedTxData (Some logs))))) as [Hlt|Hle]; cbn [mbind option_bind].
  - rewrite decide_False by (intros [_ ?]; done). by replace (_ <=? _)%nat with false by (symmetry; apply Nat.leb_gt, Hlt).
  - rewrite decide_True by done. replace (_ <=? _)%nat with true by (symmetry; apply Nat.leb_le, Hle).
    rewrite (decode_padded enclave_response_ok).
    + cbn [session_bind]. by rewrite unsealed.
    + apply enclave_response_codec_ok.
    + cbn. split; [pose proof logs_length; ints|]. pose proof logs_open as Hf. clear -Hf. induction Hf as [|??????[]??]; [by apply Forall_nil | by apply Forall_cons].
Qed.
(** What one attempt gives. *)
Definition decrypted (vk : PublicKey) : result ErrorKind (list Transaction) :=
  if buffer_holds && reply_fits (viewed_by vk) then Ok (tx_with_outputs_transaction <$> viewed_by vk)
  else Err Kind.DeserializationError.

Lemma challenge_length r : array_ok 32 (fill_bytes r 32).1.
Proof. apply fill_bytes_length. Qed.

Lemma challenge_message r :
  length (enc init_response_codec (RespQueryDecryptChallenge (fill_bytes r 32).1)) = 33%nat
  ∧ decode init_response_codec (enc init_response_codec (RespQueryDecryptChallenge (fill_bytes r 32).1))
    = Some (RespQueryDecryptChallenge (fill_bytes r 32).1).
Proof.
  pose proof (challenge_length r) as Hc. split.
  - cbn [enc init_response_codec length]. by rewrite array_size.
  - unfold decode. cbn [enc dec init_response_codec]. rewrite dbind_read_byte, decide_False, decide_True by done.
    rewrite <- (app_nil_r (enc _ _)). by dec_step.
Qed.

Lemma request_fits_record dr challenge :
  array_ok 32 challenge → body_txs (request_body dr) = ids → body_challenge (request_body dr) = challenge →
  (length (enc decryption_request_codec dr) ≤ tls_fragment)%nat ∧ enc decryption_request_codec dr ≠ [].
Proof.
  intros Hc Hb Hd. destruct dr as [[txs' vk ch] sig]. cbn in Hb, Hd. subst txs' ch.
  cbn [enc decryption_request_codec body_codec request_body view_key_sig body_txs body_view_key body_challenge].
  assert (Hl : (length (enc (vec_codec (array_codec 32)) ids) ≤ 5 + 32 * length ids)%nat).
  { rewrite vec_size, (sum_sizes_const _ 32).
    - unfold compact_size. repeat case_match; lia.
    - eapply Forall_impl; [exact ids_ok|]. intros i Hi. by apply array_size. }
  assert (Hp : length (enc (array_codec 33) (pk_serialize vk)) = 33%nat) by apply array_size, pk_serialize_length.
  assert (Hs : length (enc (array_codec 64) (signature_serialize_compact sig)) = 64%nat)
    by apply array_size, signature_serialize_length.
  split.
  - rewrite !length_app, Hp, Hs, (array_size 32 challenge Hc). unfold tls_fragment. lia.
  - intros Hn. apply (f_equal length) in Hn. rewrite !length_app, Hp in Hn. cbn in Hn. lia.
Qed.

Lemma attempt_exact sk r :
  converse (decrypt_attempt ids sk) (run_server r) [] [] s = Some (Ok (decrypted (pk_from_secret_key sk)), s).
Proof.
  unfold decrypt_attempt. cbn [converse or_fail app]. change (enc init_request_codec QueryDecryptChallenge) with [Byte.x01].
  rewrite records_small by (done || (unfold tls_fragment; cbn [length]; lia)).
  rewrite served_challenge. cbn [mbind option_bind]. destruct (challenge_message r) as [Hl Hd].
  rewrite Hl, Nat.leb_refl, take_ge, drop_ge by lia. rewrite Hd.
  destruct (create_verifies ids (fill_bytes r 32).1 sk) as (dr & Ec & Hb & Hv). rewrite Ec. cbn [converse or_fail app].
  assert (Hok : body_ok (request_body dr)) by (rewrite Hb; split; [apply ids_vec | apply challenge_length]).
  destruct (request_fits_record dr (fill_bytes r 32).1) as [Hf Hne]; [apply challenge_length | by rewrite Hb..|].
  rewrite records_small by done. rewrite serve_read by by apply buffer_fits.
  unfold answer_request. rewrite (decode_ok (λ r, body_ok (request_body r))) by (apply decryption_request_codec_ok || done).
  rewrite Hv, processed by by rewrite Hb. rewrite Hb. cbn [body_view_key]. unfold decrypted.
  destruct buffer_holds; cbn [serve fails mbind option_bind converse andb app].
  - destruct (viewed_ok (pk_from_secret_key sk)). rewrite reply_dec by done. by destruct (reply_fits _).
  - unfold decode, decryption_response_codec. by rewrite vec_codec_nil.
Qed.

(** C34. What a wallet gets for the identifiers of kept transactions.  A wallet asks the
    query enclave, over connections that are accepted, for transactions that the validation
    server keeps sealed.  It gets exactly those of them that allow its view key, in their
    order, unless the sealed transactions are longer than eight thousand bytes for each
    identifier, or a transfer is followed in the reply by so much that the limit on the size
    of a single transaction, which counts all that follows, is exceeded: then every attempt
    fails, and so does the call.  The validation server is left as it was. *)
Theorem wallet_decrypts_exactly sk n :
  ids ≠ [] → accepts n = true → accepts (S n) = true → accepts (S (S n)) = true →
  ∃ t, obfuscation_decrypt accepts rng_at ids sk {| tqe_server := s; tqe_served := n |}
       = Some (decrypted (pk_from_secret_key sk), t) ∧ tqe_server t = s.
Proof.
  intros Hne A0 A1 A2. rewrite decrypt_nonempty by done.
  cbn [decrypt_attempts]. unfold connect. cbn [tqe_served tqe_server]. rewrite A0, attempt_exact. cbn [mbind option_bind].
  destruct (is_ok _) eqn:E0; [by eexists|]. cbn [tqe_served tqe_server]. rewrite A1, attempt_exact.
  cbn [mbind option_bind]. rewrite E0. cbn [tqe_served tqe_server]. rewrite A2, attempt_exact. by eexists.
Qed.

(** The service as the synchronisation of a wallet uses it. *)
Lemma service_decrypts known sk n :
  ids ≠ [] → accepts n = true → buffer_holds = true → reply_fits (viewed_by (pk_from_secret_key sk)) = true →
  Forall2 (λ i t, known !! i = if is_allowed_view (tx_allowed_view t) (Some (pk_from_secret_key sk)) true
                               then Some (tx_with_outputs_transaction t) else None) ids txs →
  fst <$> obfuscation_decrypt accepts rng_at ids sk {| tqe_server := s; tqe_served := n |}
  = Some (Ok (omap (λ i, (known : gmap TxId Transaction) !! i) ids)).
Proof.
  intros Hne A0 Hb Hf Hk. rewrite decrypt_nonempty by done. cbn [decrypt_attempts]. unfold connect.
  cbn [tqe_served tqe_server]. rewrite A0, attempt_exact. cbn [mbind option_bind]. unfold decrypted. rewrite Hb, Hf.
  cbn [andb is_ok fmap option_fmap option_map fst]. do 2 f_equal. clear -Hk. unfold viewed_by.
  induction Hk as [|i t l l' E _ IH]; [done|]. rewrite filter_cons. cbn [omap list_omap]. rewrite E.
  destruct (is_allowed_view (tx_allowed_view t) _ true).
  - rewrite decide_True by done. rewrite fmap_cons. f_equal. exact IH.
  - rewrite decide_False by done. exact IH.
Qed.
End decryption.

(** ** Encryption *)

(** The requests that pass the limits on sizes and fit one record. *)
Definition request_fits (req : EncryptionRequest) : Prop :=
  match req with
  | EncTransferTx tx w => len_of (enc tx_codec tx ++ enc tx_witness_codec w) ≤ MAX_TX_SIZE
  | EncDepositStake tx w => len_of (enc deposit_codec tx ++ enc tx_witness_codec w) + 74 ≤ MAX_DEPOSIT_TX_SIZE
  | EncWithdrawStake _ _ _ => len_of (enc encryption_request_codec req) < Z.of_nat tls_fragment
  end.

Lemma request_size req :
  request_fits req → (1 ≤ length (enc encryption_request_codec req) < tls_fragment)%nat.
Proof.
  unfold tls_fragment. destruct req as [tx w|tx w|tx a w]; cbn [request_fits];
    unfold len_of, tls_fragment, MAX_TX_SIZE, MAX_DEPOSIT_TX_SIZE; cbn [enc encryption_request_codec length];
    rewrite ?length_app; lia.
Qed.

Lemma request_decodes req :
  encryption_request_ok req → request_fits req →
  dec encryption_request_codec (enc encryption_request_codec req) = Some (req, []).
Proof.
  intros Hr Hf. pose proof (request_size req Hf) as Hs.
  destruct req as [tx w|tx w|tx a w]; cbn [enc dec encryption_request_codec] in *; destruct Hr as [Hr1 Hr2];
    rewrite size_guard_small by (unfold len_of, ENCRYPTION_REQUEST_SIZE, tls_fragment in *; lia);
    rewrite dbind_read_byte; repeat (rewrite decide_False by discriminate); rewrite decide_True by reflexivity; cbn [request_fits] in Hf.
  - unfold dbind at 1. rewrite tx_codec_ok by done. rewrite <- (app_nil_r (enc tx_witness_codec w)). unfold dbind.
    rewrite tx_witness_codec_ok; [done..|]. rewrite app_nil_r. unfold len_of, MAX_TX_SIZE, MAX_WITNESS_SIZE in *.
    rewrite length_app in Hf. lia.
  - unfold dbind at 1. rewrite deposit_codec_ok by (done || lia). rewrite <- (app_nil_r (enc tx_witness_codec w)). unfold dbind.
    rewrite tx_witness_codec_ok; [done..|]. rewrite app_nil_r.
    unfold len_of, MAX_DEPOSIT_TX_SIZE, MAX_WITNESS_SIZE in *. rewrite length_app in Hf. lia.
  - rewrite (dbind_ok withdraw_tx_ok) by (apply withdraw_codec_ok || assumption).
    rewrite (dbind_ok staked_state_ok) by (apply staked_state_codec_ok || assumption).
    rewrite <- (app_nil_r (enc op_witness_codec w)). by rewrite (dbind_ok (λ _, True)) by (apply op_witness_codec_ok || exact I).
Qed.

Definition request_id (req : EncryptionRequest) : TxId :=
  match req with
  | EncTransferTx tx _ => transaction_id tx_codec tx
  | EncDepositStake tx _ => transaction_id deposit_codec tx
  | EncWithdrawStake tx _ _ => transaction_id withdraw_codec tx
  end.
Definition request_inputs (req : EncryptionRequest) : option (list TxoPointer) :=
  match req with
  | EncTransferTx tx _ => Some (inputs tx)
  | EncDepositStake tx _ => Some (deposit_inputs tx)
  | EncWithdrawStake _ _ _ => None
  end.
Definition request_plain (req : EncryptionRequest) : PlainTxAux :=
  match req with
  | EncTransferTx tx w => PlainTransferTx tx w
  | EncDepositStake _ w => PlainDepositStakeTx w
  | EncWithdrawStake tx _ _ => PlainWithdrawUnbondedStakeTx tx
  end.

Definition verdict_of {A} (v : option (result Error A)) : option (result Error ()) :=
  match v with Some r => Some ((λ _, ()) <$> r) | None => None end.

(** The verdict of the validation library, with the transactions that the inputs spend. *)
Definition request_verdict (req : EncryptionRequest) (info : ChainInfo) (sources : list TxWithOutputs) :
  option (result Error ()) :=
  match req with
  | EncTransferTx tx w => verdict_of (verify_transfer tx w info sources)
  | EncDepositStake tx w => verdict_of (verify_bonded_deposit_core tx w info sources)
  | EncWithdrawStake tx a _ => verdict_of (verify_unbonded_withdraw_core tx info a)
  end.

Lemma plain_smaller req :
  (length (enc plain_tx_aux_codec (request_plain req)) ≤ length (enc encryption_request_codec req))%nat.
Proof. destruct req; cbn [request_plain enc plain_tx_aux_codec encryption_request_codec length]; rewrite ?length_app; lia. Qed.

Lemma request_obfuscates req : tx_to_obfuscate_from (request_plain req) (request_id req)
  = Some {| to_payload := enc plain_tx_aux_codec (request_plain req); to_txid := request_id req |}.
Proof. destruct req; cbn [request_plain request_id tx_to_obfuscate_from]; by rewrite ?decide_True. Qed.

Lemma request_id_length req : array_ok 32 (request_id req).
Proof. destruct req; apply blake2s_length. Qed.

Lemma construct_request_eq r req :
  construct_request r req
  = (λ raw, {| query_txid := request_id req; query_sealed_enc_request := raw; query_tx_inputs := request_inputs req |})
    <$> get_sealed_request r req (request_id req).
Proof. by destruct req. Qed.

Section encryption.
Context (s : TxValidationServer) (req : EncryptionRequest) (info : ChainInfo).
Context (logs : option (list SealedLog)) (sources : list TxWithOutputs) (v : result Error ()) (r : Rng) (raw : SealedLog).
Hypothesis header_size : 4 ≤ sealed_data_size.
Hypothesis req_ok : encryption_request_ok req.
Hypothesis req_fits : request_fits req.
Hypothesis req_sealed : get_sealed_request r req (request_id req) = Some raw.
Hypothesis has_info : server_info s = Some info.
Hypothesis info_ok : chain_info_ok info.
Hypothesis inputs_kept : (ins ← request_inputs req; lookup_txids (txdb s) (id <$> ins)) = logs.
Hypothesis inputs_open : ∀ ins, request_inputs req = Some ins →
  ∃ l, logs = Some l ∧ check_unseal None false (id <$> ins) l = Some sources.
Hypothesis logs_ok : option_ok (vec_ok log_ok) logs.
Hypothesis logs_small : Z.of_nat (length (enc (option_codec (vec_codec bytes_codec)) logs)) ≤ 2 ^ 30.
Hypothesis req_signed : ∀ tx a w, req = EncWithdrawStake tx a w →
  verify_tx_recover_address w (request_id req) = Ok (address a).
Hypothesis req_verdict : request_verdict req info sources = Some v.

Definition to_obfuscate : TxToObfuscate :=
  {| to_payload := enc plain_tx_aux_codec (request_plain req); to_txid := request_id req |}.
Definition intra_request : IntraEncryptRequest :=
  {| encrypt_txid := request_id req; encrypt_sealed_enc_request := raw; encrypt_tx_inputs := logs; encrypt_info := info |}.

Lemma raw_facts :
  Z.of_nat (length raw) = sealed_data_size + 32 + Z.of_nat (length (enc encryption_request_codec req))
  ∧ Z.of_nat (length raw) < U32_MAX
  ∧ ∃ sd, from_raw_sealed_data raw = Some sd ∧ unseal_data sd = Ok (request_id req, enc encryption_request_codec req).
Proof.
  unfold get_sealed_request in req_sealed.
  destruct (seal_data _ _ _) as [[sd|] r'] eqn:Es; cbn in req_sealed; [|done].
  pose proof (request_id_length req) as Hi. unfold array_ok in Hi.
  destruct (raw_length _ _ _ _ _ _ Es req_sealed) as [Hl Hu]. split; [rewrite Hl, Hi; done|]. split; [done|].
  by eapply unseal_seal.
Qed.

Lemma request_unseals : unseal_request intra_request = Some req.
Proof.
  destruct raw_facts as (_ & _ & sd & Hr & Hu). unfold unseal_request. cbn [encrypt_sealed_enc_request intra_request encrypt_txid].
  rewrite Hr. cbn [mbind option_bind]. rewrite Hu. cbn [ok mbind option_bind]. rewrite decide_True by done.
  unfold decode. by rewrite request_decodes.
Qed.

(** The validation enclave answers with the verdict. *)
Lemma enclave_verdict e len :
  handle_encrypt_request e intra_request len
  = reply_encrypted e (Some v) (request_plain req) (request_id req) len.
Proof.
  unfold handle_encrypt_request. rewrite request_unseals. cbn [intra_request encrypt_tx_inputs encrypt_info].
  destruct req as [tx w|tx w|tx a w]; cbn [request_inputs request_plain request_id request_verdict] in *.
  - destruct (inputs_open _ eq_refl) as (l & -> & ->). unfold reply_encrypted.
    destruct (verify_transfer _ _ _ _) as [vd|]; [|done]. injection req_verdict as <-. by destruct vd.
  - destruct (inputs_open _ eq_refl) as (l & -> & ->). unfold reply_encrypted.
    destruct (verify_bonded_deposit_core _ _ _ _) as [vd|]; [|done]. injection req_verdict as <-. by destruct vd.
  - rewrite <- inputs_kept. cbn [mbind option_bind]. rewrite (req_signed _ _ _ eq_refl), decide_True by done.
    unfold reply_encrypted. destruct (verify_unbonded_withdraw_core _ _ _) as [vd|]; [|done].
    injection req_verdict as <-. by destruct vd.
Qed.

(** The answer to the request and the enclave after it. *)
Definition verdict_reply (e : Enclave) : option (result Error TxObfuscated * Enclave) :=
  match v with
  | Ok _ => '(pl, e) ← encrypt e to_obfuscate; Some (Ok pl, e)
  | Err err => Some (Err err, e)
  end.

Lemma plain_small : Z.of_nat (length (enc plain_tx_aux_codec (request_plain req))) < 16384.
Proof. pose proof (plain_smaller req). pose proof (request_size req req_fits). unfold tls_fragment in *. lia. Qed.

Lemma reply_exists e : is_Some (verdict_reply e).
Proof.
  unfold verdict_reply. destruct v as [|]; [|done]. unfold encrypt. destruct (fill_bytes (rng e) 12) as [iv r'].
  cbn [to_obfuscate to_payload to_txid].
  destruct (aead_encrypt_total MOCK_KEY iv (request_id req) (enc plain_tx_aux_codec (request_plain req))) as [c ->]; [|done].
  pose proof plain_small. ints.
Qed.

Lemma reply_size e a e' : verdict_reply e = Some (a, e') →
  result_ok any_error obfuscated_ok a
  ∧ (length (enc (result_codec error_codec obfuscated_codec) a)
     ≤ 33 + compact_size (Z.of_nat (length raw)) + length raw)%nat.
Proof.
  destruct raw_facts as (Hraw & _). pose proof (plain_smaller req) as Hp. unfold verdict_reply. destruct v as [|err].
  - destruct (encrypt e to_obfuscate) as [[pl e1]|] eqn:Ee; [|done]. cbn. intros [= <- <-].
    apply encrypt_envelope in Ee as ((Hk & Hiv & Hid) & _ & Hl); [|apply request_id_length].
    split.
    + split_and!; try done. apply vec_ok_any. pose proof plain_small. rewrite Hl. ints.
    + cbn [enc result_codec obfuscated_codec length]. rewrite !length_app, i64_size, !array_size, bytes_size, Hl by done.
      assert (Hc : Z.of_nat (length (enc plain_tx_aux_codec (request_plain req)) + 16) ≤ Z.of_nat (length raw)) by lia.
      apply compact_size_mono in Hc. lia.
  - intros [= <- <-]. split; [done|]. cbn [enc result_codec error_codec length]. lia.
Qed.

Lemma inputs_size {A} (c : codec A) o : (1 ≤ length (enc (option_codec c) o))%nat.
Proof. rewrite option_codec_enc. destruct o; cbn [length]; lia. Qed.

Lemma info_size : length (enc chain_info_codec info) = 21%nat.
Proof.
  destruct info_ok as (? & ? & ? & ?). cbn [enc chain_info_codec]. rewrite !length_app.
  change (enc coin_codec (min_fee_computed info)) with (enc u64_codec (min_fee_computed info)).
  rewrite !u64_size, u32_size, u8_size by (done || ints). done.
Qed.

Lemma compact_size_5 n : (compact_size n ≤ 5)%nat.
Proof. unfold compact_size. repeat case_match; lia. Qed.

Lemma intra_request_size :
  (33 + compact_size (Z.of_nat (length raw)) + length raw
   < length (enc intra_enclave_request_codec (IntraEncrypt intra_request)))%nat
  ∧ Z.of_nat (length (enc intra_enclave_request_codec (IntraEncrypt intra_request))) ≤ U32_MAX.
Proof.
  destruct raw_facts as (Hraw & _). pose proof (request_size req req_fits) as Hs. pose proof (inputs_size (vec_codec bytes_codec) logs).
  pose proof sealed_data_size_range. pose proof (compact_size_5 (Z.of_nat (length raw))).
  cbn [enc intra_enclave_request_codec length intra_encrypt_request_codec encrypt_txid encrypt_sealed_enc_request
       encrypt_tx_inputs encrypt_info intra_request].
  rewrite !length_app, array_size, bytes_size, info_size by apply request_id_length.
  unfold tls_fragment in Hs. split; [lia|]. unfold U32_MAX. lia.
Qed.

Lemma intra_decodes :
  decode intra_enclave_request_codec (enc intra_enclave_request_codec (IntraEncrypt intra_request))
  = Some (IntraEncrypt intra_request).
Proof.
  unfold decode. cbn [enc dec intra_enclave_request_codec]. rewrite dbind_read_byte, !decide_False, decide_True by done.
  rewrite <- (app_nil_r (enc _ intra_request)), (dbind_ok intra_encrypt_ok); [done | apply intra_encrypt_request_codec_ok|].
  destruct raw_facts as (_ & Hr & _). split_and!; [apply request_id_length | apply vec_ok_any; cbn; lia | done..].
Qed.

Lemma as_u32_small n : Z.of_nat n ≤ U32_MAX → as_u32 (Z.of_nat n) = Z.of_nat n.
Proof. intros Hn. unfold as_u32. apply Z.mod_small. lia. Qed.

(** The whole answer fits into a buffer of the size of the request. *)
Lemma written_back e a e' :
  verdict_reply e = Some (a, e') →
  write_back_response (Ok (match a with Ok pl => Ok (OkEncrypt pl) | Err err => Err err end))
    (as_u32 (Z.of_nat (length (enc intra_enclave_request_codec (IntraEncrypt intra_request)))))
  = Some (SGX_SUCCESS, enc intra_enclave_response_codec (match a with Ok pl => Ok (OkEncrypt pl) | Err err => Err err end)).
Proof.
  intros Hr. destruct (reply_size _ _ _ Hr) as [_ Hl]. destruct intra_request_size as [Hm Hu]. unfold write_back_response.
  assert (Hb : (1 ≤ length (enc intra_enclave_response_codec (match a with Ok pl => Ok (OkEncrypt pl) | Err err => Err err end))
    ≤ length (enc intra_enclave_request_codec (IntraEncrypt intra_request)))%nat).
  { destruct a; cbn [enc intra_enclave_response_codec intra_enclave_response_ok_codec result_codec length] in *; lia. }
  rewrite !as_u32_small by lia. destruct (Z.ltb_spec 0 (Z.of_nat (length (enc intra_enclave_response_codec
    (match a with Ok pl => Ok (OkEncrypt pl) | Err err => Err err end))))); [|lia].
  rewrite (proj2 (Z.leb_le _ _)) by lia. done.
Qed.

Lemma server_encrypts a e' :
  verdict_reply (enclave s) = Some (a, e') → encrypt_tx s intra_request = Some (a, set_enclave s e').
Proof.
  intros Hr. unfold encrypt_tx, ecall, ecall_check_tx. rewrite intra_decodes, enclave_verdict. unfold reply_encrypted.
  cbn [mbind option_bind]. rewrite request_obfuscates. cbn [mbind option_bind]. fold to_obfuscate.
  pose proof (written_back _ _ _ Hr) as Hw. destruct (reply_size _ _ _ Hr) as [Ha _]. unfold verdict_reply in Hr.
  assert (Hd : ∀ rest, decode intra_enclave_response_codec (enc intra_enclave_response_codec
    (match a with Ok pl => Ok (OkEncrypt pl) | Err err => Err err end) ++ rest)
    = Some (match a with Ok pl => Ok (OkEncrypt pl) | Err err => Err err end)).
  { intros rest. apply (decode_padded (result_ok any_error intra_response_ok)); [apply intra_enclave_response_codec_ok|].
    by destruct a. }
  destruct v as [u|err]; cbn [construct_response fmap result_fmap].
  - destruct (encrypt (enclave s) to_obfuscate) as [[pl e1]|]; [|done]. injection Hr as <- <-. cbn [mbind option_bind] in *.
    rewrite Hw. cbn [mbind option_bind]. by rewrite decide_True, Hd.
  - injection Hr as <- <-. cbn [mbind option_bind]. rewrite Hw. cbn [mbind option_bind]. by rewrite decide_True, Hd.
Qed.

(** The request of the query enclave, and the answer it gets through the host. *)
Definition query_request : QueryEncryptRequest :=
  {| query_txid := request_id req; query_sealed_enc_request := raw; query_tx_inputs := request_inputs req |}.

Lemma query_decodes :
  decode enclave_request_codec (enc enclave_request_codec (EncryptTx query_request)) = Some (EncryptTx query_request).
Proof.
  unfold decode. cbn [enc dec enclave_request_codec]. rewrite dbind_read_byte, !decide_False, decide_True by done.
  rewrite <- (app_nil_r (enc _ query_request)), (dbind_ok query_encrypt_ok); [done | apply query_encrypt_request_codec_ok|].
  destruct raw_facts as (_ & Hr & _). split_and!; [apply request_id_length | apply vec_ok_any; cbn; lia|].
  cbn [query_request query_tx_inputs]. clear -req_ok. destruct req; cbn in *; [apply req_ok.. | done].
Qed.

Lemma server_answers a e' :
  verdict_reply (enclave s) = Some (a, e') →
  server_step s (enc enclave_request_codec (EncryptTx query_request))
  = Some (enc enclave_response_codec (RespEncryptTx a), set_enclave s e').
Proof.
  intros Hr. unfold server_step, server_respond. rewrite query_decodes. unfold handle_encrypt_tx. rewrite has_info.
  cbn [query_request query_tx_inputs query_txid query_sealed_enc_request]. rewrite inputs_kept.
  change {| encrypt_txid := request_id req; encrypt_sealed_enc_request := raw; encrypt_tx_inputs := logs; encrypt_info := info |}
    with intra_request. by rewrite (server_encrypts _ _ Hr).
Qed.

Lemma host_answers a e' :
  verdict_reply (enclave s) = Some (a, e') →
  let bytes := enc enclave_request_codec (EncryptTx query_request) in
  ∃ rest, ocall_get_txs s bytes (length bytes)
    = Some (SGX_SUCCESS, enc enclave_response_codec (RespEncryptTx a) ++ rest, set_enclave s e').
Proof.
  intros Hr. cbv zeta. unfold ocall_get_txs. rewrite (server_answers _ _ Hr). cbn [mbind option_bind].
  destruct (reply_size _ _ _ Hr) as [_ Hl].
  replace (_ <? _)%nat with false; [by eexists|]. symmetry. apply Nat.ltb_ge.
  cbn [enc enclave_response_codec enclave_request_codec length query_encrypt_request_codec query_request query_txid
       query_sealed_enc_request query_tx_inputs].
  pose proof (inputs_size (vec_codec txo_pointer_codec) (request_inputs req)).
  rewrite !length_app, array_size, bytes_size by apply request_id_length. cbn [enc] in *. lia.
Qed.

(** What the enclave sends back is read by the wallet. *)
Lemma response_decodes e a e' :
  verdict_reply e = Some (a, e') →
  decode encryption_response_codec (enc encryption_response_codec (public_tx req <$> a)) = Some (public_tx req <$> a).
Proof.
  intros Hr. destruct (reply_size _ _ _ Hr) as [Ha _]. unfold decode, encryption_response_codec.
  destruct a as [pl|err]; cbn [fmap result_fmap enc dec result_codec]; rewrite dbind_read_byte.
  - rewrite decide_True by done. rewrite <- (app_nil_r (enc _ (public_tx req pl))). unfold dbind.
    rewrite tx_enclave_aux_codec_ok; [done| |].
    + clear -req_ok Ha. destruct req; cbn in *; split_and!; try done; try apply req_ok; apply outputs_u16.
    + unfold verdict_reply in Hr. destruct v; [|done].
      destruct (encrypt e to_obfuscate) as [[pl' e1]|] eqn:Ee; [|done]. injection Hr as <- <-.
      apply encrypt_envelope in Ee as ((Hk & Hiv & Hid) & _ & Hl); [|apply request_id_length].
      clear -req_fits Hk Hiv Hid Hl H1 H2. destruct req as [|tx w|]; [done| |done]. cbn [public_tx deposit_fits request_fits] in *.
      rewrite app_nil_r. cbn [enc obfuscated_codec] in *. unfold len_of, MAX_DEPOSIT_TX_SIZE in *.
      rewrite !length_app, i64_size, !array_size, bytes_size, Hl by done. rewrite !length_app in req_fits.
      cbn [to_obfuscate request_plain enc plain_tx_aux_codec length to_payload].
      assert (Hc : (compact_size (Z.of_nat (S (length (enc tx_witness_codec w)) + 16)) ≤ 2)%nat); [|lia].
      unfold compact_size. change (2 ^ 14) with 16384.
      destruct (_ <? 2 ^ 6); [lia|]. destruct (Z.ltb_spec (Z.of_nat (S (length (enc tx_witness_codec w)) + 16)) 16384); lia.
  - rewrite decide_False, decide_True by done. rewrite <- (app_nil_r (enc error_codec err)).
    by rewrite (dbind_ok any_error) by (done || apply error_codec_ok).
Qed.

Lemma plain_decodes : decode plain_tx_aux_codec (enc plain_tx_aux_codec (request_plain req)) = Some (request_plain req).
Proof.
  unfold decode. clear -req_ok req_fits H1 H9. destruct req as [tx w|tx w|tx a w]; destruct req_ok as [Hr1 Hr2];
    cbn [request_plain enc dec plain_tx_aux_codec request_fits] in *; rewrite dbind_read_byte.
  - rewrite decide_True by done. unfold dbind at 1. rewrite tx_codec_ok by done.
    rewrite <- (app_nil_r (enc tx_witness_codec w)). unfold dbind. rewrite tx_witness_codec_ok; [done..|].
    rewrite app_nil_r. unfold len_of, MAX_TX_SIZE, MAX_WITNESS_SIZE in *. rewrite length_app in req_fits. lia.
  - rewrite decide_False, decide_True by done. rewrite <- (app_nil_r (enc tx_witness_codec w)). unfold dbind.
    rewrite tx_witness_codec_ok; [done..|].
    rewrite app_nil_r. unfold len_of, MAX_DEPOSIT_TX_SIZE, MAX_WITNESS_SIZE in *. rewrite length_app in req_fits. lia.
  - rewrite !decide_False by discriminate. rewrite decide_True by reflexivity. rewrite <- (app_nil_r (enc withdraw_codec tx)).
    by rewrite (dbind_ok withdraw_tx_ok) by (apply withdraw_codec_ok || assumption).
Qed.

Lemma set_enclave_same (server : TxValidationServer) : set_enclave server (enclave server) = server.
Proof. by destruct server. Qed.

Lemma init_decodes :
  decode init_request_codec (enc init_request_codec (QueryEncrypt req)) = Some (QueryEncrypt req).
Proof.
  unfold decode. cbn [enc dec init_request_codec]. rewrite dbind_read_byte, decide_True by done. unfold dbind.
  by rewrite request_decodes.
Qed.

Lemma encrypt_converses st a e' :
  request_of st = req → verdict_reply (enclave s) = Some (a, e') →
  converse (encrypt_session st) (run_server r) [] [] s
  = Some (match a with Ok pl => Ok (EnclaveTx (public_tx req pl)) | Err _ => Err Kind.InvalidInput end, set_enclave s e').
Proof.
  intros Hst Hr. unfold encrypt_session. rewrite Hst. cbn [converse or_fail app]. pose proof (request_size req req_fits) as Hs.
  assert (Hl : (length (enc init_request_codec (QueryEncrypt req)) ≤ tls_fragment)%nat)
    by (cbn [enc init_request_codec length]; lia).
  rewrite records_small by done. unfold run_server. rewrite serve_read, init_decodes by by apply buffer_fits.
  unfold handle_encryption_request. rewrite construct_request_eq, req_sealed. cbn [fmap option_fmap option_map serve].
  change {| query_txid := request_id req; query_sealed_enc_request := raw; query_tx_inputs := request_inputs req |}
    with query_request. destruct (host_answers _ _ Hr) as [rest Hh]. cbv zeta in Hh. rewrite Hh. cbn [mbind option_bind].
  rewrite !decide_False by (intros ?; done). destruct (reply_size _ _ _ Hr) as [Ha _].
  rewrite (decode_padded enclave_response_ok) by (apply enclave_response_codec_ok || done).
  cbn [serve mbind option_bind app converse]. rewrite (response_decodes _ _ _ Hr). by destruct a.
Qed.

(** C35. What a wallet gets for a transaction it wants encrypted.  A wallet sends a signed
    transaction that passes the limits on sizes to the query enclave, whose host runs a
    validation server that has seen a block and keeps the transactions that the inputs
    spend.  When the validation library accepts the transaction, the wallet gets the public
    transaction with a payload which the validation enclave encrypted and which it opens to
    the same plain transaction; when the library refuses it, the wallet gets an error and
    nothing changes.  The answer always fits the buffers on the way. *)
Theorem wallet_encrypts_exactly st n :
  request_of st = req → rng_at n = r → accepts n = true →
  match v with
  | Ok _ => ∃ pl e',
      encrypt (enclave s) {| to_payload := enc plain_tx_aux_codec (request_plain req); to_txid := request_id req |} = Some (pl, e')
      ∧ obfuscation_encrypt accepts rng_at st {| tqe_server := s; tqe_served := n |}
        = Some (Ok (EnclaveTx (public_tx req pl)), {| tqe_server := set_enclave s e'; tqe_served := S n |})
      ∧ txid pl = request_id req ∧ decrypt pl = Some (request_plain req)
  | Err _ =>
      obfuscation_encrypt accepts rng_at st {| tqe_server := s; tqe_served := n |}
      = Some (Err Kind.InvalidInput, {| tqe_server := s; tqe_served := S n |})
  end.
Proof.
  intros Hst Hrng Hacc. unfold obfuscation_encrypt, connect. cbn [tqe_served tqe_server]. rewrite Hacc, Hrng.
  destruct (reply_exists (enclave s)) as [[a e'] Hr]. rewrite (encrypt_converses _ _ _ Hst Hr). cbn [mbind option_bind].
  unfold verdict_reply in Hr. destruct v as [u|err].
  - destruct (encrypt (enclave s) to_obfuscate) as [[pl e1]|] eqn:Ee; [|done]. injection Hr as <- <-. exists pl, e1.
    split; [exact Ee|]. split; [done|]. unfold encrypt in Ee. destruct (fill_bytes (rng (enclave s)) 12) as [iv r'].
    cbn [to_obfuscate to_payload to_txid] in Ee. destruct (aead_encrypt _ _ _ _) as [c|] eqn:Ec; [|done].
    injection Ee as <- _. split; [done|]. unfold decrypt. cbn [init_vector txid txpayload].
    rewrite (aead_decrypt_encrypt _ _ _ _ _ Ec). cbn [mbind option_bind]. apply plain_decodes.
  - injection Hr as <- <-. by rewrite set_enclave_same.
Qed.
End encryption.
End wallet.

(** ** Witnesses *)

Module TxQueryExample.
Import Validation.Example ServerExample ClientExample.

#[export] Instance ecdsa_ref : Ecdsa := {|
  Signature := byte; secp_sign := λ _ b, b;
  secp_verify := λ _ sig pk, if decide (sig = pk) then Ok () else Err InvalidMessage;
  signature_serialize_compact := Ref.padded 63; signature_from_compact := Ref.unpad 63 |}.
#[export] Instance ecdsa_ref_laws : EcdsaLaws.
Proof.
  split; intros.
  - cbn. by rewrite decide_True.
  - apply Ref.unpad_padded.
  - reflexivity.
Qed.
#[export] Existing Instance scale_ref_sizes.
#[export] Instance scale_ref_vec : ScaleVec.
Proof.
  split.
  - intros A c l rest Hl. cbn [vec_codec scale_ref vec_ref enc dec]. rewrite <- app_assoc.
    rewrite (dbind_ok (λ n, 0 ≤ n ≤ U32_MAX)) by (apply compact_len_ok || lia). by rewrite Nat2Z.id.
  - done.
Qed.

Definition spend_id : TxId := transaction_id tx_codec spend.
Definition prev_log : SealedLog := seal_raw (id pointer, enc tx_with_outputs_codec (Transfer prev_tx)).
Definition spend_log : SealedLog := seal_raw (spend_id, enc tx_with_outputs_codec (Transfer spend)).
Definition query_server : TxValidationServer :=
  {| enclave := {| block_filter := filter_default; rng := tt |};
     txdb := {[id pointer := prev_log; spend_id := spend_log]}; metadb := ∅; server_info := Some info |}.

Definition always : nat → bool := λ _, true.
Definition rngs : nat → Rng := λ _, tt.

Lemma ids_kept_example : lookup_txids (txdb query_server) [spend_id] = Some [spend_log].
Proof. vm_cast_no_check (@eq_refl (option (list (list byte))) (Some [spend_log])). Qed.

Lemma spend_opens : Forall3 (λ i raw t, log_ok raw ∧ unseal_tx i raw = Some t) [spend_id] [spend_log] [Transfer spend].
Proof.
  constructor; [|constructor]. split; [apply vec_ok_any; vm_compute; discriminate|].
  vm_cast_no_check (@eq_refl (option TxWithOutputs) (Some (Transfer spend))).
Qed.

Definition viewer_key : PrivateKey := Byte.x05.
Definition all_holds : bool :=
  buffer_holds [spend_id] [spend_log] && reply_fits (viewed_by [Transfer spend] (pk_from_secret_key viewer_key))
  && (length (viewed_by [Transfer spend] (pk_from_secret_key viewer_key)) =? 1)%nat.
Lemma all_holds_true : all_holds = true.
Proof. vm_cast_no_check (@eq_refl bool true). Qed.

Lemma wallet_decrypts_exactly_witness :
  ∃ txs t, obfuscation_decrypt always rngs [spend_id] viewer_key {| tqe_server := query_server; tqe_served := 0 |}
    = Some (Ok txs, t) ∧ length txs = 1%nat ∧ tqe_server t = query_server.
Proof.
  destruct (wallet_decrypts_exactly always rngs query_server [spend_id] [spend_log] [Transfer spend])
    with (sk := viewer_key) (n := 0%nat) as (t & Ht & Hs).
  - apply Forall_singleton. apply Ref.digest_length.
  - cbn. lia.
  - exact ids_kept_example.
  - exact spend_opens.
  - discriminate.
  - reflexivity.
  - reflexivity.
  - reflexivity.
  - pose proof all_holds_true as Ha. unfold all_holds in Ha. apply andb_true_iff in Ha as [Ha Hl].
    unfold decrypted in Ht. rewrite Ha in Ht. eexists _, t. split; [exact Ht|]. split; [|exact Hs].
    rewrite length_fmap. apply Nat.eqb_eq, Hl.
Defined.

Definition spend_request : EncryptionRequest := EncTransferTx spend witness.
Definition request_log : SealedLog := seal_raw (spend_id, enc encryption_request_codec spend_request).

Lemma spend_request_ok : encryption_request_ok spend_request.
Proof.
  split.
  - apply (decode_typed tx_ok tx_codec (enc tx_codec spend)); [apply tx_codec_typed|].
    vm_cast_no_check (@eq_refl (option Tx) (Some spend)).
  - apply (decode_typed witness_ok tx_witness_codec (enc tx_witness_codec witness)); [apply tx_witness_codec_typed|].
    vm_cast_no_check (@eq_refl (option TxWitness) (Some witness)).
Qed.

Lemma spend_sealed : get_sealed_request (rngs 0) spend_request (request_id spend_request) = Some request_log.
Proof. vm_cast_no_check (@eq_refl (option SealedLog) (Some request_log)). Qed.

Definition spend_verdict : bool :=
  match verify_transfer spend witness info [Transfer prev_tx] with Some (Ok _) => true | _ => false end.
Lemma spend_verdict_true : spend_verdict = true.
Proof. vm_cast_no_check (@eq_refl bool true). Qed.

Lemma spend_verdict_ok : request_verdict spend_request info [Transfer prev_tx] = Some (Ok ()).
Proof.
  pose proof spend_verdict_true as Hv. unfold spend_verdict in Hv. cbn [request_verdict spend_request].
  destruct (verify_transfer _ _ _ _) as [[fee|]|]; [reflexivity | discriminate Hv..].
Qed.

Definition prev_logs : option (list SealedLog) := Some [prev_log].
Lemma prev_kept : (ins ← request_inputs spend_request; lookup_txids (txdb query_server) (id <$> ins)) = prev_logs.
Proof. vm_cast_no_check (@eq_refl (option (list SealedLog)) prev_logs). Qed.

Lemma prev_opens : check_unseal None false [id pointer] [prev_log] = Some [Transfer prev_tx].
Proof. vm_cast_no_check (@eq_refl (option (list TxWithOutputs)) (Some [Transfer prev_tx])). Qed.

Lemma wallet_encrypts_exactly_witness :
  ∃ pl t, obfuscation_encrypt always rngs (SignedTransfer spend witness) {| tqe_server := query_server; tqe_served := 0 |}
    = Some (Ok (EnclaveTx (TransferTx [pointer] 1 pl)), t) ∧ decrypt pl = Some (PlainTransferTx spend witness).
Proof.
  destruct (wallet_encrypts_exactly always rngs query_server spend_request info prev_logs [Transfer prev_tx] (Ok ())
    (rngs 0) request_log) with (st := SignedTransfer spend witness) (n := 0%nat) as (pl & e' & _ & Hx & _ & Hd).
  - cbn. lia.
  - exact spend_request_ok.
  - vm_compute. discriminate.
  - exact spend_sealed.
  - reflexivity.
  - split_and!; vm_compute; split; discriminate.
  - exact prev_kept.
  - intros ins Hins. injection Hins as <-. exists [prev_log]. split; [reflexivity | exact prev_opens].
  - split; [vm_compute; discriminate|]. apply Forall_singleton, vec_ok_any. vm_compute. discriminate.
  - vm_compute. discriminate.
  - discriminate.
  - exact spend_verdict_ok.
  - reflexivity.
  - reflexivity.
  - reflexivity.
  - eexists pl, _. split; [exact Hx | exact Hd].
Defined.

(** A peer asks, signs the challenge and gets the transaction. *)
Definition peer_request : DecryptionRequest :=
  {| request_body := {| body_txs := [spend_id]; body_view_key := viewer; body_challenge := (fill_bytes (rngs 0) 32).1 |};
     view_key_sig := (viewer : Signature) |}.
Definition host_answer : list byte :=
  let msg := enc enclave_response_codec (RespGetSealedTxData (Some [spend_log])) in
  msg ++ replicate (Z.to_nat 8000 - length msg) Byte.x00.
Definition conversation : list event :=
  [Received (Some [Byte.x01]); Sent (enc init_response_codec (RespQueryDecryptChallenge (fill_bytes (rngs 0) 32).1));
   Received (Some (enc decryption_request_codec peer_request));
   Asked (enc enclave_request_codec (GetSealedTxData [spend_id])) (SGX_SUCCESS, SGX_SUCCESS, host_answer)].
Definition reply_bytes : list byte := enc decryption_response_codec [Transfer spend].

Lemma peer_decodes : decode decryption_request_codec (enc decryption_request_codec peer_request) = Some peer_request.
Proof.
  apply (decode_ok (λ r, body_ok (request_body r))); [apply decryption_request_codec_ok|].
  split; [|reflexivity]. split; [vm_compute; discriminate|]. apply Forall_singleton, Ref.digest_length.
Qed.

Lemma peer_short : Z.of_nat (length (enc decryption_request_codec peer_request)) ≤ 200.
Proof. vm_compute. discriminate. Qed.

Lemma peer_verified : decryption_request_verify peer_request (fill_bytes (rngs 0) 32).1 = Some (Ok ()).
Proof. vm_cast_no_check (@eq_refl (option (result SecpError ())) (Some (Ok ()))). Qed.

Lemma host_answer_length : length host_answer = (1 * Z.to_nat 8000)%nat.
Proof.
  unfold host_answer. assert (Hl : Z.of_nat (length (enc enclave_response_codec (RespGetSealedTxData (Some [spend_log])))) ≤ 8000)
    by (vm_compute; discriminate). rewrite length_app, length_replicate. lia.
Qed.

Lemma host_answer_decodes : decode enclave_response_codec host_answer = Some (RespGetSealedTxData (Some [spend_log])).
Proof.
  apply (decode_padded enclave_response_ok); [apply enclave_response_codec_ok|]. split; [vm_compute; discriminate|].
  apply Forall_singleton, vec_ok_any. vm_compute. discriminate.
Qed.

Lemma spend_viewed : check_unseal (Some viewer) true [spend_id] [spend_log] = Some [Transfer spend].
Proof. vm_cast_no_check (@eq_refl (option (list TxWithOutputs)) (Some [Transfer spend])). Qed.

Lemma conversation_happens : trace (run_server (rngs 0)) (conversation ++ [Sent reply_bytes]).
Proof.
  unfold run_server, conversation. cbn [app]. apply trace_read; [unfold ENCRYPTION_REQUEST_SIZE; cbn [from_option length]; lia|].
  replace (decode init_request_codec [Byte.x01]) with (Some QueryDecryptChallenge) by reflexivity.
  unfold handle_decryption_request. cbv zeta. apply (trace_write _ _ true). cbn [negb]. apply (trace_flush _ true).
  apply trace_read; [unfold ENCRYPTION_REQUEST_SIZE; cbn [from_option]; pose proof peer_short; lia|].
  unfold answer_request. rewrite peer_decodes, peer_verified.
  unfold process_decryption_request. cbn [mbind session_mbind session_bind peer_request request_body body_txs].
  apply trace_ocall; [exact host_answer_length|]. rewrite decide_True, host_answer_decodes by done. cbn [session_bind body_view_key].
  rewrite spend_viewed. apply (trace_write _ _ true), (trace_flush _ true), trace_stop.
Qed.

Lemma query_enclave_reveals_witness :
  trace (run_server (rngs 0)) (conversation ++ [Sent reply_bytes])
  ∧ may_send (fill_bytes (rngs 0) 32).1 conversation reply_bytes.
Proof.
  split; [exact conversation_happens|].
  exact (query_enclave_reveals (rngs 0) _ conversation reply_bytes [] conversation_happens eq_refl).
Defined.
End TxQueryExample.
