(* ===== verification/WebsocketRpc.v ===== *)
(** * WebsocketRpc: the client of Tendermint's RPC over a websocket

    Models [src/client-common/src/tendermint/websocket_rpc_client.rs] and
    [websocket_rpc_client/websocket_rpc_loop.rs]: the calls of any number of threads, the
    thread that reads the connection and hands responses to the channels of the calls, and
    the thread that reconnects, as a transition system whose steps are what happens under one
    lock.  JSON is the classes [Json] and [JsonRpc].  The methods of the trait [Client] over
    the calls are in [RpcClient].

    The theorems: whatever the interleaving, the values of a call answer its own requests;
    a batch in which one request fails makes the reading thread end. *)

From stdpp Require Import base tactics option list gmap strings relations.
From Stdlib Require Import ZArith Lia.
From S2P Require Import Prelude Text Codec Coin Crypto Account TxTypes.
From S2P Require Import Client.

(** ** Messages *)

Class Json := {
  Value : Type;
  json_null : Value;
  json_string : str → Value;
  json_bytes : list byte → Value;
}.

Section messages.
Context `{Json}.

Inductive ConnectionState := Connected | Disconnected.

Record JsonRpcError := { rpc_code : Z; rpc_message : str; rpc_data : option Value }.
Record JsonRpcResponse := {
  response_id : str;
  response_jsonrpc : str;
  response_error : option JsonRpcError;
  response_result : option Value;
}.

(** The messages of a websocket. *)
Inductive OwnedMessage :=
  | Text (message : str)
  | Binary (data : list byte)
  | Ping (data : list byte)
  | Other.
End messages.

Class JsonRpc `{Json} := { parse_response : list byte → option JsonRpcResponse }.

(** ** Shared state *)

Section websocket.
Context `{JsonRpc}.

(** The method and the parameters of a call. *)
Abbreviation Request := (str * list Value)%type (only parsing).

(** A channel with room for one response.  It remembers the identifier it was made for. *)
Record Channel := { channel_id : str; buffer : option JsonRpcResponse; receiver_alive : bool }.

(** The reading thread waits for a message, has taken a sender out of the map and is about
    to send, or has ended. *)
Inductive Reader :=
  | Reading
  | Delivering (channel : nat) (response : JsonRpcResponse)
  | Ended.

(** What the threads share.  [respawned] says that the monitor has started a new reading
    thread and not yet changed the state of the connection.  The messages sent and the
    responses that arrived are recorded. *)
Record Shared := {
  connection_state : ConnectionState;
  channel_map : gmap str nat;
  channels : gmap nat Channel;
  reader : Reader;
  respawned : bool;
  sent_messages : list (str * Request);
  arrived : list JsonRpcResponse;
}.

Definition set_channel_map (w : Shared) (m : gmap str nat) : Shared :=
  {| connection_state := connection_state w; channel_map := m; channels := channels w; reader := reader w; respawned := respawned w;
     sent_messages := sent_messages w; arrived := arrived w |}.
Definition set_channels (w : Shared) (c : gmap nat Channel) : Shared :=
  {| connection_state := connection_state w; channel_map := channel_map w; channels := c; reader := reader w; respawned := respawned w;
     sent_messages := sent_messages w; arrived := arrived w |}.
Definition set_reader (w : Shared) (r : Reader) : Shared :=
  {| connection_state := connection_state w; channel_map := channel_map w; channels := channels w; reader := r; respawned := respawned w;
     sent_messages := sent_messages w; arrived := arrived w |}.
Definition set_connection (w : Shared) (c : ConnectionState) (r : Reader) (b : bool) : Shared :=
  {| connection_state := c; channel_map := channel_map w; channels := channels w; reader := r; respawned := b;
     sent_messages := sent_messages w; arrived := arrived w |}.
Definition record_sent (w : Shared) (m : str * Request) : Shared :=
  {| connection_state := connection_state w; channel_map := channel_map w; channels := channels w; reader := reader w; respawned := respawned w;
     sent_messages := sent_messages w ++ [m]; arrived := arrived w |}.
Definition record_arrived (w : Shared) (r : JsonRpcResponse) : Shared :=
  {| connection_state := connection_state w; channel_map := channel_map w; channels := channels w; reader := reader w; respawned := respawned w;
     sent_messages := sent_messages w; arrived := arrived w ++ [r] |}.

(** ** The reading thread *)

(** [send_response]: the sender is taken out of the map under the lock. *)
Definition send_response (w : Shared) (response : JsonRpcResponse) : Shared :=
  let sender := channel_map w !! response_id response in
  let w := set_channel_map w (delete (response_id response) (channel_map w)) in
  match sender with
  | Some channel => set_reader w (Delivering channel response)
  | None => w
  end.

Definition handle_json_response (w : Shared) (response : option JsonRpcResponse) : Shared :=
  match response with
  | Some response => send_response (record_arrived w response) response
  | None => w
  end.

Definition handle_text (w : Shared) (message : str) : Shared := handle_json_response w (parse_response message).
Definition handle_slice (w : Shared) (message : list byte) : Shared := handle_json_response w (parse_response message).

(** The body of the loop of [spawn]. *)
Definition handle_message (w : Shared) (message : OwnedMessage) : Shared :=
  match message with
  | Text message => handle_text w message
  | Binary message => handle_slice w message
  | Ping _ | Other => w
  end.

(** [sender.send(response).expect(..)]: sending to a channel whose receiver is gone panics
    and ends the thread. *)
Definition deliver (w : Shared) : Shared :=
  match reader w with
  | Delivering channel response =>
      match channels w !! channel with
      | Some c =>
          if receiver_alive c
          then set_reader (set_channels w (<[channel := {| channel_id := channel_id c; buffer := Some response;
                                                           receiver_alive := true |}]> (channels w))) Reading
          else set_reader w Ended
      | None => set_reader w Ended
      end
  | _ => w
  end.

(** The steps of [monitor].  While connected it waits for the reading thread to end; a new
    reading thread is started before the state of the connection changes. *)
Definition monitor (w : Shared) (reconnects : bool) : Shared :=
  match connection_state w with
  | Disconnected =>
      if respawned w then set_connection w Connected (reader w) false
      else if reconnects then set_connection w Disconnected Reading true else w
  | Connected => set_connection w Disconnected (reader w) false
  end.

(** ** Calls *)

(** A request that was sent, with the receiving end of its channel. *)
Record Pending := { pending_id : str; pending_channel : nat; pending_request : Request }.
(** A value, with the request and the identifier it was received for. *)
Record Answer := { answer_id : str; answer_request : Request; answer_value : Value }.

(** Where a thread is in [request] or [request_batch]. *)
Inductive Phase :=
  | Preparing (receivers : list Pending) (todo : list Request)
  | Ensuring (tries : nat) (receivers : list Pending) (p : Pending) (todo : list Request)
  | Writing (receivers : list Pending) (p : Pending) (todo : list Request)
  | WriteFailed (receivers : list Pending) (p : Pending)
  | Receiving (receivers : list Pending) (got : list Answer)
  | ReceiveFailed (p : Pending) (receivers : list Pending)
  | Finished (r : result ErrorKind (list Answer)).

Definition WAIT_FOR_CONNECTION_COUNT : nat := 50.

(** The end of [receive_response]. *)
Definition response_value (response : JsonRpcResponse) : result ErrorKind Value :=
  match response_error response with
  | Some _ => Err Kind.TendermintRpcError
  | None => Ok (default json_null (response_result response))
  end.

Definition drop_receiver (channels : gmap nat Channel) (channel : nat) : gmap nat Channel :=
  alter (λ c, {| channel_id := channel_id c; buffer := buffer c; receiver_alive := false |}) channel channels.
(** What a call that returns still owns is dropped. *)
Definition drop_receivers (w : Shared) (l : list Pending) : Shared :=
  set_channels w (foldl drop_receiver (channels w) (pending_channel <$> l)).

(** [send_request] up to the insertion into the map. *)
Definition open_channel (w : Shared) (id : str) (channel : nat) : Shared :=
  set_channel_map
    (set_channels w (<[channel := {| channel_id := id; buffer := None; receiver_alive := true |}]> (channels w)))
    (<[id := channel]> (channel_map w)).

Definition remove_id (w : Shared) (id : str) : Shared := set_channel_map w (delete id (channel_map w)).

Definition take_response (w : Shared) (p : Pending) : Shared :=
  set_channels w (alter (λ c, {| channel_id := channel_id c; buffer := None; receiver_alive := false |})
                    (pending_channel p) (channels w)).

(** What one thread can do, with the shared state before and after. *)
Inductive call_step : Phase → Shared → Phase → Shared → Prop :=
  | step_prepare w receivers req todo id channel :
      channels w !! channel = None →
      call_step (Preparing receivers (req :: todo)) w
        (Ensuring WAIT_FOR_CONNECTION_COUNT receivers
           {| pending_id := id; pending_channel := channel; pending_request := req |} todo)
        (open_channel w id channel)
  | step_prepared w receivers : call_step (Preparing receivers []) w (Receiving receivers []) w
  | step_connected w n receivers p todo :
      connection_state w = Connected →
      call_step (Ensuring (S n) receivers p todo) w (Writing receivers p todo) w
  | step_wait w n receivers p todo :
      connection_state w = Disconnected →
      call_step (Ensuring (S n) receivers p todo) w (Ensuring n receivers p todo) w
  | step_give_up w receivers p todo :
      call_step (Ensuring 0 receivers p todo) w (Finished (Err Kind.InternalError)) (drop_receivers w (p :: receivers))
  | step_write w receivers p todo :
      call_step (Writing receivers p todo) w (Preparing (receivers ++ [p]) todo)
        (record_sent w (pending_id p, pending_request p))
  | step_write_fails w receivers p todo : call_step (Writing receivers p todo) w (WriteFailed receivers p) w
  | step_write_failed w receivers p :
      call_step (WriteFailed receivers p) w (Finished (Err Kind.InternalError))
        (drop_receivers (remove_id w (pending_id p)) (p :: receivers))
  | step_receive w p receivers got c response v :
      channels w !! pending_channel p = Some c → buffer c = Some response → response_value response = Ok v →
      call_step (Receiving (p :: receivers) got) w
        (Receiving receivers (got ++ [{| answer_id := pending_id p; answer_request := pending_request p; answer_value := v |}]))
        (take_response w p)
  | step_receive_error w p receivers got c response e :
      channels w !! pending_channel p = Some c → buffer c = Some response → response_value response = Err e →
      call_step (Receiving (p :: receivers) got) w (Finished (Err e)) (drop_receivers w (p :: receivers))
  | step_timeout w p receivers got c :
      channels w !! pending_channel p = Some c → buffer c = None →
      call_step (Receiving (p :: receivers) got) w (ReceiveFailed p receivers) w
  | step_timed_out w p receivers :
      call_step (ReceiveFailed p receivers) w (Finished (Err Kind.InternalError))
        (drop_receivers (remove_id w (pending_id p)) (p :: receivers))
  | step_received w got : call_step (Receiving [] got) w (Finished (Ok got)) w.

(** The threads that call, each with the requests of its call. *)
Record State := { calls : gmap nat (list Request * Phase); shared : Shared }.

Inductive step : State → State → Prop :=
  | step_start s c reqs :
      calls s !! c = None →
      step s {| calls := <[c := (reqs, Preparing [] reqs)]> (calls s); shared := shared s |}
  | step_call s c reqs ph ph' w' :
      calls s !! c = Some (reqs, ph) → call_step ph (shared s) ph' w' →
      step s {| calls := <[c := (reqs, ph')]> (calls s); shared := w' |}
  | step_message s message :
      reader (shared s) = Reading →
      step s {| calls := calls s; shared := handle_message (shared s) message |}
  | step_broken s :
      reader (shared s) = Reading → step s {| calls := calls s; shared := set_reader (shared s) Ended |}
  | step_deliver s : step s {| calls := calls s; shared := deliver (shared s) |}
  | step_monitor s reconnects :
      (connection_state (shared s) = Connected → reader (shared s) = Ended) →
      step s {| calls := calls s; shared := monitor (shared s) reconnects |}.

(** [WebsocketRpcClient::new]. *)
Definition new_client : State :=
  {| calls := ∅;
     shared := {| connection_state := Connected; channel_map := ∅; channels := ∅; reader := Reading; respawned := false;
                  sent_messages := []; arrived := [] |} |}.

(** ** Answers match their requests *)

Definition channel_of (w : Shared) (id : str) (channel : nat) : Prop :=
  ∃ c, channels w !! channel = Some c ∧ channel_id c = id.

Record shared_ok (w : Shared) : Prop := {
  map_registered id channel : channel_map w !! id = Some channel → channel_of w id channel;
  buffer_matches channel c response :
    channels w !! channel = Some c → buffer c = Some response → response_id response = channel_id c ∧ response ∈ arrived w;
  reader_matches channel response :
    reader w = Delivering channel response → channel_of w (response_id response) channel ∧ response ∈ arrived w;
}.

Definition pending_ok (w : Shared) (p : Pending) : Prop := channel_of w (pending_id p) (pending_channel p).
Definition pending_sent (w : Shared) (p : Pending) : Prop :=
  pending_ok w p ∧ (pending_id p, pending_request p) ∈ sent_messages w.
Definition answer_ok (w : Shared) (a : Answer) : Prop :=
  (answer_id a, answer_request a) ∈ sent_messages w
  ∧ ∃ response, response ∈ arrived w ∧ response_id response = answer_id a ∧ response_value response = Ok (answer_value a).

Definition phase_ok (w : Shared) (reqs : list Request) (ph : Phase) : Prop :=
  match ph with
  | Preparing receivers todo => reqs = (pending_request <$> receivers) ++ todo ∧ Forall (pending_sent w) receivers
  | Ensuring _ receivers p todo | Writing receivers p todo =>
      reqs = (pending_request <$> receivers) ++ pending_request p :: todo ∧ Forall (pending_sent w) receivers ∧ pending_ok w p
  | Receiving receivers got =>
      reqs = (answer_request <$> got) ++ (pending_request <$> receivers) ∧ Forall (answer_ok w) got ∧ Forall (pending_sent w) receivers
  | Finished (Ok got) => reqs = answer_request <$> got ∧ Forall (answer_ok w) got
  | _ => True
  end.

(** What the shared state keeps: channels keep their identifiers, records grow. *)
Record extends (w w' : Shared) : Prop := {
  extends_channel id channel : channel_of w id channel → channel_of w' id channel;
  extends_sent m : m ∈ sent_messages w → m ∈ sent_messages w';
  extends_arrived r : r ∈ arrived w → r ∈ arrived w';
}.
#[local] Instance extends_preorder : PreOrder extends.
Proof. split; [by intros w; split|]. intros w1 w2 w3 [] []. split; eauto. Qed.

Lemma answer_extends w w' a : extends w w' → answer_ok w a → answer_ok w' a.
Proof. intros [] (? & r & ? & ? & ?). split; [eauto|]. exists r. eauto. Qed.

Lemma pending_extends w w' p : extends w w' → pending_sent w p → pending_sent w' p.
Proof. intros [] []. split; [by apply extends_channel0 | eauto]. Qed.

Lemma phase_extends w w' reqs ph : extends w w' → phase_ok w reqs ph → phase_ok w' reqs ph.
Proof.
  intros He. assert (Hp := pending_extends w w'). assert (Ha := answer_extends w w').
  destruct ph as [| | | | | |[]]; cbn; intuition eauto using Forall_impl; by apply (extends_channel _ _ He).
Qed.

(** Dropping receivers changes neither identifiers nor buffers. *)
Lemma drop_receiver_lookup l m channel :
  option_Forall2 (λ c c', channel_id c = channel_id c' ∧ buffer c = buffer c')
    (m !! channel) (foldl drop_receiver m l !! channel).
Proof.
  revert m. induction l as [|a l IH]; intros m; cbn [foldl].
  { destruct (m !! channel); constructor. done. }
  specialize (IH (drop_receiver m a)). unfold drop_receiver in IH at 1.
  destruct (decide (a = channel)) as [->|Hne].
  - rewrite lookup_alter_eq in IH. destruct (m !! channel) as [c|]; cbn in IH; [|done].
    inversion IH as [? c' [] Hx Hy|]; subst. by constructor.
  - by rewrite lookup_alter_ne in IH by done.
Qed.

Lemma drop_receivers_extends w l : extends w (drop_receivers w l).
Proof.
  split; [|done..]. intros id channel (c & Hc & Hid). pose proof (drop_receiver_lookup (pending_channel <$> l) (channels w) channel) as Hd.
  rewrite Hc in Hd. inversion Hd as [? c' [He _] Hx Hy|]; subst. exists c'. by rewrite <- He.
Qed.

Lemma drop_receivers_ok w l : shared_ok w → shared_ok (drop_receivers w l).
Proof.
  intros Hw. pose proof (drop_receivers_extends w l) as He. split.
  - intros id channel Hm. apply (extends_channel _ _ He), (map_registered _ Hw _ _ Hm).
  - intros channel c response Hc Hb. cbn in Hc. pose proof (drop_receiver_lookup (pending_channel <$> l) (channels w) channel) as Hd.
    rewrite Hc in Hd. inversion Hd as [c0 ? [Hi Hb'] Hx Hy|]; subst. rewrite <- Hi. apply (buffer_matches _ Hw channel); [done|].
    by rewrite Hb'.
  - intros channel response Hr. destruct (reader_matches _ Hw _ _ Hr). split; [by apply (extends_channel _ _ He) | done].
Qed.

Lemma remove_id_ok w id : shared_ok w → shared_ok (remove_id w id) ∧ extends w (remove_id w id).
Proof.
  intros []. split; [|by split]. split; [|done..]. intros id' channel Hm. cbn in Hm.
  apply lookup_delete_Some in Hm as [_ Hm]. by apply map_registered0.
Qed.

Lemma remove_drop_ok w id l :
  shared_ok w → shared_ok (drop_receivers (remove_id w id) l) ∧ extends w (drop_receivers (remove_id w id) l).
Proof.
  intros Hw. destruct (remove_id_ok w id Hw) as [H1 H2]. split; [by apply drop_receivers_ok|].
  etrans; [exact H2 | apply drop_receivers_extends].
Qed.

Lemma channel_of_insert w id channel c channel' :
  channels w !! channel' = None ∨ (∃ c', channels w !! channel' = Some c' ∧ channel_id c' = channel_id c) →
  channel_of w id channel → channel_of (set_channels w (<[channel' := c]> (channels w))) id channel.
Proof.
  intros Hc (c0 & Hc0 & Hid). destruct (decide (channel = channel')) as [->|Hne].
  - destruct Hc as [Hc|(c' & Hc & Hi)]; [congruence|]. exists c. cbn. rewrite lookup_insert_eq. split; [done|]. congruence.
  - exists c0. cbn. by rewrite lookup_insert_ne.
Qed.

Lemma open_channel_ok w id channel :
  channels w !! channel = None → shared_ok w →
  shared_ok (open_channel w id channel) ∧ extends w (open_channel w id channel) ∧ channel_of (open_channel w id channel) id channel.
Proof.
  intros Hn [Hm Hb Hr].
  assert (Hx : ∀ id' ch', channel_of w id' ch' → channel_of (open_channel w id channel) id' ch').
  { intros id' ch' Hc. apply (channel_of_insert w); [by left | done]. }
  assert (Hnew : channel_of (open_channel w id channel) id channel).
  { eexists. cbn. by rewrite lookup_insert_eq. }
  split; [split|by split; [split|]].
  - intros id' ch' Hc. cbn in Hc. apply lookup_insert_Some in Hc as [[<- <-]|[_ Hc]]; [done | by apply Hx, Hm].
  - intros ch' c response Hc Hbuf. cbn in Hc. apply lookup_insert_Some in Hc as [[_ <-]|[_ Hc]]; [done | by eapply Hb].
  - intros ch' response Hd. destruct (Hr _ _ Hd). split; [by apply Hx | done].
Qed.

Lemma take_response_ok w p : shared_ok w → shared_ok (take_response w p) ∧ extends w (take_response w p).
Proof.
  intros [Hm Hb Hr].
  assert (Hx : ∀ id ch, channel_of w id ch → channel_of (take_response w p) id ch).
  { intros id ch (c & Hc & Hid). unfold channel_of, take_response. cbn [channels set_channels]. destruct (decide (ch = pending_channel p)) as [->|Hne].
    - rewrite lookup_alter_eq, Hc. cbn. by eexists.
    - rewrite lookup_alter_ne by done. by exists c. }
  split; [split|by split].
  - intros id ch Hc. by apply Hx, Hm.
  - intros ch c response Hc Hbuf. unfold take_response in Hc. cbn [channels set_channels] in Hc.
    destruct (decide (ch = pending_channel p)) as [->|Hne].
    + rewrite lookup_alter_eq in Hc. destruct (channels w !! pending_channel p); cbn in Hc; [|done]. injection Hc as <-. done.
    + rewrite lookup_alter_ne in Hc by done. by eapply Hb.
  - intros ch response Hd. destruct (Hr _ _ Hd). split; [by apply Hx | done].
Qed.

Lemma deliver_ok w : shared_ok w → shared_ok (deliver w) ∧ extends w (deliver w).
Proof.
  intros Hw. unfold deliver. destruct (reader w) as [|channel response|] eqn:Er; [done| |done].
  destruct (reader_matches _ Hw _ _ Er) as [(c & Hc & Hid) Ha]. rewrite Hc. destruct Hw as [Hm Hb Hr].
  destruct (receiver_alive c); [|split; [by split | by split]].
  set (c' := {| channel_id := channel_id c |}).
  assert (Hx : ∀ id ch, channel_of w id ch → channel_of (set_channels w (<[channel := c']> (channels w))) id ch).
  { intros id ch Hch. apply channel_of_insert; [right; by exists c | done]. }
  split; [split|by split].
  - intros id ch Hch. by apply Hx, Hm.
  - intros ch c0 resp Hc0 Hbuf. cbn in Hc0. apply lookup_insert_Some in Hc0 as [[_ <-]|[_ Hc0]]; [|by eapply Hb]. cbn in Hbuf. injection Hbuf as <-. by split.
  - done.
Qed.

Lemma handle_message_ok w m :
  reader w = Reading → shared_ok w → shared_ok (handle_message w m) ∧ extends w (handle_message w m).
Proof.
  intros Hread Hw. assert (Hall : ∀ o, shared_ok (handle_json_response w o) ∧ extends w (handle_json_response w o)).
  2: { destruct m; [apply Hall | apply Hall | by split..]. }
  intros [response|]; [|by split]. destruct Hw as [Hm Hb Hr]. cbn [handle_json_response]. unfold send_response. cbn.
  assert (Ha : ∀ r, r ∈ arrived w → r ∈ arrived w ++ [response]) by (intros r Hin; apply elem_of_app; by left).
  assert (Hlast : response ∈ arrived w ++ [response]) by (apply elem_of_app; right; by left).
  destruct (channel_map w !! response_id response) as [channel|] eqn:Em; (split; [split|by split]); cbn.
  - intros id ch [_ Hc]%lookup_delete_Some. by apply Hm.
  - intros ch c r Hc Hbuf. destruct (Hb _ _ _ Hc Hbuf). eauto.
  - intros ch r [= <- <-]. split; [by apply Hm | done].
  - intros id ch [_ Hc]%lookup_delete_Some. by apply Hm.
  - intros ch c r Hc Hbuf. destruct (Hb _ _ _ Hc Hbuf). eauto.
  - intros ch r Hd. congruence.
Qed.

Lemma receive_answer w p c response v :
  shared_ok w → pending_sent w p → channels w !! pending_channel p = Some c → buffer c = Some response →
  response_value response = Ok v →
  answer_ok w {| answer_id := pending_id p; answer_request := pending_request p; answer_value := v |}.
Proof.
  intros Hw [(c' & Hc' & Hid) Hs] Hc Hb Hv. split; [done|]. exists response.
  destruct (buffer_matches _ Hw _ _ _ Hc Hb). split; [done|]. split; [|done]. cbn. congruence.
Qed.

Lemma call_step_ok w reqs ph ph' w' :
  call_step ph w ph' w' → shared_ok w → phase_ok w reqs ph → shared_ok w' ∧ extends w w' ∧ phase_ok w' reqs ph'.
Proof.
  intros Hstep Hw. destruct Hstep as [w rs req todo id ch Hn|w rs|w n rs p todo Hc|w n rs p todo Hc|w rs p todo|w rs p todo
    |w rs p todo|w rs p|w p rs got c r v Hc Hb Hv|w p rs got c r e Hc Hb Hv|w p rs got c Hc Hb|w p rs|w got]; cbn [phase_ok]; intros Hp.
  - destruct Hp as [-> Hrs]. destruct (open_channel_ok w id ch Hn Hw) as (H1 & H2 & H3). split; [done|]. split; [done|].
    split; [done|]. split; [|done]. eapply Forall_impl; [exact Hrs|]. intros p. by apply pending_extends.
  - split; [done|]. split; [done|]. destruct Hp as [-> Hrs]. by rewrite app_nil_r.
  - done.
  - done.
  - split; [by apply drop_receivers_ok|]. split; [apply drop_receivers_extends | done].
  - assert (He : extends w (record_sent w (pending_id p, pending_request p))).
    { split; [done| |done]. intros m Hm. apply elem_of_app. by left. }
    destruct Hw as [Hm Hb Hr]. split; [by split|]. split; [done|]. destruct Hp as (-> & Hrs & Hp).
    rewrite fmap_app, <- app_assoc. split; [done|]. apply Forall_app. split.
    + eapply Forall_impl; [exact Hrs|]. intros q. by apply pending_extends.
    + apply Forall_singleton. split; [done|]. apply elem_of_app. right. by left.
  - done.
  - destruct (remove_drop_ok w (pending_id p) (p :: rs) Hw). done.
  - destruct Hp as (-> & Hg & Hrs). apply Forall_cons in Hrs as [Hp Hrs].
    destruct (take_response_ok w p Hw) as [H1 H2]. split; [done|]. split; [done|]. rewrite fmap_app, <- app_assoc. split; [done|].
    split; [|eapply Forall_impl; [exact Hrs|]; intros q; by apply pending_extends].
    apply Forall_app. split; [eapply Forall_impl; [exact Hg|]; intros a; by apply answer_extends|].
    apply Forall_singleton. eapply answer_extends; [done|]. by eapply receive_answer.
  - split; [by apply drop_receivers_ok|]. split; [apply drop_receivers_extends | done].
  - done.
  - destruct (remove_drop_ok w (pending_id p) (p :: rs) Hw). done.
  - split; [done|]. split; [done|]. destruct Hp as (-> & Hg & _). by rewrite app_nil_r.
Qed.

Definition state_ok (s : State) : Prop :=
  shared_ok (shared s) ∧ map_Forall (λ _ call, phase_ok (shared s) call.1 call.2) (calls s).

Lemma calls_extend w w' (m : gmap nat (list Request * Phase)) :
  extends w w' → map_Forall (λ _ call, phase_ok w call.1 call.2) m → map_Forall (λ _ call, phase_ok w' call.1 call.2) m.
Proof. intros He Hm c call Hc. by eapply phase_extends, Hm. Qed.

Lemma step_ok s s' : step s s' → state_ok s → state_ok s'.
Proof.
  intros Hstep [Hw Hc]. destruct Hstep as [s c reqs Hn|s c reqs ph ph' w' Hl Hst|s m Hr|s Hr|s|s b Hr]; unfold state_ok; cbn [shared calls].
  - split; [done|]. apply map_Forall_insert_2; [|done]. by split.
  - destruct (call_step_ok _ reqs _ _ _ Hst Hw (Hc _ _ Hl)) as (H1 & H2 & H3). split; [done|].
    apply map_Forall_insert_2; [done | by eapply calls_extend].
  - destruct (handle_message_ok (shared s) m Hr Hw). split; [done | by eapply calls_extend].
  - assert (He : extends (shared s) (set_reader (shared s) Ended)) by by split.
    destruct Hw. split; [by split | by eapply calls_extend].
  - destruct (deliver_ok (shared s) Hw). split; [done | by eapply calls_extend].
  - assert (Hm : shared_ok (monitor (shared s) b) ∧ extends (shared s) (monitor (shared s) b)).
    { unfold monitor. destruct Hw. destruct (connection_state (shared s)); [|destruct (respawned (shared s)), b]; (split; [by split | by split]). }
    split; [apply Hm | by eapply calls_extend, Hc; apply Hm].
Qed.

Lemma reachable_ok s : rtc step new_client s → state_ok s.
Proof.
  revert s. apply (rtc_ind_r state_ok); [split; [by split | done] | intros s1 s2 _ Hst IH; by eapply step_ok].
Qed.

(** The results that a call of some requests can have. *)
Definition call_returns (reqs : list Request) (r : result ErrorKind (list Answer)) : Prop :=
  ∃ s c, rtc step new_client s ∧ calls s !! c = Some (reqs, Finished r).

Lemma call_returns_length reqs got : call_returns reqs (Ok got) → length got = length reqs.
Proof.
  intros (s & c & Hs & Hc). assert (Hp : reqs = answer_request <$> got ∧ Forall (answer_ok (shared s)) got)
    by exact (proj2 (reachable_ok s Hs) _ _ Hc). destruct Hp as [-> _]. by rewrite length_fmap.
Qed.

(** C36. The values that a call returns answer its own requests.  However the steps of any
    number of calling threads, of the thread that reads the connection and of the one that
    reconnects are interleaved, whatever arrives and whatever fails, a call that succeeds
    returns one value for each of its requests, in their order, and each value is the result
    of a response that arrived, without an error, under the identifier with which that very
    request was sent. *)
Theorem websocket_answers_match s c reqs got :
  rtc step new_client s → calls s !! c = Some (reqs, Finished (Ok got)) →
  reqs = answer_request <$> got ∧ Forall (answer_ok (shared s)) got.
Proof.
  intros Hs Hc. exact (proj2 (reachable_ok s Hs) _ _ Hc).
Qed.

(** *** A batch that fails *)

Lemma dropped_dead w l p c :
  p ∈ l → channels w !! pending_channel p = Some c →
  ∃ c', channels (drop_receivers w l) !! pending_channel p = Some c' ∧ receiver_alive c' = false.
Proof.
  intros Hp Hc. unfold drop_receivers. cbn [channels set_channels].
  apply (list_elem_of_fmap_2 pending_channel) in Hp. revert Hp. generalize (pending_channel <$> l) as chs. intros chs. revert c Hc.
  generalize (channels w) as m. induction chs as [|a chs IH]; intros m c Hc Hin; [by apply not_elem_of_nil in Hin|]. cbn [foldl].
  destruct (decide (pending_channel p ∈ chs)) as [Hl|Hl].
  - destruct (decide (a = pending_channel p)) as [->|Hne].
    + eapply IH; [|done]. unfold drop_receiver. rewrite lookup_alter_eq, Hc. done.
    + eapply IH; [|done]. unfold drop_receiver. by rewrite lookup_alter_ne, Hc.
  - apply elem_of_cons in Hin as [<-|]; [|done]. clear IH.
    assert (Hd : drop_receiver m (pending_channel p) !! pending_channel p
      = Some {| channel_id := channel_id c; buffer := buffer c; receiver_alive := false |}).
    { unfold drop_receiver. by rewrite lookup_alter_eq, Hc. }
    revert Hd. generalize (drop_receiver m (pending_channel p)) as m'. induction chs as [|b chs IH]; intros m' Hd; [by eexists|].
    cbn [foldl]. apply not_elem_of_cons in Hl as [Hb Hl]. apply IH; [done|]. unfold drop_receiver. by rewrite lookup_alter_ne.
Qed.

(** A channel whose receiver was dropped. *)
Definition dead (w : Shared) (channel : nat) : Prop :=
  ∃ c, channels w !! channel = Some c ∧ receiver_alive c = false.

Lemma drop_receivers_dead w l channel : dead w channel → dead (drop_receivers w l) channel.
Proof.
  unfold dead, drop_receivers. cbn [channels set_channels]. generalize (pending_channel <$> l) as chs.
  generalize (channels w) as m. intros m chs. revert m. induction chs as [|a chs IH]; intros m Hd; [done|].
  cbn [foldl]. apply IH. destruct Hd as (c & Hc & Ha). unfold drop_receiver. destruct (decide (a = channel)) as [->|Hne].
  - rewrite lookup_alter_eq, Hc. by eexists.
  - rewrite lookup_alter_ne by done. by exists c.
Qed.

(** Nothing revives a receiver. *)
Lemma call_step_dead ph w ph' w' channel : call_step ph w ph' w' → dead w channel → dead w' channel.
Proof.
  intros Hst Hd. destruct Hst as [w rs req todo id ch Hn| | | |w rs p todo| | |w rs p|w p| |w p rs got c| |]; try done;
    try (by apply drop_receivers_dead).
  - destruct Hd as (c & Hc & Ha). exists c. cbn. by rewrite lookup_insert_ne by congruence.
  - destruct Hd as (c0 & Hc & Ha). unfold dead, take_response. cbn [channels set_channels].
    destruct (decide (pending_channel p = channel)) as [<-|Hne].
    + rewrite lookup_alter_eq, Hc. by eexists.
    + rewrite lookup_alter_ne by done. by exists c0.
Qed.

Lemma step_dead s s' channel : step s s' → dead (shared s) channel → dead (shared s') channel.
Proof.
  intros Hst Hd. destruct Hst as [s c reqs Hn|s c reqs ph ph' w' Hl Hst|s m Hr|s Hr|s|s b Hr]; cbn [shared]; try done.
  - by eapply call_step_dead.
  - assert (Hall : ∀ o, dead (handle_json_response (shared s) o) channel).
    { intros [r|]; [|done]. cbn [handle_json_response]. unfold send_response. cbn. by case_match. }
    by destruct m; try apply Hall.
  - unfold deliver. destruct (reader (shared s)) as [|ch r|]; try done.
    destruct (channels (shared s) !! ch) as [c|] eqn:Ec; [|done]. destruct (receiver_alive c) eqn:Ea; [|done].
    destruct Hd as (c0 & Hc & Ha). exists c0. cbn. rewrite lookup_insert_ne; [done|]. congruence.
  - unfold monitor. by destruct (connection_state (shared s)), (respawned (shared s)), b.
Qed.

(** What reading a response for a registered channel does. *)
Lemma deliver_registered w message next channel c :
  parse_response message = Some next → channel_map w !! response_id next = Some channel → channels w !! channel = Some c →
  reader (deliver (handle_message w (Text message))) = if receiver_alive c then Reading else Ended.
Proof.
  intros Hp Hm Hc. cbn [handle_message]. unfold handle_text. rewrite Hp. cbn [handle_json_response]. unfold send_response.
  cbn [channel_map record_arrived]. rewrite Hm. unfold deliver. cbn. rewrite Hc. by destruct (receiver_alive c).
Qed.

(** C39. A batch in which one request fails ends the reading thread.  When the response to a
    request of a batch is an error, the only step of the call is to return that error.  It
    drops the channels of the requests after it and leaves the sender of the next one in the
    map.  The response to that request, which the reading thread would have handed over
    before, ends the thread afterwards, however many steps the other threads take in between,
    as long as the sender is still in the map. *)
Theorem failed_batch_ends_reader s c reqs p q receivers got cp cq response e :
  calls s !! c = Some (reqs, Receiving (p :: q :: receivers) got) →
  channels (shared s) !! pending_channel p = Some cp → buffer cp = Some response → response_value response = Err e →
  channels (shared s) !! pending_channel q = Some cq → receiver_alive cq = true →
  channel_map (shared s) !! pending_id q = Some (pending_channel q) →
  ∃ w', (∀ ph w, call_step (Receiving (p :: q :: receivers) got) (shared s) ph w ↔ ph = Finished (Err e) ∧ w = w')
    ∧ channel_map w' !! pending_id q = Some (pending_channel q)
    ∧ ∀ message next, parse_response message = Some next → response_id next = pending_id q →
        reader (deliver (handle_message (shared s) (Text message))) = Reading
        ∧ ∀ s', rtc step {| calls := <[c := (reqs, Finished (Err e))]> (calls s); shared := w' |} s' →
            channel_map (shared s') !! pending_id q = Some (pending_channel q) →
            reader (deliver (handle_message (shared s') (Text message))) = Ended.
Proof.
  intros Hc Hp Hb Hv Hq Ha Hm. exists (drop_receivers (shared s) (p :: q :: receivers)). split; [|split; [done|]].
  - intros ph w. split; [|intros [-> ->]; by eapply step_receive_error].
    intros Hst. inversion Hst; subst; [congruence | split; [congruence | done] | congruence].
  - intros message next Hparse Hid. rewrite <- Hid in Hm |- *. split.
    + by rewrite (deliver_registered _ _ _ _ _ Hparse Hm Hq), Ha.
    + intros s' Hs' Hm'. assert (Hd : dead (shared s') (pending_channel q)).
      { refine (rtc_ind_r (λ x, dead (shared x) (pending_channel q)) _ _ _ s' Hs').
        - apply (dropped_dead (shared s) (p :: q :: receivers) q cq); [right; by left | done].
        - intros x y _ Hxy Hx. by eapply step_dead. }
      destruct Hd as (c' & Hc' & Ha'). by rewrite (deliver_registered _ _ _ _ _ Hparse Hm' Hc'), Ha'.
Qed.
End websocket.

(** ** Runs *)

Module WebsocketExample.
#[local] Instance json_bytes_ref : Json :=
  {| Value := list byte; json_null := []; json_string s := s; json_bytes b := b |}.
(** The first byte of a message is its identifier, the second is zero for an error. *)
#[local] Instance json_rpc_ref : JsonRpc := {|
  parse_response message :=
    match message with
    | i :: k :: rest =>
        Some {| response_id := [i]; response_jsonrpc := bstr "2.0";
                response_error := if Byte.eqb k Byte.x00 then Some {| rpc_code := 1; rpc_message := rest; rpc_data := None |} else None;
                response_result := Some rest |}
    | _ => None
    end
|}.

Definition get_block (height : str) : str * list Value := (bstr "block", [height]).
Definition batch : list (str * list Value) := [get_block (bstr "1"); get_block (bstr "2")].

(** One call, its phase and what is shared. *)
Definition at_phase (ph : Phase) (w : Shared) : State := {| calls := {[ 0%nat := (batch, ph) ]}; shared := w |}.

Lemma call_at ph w ph' w' : call_step ph w ph' w' → step (at_phase ph w) (at_phase ph' w').
Proof.
  intros Hs. unfold at_phase at 2. rewrite <- (insert_singleton_eq 0%nat (batch, ph') (batch, ph)).
  by apply (step_call (at_phase ph w) 0%nat batch ph).
Qed.
Lemma read_at ph w m : reader w = Reading → rtc step (at_phase ph w) (at_phase ph (deliver (handle_message w m))).
Proof. intros Hr. eapply rtc_l; [by apply (step_message (at_phase ph w) m)|]. apply rtc_once, step_deliver. Qed.
Lemma send_at receivers p todo w :
  channels w !! pending_channel p = None → connection_state w = Connected →
  rtc step (at_phase (Preparing receivers (pending_request p :: todo)) w)
    (at_phase (Preparing (receivers ++ [p]) todo)
       (record_sent (open_channel w (pending_id p) (pending_channel p)) (pending_id p, pending_request p))).
Proof.
  intros Hn Hc. destruct p as [i ch req].
  eapply rtc_l; [by apply call_at, (step_prepare w receivers req todo i ch)|].
  eapply rtc_l; [by apply call_at, step_connected|]. apply rtc_once, call_at, step_write.
Qed.

Definition first : Pending := {| pending_id := [Byte.x01]; pending_channel := 0; pending_request := get_block (bstr "1") |}.
Definition second : Pending := {| pending_id := [Byte.x02]; pending_channel := 1; pending_request := get_block (bstr "2") |}.
Definition sent_first : Shared := record_sent (open_channel (shared new_client) [Byte.x01] 0) (pending_id first, pending_request first).
Definition sent_both : Shared := record_sent (open_channel sent_first [Byte.x02] 1) (pending_id second, pending_request second).

Lemma batch_sent : rtc step new_client (at_phase (Receiving [first; second] []) sent_both).
Proof.
  eapply rtc_l; [by apply (step_start new_client 0%nat batch)|]. etrans; [by apply (send_at [] first [get_block (bstr "2")])|].
  etrans; [by apply (send_at [first] second [] sent_first)|]. apply rtc_once, call_at, step_prepared.
Qed.

(** Both responses arrive in the order that is not that of the requests. *)
Definition after_two : Shared := deliver (handle_message sent_both (Text (Byte.x02 :: Byte.x01 :: bstr "two"))).
Definition after_one : Shared := deliver (handle_message after_two (Text (Byte.x01 :: Byte.x01 :: bstr "one"))).
Definition values : list Answer :=
  [{| answer_id := [Byte.x01]; answer_request := get_block (bstr "1"); answer_value := (bstr "one" : Value) |};
   {| answer_id := [Byte.x02]; answer_request := get_block (bstr "2"); answer_value := (bstr "two" : Value) |}].

Lemma batch_returns : ∃ s got, rtc step new_client s ∧ calls s !! 0%nat = Some (batch, Finished (Ok got))
  ∧ answer_value <$> got = [bstr "one"; bstr "two"].
Proof.
  exists (at_phase (Finished (Ok values)) (take_response (take_response after_one first) second)), values.
  split; [|split; [apply lookup_singleton_eq | reflexivity]].
  etrans; [exact batch_sent|]. etrans; [by apply (read_at _ _ (Text (Byte.x02 :: Byte.x01 :: bstr "two")))|].
  etrans; [by apply (read_at _ after_two (Text (Byte.x01 :: Byte.x01 :: bstr "one")))|].
  eapply rtc_l; [by apply call_at; eapply (step_receive after_one first [second] [])|].
  eapply rtc_l; [by apply call_at; eapply (step_receive (take_response after_one first) second [])|].
  apply rtc_once, call_at, step_received.
Qed.

Lemma websocket_answers_match_witness :
  ∃ s got, rtc step new_client s ∧ calls s !! 0%nat = Some (batch, Finished (Ok got))
    ∧ answer_value <$> got = [bstr "one"; bstr "two"] ∧ batch = answer_request <$> got ∧ Forall (answer_ok (shared s)) got.
Proof.
  destruct batch_returns as (s & got & Hs & Hc & Hv). destruct (websocket_answers_match s 0 batch got Hs Hc) as [Hr Ha].
  exists s, got. done.
Defined.

Definition second_reply : JsonRpcResponse :=
  {| response_id := [Byte.x02]; response_jsonrpc := bstr "2.0"; response_error := None; response_result := Some (bstr "two" : Value) |}.
Lemma second_parsed : parse_response (Byte.x02 :: Byte.x01 :: bstr "two") = Some second_reply.
Proof. reflexivity. Qed.

(** The first request of the batch gets an error, and the other has no response yet. *)
Lemma batch_waits : ∃ s p q cp cq response, rtc step new_client s
  ∧ calls s !! 0%nat = Some (batch, Receiving [p; q] []) ∧ reader (shared s) = Reading
  ∧ channels (shared s) !! pending_channel p = Some cp ∧ buffer cp = Some response
  ∧ response_value response = Err Kind.TendermintRpcError
  ∧ channels (shared s) !! pending_channel q = Some cq ∧ receiver_alive cq = true ∧ channel_map (shared s) !! pending_id q = Some (pending_channel q)
  ∧ pending_id q = [Byte.x02].
Proof.
  exists (at_phase (Receiving [first; second] []) (deliver (handle_message sent_both (Text (Byte.x01 :: Byte.x00 :: bstr "no"))))),
    first, second. eexists _, _, _. split; [|repeat split; reflexivity].
  etrans; [exact batch_sent | by apply (read_at _ _ (Text (Byte.x01 :: Byte.x00 :: bstr "no")))].
Qed.

Lemma failed_batch_ends_reader_witness :
  ∃ s', rtc step new_client s' ∧ calls s' !! 0%nat = Some (batch, Finished (Err Kind.TendermintRpcError))
    ∧ reader (deliver (handle_message (shared s') (Text (Byte.x02 :: Byte.x01 :: bstr "two")))) = Ended.
Proof.
  destruct batch_waits as (s & p & q & cp & cq & response & Hs & Hc & Hr & Hp & Hb & Hv & Hq & Ha & Hm & Hi).
  destruct (failed_batch_ends_reader s 0 batch p q [] [] cp cq response Kind.TendermintRpcError Hc Hp Hb Hv Hq Ha Hm)
    as (w' & Hst & Hm' & Hrd).
  destruct (Hrd _ _ second_parsed (eq_sym Hi)) as [_ He].
  eexists. split; [|split; [|exact (He _ (rtc_refl _ _) Hm')]].
  - etrans; [exact Hs|]. apply rtc_once. eapply (step_call s 0%nat); [exact Hc|]. by apply Hst.
  - apply lookup_insert_eq.
Defined.
End WebsocketExample.
