(* ===== verification/RpcClient.v ===== *)
(** * RpcClient: the calls of the trait [Client] over JSON-RPC

    Models the second half of [src/client-common/src/tendermint/websocket_rpc_client.rs]:
    [call], [call_batch] and the methods of [Client] over [request] and [request_batch],
    whose threads are in [WebsocketRpc].  The class [RpcCalls] has these two with what that
    file proves of them: a batch that succeeds has a value for every request; its instance
    [websocket_calls] has the results the threads there can reach.  The JSON
    forms and the verifier of the [tendermint] crate are the classes [RpcJson] and
    [LiteVerifier].

    The theorems: no block leaves [block_batch_verified] unverified; a client of a node that
    answers with the handler of [Query] reads what the node has stored. *)

From stdpp Require Import base tactics option list gmap strings.
From Stdlib Require Import ZArith Lia.
From S2P Require Import Prelude Text Codec Coin Crypto Merkle Params Account TxTypes Validation BitVec Events Filter.
From S2P Require Import Punishment Genesis Storage EnclaveProtocol AppState Commit Client WalletSync Rpc WebsocketRpc Query NetworkOps.

(** ** Interfaces *)

Class RpcCalls `{Json} := {
  request : str → list Value → result ErrorKind Value;
  request_batch : list (str * list Value) → result ErrorKind (list Value);
  request_batch_length params values : request_batch params = Ok values → length values = length params;
}.

(** The calls of the client over a websocket: any choice of results that the threads of
    [WebsocketRpc] can reach, with the length that follows from its invariant. *)
Section websocket_calls.
Context `{JsonRpc} (outcome : list (str * list Value) → result ErrorKind (list Answer)).

Definition first_value (got : list Answer) : result ErrorKind Value :=
  match got with [] => Err Kind.InternalError | a :: _ => Ok (answer_value a) end.

#[refine] Definition websocket_calls (reached : ∀ reqs, call_returns reqs (outcome reqs)) : RpcCalls := {|
  request method params := got ← outcome [(method, params)]; first_value got;
  request_batch params := got ← outcome params; Ok (map answer_value got);
|}.
Proof.
  intros params values Hr. pose proof (reached params) as Hc. destruct (outcome params) as [got|]; [|done].
  injection Hr as <-. rewrite length_map. by apply call_returns_length.
Defined.

(** [request] of a call that succeeds has a value. *)
Lemma first_value_ok method params got :
  call_returns [(method, params)] (Ok got) → ∃ a, got = [a] ∧ first_value got = Ok (answer_value a).
Proof. intros Hl%call_returns_length. destruct got as [|a []]; try done. by exists a. Qed.
End websocket_calls.

(** The verifier of the lite client, with the signed headers of a commit and the header of
    a block in full. *)
Class LiteVerifier `{TimeLib, TendermintLib} := {
  SignedHeader : Type;
  block_lite_header : Block → LiteHeader;
  verify_trusting : LiteHeader → SignedHeader → ValidatorSet → ValidatorSet → bool;
}.

(** The responses that are read for their code. *)
Record BroadcastTxResponse := { broadcast_code : Z; broadcast_log : str }.
Record AbciQueryResponse := { abci_code : Z; abci_log : str; abci_value : option str }.

(** [serde_json::from_value] for the types of the responses. *)
Class RpcJson `{Json, LiteVerifier} := {
  genesis_from_value : Value → option (list ValidatorInfo);
  status_from_value : Value → option Status;
  block_from_value : Value → option Block;
  block_results_from_value : Value → option BlockResults;
  broadcast_from_value : Value → option BroadcastTxResponse;
  abci_query_from_value : Value → option AbciQueryResponse;
  validators_from_value : Value → option (list ValidatorInfo);
  commit_from_value : Value → option SignedHeader;
}.

(** ** The client *)

(** [collect] of results. *)
Fixpoint collect_results {E A} (l : list (result E A)) : result E (list A) :=
  match l with
  | [] => Ok []
  | r :: l => a ← r; rest ← collect_results l; Ok (a :: rest)
  end.

Section client.
Context `{Hashes, Secp256k1, Scale, Hex, TimeLib, TendermintLib, Base64, QueryJson, Json, !LiteVerifier, !RpcJson, !RpcCalls}.

Definition call {A} (from_value : Value → option A) (method : str) (params : list Value) : result ErrorKind A :=
  response_value ← request method params;
  chain_none Kind.DeserializationError (from_value response_value).

Definition call_batch {A} (from_value : Value → option A) (params : list (str * list Value)) :
  result ErrorKind (list A) :=
  match params with
  | [] => Ok []
  | [(method, args)] => value ← call from_value method args; Ok [value]
  | _ =>
      response_values ← request_batch params;
      collect_results ((λ v, chain_none Kind.DeserializationError (from_value v)) <$> response_values)
  end.

(** One request for each height. *)
Definition for_heights (method : str) (heights : list Z) : list (str * list Value) :=
  (λ height, (method, [json_string (u64_to_string height)])) <$> heights.

Definition validators_batch (heights : list Z) : result ErrorKind (list (list ValidatorInfo)) :=
  call_batch validators_from_value (for_heights (bstr "validators") heights).
Definition commit_batch (heights : list Z) : result ErrorKind (list SignedHeader) :=
  call_batch commit_from_value (for_heights (bstr "commit") heights).

Definition rpc_genesis : result ErrorKind (list ValidatorInfo) := call genesis_from_value (bstr "genesis") [].
Definition rpc_status : result ErrorKind Status := call status_from_value (bstr "status") [].
Definition rpc_block (height : Z) : result ErrorKind Block :=
  call block_from_value (bstr "block") [json_string (u64_to_string height)].
Definition block_batch (heights : list Z) : result ErrorKind (list Block) :=
  call_batch block_from_value (for_heights (bstr "block") heights).
Definition rpc_block_results (height : Z) : result ErrorKind BlockResults :=
  call block_results_from_value (bstr "block_results") [json_string (u64_to_string height)].
Definition block_results_batch (heights : list Z) : result ErrorKind (list BlockResults) :=
  call_batch block_results_from_value (for_heights (bstr "block_results") heights).

Definition rpc_broadcast_transaction (transaction : list byte) : result ErrorKind () :=
  rsp ← call broadcast_from_value (bstr "broadcast_tx_sync") [json_bytes transaction];
  if broadcast_code rsp =? 0 then Ok () else Err Kind.TendermintRpcError.

Definition rpc_query (path : str) (data : list byte) : result ErrorKind AbciQuery :=
  result ← call abci_query_from_value (bstr "abci_query") [json_string path; json_string (hex_encode data); json_null; json_null];
  if abci_code result =? 0 then Ok {| query_value := abci_value result |} else Err Kind.TendermintRpcError.

(** The loop of [block_batch_verified]. *)
Fixpoint verify_blocks (state : TrustedState) (l : list (SignedHeader * ValidatorSet * Block)) : result ErrorKind TrustedState :=
  match l with
  | [] => Ok state
  | (commit, next_vals, block) :: l =>
      if verify_trusting (block_lite_header block) commit (lite_validators state) next_vals
      then verify_blocks {| lite_header := Some (block_lite_header block); lite_validators := next_vals |} l
      else Err Kind.VerifyError
  end.

Definition block_batch_verified (state : TrustedState) (heights : list Z) : result ErrorKind (list Block * TrustedState) :=
  commits ← commit_batch heights;
  responses ← validators_batch heights;
  let validators := validator_set_new <$> responses in
  blocks ← block_batch heights;
  state ← verify_blocks state (zip (zip commits validators) blocks);
  Ok (blocks, state).

Definition state_of_response (rsp : AbciQueryResponse) : result ErrorKind ChainState :=
  match abci_value rsp with
  | Some value =>
      value ← chain_none Kind.InvalidInput (base64_decode value);
      if utf8_valid value then chain_none Kind.InvalidInput (state_from_json value) else Err Kind.InvalidInput
  | None => Err Kind.InvalidInput
  end.

Definition query_state_batch (heights : list Z) : result ErrorKind (list ChainState) :=
  rsps ← call_batch abci_query_from_value
           ((λ height, (bstr "abci_query", [json_string (bstr "state"); json_null; json_string (u64_to_string height); json_null]))
              <$> heights);
  collect_results (state_of_response <$> rsps).

Definition websocket_client : Client := {|
  client_genesis_validators := rpc_genesis;
  client_status := rpc_status;
  client_block := rpc_block;
  client_block_results := rpc_block_results;
  client_block_results_batch := block_results_batch;
  client_block_batch_verified := block_batch_verified;
  client_broadcast_transaction := rpc_broadcast_transaction;
  client_query := rpc_query;
  client_query_state_batch := query_state_batch;
|}.
End client.

(** ** Verified blocks *)

Section verified.
Context `{Hashes, Secp256k1, Scale, Hex, TimeLib, TendermintLib, Base64, QueryJson, Json, !LiteVerifier, !RpcJson, !RpcCalls}.

Lemma collect_results_length {E A} (l : list (result E A)) r : collect_results l = Ok r → length r = length l.
Proof.
  revert r. induction l as [|[a|e] l IH]; intros r; cbn; [by intros [= <-] | | done].
  destruct (collect_results l) as [rest|]; cbn; [|done]. intros [= <-]. cbn. by rewrite (IH _ eq_refl).
Qed.

Lemma collect_results_Ok {E A B} (f : A → result E B) g l :
  (∀ a, a ∈ l → f a = Ok (g a)) → collect_results (f <$> l) = Ok (g <$> l).
Proof.
  induction l as [|a l IH]; intros Hf; [done|]. cbn. rewrite (Hf a) by left. cbn.
  rewrite IH; [done|]. intros b Hb. apply Hf. by right.
Qed.

Lemma call_batch_length {A} (from_value : Value → option A) params r :
  call_batch from_value params = Ok r → length r = length params.
Proof.
  destruct params as [|[method args] [|q params]]; cbn [call_batch].
  - by intros [= <-].
  - destruct (call from_value method args); cbn; [by intros [= <-] | done].
  - destruct (request_batch _) as [values|] eqn:E; cbn; [|done]. intros Hr%collect_results_length.
    rewrite length_fmap in Hr. by rewrite Hr, (request_batch_length _ _ E).
Qed.

Lemma heights_batch_length {A} (from_value : Value → option A) method hs r :
  call_batch from_value (for_heights method hs) = Ok r → length r = length hs.
Proof. intros Hr%call_batch_length. unfold for_heights in Hr. by rewrite length_fmap in Hr. Qed.

(** The set that a block is verified with: the one before. *)
Definition trusted_set (state : TrustedState) (validators : list ValidatorSet) (i : nat) : option ValidatorSet :=
  match i with O => Some (lite_validators state) | S j => validators !! j end.

Lemma verify_blocks_ok state state' commits validators blocks :
  length commits = length blocks → length validators = length blocks →
  verify_blocks state (zip (zip commits validators) blocks) = Ok state' →
  (∀ i block, blocks !! i = Some block → ∃ commit vals trusted, commits !! i = Some commit ∧ validators !! i = Some vals
     ∧ trusted_set state validators i = Some trusted ∧ verify_trusting (block_lite_header block) commit trusted vals = true)
  ∧ trusted_set state validators (length blocks) = Some (lite_validators state')
  ∧ lite_header state' = match last blocks with Some block => Some (block_lite_header block) | None => lite_header state end.
Proof.
  revert state commits validators. induction blocks as [|block blocks IH]; intros state [|commit commits] [|vals validators] Hc Hv;
    try done; cbn [zip zip_with verify_blocks].
  { intros [= <-]. done. }
  destruct (verify_trusting _ _ _ _) eqn:E; [|done]. intros Hs. injection Hc as Hc. injection Hv as Hv.
  destruct (IH _ _ _ Hc Hv Hs) as (Hall & Hlast & Hhead). split; [|split].
  - intros [|i] b Hb; cbn in Hb.
    + injection Hb as <-. by exists commit, vals, (lite_validators state).
    + destruct (Hall i b Hb) as (c & v & t & ? & ? & Ht & ?). exists c, v, t. done.
  - cbn [length trusted_set]. by destruct blocks.
  - rewrite last_cons, Hhead. by destruct (last blocks).
Qed.

(** C38. No block leaves [block_batch_verified] unverified.  When it succeeds there are a
    commit, a validator set and a block for every height, and every block passed the verifier
    with its commit, its validator set and the set trusted before it: that of the given state
    for the first block, that of the previous height for the others.  The new trusted state
    has the last header and validator set. *)
Theorem no_block_unverified state heights blocks state' :
  block_batch_verified state heights = Ok (blocks, state') →
  ∃ commits responses, commit_batch heights = Ok commits ∧ validators_batch heights = Ok responses
    ∧ block_batch heights = Ok blocks ∧ length blocks = length heights
    ∧ (∀ i block, blocks !! i = Some block → ∃ commit vals trusted,
         commits !! i = Some commit ∧ (validator_set_new <$> responses) !! i = Some vals
         ∧ trusted_set state (validator_set_new <$> responses) i = Some trusted
         ∧ verify_trusting (block_lite_header block) commit trusted vals = true)
    ∧ trusted_set state (validator_set_new <$> responses) (length heights) = Some (lite_validators state')
    ∧ lite_header state' = match last blocks with Some block => Some (block_lite_header block) | None => lite_header state end.
Proof.
  unfold block_batch_verified. destruct (commit_batch heights) as [commits|] eqn:Ec; cbn; [|done].
  destruct (validators_batch heights) as [responses|] eqn:Ev; cbn; [|done].
  destruct (block_batch heights) as [bs|] eqn:Eb; cbn; [|done].
  destruct (verify_blocks _ _) as [s'|] eqn:Es; cbn; [|done]. intros [= -> ->].
  pose proof (heights_batch_length _ _ _ _ Ec) as Lc. pose proof (heights_batch_length _ _ _ _ Ev) as Lv.
  pose proof (heights_batch_length _ _ _ _ Eb) as Lb.
  destruct (verify_blocks_ok state state' commits (validator_set_new <$> responses) blocks) as (Hall & Hlast & Hhead);
    [lia | rewrite length_fmap; lia | done|].
  exists commits, responses. rewrite <- Lb. done.
Qed.
End verified.

(** ** A node behind the calls *)

Section node.
Context `{Hashes, Secp256k1, BitVecLib, KeyValueDBLaws, ScaleLaws, StarlingLaws, VarInt, Hex, TimeLib, TendermintLib, Base64}.
Context `{QueryJson, Json, !LiteVerifier, !RpcJson, !RpcCalls, !EnclaveProxy}.

Definition abci_of (r : ResponseQuery) : AbciQueryResponse :=
  {| abci_code := q_code r; abci_log := q_log r; abci_value := Some (base64_encode (q_value r)) |}.

(** A node that answers every request, and queries with its handler; a height or data that
    is null is zero or empty. *)
Record honest_node (app : ChainNodeApp) : Prop := {
  answers_batch params : request_batch params = collect_results ((λ p, request p.1 p.2) <$> params);
  answers_data path data r :
    query_handler app {| req_path := path; req_data := data; req_height := 0; req_prove := false |} = Some r →
    call abci_query_from_value (bstr "abci_query") [json_string path; json_string (hex_encode data); json_null; json_null]
    = Ok (abci_of r);
  answers_height path h r :
    0 ≤ h < 2 ^ 63 → query_handler app {| req_path := path; req_data := []; req_height := h; req_prove := false |} = Some r →
    call abci_query_from_value (bstr "abci_query") [json_string path; json_null; json_string (u64_to_string h); json_null]
    = Ok (abci_of r);
}.

Context (app : ChainNodeApp).
Hypothesis honest : honest_node app.
(** JSON is text. *)
Hypothesis json_text : ∀ s, utf8_valid (state_to_json s) = true.

(** What each call returns, the batch returns. *)
Lemma call_batch_each {A} (from_value : Value → option A) (f : Z → str * list Value) (g : Z → A) hs :
  (∀ h, h ∈ hs → call from_value (f h).1 (f h).2 = Ok (g h)) → call_batch from_value (f <$> hs) = Ok (g <$> hs).
Proof.
  intros Hg.
  assert (Hv : ∃ values, collect_results ((λ p, request p.1 p.2) <$> (f <$> hs)) = Ok values
    ∧ collect_results ((λ v, chain_none Kind.DeserializationError (from_value v)) <$> values) = Ok (g <$> hs)).
  { induction hs as [|h hs IH]; [by exists []|]. destruct IH as (values & Hr & Hv); [intros h' Hh; apply Hg; by right|].
    specialize (Hg h ltac:(left)). unfold call in Hg. cbn. destruct (request (f h).1 (f h).2) as [v|]; cbn in Hg; [|done].
    exists (v :: values). cbn. rewrite Hr. split; [done|]. cbn. by rewrite Hg, Hv. }
  destruct Hv as (values & Hr & Hv). rewrite <- (answers_batch _ honest) in Hr.
  destruct hs as [|h [|h' hs]]; [done| |].
  - cbn. specialize (Hg h ltac:(left)). destruct (f h) as [m a]. cbn in *. by rewrite Hg.
  - cbn [call_batch fmap list_fmap] in *. destruct (f h) as [m a]. rewrite Hr. exact Hv.
Qed.

Lemma client_answers : answers websocket_client app.
Proof.
  intros path data r Hr. cbn [client_query websocket_client]. unfold rpc_query. by rewrite (answers_data _ honest _ _ _ Hr).
Qed.

(** The states of a node that keeps them. *)
Lemma states_read (st : Z → ChainState) addr heights :
  tx_query_address app = Some addr →
  (∀ h, h ∈ heights → 0 ≤ h < 2 ^ 63 ∧ chain_state_ok (st h)
     ∧ db_view (storage app) !! (COL_APP_STATES, i64_encode_var h) = Some (enc chain_state_codec (st h))) →
  query_state_batch heights = Ok (st <$> heights).
Proof.
  intros Ha Hst.
  assert (Hq : ∀ h, h ∈ heights →
    query_handler app {| req_path := bstr "state"; req_data := []; req_height := h; req_prove := false |}
    = Some (set_value response_new (state_to_json (st h)))).
  { intros h Hh. destruct (Hst h Hh) as (_ & Hok & Hdb).
    transitivity (Some (query_state app {| req_path := bstr "state"; req_data := []; req_height := h; req_prove := false |} response_new));
      [reflexivity|].
    unfold query_state. rewrite Ha. cbn [req_height]. rewrite db_get_view, Hdb. by rewrite (decode_ok _ _ _ chain_state_codec_ok Hok). }
  unfold query_state_batch. rewrite (call_batch_each _ _ (λ h, abci_of (set_value response_new (state_to_json (st h))))).
  - cbn [mbind result_bind]. rewrite <- list_fmap_compose. apply collect_results_Ok. intros h Hh. cbn.
    unfold state_of_response. cbn. rewrite base64_decode_encode. cbn. rewrite json_text, state_from_to; [done | by apply Hst].
  - intros h Hh. cbn [fst snd]. apply (answers_height _ honest); [by apply Hst | by apply Hq].
Qed.

Lemma commit_keeps_state app0 app_hash s addr :
  commit_handler app0 = Some (app, app_hash) → last_state app = Some s → tx_query_address app = Some addr →
  db_view (storage app) !! (COL_APP_STATES, i64_encode_var (state_block_height s)) = Some (enc chain_state_codec (top_level s))
  ∧ chain_state_app_hash (top_level s) (tx_id <$> delivered_txs app0) = Some app_hash.
Proof.
  intros Hc Hs Ha. destruct (commit_store _ _ _ Hc) as (s0 & s' & tree & ops & _ & Hm & _ & Hs' & _ & _ & _ & _ & _ & Hh & Hv).
  rewrite Hs in Hs'. injection Hs' as <-. split.
  - rewrite Hv, !apply_ops_app. unfold state_puts. rewrite Ha, apply_ops_app. cbn [apply_ops foldl apply_op].
    by rewrite lookup_insert_eq.
  - unfold chain_state_app_hash. rewrite Hm. cbn. by rewrite Hh.
Qed.
End node.

Section commits.
Context `{Hashes, Secp256k1, BitVecLib, KeyValueDBLaws, ScaleLaws, StarlingLaws, VarInt, Hex, TimeLib, TendermintLib, Base64}.
Context `{QueryJson, Json, !LiteVerifier, !RpcJson, !RpcCalls, !EnclaveProxy}.

(** C37. A client reads what the node committed.  Over a node that answers with its handler,
    the client of the websocket satisfies the interface that the operations on staking are
    proved against.  The states of any stored heights are read back as they were written, and
    so is the state of the last commit, from which, with the identifiers of the transactions
    of the block, the client computes the very application hash of that commit, the one that
    the synchronisation looks for in the next header. *)
Theorem client_reads_commits app app' app_hash s addr :
  commit_handler app = Some (app', app_hash) → last_state app' = Some s → tx_query_address app' = Some addr →
  chain_state_ok (top_level s) → 0 ≤ state_block_height s < 2 ^ 63 →
  honest_node app' → (∀ state, utf8_valid (state_to_json state) = true) →
  answers websocket_client app'
  ∧ (∀ st heights,
       (∀ h, h ∈ heights → 0 ≤ h < 2 ^ 63 ∧ chain_state_ok (st h)
          ∧ db_view (storage app') !! (COL_APP_STATES, i64_encode_var h) = Some (enc chain_state_codec (st h))) →
       client_query_state_batch websocket_client heights = Ok (st <$> heights))
  ∧ client_query_state_batch websocket_client [state_block_height s] = Ok [top_level s]
  ∧ chain_state_app_hash (top_level s) (tx_id <$> delivered_txs app) = Some app_hash.
Proof.
  intros Hc Hs Ha Hok Hh Hn Hj. destruct (commit_keeps_state app' app app_hash s addr Hc Hs Ha) as [Hdb Hhash].
  split; [by apply client_answers|]. split; [intros st heights Hst; by eapply states_read|]. split; [|done].
  apply (states_read app' Hn Hj (λ _, top_level s) addr [state_block_height s] Ha).
  by intros h ->%list_elem_of_singleton.
Qed.
End commits.

(** ** A node *)

Module RpcClientExample.
Import AppExample SyncExample QueryExample RpcExample.

(** Validators and their sets are bytes; a set signs a header when it is the trusted one. *)
#[local] Instance tendermint_bytes : TendermintLib.
Proof.
  refine {| ValidatorInfo := byte; ValidatorSet := byte; LiteHeader := unit; validator_set_new l := default Byte.x00 (head l);
            trusted_to_json t := [match t.1 with Some _ => Byte.x01 | None => Byte.x00 end; t.2];
            trusted_from_json s := match s with [Byte.x00; v] => Some (None, v) | [_; v] => Some (Some tt, v) | _ => None end;
            hash_to_string := hex_encode |}.
  intros [[[]|] v]; reflexivity.
Defined.
#[local] Instance lite_bytes : LiteVerifier :=
  {| SignedHeader := byte; block_lite_header _ := tt; verify_trusting _ signer trusted _ := Byte.eqb signer trusted |}.

Inductive Reply :=
  | RNull
  | RString (s : str)
  | RBytes (b : list byte)
  | RValidator (b : byte)
  | RBlock (b : Block)
  | RQuery (r : AbciQueryResponse).
#[local] Instance json_reply : Json := {| Value := Reply; json_null := RNull; json_string := RString; json_bytes := RBytes |}.
#[local] Instance rpc_json_ref : RpcJson := {|
  genesis_from_value _ := None;
  status_from_value _ := None;
  block_from_value v := match v with RBlock b => Some b | _ => None end;
  block_results_from_value _ := None;
  broadcast_from_value _ := None;
  abci_query_from_value v := match v with RQuery r => Some r | _ => None end;
  validators_from_value v := match v with RValidator b => Some [b] | _ => None end;
  commit_from_value v := match v with RValidator b => Some b | _ => None end;
|}.
#[local] Instance hex_json : QueryJson.
Proof.
  refine {| state_to_json s := hex_encode (enc chain_state_codec s);
            state_from_json s := b ← hex_decode s; decode chain_state_codec b; council_to_json _ := [] |}.
  intros s Hs. rewrite hex_decode_encode. exact (decode_ok _ _ _ chain_state_codec_ok Hs).
Defined.

Definition block_at (h : Z) : Block :=
  {| header := {| header_height := h; header_time := tt; header_app_hash := None |}; block_data := [] |}.
Definition query_reply (r : option ResponseQuery) : result ErrorKind Reply :=
  match r with Some r => Ok (RQuery (abci_of r)) | None => Err Kind.ConnectionError end.
(** The set of height [h] is the byte [h + 1], and the commit of [h] is signed by [h]. *)
Definition node_request (app : ChainNodeApp) (method : str) (params : list Reply) : result ErrorKind Reply :=
  match params with
  | [RString path; RString data; RNull; RNull] =>
      data ← chain_none Kind.InvalidInput (hex_decode data);
      query_reply (query_handler app {| req_path := path; req_data := data; req_height := 0; req_prove := false |})
  | [RString path; RNull; RString h; RNull] =>
      h ← chain_none Kind.InvalidInput (parse_u64 h);
      query_reply (query_handler app {| req_path := path; req_data := []; req_height := h; req_prove := false |})
  | [RString h] =>
      h ← chain_none Kind.InvalidInput (parse_u64 h);
      if decide (method = bstr "commit") then Ok (RValidator (byte_of_Z h))
      else if decide (method = bstr "validators") then Ok (RValidator (byte_of_Z (h + 1)))
      else Ok (RBlock (block_at h))
  | _ => Err Kind.InvalidInput
  end.
Definition node_calls (app : ChainNodeApp) : RpcCalls.
Proof.
  refine {| request := node_request app;
            request_batch params := collect_results ((λ p, node_request app p.1 p.2) <$> params) |}.
  intros params values Hv%collect_results_length. by rewrite length_fmap in Hv.
Defined.

(** A node whose address for queries is set, before and after a commit. *)
Definition serving : ChainNodeApp := let a := app [] in
  {| storage := storage a; accounts := accounts a; delivered_txs := []; uncommitted_account_root_hash := replicate 32 Byte.x09;
     genesis_app_hash := genesis_app_hash a; app_chain_hex_id := app_chain_hex_id a; last_state := last_state a;
     voting_power := voting_power a; power_changed_in_block := ∅; new_nodes_in_block := ∅; tx_validator := tx_validator a;
     rewards_pool_updated := false; tx_query_address := Some (bstr "localhost:3443") |}.
Definition committed : ChainNodeApp :=
  match commit_handler serving with Some (a, _) => a | None => serving end.
#[local] Instance calls_ref : RpcCalls := node_calls committed.

Lemma committed_honest : honest_node committed.
Proof.
  split; [reflexivity| |].
  - intros path data r Hr. unfold call. cbn [request calls_ref node_calls node_request json_string json_null json_reply].
    rewrite hex_decode_encode. cbn [chain_none mbind result_bind]. by rewrite Hr.
  - intros path h r Hh Hr. unfold call. cbn [request calls_ref node_calls node_request json_string json_null json_reply].
    rewrite parse_u64_to_string by (unfold is_u64, U64_MAX; lia). cbn [chain_none mbind result_bind]. by rewrite Hr.
Qed.

Definition start : TrustedState := {| lite_header := None; lite_validators := (Byte.x01 : ValidatorSet) |}.
Definition after : TrustedState := {| lite_header := Some (tt : LiteHeader); lite_validators := (Byte.x03 : ValidatorSet) |}.
Definition two_blocks : list Block := [block_at 1; block_at 2].
Lemma two_verified : block_batch_verified start [1; 2] = Ok (two_blocks, after).
Proof. reflexivity. Qed.

Lemma no_block_unverified_witness : ∃ commits responses,
  block_batch_verified start [1; 2] = Ok (two_blocks, after)
  ∧ commit_batch [1; 2] = Ok commits ∧ validators_batch [1; 2] = Ok responses ∧ length two_blocks = 2%nat
  ∧ trusted_set start (validator_set_new <$> responses) 2 = Some (lite_validators after).
Proof.
  destruct (no_block_unverified start [1; 2] two_blocks after two_verified) as (commits & responses & Hc & Hv & _ & Hl & _ & Ht & _).
  exists commits, responses. split; [exact two_verified|]. split; [exact Hc|]. split; [exact Hv|]. split; [exact Hl | exact Ht].
Defined.

Definition top : ChainState :=
  {| account_root := replicate 32 Byte.x09; rewards_pool := rewards_pool_new 10 1000; network_params := GenesisParams params_example |}.
Lemma top_ok : chain_state_ok top.
Proof. split; [done|]. split; [unfold rewards_pool_ok; simpl; ints | exact params_example_ok]. Qed.

Definition query_address : str := bstr "localhost:3443".
Definition committed_parts : option (ChainState * Z * option str) :=
  match commit_handler serving with
  | Some (a, _) => s ← last_state a; Some (top_level s, state_block_height s, tx_query_address a)
  | None => None
  end.
Lemma committed_parts_eq : committed_parts = Some (top, 0, Some query_address).
Proof. vm_cast_no_check (@eq_refl (option (ChainState * Z * option str)) (Some (top, 0, Some query_address))). Qed.

Lemma committed_eq : ∃ app_hash s, commit_handler serving = Some (committed, app_hash) ∧ last_state committed = Some s
  ∧ top_level s = top ∧ state_block_height s = 0 ∧ tx_query_address committed = Some query_address.
Proof.
  pose proof committed_parts_eq as Hp. unfold committed_parts in Hp. unfold committed.
  destruct (commit_handler serving) as [[a app_hash]|]; [|discriminate Hp].
  destruct (last_state a) as [s|] eqn:Es; [|discriminate Hp]. injection Hp as Ht Hh Ha. by exists app_hash, s.
Qed.

Lemma client_reads_commits_witness : ∃ app_hash,
  answers websocket_client committed ∧ client_query_state_batch websocket_client [0] = Ok [top]
  ∧ chain_state_app_hash top [] = Some app_hash ∧ commit_handler serving = Some (committed, app_hash).
Proof.
  destruct committed_eq as (app_hash & s & Hc & Hs & Ht & Hh & Ha).
  assert (Hok : chain_state_ok (top_level s)) by (rewrite Ht; exact top_ok).
  assert (Hr : 0 ≤ state_block_height s < 2 ^ 63) by (rewrite Hh; lia).
  destruct (client_reads_commits serving committed app_hash s query_address Hc Hs Ha Hok Hr committed_honest)
    as (Hans & _ & Hq & Hx).
  { intros state. apply utf8_ascii, hex_encode_ascii. }
  rewrite Ht, Hh in *. exists app_hash. split; [exact Hans|]. split; [exact Hq|]. split; [exact Hx | exact Hc].
Defined.
End RpcClientExample.
