(* ===== verification/Mock.v ===== *)
(** * Mock: the node and the wallet without enclaves

    Models [src/chain-abci/src/enclave_bridge/mock.rs], the client that stands for the
    validation enclave in a node built without enclaves, with the queries that stand for the
    query enclave when the feature [mock-enc-dec] is on, and the wallet's side,
    [src/client-core/src/cipher/mock_abci_transaction_obfuscation.rs].

    The theorem: a transaction that a wallet sends through the mock is judged by the
    validation library as it was signed, and an accepted one can be spent and decrypted. *)

From stdpp Require Import base tactics option list gmap strings.
From Stdlib Require Import ZArith Lia.
From S2P Require Import Prelude Text Codec Coin Crypto Merkle Params Account TxTypes Validation BitVec Events Filter.
From S2P Require Import Punishment Genesis Storage EnclaveProtocol EnclaveCodec Enclave EnclaveServer ServerContract AppState Client WalletBuilder WalletFee WalletSync Rpc Query TxQuery.

(** ** The mock of the validation enclave *)

Section client.
Context `{Hashes, Secp256k1, Scale, BitVecLib}.

Record MockClient := {
  mock_chain_hex_id : Z;
  local_tx_store : gmap TxId TxWithOutputs;
  mock_filter : BlockFilter;
}.

Definition mock_new (chain_hex_id : Z) : MockClient :=
  {| mock_chain_hex_id := chain_hex_id; local_tx_store := ∅; mock_filter := filter_default |}.

(** A missing transaction panics. *)
Definition mock_lookup (self : MockClient) (txid : TxId) : option TxWithOutputs := local_tx_store self !! txid.

Definition mock_add_view_keys (self : MockClient) (plain_tx : TxWithOutputs) : option MockClient :=
  f ← add_keys (mock_filter self) (tx_allowed_view plain_tx);
  Some {| mock_chain_hex_id := mock_chain_hex_id self; local_tx_store := local_tx_store self; mock_filter := f |}.

(** The view keys and the transaction, once it was accepted. *)
Definition mock_accept (self : MockClient) (txid : TxId) (txwo : TxWithOutputs) : option MockClient :=
  self ← mock_add_view_keys self txwo;
  Some {| mock_chain_hex_id := mock_chain_hex_id self; local_tx_store := <[txid := txwo]> (local_tx_store self);
          mock_filter := mock_filter self |}.

Definition mock_verify_tx (self : MockClient) (txrequest : VerifyTxRequest) : option (EnclaveResponse * MockClient) :=
  let tx := req_tx txrequest in
  let account := req_account txrequest in
  let info := req_info txrequest in
  '(payload, inputs) ← match tx with
                       | TransferTx inputs _ payload => ins ← mapM (λ x, mock_lookup self (id x)) inputs; Some (txpayload payload, ins)
                       | DepositStakeTx d payload =>
                           ins ← mapM (λ x, mock_lookup self (id x)) (deposit_inputs d); Some (txpayload payload, ins)
                       | WithdrawUnbondedStakeTx _ _ payload => Some (txpayload payload, [])
                       end;
  match tx, decode plain_tx_aux_codec payload with
  | _, Some (PlainTransferTx maintx witness) =>
      result ← verify_transfer maintx witness info inputs;
      match result with
      | Ok fee =>
          self ← mock_accept self (transaction_id tx_codec maintx) (Transfer maintx);
          Some (RespVerifyTx (Ok (fee, None)), self)
      | Err e => Some (RespVerifyTx (Err e), self)
      end
  | DepositStakeTx tx _, Some (PlainDepositStakeTx witness) =>
      result ← verify_bonded_deposit tx witness info inputs account;
      Some (RespVerifyTx result, self)
  | _, Some (PlainWithdrawUnbondedStakeTx tx) =>
      account ← account;
      result ← verify_unbonded_withdraw tx info account;
      match result with
      | Ok r =>
          self ← mock_accept self (transaction_id withdraw_codec tx) (StakeWithdraw tx);
          Some (RespVerifyTx (Ok r), self)
      | Err e => Some (RespVerifyTx (Err e), self)
      end
  | _, _ => Some (UnknownRequest, self)
  end.

Definition mock_process_request (self : MockClient) (request : EnclaveRequest) : option (EnclaveResponse * MockClient) :=
  match request with
  | CheckChain chain_hex_id _ =>
      Some (RespCheckChain (if chain_hex_id =? mock_chain_hex_id self then Ok () else Err None), self)
  | EndBlock =>
      maybe_filter ← (if is_modified (mock_filter self) then Some <$> get_raw (mock_filter self) else Some None);
      Some (RespEndBlock (Ok maybe_filter),
            {| mock_chain_hex_id := mock_chain_hex_id self; local_tx_store := local_tx_store self;
               mock_filter := filter_reset (mock_filter self) |})
  | CommitBlock _ _ => Some (RespCommitBlock (Ok ()), self)
  | VerifyTx txrequest => mock_verify_tx self txrequest
  | _ => Some (UnknownRequest, self)
  end.

Definition mock_proxy : EnclaveProxy := {| Proxy := MockClient; process_request := mock_process_request |}.
End client.

(** ** The mock of the query enclave *)

Section queries.
Context `{Hashes, Scale, Ecdsa, KeyValueDB}.

(** The payload is the plain transaction. *)
Definition mock_obfuscated (txid : TxId) (plain : PlainTxAux) : TxObfuscated :=
  {| key_from := 0; init_vector := replicate 12 Byte.x00; txpayload := enc plain_tx_aux_codec plain; txid := txid |}.

Definition mock_encrypt (request : EncryptionRequest) : TxEnclaveAux :=
  match request with
  | EncTransferTx tx witness =>
      TransferTx (inputs tx) (as_u16 (Z.of_nat (length (outputs tx))))
        (mock_obfuscated (transaction_id tx_codec tx) (PlainTransferTx tx witness))
  | EncDepositStake maintx witness =>
      DepositStakeTx maintx (mock_obfuscated (transaction_id deposit_codec maintx) (PlainDepositStakeTx witness))
  | EncWithdrawStake tx _ witness =>
      WithdrawUnbondedStakeTx (as_u16 (Z.of_nat (length (withdraw_outputs tx)))) witness
        (mock_obfuscated (transaction_id withdraw_codec tx) (PlainWithdrawUnbondedStakeTx tx))
  end.

Definition mock_decrypt (storage : Db) (txs : list TxId) : list TxWithOutputs :=
  omap (λ txid, match db_get storage COL_BODIES txid with
                | Ok (Some uv) => decode tx_with_outputs_codec uv
                | _ => None
                end) txs.

(** [handle_enc_dec] with the feature [mock-enc-dec]. *)
Definition mock_handle_enc_dec (req : RequestQuery) (resp : ResponseQuery) (storage : Db) : ResponseQuery :=
  if decide (req_path req = bstr "mockencrypt") then
    match decode encryption_request_codec (req_data req) with
    | Some request => set_value resp (enc encryption_response_codec (Ok (mock_encrypt request)))
    | None => failed resp 1 (bstr "invalid request")
    end
  else if decide (req_path req = bstr "mockdecrypt") then
    match decode decryption_request_codec (req_data req) with
    | Some request => set_value resp (enc decryption_response_codec (mock_decrypt storage (body_txs (request_body request))))
    | None => failed resp 1 (bstr "invalid request")
    end
  else failed resp 1 (bstr "invalid path").
End queries.

(** ** The wallet's side *)

Section obfuscation.
Context `{Hashes, Scale, Ecdsa, TimeLib, TendermintLib, Base64}.

Definition mock_encrypt_request (client : Client) (encryption_request : EncryptionRequest) : result ErrorKind TxAux :=
  query ← client_query client (bstr "mockencrypt") (enc encryption_request_codec encryption_request);
  response ← query_bytes query;
  resp ← chain_none Kind.DeserializationError (decode encryption_response_codec response);
  encrypted_transaction ← chain_err Kind.InvalidInput resp;
  Ok (EnclaveTx encrypted_transaction).

Definition mock_obfuscation_encrypt (client : Client) (transaction : SignedTransaction) : result ErrorKind TxAux :=
  match transaction with
  | SignedTransfer tx witness => mock_encrypt_request client (EncTransferTx tx witness)
  | SignedDeposit tx witness => mock_encrypt_request client (EncDepositStake tx witness)
  | SignedWithdraw tx state witness => mock_encrypt_request client (EncWithdrawStake tx state witness)
  end.

Definition mock_decrypt_request (client : Client) (request : DecryptionRequest) : result ErrorKind (list Transaction) :=
  query ← client_query client (bstr "mockdecrypt") (enc decryption_request_codec request);
  response ← query_bytes query;
  txs ← chain_none Kind.DeserializationError (decode decryption_response_codec response);
  Ok (map tx_with_outputs_transaction txs).

Definition mock_obfuscation_decrypt (client : Client) (transaction_ids : list TxId) (private_key : PrivateKey) :
  run ErrorKind (list Transaction) :=
  match transaction_ids with
  | [] => Some (Ok [])
  | _ =>
      request ← decryption_request_create transaction_ids (replicate 32 Byte.x00) private_key;
      Some (mock_decrypt_request client request)
  end.
End obfuscation.

(** ** Through the mock *)

Section mock.
Context `{Hashes, ScaleLaws, !ScaleSizes, !ScaleVec, EcdsaLaws, !Secp256k1Laws, BitVecLaws, KeyValueDBLaws, TimeLib, TendermintLib, Base64}.

(** A node of the mock build: its answers in base 64, or an error. *)
Definition mock_answers (client : Client) (db : Db) : Prop := ∀ path data,
  path = bstr "mockencrypt" ∨ path = bstr "mockdecrypt" →
  let r := mock_handle_enc_dec {| req_path := path; req_data := data; req_height := 0; req_prove := false |} response_new db in
  client_query client path data
  = if q_code r =? 0 then Ok {| query_value := Some (base64_encode (q_value r)) |} else Err Kind.TendermintRpcError.

Lemma mock_encrypt_eq req : mock_encrypt req = public_tx req (mock_obfuscated (request_id req) (request_plain req)).
Proof. by destruct req. Qed.

Lemma mock_payload_ok req :
  encryption_request_ok req → request_fits req → obfuscated_ok (mock_obfuscated (request_id req) (request_plain req)).
Proof.
  intros Hok Hf. pose proof (request_size req Hf). pose proof (plain_smaller req). unfold tls_fragment in *.
  split_and!; [simpl; ints | done | apply vec_ok_any; cbn [txpayload mock_obfuscated]; ints | apply request_id_length].
Qed.

Lemma mock_response_decodes req :
  encryption_request_ok req → request_fits req →
  decode encryption_response_codec (enc encryption_response_codec (Ok (mock_encrypt req))) = Some (Ok (mock_encrypt req)).
Proof.
  intros Hok Hf. pose proof (mock_payload_ok req Hok Hf) as Hp. rewrite mock_encrypt_eq.
  unfold decode, encryption_response_codec. cbn [enc dec result_codec]. rewrite dbind_read_byte, decide_True by done.
  rewrite <- (app_nil_r (enc _ (public_tx _ _))). unfold dbind. rewrite tx_enclave_aux_codec_ok; [done| |].
  - destruct req as [tx w|tx w|tx a w]; destruct Hok as [Hok _]; cbn [public_tx enclave_aux_ok].
    + split; [apply Hok|]. split; [apply outputs_u16 | exact Hp].
    + split; [exact Hok | exact Hp].
    + split; [apply outputs_u16 | exact Hp].
  - destruct req as [|tx w|]; [done| |done]. cbn [public_tx deposit_fits request_fits] in *. destruct Hp as (Hk & Hiv & _ & Hid).
    rewrite app_nil_r. cbn [enc obfuscated_codec]. unfold len_of, MAX_DEPOSIT_TX_SIZE in *.
    rewrite !length_app, i64_size, !array_size, bytes_size by done. rewrite !length_app in Hf.
    cbn [mock_obfuscated txpayload request_plain enc plain_tx_aux_codec length].
    assert (Hc : (compact_size (Z.of_nat (S (length (enc tx_witness_codec w)))) ≤ 2)%nat); [|lia].
    unfold compact_size. change (2 ^ 14) with 16384. destruct (_ <? 2 ^ 6); [lia|].
    destruct (Z.ltb_spec (Z.of_nat (S (length (enc tx_witness_codec w)))) 16384); lia.
Qed.

Lemma mock_encrypts client db st :
  mock_answers client db → encryption_request_ok (request_of st) → request_fits (request_of st) →
  mock_obfuscation_encrypt client st = Ok (EnclaveTx (mock_encrypt (request_of st))).
Proof.
  intros Hc Hok Hfits. transitivity (mock_encrypt_request client (request_of st)); [by destruct st|].
  unfold mock_encrypt_request. rewrite Hc by by left. unfold mock_handle_enc_dec. cbn [req_path req_data].
  rewrite decide_True by done.
  replace (decode encryption_request_codec (enc encryption_request_codec (request_of st))) with (Some (request_of st))
    by (unfold decode; by rewrite request_decodes).
  cbn [q_code set_value response_new q_value Z.eqb mbind result_bind]. unfold query_bytes. cbn [query_value].
  unfold from_base64. rewrite base64_decode_encode. cbn [chain_none mbind result_bind]. by rewrite mock_response_decodes.
Qed.

(** A transaction that is the body of an identifier and can be decoded. *)
Definition body_at (db : Db) (i : TxId) (t : TxWithOutputs) : Prop :=
  db_view db !! (COL_BODIES, i) = Some (enc tx_with_outputs_codec t) ∧ with_outputs_ok t ∧ reply_fits [t] = true.

Lemma mock_decrypt_bodies db ids txs : Forall2 (body_at db) ids txs → mock_decrypt db ids = txs.
Proof.
  induction 1 as [|i t ids txs (Hdb & Hok & Hfit) _ IH]; [done|]. unfold mock_decrypt. cbn [omap list_omap].
  rewrite db_get_view, Hdb. unfold decode. pose proof (with_outputs_dec t [] Hok) as Hd. cbn [fmap list_fmap concat] in Hd.
  rewrite app_nil_r in Hd. rewrite Hd. cbn [reply_fits fmap list_fmap concat] in Hfit. rewrite andb_true_r in Hfit.
  rewrite Hfit. f_equal. exact IH.
Qed.

Lemma mock_decrypts client db ids txs sk :
  mock_answers client db → ids ≠ [] → vec_ok (array_ok 32) ids → Forall2 (body_at db) ids txs →
  mock_obfuscation_decrypt client ids sk
  = Some (if reply_fits txs then Ok (tx_with_outputs_transaction <$> txs) else Err Kind.DeserializationError).
Proof.
  intros Hc Hne Hids Htxs. destruct (create_verifies ids (replicate 32 Byte.x00) sk) as (dr & Hcr & Hbody & _).
  transitivity (Some (mock_decrypt_request client dr)).
  { unfold mock_obfuscation_decrypt. rewrite Hcr. by destruct ids. }
  f_equal. unfold mock_decrypt_request. rewrite Hc by by right. unfold mock_handle_enc_dec. cbn [req_path req_data].
  rewrite decide_False, decide_True by done.
  rewrite (decode_ok _ _ _ decryption_request_codec_ok) by by rewrite Hbody. rewrite Hbody.
  cbn [body_txs q_code set_value response_new q_value Z.eqb mbind result_bind]. unfold query_bytes. cbn [query_value].
  unfold from_base64. rewrite base64_decode_encode. cbn [chain_none mbind result_bind].
  rewrite (mock_decrypt_bodies _ _ _ Htxs), reply_dec.
  - by destruct (reply_fits txs).
  - clear -Htxs. induction Htxs as [|i t ids txs (_ & Hok & _) _ IH]; by constructor.
  - rewrite <- (Forall2_length _ _ _ Htxs). apply Hids.
Qed.

(** The verdict of the validation library on what was signed. *)
Definition judged (req : EncryptionRequest) (account : option StakedState) (info : ChainInfo) (sources : list TxWithOutputs) :
  run Error (Fee * option StakedState) :=
  match req with
  | EncTransferTx tx w => fee ?← verify_transfer tx w info sources; Some (Ok (fee, None))
  | EncDepositStake tx w => verify_bonded_deposit tx w info sources account
  | EncWithdrawStake tx _ _ => account ← account; verify_unbonded_withdraw tx info account
  end.

(** What can be spent once the transaction was accepted. *)
Definition created (req : EncryptionRequest) : option TxWithOutputs :=
  match req with
  | EncTransferTx tx _ => Some (Transfer tx)
  | EncDepositStake _ _ => None
  | EncWithdrawStake tx _ _ => Some (StakeWithdraw tx)
  end.

Lemma mock_accept_ok self i t :
  filter_ok (mock_filter self) →
  ∃ self', mock_accept self i t = Some self' ∧ local_tx_store self' = <[i := t]> (local_tx_store self)
    ∧ filter_ok (mock_filter self')
    ∧ ∀ k, k ∈ view_key <$> tx_allowed_view t → check_view_key (mock_filter self') k = Some true.
Proof.
  intros Hf. destruct (add_keys_spec (mock_filter self) (tx_allowed_view t) Hf) as (f' & E & Hf' & _ & Hk).
  unfold mock_accept, mock_add_view_keys. rewrite E. cbn. eexists. split; [done|]. split; [done|]. split; [done|].
  intros k Hin. by apply Hk.
Qed.

(** The mock judges what was signed.  In a build without enclaves, a wallet that encrypts
    a signed transaction through the node gets the public transaction whose payload is the
    plain one, and the client that stands for the enclave answers it with the verdict of the
    validation library on the signed transaction and the transactions that its inputs spend.
    A refused transaction changes nothing; the outputs of an accepted one can be spent, and
    its view keys are in the filter.  The wallet decrypts every stored transaction whatever
    its key, as long as the reply stays within the size limits. *)
Theorem mock_judges_signed client db self st account info sources v :
  mock_answers client db → encryption_request_ok (request_of st) → request_fits (request_of st) →
  filter_ok (mock_filter self) →
  mapM (λ x, mock_lookup self (id x)) (default [] (request_inputs (request_of st))) = Some sources →
  judged (request_of st) account info sources = Some v →
  (∃ tx self', mock_obfuscation_encrypt client st = Ok (EnclaveTx tx)
     ∧ mock_process_request self (new_tx_request tx account info) = Some (RespVerifyTx v, self')
     ∧ match v, created (request_of st) with
       | Ok _, Some t =>
           mock_lookup self' (request_id (request_of st)) = Some t
           ∧ (∀ i, i ≠ request_id (request_of st) → mock_lookup self' i = mock_lookup self i)
           ∧ ∀ k, k ∈ view_key <$> tx_allowed_view t → check_view_key (mock_filter self') k = Some true
       | _, _ => self' = self
       end)
  ∧ (∀ ids txs sk, ids ≠ [] → vec_ok (array_ok 32) ids → Forall2 (body_at db) ids txs →
       mock_obfuscation_decrypt client ids sk
       = Some (if reply_fits txs then Ok (tx_with_outputs_transaction <$> txs) else Err Kind.DeserializationError)).
Proof.
  intros Hc Hok Hfits Hf Hsrc Hv. split; [|intros ids txs sk; by apply mock_decrypts].
  exists (mock_encrypt (request_of st)). rewrite (mock_encrypts _ _ _ Hc Hok Hfits).
  pose proof (plain_decodes _ Hok Hfits) as Hp.
  cbn [mock_process_request new_tx_request]. unfold mock_verify_tx. cbn [req_tx req_account req_info].
  destruct (request_of st) as [tx w|tx w|tx a w]; cbn [mock_encrypt request_inputs request_plain request_id default created judged] in *.
  - unfold Datatypes.id in Hsrc. rewrite Hsrc. cbn [mbind option_bind txpayload mock_obfuscated]. rewrite Hp.
    destruct (verify_transfer tx w info sources) as [[fee|e]|]; cbn [mbind option_bind] in *; [..|done].
    + injection Hv as <-. destruct (mock_accept_ok self (transaction_id tx_codec tx) (Transfer tx) Hf) as (self' & E & Hst & _ & Hk).
      rewrite E. cbn. exists self'. split; [done|]. split; [done|]. unfold mock_lookup. rewrite Hst. split; [apply lookup_insert_eq|].
      split; [intros i Hi; by apply lookup_insert_ne | done].
    + injection Hv as <-. by exists self.
  - unfold Datatypes.id in Hsrc. rewrite Hsrc. cbn [mbind option_bind txpayload mock_obfuscated]. rewrite Hp, Hv. exists self. split; [done|]. by destruct v.
  - cbn [mbind option_bind txpayload mock_obfuscated]. rewrite Hp. destruct account as [acc|]; [|done]. cbn [mbind option_bind] in *.
    rewrite Hv. cbn [mbind option_bind]. destruct v as [r|e]; [|exists self; split; [reflexivity | split; reflexivity]].
    destruct (mock_accept_ok self (transaction_id withdraw_codec tx) (StakeWithdraw tx) Hf) as (self' & E & Hst & _ & Hk).
    rewrite E. cbn. exists self'. split; [done|]. split; [done|]. unfold mock_lookup. rewrite Hst. split; [apply lookup_insert_eq|].
    split; [intros i Hi; by apply lookup_insert_ne | done].
Qed.
End mock.

(** ** A spend through the mock *)

Module MockExample.
Import Validation.Example ServerExample ClientExample TxQueryExample SyncExample.
#[local] Existing Instance Ref.base64.
#[local] Existing Instance kvdb_ref.
#[local] Existing Instance kvdb_ref_laws.
#[local] Existing Instance bit_vec_ref_laws.
#[local] Instance tendermint_mock : TendermintLib.
Proof.
  refine {| ValidatorInfo := unit; ValidatorSet := unit; LiteHeader := Empty_set; validator_set_new _ := tt;
            trusted_to_json _ := bstr "{}"; trusted_from_json _ := Some (None, tt); hash_to_string := hex_encode |}.
  intros [[[]|] []]. reflexivity.
Defined.

Definition bodies : Db := ({[ (COL_BODIES, spend_id) := enc tx_with_outputs_codec (Transfer spend) ]} : dbmap).
Definition mock_node : Client := {|
  client_genesis_validators := Ok [];
  client_status := Err Kind.InvalidInput;
  client_block _ := Err Kind.InvalidInput;
  client_block_results _ := Err Kind.InvalidInput;
  client_block_results_batch _ := Err Kind.InvalidInput;
  client_block_batch_verified _ _ := Err Kind.InvalidInput;
  client_broadcast_transaction _ := Ok tt;
  client_query path data :=
    let r := mock_handle_enc_dec {| req_path := path; req_data := data; req_height := 0; req_prove := false |} response_new bodies in
    if q_code r =? 0 then Ok {| query_value := Some (base64_encode (q_value r)) |} else Err Kind.TendermintRpcError;
  client_query_state_batch _ := Err Kind.InvalidInput;
|}.
Lemma mock_node_answers : mock_answers mock_node bodies.
Proof. intros path data _. reflexivity. Qed.

Definition mock_start : MockClient :=
  {| mock_chain_hex_id := 171; local_tx_store := {[ id pointer := Transfer prev_tx ]}; mock_filter := filter_default |}.
Lemma start_filter : filter_ok (mock_filter mock_start).
Proof. reflexivity. Qed.

Lemma spend_judged : ∃ fee, judged spend_request None info [Transfer prev_tx] = Some (Ok (fee, None)).
Proof.
  pose proof spend_verdict_true as Hv. unfold spend_verdict in Hv. cbn [judged spend_request].
  destruct (verify_transfer _ _ _ _) as [[fee|]|]; [by exists fee | discriminate Hv..].
Qed.

Definition spend_sources : option (list TxWithOutputs) := Some [Transfer prev_tx].
Lemma spend_looked_up :
  mapM (λ x, mock_lookup mock_start (id x)) (default [] (request_inputs spend_request)) = spend_sources.
Proof. vm_cast_no_check (@eq_refl (option (list TxWithOutputs)) spend_sources). Qed.

Lemma mock_judges_signed_witness :
  ∃ tx self' fee, mock_obfuscation_encrypt mock_node (SignedTransfer spend witness) = Ok (EnclaveTx tx)
    ∧ mock_process_request mock_start (new_tx_request tx None info) = Some (RespVerifyTx (Ok (fee, None)), self')
    ∧ mock_lookup self' spend_id = Some (Transfer spend).
Proof.
  destruct spend_judged as [fee Hj].
  destruct (mock_judges_signed mock_node bodies mock_start (SignedTransfer spend witness) None info [Transfer prev_tx] (Ok (fee, None)))
    as [(tx & self' & He & Hp & Hl & _) _].
  - exact mock_node_answers.
  - exact spend_request_ok.
  - vm_compute. discriminate.
  - exact start_filter.
  - exact spend_looked_up.
  - exact Hj.
  - exists tx, self', fee. split; [exact He|]. split; [exact Hp | exact Hl].
Defined.
End MockExample.
